(* ===== verification/_CoqProject ===== *)
-Q . S2P
Prelude.v
Bytes.v
Types.v
Committee.v
ThresholdClock.v
BlockAuth.v
Epoch.v
BTree.v
RangeMap.v
Aggregator.v
BlockStore.v
Wal.v
WalLog.v
BlockManager.v
Linearizer.v
Consensus.v
ConsensusSafety.v
Recovery.v
Core.v
CoreRecovery.v
CoreSample.v
CoreRuns.v
CoreProposals.v
Handlers.v
Syncer.v
Graph.v
GraphSim.v
Integrator.v
Concurrent.v
PevmTypes.v
Scheduler.v
MvMemory.v
VmDb.v
Chain.v
BlockStm.v
VmExecute.v
VmRepeat.v
BlockStmInv.v
BlockStmSafety.v
BlockStmCorrect.v
BlockStmProv.v
BlockStmSerial.v
PevmBlock.v
PevmEval.v
PevmFinish.v
PevmAccess.v
GraphScheduler.v
GraphOrder.v
TxCodec.v
InMemory.v
NonceTracker.v
BatchSchedule.v
FairSchedule.v
FairCorrect.v
Finalization.v
NetSync.v
GraphCycle.v
