(* ===== verification/Prelude.v ===== *)
(** * Verification of congestion_control

    The repository combines two programs. src/mysticeti is a BFT consensus node: its
    validators build a DAG of signed blocks, decide leaders by the direct and the
    indirect commit rule and linearize the history of every committed leader.
    src/pevm executes the blocks of transactions: transactions run in parallel on worker
    threads over a multi-version memory (Block-STM), guided by a dependency graph that
    is built from earlier executions, merged across blocks and simulated to balance
    the load. The validator hands its committed blocks to an executor, and the service
    interface of the executor orders pending transactions into batches.

    ** How the code is modelled

    A 64-bit integer is an [N] with its wrap-around written out ([u64_add] and so on,
    in this file), or a [nat] where it is an index into a vector of bounded length; a
    [HashMap], [HashSet] or [BTreeMap] is a [gmap] or [gset], and the order in which a
    hash container is visited is a parameter ([Graph.HashOrder]) or a choice of the
    environment ([MvMemory.orders]). Code that may panic returns an [outcome] ([Ok],
    [Panic]); a loop without a structural measure runs with fuel and returns [OutOfFuel]
    when there is too little, and the theorems show that the fuel the definitions choose
    is enough. Code that runs on several threads is a [Concurrent.prog]: a tree of atomic
    actions on shared state, interleaved action by action; locks held over several
    actions are part of the state. Metrics, logging and diagnostics counters are left out
    everywhere. A process that stops and restarts is a run of operations and restarts
    over one log; what a crash may leave behind is any prefix of the writes of an
    operation ([CoreRecovery.log_event]).

    ** Files, in the order of the build

    This file: outcomes, monadic loops with their proof rules, 64-bit arithmetic, sums
    over lists and finite sets. Bytes: little- and big-endian conversions.

    Consensus (src/mysticeti/crates/mysticeti-core/src):
    - Types (types.rs, part of committee.rs): block references, statements, locator
      ranges, authority sets, [shared_ranges];
    - Committee (committee.rs): stakes, thresholds, [StakeAggregator];
    - ThresholdClock (threshold_clock.rs), Epoch (epoch_close.rs);
    - BlockAuth (crypto.rs, types.rs): what a block hashes and signs, construction and
      verification of blocks, against the interface [Crypto];
    - BTree, RangeMap (range_map.rs): ordered maps and the range map on top of them;
    - Aggregator (committee.rs, log.rs): [TransactionAggregator], certification of
      transactions by votes;
    - BlockStore (block_store.rs): the index of blocks, its readers as the interface
      [BlockReader], [linked];
    - Wal (wal.rs): the write-ahead log byte by byte; WalLog: the log as the interface
      [WalOps] with its laws, which Wal discharges;
    - BlockManager (block_manager.rs): suspension of blocks with missing ancestors,
      against the interface [BlockWriter];
    - Linearizer (consensus/linearizer.rs), Consensus (consensus/mod.rs,
      base_committer.rs, universal_committer.rs): the commit rules, against
      [BlockReader]; ConsensusSafety: agreement;
    - Recovery (state.rs, [BlockStore::open]): replay of the log; Core (core.rs): the
      state machine of a validator; CoreRecovery, CoreRuns, CoreProposals: its log, its
      runs with restarts, and the validity of its proposals; CoreSample: concrete
      parameters for the examples;
    - Handlers (block_handler.rs): the block handler and the commit observer; Syncer
      (syncer.rs, core_thread/spawned.rs, start of net_sync.rs): the core thread;
    - NetSync (net_sync.rs, synchronizer.rs, the messages of network.rs): connection
      tasks, streams of own blocks, replies to requests, the block fetcher and the timers,
      as steps over the core thread and the store it shares with them;
    - Finalization (finalization_interpreter.rs): certified and finalized transactions of
      the blocks of a store.

    Execution (src/pevm/crates/pevm/src):
    - Graph, GraphSim (dependency_graph.rs): construction and integration of dependency
      graphs, longest suffixes, simulated execution on [k] threads in f64 arithmetic,
      hot keys; Integrator (graph_pevm.rs, greedy_integrator.rs): reordering and greedy
      merging of graphs;
    - Concurrent: programs over shared memory, their interleavings and a token logic
      to verify them; PevmTypes (lib.rs);
    - Scheduler (scheduler.rs), MvMemory (mv_memory.rs): the collaborative scheduler and
      the multi-version memory; VmDb (vm.rs): the database the EVM reads through; Chain
      (chain.rs, chain/ethereum.rs, compat.rs): block and transaction environments;
    - BlockStm (pevm.rs): the worker threads; VmExecute, VmRepeat (vm.rs): one execution
      of a transaction, and its repetition; BlockStmInv, BlockStmSafety, BlockStmCorrect:
      the invariant of the threads, its preservation and its consequences; BlockStmProv,
      BlockStmSerial: where every read comes from, and serializability;
    - PevmBlock (pevm.rs, graph_pevm.rs): the end of a block and the sequential
      executors; PevmEval, PevmFinish, PevmAccess: lazy updates, the absence of panics, and
      access sets;
    - GraphScheduler, GraphOrder (graph_scheduler.rs, graph_pevm.rs): the scheduler that
      follows the dependency graph, and the order it keeps; GraphCycle
      (dependency_graph.rs): cycle detection;
    - TxCodec (serialization): transactions as hexadecimal envelopes, files and EVM
      transactions; InMemory (storage.rs, storage/in_memory.rs, api.rs): accounts in memory and
      the application of results; NonceTracker (utils/nonce_tracker.rs);
    - BatchSchedule (api.rs): the queue of transactions and the scheduling of a batch;
      FairSchedule, FairCorrect (api.rs): its concurrent version.

    ** What the theorems show

    Consensus: two correct validators never decide differently
    ([ConsensusSafety.try_commit_agreement]), because a leader has at most one certified
    block, quorums intersect in a correct authority and a direct decision binds the
    indirect rule; the block manager hands blocks on in causal order and waits for
    exactly the missing ones; the linearizer outputs every ancestor of a leader once;
    the range map and the transaction aggregator refine pointwise specifications; the
    block store implements the abstract DAG; the threshold clock computes the round its
    specification gives; a block is accepted exactly when it is authentic and well
    formed.

    A validator over time: every entry of the log reads back as it was written and the
    replay returns exactly the entries; reopening the log gives back the state of the
    core; through any run with crashes a validator never proposes two blocks for a
    round, every block it proposes is accepted by the others, and no block is delivered
    twice. On the network: whatever its peers send, only verified blocks reach the store,
    validators that behave honestly never give one another a reason to disconnect, and the
    fetcher requests exactly what has been missing for the grace period
    ([NetSync.network_store_valid], [NetSync.honest_peers_stay_connected],
    [NetSync.fetcher_requests_exact]). The finalization interpreter returns exactly the
    transactions that a quorum of certifying blocks finalizes.

    Execution: the graph has exactly the conflict edges its construction promises, and
    simulation, reordering and integration keep every transaction once and respect the
    edges; no interleaving of the worker threads fails an assertion, and when they end
    every transaction is validated, with its result, every recorded read agrees with the
    final memory, and executing the transactions one after the other gives the same
    results and the same memory ([BlockStmSerial.block_stm_serializable]). The end of a
    block neither panics nor loses a result, the balances it evaluates forwards are those
    that readers sum up backwards, and collecting access sets changes no result. Under
    the graph scheduler a transaction starts only after its parents in the graph.

    Around the executor: encoding a batch and decoding it again gives the same
    transactions; applying results to the storage makes every account read as the last
    result says; the nonce tracker assigns the nonces that execution asks for; both
    schedulers keep every transaction once, and the concurrent one keeps conflicting
    transactions a concurrency level apart in every interleaving.

    A group of theorems records behaviour that a reader may not expect: integer
    wrap-around of the quorum threshold, waves longer than three rounds, weak links,
    write-after-write conflicts lost by the graph, log positions the replay panics on,
    state a restart loses, blocks that verify but stop their readers, and others listed
    as findings. They are lemmas next to the definitions they are about.

    ** Bounds and fuel

    Block sizes, stakes and rounds are bounded by 2^64 where the code's arithmetic needs
    it; each theorem states the bound. Loops of the consensus and of the graph code have
    fuel linear in the number of blocks, ranges or nodes; the theorems conclude [Ok],
    never [OutOfFuel]. The iterator over the log has one unit of fuel per byte. The
    write-ahead log is parametric in the size of a map; the bounds 5 to 31 on its
    logarithm cover the production and the test configuration. The worker threads need no fuel: their theorems quantify over all
    reachable states, and termination of the threads is not claimed, because the EVM may
    block or retry for ever.

    The network syncer is a list of events, one step of one task each; its theorems hold for all
    lists. The interpreter's recursion has a block's round plus one as fuel, the cycle search
    the number of nodes plus one, and the search for a slot of a batch the number of slots.

    ** Not modelled

    The hash function and the signature scheme, sockets and framing, the asynchronous
    runtime, the EVM itself, the RLP, hexadecimal and bincode formats, files and remote
    storage, configuration, metrics, benchmarks, workload generators and the deployment
    tooling: they are external packages, operating system services, reporting or test tooling.
    The Optimism chain is behind a feature that the repository does not enable. Where
    modelled code calls such code it is a parameter ([BlockAuth.Crypto], [Recovery.Codec],
    [Core.PevmExecutor], the file system and memory map of Wal, [VmDb.Storage], the hash of a
    location, the EVM of VmExecute, [TxCodec.CodecSpec], the random choices of
    [NetSync.Sampling]), and what is relied upon is a class of laws or a named hypothesis with a
    concrete instance among the witnesses. Not proved: liveness of consensus, and that the
    worker threads end. *)

From stdpp Require Export base tactics option list numbers gmap sorting fin_maps.
From Stdlib Require Export ZArith NArith Lia.
#[global] Open Scope N_scope.

(** ** Outcomes of Rust code

    [Ok a] is a normal return, [Panic] an [assert!], [expect], [panic!] or
    out-of-range index, [OutOfFuel] is the artefact of a loop that was given too
    little fuel; every theorem that claims a result claims an [Ok]. *)

Inductive outcome (A : Type) : Type :=
| Ok (a : A)
| Panic
| OutOfFuel.
Arguments Ok {A} _.
Arguments Panic {A}.
Arguments OutOfFuel {A}.

#[global] Instance outcome_ret : MRet outcome := @Ok.
#[global] Instance outcome_bind : MBind outcome := λ A B f m,
  match m with Ok a => f a | Panic => Panic | OutOfFuel => OutOfFuel end.
#[global] Instance outcome_fmap : FMap outcome := λ A B f m,
  match m with Ok a => Ok (f a) | Panic => Panic | OutOfFuel => OutOfFuel end.

(** [assert!(b)]. *)
Definition rust_assert (b : bool) : outcome unit := if b then Ok tt else Panic.

(** [o.expect(..)] and [o.unwrap()]. *)
Definition expect {A} (o : option A) : outcome A :=
  match o with Some a => Ok a | None => Panic end.

Definition is_ok {A} (m : outcome A) : Prop := ∃ a, m = Ok a.

Lemma bind_ok {A B} (m : outcome A) (f : A → outcome B) b :
  (m ≫= f) = Ok b ↔ ∃ a, m = Ok a ∧ f a = Ok b.
Proof. destruct m; simpl; naive_solver. Qed.

Lemma bind_fuel {A B} (m : outcome A) (f : A → outcome B) :
  m ≠ OutOfFuel → (∀ a, f a ≠ OutOfFuel) → (m ≫= f) ≠ OutOfFuel.
Proof. destruct m; simpl; auto. Qed.

Lemma rust_assert_fuel b : rust_assert b ≠ OutOfFuel.
Proof. by destruct b. Qed.

Lemma expect_ok {A} (o : option A) a : expect o = Ok a ↔ o = Some a.
Proof. destruct o; simpl; naive_solver. Qed.

Lemma rust_assert_ok b u : rust_assert b = Ok u ↔ b = true.
Proof. destruct b, u; simpl; naive_solver. Qed.

(** ** Machine integers

    [u64] and [usize] (64-bit targets) are [N]; the release profile of both
    workspaces has no overflow checks, so [+], [-] and [*] wrap. *)

Definition u64_modulus : N := 2 ^ 64.
Definition u64_max : N := u64_modulus - 1.
Definition wrap64 (x : N) : N := x mod u64_modulus.
Definition u64_add (a b : N) : N := wrap64 (a + b).
Definition u64_mul (a b : N) : N := wrap64 (a * b).
Definition u64_sub (a b : N) : N := wrap64 (a + u64_modulus - wrap64 b).
(** [checked_add] on [u64]. *)
Definition u64_checked_add (a b : N) : option N :=
  if bool_decide (a + b < u64_modulus) then Some (a + b) else None.
Definition u64_saturating_add (a b : N) : N := N.min (a + b) u64_max.

Lemma u64_modulus_eq : u64_modulus = 18446744073709551616.
Proof. reflexivity. Qed.

Lemma wrap64_small x : x < u64_modulus → wrap64 x = x.
Proof. apply N.mod_small. Qed.

Lemma wrap64_lt x : wrap64 x < u64_modulus.
Proof. by apply N.mod_lt. Qed.

Lemma u64_add_small a b : a + b < u64_modulus → u64_add a b = a + b.
Proof. apply wrap64_small. Qed.

Lemma u64_mul_small a b : a * b < u64_modulus → u64_mul a b = a * b.
Proof. apply wrap64_small. Qed.

Lemma u64_sub_small a b : b ≤ a → a < u64_modulus → u64_sub a b = a - b.
Proof.
  intros Hab Ha. unfold u64_sub. rewrite (wrap64_small b) by lia.
  unfold wrap64. replace (a + u64_modulus - b) with ((a - b) + 1 * u64_modulus) by lia.
  rewrite N.Div0.mod_add. apply N.mod_small. lia.
Qed.

Create HintDb u64.
#[export] Hint Rewrite u64_add_small u64_mul_small u64_sub_small wrap64_small
  using (rewrite ?u64_modulus_eq in *; lia) : u64.

(** Decides a boolean comparison that occurs as [bool_decide]. *)
Ltac bdestr :=
  repeat match goal with
  | H : bool_decide _ = true |- _ => apply bool_decide_eq_true_1 in H
  | H : bool_decide _ = false |- _ => apply bool_decide_eq_false_1 in H
  | H : (_ && _) = true |- _ => apply andb_true_iff in H as [? ?]
  | H : (_ || _) = false |- _ => apply orb_false_iff in H as [? ?]
  | H : negb _ = true |- _ => apply negb_true_iff in H
  | H : negb _ = false |- _ => apply negb_false_iff in H
  end.

(** Decomposes a successful monadic computation. *)
Ltac outcome_inv :=
  repeat match goal with
  | H : (_ ≫= _) = Ok _ |- _ => apply bind_ok in H as (? & ? & ?)
  | H : expect _ = Ok _ |- _ => apply expect_ok in H
  | H : rust_assert _ = Ok _ |- _ => apply rust_assert_ok in H
  | H : Ok _ = Ok _ |- _ => injection H as H; subst
  | H : mret _ = Ok _ |- _ => injection H as H; subst
  | H : Panic = Ok _ |- _ => discriminate H
  | H : OutOfFuel = Ok _ |- _ => discriminate H
  end.

(** ** Sums over finite sets *)

Section set_sum.
Context `{Countable A}.
Implicit Types (f : A → N) (X Y : gset A).

Definition list_sum f (l : list A) : N := foldr (λ x acc, f x + acc) 0 l.
Definition set_sum f X : N := list_sum f (elements X).

Lemma list_sum_app f l1 l2 : list_sum f (l1 ++ l2) = list_sum f l1 + list_sum f l2.
Proof. induction l1; simpl in *; lia. Qed.

Lemma list_sum_perm f l1 l2 : l1 ≡ₚ l2 → list_sum f l1 = list_sum f l2.
Proof. induction 1; simpl; lia. Qed.

Lemma list_sum_ext f g l : (∀ x, x ∈ l → f x = g x) → list_sum f l = list_sum g l.
Proof.
  induction l as [|x l IH]; intros Hfg; [done|]. simpl.
  rewrite Hfg by left. f_equal. apply IH. intros y Hy. apply Hfg. by right.
Qed.

Lemma list_sum_elem_le f l x : x ∈ l → f x ≤ list_sum f l.
Proof. induction 1; simpl; lia. Qed.

Lemma set_sum_empty f : set_sum f ∅ = 0.
Proof. unfold set_sum. by rewrite elements_empty. Qed.

Lemma set_sum_disj_union f X Y : X ## Y → set_sum f (X ∪ Y) = set_sum f X + set_sum f Y.
Proof.
  intros HXY. unfold set_sum. rewrite <-list_sum_app. apply list_sum_perm.
  by apply elements_disj_union.
Qed.

Lemma set_sum_singleton f x : set_sum f {[x]} = f x.
Proof. unfold set_sum. rewrite elements_singleton. simpl. lia. Qed.

Lemma set_sum_insert f x X : x ∉ X → set_sum f ({[x]} ∪ X) = f x + set_sum f X.
Proof. intros. rewrite set_sum_disj_union, set_sum_singleton by set_solver. done. Qed.

Lemma set_sum_subseteq f X Y : X ⊆ Y → set_sum f X ≤ set_sum f Y.
Proof.
  intros HXY. rewrite (union_difference_L X Y HXY), set_sum_disj_union by set_solver. lia.
Qed.

Lemma set_sum_union_inter f X Y :
  set_sum f (X ∪ Y) + set_sum f (X ∩ Y) = set_sum f X + set_sum f Y.
Proof.
  rewrite (union_difference_L X (X ∪ Y)) at 1 by set_solver.
  rewrite set_sum_disj_union by set_solver.
  replace ((X ∪ Y) ∖ X) with (Y ∖ X) by set_solver.
  enough (set_sum f Y = set_sum f (Y ∖ X) + set_sum f (X ∩ Y)) by lia.
  rewrite <-set_sum_disj_union by set_solver. f_equal.
  apply set_eq. intros x. destruct (decide (x ∈ X)); set_solver.
Qed.

Lemma set_sum_union_le f X Y : set_sum f (X ∪ Y) ≤ set_sum f X + set_sum f Y.
Proof. pose proof (set_sum_union_inter f X Y). lia. Qed.

Lemma set_sum_ext f g X : (∀ x, x ∈ X → f x = g x) → set_sum f X = set_sum g X.
Proof.
  induction X as [|x X Hx IH] using set_ind_L; intros Hfg; [done|].
  rewrite !set_sum_insert by done. rewrite Hfg, IH by set_solver. done.
Qed.

(** A duplicate-free list sums like the set of its elements. *)
Lemma set_sum_list_to_set f (l : list A) :
  NoDup l → set_sum f (list_to_set l) = list_sum f l.
Proof. intros. apply list_sum_perm. by apply elements_list_to_set. Qed.
End set_sum.

(** ** Loops

    A Rust [loop] is a step function that either continues with a new state
    ([inl]) or breaks with a result ([inr]). The fuel is a binary number and the
    recursion splits it in halves, so a generous bound costs nothing when the loop
    breaks early. *)

Section loop.
Context {S R : Type} (step : S → outcome (S + R)).

Definition loop_then (k : S → outcome (S + R)) (m : outcome (S + R)) : outcome (S + R) :=
  match m with Ok (inl s) => k s | _ => m end.

Fixpoint loop_pos (p : positive) (s : S) : outcome (S + R) :=
  match p with
  | xH => step s
  | xO p => loop_then (loop_pos p) (loop_pos p s)
  | xI p => loop_then (loop_pos p) (loop_then (loop_pos p) (step s))
  end.

Definition loop (fuel : N) (s : S) : outcome R :=
  match fuel with
  | 0 => OutOfFuel
  | Npos p => match loop_pos p s with
              | Ok (inr r) => Ok r | Ok (inl _) => OutOfFuel
              | Panic => Panic | OutOfFuel => OutOfFuel
              end
  end.

(** Total correctness of a loop: [I] is the invariant, [μ] decreases on every
    continuing iteration, [Q] holds of the result (a value or a panic), and the
    fuel exceeds the initial measure. *)
Lemma loop_rule (I : S → Prop) (Q : outcome R → Prop) (μ : S → N) :
  (∀ s, I s → match step s with
              | Ok (inl s') => I s' ∧ μ s' < μ s
              | Ok (inr r) => Q (Ok r)
              | Panic => Q Panic
              | OutOfFuel => False
              end) →
  ∀ fuel s, I s → μ s < fuel → Q (loop fuel s).
Proof.
  intros Hstep.
  set (P (n : N) s m := match m with
                  | Ok (inl s') => I s' ∧ μ s' + n ≤ μ s
                  | Ok (inr r) => Q (Ok r) | Panic => Q Panic | OutOfFuel => False end).
  assert (Hthen : ∀ k n1 n2 s m, P n1 s m → (∀ s', I s' → P n2 s' (k s')) →
                  P (n1 + n2) s (loop_then k m)).
  { intros k n1 n2 s m Hm Hk. destruct m as [[s'|r]| |]; simpl in *; try done.
    destruct Hm as [HI Hle]. specialize (Hk s' HI).
    destruct (k s') as [[s''|r]| |]; simpl in *; try done. destruct Hk. split; [done|lia]. }
  assert (Hpos : ∀ p s, I s → P (Npos p) s (loop_pos p s)).
  { assert (Hone : ∀ s, I s → P 1 s (step s)).
    { intros s Hs. specialize (Hstep s Hs). unfold P.
      destruct (step s) as [[s'|r]| |]; try done. destruct Hstep. split; [done|lia]. }
    induction p as [p IH|p IH|]; intros s Hs; simpl; [| |by apply Hone].
    - replace (N.pos p~1) with (1 + N.pos p + N.pos p) by lia. eauto.
    - replace (N.pos p~0) with (N.pos p + N.pos p) by lia. eauto. }
  intros [|p] s Hs Hμ; [lia|]. specialize (Hpos p s Hs). simpl. unfold P in Hpos.
  destruct (loop_pos p s) as [[s'|r]| |]; try done. destruct Hpos. lia.
Qed.

(** Partial correctness: what every iteration preserves holds of the result. *)
Lemma loop_inv (I : S → Prop) (Q : R → Prop) :
  (∀ s, I s → match step s with Ok (inl s') => I s' | Ok (inr r) => Q r | _ => True end) →
  ∀ fuel s r, I s → loop fuel s = Ok r → Q r.
Proof.
  intros Hstep.
  assert (Hpos : ∀ p s, I s → match loop_pos p s with
                              | Ok (inl s') => I s' | Ok (inr r) => Q r | _ => True end).
  { assert (Hthen : ∀ p m, (∀ s, I s → match loop_pos p s with
                              | Ok (inl s') => I s' | Ok (inr r) => Q r | _ => True end) →
        match m with Ok (inl s') => I s' | Ok (inr r) => Q r | _ => True end →
        match loop_then (loop_pos p) m with Ok (inl s') => I s' | Ok (inr r) => Q r | _ => True end).
    { intros p m Hp Hm. destruct m as [[s'|r]| |]; simpl in *; [by apply Hp|done..]. }
    induction p as [p IH|p IH|]; intros s Hs; simpl; [| |by apply Hstep].
    - apply Hthen; [done|]. apply Hthen; [done|]. by apply Hstep.
    - apply Hthen; [done|]. by apply IH. }
  intros [|p] s r Hs; simpl; [done|]. specialize (Hpos p s Hs).
  destruct (loop_pos p s) as [[s'|r']| |]; try done. by intros [= <-].
Qed.
End loop.

(** ** Effectful folds: a [for] loop whose body updates a state and may panic *)

Fixpoint foldM {S A} (f : S → A → outcome S) (s : S) (l : list A) : outcome S :=
  match l with [] => Ok s | x :: rest => s ← f s x; foldM f s rest end.

Lemma foldM_app {S A} (f : S → A → outcome S) l1 l2 : ∀ s,
  foldM f s (l1 ++ l2) = (s' ← foldM f s l1; foldM f s' l2).
Proof.
  induction l1 as [|x l1 IH]; intros s; simpl; [done|]. destruct (f s x); simpl; [apply IH|done|done].
Qed.

(** An invariant of the body is an invariant of the loop. *)
Lemma foldM_inv {S A} (f : S → A → outcome S) (I : S → Prop) l : ∀ s s',
  (∀ s x s', x ∈ l → I s → f s x = Ok s' → I s') → I s → foldM f s l = Ok s' → I s'.
Proof.
  induction l as [|x l IH]; intros s s' Hf Hs Hfold; simpl in *; [by simplify_eq|].
  apply bind_ok in Hfold as (s1 & H1 & H2). eapply (IH s1); [|eapply Hf; [left|..]; eauto|done].
  intros s2 y s3 Hy. apply Hf. by right.
Qed.

(** A body that keeps succeeding under an invariant makes the loop succeed. *)
Lemma foldM_total {S A} (f : S → A → outcome S) (I : S → Prop) l : ∀ s,
  (∀ s x, x ∈ l → I s → ∃ s', f s x = Ok s' ∧ I s') → I s →
  ∃ s', foldM f s l = Ok s' ∧ I s'.
Proof.
  induction l as [|x l IH]; intros s Hf Hs; simpl; [by exists s|].
  destruct (Hf s x) as (s1 & -> & Hs1); [left|done|]. simpl. apply IH; [|done].
  intros s2 y Hy. apply Hf. by right.
Qed.

(** A pure body is a fold. *)
Lemma foldM_pure {S A} (g : S → A → S) l : ∀ s,
  foldM (λ s x, Ok (g s x)) s l = Ok (foldl g s l).
Proof. induction l as [|x l IH]; intros s; simpl; [done|]. apply IH. Qed.

(** ** Filters *)

Lemma filter_all {A} (P : A → Prop) `{∀ x, Decision (P x)} (l : list A) :
  (∀ x, x ∈ l → P x) → filter P l = l.
Proof.
  induction l as [|x l IH]; intros Hall; [done|]. rewrite filter_cons_True by (apply Hall; left).
  f_equal. apply IH. intros y Hy. apply Hall. by right.
Qed.

Lemma filter_none {A} (P : A → Prop) `{∀ x, Decision (P x)} (l : list A) :
  (∀ x, x ∈ l → ¬ P x) → filter P l = [].
Proof.
  induction l as [|x l IH]; intros Hall; [done|]. rewrite filter_cons_False by (apply Hall; left).
  apply IH. intros y Hy. apply Hall. by right.
Qed.
