(* ===== verification/Bytes.v ===== *)
(** * Bytes: byte strings and fixed-width integers

    The conversions of the standard library ([to_le_bytes], [to_be_bytes],
    [from_le_bytes]) that the log and the hashing of blocks use, and lengths of
    byte strings. *)

From S2P Require Import Prelude.
From Stdlib Require Import Strings.Byte.

(** ** Little-endian integers *)

Definition byte_of (n : N) : byte := default x00 (Byte.of_N (n mod 256)).

(** [to_le_bytes] on [k] bytes. *)
Fixpoint to_le_bytes (k : nat) (n : N) : list byte :=
  match k with O => [] | Datatypes.S k => byte_of n :: to_le_bytes k (n / 256) end.

(** [from_le_bytes]. *)
Fixpoint from_le_bytes (l : list byte) : N :=
  match l with [] => 0 | b :: l => Byte.to_N b + 256 * from_le_bytes l end.

Definition byte_len (l : list byte) : N := N.of_nat (length l).
Definition zeros (n : N) : list byte := replicate (N.to_nat n) x00.

(** [to_be_bytes] on [k] bytes. *)
Definition to_be_bytes (k : nat) (n : N) : list byte := rev (to_le_bytes k n).

(** ** Lemmas *)

Lemma byte_of_to_N n : Byte.to_N (byte_of n) = n mod 256.
Proof.
  unfold byte_of. assert (Hlt : n mod 256 < 256) by (apply N.mod_lt; lia).
  destruct (Byte.of_N (n mod 256)) as [b|] eqn:Hb; simpl.
  - by apply Byte.to_of_N.
  - apply Byte.of_N_None_iff in Hb. lia.
Qed.

Lemma length_to_le_bytes k : ∀ n, length (to_le_bytes k n) = k.
Proof. induction k; intros; simpl; auto. Qed.

Lemma from_to_le_bytes k : ∀ n, n < 256 ^ N.of_nat k → from_le_bytes (to_le_bytes k n) = n.
Proof.
  induction k as [|k IH]; intros n Hn; simpl to_le_bytes; cbn [from_le_bytes].
  - simpl in Hn. lia.
  - rewrite Nat2N.inj_succ, N.pow_succ_r' in Hn.
    rewrite byte_of_to_N, IH by (apply N.Div0.div_lt_upper_bound; lia).
    pose proof (N.div_mod' n 256). lia.
Qed.

Lemma from_le_bytes_zeros k : from_le_bytes (replicate k x00) = 0.
Proof. induction k as [|k IH]; simpl; [done|]. by rewrite IH. Qed.

Lemma byte_len_app l1 l2 : byte_len (l1 ++ l2) = byte_len l1 + byte_len l2.
Proof. unfold byte_len. rewrite length_app. lia. Qed.

Lemma byte_len_zeros n : byte_len (zeros n) = n.
Proof. unfold byte_len, zeros. rewrite length_replicate. lia. Qed.

Lemma concat_len (v : list (list byte)) : list_sum byte_len v = byte_len (concat v).
Proof.
  induction v as [|d v IH]; [done|]. unfold list_sum in *. simpl.
  rewrite byte_len_app. f_equal. exact IH.
Qed.
