(* ===== verification/Types.v ===== *)
(** * Types: the data of the consensus node (mysticeti-core/src/types.rs)

    Block references, statements, blocks, transaction locators, the [u128] bit
    set of authorities, and the [VoteRangeBuilder] of committee.rs that
    [StatementBlock::shared_ranges] uses. *)

From S2P Require Import Prelude.
From Stdlib Require Import Strings.Byte.

(** ** Block references and statements *)

Notation AuthorityIndex := N (only parsing).
Notation RoundNumber := N (only parsing).
Notation Stake := N (only parsing).
(** The 32 bytes of a digest, as the big-endian 256-bit number they spell. *)
Notation BlockDigest := N (only parsing).

Definition GENESIS_ROUND : RoundNumber := 0.

Record BlockReference := mkRef {
  br_authority : AuthorityIndex;
  br_round : RoundNumber;
  br_digest : BlockDigest;
}.

#[global] Instance BlockReference_eq_dec : EqDecision BlockReference.
Proof. solve_decision. Defined.
#[global] Instance BlockReference_countable : Countable BlockReference.
Proof.
  refine (inj_countable' (λ r, (br_authority r, br_round r, br_digest r))
    (λ '(a, r, d), mkRef a r d) _). by intros [].
Defined.
#[global] Instance BlockReference_inhabited : Inhabited BlockReference :=
  populate (mkRef 0 0 0).

(** [impl Ord for BlockReference]: the tuple comparison of the source, which
    passes [self.digest] on both sides. *)
Definition BlockReference_cmp (self other : BlockReference) : comparison :=
  match br_round self ?= br_round other with
  | Eq =>
      match br_authority self ?= br_authority other with
      | Eq => br_digest self ?= br_digest self
      | c => c
      end
  | c => c
  end.

Definition author_round (r : BlockReference) : AuthorityIndex * RoundNumber :=
  (br_authority r, br_round r).
Definition author_digest (r : BlockReference) : AuthorityIndex * BlockDigest :=
  (br_authority r, br_digest r).

Record Transaction := mkTransaction { tx_data : list byte }.

Record TransactionLocator := mkLocator {
  tl_block : BlockReference;
  tl_offset : N;
}.

Record TransactionLocatorRange := mkLocatorRange {
  tlr_block : BlockReference;
  offset_start_inclusive : N;
  offset_end_exclusive : N;
}.

Inductive Vote :=
| Accept
| Reject (conflict : option TransactionLocator).

Inductive BaseStatement :=
| Share (tx : Transaction)
| VoteStmt (l : TransactionLocator) (v : Vote)
| VoteRange (r : TransactionLocatorRange).

Inductive InternalEpochStatus := Open | BeginChange | SafeToClose.

Record StatementBlock := mkBlock {
  reference : BlockReference;
  includes : list BlockReference;
  statements : list BaseStatement;
  meta_creation_time_ns : N;
  epoch_marker : bool;
  signature : N;
}.

#[global] Instance Byte_eq_dec : EqDecision byte := Byte.byte_eq_dec.
#[global] Instance Transaction_eq_dec : EqDecision Transaction.
Proof. solve_decision. Defined.
#[global] Instance TransactionLocator_eq_dec : EqDecision TransactionLocator.
Proof. solve_decision. Defined.
#[global] Instance TransactionLocator_countable : Countable TransactionLocator.
Proof.
  refine (inj_countable' (λ l, (tl_block l, tl_offset l))
    (λ '(b, o), mkLocator b o) _). by intros [].
Defined.
#[global] Instance TransactionLocatorRange_eq_dec : EqDecision TransactionLocatorRange.
Proof. solve_decision. Defined.
#[global] Instance Vote_eq_dec : EqDecision Vote.
Proof. solve_decision. Defined.
#[global] Instance BaseStatement_eq_dec : EqDecision BaseStatement.
Proof. solve_decision. Defined.
#[global] Instance InternalEpochStatus_eq_dec : EqDecision InternalEpochStatus.
Proof. solve_decision. Defined.
#[global] Instance StatementBlock_eq_dec : EqDecision StatementBlock.
Proof. solve_decision. Defined.

Definition author (b : StatementBlock) : AuthorityIndex := br_authority (reference b).
Definition block_round (b : StatementBlock) : RoundNumber := br_round (reference b).
Definition block_digest (b : StatementBlock) : BlockDigest := br_digest (reference b).
Definition epoch_changed (b : StatementBlock) : bool := epoch_marker b.

(** [impl PartialEq for StatementBlock]: equality of the references only. *)
Definition block_eqb (b1 b2 : StatementBlock) : bool :=
  bool_decide (reference b1 = reference b2).

(** ** AuthoritySet: a [u128] bit set *)

Definition AuthoritySet := N.

(** [1u128 << v]: the release profile masks the shift amount to 7 bits. *)
Definition authority_bit (v : AuthorityIndex) : N := N.shiftl 1 (v mod 128).

Definition AuthoritySet_insert (s : AuthoritySet) (v : AuthorityIndex)
    : AuthoritySet * bool :=
  let bit := authority_bit v in
  if bool_decide (N.land s bit = bit) then (s, false) else (N.lor s bit, true).

Definition AuthoritySet_present (s : AuthoritySet) : list AuthorityIndex :=
  List.filter (λ bit, negb (bool_decide (N.land s (N.shiftl 1 bit) = 0)))
    (N.of_nat <$> seq 0 128).

(** ** Transaction locator ranges *)

Definition TransactionLocatorRange_new (block : BlockReference) (range : N * N)
    : TransactionLocatorRange :=
  mkLocatorRange block range.1 range.2.

Definition TransactionLocatorRange_one (l : TransactionLocator) : TransactionLocatorRange :=
  mkLocatorRange (tl_block l) (tl_offset l) (u64_add (tl_offset l) 1).

(** A Rust [Range<u64>] as the list of the values it yields. *)
Definition range_list (start fin : N) : list N :=
  (λ i, start + N.of_nat i) <$> seq 0 (N.to_nat (fin - start)).

Definition TransactionLocatorRange_range (r : TransactionLocatorRange) : N * N :=
  (offset_start_inclusive r, offset_end_exclusive r).

Definition TransactionLocatorRange_locators (r : TransactionLocatorRange)
    : list TransactionLocator :=
  mkLocator (tlr_block r) <$>
    range_list (offset_start_inclusive r) (offset_end_exclusive r).

Definition TransactionLocatorRange_len (r : TransactionLocatorRange) : N :=
  u64_sub (offset_end_exclusive r) (offset_start_inclusive r).

Definition MAX_LEN : N := 1024 * 1024.

(** [TransactionLocatorRange::verify]: [true] is [Ok(())]. *)
Definition TransactionLocatorRange_verify (r : TransactionLocatorRange) : bool :=
  bool_decide (offset_start_inclusive r ≤ offset_end_exclusive r)
  && bool_decide (TransactionLocatorRange_len r < MAX_LEN)
  && bool_decide (offset_end_exclusive r < MAX_LEN).

(** ** VoteRangeBuilder and shared_ranges *)

Definition VoteRangeBuilder := option (N * N).

(** Returns the new builder and the range it emits. *)
Definition VoteRangeBuilder_add (b : VoteRangeBuilder) (offset : N)
    : VoteRangeBuilder * option (N * N) :=
  match b with
  | Some (s, e) =>
      if bool_decide (e = offset)
      then (Some (s, u64_add offset 1), None)
      else (Some (offset, u64_add offset 1), Some (s, e))
  | None => (Some (offset, u64_add offset 1), None)
  end.

Definition VoteRangeBuilder_finish (b : VoteRangeBuilder) : option (N * N) := b.

Definition is_share (s : BaseStatement) : bool :=
  match s with Share _ => true | _ => false end.

(** The loop of [shared_ranges] over the statements from [offset] on. *)
Fixpoint shared_ranges_loop (ref : BlockReference) (offset : N)
    (stmts : list BaseStatement) (b : VoteRangeBuilder)
    (ranges : list TransactionLocatorRange)
    : VoteRangeBuilder * list TransactionLocatorRange :=
  match stmts with
  | [] => (b, ranges)
  | s :: rest =>
      if is_share s then
        let '(b', out) := VoteRangeBuilder_add b offset in
        shared_ranges_loop ref (offset + 1) rest b'
          (match out with
           | Some range => ranges ++ [TransactionLocatorRange_new ref range]
           | None => ranges
           end)
      else shared_ranges_loop ref (offset + 1) rest b ranges
  end.

Definition shared_ranges (b : StatementBlock) : list TransactionLocatorRange :=
  let '(builder, ranges) := shared_ranges_loop (reference b) 0 (statements b) None [] in
  match VoteRangeBuilder_finish builder with
  | Some range => ranges ++ [TransactionLocatorRange_new (reference b) range]
  | None => ranges
  end.

Fixpoint shared_transactions_from (ref : BlockReference) (pos : N)
    (stmts : list BaseStatement) : list (TransactionLocator * Transaction) :=
  match stmts with
  | [] => []
  | Share tx :: rest => (mkLocator ref pos, tx) :: shared_transactions_from ref (pos + 1) rest
  | _ :: rest => shared_transactions_from ref (pos + 1) rest
  end.

Definition shared_transactions (b : StatementBlock) : list (TransactionLocator * Transaction) :=
  shared_transactions_from (reference b) 0 (statements b).

(** ** Lemmas: block references *)

Lemma BlockReference_cmp_refl r : BlockReference_cmp r r = Eq.
Proof. unfold BlockReference_cmp. by rewrite !N.compare_refl. Qed.

Lemma BlockReference_cmp_eq_iff r1 r2 :
  BlockReference_cmp r1 r2 = Eq ↔ author_round r1 = author_round r2.
Proof.
  unfold BlockReference_cmp, author_round. rewrite N.compare_refl.
  destruct (N.compare_spec (br_round r1) (br_round r2));
    destruct (N.compare_spec (br_authority r1) (br_authority r2));
    split; intros ?; simplify_eq; try congruence; try lia.
Qed.

(** ** Lemmas: ranges *)

Lemma elem_of_range_list x s e : x ∈ range_list s e ↔ s ≤ x ∧ x < e.
Proof.
  unfold range_list. rewrite list_elem_of_fmap. split.
  - intros (i & -> & Hi%elem_of_seq). lia.
  - intros [??]. exists (N.to_nat (x - s)). split; [lia|]. apply elem_of_seq. lia.
Qed.

Lemma range_list_nil s e : e ≤ s → range_list s e = [].
Proof. intros. unfold range_list. replace (N.to_nat (e - s)) with 0%nat by lia. done. Qed.

Lemma range_list_cons s e : s < e → range_list s e = s :: range_list (s + 1) e.
Proof.
  intros. unfold range_list.
  replace (N.to_nat (e - s)) with (S (N.to_nat (e - (s + 1)))) by lia.
  cbn [seq fmap list_fmap]. f_equal; [lia|].
  rewrite <-fmap_S_seq, <-list_fmap_compose. apply list_fmap_ext. intros; simpl; lia.
Qed.

Lemma range_list_app s m e : s ≤ m → m ≤ e → range_list s e = range_list s m ++ range_list m e.
Proof.
  intros Hsm Hme. unfold range_list.
  replace (N.to_nat (e - s)) with (N.to_nat (m - s) + N.to_nat (e - m))%nat by lia.
  rewrite seq_app, fmap_app. f_equal.
  rewrite (Nat.add_comm 0). rewrite <-fmap_add_seq, <-list_fmap_compose.
  apply list_fmap_ext. intros; simpl; lia.
Qed.

Lemma NoDup_range_list s e : NoDup (range_list s e).
Proof. unfold range_list. apply NoDup_fmap_2; [intros ???; lia|]. apply NoDup_seq. Qed.

(** ** Lemmas: AuthoritySet *)

Lemma authority_bit_testbit v i :
  N.testbit (authority_bit v) i = bool_decide (i = v mod 128).
Proof.
  unfold authority_bit. destruct (N.le_gt_cases (v mod 128) i) as [Hle|Hlt].
  - rewrite N.shiftl_spec_high' by done. rewrite <-(N.pow_0_r 2), N.pow2_bits_eqb.
    case_bool_decide; [subst; rewrite N.sub_diag; done|]. apply N.eqb_neq. lia.
  - rewrite N.shiftl_spec_low by done. symmetry. apply bool_decide_eq_false. lia.
Qed.

Lemma land_authority_bit s v :
  N.land s (authority_bit v) = authority_bit v ↔ N.testbit s (v mod 128) = true.
Proof.
  split.
  - intros H. apply (f_equal (λ x, N.testbit x (v mod 128))) in H.
    rewrite N.land_spec, authority_bit_testbit, bool_decide_true in H by done.
    by rewrite andb_true_r in H.
  - intros H. apply N.bits_inj_iff. intros i. rewrite N.land_spec, authority_bit_testbit.
    case_bool_decide; [subst; by rewrite H|by rewrite andb_false_r].
Qed.

Lemma AuthoritySet_insert_testbit s v i :
  N.testbit (AuthoritySet_insert s v).1 i = N.testbit s i || bool_decide (i = v mod 128).
Proof.
  unfold AuthoritySet_insert. case_bool_decide as Hin; simpl.
  - apply land_authority_bit in Hin. case_bool_decide; [subst; by rewrite Hin|by rewrite orb_false_r].
  - by rewrite N.lor_spec, authority_bit_testbit.
Qed.

Lemma AuthoritySet_insert_fresh s v :
  (AuthoritySet_insert s v).2 = negb (N.testbit s (v mod 128)).
Proof.
  unfold AuthoritySet_insert. case_bool_decide as Hin; simpl.
  - apply land_authority_bit in Hin. by rewrite Hin.
  - rewrite land_authority_bit in Hin. by destruct (N.testbit s (v mod 128)).
Qed.

Lemma elem_of_present s a :
  a ∈ AuthoritySet_present s ↔ a < 128 ∧ N.testbit s a = true.
Proof.
  unfold AuthoritySet_present. rewrite list_elem_of_In, filter_In, <-list_elem_of_In.
  rewrite list_elem_of_fmap, negb_true_iff, bool_decide_eq_false.
  assert (Hbit : N.land s (N.shiftl 1 a) = 0 ↔ N.testbit s a = false).
  { split.
    - intros H. apply (f_equal (λ x, N.testbit x a)) in H.
      rewrite N.land_spec, N.shiftl_spec_high', N.sub_diag, N.bits_0 in H by lia.
      by rewrite andb_true_r in H.
    - intros H. apply N.bits_inj_0. intros i. rewrite N.land_spec, N.shiftl_1_l, N.pow2_bits_eqb.
      destruct (N.eqb_spec a i); [subst; by rewrite H|by rewrite andb_false_r]. }
  rewrite Hbit, not_false_iff_true. split.
  - intros [(i & -> & Hi%elem_of_seq) ?]. split; [lia|done].
  - intros [? ?]. split; [|done]. exists (N.to_nat a). split; [lia|]. apply elem_of_seq. lia.
Qed.

Lemma NoDup_List_filter {A} (f : A → bool) (l : list A) : NoDup l → NoDup (List.filter f l).
Proof. intros. apply NoDup_ListNoDup, List.NoDup_filter. by apply NoDup_ListNoDup. Qed.

Lemma NoDup_present s : NoDup (AuthoritySet_present s).
Proof.
  unfold AuthoritySet_present. apply NoDup_List_filter.
  apply NoDup_fmap_2; [intros ???; lia|]. apply NoDup_seq.
Qed.

Lemma present_insert s v a :
  v < 128 →
  a ∈ AuthoritySet_present (AuthoritySet_insert s v).1 ↔ a = v ∨ a ∈ AuthoritySet_present s.
Proof.
  intros Hv. rewrite !elem_of_present, AuthoritySet_insert_testbit, orb_true_iff,
    bool_decide_eq_true, (N.mod_small v 128) by done. naive_solver.
Qed.

Lemma insert_fresh_present s v :
  v < 128 → (AuthoritySet_insert s v).2 = true ↔ v ∉ AuthoritySet_present s.
Proof.
  intros Hv. rewrite AuthoritySet_insert_fresh, elem_of_present, N.mod_small by done.
  destruct (N.testbit s v); naive_solver.
Qed.

#[global] Arguments AuthoritySet_present : simpl never.
#[global] Opaque AuthoritySet_present AuthoritySet_insert.

(** ** Lemmas: the ranges of shared transactions *)

(** The locators a builder still holds. *)
Definition builder_locators (ref : BlockReference) (b : VoteRangeBuilder)
    : list TransactionLocator :=
  match b with Some (s, e) => mkLocator ref <$> range_list s e | None => [] end.

(** Ranges of a block in increasing order, non-empty, with a gap between two
    consecutive ones, the last one ending before [bound]. *)
Fixpoint separated (ref : BlockReference) (rs : list TransactionLocatorRange)
    (bound : N) : Prop :=
  match rs with
  | [] => True
  | r :: rest =>
      tlr_block r = ref ∧ offset_start_inclusive r < offset_end_exclusive r ∧
      match rest with
      | [] => offset_end_exclusive r < bound
      | r' :: _ => offset_end_exclusive r < offset_start_inclusive r'
      end ∧ separated ref rest bound
  end.

Lemma separated_snoc ref rs s e bound :
  separated ref rs s → s < e → e < bound →
  separated ref (rs ++ [TransactionLocatorRange_new ref (s, e)]) bound.
Proof.
  induction rs as [|r rest IH]; simpl; [done|].
  intros (Hb & Hlt & Hnext & Hrest) Hse Heb. split_and!; [done..| |by apply IH].
  destruct rest; simpl in *; done.
Qed.

Lemma separated_weaken ref rs b1 b2 : separated ref rs b1 → b1 ≤ b2 → separated ref rs b2.
Proof.
  induction rs as [|r rest IH]; [done|]. simpl. intros (?&?&Hn&?) ?.
  split_and!; [done..| |by apply IH]. destruct rest; [lia|done].
Qed.

Lemma locators_new ref s e :
  TransactionLocatorRange_locators (TransactionLocatorRange_new ref (s, e))
  = mkLocator ref <$> range_list s e.
Proof. done. Qed.

(** The loop invariant of [shared_ranges] before the statement at [offset]. *)
Definition builder_inv (ref : BlockReference) (b : VoteRangeBuilder) (offset : N)
    (rs : list TransactionLocatorRange) : Prop :=
  match b with
  | Some (s, e) => s < e ∧ e ≤ offset ∧ separated ref rs s
  | None => rs = []
  end.

Lemma VoteRangeBuilder_add_spec ref b offset rs b' out :
  VoteRangeBuilder_add b offset = (b', out) →
  builder_inv ref b offset rs → offset + 1 < u64_modulus →
  let rs' := match out with
             | Some range => rs ++ [TransactionLocatorRange_new ref range] | None => rs end in
  builder_inv ref b' (offset + 1) rs' ∧
  flat_map TransactionLocatorRange_locators rs' ++ builder_locators ref b'
  = flat_map TransactionLocatorRange_locators rs ++ builder_locators ref b ++ [mkLocator ref offset].
Proof.
  intros Hadd Hok Hoff.
  assert (Hone : range_list offset (offset + 1) = [offset]).
  { rewrite range_list_cons, range_list_nil by lia. done. }
  destruct b as [[s e]|]; simpl in *; rewrite u64_add_small in Hadd by done.
  - destruct Hok as (Hse & Hle & Hsep). case_bool_decide; simplify_eq; simpl.
    + split; [split_and!; [lia..|done]|].
      rewrite (range_list_app s offset (offset + 1)), Hone, fmap_app by lia. done.
    + split; [split_and!; [lia..|apply separated_snoc; [done|lia..]]|].
      rewrite flat_map_app, Hone. simpl. by rewrite app_nil_r, locators_new, <-!app_assoc.
  - simplify_eq; simpl. rewrite Hone. split; [split_and!; [lia..|done]|done].
Qed.

Lemma builder_inv_step ref b offset rs :
  builder_inv ref b offset rs → builder_inv ref b (offset + 1) rs.
Proof. destruct b as [[]|]; simpl; naive_solver lia. Qed.

Lemma shared_ranges_loop_spec ref stmts : ∀ offset b rs b' rs',
  shared_ranges_loop ref offset stmts b rs = (b', rs') →
  builder_inv ref b offset rs → offset + N.of_nat (length stmts) < u64_modulus →
  builder_inv ref b' (offset + N.of_nat (length stmts)) rs' ∧
  flat_map TransactionLocatorRange_locators rs' ++ builder_locators ref b'
  = flat_map TransactionLocatorRange_locators rs ++ builder_locators ref b
    ++ (fst <$> shared_transactions_from ref offset stmts).
Proof.
  induction stmts as [|st rest IH]; intros offset b rs b' rs' Hloop Hinv Hlen.
  - simpl in *. simplify_eq. by rewrite N.add_0_r, app_nil_r.
  - cbn [shared_ranges_loop] in Hloop. cbn [length] in Hlen |- *.
    replace (offset + N.of_nat (S (length rest)))
      with (offset + 1 + N.of_nat (length rest)) in * by lia.
    destruct (is_share st) eqn:Hshare.
    + destruct (VoteRangeBuilder_add b offset) as [b1 out] eqn:Hadd.
      eapply VoteRangeBuilder_add_spec in Hadd as [Hinv1 Hflat1]; [|done|lia].
      apply IH in Hloop as [Hinv2 Hflat2]; [|done|done]. split; [done|].
      rewrite Hflat2, app_assoc, Hflat1.
      destruct st; try done. simpl. by rewrite <-!app_assoc.
    + apply IH in Hloop as [Hinv2 Hflat2]; [|by apply builder_inv_step|done].
      split; [done|]. rewrite Hflat2. by destruct st.
Qed.

Lemma shared_ranges_spec b :
  N.of_nat (length (statements b)) < u64_max →
  flat_map TransactionLocatorRange_locators (shared_ranges b)
    = fst <$> shared_transactions b ∧
  separated (reference b) (shared_ranges b) u64_modulus.
Proof.
  intros Hlen. unfold u64_max in Hlen. unfold shared_ranges, shared_transactions.
  destruct (shared_ranges_loop _ 0 _ None []) as [b' rs'] eqn:Hloop.
  apply shared_ranges_loop_spec in Hloop as [Hinv Hflat]; [|done|lia].
  destruct b' as [[s e]|]; simpl in *.
  - destruct Hinv as (Hse & Hle & Hsep). split; [|apply separated_snoc; [done|lia..]].
    rewrite flat_map_app. simpl. by rewrite app_nil_r, locators_new.
  - subst. split; [|done]. simpl in *. done.
Qed.

(** [StatementBlock::shared_ranges] is exact: its ranges, expanded to
    locators in order, are the locators of the block's [Share] statements in
    order (those [shared_transactions] yields); all ranges belong to the block,
    are non-empty, and two consecutive ones have a gap, so the compression is the
    coarsest one. *)
Theorem shared_ranges_exact b :
  N.of_nat (length (statements b)) < u64_max →
  flat_map TransactionLocatorRange_locators (shared_ranges b)
    = fst <$> shared_transactions b ∧
  separated (reference b) (shared_ranges b) u64_modulus.
Proof. apply shared_ranges_spec. Qed.

Lemma shared_ranges_exact_witness :
  let b := mkBlock (mkRef 1 2 3) []
    [Share (mkTransaction []); Share (mkTransaction []); VoteStmt (mkLocator (mkRef 0 1 0) 4) Accept;
     Share (mkTransaction [])] 0 false 0 in
  N.of_nat (length (statements b)) < u64_max ∧
  flat_map TransactionLocatorRange_locators (shared_ranges b) = fst <$> shared_transactions b ∧
  shared_ranges b = [mkLocatorRange (mkRef 1 2 3) 0 2; mkLocatorRange (mkRef 1 2 3) 3 4].
Proof.
  intros b. split; [vm_compute; reflexivity|]. split; [|vm_compute; reflexivity].
  apply (shared_ranges_exact b). vm_compute; reflexivity.
Defined.
