(* ===== verification/Committee.v ===== *)
(** * Committee: stakes, thresholds and vote counting (mysticeti-core/src/committee.rs)

    [Committee] and its thresholds, the [CommitteeThreshold] trait with its two
    instances, and the [StakeAggregator] that counts each authority once. The
    transaction aggregator of the same source file is in [Aggregator]. *)

From S2P Require Import Prelude Types.

(** ** Committee *)

Record Authority := mkAuthority { stake : Stake; public_key : N }.

Record Committee := mkCommittee {
  authorities_vec : list Authority;
  validity_threshold_field : Stake;
  quorum_threshold_field : Stake;
}.

Fixpoint checked_total_stake (total : Stake) (l : list Authority) : outcome Stake :=
  match l with
  | [] => Ok total
  | a :: rest => t ← expect (u64_checked_add total (stake a)); checked_total_stake t rest
  end.

Definition Committee_new (authorities : list Authority) : outcome Committee :=
  _ ← rust_assert (negb (bool_decide (authorities = [])));
  _ ← rust_assert (forallb (λ a, bool_decide (0 < stake a)) authorities);
  _ ← rust_assert (bool_decide (N.of_nat (length authorities) ≤ 128));
  total_stake ← checked_total_stake 0 authorities;
  let validity_threshold := total_stake / 3 in
  let quorum_threshold := u64_mul 2 total_stake / 3 in
  Ok (mkCommittee authorities validity_threshold quorum_threshold).

Definition get_stake (c : Committee) (a : AuthorityIndex) : option Stake :=
  stake <$> (authorities_vec c !! N.to_nat a).

Definition validity_threshold (c : Committee) : Stake := u64_add (validity_threshold_field c) 1.
Definition quorum_threshold (c : Committee) : Stake := u64_add (quorum_threshold_field c) 1.

Definition get_public_key (c : Committee) (a : AuthorityIndex) : option N :=
  public_key <$> (authorities_vec c !! N.to_nat a).

Definition committee_len (c : Committee) : N := N.of_nat (length (authorities_vec c)).
Definition known_authority (c : Committee) (a : AuthorityIndex) : bool :=
  bool_decide (a < committee_len c).
Definition authorities (c : Committee) : list AuthorityIndex := range_list 0 (committee_len c).
Definition is_valid (c : Committee) (amount : Stake) : bool :=
  bool_decide (validity_threshold_field c < amount).
Definition is_quorum (c : Committee) (amount : Stake) : bool :=
  bool_decide (quorum_threshold_field c < amount).

(** [get_total_stake] over the elements of a [HashSet]; an unknown index panics,
    the sum wraps. *)
Fixpoint get_total_stake_loop (c : Committee) (total : Stake) (l : list AuthorityIndex)
    : outcome Stake :=
  match l with
  | [] => Ok total
  | a :: rest => s ← expect (get_stake c a); get_total_stake_loop c (u64_add total s) rest
  end.
Definition get_total_stake (c : Committee) (X : gset AuthorityIndex) : outcome Stake :=
  get_total_stake_loop c 0 (elements X).

Definition committee_elect_leader (c : Committee) (r : N) : AuthorityIndex :=
  r mod committee_len c.

(** ** Thresholds as the [CommitteeThreshold] trait *)

Class CommitteeThreshold (TH : Type) := is_threshold : Committee → Stake → bool.
Inductive QuorumThreshold : Type := mkQuorumThreshold.
Inductive ValidityThreshold : Type := mkValidityThreshold.
#[global] Instance quorum_is_threshold : CommitteeThreshold QuorumThreshold := is_quorum.
#[global] Instance validity_is_threshold : CommitteeThreshold ValidityThreshold := is_valid.

(** ** StakeAggregator *)

Record StakeAggregator (TH : Type) := mkAggregator {
  agg_votes : AuthoritySet;
  agg_stake : Stake;
}.
Arguments mkAggregator {TH} _ _.
Arguments agg_votes {TH} _.
Arguments agg_stake {TH} _.

Definition StakeAggregator_new {TH} : StakeAggregator TH := mkAggregator 0 0.

Definition StakeAggregator_add {TH} `{CommitteeThreshold TH} (self : StakeAggregator TH)
    (vote : AuthorityIndex) (c : Committee) : outcome (StakeAggregator TH * bool) :=
  s ← expect (get_stake c vote);
  let '(votes, fresh) := AuthoritySet_insert (agg_votes self) vote in
  let self := mkAggregator votes (if fresh then u64_add (agg_stake self) s else agg_stake self) in
  Ok (self, is_threshold c (agg_stake self)).

Definition StakeAggregator_clear {TH} (self : StakeAggregator TH) : StakeAggregator TH :=
  mkAggregator 0 0.
Definition StakeAggregator_voters {TH} (self : StakeAggregator TH) : list AuthorityIndex :=
  AuthoritySet_present (agg_votes self).

#[global] Instance StakeAggregator_eq_dec TH : EqDecision (StakeAggregator TH).
Proof. solve_decision. Defined.

(** The loop the protocol runs over a set of voters. *)
Fixpoint StakeAggregator_add_all {TH} `{CommitteeThreshold TH} (self : StakeAggregator TH)
    (votes : list AuthorityIndex) (c : Committee) : outcome (StakeAggregator TH) :=
  match votes with
  | [] => Ok self
  | v :: rest => '(self, _) ← StakeAggregator_add self v c; StakeAggregator_add_all self rest c
  end.

(** ** Stake of a set of authorities *)

Definition stake_of (c : Committee) (a : AuthorityIndex) : Stake := default 0 (get_stake c a).
Definition set_stake (c : Committee) (X : gset AuthorityIndex) : Stake := set_sum (stake_of c) X.
Definition all_authorities (c : Committee) : gset AuthorityIndex := list_to_set (authorities c).
Definition total_stake (c : Committee) : Stake := list_sum stake (authorities_vec c).

(** What [Committee::new] establishes when the doubled stake fits in 64 bits. *)
Record wf_committee (c : Committee) : Prop := {
  wf_nonempty : authorities_vec c ≠ [];
  wf_positive : Forall (λ a, 0 < stake a) (authorities_vec c);
  wf_len : committee_len c ≤ 128;
  wf_total : 2 * total_stake c < u64_modulus;
  wf_validity : validity_threshold_field c = total_stake c / 3;
  wf_quorum : quorum_threshold_field c = 2 * total_stake c / 3;
}.

(** ** Lemmas on stakes *)

Lemma get_stake_Some c a : is_Some (get_stake c a) ↔ a < committee_len c.
Proof.
  unfold get_stake, committee_len. rewrite fmap_is_Some, lookup_lt_is_Some. lia.
Qed.

Lemma stake_of_unknown c a : committee_len c ≤ a → stake_of c a = 0.
Proof.
  intros Ha. unfold stake_of, get_stake. rewrite lookup_ge_None_2; [done|].
  unfold committee_len in Ha. lia.
Qed.

Lemma get_stake_stake_of c a : a < committee_len c → get_stake c a = Some (stake_of c a).
Proof. intros [s Hs]%get_stake_Some. unfold stake_of. by rewrite Hs. Qed.

Lemma elem_of_all_authorities c a : a ∈ all_authorities c ↔ a < committee_len c.
Proof.
  unfold all_authorities, authorities. rewrite elem_of_list_to_set, elem_of_range_list. lia.
Qed.

Lemma range_list_snoc n : range_list 0 (N.of_nat (S n)) = range_list 0 (N.of_nat n) ++ [N.of_nat n].
Proof.
  rewrite (range_list_app 0 (N.of_nat n)) by lia. f_equal.
  rewrite range_list_cons, range_list_nil by lia. done.
Qed.

Lemma list_sum_indices (l : list Authority) :
  list_sum (λ i, from_option stake 0 (l !! N.to_nat i)) (range_list 0 (N.of_nat (length l)))
  = list_sum stake l.
Proof.
  induction l as [|a l IH] using rev_ind; [done|].
  rewrite length_app, Nat.add_1_r, range_list_snoc, !list_sum_app. f_equal.
  - rewrite <-IH. apply list_sum_ext. intros i Hi%elem_of_range_list.
    rewrite lookup_app_l by lia. done.
  - simpl. rewrite Nat2N.id, lookup_app_r, Nat.sub_diag by done. simpl. lia.
Qed.

Lemma set_stake_all c : set_stake c (all_authorities c) = total_stake c.
Proof.
  unfold set_stake, all_authorities, authorities, total_stake.
  rewrite set_sum_list_to_set by apply NoDup_range_list.
  rewrite <-list_sum_indices. apply list_sum_ext. intros i _.
  unfold stake_of, get_stake. by destruct (authorities_vec c !! N.to_nat i).
Qed.

(** Unknown authorities carry no stake. *)
Lemma set_stake_known c X : set_stake c X = set_stake c (X ∩ all_authorities c).
Proof.
  induction X as [|a X Ha IH] using set_ind_L; [f_equal; set_solver|].
  unfold set_stake in *. rewrite set_sum_insert by done. rewrite IH.
  destruct (decide (a ∈ all_authorities c)) as [Hin|Hout].
  - replace (({[a]} ∪ X) ∩ all_authorities c) with ({[a]} ∪ X ∩ all_authorities c) by set_solver.
    rewrite set_sum_insert by set_solver. done.
  - replace (({[a]} ∪ X) ∩ all_authorities c) with (X ∩ all_authorities c) by set_solver.
    rewrite elem_of_all_authorities in Hout. rewrite stake_of_unknown by lia. lia.
Qed.

Lemma set_stake_le_total c X : set_stake c X ≤ total_stake c.
Proof.
  rewrite set_stake_known, <-set_stake_all. apply set_sum_subseteq. set_solver.
Qed.

Lemma set_stake_subseteq c X Y : X ⊆ Y → set_stake c X ≤ set_stake c Y.
Proof. apply set_sum_subseteq. Qed.

Lemma set_stake_union_inter c X Y :
  set_stake c (X ∪ Y) + set_stake c (X ∩ Y) = set_stake c X + set_stake c Y.
Proof. apply set_sum_union_inter. Qed.

Lemma set_stake_insert c a X :
  a ∉ X → set_stake c ({[a]} ∪ X) = stake_of c a + set_stake c X.
Proof. apply set_sum_insert. Qed.

(** Two sets whose stakes exceed the total together share the excess. *)
Lemma set_stake_overlap c X Y :
  set_stake c X + set_stake c Y ≤ total_stake c + set_stake c (X ∩ Y).
Proof.
  pose proof (set_stake_union_inter c X Y). pose proof (set_stake_le_total c (X ∪ Y)). lia.
Qed.

Lemma set_stake_positive_nonempty c X : 0 < set_stake c X → ∃ a, a ∈ X.
Proof.
  intros Hpos. destruct (set_choose_or_empty X) as [?|Hemp]; [done|].
  apply leibniz_equiv in Hemp. subst. unfold set_stake in Hpos. rewrite set_sum_empty in Hpos. lia.
Qed.

(** ** Lemmas on Committee::new *)

Lemma checked_total_stake_ok l : ∀ t,
  t + list_sum stake l < u64_modulus → checked_total_stake t l = Ok (t + list_sum stake l).
Proof.
  induction l as [|a l IH]; intros t Ht; simpl in *; [f_equal; lia|].
  unfold u64_checked_add. rewrite bool_decide_true by lia. simpl.
  rewrite IH by lia. f_equal. lia.
Qed.

Lemma checked_total_stake_panic l : ∀ t,
  u64_modulus ≤ t + list_sum stake l → t < u64_modulus → checked_total_stake t l = Panic.
Proof.
  induction l as [|a l IH]; intros t Ht Hlt; simpl in *; [lia|].
  unfold u64_checked_add. case_bool_decide; simpl; [|done]. apply IH; lia.
Qed.

Lemma forallb_positive l :
  forallb (λ a, bool_decide (0 < stake a)) l = true ↔ Forall (λ a, 0 < stake a) l.
Proof.
  rewrite forallb_forall, Forall_forall. setoid_rewrite <-list_elem_of_In.
  split; intros H a Ha; [eapply bool_decide_eq_true_1|apply bool_decide_eq_true_2]; by apply H.
Qed.

(** The validator set [Committee::new] accepts. *)
Definition acceptable (l : list Authority) : Prop :=
  l ≠ [] ∧ Forall (λ a, 0 < stake a) l ∧ N.of_nat (length l) ≤ 128 ∧
  list_sum stake l < u64_modulus.

#[global] Instance acceptable_dec l : Decision (acceptable l).
Proof. apply _. Defined.

Lemma Committee_new_acceptable l :
  acceptable l →
  Committee_new l = Ok (mkCommittee l (list_sum stake l / 3) (u64_mul 2 (list_sum stake l) / 3)).
Proof.
  intros (Hne & Hpos & Hlen & Htot). unfold Committee_new.
  rewrite (bool_decide_false (l = [])) by done. simpl.
  rewrite (proj2 (forallb_positive l) Hpos). simpl. rewrite (bool_decide_true _ Hlen). simpl.
  by rewrite checked_total_stake_ok, N.add_0_l by lia.
Qed.

Lemma Committee_new_rejects l : ¬ acceptable l → Committee_new l = Panic.
Proof.
  intros Hna. unfold Committee_new. destruct (decide (l = [])) as [->|Hne]; [done|].
  rewrite (bool_decide_false (l = [])) by done. simpl.
  destruct (forallb _ l) eqn:Hpos; [|done]. simpl. apply forallb_positive in Hpos.
  case_bool_decide as Hlen; [|done]. simpl.
  rewrite checked_total_stake_panic; [done| |done].
  destruct (N.le_gt_cases u64_modulus (0 + list_sum stake l)); [done|].
  exfalso. apply Hna. split_and!; try done.
Qed.

Lemma Committee_new_wf l c :
  Committee_new l = Ok c → 2 * list_sum stake l < u64_modulus → wf_committee c.
Proof.
  intros Hnew Htot. destruct (decide (acceptable l)) as [Hacc|Hacc];
    [|by rewrite Committee_new_rejects in Hnew].
  rewrite Committee_new_acceptable in Hnew by done. destruct Hacc as (?&?&?&?).
  injection Hnew as <-. split; try done. simpl. unfold total_stake. simpl.
  by rewrite u64_mul_small.
Qed.

(** ** Lemmas on quorums *)

Lemma div3_lt n s : n / 3 < s ↔ n < 3 * s.
Proof.
  pose proof (N.div_mod n 3 ltac:(discriminate)) as Hn.
  pose proof (N.mod_lt n 3 ltac:(discriminate)) as Hr.
  remember (n / 3) as q. remember (n mod 3) as r. lia.
Qed.

Lemma is_quorum_iff c s : wf_committee c → is_quorum c s = true ↔ 2 * total_stake c < 3 * s.
Proof.
  intros Hwf. unfold is_quorum. by rewrite bool_decide_eq_true, (wf_quorum c Hwf), div3_lt.
Qed.

Lemma is_valid_iff c s : wf_committee c → is_valid c s = true ↔ total_stake c < 3 * s.
Proof.
  intros Hwf. unfold is_valid. by rewrite bool_decide_eq_true, (wf_validity c Hwf), div3_lt.
Qed.

Lemma is_quorum_empty c : is_quorum c (set_stake c ∅) = false.
Proof.
  unfold is_quorum, set_stake. rewrite set_sum_empty. apply bool_decide_eq_false. lia.
Qed.

Lemma quorum_mono c s s' : is_quorum c s = true → s ≤ s' → is_quorum c s' = true.
Proof. unfold is_quorum. rewrite !bool_decide_eq_true. lia. Qed.

Lemma valid_mono c s s' : is_valid c s = true → s ≤ s' → is_valid c s' = true.
Proof. unfold is_valid. rewrite !bool_decide_eq_true. lia. Qed.

Lemma quorums_overlap c X Y :
  wf_committee c → is_quorum c (set_stake c X) = true → is_quorum c (set_stake c Y) = true →
  is_valid c (set_stake c (X ∩ Y)) = true.
Proof.
  intros Hwf. rewrite !is_quorum_iff, is_valid_iff by done.
  pose proof (set_stake_overlap c X Y). lia.
Qed.

(** With at most [total / 3] faulty stake two quorums share a correct authority. *)
Lemma quorums_share_correct c X Y B :
  wf_committee c → is_quorum c (set_stake c X) = true → is_quorum c (set_stake c Y) = true →
  is_valid c (set_stake c B) = false → ∃ a, a ∈ X ∧ a ∈ Y ∧ a ∉ B.
Proof.
  intros Hwf HX HY HB. pose proof (quorums_overlap c X Y Hwf HX HY) as Hv.
  destruct (decide (X ∩ Y ⊆ B)) as [Hsub|Hns].
  - apply (valid_mono _ _ (set_stake c B)) in Hv; [congruence|by apply set_stake_subseteq].
  - destruct (set_choose_or_empty ((X ∩ Y) ∖ B)) as [[a Ha]|Hemp]; [exists a; set_solver|].
    exfalso. apply Hns. intros a Ha. destruct (decide (a ∈ B)); [done|]. set_solver.
Qed.

Lemma committee_stake_pos c a : wf_committee c → a < committee_len c → 0 < stake_of c a.
Proof.
  intros Hwf [s Hs]%get_stake_Some. unfold stake_of. rewrite Hs. simpl.
  unfold get_stake in Hs. apply fmap_Some in Hs as (au & Hau & ->).
  by apply (Forall_lookup_1 _ _ _ _ (wf_positive c Hwf) Hau).
Qed.

(** ** Lemmas on the stake aggregator *)

(** The aggregator [a] holds exactly the votes [X]. *)
Record agg_inv {TH} (c : Committee) (a : StakeAggregator TH) (X : gset AuthorityIndex) : Prop := {
  agg_inv_votes : ∀ v, v ∈ StakeAggregator_voters a ↔ v ∈ X;
  agg_inv_known : X ⊆ all_authorities c;
  agg_inv_stake : agg_stake a = set_stake c X;
}.

Lemma agg_inv_new {TH} c : agg_inv c (@StakeAggregator_new TH) ∅.
Proof.
  split; [|set_solver|done]. intros v. unfold StakeAggregator_voters, StakeAggregator_new.
  rewrite elem_of_present. cbn [agg_votes]. rewrite N.bits_0. set_solver.
Qed.

Lemma wf_len_lt c a : wf_committee c → a < committee_len c → a < 128.
Proof. intros Hwf ?. pose proof (wf_len c Hwf). lia. Qed.

Lemma StakeAggregator_add_spec {TH} `{CommitteeThreshold TH} c (a : StakeAggregator TH) X v :
  wf_committee c → agg_inv c a X → v < committee_len c →
  ∃ a', StakeAggregator_add a v c = Ok (a', is_threshold c (set_stake c ({[v]} ∪ X))) ∧
        agg_inv c a' ({[v]} ∪ X).
Proof.
  intros Hwf [Hvotes Hknown Hstake] Hv. unfold StakeAggregator_voters in Hvotes.
  pose proof (wf_len_lt c v Hwf Hv) as Hv128.
  pose proof (set_stake_le_total c ({[v]} ∪ X)) as Hle. pose proof (wf_total c Hwf) as Htot.
  unfold StakeAggregator_add. rewrite (get_stake_stake_of c v Hv). simpl.
  destruct (AuthoritySet_insert (agg_votes a) v) as [votes fresh] eqn:Hins. simpl.
  assert (Hst : (if fresh then u64_add (agg_stake a) (stake_of c v) else agg_stake a)
                = set_stake c ({[v]} ∪ X)).
  { pose proof (insert_fresh_present (agg_votes a) v Hv128) as Hfresh.
    rewrite Hins in Hfresh. cbn [snd] in Hfresh. rewrite (Hvotes v) in Hfresh.
    destruct fresh.
    - assert (v ∉ X) as HvX by by apply Hfresh.
      rewrite set_stake_insert in Hle |- * by done. rewrite u64_add_small by lia. lia.
    - destruct (decide (v ∈ X)) as [HvX|HvX]; [|apply Hfresh in HvX; done].
      replace ({[v]} ∪ X) with X by set_solver. done. }
  eexists. rewrite Hst. split; [done|]. split; [|intros w|done].
  - intros w. unfold StakeAggregator_voters. simpl.
    pose proof (present_insert (agg_votes a) v w Hv128) as Hpi. rewrite Hins in Hpi. cbn [fst] in Hpi.
    rewrite Hpi, (Hvotes w). set_solver.
  - intros [->%elem_of_singleton|?]%elem_of_union; [by apply elem_of_all_authorities|set_solver].
Qed.

Lemma StakeAggregator_add_unknown {TH} `{CommitteeThreshold TH} c (a : StakeAggregator TH) v :
  committee_len c ≤ v → StakeAggregator_add a v c = Panic.
Proof.
  intros Hv. unfold StakeAggregator_add, get_stake. rewrite lookup_ge_None_2; [done|].
  unfold committee_len in Hv. lia.
Qed.

Lemma StakeAggregator_add_all_spec {TH} `{CommitteeThreshold TH} c votes :
  ∀ (a : StakeAggregator TH) X,
  wf_committee c → agg_inv c a X → Forall (λ v, v < committee_len c) votes →
  ∃ a', StakeAggregator_add_all a votes c = Ok a' ∧ agg_inv c a' (list_to_set votes ∪ X).
Proof.
  induction votes as [|v rest IH]; intros a X Hwf Hinv Hall; simpl.
  - exists a. split; [done|]. by rewrite union_empty_l_L.
  - apply Forall_cons in Hall as [Hv Hrest].
    destruct (StakeAggregator_add_spec c a X v Hwf Hinv Hv) as (a1 & -> & Hinv1). simpl.
    destruct (IH a1 ({[v]} ∪ X) Hwf Hinv1 Hrest) as (a2 & -> & Hinv2).
    exists a2. split; [done|]. by replace ({[v]} ∪ list_to_set rest ∪ X)
      with (list_to_set rest ∪ ({[v]} ∪ X)) by set_solver.
Qed.

Lemma get_total_stake_loop_spec c l : ∀ t,
  Forall (λ v, v < committee_len c) l → t + list_sum (stake_of c) l < u64_modulus →
  get_total_stake_loop c t l = Ok (t + list_sum (stake_of c) l).
Proof.
  induction l as [|a l IH]; intros t Hall Ht; simpl in *; [f_equal; lia|].
  apply Forall_cons in Hall as [Ha Hall]. rewrite (get_stake_stake_of c a Ha). simpl.
  rewrite u64_add_small, IH by (done || lia). f_equal. lia.
Qed.

Lemma get_total_stake_spec c X :
  wf_committee c → X ⊆ all_authorities c → get_total_stake c X = Ok (set_stake c X).
Proof.
  intros Hwf HX. unfold get_total_stake. rewrite get_total_stake_loop_spec; [done| |].
  - apply Forall_forall. intros a Ha%elem_of_elements. by apply elem_of_all_authorities, HX.
  - pose proof (set_stake_le_total c X). pose proof (wf_total c Hwf).
    unfold set_stake, set_sum in *. lia.
Qed.

(** ** Properties *)

(** [Committee::new] accepts exactly the non-empty authority lists of at most
    128 positive stakes whose sum fits in 64 bits (it panics on all others), and
    when twice that sum fits as well the stored thresholds are the exact thirds:
    an amount is a quorum iff it exceeds two thirds of the total stake and valid
    iff it exceeds one third. *)
Theorem committee_new_thresholds l :
  (¬ acceptable l → Committee_new l = Panic) ∧
  (acceptable l → 2 * list_sum stake l < u64_modulus →
   ∃ c, Committee_new l = Ok c ∧ wf_committee c ∧ authorities_vec c = l ∧
     ∀ s, (is_quorum c s = true ↔ 2 * total_stake c < 3 * s) ∧
          (is_valid c s = true ↔ total_stake c < 3 * s)).
Proof.
  split; [apply Committee_new_rejects|]. intros Hacc Htot.
  pose proof (Committee_new_acceptable l Hacc) as Hnew.
  pose proof (Committee_new_wf l _ Hnew Htot) as Hwf.
  eexists. split_and!; [exact Hnew|done|done|].
  intros s. split; [by apply is_quorum_iff|by apply is_valid_iff].
Qed.

Lemma committee_new_thresholds_witness :
  ∃ c, Committee_new (replicate 4 (mkAuthority 1 0)) = Ok c ∧ is_quorum c 3 = true.
Proof.
  destruct (proj2 (committee_new_thresholds (replicate 4 (mkAuthority 1 0)))) as (c & Hc & Hwf & Hl & Hs).
  - split_and!; [discriminate|repeat constructor|vm_compute; discriminate|vm_compute; reflexivity].
  - vm_compute; reflexivity.
  - exists c. split; [exact Hc|]. apply Hs. unfold total_stake. rewrite Hl. vm_compute; reflexivity.
Defined.

(** Quorum intersection: in a committee whose doubled stake fits in 64 bits
    the authorities two quorums have in common always carry a valid (more than
    one third) stake, so they include an authority outside any set of at most one
    third of the stake. *)
Theorem quorum_intersection c X Y B :
  wf_committee c →
  is_quorum c (set_stake c X) = true → is_quorum c (set_stake c Y) = true →
  is_valid c (set_stake c (X ∩ Y)) = true ∧
  (is_valid c (set_stake c B) = false → ∃ a, a ∈ X ∧ a ∈ Y ∧ a ∉ B).
Proof.
  intros Hwf HX HY. split; [by apply quorums_overlap|by apply quorums_share_correct].
Qed.

Definition four_equal : Committee := mkCommittee (replicate 4 (mkAuthority 1 0)) 1 2.

Lemma four_equal_wf : wf_committee four_equal.
Proof.
  apply (Committee_new_wf (replicate 4 (mkAuthority 1 0))); vm_compute; reflexivity.
Qed.

Lemma quorum_intersection_witness :
  is_valid four_equal (set_stake four_equal (({[0; 1; 2]} : gset N) ∩ {[1; 2; 3]})) = true.
Proof.
  apply (quorum_intersection four_equal {[0; 1; 2]} {[1; 2; 3]} {[3]} four_equal_wf);
    vm_compute; reflexivity.
Defined.

(** The stake aggregator counts every authority once: after any sequence of
    votes by known authorities it holds exactly the stake of the set of distinct
    voters, and the next [add] reports the threshold of that set extended by the
    new voter, whatever repetitions occurred; a vote of an unknown authority
    panics. *)
Theorem stake_aggregator_counts_distinct {TH} `{CommitteeThreshold TH} c votes v :
  wf_committee c → Forall (λ w, w < committee_len c) votes →
  ∃ a : StakeAggregator TH,
    StakeAggregator_add_all StakeAggregator_new votes c = Ok a ∧
    agg_stake a = set_stake c (list_to_set votes) ∧
    (∀ w, w ∈ StakeAggregator_voters a ↔ w ∈ votes) ∧
    (v < committee_len c → ∃ a',
       StakeAggregator_add a v c = Ok (a', is_threshold c (set_stake c ({[v]} ∪ list_to_set votes)))) ∧
    (committee_len c ≤ v → StakeAggregator_add a v c = Panic).
Proof.
  intros Hwf Hall.
  destruct (StakeAggregator_add_all_spec c votes (@StakeAggregator_new TH) ∅ Hwf (agg_inv_new c) Hall)
    as (a & Ha & Hinv). rewrite union_empty_r_L in Hinv.
  exists a. split_and!; [done|apply Hinv| | |apply StakeAggregator_add_unknown].
  - intros w. by rewrite (agg_inv_votes _ _ _ Hinv), elem_of_list_to_set.
  - intros Hv. destruct (StakeAggregator_add_spec c a _ v Hwf Hinv Hv) as (a' & ? & _). by exists a'.
Qed.

Lemma stake_aggregator_counts_distinct_witness :
  ∃ a : StakeAggregator QuorumThreshold,
    StakeAggregator_add_all StakeAggregator_new [0; 1; 0; 1; 1] four_equal = Ok a ∧
    agg_stake a = 2.
Proof.
  destruct (stake_aggregator_counts_distinct (TH := QuorumThreshold) four_equal [0; 1; 0; 1; 1] 2)
    as (a & Ha & Hs & _).
  - exact four_equal_wf.
  - repeat constructor.
  - exists a. split; [exact Ha|]. rewrite Hs. vm_compute; reflexivity.
Defined.

(** Why the doubled stake has to fit: [Committee::new] checks the sum of the
    stakes for overflow but not its doubling, so a committee with a total stake of
    2^63 is accepted with a quorum threshold of zero, and two disjoint single
    authorities are both quorums. *)
Theorem quorum_threshold_wraps :
  ∃ l c, acceptable l ∧ Committee_new l = Ok c ∧
    is_quorum c (set_stake c {[0]}) = true ∧ is_quorum c (set_stake c {[1]}) = true.
Proof.
  exists [mkAuthority 1 0; mkAuthority (2 ^ 63 - 1) 0].
  eexists. split; [|split; [vm_compute; reflexivity|split; vm_compute; reflexivity]].
  split_and!; [discriminate|repeat constructor|vm_compute; discriminate|vm_compute; reflexivity].
Qed.
