(* ===== verification/ThresholdClock.v ===== *)
(** * ThresholdClock: round advancement (mysticeti-core/src/threshold_clock.rs)

    Validity of a block with respect to the threshold clock, and the aggregator
    that advances the round of a validator. *)

From S2P Require Import Prelude Types Committee.

(** ** threshold_clock_valid_non_genesis *)

Fixpoint clock_quorum_loop (round_number : RoundNumber) (l : list BlockReference)
    (aggregator : StakeAggregator QuorumThreshold) (is_quorum : bool) (c : Committee)
    : outcome bool :=
  match l with
  | [] => Ok is_quorum
  | include :: rest =>
      if bool_decide (br_round include = u64_sub round_number 1) then
        '(aggregator, is_quorum) ← StakeAggregator_add aggregator (br_authority include) c;
        clock_quorum_loop round_number rest aggregator is_quorum c
      else clock_quorum_loop round_number rest aggregator is_quorum c
  end.

Definition threshold_clock_valid_non_genesis (block : StatementBlock) (c : Committee)
    : outcome bool :=
  let round_number := br_round (reference block) in
  _ ← rust_assert (bool_decide (0 < round_number));
  if existsb (λ i, bool_decide (br_round (reference block) ≤ br_round i)) (includes block)
  then Ok false
  else clock_quorum_loop round_number (includes block) StakeAggregator_new false c.

(** ** ThresholdClockAggregator *)

Record ThresholdClockAggregator := mkClock {
  clock_aggregator : StakeAggregator QuorumThreshold;
  clock_round : RoundNumber;
}.

Definition ThresholdClockAggregator_new (round : RoundNumber) : ThresholdClockAggregator :=
  mkClock StakeAggregator_new round.

Definition clock_add_block (self : ThresholdClockAggregator) (block : BlockReference)
    (c : Committee) : outcome ThresholdClockAggregator :=
  self ←
    match br_round block ?= clock_round self with
    | Lt => Ok self
    | Gt =>
        '(agg, _) ← StakeAggregator_add (StakeAggregator_clear (clock_aggregator self))
                      (br_authority block) c;
        Ok (mkClock agg (br_round block))
    | Eq =>
        '(agg, reached) ← StakeAggregator_add (clock_aggregator self) (br_authority block) c;
        if (reached : bool)
        then Ok (mkClock (StakeAggregator_clear agg) (u64_add (br_round block) 1))
        else Ok (mkClock agg (clock_round self))
    end;
  if bool_decide (clock_round self < br_round block)
  then Ok (mkClock (clock_aggregator self) (br_round block))
  else Ok self.

Definition clock_get_round (self : ThresholdClockAggregator) : RoundNumber := clock_round self.

Fixpoint clock_add_blocks (self : ThresholdClockAggregator) (blocks : list BlockReference)
    (c : Committee) : outcome ThresholdClockAggregator :=
  match blocks with
  | [] => Ok self
  | b :: rest => self ← clock_add_block self b c; clock_add_blocks self rest c
  end.

(** ** Specification *)

(** The authors of the given references at round [r]. *)
Definition authors_at (r : RoundNumber) (l : list BlockReference) : gset AuthorityIndex :=
  list_to_set (br_authority <$> filter (λ i, br_round i = r) l).

(** The greatest round of [l], at least [r0]. *)
Definition max_round (r0 : RoundNumber) (l : list BlockReference) : RoundNumber :=
  foldl (λ r b, N.max r (br_round b)) r0 l.

(** The round a clock started at [r0] shows after the blocks [l] in any order. *)
Definition clock_spec (c : Committee) (r0 : RoundNumber) (l : list BlockReference)
    : RoundNumber :=
  let m := max_round r0 l in
  if is_quorum c (set_stake c (authors_at m l)) then m + 1 else m.

Definition refs_known (c : Committee) (l : list BlockReference) : Prop :=
  Forall (λ b, br_authority b < committee_len c ∧ br_round b < u64_max) l.

(** ** Lemmas *)

Lemma elem_of_authors_at a r l :
  a ∈ authors_at r l ↔ ∃ b, b ∈ l ∧ br_round b = r ∧ br_authority b = a.
Proof.
  unfold authors_at. rewrite elem_of_list_to_set, list_elem_of_fmap.
  setoid_rewrite list_elem_of_filter. naive_solver.
Qed.

Lemma authors_at_snoc r l b :
  authors_at r (l ++ [b]) = if decide (br_round b = r)
                            then {[br_authority b]} ∪ authors_at r l else authors_at r l.
Proof.
  apply set_eq. intros a. destruct (decide (br_round b = r));
    rewrite ?elem_of_union, ?elem_of_singleton, !elem_of_authors_at;
    setoid_rewrite elem_of_app; setoid_rewrite list_elem_of_singleton; naive_solver.
Qed.

Lemma authors_at_cons r l b :
  authors_at r (b :: l) = if decide (br_round b = r)
                          then {[br_authority b]} ∪ authors_at r l else authors_at r l.
Proof.
  apply set_eq. intros a. destruct (decide (br_round b = r));
    rewrite ?elem_of_union, ?elem_of_singleton, !elem_of_authors_at;
    setoid_rewrite elem_of_cons; naive_solver.
Qed.

Lemma max_round_snoc r0 l b : max_round r0 (l ++ [b]) = N.max (max_round r0 l) (br_round b).
Proof. unfold max_round. by rewrite foldl_app. Qed.

Lemma max_round_ge r0 l : r0 ≤ max_round r0 l.
Proof.
  induction l as [|b l IH] using rev_ind; [done|]. rewrite max_round_snoc. lia.
Qed.

Lemma max_round_elem r0 l b : b ∈ l → br_round b ≤ max_round r0 l.
Proof.
  induction l as [|b' l IH] using rev_ind; [by intros ?%not_elem_of_nil|].
  rewrite max_round_snoc, elem_of_app, list_elem_of_singleton. intros [?%IH| ->]; lia.
Qed.

Lemma authors_above_max r0 l r : max_round r0 l < r → authors_at r l = ∅.
Proof.
  intros Hr. apply set_eq. intros a. rewrite elem_of_authors_at. split; [|set_solver].
  intros (b & Hb & <- & _). apply (max_round_elem r0) in Hb. lia.
Qed.

(** The clock [cl] is what the blocks [l] lead to. *)
Definition clock_inv (c : Committee) (r0 : RoundNumber) (l : list BlockReference)
    (cl : ThresholdClockAggregator) : Prop :=
  clock_round cl = clock_spec c r0 l ∧
  agg_inv c (clock_aggregator cl) (authors_at (clock_round cl) l).

(** No single authority is a quorum. *)
Definition no_dictator (c : Committee) : Prop := ∀ a, is_quorum c (set_stake c {[a]}) = false.

Lemma clock_spec_not_quorum c r0 l :
  is_quorum c (set_stake c (authors_at (clock_spec c r0 l) l)) = false.
Proof.
  unfold clock_spec. cbv zeta.
  destruct (is_quorum c (set_stake c (authors_at (max_round r0 l) l))) eqn:Hq; [|done].
  rewrite (authors_above_max r0) by lia. apply is_quorum_empty.
Qed.

Lemma clock_spec_bounds c r0 l :
  max_round r0 l ≤ clock_spec c r0 l ≤ max_round r0 l + 1.
Proof. unfold clock_spec. destruct (is_quorum c _); lia. Qed.

Lemma clock_spec_older c r0 l b :
  br_round b < clock_spec c r0 l → clock_spec c r0 (l ++ [b]) = clock_spec c r0 l.
Proof.
  intros Hb. pose proof (clock_spec_bounds c r0 l). unfold clock_spec in *.
  rewrite max_round_snoc, N.max_l by lia. rewrite authors_at_snoc.
  destruct (decide _) as [Heq|]; [|done]. destruct (is_quorum c (set_stake c (authors_at _ l))) eqn:Hq.
  - rewrite (quorum_mono _ _ (set_stake c ({[br_authority b]} ∪ authors_at (max_round r0 l) l)) Hq);
      [done|]. apply set_stake_subseteq. set_solver.
  - lia.
Qed.

Lemma agg_inv_clear {TH} c (a : StakeAggregator TH) : agg_inv c (StakeAggregator_clear a) ∅.
Proof. apply agg_inv_new. Qed.

Lemma clock_inv_step c r0 l cl b :
  wf_committee c → no_dictator c → clock_inv c r0 l cl →
  br_authority b < committee_len c → br_round b < u64_max →
  ∃ cl', clock_add_block cl b c = Ok cl' ∧ clock_inv c r0 (l ++ [b]) cl'.
Proof.
  intros Hwf Hnd [Hround Hagg] Ha Hb.
  pose proof (clock_spec_bounds c r0 l) as Hbounds. unfold clock_add_block.
  destruct (N.compare_spec (br_round b) (clock_round cl)) as [Heq|Hlt|Hgt].
  - destruct (StakeAggregator_add_spec c _ _ _ Hwf Hagg Ha) as (agg & Hadd & Hagg'). rewrite Hadd. simpl.
    assert (Hspec : clock_spec c r0 (l ++ [b])
        = if is_quorum c (set_stake c ({[br_authority b]} ∪ authors_at (clock_round cl) l))
          then br_round b + 1 else br_round b).
    { unfold clock_spec. rewrite max_round_snoc, N.max_r, authors_at_snoc, decide_True, Heq by (done || lia).
      done. }
    unfold is_threshold, quorum_is_threshold. destruct (is_quorum c _) eqn:Hq; simpl.
    + rewrite u64_add_small by (unfold u64_max in Hb; lia). rewrite bool_decide_false by lia.
      eexists; split; [done|]. split; simpl; [done|].
      rewrite (authors_above_max r0) by (rewrite max_round_snoc; lia). apply agg_inv_clear.
    + rewrite bool_decide_false by lia. eexists; split; [done|].
      split; simpl; [congruence|]. by rewrite authors_at_snoc, decide_True by done.
  - simpl. rewrite bool_decide_false by lia. exists cl. split; [done|]. split.
    + by rewrite clock_spec_older by lia.
    + rewrite authors_at_snoc, decide_False by lia. done.
  - destruct (StakeAggregator_add_spec c _ _ _ Hwf (agg_inv_clear c (clock_aggregator cl)) Ha)
      as (agg & Hadd & Hagg'). rewrite Hadd. simpl. rewrite bool_decide_false by lia.
    assert (Hauth : authors_at (br_round b) (l ++ [b]) = {[br_authority b]} ∪ ∅).
    { rewrite authors_at_snoc, decide_True, (authors_above_max r0) by (done || lia). done. }
    eexists; split; [done|]. split; simpl; [|by rewrite Hauth].
    unfold clock_spec. rewrite max_round_snoc, N.max_r, Hauth, union_empty_r_L, Hnd by lia. done.
Qed.

Lemma clock_inv_run c r0 l2 : ∀ l1 cl,
  wf_committee c → no_dictator c → clock_inv c r0 l1 cl → refs_known c l2 →
  ∃ cl', clock_add_blocks cl l2 c = Ok cl' ∧ clock_inv c r0 (l1 ++ l2) cl'.
Proof.
  induction l2 as [|b l2 IH]; intros l1 cl Hwf Hnd Hinv Hk; simpl.
  - exists cl. by rewrite app_nil_r.
  - apply Forall_cons in Hk as [[Ha Hb] Hk].
    destruct (clock_inv_step c r0 l1 cl b Hwf Hnd Hinv Ha Hb) as (cl1 & -> & Hinv1). simpl.
    destruct (IH (l1 ++ [b]) cl1 Hwf Hnd Hinv1 Hk) as (cl2 & -> & Hinv2).
    exists cl2. split; [done|]. by rewrite <-app_assoc in Hinv2.
Qed.

Lemma clock_inv_new c r0 : clock_inv c r0 [] (ThresholdClockAggregator_new r0).
Proof.
  split; simpl; [|apply agg_inv_new]. unfold clock_spec. simpl.
  by rewrite is_quorum_empty.
Qed.

Lemma max_round_perm r0 l1 l2 : l1 ≡ₚ l2 → max_round r0 l1 = max_round r0 l2.
Proof.
  unfold max_round. intros Hp. revert r0. induction Hp as [|b l1 l2 _ IH|b1 b2 l|l1 l2 l3 _ IH1 _ IH2];
    intros r0; simpl; [done|apply IH| |by rewrite IH1].
  f_equal. lia.
Qed.

Lemma clock_spec_perm c r0 l1 l2 : l1 ≡ₚ l2 → clock_spec c r0 l1 = clock_spec c r0 l2.
Proof.
  intros Hp. unfold clock_spec. rewrite (max_round_perm r0 l1 l2 Hp).
  replace (authors_at (max_round r0 l2) l1) with (authors_at (max_round r0 l2) l2); [done|].
  apply set_eq. intros a. rewrite !elem_of_authors_at. by setoid_rewrite Hp.
Qed.

(** The loop of [threshold_clock_valid_non_genesis]. *)
Lemma clock_quorum_loop_spec c r l2 : ∀ l1 agg q,
  wf_committee c → 0 < r → r < u64_modulus →
  Forall (λ b, br_authority b < committee_len c) l2 →
  agg_inv c agg (authors_at (r - 1) l1) → q = is_quorum c (set_stake c (authors_at (r - 1) l1)) →
  clock_quorum_loop r l2 agg q c = Ok (is_quorum c (set_stake c (authors_at (r - 1) (l1 ++ l2)))).
Proof.
  induction l2 as [|b l2 IH]; intros l1 agg q Hwf Hr Hr64 Hk Hagg Hq; simpl.
  - by rewrite Hq, app_nil_r.
  - apply Forall_cons in Hk as [Ha Hk]. rewrite u64_sub_small by lia.
    replace (l1 ++ b :: l2) with ((l1 ++ [b]) ++ l2) by by rewrite <-app_assoc.
    case_bool_decide as Hb.
    + destruct (StakeAggregator_add_spec c _ _ _ Hwf Hagg Ha) as (agg1 & -> & Hagg1). simpl.
      apply IH; try done; rewrite authors_at_snoc, decide_True by done; done.
    + apply IH; try done; rewrite authors_at_snoc, decide_False by done; done.
Qed.

Lemma threshold_clock_valid_spec c b :
  wf_committee c → 0 < block_round b → block_round b < u64_modulus →
  Forall (λ i, br_authority i < committee_len c) (includes b) →
  threshold_clock_valid_non_genesis b c
  = Ok (bool_decide (Forall (λ i, br_round i < block_round b) (includes b))
        && is_quorum c (set_stake c (authors_at (block_round b - 1) (includes b)))).
Proof.
  intros Hwf Hr Hr64 Hk. unfold threshold_clock_valid_non_genesis, block_round in *.
  rewrite (bool_decide_true (0 < _)) by done. simpl.
  destruct (existsb _ _) eqn:Hex.
  - apply existsb_exists in Hex as (i & Hi & Hle%bool_decide_eq_true).
    rewrite bool_decide_false; [done|]. rewrite Forall_forall. intros Hall.
    apply list_elem_of_In, Hall in Hi. lia.
  - rewrite bool_decide_true.
    + rewrite (clock_quorum_loop_spec c _ _ [] StakeAggregator_new false); try done.
      * apply agg_inv_new.
      * by rewrite is_quorum_empty.
    + apply Forall_forall. intros i Hi. destruct (N.lt_ge_cases (br_round i) (br_round (reference b)))
        as [?|Hge]; [done|].
      assert (existsb (λ i, bool_decide (br_round (reference b) ≤ br_round i)) (includes b) = true)
        as Ht; [|congruence].
      apply existsb_exists. exists i. split; [by apply list_elem_of_In|by apply bool_decide_eq_true_2].
Qed.

(** ** Properties *)

(** C28: The threshold clock is exact and independent of the order of arrival: in
    a committee where no single authority is a quorum, a clock started at [r0]
    and fed any sequence of blocks by known authorities never panics, and shows
    the greatest round seen (at least [r0]), plus one when the distinct authors of
    that round form a quorum. *)
Theorem threshold_clock_exact c r0 l1 l2 :
  wf_committee c → no_dictator c → refs_known c l1 → l1 ≡ₚ l2 →
  ∃ cl1 cl2, clock_add_blocks (ThresholdClockAggregator_new r0) l1 c = Ok cl1 ∧
    clock_add_blocks (ThresholdClockAggregator_new r0) l2 c = Ok cl2 ∧
    clock_get_round cl1 = clock_spec c r0 l1 ∧ clock_get_round cl2 = clock_get_round cl1.
Proof.
  intros Hwf Hnd Hk Hp.
  assert (refs_known c l2) as Hk2 by (unfold refs_known in *; by rewrite <-Hp).
  destruct (clock_inv_run c r0 l1 [] _ Hwf Hnd (clock_inv_new c r0) Hk) as (cl1 & ? & Hr1 & _).
  destruct (clock_inv_run c r0 l2 [] _ Hwf Hnd (clock_inv_new c r0) Hk2) as (cl2 & ? & Hr2 & _).
  exists cl1, cl2. unfold clock_get_round. rewrite Hr1, Hr2.
  split_and!; [done..|]. symmetry. by apply clock_spec_perm.
Qed.

Lemma four_equal_no_dictator : no_dictator four_equal.
Proof.
  intros a. unfold set_stake. rewrite set_sum_singleton.
  destruct (N.lt_ge_cases a 4) as [Ha|Ha].
  - assert (a = 0 ∨ a = 1 ∨ a = 2 ∨ a = 3) as [-> |[-> |[-> | ->]]] by lia; reflexivity.
  - by rewrite stake_of_unknown.
Qed.

Lemma threshold_clock_exact_witness :
  ∃ cl1 cl2,
    clock_add_blocks (ThresholdClockAggregator_new 0)
      [mkRef 0 1 7; mkRef 1 1 8; mkRef 1 1 9; mkRef 2 1 5] four_equal = Ok cl1 ∧
    clock_add_blocks (ThresholdClockAggregator_new 0)
      [mkRef 2 1 5; mkRef 1 1 9; mkRef 1 1 8; mkRef 0 1 7] four_equal = Ok cl2 ∧
    clock_get_round cl1 = 2 ∧ clock_get_round cl2 = 2.
Proof.
  destruct (threshold_clock_exact four_equal 0
    [mkRef 0 1 7; mkRef 1 1 8; mkRef 1 1 9; mkRef 2 1 5]
    [mkRef 2 1 5; mkRef 1 1 9; mkRef 1 1 8; mkRef 0 1 7]) as (cl1 & cl2 & H1 & H2 & H3 & H4).
  - exact four_equal_wf.
  - exact four_equal_no_dictator.
  - repeat constructor.
  - apply (Permutation_rev [mkRef 0 1 7; mkRef 1 1 8; mkRef 1 1 9; mkRef 2 1 5]).
  - exists cl1, cl2. split_and!; [exact H1|exact H2| |].
    + rewrite H3. vm_compute; reflexivity.
    + rewrite H4, H3. vm_compute; reflexivity.
Defined.
