(* ===== verification/BlockAuth.v ===== *)
(** * BlockAuth: hashing, signing and verification of blocks
      (mysticeti-core/src/crypto.rs, types.rs)

    The bytes that are hashed and signed, the construction of blocks and
    [StatementBlock::verify]. The hash function and the signature scheme are
    parameters; a digest or a signature is the big-endian number of its bytes. *)

From S2P Require Import Prelude Bytes Types Committee ThresholdClock.
From Stdlib Require Import Strings.Byte.

Definition SIGNATURE_SIZE : nat := 64.
Definition BLOCK_DIGEST_SIZE : nat := 32.

(** ** What is hashed: [CryptoHash] *)

Definition u64_crypto_hash (n : N) : list byte := to_be_bytes 8 n.
Definition u128_crypto_hash (n : N) : list byte := to_be_bytes 16 n.

Definition BlockReference_crypto_hash (r : BlockReference) : list byte :=
  u64_crypto_hash (br_authority r) ++ u64_crypto_hash (br_round r)
  ++ to_be_bytes BLOCK_DIGEST_SIZE (br_digest r).

Definition TransactionLocator_crypto_hash (l : TransactionLocator) : list byte :=
  BlockReference_crypto_hash (tl_block l) ++ u64_crypto_hash (tl_offset l).

Definition TransactionLocatorRange_crypto_hash (r : TransactionLocatorRange) : list byte :=
  BlockReference_crypto_hash (tlr_block r) ++ u64_crypto_hash (offset_start_inclusive r)
  ++ u64_crypto_hash (offset_end_exclusive r).

Definition EpochStatus_crypto_hash (e : bool) : list byte := if e then [x01] else [x00].

Definition statement_crypto_hash (s : BaseStatement) : list byte :=
  match s with
  | Share tx => x00 :: tx_data tx
  | VoteStmt id Accept => x01 :: TransactionLocator_crypto_hash id
  | VoteStmt id (Reject None) => x02 :: TransactionLocator_crypto_hash id
  | VoteStmt id (Reject (Some other)) =>
      x03 :: TransactionLocator_crypto_hash id ++ TransactionLocator_crypto_hash other
  | VoteRange range => x04 :: TransactionLocatorRange_crypto_hash range
  end.

(** The bytes fed to the hasher by [BlockDigest::digest_without_signature]. *)
Definition digest_without_signature (authority : AuthorityIndex) (round : RoundNumber)
    (includes : list BlockReference) (statements : list BaseStatement) (time : N) (epoch : bool)
    : list byte :=
  u64_crypto_hash authority ++ u64_crypto_hash round
  ++ concat (BlockReference_crypto_hash <$> includes)
  ++ concat (statement_crypto_hash <$> statements)
  ++ u128_crypto_hash time ++ EpochStatus_crypto_hash epoch.

(** ** The primitives *)

(** Blake2b, and the signing and verification of a digest with Ed25519. *)
Class Crypto := {
  hash : list byte → BlockDigest;
  Signer : Type;
  signer_sign : Signer → BlockDigest → N;
  signer_public_key : Signer → N;
  key_verify : N → N → BlockDigest → bool;
}.

(** A signature verifies under the public key of its signer. *)
Class CryptoLaws `{Crypto} := {
  sign_verifies : ∀ s d, key_verify (signer_public_key s) (signer_sign s d) d = true;
}.

Section BlockAuth.
Context `{Crypto}.

Definition BlockDigest_new (authority : AuthorityIndex) (round : RoundNumber)
    (includes : list BlockReference) (statements : list BaseStatement) (time : N) (epoch : bool)
    (signature : N) : BlockDigest :=
  hash (digest_without_signature authority round includes statements time epoch
        ++ to_be_bytes SIGNATURE_SIZE signature).

Definition sign_block (self : Signer) (authority : AuthorityIndex) (round : RoundNumber)
    (includes : list BlockReference) (statements : list BaseStatement) (time : N) (epoch : bool) : N :=
  signer_sign self (hash (digest_without_signature authority round includes statements time epoch)).

Definition verify_block (key : N) (block : StatementBlock) : bool :=
  key_verify key (signature block)
    (hash (digest_without_signature (author block) (block_round block) (includes block)
             (statements block) (meta_creation_time_ns block) (epoch_changed block))).

(** ** Blocks *)

Definition StatementBlock_new (authority : AuthorityIndex) (round : RoundNumber)
    (includes : list BlockReference) (statements : list BaseStatement) (time : N) (epoch : bool)
    (signature : N) : StatementBlock :=
  mkBlock (mkRef authority round
             (BlockDigest_new authority round includes statements time epoch signature))
    includes statements time epoch signature.

Definition new_genesis (authority : AuthorityIndex) : StatementBlock :=
  StatementBlock_new authority GENESIS_ROUND [] [] 0 false 0.

Definition new_with_signer (authority : AuthorityIndex) (round : RoundNumber)
    (includes : list BlockReference) (statements : list BaseStatement) (time : N) (epoch : bool)
    (signer : Signer) : StatementBlock :=
  let signature := sign_block signer authority round includes statements time epoch in
  StatementBlock_new authority round includes statements time epoch signature.

(** [Committee::genesis_blocks]: the own genesis block and those of the others. *)
Definition genesis_blocks (c : Committee) (for_authority : AuthorityIndex)
    : StatementBlock * list StatementBlock :=
  (new_genesis for_authority, new_genesis <$> filter (λ a, a ≠ for_authority) (authorities c)).

Definition verify_include (c : Committee) (round : RoundNumber) (i : BlockReference) : bool :=
  known_authority c (br_authority i) && bool_decide (br_round i < round).

Definition verify_statement (s : BaseStatement) : bool :=
  match s with
  | Share _ => true
  | VoteStmt _ _ => true
  | VoteRange range => TransactionLocatorRange_verify range
  end.

(** [StatementBlock::verify]: [true] is [Ok(())]. *)
Definition verify (self : StatementBlock) (c : Committee) : outcome bool :=
  let round := block_round self in
  let digest := BlockDigest_new (author self) round (includes self) (statements self)
                  (meta_creation_time_ns self) (epoch_marker self) (signature self) in
  if negb (bool_decide (digest = block_digest self)) then Ok false
  else match get_public_key c (author self) with
  | None => Ok false
  | Some pub_key =>
      if bool_decide (round = GENESIS_ROUND) then Ok false
      else if negb (verify_block pub_key self) then Ok false
      else if negb (forallb (verify_include c round) (includes self)) then Ok false
      else if negb (forallb verify_statement (statements self)) then Ok false
      else threshold_clock_valid_non_genesis self c
  end.
End BlockAuth.

(** ** What verification accepts *)

(** The conditions on the contents of a block that do not involve hashes. *)
Record well_formed_block (c : Committee) (b : StatementBlock) : Prop := {
  wb_author : author b < committee_len c;
  wb_round : 0 < block_round b;
  wb_includes : Forall (λ i, br_authority i < committee_len c ∧ br_round i < block_round b) (includes b);
  wb_statements : Forall (λ s, verify_statement s = true) (statements b);
  wb_quorum : is_quorum c (set_stake c (authors_at (block_round b - 1) (includes b))) = true;
}.

Section Verify.
Context `{Crypto}.

(** The digest and the signature of [b] are those of its contents. *)
Definition authentic (c : Committee) (b : StatementBlock) : Prop :=
  BlockDigest_new (author b) (block_round b) (includes b) (statements b) (meta_creation_time_ns b)
    (epoch_marker b) (signature b) = block_digest b ∧
  ∃ key, get_public_key c (author b) = Some key ∧ verify_block key b = true.

Lemma get_public_key_known c a key : get_public_key c a = Some key → a < committee_len c.
Proof.
  unfold get_public_key, committee_len. intros (x & Hx & _)%fmap_Some.
  apply lookup_lt_Some in Hx. lia.
Qed.

Lemma verify_includes_spec c round l :
  forallb (verify_include c round) l = true ↔
  Forall (λ i, br_authority i < committee_len c ∧ br_round i < round) l.
Proof.
  rewrite forallb_forall, Forall_forall. setoid_rewrite <-list_elem_of_In.
  unfold verify_include, known_authority. setoid_rewrite andb_true_iff.
  by setoid_rewrite bool_decide_eq_true.
Qed.

Lemma verify_statements_spec l :
  forallb verify_statement l = true ↔ Forall (λ s, verify_statement s = true) l.
Proof. rewrite forallb_forall, Forall_forall. by setoid_rewrite <-list_elem_of_In. Qed.

Lemma verify_spec c b : wf_committee c → block_round b < u64_modulus →
  ∃ r, verify b c = Ok r ∧ (r = true ↔ authentic c b ∧ well_formed_block c b).
Proof.
  intros Hc Hb. unfold verify, authentic. fold (block_digest b).
  case_bool_decide as Hd; simpl; [|exists false; naive_solver].
  destruct (get_public_key c (author b)) as [key|] eqn:Hkey; [|exists false; naive_solver].
  pose proof (get_public_key_known _ _ _ Hkey).
  case_bool_decide as Hr; simpl.
  { exists false. split; [done|]. split; [done|]. intros [_ [_ Hpos _ _ _]].
    unfold GENESIS_ROUND in Hr. lia. }
  destruct (verify_block key b) eqn:Hsig; simpl; [|exists false; naive_solver].
  destruct (forallb (verify_include c (block_round b)) (includes b)) eqn:Hi; simpl.
  2:{ exists false. split; [done|]. split; [done|]. intros [_ [_ _ Hinc _ _]].
      apply verify_includes_spec in Hinc. congruence. }
  destruct (forallb verify_statement (statements b)) eqn:Hs; simpl.
  2:{ exists false. split; [done|]. split; [done|]. intros [_ [_ _ _ Hst _]].
      apply verify_statements_spec in Hst. congruence. }
  apply verify_includes_spec in Hi. apply verify_statements_spec in Hs.
  assert (0 < block_round b) by (unfold GENESIS_ROUND in Hr; lia).
  rewrite threshold_clock_valid_spec; [|done..|eapply Forall_impl; [exact Hi|naive_solver]].
  rewrite bool_decide_true by (eapply Forall_impl; [exact Hi|naive_solver]). simpl.
  eexists. split; [done|]. split; [|by intros [_ []]].
  intros Hq. split; [split; [done|]; eauto|]. by split.
Qed.

Lemma new_with_signer_authentic `{!CryptoLaws} c signer a round incs stmts time epoch :
  get_public_key c a = Some (signer_public_key signer) →
  authentic c (new_with_signer a round incs stmts time epoch signer).
Proof.
  intros Hkey. split; [done|]. eexists. split; [exact Hkey|].
  unfold verify_block, new_with_signer, sign_block. cbn. apply sign_verifies.
Qed.
End Verify.

(** C19: Acceptance of blocks: for every block of a round below 2^64,
    [StatementBlock::verify] returns without panic, and accepts exactly the blocks
    whose digest is that of their contents, whose signature verifies under the
    key of their author, which include only older blocks of known authorities, a
    quorum of them from the previous round, and whose vote ranges are bounded. *)
Theorem verify_exact `{Crypto} c b :
  wf_committee c → block_round b < u64_modulus →
  ∃ r, verify b c = Ok r ∧ (r = true ↔ authentic c b ∧ well_formed_block c b).
Proof. apply verify_spec. Qed.

(** A hash that sums the bytes, and signatures that are the digest under the key 7. *)
Definition sum_hash (l : list byte) : N := list_sum Byte.to_N l.
Definition toy_crypto : Crypto := {|
  hash := sum_hash; Signer := N; signer_sign := λ s d, s + d; signer_public_key := λ s, s;
  key_verify := λ k sig d, bool_decide (sig = k + d) |}.

Lemma toy_crypto_laws : @CryptoLaws toy_crypto.
Proof. split. intros s d. by apply bool_decide_eq_true. Qed.

Definition signed_block : StatementBlock :=
  @new_with_signer toy_crypto 2 1 [mkRef 0 0 0; mkRef 1 0 0; mkRef 2 0 0] [] 9 false 0.

Lemma verify_exact_witness : @verify toy_crypto signed_block four_equal = Ok true.
Proof.
  destruct (@verify_exact toy_crypto four_equal signed_block four_equal_wf eq_refl) as (r & Hr & Hiff).
  rewrite Hr. f_equal. apply Hiff. split.
  - apply (@new_with_signer_authentic toy_crypto toy_crypto_laws). done.
  - split; try done; repeat constructor.
Defined.

(** ** Two transactions hash like one

    A transaction is hashed without its length: the statements [Share d1; Share d2]
    and the single [Share (d1 ++ [0] ++ d2)] feed the same bytes to the hasher. The
    two blocks have the same reference and the same signature, and [verify] does
    not tell them apart, whatever the hash function and the signature scheme. *)
Definition merge_shares (b : StatementBlock) : StatementBlock :=
  match statements b with
  | Share tx1 :: Share tx2 :: rest =>
      mkBlock (reference b) (includes b)
        (Share (mkTransaction (tx_data tx1 ++ x00 :: tx_data tx2)) :: rest)
        (meta_creation_time_ns b) (epoch_marker b) (signature b)
  | _ => b
  end.

Lemma merged_block_verifies `{Crypto} c b tx1 tx2 rest :
  statements b = Share tx1 :: Share tx2 :: rest →
  merge_shares b ≠ b ∧ reference (merge_shares b) = reference b ∧
  verify (merge_shares b) c = verify b c.
Proof.
  destruct b as [ref incs stmts time epoch sig]. simpl. intros ->. split; [|split; [done|]].
  - intros Heq. injection Heq as _ Heq. apply (f_equal length) in Heq. simpl in Heq. lia.
  - assert (Hbytes : ∀ a r l t e,
      digest_without_signature a r l
        (Share (mkTransaction (tx_data tx1 ++ x00 :: tx_data tx2)) :: rest) t e
      = digest_without_signature a r l (Share tx1 :: Share tx2 :: rest) t e).
    { intros. unfold digest_without_signature. do 4 f_equal.
      cbn [fmap list_fmap concat statement_crypto_hash tx_data app]. by rewrite <-app_assoc. }
    unfold verify, BlockDigest_new, verify_block. cbn [includes statements meta_creation_time_ns
      epoch_marker signature epoch_changed merge_shares].
    by rewrite !Hbytes.
Qed.
