(* ===== verification/Epoch.v ===== *)
(** * Epoch: the epoch-change state machine (mysticeti-core/src/epoch_close.rs)

    The clock reading [timestamp_utc().as_millis()] is an argument of the step. *)

From S2P Require Import Prelude Types Committee.

Record EpochManager := mkEpochManager {
  epoch_status : InternalEpochStatus;
  change_aggregator : StakeAggregator QuorumThreshold;
  epoch_close_time : N;
}.

Definition EpochManager_new : EpochManager := mkEpochManager Open StakeAggregator_new 0.

Definition epoch_change_begun (self : EpochManager) : EpochManager :=
  match epoch_status self with
  | Open => mkEpochManager BeginChange (change_aggregator self) (epoch_close_time self)
  | _ => self
  end.

Definition observe_committed_block (self : EpochManager) (block : StatementBlock)
    (c : Committee) (timestamp_ms : N) : outcome EpochManager :=
  if epoch_changed block then
    '(agg, is_quorum) ← StakeAggregator_add (change_aggregator self) (author block) c;
    let self := mkEpochManager (epoch_status self) agg (epoch_close_time self) in
    if (is_quorum : bool) && negb (bool_decide (epoch_status self = SafeToClose)) then
      _ ← rust_assert (bool_decide (epoch_status self = BeginChange));
      Ok (mkEpochManager (epoch_status self) (change_aggregator self) (wrap64 timestamp_ms))
    else Ok self
  else Ok self.

Definition changing (self : EpochManager) : bool := negb (bool_decide (epoch_status self = Open)).
Definition closed (self : EpochManager) : bool := bool_decide (epoch_status self = SafeToClose).
Definition closing_time (self : EpochManager) : N := epoch_close_time self.

(** ** The manager as a transition system *)

Inductive epoch_step (c : Committee) : EpochManager → EpochManager → Prop :=
| step_begin m : epoch_step c m (epoch_change_begun m)
| step_observe m b now m' :
    observe_committed_block m b c now = Ok m' → epoch_step c m m'.

(** What a reachable manager knows: [X] are the authors of the committed
    epoch-change blocks it observed. *)
Definition epoch_inv (c : Committee) (m : EpochManager) : Prop :=
  epoch_status m ≠ SafeToClose ∧
  ∃ X, agg_inv c (change_aggregator m) X ∧
    (epoch_status m = Open → epoch_close_time m = 0 ∧ is_quorum c (set_stake c X) = false) ∧
    (epoch_close_time m ≠ 0 → is_quorum c (set_stake c X) = true).

Lemma epoch_inv_new c : epoch_inv c EpochManager_new.
Proof.
  split; [done|]. exists ∅. split_and!; [apply agg_inv_new| |done].
  intros _. split; [done|]. apply is_quorum_empty.
Qed.

Lemma epoch_inv_begin c m : epoch_inv c m → epoch_inv c (epoch_change_begun m).
Proof.
  intros (Hst & X & Hagg & Hopen & Hclose). unfold epoch_change_begun.
  destruct (epoch_status m) eqn:E; split; simpl; try congruence;
    exists X; split_and!; try done; congruence.
Qed.

Lemma epoch_inv_observe c m b now m' :
  wf_committee c → observe_committed_block m b c now = Ok m' → epoch_inv c m → epoch_inv c m'.
Proof.
  intros Hwf Hobs (Hst & X & Hagg & Hopen & Hclose). unfold observe_committed_block in Hobs.
  destruct (epoch_changed b); [|injection Hobs as <-; by split; [|exists X]].
  destruct (N.lt_ge_cases (author b) (committee_len c)) as [Ha|Ha];
    [|by rewrite StakeAggregator_add_unknown in Hobs].
  destruct (StakeAggregator_add_spec c _ _ _ Hwf Hagg Ha) as (agg & Hadd & Hagg').
  rewrite Hadd in Hobs. simpl in Hobs. unfold is_threshold, quorum_is_threshold in Hobs.
  assert (Hmono : is_quorum c (set_stake c X) = true →
                  is_quorum c (set_stake c ({[author b]} ∪ X)) = true).
  { intros H. apply (quorum_mono _ _ _ H), set_stake_subseteq. set_solver. }
  destruct (is_quorum c (set_stake c ({[author b]} ∪ X))) eqn:Hq; simpl in Hobs.
  - rewrite bool_decide_false in Hobs by done. simpl in Hobs.
    case_bool_decide as Hbc; simpl in Hobs; [|done]. injection Hobs as <-.
    split; simpl; [done|]. exists ({[author b]} ∪ X). split_and!; [done|congruence|done].
  - injection Hobs as <-. split; simpl; [done|].
    exists ({[author b]} ∪ X). split_and!; [done| |].
    + intros Ho. split; [by apply Hopen|done].
    + intros Ht%Hclose. rewrite Hmono in Hq by done. done.
Qed.

Lemma epoch_inv_reachable c m :
  wf_committee c → rtc (epoch_step c) EpochManager_new m → epoch_inv c m.
Proof.
  intros Hwf Hr. assert (∀ m0, epoch_inv c m0 → rtc (epoch_step c) m0 m → epoch_inv c m) as Hgen.
  { clear Hr. intros m0 Hinv Hr. induction Hr as [|m0 m1 m2 Hstep _ IH]; [done|]. apply IH.
    destruct Hstep; [by apply epoch_inv_begin|by eapply epoch_inv_observe]. }
  eapply Hgen; [apply epoch_inv_new|done].
Qed.

(** Epoch close, as the code implements it. In every reachable state of the
    epoch manager a non-zero closing time certifies that the distinct authors of
    the observed epoch-change blocks form a quorum; but no sequence of steps ever
    sets the status to [SafeToClose], so [closed] is false forever, although the
    code logs that the epoch is safe to close. *)
Theorem epoch_close_reachable c m :
  wf_committee c → rtc (epoch_step c) EpochManager_new m →
  closed m = false ∧
  (closing_time m ≠ 0 →
   ∃ X, agg_inv c (change_aggregator m) X ∧ is_quorum c (set_stake c X) = true ∧ changing m = true).
Proof.
  intros Hwf (Hst & X & Hagg & Hopen & Hclose)%epoch_inv_reachable; [|done].
  split; [by apply bool_decide_eq_false|]. intros Ht. exists X. split_and!; [done|by apply Hclose|].
  unfold changing. case_bool_decide as Ho; [|done]. apply Hopen in Ho as [??]. done.
Qed.

Definition epoch_block (a : AuthorityIndex) : StatementBlock :=
  mkBlock (mkRef a 5 a) [] [] 0 true 0.

Lemma epoch_close_reachable_witness :
  ∃ m, rtc (epoch_step four_equal) EpochManager_new m ∧ closing_time m = 77 ∧ closed m = false.
Proof.
  assert (∃ m, rtc (epoch_step four_equal) EpochManager_new m ∧ closing_time m = 77) as (m & Hm & Ht).
  { eexists. split.
    - eapply rtc_l; [apply step_begin|].
      eapply rtc_l; [apply (step_observe _ _ (epoch_block 0) 75); vm_compute; reflexivity|].
      eapply rtc_l; [apply (step_observe _ _ (epoch_block 1) 76); vm_compute; reflexivity|].
      eapply rtc_l; [apply (step_observe _ _ (epoch_block 3) 77); vm_compute; reflexivity|].
      apply rtc_refl.
    - vm_compute; reflexivity. }
  exists m. split_and!; [exact Hm|exact Ht|].
  apply (epoch_close_reachable four_equal m four_equal_wf Hm).
Defined.

(** The error path: a manager that still is [Open] panics as soon as the
    epoch-change block it observes completes a quorum of distinct authors. *)
Theorem epoch_open_quorum_panics c m X b now :
  wf_committee c → epoch_status m = Open → agg_inv c (change_aggregator m) X →
  epoch_changed b = true → author b < committee_len c →
  is_quorum c (set_stake c ({[author b]} ∪ X)) = true →
  observe_committed_block m b c now = Panic.
Proof.
  intros Hwf Ho Hagg Hb Ha Hq. unfold observe_committed_block. rewrite Hb.
  destruct (StakeAggregator_add_spec c _ _ _ Hwf Hagg Ha) as (agg & -> & _). simpl.
  unfold is_threshold, quorum_is_threshold. rewrite Hq, Ho. done.
Qed.

Lemma epoch_open_quorum_panics_witness :
  observe_committed_block
    (mkEpochManager Open (mkAggregator 3 2) 0) (epoch_block 2) four_equal 0 = Panic.
Proof.
  apply (epoch_open_quorum_panics four_equal _ {[0; 1]}); try (vm_compute; reflexivity).
  - exact four_equal_wf.
  - split.
    + intros v. unfold StakeAggregator_voters. rewrite elem_of_present. cbn [agg_votes change_aggregator].
      split.
      * intros [Hv Hb]. destruct (N.lt_ge_cases v 2) as [Hv2|Hv2].
        -- assert (v = 0 ∨ v = 1) as [-> | ->] by lia; set_solver.
        -- rewrite N.bits_above_log2 in Hb; [done|]. simpl. lia.
      * intros [->%elem_of_singleton| ->%elem_of_singleton]%elem_of_union; done.
    + intros v. rewrite elem_of_all_authorities. set_solver by lia.
    + vm_compute; reflexivity.
Defined.
