(* ===== verification/BTree.v ===== *)
(** * BTree: the ordered-map view of std::collections::BTreeMap

    A [BTreeMap] with [u64] or [usize] keys is a [gmap N]; its ordered operations
    ([range], [last], [next], [iter]) go through the key-sorted list of entries. *)

From S2P Require Import Prelude.

Section btree.
Context {V : Type}.
Implicit Types (m : gmap N V) (l : list (N * V)).

Definition key_le (p q : N * V) : Prop := p.1 ≤ q.1.
#[global] Instance key_le_dec : RelDecision key_le.
Proof. unfold RelDecision, key_le. apply _. Defined.
#[global] Instance key_le_total : Total key_le.
Proof. intros p q. unfold key_le. lia. Qed.
#[global] Instance key_le_trans : Transitive key_le.
Proof. intros p q r. unfold key_le. lia. Qed.

(** [iter()]: the entries in increasing key order. *)
Definition btree_entries m : list (N * V) := merge_sort key_le (map_to_list m).

(** [range(..=k).last()] and [range(..k).next_back()] *)
Definition btree_last_le m (k : N) : option (N * V) :=
  last (filter (λ p, p.1 ≤ k) (btree_entries m)).
Definition btree_last_lt m (k : N) : option (N * V) :=
  last (filter (λ p, p.1 < k) (btree_entries m)).

(** [range(a..b).next()] *)
Definition btree_first_in m (a b : N) : option (N * V) :=
  head (filter (λ p, a ≤ p.1 ∧ p.1 < b) (btree_entries m)).

(** [last_key_value()] *)
Definition btree_last m : option (N * V) := last (btree_entries m).

Lemma elem_of_btree_entries m k v : (k, v) ∈ btree_entries m ↔ m !! k = Some v.
Proof. unfold btree_entries. rewrite merge_sort_Permutation. apply elem_of_map_to_list. Qed.

Lemma btree_entries_sorted m : StronglySorted key_le (btree_entries m).
Proof. apply (StronglySorted_merge_sort key_le). Qed.

Lemma btree_entries_NoDup m : NoDup (btree_entries m).*1.
Proof. unfold btree_entries. rewrite merge_sort_Permutation. apply NoDup_fst_map_to_list. Qed.

Lemma StronglySorted_filter {A} (R : relation A) (P : A → Prop) `{∀ x, Decision (P x)} (l : list A) :
  StronglySorted R l → StronglySorted R (filter P l).
Proof.
  induction 1 as [|x l Hl IH Hx]; [constructor|].
  rewrite filter_cons. case_decide; [|done]. constructor; [done|].
  rewrite Forall_forall in Hx |- *. intros y [_ Hy]%list_elem_of_filter. by apply Hx.
Qed.

Lemma StronglySorted_last {A} (R : relation A) (l : list A) x y :
  StronglySorted R l → last l = Some x → y ∈ l → R y x ∨ y = x.
Proof.
  induction 1 as [|z l Hl IH Hz]; [done|]. intros Hlast [->|Hy]%elem_of_cons.
  - destruct l as [|w l]; [simpl in Hlast; simplify_eq; by right|]. left.
    rewrite Forall_forall in Hz. apply Hz. apply last_Some_elem_of.
    by rewrite last_cons_cons in Hlast.
  - destruct l as [|w l]; [by apply not_elem_of_nil in Hy|].
    rewrite last_cons_cons in Hlast. by apply IH.
Qed.

Lemma StronglySorted_head {A} (R : relation A) (l : list A) x y :
  StronglySorted R l → head l = Some x → y ∈ l → R x y ∨ y = x.
Proof.
  destruct 1 as [|z l Hl Hz]; [done|]. simpl. intros ? [->|Hy]%elem_of_cons; simplify_eq; [by right|].
  left. rewrite Forall_forall in Hz. by apply Hz.
Qed.

Lemma btree_last_filter (P : N → Prop) `{∀ k, Decision (P k)} m k v :
  last (filter (λ p, P p.1) (btree_entries m)) = Some (k, v) →
  m !! k = Some v ∧ P k ∧ ∀ k', is_Some (m !! k') → P k' → k' ≤ k.
Proof.
  intros Hl. pose proof (last_Some_elem_of _ _ Hl) as [HP Hin]%list_elem_of_filter.
  apply elem_of_btree_entries in Hin. split_and!; [done|done|].
  intros k' [v' Hv'] HP'. eapply (StronglySorted_last key_le) with (y := (k', v')) in Hl.
  - destruct Hl as [Hle|Heq]; [exact Hle|injection Heq as -> ->; lia].
  - apply StronglySorted_filter, btree_entries_sorted.
  - apply list_elem_of_filter. split; [done|]. by apply elem_of_btree_entries.
Qed.

Lemma btree_filter_None (P : N → Prop) `{∀ k, Decision (P k)} m k :
  filter (λ p, P p.1) (btree_entries m) = [] → P k → m !! k = None.
Proof.
  intros Hl HP. destruct (m !! k) as [v|] eqn:Hk; [|done].
  assert ((k, v) ∈ filter (λ p, P p.1) (btree_entries m)) as Hin.
  { apply list_elem_of_filter. split; [done|]. by apply elem_of_btree_entries. }
  rewrite Hl in Hin. by apply not_elem_of_nil in Hin.
Qed.

Lemma btree_last_le_Some m k k' v :
  btree_last_le m k = Some (k', v) →
  m !! k' = Some v ∧ k' ≤ k ∧ ∀ j, is_Some (m !! j) → j ≤ k → j ≤ k'.
Proof. intros H. exact (btree_last_filter (λ j, j ≤ k) _ _ _ H). Qed.

Lemma btree_last_le_None m k : btree_last_le m k = None → ∀ j, j ≤ k → m !! j = None.
Proof. intros H%last_None j Hj. by apply (btree_filter_None (λ j, j ≤ k)). Qed.

Lemma btree_last_lt_Some m k k' v :
  btree_last_lt m k = Some (k', v) →
  m !! k' = Some v ∧ k' < k ∧ ∀ j, is_Some (m !! j) → j < k → j ≤ k'.
Proof. intros H. exact (btree_last_filter (λ j, j < k) _ _ _ H). Qed.

Lemma btree_last_lt_None m k : btree_last_lt m k = None → ∀ j, j < k → m !! j = None.
Proof. intros H%last_None j Hj. by apply (btree_filter_None (λ j, j < k)). Qed.

Lemma btree_first_in_Some m a b k v :
  btree_first_in m a b = Some (k, v) →
  m !! k = Some v ∧ a ≤ k < b ∧ ∀ j, is_Some (m !! j) → a ≤ j → j < b → k ≤ j.
Proof.
  unfold btree_first_in. intros Hh.
  assert ((k, v) ∈ filter (λ p : N * V, a ≤ p.1 ∧ p.1 < b) (btree_entries m)) as Hin.
  { destruct (filter _ _); simplify_eq/=. left. }
  apply list_elem_of_filter in Hin as [HP Hin]. apply elem_of_btree_entries in Hin.
  split_and!; [done|apply HP|apply HP|]. intros j [v' Hv'] ??.
  eapply (StronglySorted_head key_le) with (y := (j, v')) in Hh.
  - destruct Hh as [Hle|Heq]; [exact Hle|injection Heq as -> ->; lia].
  - apply StronglySorted_filter, btree_entries_sorted.
  - apply list_elem_of_filter. split; [done|]. by apply elem_of_btree_entries.
Qed.

Lemma btree_first_in_None m a b :
  btree_first_in m a b = None → ∀ j, a ≤ j → j < b → m !! j = None.
Proof.
  intros H j ??. apply (btree_filter_None (λ j, a ≤ j ∧ j < b)); [|done].
  unfold btree_first_in in H. by destruct (filter _ _).
Qed.

Lemma btree_last_Some m k v :
  btree_last m = Some (k, v) → m !! k = Some v ∧ ∀ j, is_Some (m !! j) → j ≤ k.
Proof.
  intros Hl. pose proof (last_Some_elem_of _ _ Hl) as Hin. apply elem_of_btree_entries in Hin.
  split; [done|]. intros j [v' Hv'].
  eapply (StronglySorted_last key_le) with (y := (j, v')) in Hl.
  - destruct Hl as [Hle|Heq]; [exact Hle|injection Heq as -> ->; lia].
  - apply btree_entries_sorted.
  - by apply elem_of_btree_entries.
Qed.

Lemma btree_last_None m : btree_last m = None → m = ∅.
Proof.
  intros H%last_None. apply map_empty. intros k. destruct (m !! k) as [v|] eqn:Hk; [|done].
  apply elem_of_btree_entries in Hk. rewrite H in Hk. by apply not_elem_of_nil in Hk.
Qed.
End btree.
