(* ===== verification/RangeMap.v ===== *)
(** * RangeMap: a map on [u64] keys stored as disjoint ranges
      (mysticeti-core/src/range_map.rs)

    [mutate_range] is the loop of the source, with the closure [F: FnMut] as a
    function that threads its captured state and may panic. The abstraction of a
    range map is the partial function [covers]/[denote] from keys to values; the
    refinement theorem states [mutate_range] in terms of it. *)

From S2P Require Import Prelude Types BTree.

Section RangeMap.
Context {V S : Type}.

Record RangeItem := mkItem {
  start_included : N;
  end_excluded : N;
  item_v : option V;
}.

Notation rmap := (gmap N RangeItem).

Definition with_end (it : RangeItem) (e : N) : RangeItem := mkItem (start_included it) e (item_v it).
Definition with_v (it : RangeItem) (v : option V) : RangeItem :=
  mkItem (start_included it) (end_excluded it) v.

(** [let Entry::Vacant(va) = self.map.entry(k) else { panic!() }; va.insert(item)] *)
Definition insert_vacant (m : rmap) (k : N) (it : RangeItem) : outcome rmap :=
  match m !! k with Some _ => Panic | None => Ok (<[k := it]> m) end.

(** The first block of the loop: the item that starts at [k], after a split
    when [k] lies strictly inside an item. The item is returned by its key. *)
Definition find_start (m : rmap) (k : N) : outcome (rmap * option (N * RangeItem)) :=
  match btree_last_le m k with
  | Some (lower_bound_k, lower_bound_v) =>
      if bool_decide (lower_bound_k = k) then Ok (m, Some (lower_bound_k, lower_bound_v))
      else if bool_decide (k < end_excluded lower_bound_v) then
        let new_item := mkItem k (end_excluded lower_bound_v) (item_v lower_bound_v) in
        let m := <[lower_bound_k := with_end lower_bound_v k]> m in
        m ← insert_vacant m k new_item;
        Ok (m, Some (k, new_item))
      else Ok (m, None)
  | None => Ok (m, None)
  end.

(** The second block: the key of the item to mutate, and the rest of the range. *)
Definition find_overlap (m : rmap) (start : option (N * RangeItem)) (rs re : N)
    : outcome (rmap * N * option (N * N)) :=
  match start with
  | Some (key, it) =>
      if bool_decide (end_excluded it = re) then Ok (m, key, None)
      else if bool_decide (re < end_excluded it) then
        let new_item := mkItem re (end_excluded it) (item_v it) in
        let m := <[key := with_end it re]> m in
        let m := <[re := new_item]> m in
        _ ← expect (m !! rs);
        Ok (m, rs, None)
      else Ok (m, key, Some (end_excluded it, re))
  | None =>
      _ ← rust_assert (bool_decide (rs ≤ re));
      match btree_first_in m rs re with
      | Some (upper_bound_start, _) =>
          m ← insert_vacant m rs (mkItem rs upper_bound_start None);
          Ok (m, rs, Some (upper_bound_start, re))
      | None =>
          m ← insert_vacant m rs (mkItem rs re None);
          Ok (m, rs, None)
      end
  end.

Context (f : N * N → option V → S → outcome (S * option V)).

Definition apply_overlap (m : rmap) (key : N) (st : S) : outcome (rmap * S) :=
  overlap ← expect (m !! key);
  '(st, v) ← f (start_included overlap, end_excluded overlap) (item_v overlap) st;
  let m := <[key := with_v overlap v]> m in
  match v with
  | None =>
      _ ← expect (m !! start_included overlap);
      Ok (delete (start_included overlap) m, st)
  | Some _ => Ok (m, st)
  end.

Definition mutate_step (s : rmap * (N * N) * S) : outcome (rmap * (N * N) * S + rmap * S) :=
  let '(m, (rs, re), st) := s in
  '(m, start) ← find_start m rs;
  '(m, key, next_range) ← find_overlap m start rs re;
  '(m, st) ← apply_overlap m key st;
  match next_range with
  | Some range => Ok (inl (m, range, st))
  | None => Ok (inr (m, st))
  end.

(** Every continuing iteration starts at a later key, so the length of the
    range bounds their number. *)
Definition mutate_range (m : rmap) (range : N * N) (st : S) : outcome (rmap * S) :=
  loop mutate_step (range.2 - range.1 + 1) (m, range, st).

Definition range_map_is_empty (m : rmap) : bool := bool_decide (m = ∅).

(** ** Abstraction and well-formedness *)

Definition covers (m : rmap) (x : N) (v : V) : Prop :=
  ∃ k it, m !! k = Some it ∧ k ≤ x ∧ x < end_excluded it ∧ item_v it = Some v.

(** Items are keyed by their start, non-empty and pairwise disjoint. *)
Definition wf_items (m : rmap) : Prop :=
  ∀ k it, m !! k = Some it →
    start_included it = k ∧ k < end_excluded it ∧
    ∀ k' it', m !! k' = Some it' → k < k' → end_excluded it ≤ k'.

Definition wf_range_map (m : rmap) : Prop :=
  wf_items m ∧ ∀ k it, m !! k = Some it → is_Some (item_v it).

(** The value at a key, by the lookup the [BTreeMap] affords. *)
Definition denote (m : rmap) (x : N) : option V :=
  match btree_last_le m x with
  | Some (_, it) => if bool_decide (x < end_excluded it) then item_v it else None
  | None => None
  end.

Lemma wf_items_disjoint m k1 it1 k2 it2 x :
  wf_items m → m !! k1 = Some it1 → m !! k2 = Some it2 →
  k1 ≤ x < end_excluded it1 → k2 ≤ x < end_excluded it2 → k1 = k2.
Proof.
  intros Hwf H1 H2 ??. destruct (N.lt_trichotomy k1 k2) as [Hlt|[?|Hlt]]; [|done|].
  - apply (Hwf k1 it1 H1) in H2; [lia|done].
  - apply (Hwf k2 it2 H2) in H1; [lia|done].
Qed.

Lemma denote_Some m x v : wf_items m → denote m x = Some v ↔ covers m x v.
Proof.
  intros Hwf. unfold denote. split.
  - destruct (btree_last_le m x) as [[k it]|] eqn:Hl; [|done].
    apply btree_last_le_Some in Hl as (Hk & Hle & _). case_bool_decide; [|done].
    intros Hv. by exists k, it.
  - intros (k & it & Hk & Hle & Hlt & Hv).
    destruct (btree_last_le m x) as [[k' it']|] eqn:Hl.
    + apply btree_last_le_Some in Hl as (Hk' & Hle' & Hmax).
      assert (k ≤ k') as Hkk by (apply Hmax; [by exists it|done]).
      destruct (N.eq_dec k k') as [->|Hne].
      * rewrite Hk in Hk'. simplify_eq. by rewrite bool_decide_true.
      * destruct (Hwf k it Hk) as (_ & _ & Hdis). apply Hdis in Hk'; lia.
    + rewrite (btree_last_le_None m x Hl k Hle) in Hk. done.
Qed.

Lemma denote_None m x : wf_items m → denote m x = None ↔ ∀ v, ¬ covers m x v.
Proof.
  intros Hwf. split.
  - intros Hn v Hc. apply denote_Some in Hc; [congruence|done].
  - intros Hn. destruct (denote m x) as [v|] eqn:Hd; [|done].
    apply denote_Some in Hd; [|done]. by apply Hn in Hd.
Qed.

(** Two maps with the same coverage denote the same function. *)
Lemma denote_ext m m' x :
  wf_items m → wf_items m' → (∀ v, covers m x v ↔ covers m' x v) → denote m x = denote m' x.
Proof.
  intros Hwf Hwf' Hc. destruct (denote m' x) as [v|] eqn:Hd.
  - apply denote_Some; [done|]. apply Hc. by apply denote_Some.
  - apply denote_None; [done|]. intros v ?%Hc. rewrite denote_None in Hd by done. by eapply Hd.
Qed.
(** ** Local edits of a well-formed map *)

(** Splitting an item at [j] changes nothing observable. *)
Lemma split_item m k it j :
  wf_items m → m !! k = Some it → k < j → j < end_excluded it →
  let m' := <[j := mkItem j (end_excluded it) (item_v it)]> (<[k := with_end it j]> m) in
  wf_items m' ∧ ∀ x v, covers m' x v ↔ covers m x v.
Proof.
  intros Hwf Hk Hkj Hj m'. destruct (Hwf k it Hk) as (Hs & Hlt & Hdis).
  assert (Hother : ∀ k' it', k' ≠ j → k' ≠ k → m' !! k' = Some it' ↔ m !! k' = Some it').
  { intros. unfold m'. by rewrite !lookup_insert_ne by done. }
  assert (Hat_j : m' !! j = Some (mkItem j (end_excluded it) (item_v it))).
  { unfold m'. by rewrite lookup_insert_eq. }
  assert (Hat_k : m' !! k = Some (with_end it j)).
  { unfold m'. rewrite lookup_insert_ne by lia. by rewrite lookup_insert_eq. }
  assert (Hnone : m !! j = None).
  { destruct (m !! j) eqn:E; [|done]. apply Hdis in E; lia. }
  split.
  - intros a ita Ha. destruct (decide (a = j)) as [->|Haj].
    { rewrite Hat_j in Ha. injection Ha as <-; cbn [start_included end_excluded item_v with_end] in *. split_and!; [done|done|].
      intros b itb Hb Hjb. apply Hother in Hb; [|lia..]. apply Hdis in Hb; lia. }
    destruct (decide (a = k)) as [->|Hak].
    { rewrite Hat_k in Ha. injection Ha as <-; cbn [start_included end_excluded item_v with_end] in *. split_and!; [done|done|].
      intros b itb Hb Hkb. destruct (decide (b = j)) as [->|]; [lia|].
      apply Hother in Hb; [|lia..]. apply Hdis in Hb; lia. }
    apply Hother in Ha; [|done..]. destruct (Hwf a ita Ha) as (? & ? & Hd). split_and!; [done..|].
    intros b itb Hb Hab. destruct (decide (b = j)) as [->|]; [|destruct (decide (b = k)) as [->|]].
    + destruct (N.lt_trichotomy a k) as [?|[?|?]]; [|done|].
      * apply Hd in Hk; lia.
      * apply Hdis in Ha; lia.
    + apply Hd in Hk; lia.
    + apply Hother in Hb; [|done..]. by apply Hd in Hb.
  - intros x v. split.
    + intros (a & ita & Ha & ? & ? & ?). destruct (decide (a = j)) as [->|Haj].
      { rewrite Hat_j in Ha. injection Ha as <-; cbn [start_included end_excluded item_v with_end] in *. exists k, it. split_and!; [done|lia|lia|done]. }
      destruct (decide (a = k)) as [->|Hak].
      { rewrite Hat_k in Ha. injection Ha as <-; cbn [start_included end_excluded item_v with_end] in *. exists k, it. split_and!; [done|lia|lia|done]. }
      apply Hother in Ha; [|done..]. by exists a, ita.
    + intros (a & ita & Ha & ? & ? & ?). destruct (decide (a = k)) as [->|Hak].
      * rewrite Hk in Ha. injection Ha as <-. destruct (N.lt_ge_cases x j).
        -- exists k, (with_end it j). split_and!; done.
        -- exists j, (mkItem j (end_excluded it) (item_v it)). split_and!; done.
      * assert (a ≠ j) by congruence. exists a, ita. rewrite Hother by done. done.
Qed.

(** Adding an empty item where nothing is stored. *)
Lemma insert_gap m a b :
  wf_items m → a < b →
  (∀ k it, m !! k = Some it → k < a → end_excluded it ≤ a) →
  (∀ k, a ≤ k → k < b → m !! k = None) →
  let m' := <[a := mkItem a b None]> m in
  wf_items m' ∧ ∀ x v, covers m' x v ↔ covers m x v.
Proof.
  intros Hwf Hab Hbelow Hin m'.
  assert (Ha : m' !! a = Some (mkItem a b None)) by (unfold m'; by rewrite lookup_insert_eq).
  assert (Hother : ∀ k it, k ≠ a → m' !! k = Some it ↔ m !! k = Some it).
  { intros. unfold m'. by rewrite lookup_insert_ne by done. }
  split.
  - intros k it Hk. destruct (decide (k = a)) as [->|Hne].
    + rewrite Ha in Hk. simplify_eq/=. split_and!; [done..|]. intros k' it' Hk' ?.
      apply Hother in Hk'; [|lia]. destruct (N.lt_ge_cases k' b) as [?|?]; [|done].
      rewrite Hin in Hk' by lia. done.
    + apply Hother in Hk; [|done]. destruct (Hwf k it Hk) as (?&?&Hd). split_and!; [done..|].
      intros k' it' Hk' ?. destruct (decide (k' = a)) as [->|]; [by eapply Hbelow|].
      apply Hother in Hk'; [|done]. by eapply Hd.
  - intros x v. split.
    + intros (k & it & Hk & ?&?&?). destruct (decide (k = a)) as [->|Hne].
      * rewrite Ha in Hk. simplify_eq/=.
      * apply Hother in Hk; [|done]. by exists k, it.
    + intros (k & it & Hk & ?&?&?). exists k, it. rewrite Hother; [done|].
      intros ->. rewrite Hin in Hk by lia. done.
Qed.

Lemma wf_items_update m k it v :
  wf_items m → m !! k = Some it → wf_items (<[k := with_v it v]> m).
Proof.
  intros Hwf Hk a ita Ha. destruct (Hwf k it Hk) as (Hs & Hlt & Hd).
  assert (Hdom : ∀ b itb, <[k := with_v it v]> m !! b = Some itb → ∃ itb', m !! b = Some itb').
  { intros b itb. destruct (decide (b = k)) as [->|]; [by exists it|].
    rewrite lookup_insert_ne by done. by exists itb. }
  destruct (decide (a = k)) as [->|Hne].
  - rewrite lookup_insert_eq in Ha. injection Ha as <-. split_and!; [done..|].
    intros b itb [itb' Hb]%Hdom ?. by eapply Hd.
  - rewrite lookup_insert_ne in Ha by done. destruct (Hwf a ita Ha) as (? & ? & Hd').
    split_and!; [done..|]. intros b itb [itb' Hb]%Hdom ?. by eapply Hd'.
Qed.

Lemma wf_items_delete m k : wf_items m → wf_items (delete k m).
Proof.
  intros Hwf a ita [? Ha]%lookup_delete_Some. destruct (Hwf a ita Ha) as (?&?&Hd).
  split_and!; [done..|]. intros b itb [? Hb]%lookup_delete_Some ?. by eapply Hd.
Qed.

(** ** The phases of one iteration *)

Lemma find_start_spec m k :
  wf_range_map m →
  ∃ m1 start, find_start m k = Ok (m1, start) ∧ wf_range_map m1 ∧
    (∀ x v, covers m1 x v ↔ covers m x v) ∧
    match start with
    | Some (key, it) => key = k ∧ m1 !! k = Some it
    | None => m1 !! k = None ∧ ∀ k' it, m1 !! k' = Some it → k' < k → end_excluded it ≤ k
    end.
Proof.
  intros [Hwf Hsome]. unfold find_start.
  destruct (btree_last_le m k) as [[lk lv]|] eqn:Hl.
  - apply btree_last_le_Some in Hl as (Hlk & Hle & Hmax).
    case_bool_decide as Heq; [subst; by exists m, (Some (k, lv))|].
    assert (Hnone : m !! k = None).
    { destruct (m !! k) eqn:E; [|done]. assert (k ≤ lk) by (apply Hmax; [by eexists|lia]). lia. }
    case_bool_decide as Hin.
    + destruct (split_item m lk lv k Hwf Hlk ltac:(lia) Hin) as [Hwf' Hcov].
      unfold insert_vacant. rewrite lookup_insert_ne, Hnone by lia. simpl.
      eexists _, _. split; [done|]. split_and!; [split; [done|]|done|done|by rewrite lookup_insert_eq].
      intros a ita Ha. rewrite !lookup_insert in Ha. repeat case_decide; simplify_eq/=; by eapply Hsome.
    + exists m, None. split_and!; [done|done|done|done|]. intros k' it Hk' ?.
      assert (k' ≤ lk) by (apply Hmax; [by eexists|lia]).
      destruct (decide (k' = lk)) as [->|]; [rewrite Hlk in Hk'; simplify_eq; lia|].
      apply (Hwf k' it Hk') in Hlk; lia.
  - pose proof (btree_last_le_None m k Hl) as Hno. exists m, None.
    split_and!; [done|done|done|by apply Hno|]. intros k' it Hk' ?. by rewrite Hno in Hk' by lia.
Qed.

Lemma find_overlap_spec m start rs re :
  wf_range_map m → rs < re →
  match start with
  | Some (key, it) => key = rs ∧ m !! rs = Some it
  | None => m !! rs = None ∧ ∀ k' it, m !! k' = Some it → k' < rs → end_excluded it ≤ rs
  end →
  ∃ m2 b ov, find_overlap m start rs re
      = Ok (m2, rs, if bool_decide (b < re) then Some (b, re) else None) ∧
    rs < b ∧ b ≤ re ∧ m2 !! rs = Some (mkItem rs b ov) ∧ wf_items m2 ∧
    (∀ k it, m2 !! k = Some it → k ≠ rs → is_Some (item_v it)) ∧
    (∀ x v, covers m2 x v ↔ covers m x v).
Proof.
  intros [Hwf Hsome] Hlt Hstart. unfold find_overlap. destruct start as [[key it]|].
  - destruct Hstart as [-> Hit]. destruct (Hwf rs it Hit) as (Hs & Hne & Hd).
    case_bool_decide as Heq; [|case_bool_decide as Hgt].
    + exists m, re, (item_v it). rewrite bool_decide_false by lia. split_and!; try done.
      * rewrite Hit. destruct it; simpl in *; congruence.
      * intros. by eapply Hsome.
    + destruct (split_item m rs it re Hwf Hit Hlt Hgt) as [Hwf' Hcov].
      rewrite lookup_insert_ne, lookup_insert_eq by lia. simpl.
      eexists _, re, (item_v it). rewrite bool_decide_false by lia. split_and!; try done.
      * rewrite lookup_insert_ne, lookup_insert_eq by lia. unfold with_end. by rewrite Hs.
      * intros k it' Hk ?. rewrite !lookup_insert in Hk. repeat case_decide; simplify_eq/=; by eapply Hsome.
    + exists m, (end_excluded it), (item_v it). rewrite bool_decide_true by lia.
      split_and!; try done; [lia| |].
      * rewrite Hit. destruct it; simpl in *; congruence.
      * intros. by eapply Hsome.
  - destruct Hstart as [Hnone Hbelow]. rewrite bool_decide_true by lia. simpl.
    assert (Hrest : ∀ b k it, <[rs := mkItem rs b None]> m !! k = Some it → k ≠ rs → is_Some (item_v it)).
    { intros b k it Hk ?. rewrite lookup_insert_ne in Hk by done. by eapply Hsome. }
    unfold insert_vacant. rewrite Hnone.
    destruct (btree_first_in m rs re) as [[u uv]|] eqn:Hu; simpl.
    + apply btree_first_in_Some in Hu as (Huv & Hbnd & Hmin).
      assert (rs ≠ u) by congruence.
      destruct (insert_gap m rs u Hwf ltac:(lia) Hbelow) as [Hwf' Hcov].
      { intros k ??. destruct (m !! k) eqn:E; [|done].
        assert (u ≤ k) by (apply Hmin; [by eexists|lia..]). lia. }
      eexists _, u, None. rewrite bool_decide_true by lia.
      split_and!; try done; [lia|lia|by rewrite lookup_insert_eq|apply Hrest].
    + destruct (insert_gap m rs re Hwf Hlt Hbelow) as [Hwf' Hcov].
      { intros k ??. by eapply btree_first_in_None. }
      eexists _, re, None. rewrite bool_decide_false by lia.
      split_and!; try done; [by rewrite lookup_insert_eq|apply Hrest].
Qed.

Lemma apply_overlap_spec m a b ov st :
  wf_items m → m !! a = Some (mkItem a b ov) →
  (∀ k it, m !! k = Some it → k ≠ a → is_Some (item_v it)) →
  match f (a, b) ov st with
  | Ok (st', v') => ∃ m', apply_overlap m a st = Ok (m', st') ∧ wf_range_map m' ∧
      ∀ x v, covers m' x v ↔ if bool_decide (a ≤ x ∧ x < b) then v' = Some v else covers m x v
  | Panic => apply_overlap m a st = Panic
  | OutOfFuel => apply_overlap m a st = OutOfFuel
  end.
Proof.
  intros Hwf Ha Hrest. unfold apply_overlap. rewrite Ha. simpl.
  destruct (f (a, b) ov st) as [[st' v']| |]; [|done|done]. simpl.
  assert (Hout : ∀ x k it, m !! k = Some it → k ≤ x → x < end_excluded it → k ≠ a → ¬ (a ≤ x ∧ x < b)).
  { intros x k it Hk ??? [??].
    assert (k = a) by (by apply (wf_items_disjoint m k it a (mkItem a b ov) x)). done. }
  destruct v' as [v'|]; simpl.
  - eexists; split; [done|]. split; [split; [by apply wf_items_update|]|].
    + intros k it Hk. rewrite lookup_insert in Hk. case_decide; simplify_eq/=; [done|]. by eapply Hrest.
    + intros x v. unfold covers. split.
      * intros (k & it & Hk & ?&?&Hv). rewrite lookup_insert in Hk. case_decide; simplify_eq/=.
        -- by rewrite bool_decide_true.
        -- rewrite bool_decide_false by (eapply Hout; eauto). by exists k, it.
      * case_bool_decide as Hx.
        -- intros ->. eexists a, _. rewrite lookup_insert_eq. split_and!; [done|lia|simpl; lia|done].
        -- intros (k & it & Hk & ?&?&Hv). assert (k ≠ a).
           { intros ->. rewrite Ha in Hk. simplify_eq/=. lia. }
           exists k, it. by rewrite lookup_insert_ne by done.
  - rewrite lookup_insert_eq. simpl. eexists; split; [done|].
    split; [split; [by apply wf_items_delete, wf_items_update|]|].
    + intros k it [? Hk]%lookup_delete_Some. rewrite lookup_insert_ne in Hk by done. by eapply Hrest.
    + intros x v. unfold covers. split.
      * intros (k & it & [? Hk]%lookup_delete_Some & ?&?&Hv). rewrite lookup_insert_ne in Hk by done.
        rewrite bool_decide_false by (eapply Hout; eauto). by exists k, it.
      * case_bool_decide as Hx; [done|]. intros (k & it & Hk & ?&?&Hv). assert (k ≠ a).
        { intros ->. rewrite Ha in Hk. simplify_eq/=. lia. }
        exists k, it. by rewrite lookup_delete_ne, lookup_insert_ne by done.
Qed.

Lemma mutate_step_spec m rs re st :
  wf_range_map m → rs < re →
  ∃ b ov, rs < b ∧ b ≤ re ∧ (∀ x, rs ≤ x → x < b → denote m x = ov) ∧
    match f (rs, b) ov st with
    | Ok (st', v') => ∃ m',
        mutate_step (m, (rs, re), st)
          = Ok (if bool_decide (b < re) then inl (m', (b, re), st') else inr (m', st')) ∧
        wf_range_map m' ∧
        ∀ x, denote m' x = if bool_decide (rs ≤ x ∧ x < b) then v' else denote m x
    | Panic => mutate_step (m, (rs, re), st) = Panic
    | OutOfFuel => mutate_step (m, (rs, re), st) = OutOfFuel
    end.
Proof.
  intros Hwf Hlt. unfold mutate_step.
  destruct (find_start_spec m rs Hwf) as (m1 & start & -> & Hwf1 & Hcov1 & Hstart). simpl.
  destruct (find_overlap_spec m1 start rs re Hwf1 Hlt Hstart)
    as (m2 & b & ov & -> & Hb & Hbe & Hat & Hwf2 & Hrest & Hcov2). simpl.
  assert (Hcov : ∀ x v, covers m2 x v ↔ covers m x v) by (intros; by rewrite Hcov2, Hcov1).
  exists b, ov. split_and!; [done..| |].
  - intros x ??. rewrite (denote_ext m m2) by (try apply Hwf; done || (intros; symmetry; apply Hcov)).
    destruct ov as [v|].
    + apply denote_Some; [done|]. by exists rs, (mkItem rs b (Some v)).
    + apply denote_None; [done|]. intros v (k & it & Hk & ? & ? & Hv).
      assert (k = rs) as -> by (by apply (wf_items_disjoint m2 k it rs (mkItem rs b None) x)).
      rewrite Hat in Hk. by simplify_eq/=.
  - pose proof (apply_overlap_spec m2 rs b ov st Hwf2 Hat Hrest) as Happ.
    destruct (f (rs, b) ov st) as [[st' v']| |]; [|by rewrite Happ..].
    destruct Happ as (m' & -> & Hwf' & Hcov'). simpl. exists m'. split_and!; [|done|].
    + by case_bool_decide.
    + intros x. destruct (denote m' x) as [w|] eqn:Hd.
      * apply denote_Some in Hd; [|apply Hwf']. apply Hcov' in Hd. case_bool_decide; [done|].
        symmetry. apply denote_Some; [apply Hwf|]. by apply Hcov.
      * rewrite denote_None in Hd by apply Hwf'. case_bool_decide as Hx.
        -- destruct v' as [w|]; [|done]. exfalso. apply (Hd w), Hcov'. by rewrite bool_decide_true.
        -- symmetry. apply denote_None; [apply Hwf|]. intros w Hw. apply (Hd w), Hcov'.
           rewrite bool_decide_false by done. by apply Hcov.
Qed.

(** ** Refinement *)

(** A call of the closure: a sub-range and the value it is given. *)
Notation segment := (N * N * option V)%type.

(** The segments tile [a, e) and carry the values [m] has there. *)
Fixpoint tiles (m : rmap) (a e : N) (segs : list segment) : Prop :=
  match segs with
  | [] => a = e
  | (x, y, ov) :: rest =>
      x = a ∧ a < y ∧ y ≤ e ∧ (∀ k, a ≤ k → k < y → denote m k = ov) ∧ tiles m y e rest
  end.

(** The closure on the segments, in order, with the values it leaves. *)
Fixpoint run_segs (segs : list segment) (st : S) : outcome (S * list (option V)) :=
  match segs with
  | [] => Ok (st, [])
  | (x, y, ov) :: rest =>
      '(st, v) ← f (x, y) ov st;
      '(st, vs) ← run_segs rest st;
      Ok (st, v :: vs)
  end.

(** The function [old] with the new values on the segments. *)
Fixpoint updated (segs : list segment) (outs : list (option V)) (old : N → option V) (k : N)
    : option V :=
  match segs, outs with
  | (x, y, _) :: segs, v :: outs =>
      if bool_decide (x ≤ k ∧ k < y) then v else updated segs outs old k
  | _, _ => old k
  end.

Lemma tiles_le m segs : ∀ a e, tiles m a e segs → a ≤ e.
Proof.
  induction segs as [|[[x y] ov] rest IH]; intros a e; simpl; [lia|].
  intros (-> & ? & ? & _ & ?%IH). lia.
Qed.

Lemma tiles_snoc m segs : ∀ a b y e ov,
  tiles m a b segs → b < y → (∀ k, b ≤ k → k < y → denote m k = ov) → y ≤ e →
  tiles m a y (segs ++ [(b, y, ov)]).
Proof.
  induction segs as [|[[x z] ov'] rest IH]; intros a b y e ov; simpl.
  - intros -> ???. split_and!; done || lia.
  - intros (-> & ? & ? & ? & Ht) ???. pose proof (tiles_le _ _ _ _ Ht).
    split_and!; [done|done|lia|done|]. by eapply IH.
Qed.

Lemma run_segs_snoc segs : ∀ st st' outs x y ov,
  run_segs segs st = Ok (st', outs) →
  run_segs (segs ++ [(x, y, ov)]) st
  = match f (x, y) ov st' with
    | Ok (st'', v) => Ok (st'', outs ++ [v])
    | Panic => Panic | OutOfFuel => OutOfFuel
    end.
Proof.
  induction segs as [|[[x0 y0] ov0] rest IH]; intros st st' outs x y ov Hrun; simpl in *.
  - simplify_eq. destruct (f (x, y) ov st') as [[??]| |]; done.
  - destruct (f (x0, y0) ov0 st) as [[st1 v1]| |]; simpl in *; [|done|done].
    destruct (run_segs rest st1) as [[st2 vs]| |] eqn:Hrest; simpl in *; [|done|done]. simplify_eq.
    rewrite (IH _ _ _ x y ov Hrest). destruct (f (x, y) ov st') as [[??]| |]; done.
Qed.

Lemma run_segs_length segs : ∀ st st' outs,
  run_segs segs st = Ok (st', outs) → length outs = length segs.
Proof.
  induction segs as [|[[x y] ov] rest IH]; intros st st' outs; simpl; [by intros [= <- <-]|].
  intros Hrun. destruct (f (x, y) ov st) as [[st1 v1]| |]; simpl in *; [|done|done].
  destruct (run_segs rest st1) as [[st2 vs]| |] eqn:Hrest; simpl in *; [|done|done].
  simplify_eq/=. f_equal. by eapply IH.
Qed.

Lemma updated_snoc m segs : ∀ outs a b y ov v old k,
  length outs = length segs → tiles m a b segs →
  updated (segs ++ [(b, y, ov)]) (outs ++ [v]) old k
  = if bool_decide (b ≤ k ∧ k < y) then v else updated segs outs old k.
Proof.
  induction segs as [|[[x z] ov'] rest IH]; intros [|w outs] a b y ov v old k Hlen Ht; try done.
  simpl in *. destruct Ht as (-> & ? & ? & _ & Ht). pose proof (tiles_le _ _ _ _ Ht).
  rewrite (IH outs z) by (done || lia). repeat case_bool_decide; try done; lia.
Qed.

(** What the closure guarantees per segment holds of every key of the result. *)
Lemma updated_forall m (P : option V → Prop) k segs : ∀ a e st st' outs,
  tiles m a e segs → run_segs segs st = Ok (st', outs) →
  (∀ x y ov st st' v, f (x, y) ov st = Ok (st', v) → a ≤ x → x ≤ k → k < y → y ≤ e →
     denote m k = ov → P v) →
  (¬ (a ≤ k ∧ k < e) → P (denote m k)) →
  P (updated segs outs (denote m) k).
Proof.
  induction segs as [|[[x y] ov] rest IH]; intros a e st st' outs Ht Hrun Hin Hout; simpl in *.
  - subst. apply Hout. lia.
  - destruct Ht as (-> & Hay & Hye & Hden & Ht). apply bind_ok in Hrun as ([st1 v] & Hf & Hrun).
    simpl in Hrun. apply bind_ok in Hrun as ([st2 vs] & Hrest & [= <- <-]). simpl.
    case_bool_decide as Hk.
    + eapply Hin; [exact Hf|lia..|]. apply Hden; lia.
    + apply (IH y e st1 st2 vs Ht Hrest); [intros; eapply Hin; eauto; lia|].
      intros ?. apply Hout. lia.
Qed.

(** An invariant of the closure's state along the range. *)
Lemma run_segs_inv m (Inv : N → S → Prop) segs : ∀ a e st st' outs,
  tiles m a e segs → run_segs segs st = Ok (st', outs) →
  (∀ x y ov st st' v, f (x, y) ov st = Ok (st', v) → a ≤ x → x < y → y ≤ e →
     (∀ k, x ≤ k → k < y → denote m k = ov) → Inv x st → Inv y st') →
  Inv a st → Inv e st'.
Proof.
  induction segs as [|[[x y] ov] rest IH]; intros a e st st' outs Ht Hrun Hf Ha; simpl in *.
  - by simplify_eq.
  - destruct Ht as (-> & Hay & Hye & Hden & Ht). apply bind_ok in Hrun as ([st1 v] & Hf1 & Hrun).
    simpl in Hrun. apply bind_ok in Hrun as ([st2 vs] & Hrest & [= <- <-]).
    eapply (IH y e st1); [done|done| |].
    + intros. eapply Hf; eauto; lia.
    + eapply Hf; eauto; lia.
Qed.

(** A closure that never panics makes the run succeed. *)
Lemma run_segs_total segs : (∀ r ov st, is_ok (f r ov st)) → ∀ st, is_ok (run_segs segs st).
Proof.
  intros Hf. induction segs as [|[[x y] ov] rest IH]; intros st; simpl; [by eexists|].
  destruct (Hf (x, y) ov st) as [[st1 v] ->]. simpl.
  destruct (IH st1) as [[st2 vs] ->]. simpl. by eexists.
Qed.

Context (f_terminates : ∀ r ov st, f r ov st ≠ OutOfFuel).

(** What a call of [mutate_range] on [s, e) amounts to. *)
Definition mutate_post (m : rmap) (s e : N) (st : S) (out : outcome (rmap * S)) : Prop :=
  match out with
  | Ok (m', st') => ∃ segs outs, tiles m s e segs ∧ run_segs segs st = Ok (st', outs) ∧
      wf_range_map m' ∧ ∀ x, denote m' x = updated segs outs (denote m) x
  | Panic => ∃ b segs, b ≤ e ∧ tiles m s b segs ∧ run_segs segs st = Panic
  | OutOfFuel => False
  end.

Lemma mutate_range_spec m s e st :
  wf_range_map m → s < e → mutate_post m s e st (mutate_range m (s, e) st).
Proof.
  intros Hwf Hlt. unfold mutate_range.
  apply (loop_rule mutate_step
    (λ '(m', (a, e'), st'), ∃ segs outs, e' = e ∧ a < e ∧ tiles m s a segs ∧
       run_segs segs st = Ok (st', outs) ∧ wf_range_map m' ∧
       ∀ x, denote m' x = updated segs outs (denote m) x)
    (mutate_post m s e st) (λ '(_, (a, e'), _), e' - a)).
  - intros [[m' [a e']] st'] (segs & outs & -> & Ha & Ht & Hrun & Hwf' & Hden).
    destruct (mutate_step_spec m' a e st' Hwf' Ha) as (b & ov & Hab & Hbe & Hov & Hstep).
    pose proof (run_segs_length _ _ _ _ Hrun) as Hlen.
    assert (Hold : ∀ k, a ≤ k → k < b → denote m k = ov).
    { intros k ??. rewrite <-(Hov k), Hden by done. clear -Ht Hlen H.
      revert outs s Ht Hlen. induction segs as [|[[x y] ov'] rest IH]; intros [|w outs] s Ht Hlen;
        try done. simpl in *. destruct Ht as (-> & ? & ? & _ & Ht).
      pose proof (tiles_le _ _ _ _ Ht). rewrite bool_decide_false by lia. eapply IH; [done|lia]. }
    pose proof (tiles_snoc m segs s a b e ov Ht Hab Hold Hbe) as Ht'.
    pose proof (run_segs_snoc segs st st' outs a b ov Hrun) as Hrun'.
    destruct (f (a, b) ov st') as [[st1 v1]| |] eqn:Hf.
    + destruct Hstep as (m1 & -> & Hwf1 & Hden1).
      assert (Hden' : ∀ x, denote m1 x = updated (segs ++ [(a, b, ov)]) (outs ++ [v1]) (denote m) x).
      { intros x. rewrite Hden1, (updated_snoc m segs outs s) by done. by rewrite Hden. }
      case_bool_decide.
      * split; [|lia]. by exists (segs ++ [(a, b, ov)]), (outs ++ [v1]).
      * assert (b = e) as -> by lia. by exists (segs ++ [(a, e, ov)]), (outs ++ [v1]).
    + rewrite Hstep. by exists b, (segs ++ [(a, b, ov)]).
    + by apply f_terminates in Hf.
  - by exists [], [].
  - simpl. lia.
Qed.

Lemma mutate_range_total m s e st :
  (∀ r ov st, is_ok (f r ov st)) → wf_range_map m → s < e →
  ∃ m' st' segs outs, mutate_range m (s, e) st = Ok (m', st') ∧
    tiles m s e segs ∧ run_segs segs st = Ok (st', outs) ∧ wf_range_map m' ∧
    ∀ x, denote m' x = updated segs outs (denote m) x.
Proof.
  intros Hf Hwf Hlt. pose proof (mutate_range_spec m s e st Hwf Hlt) as Hpost.
  destruct (mutate_range m (s, e) st) as [[m' st']| |]; simpl in Hpost; [| |done].
  - destruct Hpost as (segs & outs & ?). by exists m', st', segs, outs.
  - destruct Hpost as (b & segs & _ & _ & Hp). destruct (run_segs_total segs Hf st) as [? Ho]. congruence.
Qed.

End RangeMap.

Arguments RangeItem V : clear implicits.
Arguments mkItem {V} _ _ _.

(** ** Properties *)

(** The keys a list of segments visits, with the value given to each. *)
Definition visits {V} (segs : list (N * N * option V)) : list (N * option V) :=
  flat_map (λ '(a, b, ov), (λ x, (x, ov)) <$> range_list a b) segs.

Lemma tiles_visits {V} (m : gmap N (RangeItem V)) segs : ∀ a e,
  tiles m a e segs → visits segs = (λ x, (x, denote m x)) <$> range_list a e.
Proof.
  induction segs as [|[[x y] ov] rest IH]; intros a e; simpl.
  - intros ->. by rewrite range_list_nil by lia.
  - intros (-> & Hay & Hye & Hden & Ht). rewrite (range_list_app a y e), fmap_app by lia.
    unfold visits in *. rewrite (IH y e Ht). f_equal.
    apply list_fmap_ext. intros i k Hk%list_elem_of_lookup_2.
    apply elem_of_range_list in Hk as [??]. by rewrite Hden by lia.
Qed.

Lemma updated_pointwise {V S} (f : N * N → option V → S → outcome (S * option V)) g m segs :
  (∀ r ov st, ∃ st', f r ov st = Ok (st', g ov)) →
  ∀ a e st, tiles m a e segs →
  ∃ st' outs, run_segs f segs st = Ok (st', outs) ∧
    ∀ x, updated segs outs (denote m) x
         = if bool_decide (a ≤ x ∧ x < e) then g (denote m x) else denote m x.
Proof.
  intros Hf. induction segs as [|[[x y] ov] rest IH]; intros a e st Ht; simpl in *.
  - subst. exists st, []. split; [done|]. intros x. rewrite bool_decide_false by lia. done.
  - destruct Ht as (-> & Hay & Hye & Hden & Ht). destruct (Hf (a, y) ov st) as [st1 ->]. simpl.
    destruct (IH y e st1 Ht) as (st2 & outs & -> & Hup). simpl.
    exists st2, (g ov :: outs). split; [done|]. intros x. simpl. rewrite Hup.
    destruct (decide (a ≤ x ∧ x < y)) as [Hx|Hx].
    + rewrite !bool_decide_true by lia. by rewrite Hden by lia.
    + rewrite (bool_decide_false (a ≤ x ∧ x < y)) by done.
      destruct (decide (y ≤ x ∧ x < e)) as [Hy|Hy].
      * by rewrite !bool_decide_true by lia.
      * by rewrite !bool_decide_false by lia.
Qed.

(** C20: [RangeMap::mutate_range] refines the pointwise update of a partial
    function. On a well-formed map (disjoint, non-empty items keyed by their
    start, no [None] values) and a non-empty range the loop terminates without
    panic, the closure visits every key of the range exactly once, in order, with
    the value stored there, and the result is a well-formed map that holds the
    closure's value on the range and is unchanged outside. *)
Theorem mutate_range_refines {V S} (f : N * N → option V → S → outcome (S * option V)) g m s e st :
  (∀ r ov st, ∃ st', f r ov st = Ok (st', g ov)) → wf_range_map m → s < e →
  ∃ m' st' segs outs, mutate_range f m (s, e) st = Ok (m', st') ∧ wf_range_map m' ∧
    (∀ x, denote m' x = if bool_decide (s ≤ x ∧ x < e) then g (denote m x) else denote m x) ∧
    visits segs = ((λ x, (x, denote m x)) <$> range_list s e) ∧
    run_segs f segs st = Ok (st', outs).
Proof.
  intros Hf Hwf Hlt.
  pose proof (mutate_range_spec f) as Hspec.
  specialize (Hspec ltac:(intros r ov st'; destruct (Hf r ov st') as [? ->]; done) m s e st Hwf Hlt).
  destruct (mutate_range f m (s, e) st) as [[m' st']| |]; simpl in Hspec; [| |done].
  - destruct Hspec as (segs & outs & Ht & Hrun & Hwf' & Hden).
    destruct (updated_pointwise f g m segs Hf s e st Ht) as (st2 & outs2 & Hrun2 & Hup).
    rewrite Hrun in Hrun2. simplify_eq. exists m', st2, segs, outs2.
    split_and!; try done; [intros x; by rewrite Hden, Hup|by apply tiles_visits].
  - destruct Hspec as (b & segs & _ & Ht & Hrun).
    destruct (updated_pointwise f g m segs Hf s b st Ht) as (? & ? & Hrun2 & _). congruence.
Qed.

(** A closure that stores [v], counting its calls. *)
Definition store_closure (v : N) (_ : N * N) (_ : option N) (calls : N) : outcome (N * option N) :=
  Ok (calls + 1, Some v).

Definition sample_map : gmap N (RangeItem N) := {[ 3 := mkItem 3 7 (Some 1) ]}.

Lemma sample_map_wf : wf_range_map sample_map.
Proof.
  unfold sample_map. split.
  - intros k it [<- <-]%lookup_singleton_Some. split_and!; [done|done|].
    intros k' it' [<- <-]%lookup_singleton_Some ?. lia.
  - intros k it [<- <-]%lookup_singleton_Some. by eexists.
Qed.

Lemma mutate_range_refines_witness :
  ∃ m' calls, mutate_range (store_closure 2) sample_map (5, 9) 0 = Ok (m', calls) ∧
    denote m' 4 = Some 1 ∧ denote m' 5 = Some 2 ∧ denote m' 8 = Some 2 ∧ denote m' 9 = None.
Proof.
  destruct (mutate_range_refines (store_closure 2) (λ _, Some 2) sample_map 5 9 0)
    as (m' & calls & segs & outs & Hm & _ & Hden & _).
  - intros r ov st. exists (st + 1). reflexivity.
  - exact sample_map_wf.
  - reflexivity.
  - exists m', calls. split; [exact Hm|]. rewrite !Hden. vm_compute. split_and!; reflexivity.
Defined.

(** The empty range is not a no-op: [mutate_range(k..k)] where an item starts
    at [k] hands the closure that whole item (the split writes the tail over the
    same key), and on an empty map it leaves an item with no keys in it. *)
Theorem mutate_range_empty_range :
  (∃ m', mutate_range (store_closure 2) sample_map (3, 3) 0 = Ok (m', 1) ∧
     denote m' 3 = Some 2 ∧ denote m' 6 = Some 2) ∧
  (∃ m', mutate_range (store_closure 2) ∅ (3, 3) 0 = Ok (m', 1) ∧
     m' !! 3 = Some (mkItem 3 3 (Some 2)) ∧ ¬ wf_range_map m').
Proof.
  split; eexists; (split; [vm_compute; reflexivity|]).
  - vm_compute. split; reflexivity.
  - split; [vm_compute; reflexivity|]. intros [Hwf _].
    destruct (Hwf 3 (mkItem 3 3 (Some 2))) as (_ & Hlt & _); [vm_compute; reflexivity|].
    simpl in Hlt. lia.
Qed.
