(* ===== verification/Aggregator.v ===== *)
(** * Aggregator: certification of transactions by votes
      (TransactionAggregator of mysticeti-core/src/committee.rs)

    The aggregator is generic in the threshold [TH] and in the handler [H] that
    is told of processed, duplicate and unknown transactions; a handler method
    that panics is [None]. The refinement theorem states [process_block] against
    the abstract state "set of distinct voters per pending transaction". *)

From S2P Require Import Prelude Types Committee BTree RangeMap.

(** ** The handler trait *)

Class ProcessedTransactionHandler (H : Type) := {
  transaction_processed : H → TransactionLocator → option H;
  duplicate_transaction : H → TransactionLocator → AuthorityIndex → option H;
  unknown_transaction : H → TransactionLocator → AuthorityIndex → option H;
}.

(** [impl ProcessedTransactionHandler<K> for HashSet<K>] *)
#[global] Instance hashset_handler : ProcessedTransactionHandler (gset TransactionLocator) := {|
  transaction_processed s k := Some ({[k]} ∪ s);
  duplicate_transaction s k _ := if bool_decide (k ∈ s) then Some s else None;
  unknown_transaction s k _ := if bool_decide (k ∈ s) then Some s else None;
|}.

(** [TransactionLog] (log.rs): the messages sent on its unbounded channel, in
    order; the other two methods are the trait's empty defaults. *)
Record TransactionLog := mkTransactionLog { log_sent : list (list TransactionLocator) }.
#[global] Instance transaction_log_handler : ProcessedTransactionHandler TransactionLog := {|
  transaction_processed s k := Some (mkTransactionLog (log_sent s ++ [[k]]));
  duplicate_transaction s _ _ := Some s;
  unknown_transaction s _ _ := Some s;
|}.

Section Aggregator.
Context {TH H : Type} `{CommitteeThreshold TH} `{ProcessedTransactionHandler H}.

Notation range_map := (gmap N (RangeItem (StakeAggregator TH))).

Record TransactionAggregator := mkTxAggregator {
  pending : gmap BlockReference range_map;
  handler : H;
}.

Definition with_handler (h : H) : TransactionAggregator := mkTxAggregator ∅ h.

(** [for l in range { let k = TransactionLocator::new(block, l); method(k) }] *)
Definition for_each (method : H → TransactionLocator → option H) (block : BlockReference)
    (range : N * N) (h : H) : outcome H :=
  foldM (λ h l, expect (method h (mkLocator block l))) h (range_list range.1 range.2).

(** The closure of [register]. *)
Definition register_closure (block : BlockReference) (vote : AuthorityIndex) (c : Committee)
    (range : N * N) (aggregator_opt : option (StakeAggregator TH)) (h : H)
    : outcome (H * option (StakeAggregator TH)) :=
  match aggregator_opt with
  | Some a =>
      h ← for_each (λ h k, duplicate_transaction h k vote) block range h;
      Ok (h, Some a)
  | None =>
      '(aggregator, _) ← StakeAggregator_add StakeAggregator_new vote c;
      Ok (h, Some aggregator)
  end.

Definition register (self : TransactionAggregator) (locator_range : TransactionLocatorRange)
    (vote : AuthorityIndex) (c : Committee) : outcome TransactionAggregator :=
  let block := tlr_block locator_range in
  let range_map := default ∅ (pending self !! block) in
  '(range_map, h) ← mutate_range (register_closure block vote c) range_map
                      (TransactionLocatorRange_range locator_range) (handler self);
  Ok (mkTxAggregator (<[block := range_map]> (pending self)) h).

(** The loop over a certified range: tells the handler and extends [processed]. *)
Definition process_range (block : BlockReference) (range : N * N)
    (st : H * list TransactionLocator) : outcome (H * list TransactionLocator) :=
  foldM (λ '(h, processed) l,
           let k := mkLocator block l in
           h ← expect (transaction_processed h k); Ok (h, processed ++ [k]))
    st (range_list range.1 range.2).

(** The closure of [vote]. *)
Definition vote_closure (block : BlockReference) (vote : AuthorityIndex) (c : Committee)
    (range : N * N) (aggregator_opt : option (StakeAggregator TH))
    (st : H * list TransactionLocator)
    : outcome ((H * list TransactionLocator) * option (StakeAggregator TH)) :=
  match aggregator_opt with
  | None =>
      h ← for_each (λ h k, unknown_transaction h k vote) block range st.1;
      Ok ((h, st.2), None)
  | Some aggregator =>
      '(aggregator, reached) ← StakeAggregator_add aggregator vote c;
      if (reached : bool) then
        st ← process_range block range st;
        Ok (st, None)
      else Ok (st, Some aggregator)
  end.

Definition vote (self : TransactionAggregator) (locator_range : TransactionLocatorRange)
    (from : AuthorityIndex) (c : Committee) (processed : list TransactionLocator)
    : outcome (TransactionAggregator * list TransactionLocator) :=
  let block := tlr_block locator_range in
  match pending self !! block with
  | Some range_map =>
      '(range_map, (h, processed)) ←
        mutate_range (vote_closure block from c) range_map
          (TransactionLocatorRange_range locator_range) (handler self, processed);
      let pend := <[block := range_map]> (pending self) in
      Ok (mkTxAggregator (if range_map_is_empty range_map then delete block pend else pend) h,
          processed)
  | None =>
      h ← foldM (λ h l, expect (unknown_transaction h l from)) (handler self)
            (TransactionLocatorRange_locators locator_range);
      Ok (mkTxAggregator (pending self) h, processed)
  end.

Definition aggregator_len (self : TransactionAggregator) : N := N.of_nat (size (pending self)).
Definition aggregator_is_empty (self : TransactionAggregator) : bool :=
  bool_decide (pending self = ∅).

(** One statement of [process_block]; a [Reject] vote is [unimplemented!()]. *)
Definition process_statement (from : AuthorityIndex) (c : Committee)
    (st : TransactionAggregator * list TransactionLocator) (s : BaseStatement)
    : outcome (TransactionAggregator * list TransactionLocator) :=
  let '(self, processed) := st in
  match s with
  | Share _ => Ok (self, processed)
  | VoteStmt locator Accept => vote self (TransactionLocatorRange_one locator) from c processed
  | VoteStmt _ (Reject _) => Panic
  | VoteRange range => vote self range from c processed
  end.

Definition process_block (self : TransactionAggregator) (block : StatementBlock)
    (response : option (list BaseStatement)) (c : Committee)
    : outcome (TransactionAggregator * option (list BaseStatement) * list TransactionLocator) :=
  '(self, response) ←
    foldM (λ '(self, response) range,
             self ← register self range (author block) c;
             Ok (self, (λ l, l ++ [VoteRange range]) <$> response))
      (self, response) (shared_ranges block);
  '(self, processed) ← foldM (process_statement (author block) c) (self, []) (statements block);
  Ok (self, response, processed).
End Aggregator.
Arguments TransactionAggregator TH H : clear implicits.

(** [is_processed] of the [HashSet] handler. *)
Definition is_processed {TH} (self : TransactionAggregator TH (gset TransactionLocator))
    (k : TransactionLocator) : bool := bool_decide (k ∈ handler self).

(** ** Abstract specification *)

(** The distinct voters of every pending transaction. *)
Notation votes_state := (TransactionLocator → option (gset AuthorityIndex)).

Definition in_range (r : TransactionLocatorRange) (l : TransactionLocator) : bool :=
  bool_decide (tl_block l = tlr_block r ∧
    offset_start_inclusive r ≤ tl_offset l ∧ tl_offset l < offset_end_exclusive r).

(** Registering makes unknown transactions pending with one vote. *)
Definition abs_register (v : AuthorityIndex) (r : TransactionLocatorRange) (G : votes_state)
    : votes_state :=
  λ l, if in_range r l then Some (default {[v]} (G l)) else G l.

(** Does the vote of [v] complete the threshold for [l]? *)
Definition certifies {TH} `{CommitteeThreshold TH} (c : Committee) (v : AuthorityIndex)
    (G : votes_state) (l : TransactionLocator) : bool :=
  match G l with Some X => is_threshold c (set_stake c ({[v]} ∪ X)) | None => false end.

(** A vote certifies (and forgets) a transaction or is added to its voters. *)
Definition abs_vote {TH} `{CommitteeThreshold TH} (c : Committee) (v : AuthorityIndex)
    (r : TransactionLocatorRange) (G : votes_state) : votes_state :=
  λ l, if in_range r l
       then if certifies (TH := TH) c v G l then None else (λ X, {[v]} ∪ X) <$> G l
       else G l.

Definition abs_certified {TH} `{CommitteeThreshold TH} (c : Committee) (v : AuthorityIndex)
    (r : TransactionLocatorRange) (G : votes_state) : list TransactionLocator :=
  filter (λ l, certifies (TH := TH) c v G l = true) (TransactionLocatorRange_locators r).

(** One statement of a block by [v], on the voters and the certified list. *)
Definition abs_statement {TH} `{CommitteeThreshold TH} (c : Committee) (v : AuthorityIndex)
    (s : votes_state * list TransactionLocator) (stmt : BaseStatement)
    : votes_state * list TransactionLocator :=
  let on_range r := (abs_vote (TH := TH) c v r s.1, s.2 ++ abs_certified (TH := TH) c v r s.1) in
  match stmt with
  | VoteStmt l Accept => on_range (TransactionLocatorRange_one l)
  | VoteRange r => on_range r
  | _ => s
  end.

Definition abs_block {TH} `{CommitteeThreshold TH} (c : Committee) (G : votes_state)
    (b : StatementBlock) : votes_state * list TransactionLocator :=
  foldl (abs_statement (TH := TH) c (author b))
    (foldl (λ G r, abs_register (author b) r G) G (shared_ranges b), []) (statements b).

(** Statements the aggregator supports: accepting votes on non-empty ranges. *)
Definition supported (s : BaseStatement) : Prop :=
  match s with
  | Share _ => True
  | VoteStmt l v => v = Accept ∧ tl_offset l < u64_max
  | VoteRange r => offset_start_inclusive r < offset_end_exclusive r
  end.

(** A handler whose methods never panic. *)
Class TotalHandler (H : Type) `{ProcessedTransactionHandler H} := {
  processed_total : ∀ (h : H) k, is_Some (transaction_processed h k);
  duplicate_total : ∀ (h : H) k v, is_Some (duplicate_transaction h k v);
  unknown_total : ∀ (h : H) k v, is_Some (unknown_transaction h k v);
}.

#[global] Instance transaction_log_total : TotalHandler TransactionLog.
Proof. split; intros; by eexists. Qed.

Section Refinement.
Context {TH H : Type} `{CommitteeThreshold TH} `{TotalHandler H}.
Context (c : Committee) (Hwf : wf_committee c).
Implicit Types (rm : gmap N (RangeItem (StakeAggregator TH))) (G : votes_state).

(** The stored aggregators hold exactly the abstract voters. *)
Definition vote_rel (oa : option (StakeAggregator TH)) (oX : option (gset AuthorityIndex)) : Prop :=
  match oa, oX with
  | Some a, Some X => agg_inv c a X
  | None, None => True
  | _, _ => False
  end.

Definition rm_rel (block : BlockReference) rm G : Prop :=
  wf_range_map rm ∧ ∀ off, vote_rel (denote rm off) (G (mkLocator block off)).

Definition agg_rel (self : TransactionAggregator TH H) G : Prop :=
  ∀ block, rm_rel block (default ∅ (pending self !! block)) G.

Lemma foldM_expect_total {A B} (f : A → B → option A) l s :
  (∀ a b, is_Some (f a b)) → is_ok (foldM (λ a b, expect (f a b)) s l).
Proof.
  intros Hf. destruct (foldM_total (λ a b, expect (f a b)) (λ _, True) l s) as (s' & Hs & _);
    [|done|by exists s'].
  intros a b _ _. destruct (Hf a b) as [a' ->]. by exists a'.
Qed.

Lemma for_each_total (f : H → TransactionLocator → option H) block r h :
  (∀ h k, is_Some (f h k)) → is_ok (for_each f block r h).
Proof. intros Hf. apply (foldM_expect_total (λ h l, f h (mkLocator block l))). eauto. Qed.

Lemma process_range_total block x y (h : H) (processed : list TransactionLocator) :
  ∃ h', process_range block (x, y) (h, processed)
        = Ok (h', processed ++ (mkLocator block <$> range_list x y)).
Proof.
  unfold process_range. simpl. generalize (range_list x y). intros l. revert h processed.
  induction l as [|k l IH]; intros h processed; simpl; [by exists h; rewrite app_nil_r|].
  destruct (processed_total h (mkLocator block k)) as [h1 ->]. simpl.
  destruct (IH h1 (processed ++ [mkLocator block k])) as [h2 ->]. exists h2.
  by rewrite <-app_assoc.
Qed.

Lemma add_known (a : StakeAggregator TH) v :
  v < committee_len c → is_ok (StakeAggregator_add a v c).
Proof.
  intros [s Hs]%get_stake_Some. unfold StakeAggregator_add. rewrite Hs. simpl.
  destruct (AuthoritySet_insert _ _). by eexists.
Qed.

Lemma register_closure_total block v r ov (h : H) :
  v < committee_len c → is_ok (register_closure (TH := TH) block v c r ov h).
Proof.
  intros Hv. unfold register_closure. destruct ov as [a|].
  - destruct (for_each_total (λ h k, duplicate_transaction h k v) block r h) as [h' ->];
      [intros; apply duplicate_total|]. by eexists.
  - destruct (add_known StakeAggregator_new v Hv) as [[a b] ->]. by eexists.
Qed.

Lemma vote_closure_total block v r ov (st : H * list TransactionLocator) :
  v < committee_len c → is_ok (vote_closure (TH := TH) block v c r ov st).
Proof.
  intros Hv. unfold vote_closure. destruct ov as [a|].
  - destruct (add_known a v Hv) as [[a' b] ->]. simpl. destruct b; [|by eexists].
    destruct r as [x y], st as [h p]. destruct (process_range_total block x y h p) as [h' ->]. by eexists.
  - destruct (for_each_total (λ h k, unknown_transaction h k v) block r st.1) as [h' ->];
      [intros; apply unknown_total|]. by eexists.
Qed.

Lemma ok_not_fuel {A} (m : outcome A) : is_ok m → m ≠ OutOfFuel.
Proof. by intros [? ->]. Qed.

Lemma rm_rel_empty block G : (∀ off, G (mkLocator block off) = None) ↔ rm_rel block ∅ G.
Proof.
  assert (wf_range_map (V := StakeAggregator TH) ∅) as He.
  { split; intros k it; by rewrite lookup_empty. }
  assert (∀ off, denote (V := StakeAggregator TH) ∅ off = None) as Hd by done.
  split.
  - intros HG. split; [done|]. intros off. by rewrite Hd, HG.
  - intros [_ Hrel] off. specialize (Hrel off). rewrite Hd in Hrel. simpl in Hrel.
    by destruct (G (mkLocator block off)).
Qed.

Lemma agg_rel_update self block rm h G G' :
  agg_rel self G → rm_rel block rm G' → (∀ l, tl_block l ≠ block → G' l = G l) →
  ∀ pend, (∀ b, default ∅ (pend !! b) = if decide (b = block) then rm else default ∅ (pending self !! b)) →
  agg_rel (mkTxAggregator pend h) G'.
Proof.
  intros Hrel Hrm HG pend Hpend b. simpl. rewrite Hpend. case_decide as Hb; [by subst|].
  destruct (Hrel b) as [Hwfb Hvotes]. split; [done|]. intros off. rewrite HG by done. apply Hvotes.
Qed.

Lemma register_refines self G r v :
  agg_rel self G → v < committee_len c →
  offset_start_inclusive r < offset_end_exclusive r →
  ∃ self', register self r v c = Ok self' ∧ agg_rel self' (abs_register v r G).
Proof.
  intros Hrel Hv Hr. unfold register. destruct (Hrel (tlr_block r)) as [Hwfr Hvotes].
  pose proof (λ q ov st, register_closure_total (tlr_block r) v q ov st Hv) as Htotal.
  destruct (mutate_range_total (register_closure (tlr_block r) v c)
    (λ q ov st, ok_not_fuel _ (Htotal q ov st)) _ _ _ (handler self) Htotal Hwfr Hr)
    as (rm' & h' & segs & outs & Hmut & Ht & Hrun & Hwf' & Hden).
  unfold TransactionLocatorRange_range. rewrite Hmut. simpl. eexists; split; [done|].
  eapply (agg_rel_update self (tlr_block r) rm'); [done| | |].
  - split; [done|]. intros off. rewrite Hden.
    eapply (updated_forall _ _ (λ o, vote_rel o _)); [done|done| |].
    + intros x y ov st st' w Hf Hx ? ? Hy Hov. unfold abs_register.
      unfold in_range. simpl. rewrite bool_decide_true by (split_and!; [done|lia..]).
      specialize (Hvotes off). rewrite Hov in Hvotes. unfold register_closure in Hf.
      destruct ov as [a|]; simpl in Hvotes; destruct (G _) as [X|]; try done; simpl.
      * apply bind_ok in Hf as (? & _ & [= <- <-]). done.
      * destruct (StakeAggregator_add_spec c StakeAggregator_new ∅ v Hwf (agg_inv_new c) Hv)
          as (a & Ha & Hinv). rewrite Ha in Hf. injection Hf as <- <-. simpl.
        by rewrite union_empty_r_L in Hinv.
    + intros Hout. unfold abs_register, in_range. simpl.
      rewrite bool_decide_false by (intros (_ & ? & ?); apply Hout; lia). apply Hvotes.
  - intros l Hl. unfold abs_register, in_range. rewrite bool_decide_false by tauto. done.
  - intros b. rewrite lookup_insert. case_decide; [subst; by rewrite decide_True|].
    by rewrite decide_False.
Qed.

Lemma vote_value_refines v G block x y ov st st' w off :
  v < committee_len c →
  vote_rel ov (G (mkLocator block off)) →
  vote_closure block v c (x, y) ov st = Ok (st', w) →
  vote_rel w (if certifies (TH := TH) c v G (mkLocator block off) then None
              else (λ X, {[v]} ∪ X) <$> G (mkLocator block off)) ∧
  (* the range is processed exactly when the vote certifies *)
  st'.2 = st.2 ++ (if certifies (TH := TH) c v G (mkLocator block off)
                   then mkLocator block <$> range_list x y else []).
Proof.
  intros Hv Hrel Hf. unfold certifies, vote_closure in *.
  destruct ov as [a|]; simpl in Hrel; destruct (G _) as [X|]; try done.
  - destruct (StakeAggregator_add_spec c a X v Hwf Hrel Hv) as (a' & Ha & Hinv).
    rewrite Ha in Hf. simpl in Hf. destruct (is_threshold c _).
    + destruct st as [h p]. destruct (process_range_total block x y h p) as [h' Hp].
      rewrite Hp in Hf. injection Hf as <- <-. done.
    + injection Hf as <- <-. by rewrite app_nil_r.
  - apply bind_ok in Hf as (h' & _ & [= <- <-]). simpl. by rewrite app_nil_r.
Qed.

(** One call of the closure certifies all of its range or none of it. *)
Lemma vote_segment_certified v G block rm x y ov st st' w :
  v < committee_len c → rm_rel block rm G → x < y →
  (∀ k, x ≤ k → k < y → denote rm k = ov) →
  vote_closure block v c (x, y) ov st = Ok (st', w) →
  st'.2 = st.2 ++ filter (λ l, certifies (TH := TH) c v G l = true) (mkLocator block <$> range_list x y).
Proof.
  intros Hv [_ Hrel] Hxy Hden Hf.
  assert (Hval : ∀ k, x ≤ k → k < y →
    st'.2 = st.2 ++ (if certifies (TH := TH) c v G (mkLocator block k)
                     then mkLocator block <$> range_list x y else [])).
  { intros k ??. eapply vote_value_refines; [done| |done]. rewrite <-(Hden k) by done. apply Hrel. }
  assert (Hsame : ∀ k, x ≤ k → k < y → certifies (TH := TH) c v G (mkLocator block k)
                                       = certifies (TH := TH) c v G (mkLocator block x)).
  { intros k ??. pose proof (Hval k ltac:(done) ltac:(done)) as Hk. rewrite (Hval x) in Hk by lia.
    apply app_inv_head in Hk. rewrite range_list_cons in Hk by done.
    destruct (certifies c v G (mkLocator block x)), (certifies c v G (mkLocator block k)); done. }
  rewrite (Hval x) by lia. f_equal.
  assert (Hin : ∀ l, l ∈ mkLocator block <$> range_list x y →
                certifies (TH := TH) c v G l = certifies (TH := TH) c v G (mkLocator block x)).
  { intros l (k & -> & [??]%elem_of_range_list)%list_elem_of_fmap. by apply Hsame. }
  destruct (certifies c v G (mkLocator block x)).
  - symmetry. by apply filter_all.
  - symmetry. apply filter_none. intros l Hl. by rewrite Hin.
Qed.

Lemma vote_refines self G r v processed :
  agg_rel self G → v < committee_len c →
  offset_start_inclusive r < offset_end_exclusive r →
  ∃ self', vote self r v c processed = Ok (self', processed ++ abs_certified (TH := TH) c v r G) ∧
    agg_rel self' (abs_vote (TH := TH) c v r G).
Proof.
  intros Hrel Hv Hr. unfold vote. destruct (Hrel (tlr_block r)) as [Hwfr Hvotes].
  assert (Hother : ∀ l, tl_block l ≠ tlr_block r → abs_vote (TH := TH) c v r G l = G l).
  { intros l Hl. unfold abs_vote, in_range. rewrite bool_decide_false by tauto. done. }
  destruct (pending self !! tlr_block r) as [rm|] eqn:Hp; simpl in *.
  - pose proof (λ q ov st, vote_closure_total (tlr_block r) v q ov st Hv) as Htotal.
    destruct (mutate_range_total (vote_closure (tlr_block r) v c)
      (λ q ov st, ok_not_fuel _ (Htotal q ov st)) _ _ _ (handler self, processed) Htotal Hwfr Hr)
      as (rm' & [h' p'] & segs & outs & Hmut & Ht & Hrun & Hwf' & Hden).
    unfold TransactionLocatorRange_range. rewrite Hmut. simpl.
    assert (p' = processed ++ abs_certified (TH := TH) c v r G) as ->.
    { unfold abs_certified, TransactionLocatorRange_locators.
      apply (run_segs_inv _ rm (λ k st, st.2 = processed ++ filter (λ l, certifies (TH := TH) c v G l = true)
        (mkLocator (tlr_block r) <$> range_list (offset_start_inclusive r) k)) segs _ _ _ _ _ Ht Hrun).
      - intros x y ov st st' w Hf ??? Hdk Hst.
        rewrite (vote_segment_certified v G (tlr_block r) rm x y ov st st' w) by (done || by split).
        rewrite Hst, (range_list_app (offset_start_inclusive r) x y), fmap_app, filter_app by lia.
        by rewrite <-app_assoc.
      - simpl. rewrite range_list_nil by lia. simpl. by rewrite app_nil_r. }
    eexists; split; [done|].
    eapply (agg_rel_update self (tlr_block r) rm'); [done| |exact Hother|].
    + split; [done|]. intros off. rewrite Hden.
      eapply (updated_forall _ _ (λ o, vote_rel o _)); [done|done| |].
      * intros x y ov st st' w Hf ? ? ? ? Hov. unfold abs_vote, in_range. simpl.
        rewrite bool_decide_true by (split_and!; [done|lia..]).
        eapply vote_value_refines; [done| |done]. rewrite <-Hov. apply Hvotes.
      * intros Hout. unfold abs_vote, in_range. simpl.
        rewrite bool_decide_false by (intros (_ & ? & ?); apply Hout; lia). apply Hvotes.
    + intros b. unfold range_map_is_empty. destruct (bool_decide_reflect (rm' = ∅)) as [->|].
      * rewrite delete_insert_eq, lookup_delete. case_decide; [subst; by rewrite decide_True|].
        by rewrite decide_False.
      * rewrite lookup_insert. case_decide; [subst; by rewrite decide_True|]. by rewrite decide_False.
  - destruct (foldM_expect_total (λ h l, unknown_transaction h l v) (TransactionLocatorRange_locators r)
      (handler self)) as [h' ->]; [intros; apply unknown_total|]. simpl.
    assert (HG : ∀ off, G (mkLocator (tlr_block r) off) = None) by (by apply rm_rel_empty).
    assert (abs_certified (TH := TH) c v r G = []) as ->.
    { apply filter_none. intros l (k & -> & _)%list_elem_of_fmap. unfold certifies. by rewrite HG. }
    rewrite app_nil_r. eexists; split; [done|].
    eapply (agg_rel_update self (tlr_block r) ∅); [done| |exact Hother|].
    + apply rm_rel_empty. intros off. unfold abs_vote, certifies. rewrite HG. by destruct (in_range _ _).
    + intros b. case_decide; [subst; by rewrite Hp|done].
Qed.

Lemma statement_refines self G v processed stmt :
  agg_rel self G → v < committee_len c → supported stmt →
  ∃ self', process_statement v c (self, processed) stmt
           = Ok (self', (abs_statement (TH := TH) c v (G, processed) stmt).2) ∧
    agg_rel self' (abs_statement (TH := TH) c v (G, processed) stmt).1.
Proof.
  intros Hrel Hv Hs. destruct stmt as [tx|l w|r]; simpl in *.
  - by exists self.
  - destruct Hs as [-> Hoff]. apply vote_refines; [done..|]. simpl.
    unfold u64_max in Hoff. rewrite u64_add_small by lia. lia.
  - by apply vote_refines.
Qed.

Lemma statements_refine v stmts : ∀ self G processed,
  agg_rel self G → v < committee_len c → Forall supported stmts →
  ∃ self', foldM (process_statement v c) (self, processed) stmts
           = Ok (self', (foldl (abs_statement (TH := TH) c v) (G, processed) stmts).2) ∧
    agg_rel self' (foldl (abs_statement (TH := TH) c v) (G, processed) stmts).1.
Proof.
  induction stmts as [|stmt rest IH]; intros self G processed Hrel Hv Hs; cbn [foldM foldl];
    [by exists self|].
  apply Forall_cons in Hs as [Hs Hrest].
  destruct (statement_refines self G v processed stmt Hrel Hv Hs) as (self1 & -> & Hrel1). simpl.
  destruct (abs_statement c v (G, processed) stmt) as [G1 p1]. by apply IH.
Qed.

Lemma registers_refine v ranges : ∀ self G (response : option (list BaseStatement)),
  agg_rel self G → v < committee_len c →
  Forall (λ r, offset_start_inclusive r < offset_end_exclusive r) ranges →
  ∃ self', foldM (λ '(self, response) range,
                    self ← register self range v c;
                    Ok (self, (λ l, l ++ [VoteRange range]) <$> response))
             (self, response) ranges
           = Ok (self', (λ l, l ++ (VoteRange <$> ranges)) <$> response) ∧
    agg_rel self' (foldl (λ G r, abs_register v r G) G ranges).
Proof.
  induction ranges as [|r rest IH]; intros self G response Hrel Hv Hr; cbn [foldM foldl].
  - exists self. split; [|done]. destruct response; simpl; [by rewrite app_nil_r|done].
  - apply Forall_cons in Hr as [Hr Hrest].
    destruct (register_refines self G r v Hrel Hv Hr) as (self1 & -> & Hrel1). cbn.
    destruct (IH self1 _ ((λ l, l ++ [VoteRange r]) <$> response) Hrel1 Hv Hrest) as (self2 & Hf & Hrel2).
    exists self2. split; [|done]. etransitivity; [exact Hf|]. f_equal. f_equal.
    destruct response; simpl; [by rewrite <-app_assoc|done].
Qed.
End Refinement.

Lemma separated_nonempty ref bound rs :
  separated ref rs bound → Forall (λ r, offset_start_inclusive r < offset_end_exclusive r) rs.
Proof. induction rs as [|r rest IH]; simpl; [by constructor|]. intros (_ & ? & _ & ?). by constructor; auto. Qed.

Lemma shared_ranges_nonempty b :
  N.of_nat (length (statements b)) < u64_max →
  Forall (λ r, offset_start_inclusive r < offset_end_exclusive r) (shared_ranges b).
Proof. intros Hlen. by eapply separated_nonempty, shared_ranges_spec. Qed.

(** C21: Transaction certification: with a handler that does not panic,
    [TransactionAggregator::process_block] of a block by a known author with
    supported statements returns normally and implements the abstract vote count.
    Registered transactions start with the author as their only voter; a vote adds
    its author to the set of distinct voters of the pending transactions it covers;
    the locators returned are, in statement order, exactly those whose distinct
    voters (the new one included) reach the threshold, and these stop being
    pending; the response gains one [VoteRange] per shared range. *)
Theorem process_block_refines {TH H} `{CommitteeThreshold TH} `{TotalHandler H}
    c (self : TransactionAggregator TH H) G b response :
  wf_committee c → agg_rel c self G → author b < committee_len c →
  Forall supported (statements b) → N.of_nat (length (statements b)) < u64_max →
  ∃ self', process_block self b response c
      = Ok (self', (λ l, l ++ (VoteRange <$> shared_ranges b)) <$> response,
            (abs_block (TH := TH) c G b).2) ∧
    agg_rel c self' (abs_block (TH := TH) c G b).1.
Proof.
  intros Hwf Hrel Ha Hs Hlen. unfold process_block.
  pose proof (shared_ranges_nonempty b Hlen) as Hne.
  destruct (registers_refine c Hwf (author b) (shared_ranges b) self G response Hrel Ha Hne)
    as (self1 & Hf1 & Hrel1). rewrite Hf1. cbn.
  destruct (statements_refine c Hwf (author b) (statements b) self1 _ [] Hrel1 Ha Hs)
    as (self2 & Hf2 & Hrel2). rewrite Hf2. cbn. by exists self2.
Qed.

Lemma agg_rel_new {TH H} `{CommitteeThreshold TH} `{TotalHandler H} c (h : H) :
  agg_rel c (with_handler (TH := TH) h) (λ _, None).
Proof. intros block. simpl. rewrite lookup_empty. simpl. by apply rm_rel_empty. Qed.

(** Two blocks: author 0 shares two transactions, author 1 votes for both. *)
Definition sharing_block : StatementBlock :=
  mkBlock (mkRef 0 1 9) [] [Share (mkTransaction []); Share (mkTransaction [])] 0 false 0.
Definition voting_block : StatementBlock :=
  mkBlock (mkRef 1 2 9) [] [VoteRange (mkLocatorRange (mkRef 0 1 9) 0 2)] 0 false 0.

Lemma process_block_refines_witness :
  ∃ self1 self2 : TransactionAggregator ValidityThreshold TransactionLog,
    process_block (with_handler (mkTransactionLog [])) sharing_block (Some []) four_equal
      = Ok (self1, Some [VoteRange (mkLocatorRange (mkRef 0 1 9) 0 2)], []) ∧
    process_block self1 voting_block None four_equal
      = Ok (self2, None, [mkLocator (mkRef 0 1 9) 0; mkLocator (mkRef 0 1 9) 1]).
Proof.
  destruct (process_block_refines four_equal
      (with_handler (TH := ValidityThreshold) (mkTransactionLog [])) (λ _, None) sharing_block (Some []))
    as (self1 & Hp1 & Hrel1).
  - exact four_equal_wf.
  - apply agg_rel_new.
  - vm_compute; reflexivity.
  - repeat constructor.
  - vm_compute; reflexivity.
  - destruct (process_block_refines four_equal self1 _ voting_block None four_equal_wf Hrel1)
      as (self2 & Hp2 & _).
    + vm_compute; reflexivity.
    + constructor; [vm_compute; reflexivity|constructor].
    + vm_compute; reflexivity.
    + exists self1, self2. split.
      * rewrite Hp1. vm_compute; reflexivity.
      * rewrite Hp2. vm_compute; reflexivity.
Defined.
