(* ===== verification/BlockStore.v ===== *)
(** * BlockStore: the index of blocks (mysticeti-core/src/block_store.rs)

    The readers the consensus uses are the interface [BlockReader], with its laws
    and the abstract DAG (a finite map from references to blocks) as an instance;
    [linked] is defined on the interface as the source defines it on its own
    readers. The detailed store ([BlockStoreInner]: per-round index of loaded or
    on-disk entries, own blocks, highest rounds) is shown to implement the DAG. *)

From S2P Require Import Prelude Types Committee BTree.
From Stdlib Require Import Strings.Byte.

(** ** The reader interface *)

Class BlockReader (S : Type) := {
  get_block : S → BlockReference → option StatementBlock;
  get_blocks_by_round : S → RoundNumber → list StatementBlock;
  get_blocks_at_authority_round : S → AuthorityIndex → RoundNumber → list StatementBlock;
  len_expensive : S → N;
  reader_highest_round : S → RoundNumber;
}.

Class BlockReaderLaws (S : Type) `{BlockReader S} := {
  get_block_reference : ∀ (s : S) r b, get_block s r = Some b → reference b = r;
  elem_of_by_round : ∀ (s : S) r b,
    b ∈ get_blocks_by_round s r ↔ get_block s (reference b) = Some b ∧ block_round b = r;
  NoDup_by_round : ∀ (s : S) r, NoDup (get_blocks_by_round s r);
  elem_of_at_authority_round : ∀ (s : S) a r b,
    b ∈ get_blocks_at_authority_round s a r ↔
    get_block s (reference b) = Some b ∧ block_round b = r ∧ author b = a;
  NoDup_at_authority_round : ∀ (s : S) a r, NoDup (get_blocks_at_authority_round s a r);
  len_bound : ∀ (s : S) l, NoDup l → (∀ r, r ∈ l → is_Some (get_block s r)) →
    N.of_nat (length l) ≤ len_expensive s;
  highest_bound : ∀ (s : S) r, is_Some (get_block s r) → br_round r ≤ reader_highest_round s;
}.

(** [BlockStore::linked] *)
Definition linked_parents {S} `{BlockReader S} (s : S) (parents : list StatementBlock)
    (r : RoundNumber) : list StatementBlock :=
  List.filter
    (λ block, existsb (λ x, bool_decide (reference block ∈ includes x)) parents)
    (get_blocks_by_round s r).

Definition linked {S} `{BlockReader S} (s : S) (later_block earlier_block : StatementBlock) : bool :=
  let parents :=
    foldl (linked_parents s) [later_block]
      (rev (range_list (block_round earlier_block) (block_round later_block))) in
  existsb (λ x, block_eqb x earlier_block) parents.

(** [block_exists_at_authority_round], [all_blocks_exists_at_authority_round] and
    [block_exists], through the readers. *)
Definition block_exists {S} `{BlockReader S} (s : S) (r : BlockReference) : bool :=
  bool_decide (is_Some (get_block s r)).

(** ** The abstract DAG *)

Notation dag := (gmap BlockReference StatementBlock).

(** Every block is stored under its own reference. *)
Definition dag_ok (d : dag) : Prop := ∀ r b, d !! r = Some b → reference b = r.

#[global] Instance dag_ok_dec d : Decision (dag_ok d).
Proof.
  refine (cast_if (decide (map_Forall (λ r b, reference b = r) d))); abstract done.
Defined.

(** A DAG with its well-formedness, so that the laws hold of every element. *)
Record Dag := mkDag { dag_map : dag; dag_wf : bool_decide (dag_ok dag_map) = true }.

Definition dag_blocks (d : dag) : list StatementBlock := (map_to_list d).*2.

#[global] Instance dag_reader : BlockReader Dag := {|
  get_block d r := dag_map d !! r;
  get_blocks_by_round d r := filter (λ b, block_round b = r) (dag_blocks (dag_map d));
  get_blocks_at_authority_round d a r :=
    filter (λ b, block_round b = r ∧ author b = a) (dag_blocks (dag_map d));
  len_expensive d := N.of_nat (size (dag_map d));
  reader_highest_round d := foldr (λ r acc, N.max (br_round r) acc) 0 (map_to_list (dag_map d)).*1;
|}.

Lemma dag_map_ok (d : Dag) : dag_ok (dag_map d).
Proof. exact (bool_decide_eq_true_1 _ (dag_wf d)). Qed.

Lemma elem_of_dag_blocks d b : dag_ok d → b ∈ dag_blocks d ↔ d !! reference b = Some b.
Proof.
  intros Hok. unfold dag_blocks. rewrite list_elem_of_fmap. split.
  - intros ([r b'] & -> & Hin%elem_of_map_to_list). simpl. by rewrite (Hok r b').
  - intros Hb. exists (reference b, b). split; [done|]. by apply elem_of_map_to_list.
Qed.

Lemma NoDup_dag_blocks d : dag_ok d → NoDup (dag_blocks d).
Proof.
  intros Hok. unfold dag_blocks. apply NoDup_fmap_2_strong; [|apply NoDup_map_to_list].
  intros [r1 b1] [r2 b2] H1%elem_of_map_to_list H2%elem_of_map_to_list. simpl. intros ->.
  apply Hok in H1 as <-. by apply Hok in H2 as <-.
Qed.

#[global] Instance dag_reader_laws : BlockReaderLaws Dag.
Proof.
  split; simpl.
  - intros d r b. apply dag_map_ok.
  - intros d r b. rewrite list_elem_of_filter, elem_of_dag_blocks by apply dag_map_ok. tauto.
  - intros d r. apply NoDup_filter, NoDup_dag_blocks, dag_map_ok.
  - intros d a r b. rewrite list_elem_of_filter, elem_of_dag_blocks by apply dag_map_ok. tauto.
  - intros d a r. apply NoDup_filter, NoDup_dag_blocks, dag_map_ok.
  - intros d l Hnd Hin. rewrite <-(size_dom (D := gset BlockReference)).
    assert (size (list_to_set l : gset BlockReference) = length l) as <- by by apply size_list_to_set.
    assert ((list_to_set l : gset BlockReference) ⊆ dom (dag_map d)) as Hsub.
    { intros r Hr%elem_of_list_to_set. by apply elem_of_dom, Hin. }
    apply subseteq_size in Hsub. lia.
  - intros d r [b Hb]. assert (r ∈ (map_to_list (dag_map d)).*1) as Hin.
    { apply list_elem_of_fmap. exists (r, b). split; [done|]. by apply elem_of_map_to_list. }
    clear Hb; revert Hin. generalize (map_to_list (dag_map d)).*1. intros l. induction 1; simpl; lia.
Qed.

(** ** Lemmas on linked *)

Section linked.
Context {S : Type} `{BlockReaderLaws S}.
Implicit Types (s : S) (b : StatementBlock).

(** [p] is a stored block of the round before [b]'s, and [b] includes it. *)
Definition strong_parent s b p : Prop :=
  get_block s (reference p) = Some p ∧ reference p ∈ includes b ∧
  block_round p + 1 = block_round b.

Lemma elem_of_linked_parents s parents r p :
  p ∈ linked_parents s parents r ↔
  get_block s (reference p) = Some p ∧ block_round p = r ∧
  ∃ x, x ∈ parents ∧ reference p ∈ includes x.
Proof.
  unfold linked_parents. rewrite list_elem_of_In, filter_In, <-list_elem_of_In, elem_of_by_round.
  rewrite existsb_exists. setoid_rewrite <-list_elem_of_In. setoid_rewrite bool_decide_eq_true.
  naive_solver.
Qed.

Lemma range_list_unsnoc (a b : N) : a < b → rev (range_list a b) = (b - 1) :: rev (range_list a (b - 1)).
Proof.
  intros. rewrite (range_list_app a (b - 1) b), rev_app_distr by lia.
  rewrite (range_list_cons (b - 1) b), range_list_nil by lia. done.
Qed.

(** After walking down [n] rounds, the parents are the blocks [n] strong steps away. *)
Lemma linked_walk s lo n : ∀ b p,
  block_round b = lo + N.of_nat n →
  p ∈ foldl (linked_parents s) [b] (rev (range_list lo (block_round b))) ↔
  nsteps (strong_parent s) n b p.
Proof.
  intros b p Hb.
  assert (Hgen : ∀ n parents hi p, hi = lo + N.of_nat n → (∀ x, x ∈ parents → block_round x = hi) →
    p ∈ foldl (linked_parents s) parents (rev (range_list lo hi)) ↔
    ∃ x, x ∈ parents ∧ nsteps (strong_parent s) n x p).
  { clear b p Hb n. induction n as [|n IH]; intros parents hi p Hhi Hround.
    - rewrite range_list_nil by lia. simpl. split; [|intros (x & Hx & Hn); by inversion Hn; subst].
      intros Hp. exists p. split; [done|constructor].
    - rewrite range_list_unsnoc by lia. simpl. rewrite (IH _ (hi - 1)); [|lia|].
      + setoid_rewrite elem_of_linked_parents. split.
        * intros (y & (Hy & Hyr & x & Hx & Hinc) & Hn). exists x. split; [done|].
          econstructor; [|done]. split_and!; [done|done|]. rewrite (Hround x Hx). lia.
        * intros (x & Hx & Hn). inversion Hn as [|n' x' y p' (Hy & Hinc & Hyr) Hn']; subst.
          exists y. split; [|done]. split_and!; [done| |by exists x]. rewrite (Hround x Hx) in Hyr. lia.
      + intros x (_ & Hx & _)%elem_of_linked_parents. lia. }
  rewrite (Hgen n); [|done|by intros x ->%list_elem_of_singleton].
  split; [intros (x & ->%list_elem_of_singleton & Hn); done|].
  intros Hn. exists b. split; [by apply list_elem_of_singleton|done].
Qed.

Lemma linked_spec s later earlier :
  block_round earlier ≤ block_round later →
  linked s later earlier = true ↔
  ∃ p, nsteps (strong_parent s) (N.to_nat (block_round later - block_round earlier)) later p ∧
       reference p = reference earlier.
Proof.
  intros Hle. unfold linked. rewrite existsb_exists. setoid_rewrite <-list_elem_of_In.
  unfold block_eqb. setoid_rewrite bool_decide_eq_true.
  setoid_rewrite (linked_walk s _ (N.to_nat (block_round later - block_round earlier))); [done|lia].
Qed.

End linked.

(** ** The detailed store *)

(** [WalPosition]: the offset of an entry in the write-ahead log. *)
Notation WalPosition := N (only parsing).

Definition WAL_ENTRY_BLOCK : N := 1.
Definition WAL_ENTRY_PAYLOAD : N := 2.
Definition WAL_ENTRY_OWN_BLOCK : N := 3.
Definition WAL_ENTRY_STATE : N := 4.
Definition WAL_ENTRY_COMMIT : N := 5.

Inductive IndexEntry :=
| OnDisk (position : WalPosition)
| Loaded (position : WalPosition) (block : StatementBlock).

Record BlockStoreInner := mkStore {
  index : gmap RoundNumber (gmap (AuthorityIndex * BlockDigest) IndexEntry);
  own_blocks : gmap RoundNumber BlockDigest;
  highest_round : RoundNumber;
  store_authority : AuthorityIndex;
  last_seen_vec : list RoundNumber;
  last_own_block : option BlockReference;
}.

Record OwnBlockData := mkOwnBlockData { next_entry : WalPosition; own_block : StatementBlock }.

Definition OWN_BLOCK_HEADER_SIZE : nat := 8.

(** The store [open] builds before it replays the log. *)
Definition BlockStoreInner_new (authority : AuthorityIndex) (c : Committee) : BlockStoreInner :=
  mkStore ∅ ∅ 0 authority ((λ _, 0) <$> authorities c) None.

(** [len_expensive]: the number of index entries. *)
Definition inner_len_expensive (self : BlockStoreInner) : N :=
  list_sum (λ p, N.of_nat (size p.2)) (map_to_list (index self)).

Definition inner_block_exists (self : BlockStoreInner) (r : BlockReference) : bool :=
  match index self !! br_round r with
  | None => false
  | Some blocks => bool_decide (is_Some (blocks !! author_digest r))
  end.

Definition inner_get_block (self : BlockStoreInner) (r : BlockReference) : option IndexEntry :=
  blocks ← index self !! br_round r; blocks !! author_digest r.

Definition inner_get_blocks_by_round (self : BlockStoreInner) (r : RoundNumber) : list IndexEntry :=
  match index self !! r with None => [] | Some blocks => (map_to_list blocks).*2 end.

Definition inner_get_blocks_at_authority_round (self : BlockStoreInner) (a : AuthorityIndex)
    (r : RoundNumber) : list IndexEntry :=
  match index self !! r with
  | None => []
  | Some blocks => (filter (λ p, p.1.1 = a) (map_to_list blocks)).*2
  end.

Definition block_exists_at_authority_round (self : BlockStoreInner) (a : AuthorityIndex)
    (r : RoundNumber) : bool :=
  match index self !! r with
  | None => false
  | Some blocks => existsb (λ k, bool_decide (k.1 = a)) (map_to_list blocks).*1
  end.

Definition all_blocks_exists_at_authority_round (self : BlockStoreInner)
    (l : list AuthorityIndex) (r : RoundNumber) : bool :=
  match index self !! r with
  | None => false
  | Some blocks =>
      forallb (λ a, existsb (λ k, bool_decide (k.1 = a)) (map_to_list blocks).*1) l
  end.

Definition unload_entry (e : IndexEntry) : IndexEntry :=
  match e with OnDisk p => OnDisk p | Loaded p _ => OnDisk p end.
Definition entry_loaded (e : IndexEntry) : bool :=
  match e with OnDisk _ => false | Loaded _ _ => true end.

(** Returns the store and the number of unloaded entries. *)
Definition unload_below_round (self : BlockStoreInner) (threshold_round : RoundNumber)
    : BlockStoreInner * N :=
  let unload round (m : gmap (AuthorityIndex * BlockDigest) IndexEntry) :=
    if bool_decide (threshold_round < round) then m else unload_entry <$> m in
  let count (p : RoundNumber * gmap (AuthorityIndex * BlockDigest) IndexEntry) :=
    if bool_decide (threshold_round < p.1) then 0
    else N.of_nat (length (List.filter (λ kv, entry_loaded kv.2) (map_to_list p.2))) in
  (mkStore (map_imap (λ round m, Some (unload round m)) (index self)) (own_blocks self)
     (highest_round self) (store_authority self) (last_seen_vec self) (last_own_block self),
   list_sum count (map_to_list (index self))).

Definition cleanup (self : BlockStoreInner) (threshold_round : RoundNumber) : BlockStoreInner :=
  if bool_decide (threshold_round = 0) then self else (unload_below_round self threshold_round).1.

(** [add_own_index]: a second own block of a round trips the assertion. *)
Definition add_own_index (self : BlockStoreInner) (r : BlockReference) : outcome BlockStoreInner :=
  if bool_decide (br_authority r = store_authority self) then
    let last_own :=
      if bool_decide (default 0 (br_round <$> last_own_block self) < br_round r)
      then Some r else last_own_block self in
    _ ← rust_assert (bool_decide (own_blocks self !! br_round r = None));
    Ok (mkStore (index self) (<[br_round r := br_digest r]> (own_blocks self)) (highest_round self)
          (store_authority self) (last_seen_vec self) last_own)
  else Ok self.

Definition update_last_seen_by_authority (self : BlockStoreInner) (r : BlockReference)
    : outcome BlockStoreInner :=
  last_seen ← expect (last_seen_vec self !! N.to_nat (br_authority r));
  if bool_decide (last_seen < br_round r) then
    Ok (mkStore (index self) (own_blocks self) (highest_round self) (store_authority self)
          (<[N.to_nat (br_authority r) := br_round r]> (last_seen_vec self)) (last_own_block self))
  else Ok self.

Definition set_highest_round (self : BlockStoreInner) (r : RoundNumber) : BlockStoreInner :=
  mkStore (index self) (own_blocks self) (N.max (highest_round self) r) (store_authority self)
    (last_seen_vec self) (last_own_block self).

Definition index_insert (self : BlockStoreInner) (r : BlockReference) (e : IndexEntry)
    : BlockStoreInner :=
  mkStore (<[br_round r := <[author_digest r := e]> (default ∅ (index self !! br_round r))]> (index self))
    (own_blocks self) (highest_round self) (store_authority self) (last_seen_vec self)
    (last_own_block self).

Definition add_unloaded (self : BlockStoreInner) (r : BlockReference) (position : WalPosition)
    : outcome BlockStoreInner :=
  let self := set_highest_round self (br_round r) in
  let self := index_insert self r (OnDisk position) in
  self ← add_own_index self r;
  update_last_seen_by_authority self r.

Definition add_loaded (self : BlockStoreInner) (position : WalPosition) (block : StatementBlock)
    : outcome BlockStoreInner :=
  let self := set_highest_round self (block_round block) in
  self ← add_own_index self (reference block);
  self ← update_last_seen_by_authority self (reference block);
  Ok (index_insert self (reference block) (Loaded position block)).

Definition last_seen_by_authority (self : BlockStoreInner) (a : AuthorityIndex) : outcome RoundNumber :=
  expect (last_seen_vec self !! N.to_nat a).

(** [.map(f).collect()] with a panicking [f]. *)
Fixpoint mapM_outcome {A B} (f : A → outcome B) (l : list A) : outcome (list B) :=
  match l with
  | [] => Ok []
  | x :: rest => y ← f x; ys ← mapM_outcome f rest; Ok (y :: ys)
  end.

Definition inner_get_own_blocks (self : BlockStoreInner) (from_excluded : RoundNumber) (limit : N)
    : outcome (list IndexEntry) :=
  mapM_outcome
    (λ '(round, digest), expect (inner_get_block self (mkRef (store_authority self) round digest)))
    (take (N.to_nat limit)
       (filter (λ p, u64_add from_excluded 1 ≤ p.1) (btree_entries (own_blocks self)))).

Definition inner_get_others_blocks (self : BlockStoreInner) (from_excluded : RoundNumber)
    (a : AuthorityIndex) (limit : N) : outcome (list IndexEntry) :=
  mapM_outcome (λ r, expect (inner_get_block self r))
    (flat_map
       (λ '(round, m), (λ k, mkRef k.1 round k.2) <$> filter (λ k, k.1 = a) (map_to_list m).*1)
       (take (N.to_nat limit)
          (filter (λ p, u64_add from_excluded 1 ≤ p.1) (btree_entries (index self))))).

Section Reading.
(** The log reader, and the bincode decoders of a block and of a position. *)
Context (wal_read : WalPosition → option (N * list byte)).
Context (block_from_bytes : list byte → option StatementBlock).
Context (position_from_bytes : list byte → option WalPosition).

(** A slice past the end panics; a decoding error is an [Err]. *)
Definition OwnBlockData_from_bytes (bytes : list byte)
    : outcome (option (OwnBlockData * StatementBlock)) :=
  _ ← rust_assert (bool_decide (OWN_BLOCK_HEADER_SIZE ≤ length bytes)%nat);
  Ok (next_entry ← position_from_bytes (take OWN_BLOCK_HEADER_SIZE bytes);
      block ← block_from_bytes (drop OWN_BLOCK_HEADER_SIZE bytes);
      Some (mkOwnBlockData next_entry block, block)).

Definition read_index (entry : IndexEntry) : outcome StatementBlock :=
  match entry with
  | OnDisk position =>
      '(tag, data) ← expect (wal_read position);
      if bool_decide (tag = WAL_ENTRY_BLOCK) then expect (block_from_bytes data)
      else if bool_decide (tag = WAL_ENTRY_OWN_BLOCK) then
        res ← OwnBlockData_from_bytes data; '(_, b) ← expect res; Ok b
      else Panic
  | Loaded _ block => Ok block
  end.

Definition read_index_vec (entries : list IndexEntry) : outcome (list StatementBlock) :=
  mapM_outcome read_index entries.

Definition store_get_block (self : BlockStoreInner) (r : BlockReference)
    : outcome (option StatementBlock) :=
  match inner_get_block self r with
  | Some entry => b ← read_index entry; Ok (Some b)
  | None => Ok None
  end.

Definition store_get_blocks_by_round (self : BlockStoreInner) (r : RoundNumber)
    : outcome (list StatementBlock) := read_index_vec (inner_get_blocks_by_round self r).

Definition store_get_blocks_at_authority_round (self : BlockStoreInner) (a : AuthorityIndex)
    (r : RoundNumber) : outcome (list StatementBlock) :=
  read_index_vec (inner_get_blocks_at_authority_round self a r).

Definition get_transaction (self : BlockStoreInner) (l : TransactionLocator)
    : outcome (option Transaction) :=
  ob ← store_get_block self (tl_block l);
  Ok (b ← ob; s ← statements b !! N.to_nat (tl_offset l);
      match s with Share tx => Some tx | _ => None end).

Definition store_get_own_blocks (self : BlockStoreInner) (from_excluded : RoundNumber) (limit : N)
    : outcome (list StatementBlock) :=
  entries ← inner_get_own_blocks self from_excluded limit; read_index_vec entries.

Definition store_get_others_blocks (self : BlockStoreInner) (from_excluded : RoundNumber)
    (a : AuthorityIndex) (limit : N) : outcome (list StatementBlock) :=
  entries ← inner_get_others_blocks self from_excluded a limit; read_index_vec entries.

(** ** Refinement of the DAG *)

(** The entry holds the block [b], now and after it is unloaded. *)
Definition entry_denotes (e : IndexEntry) (b : StatementBlock) : Prop :=
  read_index e = Ok b ∧ read_index (unload_entry e) = Ok b.

(** [n] is the greatest round of the stored references that satisfy [P], or 0. *)
Definition is_max_round (d : dag) (P : BlockReference → Prop) (n : RoundNumber) : Prop :=
  (∀ r, is_Some (d !! r) → P r → br_round r ≤ n) ∧
  (n = 0 ∨ ∃ r, is_Some (d !! r) ∧ P r ∧ br_round r = n).

Record store_rel (c : Committee) (self : BlockStoreInner) (d : dag) : Prop := {
  sr_dag : dag_ok d;
  sr_index : ∀ r e, inner_get_block self r = Some e → ∃ b, d !! r = Some b ∧ entry_denotes e b;
  sr_dom : ∀ r, is_Some (d !! r) → is_Some (inner_get_block self r);
  sr_known : ∀ r, is_Some (d !! r) → br_authority r < committee_len c;
  sr_own : ∀ n dg, own_blocks self !! n = Some dg ↔ is_Some (d !! mkRef (store_authority self) n dg);
  sr_highest : is_max_round d (λ _, True) (highest_round self);
  sr_len : length (last_seen_vec self) = N.to_nat (committee_len c);
  sr_seen : ∀ a n, last_seen_vec self !! N.to_nat a = Some n →
              is_max_round d (λ r, br_authority r = a) n;
  sr_last_own : is_max_round d (λ r, br_authority r = store_authority self)
                  (default 0 (br_round <$> last_own_block self));
  sr_last_own_in : ∀ r, last_own_block self = Some r →
                     is_Some (d !! r) ∧ br_authority r = store_authority self;
}.

Lemma inner_get_block_insert self r e r' :
  inner_get_block (index_insert self r e) r'
  = if decide (r' = r) then Some e else inner_get_block self r'.
Proof.
  unfold inner_get_block, index_insert. cbn [index]. destruct r as [a n dg], r' as [a' n' dg'].
  unfold author_digest. simpl. destruct (decide (n' = n)) as [->|Hn].
  - rewrite lookup_insert_eq. simpl. destruct (decide ((a', dg') = (a, dg))) as [Heq|Hne].
    + injection Heq as -> ->. rewrite lookup_insert_eq. by rewrite decide_True.
    + rewrite lookup_insert_ne by congruence. rewrite decide_False by congruence.
      by destruct (index self !! n).
  - rewrite lookup_insert_ne by done. by rewrite decide_False by congruence.
Qed.

Lemma is_max_round_insert d P b n :
  d !! reference b = None → is_max_round d P n → P (reference b) →
  is_max_round (<[reference b := b]> d) P (N.max n (block_round b)).
Proof.
  intros Hnew [Hmax Hex] HP. unfold block_round in *. split.
  - intros r Hr HPr. rewrite lookup_insert in Hr. case_decide; [subst; lia|].
    specialize (Hmax r Hr HPr). lia.
  - destruct (N.le_gt_cases (br_round (reference b)) n).
    + rewrite N.max_l by done. destruct Hex as [->|(r & Hr & ? & ?)]; [by left|]. right.
      exists r. split_and!; try done. rewrite lookup_insert. by case_decide.
    + rewrite N.max_r by lia. right. exists (reference b). split_and!; [|done|done].
      by rewrite lookup_insert_eq.
Qed.

Lemma is_max_round_insert_other d P b n :
  is_max_round d P n → ¬ P (reference b) → d !! reference b = None →
  is_max_round (<[reference b := b]> d) P n.
Proof.
  intros [Hmax Hex] HP Hnew. split.
  - intros r Hr HPr. rewrite lookup_insert in Hr. case_decide; [by subst|]. by apply Hmax.
  - destruct Hex as [->|(r & Hr & ? & ?)]; [by left|]. right. exists r. split_and!; try done.
    rewrite lookup_insert. by case_decide.
Qed.

(** A store that differs from [self] by exactly the new block. *)
Record extends_by (self self' : BlockStoreInner) (b : StatementBlock) (e : IndexEntry)
    (seen : RoundNumber) : Prop := {
  eb_index : ∀ r, inner_get_block self' r
               = if decide (r = reference b) then Some e else inner_get_block self r;
  eb_own : own_blocks self' = if decide (author b = store_authority self)
             then <[block_round b := block_digest b]> (own_blocks self) else own_blocks self;
  eb_highest : highest_round self' = N.max (highest_round self) (block_round b);
  eb_authority : store_authority self' = store_authority self;
  eb_seen : last_seen_vec self'
            = <[N.to_nat (author b) := N.max seen (block_round b)]> (last_seen_vec self);
  eb_last_own : last_own_block self' =
      if decide (author b = store_authority self ∧
                 default 0 (br_round <$> last_own_block self) < block_round b)
      then Some (reference b) else last_own_block self;
}.

Lemma store_rel_extend c self self' d b e seen :
  store_rel c self d → extends_by self self' b e seen →
  last_seen_vec self !! N.to_nat (author b) = Some seen →
  d !! reference b = None → author b < committee_len c →
  (author b = store_authority self → own_blocks self !! block_round b = None) →
  entry_denotes e b →
  store_rel c self' (<[reference b := b]> d).
Proof.
  intros Hrel Hext Hsn Hnew Hk Hfresh Hden.
  assert (Hself : ∀ n dg, mkRef (store_authority self) n dg = reference b ↔
    author b = store_authority self ∧ n = block_round b ∧ dg = block_digest b).
  { intros n dg. unfold author, block_round, block_digest. destruct (reference b); simpl.
    naive_solver congruence. }
  constructor.
  - intros r b' Hb. rewrite lookup_insert in Hb. case_decide; [by simplify_eq|by apply (sr_dag _ _ _ Hrel)].
  - intros r e'. rewrite (eb_index _ _ _ _ _ Hext). case_decide as Hr.
    + intros He. exists b. simplify_eq. by rewrite lookup_insert_eq.
    + rewrite lookup_insert_ne by congruence. apply (sr_index _ _ _ Hrel).
  - intros r. rewrite (eb_index _ _ _ _ _ Hext), lookup_insert. intros Hr. do 2 case_decide; try done.
    by apply (sr_dom _ _ _ Hrel).
  - intros r. rewrite lookup_insert. case_decide; [by subst|apply (sr_known _ _ _ Hrel)].
  - intros n dg. rewrite (eb_own _ _ _ _ _ Hext), (eb_authority _ _ _ _ _ Hext), lookup_insert. pose proof (Hself n dg) as Hs.
    pose proof (sr_own _ _ _ Hrel n dg) as Ho. destruct (decide (author b = store_authority self)) as [Ha|Ha].
    + specialize (Hfresh Ha). rewrite lookup_insert. destruct (decide (block_round b = n)) as [<-|Hn].
      * split; [intros He; simplify_eq; rewrite decide_True by (symmetry; by apply Hs); done|].
        case_decide as Hc; [symmetry in Hc; apply Hs in Hc as (_ & _ & ->); done|].
        intros Hd. apply Ho in Hd. congruence.
      * rewrite decide_False by (intros Hc; symmetry in Hc; apply Hs in Hc; naive_solver). done.
    + rewrite decide_False by (intros Hc; symmetry in Hc; apply Hs in Hc; naive_solver). done.
  - rewrite (eb_highest _ _ _ _ _ Hext). by apply is_max_round_insert; [|apply Hrel|].
  - rewrite (eb_seen _ _ _ _ _ Hext), length_insert. apply Hrel.
  - intros a n. rewrite (eb_seen _ _ _ _ _ Hext). destruct (decide (a = author b)) as [->|Ha].
    + rewrite list_lookup_insert_eq by (by eapply lookup_lt_Some). intros He. injection He as <-.
      by apply is_max_round_insert; [|by apply (sr_seen _ _ _ Hrel)|].
    + rewrite list_lookup_insert_ne by lia. intros Hn.
      apply is_max_round_insert_other; [by apply (sr_seen _ _ _ Hrel)|unfold author in Ha; congruence|done].
  - rewrite (eb_last_own _ _ _ _ _ Hext), (eb_authority _ _ _ _ _ Hext). pose proof (sr_last_own _ _ _ Hrel) as Hm.
    destruct (decide (author b = store_authority self)) as [Ha|Ha].
    + assert (is_max_round (<[reference b := b]> d) (λ r, br_authority r = store_authority self)
        (N.max (default 0 (br_round <$> last_own_block self)) (block_round b))) as Hm'
        by (by apply is_max_round_insert).
      case_decide as Hc; simpl.
      * by rewrite N.max_r in Hm' by lia.
      * rewrite N.max_l in Hm'; [done|]. destruct (N.le_gt_cases (block_round b)
          (default 0 (br_round <$> last_own_block self))); [done|]. tauto.
    + rewrite decide_False by tauto. by apply is_max_round_insert_other.
  - intros r. rewrite (eb_last_own _ _ _ _ _ Hext), (eb_authority _ _ _ _ _ Hext). case_decide as Hc.
    + intros He. injection He as <-. rewrite lookup_insert_eq. split; [done|apply Hc].
    + intros [??]%(sr_last_own_in _ _ _ Hrel). split; [|done].
      rewrite lookup_insert. by case_decide.
Qed.

Lemma sr_seen_lookup c self d a :
  store_rel c self d → a < committee_len c → is_Some (last_seen_vec self !! N.to_nat a).
Proof. intros Hrel Ha. apply lookup_lt_is_Some. rewrite (sr_len _ _ _ Hrel). lia. Qed.

Lemma list_insert_max (l : list N) i x y :
  l !! i = Some x → (if bool_decide (x < y) then <[i := y]> l else l) = <[i := N.max x y]> l.
Proof.
  intros Hx. case_bool_decide.
  - by rewrite N.max_r by lia.
  - rewrite N.max_l by lia. by rewrite list_insert_id.
Qed.

Lemma update_last_seen_ok self r seen :
  last_seen_vec self !! N.to_nat (br_authority r) = Some seen →
  update_last_seen_by_authority self r
  = Ok (mkStore (index self) (own_blocks self) (highest_round self) (store_authority self)
         (<[N.to_nat (br_authority r) := N.max seen (br_round r)]> (last_seen_vec self))
         (last_own_block self)).
Proof.
  intros Hseen. unfold update_last_seen_by_authority. rewrite Hseen. simpl.
  rewrite <-(list_insert_max _ _ _ _ Hseen). case_bool_decide; [done|]. by destruct self.
Qed.

Lemma add_own_index_ok self r :
  (br_authority r = store_authority self → own_blocks self !! br_round r = None) →
  add_own_index self r
  = Ok (mkStore (index self)
         (if decide (br_authority r = store_authority self)
          then <[br_round r := br_digest r]> (own_blocks self) else own_blocks self)
         (highest_round self) (store_authority self) (last_seen_vec self)
         (if decide (br_authority r = store_authority self ∧
                     default 0 (br_round <$> last_own_block self) < br_round r)
          then Some r else last_own_block self)).
Proof.
  intros Hfresh. unfold add_own_index. case_bool_decide as Ha.
  - rewrite (bool_decide_true (own_blocks self !! _ = None)) by auto. simpl.
    rewrite decide_True by done. do 2 f_equal. case_bool_decide; case_decide; naive_solver.
  - rewrite !decide_False by naive_solver. by destruct self.
Qed.

Lemma add_loaded_ok c self d pos b :
  store_rel c self d → author b < committee_len c →
  (author b = store_authority self → own_blocks self !! block_round b = None) →
  ∃ self' seen, add_loaded self pos b = Ok self' ∧
    last_seen_vec self !! N.to_nat (author b) = Some seen ∧
    extends_by self self' b (Loaded pos b) seen.
Proof.
  intros Hrel Hk Hfresh. destruct (sr_seen_lookup _ _ _ _ Hrel Hk) as [seen Hseen].
  unfold add_loaded. rewrite add_own_index_ok by done. cbn.
  rewrite (update_last_seen_ok _ _ seen) by done. cbn.
  eexists _, seen. split; [done|]. split; [done|].
  constructor; try done. intros r. exact (inner_get_block_insert self (reference b) (Loaded pos b) r).
Qed.

Lemma add_unloaded_ok c self d pos b :
  store_rel c self d → author b < committee_len c →
  (author b = store_authority self → own_blocks self !! block_round b = None) →
  ∃ self' seen, add_unloaded self (reference b) pos = Ok self' ∧
    last_seen_vec self !! N.to_nat (author b) = Some seen ∧
    extends_by self self' b (OnDisk pos) seen.
Proof.
  intros Hrel Hk Hfresh. destruct (sr_seen_lookup _ _ _ _ Hrel Hk) as [seen Hseen].
  unfold add_unloaded. rewrite add_own_index_ok by done. cbn.
  rewrite (update_last_seen_ok _ _ seen) by done. cbn.
  eexists _, seen. split; [done|]. split; [done|].
  constructor; try done. intros r. exact (inner_get_block_insert self (reference b) (OnDisk pos) r).
Qed.

(** An equivocating own block, or an unknown author, is a panic. *)
Lemma add_loaded_own_twice self pos b :
  author b = store_authority self → is_Some (own_blocks self !! block_round b) →
  add_loaded self pos b = Panic.
Proof.
  intros Ha [dg Hdg]. unfold add_loaded, add_own_index. cbn.
  rewrite bool_decide_true by done. cbn. unfold block_round in Hdg. rewrite Hdg.
  by rewrite (bool_decide_false (Some dg = None)).
Qed.

Lemma store_rel_new a c : store_rel c (BlockStoreInner_new a c) ∅.
Proof.
  assert (∀ (r : BlockReference), ¬ is_Some ((∅ : dag) !! r)) as Hno.
  { intros r [x Hx]. by rewrite lookup_empty in Hx. }
  assert (∀ P, is_max_round ∅ P 0) as Hmax by (intros P; split; [intros r Hr; by apply Hno in Hr|by left]).
  constructor; simpl.
  - intros r b Hb. by rewrite lookup_empty in Hb.
  - intros r e He. unfold inner_get_block in He. simpl in He. by rewrite lookup_empty in He.
  - intros r Hr. by apply Hno in Hr.
  - intros r Hr. by apply Hno in Hr.
  - intros n dg. rewrite lookup_empty. split; [done|]. intros Hr. by apply Hno in Hr.
  - apply Hmax.
  - rewrite length_fmap. unfold authorities, range_list. rewrite length_fmap, length_seq. lia.
  - intros b n Hn. rewrite list_lookup_fmap in Hn. destruct (_ !! _); simplify_eq/=. apply Hmax.
  - apply Hmax.
  - done.
Qed.

Lemma inner_get_block_unload self t r :
  inner_get_block (unload_below_round self t).1 r
  = (λ e, if bool_decide (t < br_round r) then e else unload_entry e) <$> inner_get_block self r.
Proof.
  unfold inner_get_block, unload_below_round. cbn [fst index]. rewrite map_lookup_imap.
  destruct (index self !! br_round r) as [m|]; simpl; [|done].
  case_bool_decide; [by rewrite option_fmap_id|]. by rewrite lookup_fmap.
Qed.

Lemma entry_denotes_unload e b : entry_denotes e b → entry_denotes (unload_entry e) b.
Proof. intros [_ Hu]. split; [done|]. by destruct e. Qed.

Lemma store_rel_unload c self d t :
  store_rel c self d → store_rel c (unload_below_round self t).1 d.
Proof.
  intros [? Hidx Hdom]. constructor; try assumption.
  - intros r e. rewrite inner_get_block_unload. intros (e' & He' & ->)%fmap_Some.
    apply Hidx in He' as (b & Hb & Hden). exists b. split; [done|].
    case_bool_decide; [done|by apply entry_denotes_unload].
  - intros r Hr. rewrite inner_get_block_unload, fmap_is_Some. by apply Hdom.
Qed.

(** *** The readers *)

Lemma mapM_outcome_ok {A B} (f : A → outcome B) (l : list A) (g : A → B) :
  (∀ x, x ∈ l → f x = Ok (g x)) → mapM_outcome f l = Ok (g <$> l).
Proof.
  induction l as [|x l IH]; intros Hf; simpl; [done|].
  rewrite Hf by left. simpl. rewrite IH; [done|]. intros y Hy. apply Hf. by right.
Qed.

Lemma store_rel_get c self d r : store_rel c self d → store_get_block self r = Ok (d !! r).
Proof.
  intros Hrel. unfold store_get_block. destruct (inner_get_block self r) as [e|] eqn:He.
  - apply (sr_index _ _ _ Hrel) in He as (b & -> & [-> _]). done.
  - destruct (d !! r) as [b|] eqn:Hb; [|done].
    destruct (sr_dom _ _ _ Hrel r) as [e He']; [by exists b|]. congruence.
Qed.

Lemma store_rel_exists c self d r :
  store_rel c self d → inner_block_exists self r = bool_decide (is_Some (d !! r)).
Proof.
  intros Hrel. assert (inner_block_exists self r = bool_decide (is_Some (inner_get_block self r))) as ->.
  { unfold inner_block_exists, inner_get_block. destruct (index self !! br_round r); [done|].
    symmetry. apply bool_decide_eq_false. by intros [? ?]. }
  apply bool_decide_ext. split; [|apply (sr_dom _ _ _ Hrel)].
  intros [e (b & Hb & _)%(sr_index _ _ _ Hrel)]. by exists b.
Qed.

(** The block an entry of the index denotes. *)
Definition entry_block (d : dag) (r : RoundNumber) (p : (AuthorityIndex * BlockDigest) * IndexEntry)
    : StatementBlock := default (mkBlock (mkRef 0 0 0) [] [] 0 false 0) (d !! mkRef p.1.1 r p.1.2).

Lemma store_rel_entry c self d r blocks k e :
  store_rel c self d → index self !! r = Some blocks → (k, e) ∈ map_to_list blocks →
  d !! mkRef k.1 r k.2 = Some (entry_block d r (k, e)) ∧ read_index e = Ok (entry_block d r (k, e)).
Proof.
  intros Hrel Hidx Hin%elem_of_map_to_list.
  assert (inner_get_block self (mkRef k.1 r k.2) = Some e) as Hget.
  { unfold inner_get_block. simpl. rewrite Hidx. simpl. destruct k. done. }
  apply (sr_index _ _ _ Hrel) in Hget as (b & Hb & [Hden _]). unfold entry_block. simpl.
  rewrite Hb. done.
Qed.

(** Reading a selection of the entries of a round gives the selected blocks. *)
Lemma store_rel_select c self d r (P : AuthorityIndex → Prop) `{∀ a, Decision (P a)} blocks :
  store_rel c self d → index self !! r = Some blocks →
  ∃ l, read_index_vec (filter (λ p, P p.1.1) (map_to_list blocks)).*2 = Ok l ∧
    l ≡ₚ filter (λ b, block_round b = r ∧ P (author b)) (dag_blocks d).
Proof.
  intros Hrel Hidx. set (l := filter (λ p, P p.1.1) (map_to_list blocks)).
  assert (Hsub : ∀ p, p ∈ l ↔ P p.1.1 ∧ p ∈ map_to_list blocks) by (intros; unfold l; by rewrite list_elem_of_filter).
  exists (entry_block d r <$> l). split.
  - assert (∀ l', (∀ p, p ∈ l' → p ∈ map_to_list blocks) →
      read_index_vec l'.*2 = Ok (entry_block d r <$> l')) as Hgen.
    { unfold read_index_vec. induction l' as [|[k e] l' IH]; intros Hl; [done|].
      rewrite !fmap_cons. cbn [mapM_outcome snd].
      destruct (store_rel_entry c self d r blocks k e Hrel Hidx) as [_ ->]; [apply Hl; left|].
      cbn [mbind outcome_bind]. rewrite IH; [done|]. intros p Hp. apply Hl. by right. }
    apply Hgen. intros p Hp. by apply Hsub.
  - pose proof (sr_dag _ _ _ Hrel) as Hok. apply NoDup_Permutation.
    + apply NoDup_fmap_2_strong.
      * intros [k1 e1] [k2 e2] [_ H1]%Hsub [_ H2]%Hsub Heq.
        destruct (store_rel_entry c self d r blocks k1 e1 Hrel Hidx H1) as [Hd1 _].
        destruct (store_rel_entry c self d r blocks k2 e2 Hrel Hidx H2) as [Hd2 _].
        apply Hok in Hd1. apply Hok in Hd2. rewrite Heq in Hd1. rewrite Hd1 in Hd2.
        injection Hd2 as ??. destruct k1, k2; simpl in *; subst.
        apply elem_of_map_to_list in H1, H2. congruence.
      * apply NoDup_filter, NoDup_map_to_list.
    + by apply NoDup_filter, NoDup_dag_blocks.
    + intros b. rewrite list_elem_of_fmap, list_elem_of_filter, elem_of_dag_blocks by done. split.
      * intros ([k e] & -> & [HP Hin]%Hsub).
        destruct (store_rel_entry c self d r blocks k e Hrel Hidx Hin) as [Hd _].
        pose proof (Hok _ _ Hd) as Href. unfold block_round, author. rewrite Href. done.
      * intros [[Hr HP] Hb]. destruct (sr_dom _ _ _ Hrel (reference b)) as [e He]; [by exists b|].
        exists (author_digest (reference b), e). unfold block_round, author in *.
        assert (Hin : (author_digest (reference b), e) ∈ map_to_list blocks).
        { apply elem_of_map_to_list. unfold inner_get_block in He. rewrite Hr, Hidx in He. done. }
        split; [|by apply Hsub].
        destruct (store_rel_entry c self d r blocks _ e Hrel Hidx Hin) as [Hd _].
        simpl in Hd. rewrite <-Hr in Hd at 1. destruct (reference b) eqn:E; simpl in *.
        rewrite Hb in Hd. by injection Hd.
Qed.

Lemma filter_dag_no_round c self d r (P : StatementBlock → Prop) `{∀ b, Decision (P b)} :
  store_rel c self d → index self !! r = None →
  filter (λ b, block_round b = r ∧ P b) (dag_blocks d) = [].
Proof.
  intros Hrel Hidx. destruct (filter _ _) as [|b l] eqn:Hf; [done|].
  assert (b ∈ filter (λ b, block_round b = r ∧ P b) (dag_blocks d)) as Hin by (rewrite Hf; left).
  apply list_elem_of_filter in Hin as [[Hr _] Hb].
  apply elem_of_dag_blocks in Hb; [|apply Hrel].
  destruct (sr_dom _ _ _ Hrel (reference b)) as [e He]; [by exists b|].
  unfold inner_get_block in He. unfold block_round in Hr. rewrite Hr, Hidx in He. done.
Qed.
End Reading.

(** ** Properties *)


(** Inserting a block: a block by a known author, readable from the log at
    [pos], that is new to the DAG and (when it is the validator's own) the first
    own block of its round, is added without panic, and the store then represents
    the DAG with that block: index, own blocks, highest round, last-seen rounds and
    last own block included. A second own block of a round makes [add_loaded]
    panic, so a store never holds two own blocks of one round. *)
Theorem store_add_loaded wal_read block_from_bytes position_from_bytes c self d pos b :
  store_rel wal_read block_from_bytes position_from_bytes c self d →
  author b < committee_len c → d !! reference b = None →
  read_index wal_read block_from_bytes position_from_bytes (OnDisk pos) = Ok b →
  if decide (author b = store_authority self ∧ is_Some (own_blocks self !! block_round b))
  then add_loaded self pos b = Panic
  else ∃ self', add_loaded self pos b = Ok self' ∧
         store_rel wal_read block_from_bytes position_from_bytes c self' (<[reference b := b]> d).
Proof.
  intros Hrel Hk Hnew Hread. case_decide as Hown.
  - destruct Hown; by apply add_loaded_own_twice.
  - assert (Hfresh : author b = store_authority self → own_blocks self !! block_round b = None).
    { intros Ha. destruct (own_blocks self !! block_round b) eqn:E; [|done]. exfalso. apply Hown. eauto. }
    destruct (add_loaded_ok _ _ _ c self d pos b Hrel Hk Hfresh) as (self' & seen & Hadd & Hseen & Hext).
    exists self'. split; [done|]. by eapply store_rel_extend.
Qed.

(** Cleaning the cache is invisible: [cleanup] (which unloads every entry up
    to the threshold round to its log position) leaves the DAG the store
    represents unchanged, so every reader answers as before. *)
Theorem store_cleanup_preserves wal_read block_from_bytes position_from_bytes c self d t r :
  store_rel wal_read block_from_bytes position_from_bytes c self d →
  store_rel wal_read block_from_bytes position_from_bytes c (cleanup self t) d ∧
  store_get_block wal_read block_from_bytes position_from_bytes (cleanup self t) r
    = store_get_block wal_read block_from_bytes position_from_bytes self r.
Proof.
  intros Hrel.
  assert (store_rel wal_read block_from_bytes position_from_bytes c (cleanup self t) d) as Hrel'.
  { unfold cleanup. case_bool_decide; [done|]. by apply store_rel_unload. }
  split; [done|]. rewrite (store_rel_get _ _ _ _ _ _ _ Hrel'). symmetry. by eapply store_rel_get.
Qed.

(** A one-entry log for the witnesses. *)
Definition sample_block : StatementBlock := mkBlock (mkRef 1 3 5) [] [] 0 false 0.
Definition sample_wal (pos : N) : option (N * list byte) := Some (WAL_ENTRY_BLOCK, []).
Definition sample_decode (bytes : list byte) : option StatementBlock := Some sample_block.
Definition sample_position (bytes : list byte) : option N := Some 0.

Lemma store_add_loaded_witness :
  ∃ self', add_loaded (BlockStoreInner_new 1 four_equal) 64 sample_block = Ok self' ∧
    store_rel sample_wal sample_decode sample_position four_equal self' {[reference sample_block := sample_block]}.
Proof.
  apply (store_add_loaded sample_wal sample_decode sample_position four_equal
    (BlockStoreInner_new 1 four_equal) ∅ 64 sample_block).
  - apply store_rel_new.
  - reflexivity.
  - reflexivity.
  - reflexivity.
Defined.

(** The store with the sample block, as [add_loaded] builds it. *)
Definition sample_store : BlockStoreInner :=
  match add_loaded (BlockStoreInner_new 1 four_equal) 64 sample_block with
  | Ok s => s | _ => BlockStoreInner_new 1 four_equal end.

Lemma sample_store_rel :
  store_rel sample_wal sample_decode sample_position four_equal sample_store
    {[reference sample_block := sample_block]}.
Proof.
  destruct (add_loaded_ok sample_wal sample_decode sample_position four_equal
    (BlockStoreInner_new 1 four_equal) ∅ 64 sample_block) as (self' & seen & Hadd & Hseen & Hext).
  - apply store_rel_new.
  - done.
  - done.
  - unfold sample_store. rewrite Hadd. by eapply (store_rel_extend _ _ _ _ _ _ ∅);
      [apply store_rel_new|..].
Qed.


Lemma store_cleanup_preserves_witness :
  store_get_block sample_wal sample_decode sample_position (cleanup sample_store 7) (mkRef 1 3 5)
  = Ok (Some sample_block).
Proof.
  rewrite (proj2 (store_cleanup_preserves sample_wal sample_decode sample_position four_equal sample_store
    {[reference sample_block := sample_block]} 7 (mkRef 1 3 5) sample_store_rel)). reflexivity.
Defined.

(** [linked] decides reachability through consecutive rounds: for a block not
    older than the earlier one it returns true exactly when a chain of stored
    blocks, each included by the previous one and exactly one round below it,
    leads from the later block to a block with the earlier block's reference. *)
Theorem linked_iff_strong_path {S} `{BlockReaderLaws S} (s : S) later earlier :
  block_round earlier ≤ block_round later →
  linked s later earlier = true ↔
  ∃ p, nsteps (strong_parent s) (N.to_nat (block_round later - block_round earlier)) later p ∧
       reference p = reference earlier.
Proof. apply linked_spec. Qed.

(** Two blocks where the later one includes the earlier one across a round. *)
Definition weak_earlier : StatementBlock := mkBlock (mkRef 0 1 1) [] [] 0 false 0.
Definition weak_later : StatementBlock := mkBlock (mkRef 1 3 2) [mkRef 0 1 1] [] 0 false 0.
Definition strong_middle : StatementBlock := mkBlock (mkRef 1 2 3) [mkRef 0 1 1] [] 0 false 0.
Definition weak_dag : Dag :=
  mkDag {[mkRef 0 1 1 := weak_earlier; mkRef 1 3 2 := weak_later; mkRef 1 2 3 := strong_middle]}
    eq_refl.

Lemma linked_iff_strong_path_witness :
  block_round weak_earlier ≤ block_round strong_middle ∧
  ∃ p, nsteps (strong_parent weak_dag) 1 strong_middle p ∧ reference p = reference weak_earlier.
Proof.
  split; [vm_compute; discriminate|].
  apply (proj1 (linked_iff_strong_path weak_dag strong_middle weak_earlier ltac:(vm_compute; discriminate))).
  vm_compute; reflexivity.
Defined.

(** [linked] is not the ancestor relation its comment promises: a block that
    directly includes an older block two rounds below it is not linked to it. *)
Theorem linked_misses_weak_links :
  reference weak_earlier ∈ includes weak_later ∧
  get_block weak_dag (reference weak_earlier) = Some weak_earlier ∧
  linked weak_dag weak_later weak_earlier = false.
Proof. split_and!; [left|vm_compute; reflexivity|vm_compute; reflexivity]. Qed.
