(* ===== verification/Wal.v ===== *)
(** * Wal: the write-ahead log (mysticeti-core/src/wal.rs)

    The file is a list of bytes that the writer appends to and that the reader
    sees through memory maps of [MAP_SIZE] bytes; an entry never straddles two
    maps, the writer pads with zeros up to the next one. [encode] is the abstract
    layout of a sequence of entries; the writer is shown to produce it, the reader
    to read every entry back, and the iterator to replay it. The checksum, the
    operating system's answers and the page size are parameters. *)

From S2P Require Import Prelude Bytes Types BlockStore.
From Stdlib Require Import Strings.Byte.

(** ** Constants *)

(** [MAP_SIZE] is [2^28], and [2^16] in the test configuration. *)
Definition production_map_bits : N := 28.
Definition test_map_bits : N := 16.

Definition HEADER_LEN_BYTES : N := 8 + 8.

(** [check_zeroes] and [check_ones], evaluated at compile time on a 64-bit mask. *)
Fixpoint check_ones (fuel : nat) (m : N) : outcome unit :=
  match fuel with
  | O => OutOfFuel
  | Datatypes.S fuel =>
      if m =? 0 then Ok tt
      else if negb (N.land m 1 =? 1) then Panic else check_ones fuel (N.shiftr m 1)
  end.

Fixpoint check_zeroes (fuel : nat) (m : N) : outcome unit :=
  match fuel with
  | O => OutOfFuel
  | Datatypes.S fuel =>
      if N.land m 1 =? 1 then check_ones fuel (N.shiftr m 1) else check_zeroes fuel (N.shiftr m 1)
  end.

(** ** Headers *)

Definition u32_max : N := 2 ^ 32 - 1.
Definition wrap128 (x : N) : N := x mod 2 ^ 128.

Definition combine_header (crc len tag : N) : outcome N :=
  _ ← rust_assert (len <=? u32_max);
  Ok (wrap128 (crc + N.shiftl len 64 + N.shiftl tag (64 + 32))).

(** The last component is cast to a 32-bit tag. *)
Definition split_header (combined : N) : N * N * N :=
  (N.land combined (N.shiftl 1 64 - 1),
   N.land (N.shiftr combined 64) (N.shiftl 1 32 - 1),
   N.shiftr combined (64 + 32) mod 2 ^ 32).

(** The results of system calls. *)
Inductive io (A : Type) : Type :=
| IoOk (a : A)
| IoErr.
Arguments IoOk {A} _.
Arguments IoErr {A}.

(** [io_result.expect(..)] *)
Definition io_expect {A} (r : io A) : outcome A := match r with IoOk a => Ok a | IoErr => Panic end.

Record WalWriter := mkWalWriter { wal_file : list byte; pos : N }.

(** The keys of [maps]; a map shows the file's current bytes. *)
Record WalReader := mkWalReader { maps : gset N }.

Record WalIterator := mkWalIterator { position : option WalPosition; end_position : N }.

Section Wal.
Context (map_bits : N).

Definition MAP_SIZE : N := 2 ^ map_bits.
Definition MAP_MASK : N := N.lnot (N.ones map_bits) 64.
Definition MAX_ENTRY_SIZE : N := MAP_SIZE - HEADER_LEN_BYTES.

Definition assert_constants : outcome unit :=
  if negb (u64_max - MAP_MASK =? MAP_SIZE - 1) then Panic else check_zeroes 65 MAP_MASK.

Definition offset (p : N) : N := N.land p MAP_MASK.

(** ** The writer *)

(** [crc32fast], as a function of the bytes fed to the hasher. *)
Context (crc32 : list byte → N).

(** [make_wal]: the writer appends at the end of the file it opens. *)
Definition make_wal (file : list byte) : WalWriter * WalReader :=
  (mkWalWriter file (byte_len file), mkWalReader ∅).

(** [write_vectored]: the system appends a prefix of the buffers, or fails; [os]
    answers from the length of the file and the number of bytes. *)
Definition write_vectored (os : N → N → io N) (file buffs : list byte) : list byte * io N :=
  match os (byte_len file) (byte_len buffs) with
  | IoErr => (file, IoErr)
  | IoOk n => (file ++ take (N.to_nat n) buffs, IoOk n)
  end.

(** The zeros up to the next map, and the position after them. *)
Definition skip_map (p len : N) : outcome (N * list byte) :=
  if negb (offset p =? offset (u64_sub (u64_add p len) 1)) then
    let extra_len := u64_sub (offset (u64_sub (u64_add p len) 1)) p in
    _ ← rust_assert (extra_len <=? MAP_SIZE);
    let p := u64_add p extra_len in
    _ ← rust_assert (offset p =? p);
    _ ← rust_assert (offset p =? offset (u64_sub (u64_add p len) 1));
    Ok (p, zeros extra_len)
  else Ok (p, []).

(** The lengths of slices in memory add up without overflow. *)
Definition writev (os : N → N → io N) (self : WalWriter) (tag : N) (v : list (list byte))
    : outcome (WalWriter * io WalPosition) :=
  let v_len := list_sum byte_len v in
  let len := v_len + HEADER_LEN_BYTES in
  _ ← rust_assert (len <=? MAP_SIZE);
  '(p, extra) ← skip_map (pos self) len;
  header ← combine_header (crc32 (concat v)) len tag;
  let buffs := extra ++ to_le_bytes 16 header ++ concat v in
  let written_expected := byte_len extra + len in
  match write_vectored os (wal_file self) buffs with
  | (file, IoErr) => Ok (mkWalWriter file p, IoErr)
  | (file, IoOk written) =>
      _ ← rust_assert (written =? written_expected);
      Ok (mkWalWriter file (u64_add p len), IoOk p)
  end.

Definition write (os : N → N → io N) (self : WalWriter) (tag : N) (b : list byte)
    : outcome (WalWriter * io WalPosition) := writev os self tag [b].

(** ** The reader *)

(** Whether mapping the file at an offset succeeds, and the size of a page: the
    bytes of a map past the end of the file read as zeros up to the end of the
    page, further ones kill the process. *)
Context (mmap_ok : N → bool) (page_size : N).

Definition mapped_len (file : list byte) : N :=
  (byte_len file + page_size - 1) / page_size * page_size.

Definition mapped_bytes (file : list byte) (start len : N) : outcome (list byte) :=
  _ ← rust_assert (start + len <=? mapped_len file);
  Ok (take (N.to_nat len) (drop (N.to_nat start) file ++ zeros len)).

Definition map_offset (self : WalReader) (off : N) : io WalReader :=
  if bool_decide (off ∈ maps self) then IoOk self
  else if mmap_ok off then IoOk (mkWalReader ({[off]} ∪ maps self)) else IoErr.

(** [read_header] of the map's bytes from [start] on: slicing the map panics when
    less than a header is left of it. *)
Definition read_header (file : list byte) (off start : N) : outcome (N * N * N) :=
  _ ← rust_assert (start - off + HEADER_LEN_BYTES <=? MAP_SIZE);
  header ← mapped_bytes file start HEADER_LEN_BYTES;
  Ok (split_header (from_le_bytes header)).

Definition try_read (self : WalReader) (file : list byte) (start : WalPosition)
    : outcome (io (WalReader * option (N * list byte))) :=
  let off := offset start in
  match map_offset self off with
  | IoErr => Ok IoErr
  | IoOk self =>
      let buf_offset := start - off in
      '(crc, len, tag) ← read_header file off start;
      if len =? 0 then
        if crc =? 0 then Ok (IoOk (self, None)) else Panic
      else
        _ ← rust_assert ((HEADER_LEN_BYTES <=? len) && (buf_offset + len <=? MAP_SIZE));
        bytes ← mapped_bytes file (start + HEADER_LEN_BYTES) (len - HEADER_LEN_BYTES);
        _ ← rust_assert (crc32 bytes =? crc);
        Ok (IoOk (self, Some (tag, bytes)))
  end.

Definition read (self : WalReader) (file : list byte) (start : WalPosition)
    : outcome (io (WalReader * (N * list byte))) :=
  r ← try_read self file start;
  match r with
  | IoErr => Ok IoErr
  | IoOk (self, Some entry) => Ok (IoOk (self, entry))
  | IoOk (_, None) => Panic
  end.

(** [cleanup]: the maps that no buffer refers to any more are dropped. *)
Definition wal_cleanup (in_use : N → bool) (self : WalReader) : WalReader * N :=
  let kept : gset N := filter (λ off, in_use off = true) (maps self) in
  (mkWalReader kept, N.of_nat (size kept)).

(** ** The iterator *)

Definition WalPosition_add (p len : N) : WalPosition := u64_add p len.
Definition next_start_offset (p : WalPosition) : WalPosition := u64_add (offset p) MAP_SIZE.
Definition first_in_map (p : WalPosition) : bool := p =? offset p.

Definition iter_until (w : WalWriter) : WalIterator := mkWalIterator (Some 0) (pos w).

Notation item := (WalPosition * (N * list byte))%type.

(** [try_position]: the iterator advances past the entry it finds. *)
Definition try_position (file : list byte) (r : WalReader) (it : WalIterator) (p : WalPosition)
    : outcome (WalReader * WalIterator * option item) :=
  if end_position it <=? p then Ok (r, it, None)
  else
    res ← try_read r file p;
    '(r, found) ← io_expect res;
    match found with
    | None => Ok (r, it, None)
    | Some (tag, data) =>
        Ok (r, mkWalIterator (Some (WalPosition_add p (byte_len data + HEADER_LEN_BYTES)))
                 (end_position it), Some (p, (tag, data)))
    end.

Definition iter_next (file : list byte) (r : WalReader) (it : WalIterator)
    : outcome (WalReader * WalIterator * option item) :=
  match position it with
  | None => Ok (r, it, None)
  | Some p =>
      let it := mkWalIterator None (end_position it) in
      '(r, it, found) ← try_position file r it p;
      match found with
      | Some i => Ok (r, it, Some i)
      | None => if first_in_map p then Ok (r, it, None)
                else try_position file r it (next_start_offset p)
      end
  end.

(** Running the iterator to its end. Every item moves it 16 bytes further, so the
    end position bounds the number of items. *)
Definition iterate_step (file : list byte) (st : WalReader * WalIterator * list item)
    : outcome (WalReader * WalIterator * list item + WalReader * list item) :=
  let '(r, it, acc) := st in
  '(r, it, found) ← iter_next file r it;
  match found with
  | Some i => Ok (inl (r, it, acc ++ [i]))
  | None => Ok (inr (r, acc))
  end.

Definition iterate_fuel (w : WalWriter) : N := pos w + 2.

Definition iterate (r : WalReader) (w : WalWriter) : outcome (WalReader * list item) :=
  loop (iterate_step (wal_file w)) (iterate_fuel w) (r, iter_until w, []).
End Wal.

(** ** Encodings *)

Lemma combine_header_ok crc len tag : crc < 2 ^ 64 → len < 2 ^ 32 → tag < 2 ^ 32 →
  ∃ h, combine_header crc len tag = Ok h ∧ h = crc + 2 ^ 64 * (len + 2 ^ 32 * tag) ∧ h < 2 ^ 128.
Proof.
  intros Hc Hl Ht. unfold combine_header, wrap128.
  rewrite (proj2 (N.leb_le len u32_max)) by (unfold u32_max; lia). simpl.
  eexists. split; [done|]. rewrite !N.shiftl_mul_pow2.
  assert (Hh : crc + len * 2 ^ 64 + tag * 2 ^ 96 < 2 ^ 128) by lia.
  change (64 + 32) with 96. rewrite N.mod_small by done. split; lia.
Qed.

Lemma split_header_sum crc len tag : crc < 2 ^ 64 → len < 2 ^ 32 → tag < 2 ^ 32 →
  split_header (crc + 2 ^ 64 * (len + 2 ^ 32 * tag)) = (crc, len, tag).
Proof.
  intros Hc Hl Ht. unfold split_header. rewrite !N.shiftr_div_pow2.
  change (N.shiftl 1 64 - 1) with (N.ones 64). change (N.shiftl 1 32 - 1) with (N.ones 32).
  rewrite !N.land_ones. change (2 ^ (64 + 32)) with (2 ^ 64 * 2 ^ 32).
  rewrite <- N.Div0.div_div.
  assert (Hq : (crc + 2 ^ 64 * (len + 2 ^ 32 * tag)) / 2 ^ 64 = len + 2 ^ 32 * tag).
  { symmetry. apply (N.div_unique _ _ _ crc); lia. }
  rewrite Hq. f_equal; [f_equal|].
  - symmetry. apply (N.mod_unique _ _ (len + 2 ^ 32 * tag)); lia.
  - symmetry. apply (N.mod_unique _ _ tag); lia.
  - replace ((len + 2 ^ 32 * tag) / 2 ^ 32) with tag
      by (apply (N.div_unique _ _ _ len); lia).
    by apply N.mod_small.
Qed.

(** ** The layout of a log *)

Section Layout.
Context (map_bits : N) (crc32 : list byte → N).
Context (Hbits : 5 ≤ map_bits ∧ map_bits < 32) (Hcrc : ∀ d, crc32 d < 2 ^ 32).

Notation M := (MAP_SIZE map_bits).
Notation offset := (offset map_bits).
Notation entry := (N * list byte)%type.

(** The bytes an entry takes in the file, after the padding. *)
Definition entry_len (e : entry) : N := HEADER_LEN_BYTES + byte_len e.2.

(** The zeros before an entry of [len] bytes at position [p]. *)
Definition padding (p len : N) : N :=
  if p mod M + len <=? M then 0 else M - p mod M.

Definition entry_bytes (e : entry) : list byte :=
  to_le_bytes 16 (crc32 e.2 + 2 ^ 64 * (entry_len e + 2 ^ 32 * e.1)) ++ e.2.

Fixpoint encode (p : N) (es : list entry) : list byte :=
  match es with
  | [] => []
  | e :: es =>
      let pad := padding p (entry_len e) in
      zeros pad ++ entry_bytes e ++ encode (p + pad + entry_len e) es
  end.

Fixpoint positions (p : N) (es : list entry) : list WalPosition :=
  match es with
  | [] => []
  | e :: es =>
      let q := p + padding p (entry_len e) in q :: positions (q + entry_len e) es
  end.

(** The padding before every entry is empty or holds at least a header. *)
Fixpoint gaps_okb (p : N) (es : list entry) : bool :=
  match es with
  | [] => true
  | e :: es =>
      let pad := padding p (entry_len e) in
      ((pad =? 0) || (HEADER_LEN_BYTES <=? pad)) && gaps_okb (p + pad + entry_len e) es
  end.

Definition fits (e : entry) : Prop := e.1 < 2 ^ 32 ∧ entry_len e ≤ M.

Record wal_rel (w : WalWriter) (es : list entry) : Prop := {
  wr_file : wal_file w = encode 0 es;
  wr_pos : pos w = byte_len (wal_file w);
  wr_fits : Forall fits es;
  wr_bound : pos w ≤ 2 ^ 63;
}.

Lemma M_bounds : 32 ≤ M ∧ M < 2 ^ 32.
Proof using Hbits.
  unfold MAP_SIZE. split.
  - change 32 with (2 ^ 5). apply N.pow_le_mono_r; lia.
  - apply N.pow_lt_mono_r; lia.
Qed.

Lemma offset_eq p : p < 2 ^ 64 → offset p = M * (p / M).
Proof using Hbits.
  intros Hp. unfold Wal.offset, MAP_MASK.
  assert (Hl : N.land p (N.lnot (N.ones map_bits) 64) = N.ldiff p (N.ones map_bits)).
  { symmetry. destruct (decide (p = 0)) as [->|Hp0].
    - by rewrite N.ldiff_0_l, N.land_0_l.
    - apply N.ldiff_land_low. apply N.log2_lt_pow2; lia. }
  rewrite Hl, N.ldiff_ones_r, N.shiftl_mul_pow2, N.shiftr_div_pow2. unfold MAP_SIZE. lia.
Qed.

Lemma offset_mod p : p < 2 ^ 64 → offset p + p mod M = p.
Proof using Hbits.
  intros Hp. rewrite offset_eq by done. pose proof (N.div_mod' p M). lia.
Qed.

Lemma sub_offset p : p < 2 ^ 64 → p - offset p = p mod M.
Proof using Hbits.
  intros Hp. rewrite <- (offset_mod p Hp) at 1. rewrite N.add_comm. apply N.add_sub.
Qed.

Lemma mod_M_lt p : p mod M < M.
Proof using Hbits. apply N.mod_lt. pose proof M_bounds. lia. Qed.

Lemma offset_bounds p : p < 2 ^ 64 → offset p ≤ p ∧ p < offset p + M.
Proof using Hbits.
  intros Hp. pose proof (offset_mod p Hp) as Hoff. pose proof (mod_M_lt p) as Hlt.
  revert Hoff Hlt. generalize (p mod M). intros; lia.
Qed.

(** Two positions of one map. *)
Lemma offset_same p x : p + x < 2 ^ 64 → p mod M + x < M → offset (p + x) = offset p.
Proof using Hbits.
  intros Hlt Hx. pose proof M_bounds. rewrite !offset_eq by lia. f_equal.
  symmetry. apply (N.div_unique _ _ _ (p mod M + x)); [done|].
  pose proof (N.div_mod' p M). lia.
Qed.

(** A position of the following map. *)
Lemma offset_next p x : p + x < 2 ^ 64 → x < M → M ≤ p mod M + x →
  offset (p + x) = p + (M - p mod M).
Proof using Hbits.
  intros Hlt Hx Hge. pose proof M_bounds. pose proof (mod_M_lt p).
  pose proof (N.div_mod' p M). rewrite offset_eq by done.
  rewrite <- (N.div_unique (p + x) M (p / M + 1) (p mod M + x - M)) by lia. lia.
Qed.

(** After the padding, the entry fits in its map. *)
Lemma padding_fits p len : 0 < len → len ≤ M →
  (p + padding p len) mod M + len ≤ M ∧
  (padding p len = 0 ∨
   0 < p mod M ∧ M < p mod M + len ∧ padding p len = M - p mod M ∧ (p + padding p len) mod M = 0).
Proof using Hbits.
  intros Hlen HM. unfold padding. pose proof (mod_M_lt p). pose proof (N.div_mod' p M).
  destruct (N.leb_spec (p mod M + len) M) as [Hle|Hgt].
  - rewrite N.add_0_r. auto.
  - assert ((p + (M - p mod M)) mod M = 0) as ->.
    { symmetry. apply (N.mod_unique _ _ (p / M + 1)); lia. }
    split; [lia|]. right. split_and!; lia.
Qed.

Lemma padding_le p len : padding p len ≤ M.
Proof using Hbits. unfold padding. destruct (_ <=? _); [apply N.le_0_l|apply N.le_sub_l]. Qed.

Lemma skip_map_ok p len : p ≤ 2 ^ 63 → 0 < len → len ≤ M →
  skip_map map_bits p len = Ok (p + padding p len, zeros (padding p len)).
Proof using Hbits.
  intros Hp Hlen HM. pose proof M_bounds. pose proof (mod_M_lt p).
  unfold skip_map.
  rewrite (u64_add_small p len), u64_sub_small by (rewrite ?u64_modulus_eq; lia).
  replace (p + len - 1) with (p + (len - 1)) by lia.
  destruct (padding_fits p len Hlen HM) as [Hfit [Hz|(Hpos0 & Hgt & Hpad & Hmod)]].
  - assert (p mod M + (len - 1) < M).
    { rewrite Hz, N.add_0_r in Hfit. lia. }
    rewrite offset_same by lia. rewrite N.eqb_refl. simpl. by rewrite Hz, N.add_0_r.
  - rewrite offset_next by lia.
    assert (offset p <> p + (M - p mod M)) as Hne.
    { pose proof (offset_mod p ltac:(lia)). lia. }
    rewrite (proj2 (N.eqb_neq _ _) Hne). simpl.
    rewrite u64_sub_small by (rewrite ?u64_modulus_eq; lia).
    replace (p + (M - p mod M) - p) with (padding p len) by lia.
    rewrite (proj2 (N.leb_le _ _) (padding_le p len)). simpl.
    rewrite (u64_add_small p (padding p len)) by (rewrite ?u64_modulus_eq; lia).
    set (q := p + padding p len) in *.
    assert (Hq : offset q = q) by (pose proof (offset_mod q ltac:(lia)); lia).
    rewrite (u64_add_small q len), u64_sub_small by (rewrite ?u64_modulus_eq; lia).
    replace (q + len - 1) with (q + (len - 1)) by lia.
    rewrite (offset_same q (len - 1)) by lia. rewrite Hq, N.eqb_refl. simpl. done.
Qed.

Lemma byte_len_entry e : byte_len (entry_bytes e) = entry_len e.
Proof.
  unfold entry_bytes, entry_len, HEADER_LEN_BYTES.
  rewrite byte_len_app. unfold byte_len at 1. by rewrite length_to_le_bytes.
Qed.

(** The end of the log. *)
Lemma byte_len_encode_cons p e es :
  byte_len (encode p (e :: es)) =
  padding p (entry_len e) + entry_len e + byte_len (encode (p + padding p (entry_len e) + entry_len e) es).
Proof. cbn [encode]. rewrite !byte_len_app, byte_len_zeros, byte_len_entry. lia. Qed.

Lemma encode_snoc es e : ∀ p,
  encode p (es ++ [e]) =
  encode p es ++ zeros (padding (p + byte_len (encode p es)) (entry_len e)) ++ entry_bytes e.
Proof.
  induction es as [|e' es IH]; intros p.
  - simpl. unfold byte_len at 1. simpl. by rewrite N.add_0_r, app_nil_r.
  - cbn [app encode]. rewrite IH, <- !app_assoc. do 2 f_equal.
    rewrite !byte_len_app, byte_len_zeros, byte_len_entry.
    rewrite !N.add_assoc. done.
Qed.

Lemma positions_snoc es e : ∀ p,
  positions p (es ++ [e]) =
  positions p es ++ [p + byte_len (encode p es) + padding (p + byte_len (encode p es)) (entry_len e)].
Proof.
  induction es as [|e' es IH]; intros p.
  - simpl. unfold byte_len at 1 2. simpl. by rewrite !N.add_0_r.
  - cbn [app positions]. rewrite IH. f_equal. f_equal.
    rewrite byte_len_encode_cons. f_equal. rewrite !N.add_assoc. done.
Qed.

Lemma positions_len es : ∀ p, length (positions p es) = length es.
Proof. induction es as [|e es IH]; intros p; simpl; auto. Qed.

Lemma wal_rel_nil : wal_rel (mkWalWriter [] 0) [].
Proof. by split. Qed.

(** The writer up to the system call. *)
Lemma writev_buffs os w es tag v :
  wal_rel w es → fits (tag, concat v) →
  let e := (tag, concat v) in
  let p := pos w + padding (pos w) (entry_len e) in
  writev map_bits crc32 os w tag v =
  match write_vectored os (wal_file w) (zeros (padding (pos w) (entry_len e)) ++ entry_bytes e) with
  | (file, IoErr) => Ok (mkWalWriter file p, IoErr)
  | (file, IoOk written) =>
      _ ← rust_assert (written =? padding (pos w) (entry_len e) + entry_len e);
      Ok (mkWalWriter file (p + entry_len e), IoOk p)
  end.
Proof using Hbits Hcrc.
  intros [Hfile Hpos Hfits Hb] [Ht Hlen] e p. cbn [fst] in Ht. pose proof M_bounds.
  assert (He : entry_len e = byte_len (concat v) + HEADER_LEN_BYTES) by (unfold entry_len, e; cbn [snd]; lia).
  fold e in Hlen. unfold writev. rewrite concat_len, <- He.
  rewrite (proj2 (N.leb_le _ _) Hlen). cbn [rust_assert mbind outcome_bind].
  rewrite skip_map_ok by (unfold entry_len, HEADER_LEN_BYTES in *; lia). cbn [mbind outcome_bind].
  destruct (combine_header_ok (crc32 (concat v)) (entry_len e) tag) as (h & -> & Hh & _);
    [pose proof (Hcrc (concat v)); lia|lia|done|]. cbn [mbind outcome_bind].
  assert (Hbytes : to_le_bytes 16 h ++ concat v = entry_bytes e) by (subst h; done).
  rewrite Hbytes, byte_len_zeros. pose proof (padding_le (pos w) (entry_len e)) as Hple.
  rewrite u64_add_small by (rewrite ?u64_modulus_eq; lia). done.
Qed.

Lemma wal_rel_snoc w es e : wal_rel w es → fits e →
  pos w + padding (pos w) (entry_len e) + entry_len e ≤ 2 ^ 63 →
  wal_rel (mkWalWriter (wal_file w ++ zeros (padding (pos w) (entry_len e)) ++ entry_bytes e)
             (pos w + padding (pos w) (entry_len e) + entry_len e)) (es ++ [e]).
Proof using Hbits.
  intros [Hfile Hpos Hfits Hb] He Hroom. split; cbn [wal_file pos].
  - rewrite encode_snoc, <- Hfile, N.add_0_l. by rewrite <- Hpos.
  - rewrite !byte_len_app, byte_len_zeros, byte_len_entry, <- Hpos. lia.
  - apply Forall_app. split; [done|]. constructor; [done|constructor].
  - done.
Qed.

Lemma take_byte_len (l : list byte) : take (N.to_nat (byte_len l)) l = l.
Proof. unfold byte_len. by rewrite Nat2N.id, take_ge. Qed.

(** A write that the system completes appends the entry to the log. *)
Lemma writev_spec os w es tag v :
  (∀ fl n, fl + n ≤ 2 ^ 63 → os fl n = IoOk n) → wal_rel w es → fits (tag, concat v) →
  pos w + 2 * M ≤ 2 ^ 63 →
  ∃ w', writev map_bits crc32 os w tag v =
          Ok (w', IoOk (pos w + padding (pos w) (entry_len (tag, concat v)))) ∧
        wal_rel w' (es ++ [(tag, concat v)]).
Proof using Hbits Hcrc.
  intros Hos Hw He Hroom. rewrite (writev_buffs os w es) by done. cbv zeta.
  set (e := (tag, concat v)) in *. pose proof (padding_le (pos w) (entry_len e)).
  pose proof (proj2 He) as Hlen. unfold write_vectored.
  rewrite Hos, byte_len_app, byte_len_zeros, byte_len_entry, N.eqb_refl
    by (rewrite byte_len_app, byte_len_zeros, byte_len_entry, <- (wr_pos _ _ Hw); lia).
  cbn [rust_assert mbind outcome_bind]. eexists. split; [done|].
  rewrite <- (byte_len_entry e) at 2.
  rewrite <- (byte_len_zeros (padding (pos w) (entry_len e))) at 1.
  rewrite <- byte_len_app, take_byte_len. apply wal_rel_snoc; [done|done|lia].
Qed.

(** Whatever the system does, a write that returns a position has appended the
    entry: the writer refuses entries that do not fit and incomplete writes. *)
Lemma writev_inv os w es tag v w' p :
  (∀ fl n m, os fl n = IoOk m → m ≤ n ∧ fl + m ≤ 2 ^ 63) → wal_rel w es → tag < 2 ^ 32 →
  writev map_bits crc32 os w tag v = Ok (w', IoOk p) →
  p = pos w + padding (pos w) (entry_len (tag, concat v)) ∧ wal_rel w' (es ++ [(tag, concat v)]).
Proof using Hbits Hcrc.
  intros Hos Hw Ht Hwrite. set (e := (tag, concat v)).
  assert (He : fits e).
  { split; [done|]. unfold writev in Hwrite. rewrite concat_len in Hwrite.
    apply bind_ok in Hwrite as (? & Hassert & _). apply rust_assert_ok, N.leb_le in Hassert.
    unfold entry_len, e. cbn [snd]. lia. }
  rewrite (writev_buffs os w es) in Hwrite by done. cbv zeta in Hwrite. fold e in Hwrite.
  unfold write_vectored in Hwrite.
  rewrite byte_len_app, byte_len_zeros, byte_len_entry in Hwrite.
  destruct (os _ _) as [m|] eqn:Hm; [|done].
  apply bind_ok in Hwrite as (? & Hassert & Hwrite).
  apply rust_assert_ok, N.eqb_eq in Hassert as ->. apply Hos in Hm as [_ Hroom].
  rewrite <- (wr_pos _ _ Hw) in Hroom. injection Hwrite as <- <-. split; [done|].
  rewrite <- (byte_len_entry e) at 2.
  rewrite <- (byte_len_zeros (padding (pos w) (entry_len e))) at 1.
  rewrite <- byte_len_app, take_byte_len. apply wal_rel_snoc; [done|done|lia].
Qed.

(** ** Reading *)

Section Reader.
Context (mmap_ok : N → bool) (page_size : N).
Context (Hmmap : ∀ off, mmap_ok off = true) (Hpage : 0 < page_size).

Notation try_read := (try_read map_bits crc32 mmap_ok page_size).
Notation try_position := (try_position map_bits crc32 mmap_ok page_size).
Notation iter_next := (iter_next map_bits crc32 mmap_ok page_size).
Notation iterate := (iterate map_bits crc32 mmap_ok page_size).

Lemma mapped_len_ge file : byte_len file ≤ mapped_len page_size file.
Proof using Hpage.
  clear Hbits Hcrc Hmmap. unfold mapped_len.
  pose proof (N.div_mod' (byte_len file + page_size - 1) page_size).
  pose proof (N.mod_lt (byte_len file + page_size - 1) page_size). lia.
Qed.

Lemma mapped_bytes_at file pre l post start len :
  file = pre ++ l ++ post → byte_len pre = start → byte_len l = len →
  mapped_bytes page_size file start len = Ok l.
Proof using Hpage.
  clear Hbits Hcrc Hmmap. intros -> <- <-. unfold mapped_bytes.
  pose proof (mapped_len_ge (pre ++ l ++ post)) as Hle. rewrite !byte_len_app in Hle.
  rewrite (proj2 (N.leb_le _ _)) by lia. cbn [rust_assert mbind outcome_bind].
  unfold byte_len. rewrite !Nat2N.id. rewrite drop_app_length, <- app_assoc, take_app_length. done.
Qed.

Lemma map_offset_ok r off : ∃ r', map_offset mmap_ok r off = IoOk r'.
Proof using Hmmap. unfold map_offset. case_bool_decide; [eauto|]. rewrite Hmmap. eauto. Qed.

(** Where an entry lies, the reader finds it. *)
Lemma try_read_entry r pre e post p :
  fits e → byte_len pre = p → p < 2 ^ 63 → p mod M + entry_len e ≤ M →
  ∃ r', try_read r (pre ++ entry_bytes e ++ post) p = Ok (IoOk (r', Some e)).
Proof using Hbits Hcrc Hmmap Hpage.
  intros [Ht Hlen] Hpre Hp Hfit. pose proof M_bounds.
  assert (Hge : HEADER_LEN_BYTES ≤ entry_len e) by (unfold entry_len; lia).
  unfold Wal.try_read. destruct (map_offset_ok r (offset p)) as [r' ->]. exists r'.
  unfold read_header. rewrite (sub_offset p) by lia.
  rewrite (proj2 (N.leb_le (p mod M + HEADER_LEN_BYTES) _)) by lia.
  cbn [rust_assert mbind outcome_bind].
  assert (Hh : byte_len (to_le_bytes 16 (crc32 e.2 + 2 ^ 64 * (entry_len e + 2 ^ 32 * e.1)))
                = HEADER_LEN_BYTES) by (unfold byte_len; by rewrite length_to_le_bytes).
  erewrite (mapped_bytes_at _ pre _ (e.2 ++ post));
    [|unfold entry_bytes; by rewrite <- app_assoc|done|exact Hh].
  cbn [mbind outcome_bind]. pose proof (Hcrc e.2).
  rewrite from_to_le_bytes, split_header_sum by (cbn; lia).
  rewrite (proj2 (N.eqb_neq (entry_len e) 0)) by (unfold HEADER_LEN_BYTES in *; lia).
  rewrite (proj2 (N.leb_le HEADER_LEN_BYTES _) Hge), (proj2 (N.leb_le _ _) Hfit).
  cbn [andb rust_assert mbind outcome_bind].
  erewrite (mapped_bytes_at _ (pre ++ to_le_bytes 16 _) e.2 post).
  - cbn [mbind outcome_bind]. rewrite N.eqb_refl. cbn [rust_assert mbind outcome_bind]. by destruct e.
  - unfold entry_bytes. by rewrite <- !app_assoc.
  - rewrite byte_len_app, Hpre, Hh. done.
  - unfold entry_len. lia.
Qed.

(** In a padding that holds a header, it finds nothing. *)
Lemma try_read_padding r pre pad post p :
  byte_len pre = p → p < 2 ^ 63 → HEADER_LEN_BYTES ≤ pad → p mod M + pad ≤ M →
  ∃ r', try_read r (pre ++ zeros pad ++ post) p = Ok (IoOk (r', None)).
Proof using Hbits Hcrc Hmmap Hpage.
  intros Hpre Hp Hpad Hfit. pose proof M_bounds. unfold Wal.try_read.
  destruct (map_offset_ok r (offset p)) as [r' ->]. exists r'.
  unfold read_header. rewrite (sub_offset p) by lia.
  rewrite (proj2 (N.leb_le (p mod M + HEADER_LEN_BYTES) _)) by lia.
  cbn [rust_assert mbind outcome_bind].
  rewrite (mapped_bytes_at _ pre (zeros HEADER_LEN_BYTES) (zeros (pad - HEADER_LEN_BYTES) ++ post));
    [|f_equal; rewrite app_assoc; f_equal; unfold zeros; rewrite <- replicate_add; f_equal; lia
     |done|by rewrite byte_len_zeros].
  cbn [mbind outcome_bind]. unfold zeros. by rewrite from_le_bytes_zeros.
Qed.

(** With less than a header left of the map, it panics. *)
Lemma try_read_short r file p : p < 2 ^ 63 → M < p mod M + HEADER_LEN_BYTES →
  try_read r file p = Panic.
Proof using Hbits Hcrc Hmmap Hpage.
  intros Hp Hshort. unfold Wal.try_read. destruct (map_offset_ok r (offset p)) as [r' ->].
  unfold read_header.
  rewrite (sub_offset p) by lia.
  by rewrite (proj2 (N.leb_gt (p mod M + HEADER_LEN_BYTES) _)).
Qed.

(** Every entry of the log is found at its position. *)
Lemma try_read_position r es : ∀ pre p i q e,
  Forall fits es → byte_len pre = p → p + byte_len (encode p es) ≤ 2 ^ 63 →
  positions p es !! i = Some q → es !! i = Some e →
  ∃ r', try_read r (pre ++ encode p es) q = Ok (IoOk (r', Some e)).
Proof using Hbits Hcrc Hmmap Hpage.
  induction es as [|e0 es IH]; intros pre p i q e Hfits Hpre Hend Hq He; [done|].
  apply Forall_cons in Hfits as [Hfit Hfits]. rewrite byte_len_encode_cons in Hend.
  destruct i as [|i]; simpl in Hq, He.
  - injection Hq as <-. injection He as <-. cbn [encode]. rewrite app_assoc.
    destruct (padding_fits p (entry_len e0)) as [Hroom _];
      [unfold entry_len, HEADER_LEN_BYTES; lia|apply Hfit|].
    assert (0 < entry_len e0) by (unfold entry_len, HEADER_LEN_BYTES; lia).
    apply try_read_entry; [done| |lia|done].
    by rewrite byte_len_app, byte_len_zeros, Hpre.
  - cbn [encode]. rewrite !app_assoc, <- (app_assoc pre).
    apply (IH _ _ i); [done| |lia|done|done].
    rewrite !byte_len_app, byte_len_zeros, byte_len_entry. lia.
Qed.

(** ** Replaying *)

Notation item := (WalPosition * (N * list byte))%type.
Definition items (p : N) (es : list entry) : list item := zip (positions p es) es.

(** One call of [next] in front of the entries [es]. *)
Lemma iter_next_cons r pre e es p fin :
  fits e → byte_len pre = p → p + byte_len (encode p (e :: es)) = fin → fin ≤ 2 ^ 63 →
  let pad := padding p (entry_len e) in
  if (pad =? 0) || (HEADER_LEN_BYTES <=? pad) then
    ∃ r', iter_next (pre ++ encode p (e :: es)) r (mkWalIterator (Some p) fin) =
      Ok (r', mkWalIterator (Some (p + pad + entry_len e)) fin, Some (p + pad, e))
  else iter_next (pre ++ encode p (e :: es)) r (mkWalIterator (Some p) fin) = Panic.
Proof using Hbits Hcrc Hmmap Hpage.
  intros Hfit Hpre Hfin Hb pad. rewrite byte_len_encode_cons in Hfin. fold pad in Hfin.
  pose proof M_bounds. assert (Hpos : 0 < entry_len e) by (unfold entry_len, HEADER_LEN_BYTES; lia).
  destruct (padding_fits p (entry_len e) Hpos (proj2 Hfit)) as [Hroom Hcase]. fold pad in Hroom, Hcase.
  assert (Hfound : ∀ r it, end_position it = fin → ∃ r',
    try_position (pre ++ encode p (e :: es)) r it (p + pad) =
    Ok (r', mkWalIterator (Some (p + pad + entry_len e)) fin, Some (p + pad, e))).
  { intros r0 it Hit. unfold Wal.try_position. rewrite Hit.
    rewrite (proj2 (N.leb_gt fin (p + pad))) by lia. cbn [encode]. fold pad. rewrite app_assoc.
    destruct (try_read_entry r0 (pre ++ zeros pad) e
                (encode (p + pad + entry_len e) es) (p + pad)) as [r' ->];
      [done|by rewrite byte_len_app, byte_len_zeros, Hpre|lia|done|].
    exists r'. cbn [mbind outcome_bind io_expect]. destruct e as [tag data].
    unfold WalPosition_add. rewrite u64_add_small;
      [|unfold entry_len in *; cbn [snd] in *; rewrite u64_modulus_eq; lia].
    unfold entry_len. cbn [snd]. by rewrite (N.add_comm (byte_len data)). }
  unfold Wal.iter_next. cbn [position end_position].
  destruct Hcase as [Hz|(Hne & _ & Hpad & Hmod)].
  - rewrite Hz in *. rewrite N.add_0_r in *. cbn [N.eqb orb].
    destruct (Hfound r (mkWalIterator None fin) eq_refl) as [r' ->]. by exists r'.
  - pose proof (mod_M_lt p). rewrite (proj2 (N.eqb_neq pad 0)) by lia. cbn [orb].
    destruct (N.leb_spec HEADER_LEN_BYTES pad) as [Hge|Hlt];
      unfold Wal.try_position at 2; cbn [end_position];
      rewrite (proj2 (N.leb_gt fin p)) by lia.
    + destruct (try_read_padding r pre pad (entry_bytes e ++ encode (p + pad + entry_len e) es) p)
        as [r' Hr]; [done|lia|done|lia|].
      cbn [encode]. fold pad. rewrite Hr. cbn [mbind outcome_bind io_expect].
      pose proof (offset_mod p ltac:(lia)) as Hoff.
      unfold first_in_map. rewrite (proj2 (N.eqb_neq p (offset p))) by lia.
      unfold next_start_offset. rewrite u64_add_small by (rewrite ?u64_modulus_eq; lia).
      replace (offset p + M) with (p + pad) by lia.
      apply (Hfound r' (mkWalIterator None fin) eq_refl).
    + rewrite (try_read_short r _ p) by lia. done.
Qed.

(** At the end of the log, [next] returns nothing. *)
Lemma iter_next_end r file fin : fin ≤ 2 ^ 63 →
  iter_next file r (mkWalIterator (Some fin) fin) = Ok (r, mkWalIterator None fin, None).
Proof using Hbits Hcrc Hmmap Hpage.
  intros Hb. unfold Wal.iter_next, Wal.try_position. cbn [position end_position].
  rewrite N.leb_refl. cbn [mbind outcome_bind].
  destruct (first_in_map map_bits fin); [done|].
  pose proof M_bounds. pose proof (offset_bounds fin ltac:(lia)).
  unfold next_start_offset. rewrite u64_add_small by (rewrite ?u64_modulus_eq; lia).
  by rewrite (proj2 (N.leb_le fin _)) by lia.
Qed.

(** The replay of a log returns its entries in order with their positions, unless
    some padding is too short to hold a header. *)
Definition replays (es : list entry) (res : outcome (WalReader * list item)) : Prop :=
  match res with
  | Ok (_, l) => gaps_okb 0 es = true ∧ l = items 0 es
  | Panic => gaps_okb 0 es = false
  | OutOfFuel => False
  end.

Lemma iterate_spec r w es : wal_rel w es → replays es (iterate r w).
Proof using Hbits Hcrc Hmmap Hpage.
  intros [Hfile Hpos Hfits Hb]. unfold Wal.iterate.
  apply (loop_rule _ (λ st, let '(_, it, acc) := st in
      ∃ pre p rest, it = mkWalIterator (Some p) (pos w) ∧ wal_file w = pre ++ encode p rest ∧
        byte_len pre = p ∧ Forall fits rest ∧ items 0 es = acc ++ items p rest ∧
        gaps_okb 0 es = gaps_okb p rest)
      (replays es) (λ st, pos w - default 0 (position st.1.2))).
  - intros [[r0 it] acc] (pre & p & rest & -> & Hf & Hpre & Hfit & Hitems & Hgaps).
    assert (Hfin : p + byte_len (encode p rest) = pos w).
    { rewrite Hpos, Hf, byte_len_app. lia. }
    unfold iterate_step. rewrite Hf. destruct rest as [|e rest].
    + assert (p = pos w) as -> by (unfold byte_len in Hfin; simpl in Hfin; lia).
      rewrite iter_next_end by done. cbn [mbind outcome_bind replays].
      by rewrite Hitems, app_nil_r.
    + apply Forall_cons in Hfit as [He Hfit].
      pose proof (iter_next_cons r0 pre e rest p (pos w) He Hpre Hfin Hb) as Hnext.
      cbn zeta in Hnext. cbn [gaps_okb] in Hgaps.
      destruct (_ || _).
      * destruct Hnext as [r' ->]. cbn [mbind outcome_bind]. rewrite byte_len_encode_cons in Hfin.
        assert (0 < entry_len e) by (unfold entry_len, HEADER_LEN_BYTES; lia).
        split; [|cbn; lia].
        exists (pre ++ zeros (padding p (entry_len e)) ++ entry_bytes e).
        eexists _, rest. split; [done|]. split_and!.
        -- cbn [encode]. by rewrite <- !app_assoc.
        -- rewrite !byte_len_app, byte_len_zeros, byte_len_entry. lia.
        -- done.
        -- rewrite Hitems, <- app_assoc. done.
        -- rewrite Hgaps. done.
      * rewrite Hnext. cbn [mbind outcome_bind replays]. by rewrite Hgaps.
  - exists [], 0, es. split_and!; try done.
  - unfold iterate_fuel. cbn. lia.
Qed.

(** ** Termination on any file *)

Lemma mapped_bytes_len file start len l :
  mapped_bytes page_size file start len = Ok l → byte_len l = len.
Proof using page_size.
  clear Hbits Hcrc Hmmap Hpage. unfold mapped_bytes. intros (? & _ & Hl)%bind_ok. injection Hl as <-.
  unfold byte_len, zeros. rewrite length_take, length_app, length_replicate. lia.
Qed.

(** An entry that is found moves the iterator past its position. *)
Lemma try_position_found file r it p r' it' q e :
  try_position file r it p = Ok (r', it', Some (q, e)) → end_position it ≤ 2 ^ 63 →
  p < end_position it ∧ end_position it' = end_position it ∧
  ∃ p', position it' = Some p' ∧ p + HEADER_LEN_BYTES ≤ p' ∧ p' < 2 ^ 63 + 2 ^ 33.
Proof using map_bits crc32 mmap_ok page_size.
  clear Hbits Hcrc Hmmap Hpage. intros Hfound Hb. unfold Wal.try_position in Hfound.
  destruct (N.leb_spec (end_position it) p) as [|Hlt]; [done|].
  apply bind_ok in Hfound as (res & Hread & Hfound).
  apply bind_ok in Hfound as ([r1 found] & Hres & Hfound).
  destruct res as [[r2 found2]|]; [|done]. injection Hres as -> ->.
  destruct found as [[tag data]|]; [|done]. injection Hfound as <- <- <- <-.
  split; [done|]. split; [done|]. eexists. split; [done|].
  unfold WalPosition_add.
  assert (Hlen : byte_len data < 2 ^ 32).
  { unfold Wal.try_read in Hread. destruct (map_offset _ _ _) as [r3|]; [|done].
    apply bind_ok in Hread as ([[crc len] tag'] & Hh & Hread).
    unfold read_header in Hh. apply bind_ok in Hh as (? & _ & Hh).
    apply bind_ok in Hh as (header & _ & Hh). injection Hh as _ Hl _.
    assert (len < 2 ^ 32).
    { rewrite <- Hl. change (N.shiftl 1 32 - 1) with (N.ones 32). rewrite N.land_ones.
      by apply N.mod_lt. }
    destruct (len =? 0); [by destruct (crc =? 0)|].
    apply bind_ok in Hread as (? & _ & Hread). apply bind_ok in Hread as (d & Hd & Hread).
    apply bind_ok in Hread as (? & _ & Hread). injection Hread as _ _ ->.
    apply mapped_bytes_len in Hd. lia. }
  rewrite u64_add_small by (rewrite u64_modulus_eq; unfold HEADER_LEN_BYTES; lia).
  unfold HEADER_LEN_BYTES in *. lia.
Qed.

Lemma try_read_fuel r file p : try_read r file p ≠ OutOfFuel.
Proof using map_bits crc32 mmap_ok page_size.
  clear Hbits Hcrc Hmmap Hpage. unfold Wal.try_read, read_header, mapped_bytes.
  destruct (map_offset _ _ _); [|done]. apply bind_fuel.
  { repeat (apply bind_fuel; [|intros ?]); auto using rust_assert_fuel. }
  intros [[crc len] tag]. destruct (len =? 0); [by destruct (crc =? 0)|].
  repeat (apply bind_fuel; [|intros ?]); auto using rust_assert_fuel.
Qed.

Lemma try_position_fuel file r it p : try_position file r it p ≠ OutOfFuel.
Proof using map_bits crc32 mmap_ok page_size.
  unfold Wal.try_position. destruct (_ <=? _); [done|].
  apply bind_fuel; [apply try_read_fuel|]. intros res.
  apply bind_fuel; [by destruct res|]. by intros [? [[??]|]].
Qed.

Lemma iter_next_fuel file r it : iter_next file r it ≠ OutOfFuel.
Proof using map_bits crc32 mmap_ok page_size.
  unfold Wal.iter_next. destruct (position it) as [p|]; [|done].
  apply bind_fuel; [apply try_position_fuel|]. intros [[r1 it1] [i|]]; [done|].
  destruct (first_in_map _ _); [done|]. apply try_position_fuel.
Qed.

(** What one call of [next] does to the iterator. *)
Lemma iter_next_found file r it r' it' i p :
  iter_next file r it = Ok (r', it', Some i) → end_position it ≤ 2 ^ 63 →
  position it = Some p → p < 2 ^ 63 + 2 ^ 33 →
  p < end_position it ∧ end_position it' = end_position it ∧
  ∃ p', position it' = Some p' ∧ p + HEADER_LEN_BYTES ≤ p' ∧ p' < 2 ^ 63 + 2 ^ 33.
Proof using Hbits.
  clear Hcrc Hmmap Hpage. intros Hnext Hb Hp Hpb. unfold Wal.iter_next in Hnext. rewrite Hp in Hnext.
  apply bind_ok in Hnext as ([[r1 it1] found] & Hfirst & Hnext). destruct i as [q e].
  destruct found as [[q1 e1]|].
  - injection Hnext as <- <- <- <-. by apply try_position_found in Hfirst.
  - assert (end_position it1 = end_position it) as Hend.
    { unfold Wal.try_position in Hfirst. cbn [end_position] in Hfirst.
      destruct (_ <=? _); [by injection Hfirst as _ <-|].
      apply bind_ok in Hfirst as (res & _ & Hfirst).
      apply bind_ok in Hfirst as ([r2 found] & _ & Hfirst).
      destruct found as [[??]|]; [done|]. by injection Hfirst as _ <-. }
    destruct (first_in_map _ _); [done|].
    apply try_position_found in Hnext as (Hlt & Hend' & p' & Hp' & Hle & Hb'); [|by rewrite Hend].
    pose proof M_bounds. pose proof (offset_bounds p ltac:(lia)).
    unfold next_start_offset in Hlt, Hle. rewrite Hend in *.
    rewrite u64_add_small in Hlt, Hle by (rewrite u64_modulus_eq; lia).
    split; [lia|]. split; [done|]. exists p'. split_and!; [done|lia|done].
Qed.

Lemma iterate_total r w : pos w ≤ 2 ^ 63 → iterate r w ≠ OutOfFuel.
Proof using Hbits.
  clear Hcrc Hmmap Hpage. intros Hb. unfold Wal.iterate.
  apply (loop_rule _ (λ st, end_position st.1.2 = pos w ∧
           ∃ p, position st.1.2 = Some p ∧ p < 2 ^ 63 + 2 ^ 33)
           (λ res, res ≠ OutOfFuel) (λ st, pos w + 1 - default 0 (position st.1.2))).
  - intros [[r0 it] acc] [Hend (p & Hp & Hpb)]. cbn [fst snd] in *.
    unfold iterate_step.
    destruct (iter_next (wal_file w) r0 it) as [[[r1 it1] [i|]]| |] eqn:Hnext;
      cbn [mbind outcome_bind]; try done.
    + apply (iter_next_found _ _ _ _ _ _ p) in Hnext as (Hlt & Hend' & p' & Hp' & Hle & Hb');
        [|by rewrite Hend|done|done].
      cbn [fst snd]. rewrite Hp, Hp', Hend'. unfold HEADER_LEN_BYTES in *. simpl.
      split; [split; [done|]; eauto|]. lia.
    + (* no call of the iterator runs out of fuel *) revert Hnext. apply iter_next_fuel.
  - split; [done|]. exists 0. split; [done|]. lia.
  - unfold iterate_fuel. cbn. lia.
Qed.
End Reader.
End Layout.

(** ** The log promises what it stores *)

Lemma constants_ok : assert_constants production_map_bits = Ok tt ∧ assert_constants test_map_bits = Ok tt.
Proof. by split; vm_compute. Qed.

(** C17: Round trip of the write-ahead log: in a log that holds the entries [es],
    a write that the system completes returns the position of a new entry; after
    it [read] returns, at the position of every entry, the tag and the bytes it was
    written with, for the new entry and for every older one alike. *)
Theorem wal_read_after_write map_bits crc32 mmap_ok page_size os w es tag v r i q e :
  5 ≤ map_bits ∧ map_bits < 32 → (∀ d, crc32 d < 2 ^ 32) → (∀ off, mmap_ok off = true) →
  0 < page_size → (∀ fl n, fl + n ≤ 2 ^ 63 → os fl n = IoOk n) →
  wal_rel map_bits crc32 w es → fits map_bits (tag, concat v) →
  pos w + 2 * MAP_SIZE map_bits ≤ 2 ^ 63 →
  positions map_bits 0 (es ++ [(tag, concat v)]) !! i = Some q →
  (es ++ [(tag, concat v)]) !! i = Some e →
  ∃ w' p r', writev map_bits crc32 os w tag v = Ok (w', IoOk p) ∧
    last (positions map_bits 0 (es ++ [(tag, concat v)])) = Some p ∧
    wal_rel map_bits crc32 w' (es ++ [(tag, concat v)]) ∧
    read map_bits crc32 mmap_ok page_size r (wal_file w') q = Ok (IoOk (r', e)).
Proof.
  intros Hbits Hcrc Hmmap Hpage Hos Hw Hfits Hroom Hq He.
  destruct (writev_spec _ _ Hbits Hcrc os w es tag v Hos Hw Hfits Hroom) as (w' & Hwrite & Hw').
  destruct (try_read_position _ _ Hbits Hcrc _ _ Hmmap Hpage r (es ++ [(tag, concat v)]) [] 0 i q e)
    as [r' Hread]; [apply Hw'|done| |done|done|].
  { destruct Hw' as [Hfile Hpos _ Hb]. rewrite <- Hfile, <- Hpos. lia. }
  eexists w', _, r'. split; [done|]. split; [|split; [done|]].
  - rewrite (positions_snoc map_bits crc32), last_snoc by done. destruct Hw as [Hfile Hpos _ _]. rewrite <- Hfile, <- Hpos.
    by rewrite N.add_0_l.
  - unfold read. rewrite (wr_file _ _ _ _ Hw'). cbn [app] in Hread. by rewrite Hread.
Qed.

(** A checksum for the examples. *)
Definition sample_crc (d : list byte) : N := byte_len d mod 2 ^ 32.

Lemma sample_crc_lt d : sample_crc d < 2 ^ 32.
Proof. by apply N.mod_lt. Qed.

(** A system with files of at most 2^63 bytes. *)
Definition sample_os (file_len n : N) : io N := if file_len + n <=? 2 ^ 63 then IoOk n else IoErr.

Lemma sample_os_writes file_len n : file_len + n ≤ 2 ^ 63 → sample_os file_len n = IoOk n.
Proof. intros Hle. unfold sample_os. by rewrite (proj2 (N.leb_le _ _) Hle). Qed.

Lemma wal_read_after_write_witness :
  ∃ w' p r',
    writev test_map_bits sample_crc sample_os (mkWalWriter [] 0) 5 [[x01; x02]; [x03]] = Ok (w', IoOk p) ∧
    last (positions test_map_bits 0 ([] ++ [(5, [x01; x02; x03])])) = Some p ∧
    wal_rel test_map_bits sample_crc w' ([] ++ [(5, [x01; x02; x03])]) ∧
    read test_map_bits sample_crc (λ _, true) 4096 (mkWalReader ∅) (wal_file w') 0 =
      Ok (IoOk (r', (5, [x01; x02; x03]))).
Proof.
  apply (wal_read_after_write test_map_bits sample_crc (λ _, true) 4096 sample_os (mkWalWriter [] 0) [] 5
           [[x01; x02]; [x03]] (mkWalReader ∅) 0 0 (5, [x01; x02; x03])); try done.
  - apply sample_crc_lt.
  - apply sample_os_writes.
Defined.

(** C18: Replay of the write-ahead log: iterating over a log that holds the entries
    [es] ends and returns exactly these entries, in order and with their positions,
    when the zeros in front of every entry are none or at least the 16 bytes of a
    header; when some gap is shorter, the iterator panics on it. *)
Theorem wal_replay_exact map_bits crc32 mmap_ok page_size r w es :
  5 ≤ map_bits ∧ map_bits < 32 → (∀ d, crc32 d < 2 ^ 32) → (∀ off, mmap_ok off = true) →
  0 < page_size → wal_rel map_bits crc32 w es →
  snd <$> iterate map_bits crc32 mmap_ok page_size r w =
    if gaps_okb map_bits 0 es then Ok (zip (positions map_bits 0 es) es) else Panic.
Proof.
  intros Hbits Hcrc Hmmap Hpage Hw.
  pose proof (iterate_spec _ _ Hbits Hcrc _ _ Hmmap Hpage r w es Hw) as Hres.
  destruct (iterate _ _ _ _ _ _) as [[r' l]| |]; simpl in *; [|by rewrite Hres|done].
  by destruct Hres as [-> ->].
Qed.

(** In the production configuration, an entry that leaves eight bytes of its map
    makes a gap that is too short. *)
Lemma production_short_gap tag d e : byte_len d = MAX_ENTRY_SIZE production_map_bits - 8 →
  gaps_okb production_map_bits 0 [(tag, d); e] = false.
Proof.
  intros Hd. assert (Hlen : entry_len (tag, d) = 268435448).
  { unfold entry_len. cbn [snd]. rewrite Hd. by vm_compute. }
  cbn [gaps_okb]. rewrite Hlen.
  replace (padding production_map_bits 0 268435448) with 0 by (by vm_compute).
  assert (He : 16 ≤ entry_len e) by (unfold entry_len, HEADER_LEN_BYTES; lia).
  unfold padding at 1 2. replace ((0 + 0 + 268435448) mod MAP_SIZE production_map_bits) with 268435448
    by (by vm_compute). replace (MAP_SIZE production_map_bits) with 268435456 by (by vm_compute).
  rewrite (proj2 (N.leb_gt (268435448 + entry_len e) 268435456)) by lia. done.
Qed.

(** Two entries, the first of which leaves eight bytes of a map of 64. *)
Definition short_gap_log : list (N * list byte) := [(1, replicate 40 x07); (2, [x01])].
Definition short_gap_file : WalWriter :=
  let file := encode 6 sample_crc 0 short_gap_log in mkWalWriter file (byte_len file).

Lemma short_gap_rel : wal_rel 6 sample_crc short_gap_file short_gap_log.
Proof. split; [done|done| |by vm_compute]. repeat constructor; by vm_compute. Qed.

Lemma wal_replay_exact_witness :
  snd <$> iterate 6 sample_crc (λ _, true) 4096 (mkWalReader ∅) short_gap_file = Panic ∧
  gaps_okb 6 0 short_gap_log = false.
Proof.
  split; [|done].
  refine (wal_replay_exact 6 sample_crc (λ _, true) 4096 (mkWalReader ∅) short_gap_file
            short_gap_log _ sample_crc_lt _ _ short_gap_rel); done.
Defined.

(** C30: Termination of the replay: whatever bytes the file holds, a corrupted log
    included, the iterator over it comes to an end (with a result or a panic)
    within as many calls as the file has bytes. *)
Theorem wal_iterate_terminates map_bits crc32 mmap_ok page_size r w :
  5 ≤ map_bits ∧ map_bits < 32 → pos w ≤ 2 ^ 63 →
  iterate map_bits crc32 mmap_ok page_size r w ≠ OutOfFuel.
Proof. intros Hbits Hb. by apply iterate_total. Qed.

Lemma wal_iterate_terminates_witness :
  iterate test_map_bits sample_crc (λ _, true) 4096 (mkWalReader ∅)
    (mkWalWriter (replicate 40 x11) 40) ≠ OutOfFuel.
Proof. by apply wal_iterate_terminates. Defined.
