(* ===== verification/WalLog.v ===== *)
(** * WalLog: what the log promises to its clients

    The core and the block store are written against the operations [WalOps] and
    proved against [WalLaws]: a log stands for the sequence of items written to
    it. The writer and the reader of Wal.v are an instance. *)

From S2P Require Import Prelude Bytes Types BlockStore Wal.
From Stdlib Require Import Strings.Byte.

Notation wal_item := (WalPosition * (N * list byte))%type.

Class WalOps (Wal : Type) := {
  (** [WalWriter::write(..).expect(..)] *)
  log_write : Wal → N → list byte → outcome (Wal * WalPosition);
  (** [WalReader::read]; [None] is an error or a panic *)
  log_read : Wal → WalPosition → option (N * list byte);
  (** the items of [WalReader::iter_until(&writer)] *)
  log_iterate : Wal → outcome (list wal_item);
  (** whether [WalWriter::sync] succeeds *)
  log_sync : Wal → bool;
  (** [MAX_ENTRY_SIZE] *)
  log_max_entry_size : N;
}.

(** The positions of a log increase and stay below [WalPosition::MAX]. *)
Definition increasing (l : list wal_item) : Prop :=
  StronglySorted (λ x y, x.1 < y.1) l ∧ Forall (λ x, x.1 < u64_max) l.

Class WalLaws (Wal : Type) `{WalOps Wal} := {
  log_rel : Wal → list wal_item → Prop;
  log_write_spec : ∀ (w : Wal) l t b w' p, t < 2 ^ 32 → log_rel w l →
    log_write w t b = Ok (w', p) → log_rel w' (l ++ [(p, (t, b))]);
  log_increasing : ∀ (w : Wal) l, log_rel w l → increasing l;
  log_read_spec : ∀ (w : Wal) l p e, log_rel w l → (p, e) ∈ l → log_read w p = Some e;
  log_iterate_spec : ∀ (w : Wal) l l', log_rel w l → log_iterate w = Ok l' → l' = l;
}.

(** ** The positions of the layout *)

Section Positions.
Context (map_bits : N) (Hbits : 5 ≤ map_bits ∧ map_bits < 32).

Lemma items_bounds crc32 es : ∀ p,
  Forall (λ x, p ≤ x.1 ∧ x.1 < p + byte_len (encode map_bits crc32 p es)) (items map_bits p es).
Proof using Hbits.
  induction es as [|e es IH]; intros p; cbn [items positions zip zip_with]; [constructor|].
  assert (0 < entry_len e) by (unfold entry_len, HEADER_LEN_BYTES; lia).
  rewrite (byte_len_encode_cons map_bits crc32 Hbits). constructor; cbn [fst]; [lia|].
  eapply Forall_impl; [apply IH|]. cbn. intros x ?. lia.
Qed.

Lemma items_sorted (crc32 : list byte → N) es : ∀ p,
  StronglySorted (λ x y, x.1 < y.1) (items map_bits p es).
Proof using Hbits.
  induction es as [|e es IH]; intros p; cbn [items positions zip zip_with]; constructor; [apply IH|].
  assert (0 < entry_len e) by (unfold entry_len, HEADER_LEN_BYTES; lia).
  eapply Forall_impl; [apply (items_bounds crc32)|]. cbn. intros x ?. lia.
Qed.
End Positions.

(** ** The instance *)

Section Instance.
Context (map_bits : N) (crc32 : list byte → N) (os : N → N → io N) (fsync_ok : bool).
Context (mmap_ok : N → bool) (page_size : N).

#[local] Instance wal_ops : WalOps WalWriter := {|
  log_write w t b :=
    '(w', r) ← write map_bits crc32 os w t b; p ← io_expect r; Ok (w', p);
  log_read w p :=
    match read map_bits crc32 mmap_ok page_size (mkWalReader ∅) (wal_file w) p with
    | Ok (IoOk (_, e)) => Some e
    | _ => None
    end;
  log_iterate w := snd <$> iterate map_bits crc32 mmap_ok page_size (mkWalReader ∅) w;
  log_sync _ := fsync_ok;
  log_max_entry_size := MAX_ENTRY_SIZE map_bits;
|}.

Context (Hbits : 5 ≤ map_bits ∧ map_bits < 32) (Hcrc : ∀ d, crc32 d < 2 ^ 32).
Context (Hos : ∀ fl n m, os fl n = IoOk m → m ≤ n ∧ fl + m ≤ 2 ^ 63).
Context (Hmmap : ∀ off, mmap_ok off = true) (Hpage : 0 < page_size).

Definition wal_items (w : WalWriter) (l : list wal_item) : Prop :=
  ∃ es, wal_rel map_bits crc32 w es ∧ l = items map_bits 0 es.

Lemma wal_write_items w l t b w' p : t < 2 ^ 32 → wal_items w l →
  log_write w t b = Ok (w', p) → wal_items w' (l ++ [(p, (t, b))]).
Proof using Hbits Hcrc Hos.
  intros Ht (es & Hw & ->) Hwrite. cbn in Hwrite. unfold write in Hwrite.
  apply bind_ok in Hwrite as ([w1 r] & Hwrite & Hp). apply bind_ok in Hp as (p1 & Hr & Hp).
  injection Hp as -> ->. destruct r as [p1|]; [|done]. injection Hr as ->.
  apply (writev_inv _ _ Hbits Hcrc _ _ _ _ _ _ _ Hos Hw Ht) in Hwrite as [-> Hw'].
  cbn [concat] in *. rewrite app_nil_r in *. exists (es ++ [(t, b)]). split; [done|].
  unfold items. rewrite (positions_snoc map_bits crc32 Hbits).
  rewrite zip_with_app by apply (positions_len map_bits).
  destruct Hw as [Hfile Hpos _ _]. rewrite <-Hfile, <-Hpos, N.add_0_l. done.
Qed.

#[local] Instance wal_laws : WalLaws WalWriter.
Proof using Hbits Hcrc Hos Hmmap Hpage.
  refine {| log_rel := wal_items |}.
  - apply wal_write_items.
  - intros w l (es & [Hfile Hpos _ Hb] & ->). split.
    + by apply (items_sorted map_bits Hbits crc32).
    + eapply Forall_impl; [apply (items_bounds map_bits Hbits crc32)|]. cbn. intros x.
      rewrite <-Hfile, <-Hpos, N.add_0_l. intros [_ Hx]. unfold u64_max. rewrite u64_modulus_eq. lia.
  - intros w l p [t d] (es & Hw & ->) Hin.
    apply list_elem_of_lookup in Hin as [i Hi].
    apply lookup_zip_with_Some in Hi as (q & e & Heq & Hq & He). injection Heq as -> <-.
    destruct Hw as [Hfile Hpos Hfits Hb].
    destruct (try_read_position _ _ Hbits Hcrc _ _ Hmmap Hpage (mkWalReader ∅) es [] 0 i q (t, d))
      as [r' Hread]; [done|done|rewrite <-Hfile, <-Hpos; lia|done|done|].
    cbn. unfold read. rewrite Hfile. cbn [app] in Hread. by rewrite Hread.
  - intros w l l' (es & Hw & ->) Hit. cbn in Hit.
    pose proof (iterate_spec _ _ Hbits Hcrc _ _ Hmmap Hpage (mkWalReader ∅) w es Hw) as Hres.
    destruct (iterate _ _ _ _ _ _) as [[r' l2]| |]; simpl in *; [|done..].
    injection Hit as ->. apply Hres.
Defined.
End Instance.
