(* ===== verification/BlockManager.v ===== *)
(** * BlockManager: suspension of blocks until their history is known
      (mysticeti-core/src/block_manager.rs)

    The manager is written against the [BlockWriter] interface (the trait of
    block_store.rs together with the [block_exists] reader of the store behind
    it); the write-ahead log paired with the detailed store is an instance. *)

From S2P Require Import Prelude Types Committee BTree BlockStore.
From Stdlib Require Import Strings.Byte.

(** ** The writer interface *)

Class BlockWriter (W : Type) := {
  store_exists : W → BlockReference → bool;
  insert_block : W → StatementBlock → outcome (W * WalPosition);
  (** the blocks whose insertion does not panic *)
  writable : W → StatementBlock → Prop;
}.

Class BlockWriterLaws (W : Type) `{BlockWriter W} := {
  insert_block_ok : ∀ (w : W) b, writable w b → store_exists w (reference b) = false →
    ∃ w' pos, insert_block w b = Ok (w', pos) ∧
      (∀ r, store_exists w' r = store_exists w r || bool_decide (r = reference b)) ∧
      (∀ b', writable w b' → writable w' b');
}.

(** [impl BlockWriter for (&mut WalWriter, &BlockStore)] *)
Section StoreWriter.
Context {Wal : Type} (wal_write : Wal → N → list byte → outcome (Wal * WalPosition)).
Context (serialized_bytes : StatementBlock → list byte).

Record StoreWriter := mkStoreWriter { sw_wal : Wal; sw_store : BlockStoreInner }.

Definition StoreWriter_insert_block (w : StoreWriter) (b : StatementBlock)
    : outcome (StoreWriter * WalPosition) :=
  '(wal, pos) ← wal_write (sw_wal w) WAL_ENTRY_BLOCK (serialized_bytes b);
  store ← add_loaded (sw_store w) pos b;
  Ok (mkStoreWriter wal store, pos).

(** [insert_own_block]: the block is preceded by its 8-byte header in the log. *)
Context (position_bytes : WalPosition → list byte).

Definition insert_own_block (w : StoreWriter) (data : OwnBlockData) : outcome StoreWriter :=
  '(wal, pos) ← wal_write (sw_wal w) WAL_ENTRY_OWN_BLOCK
                  (position_bytes (next_entry data) ++ serialized_bytes (own_block data));
  store ← add_loaded (sw_store w) pos (own_block data);
  Ok (mkStoreWriter wal store).

#[global] Instance store_writer : BlockWriter StoreWriter := {|
  store_exists w r := inner_block_exists (sw_store w) r;
  insert_block := StoreWriter_insert_block;
  writable w b := author b ≠ store_authority (sw_store w) ∧
                  (N.to_nat (author b) < length (last_seen_vec (sw_store w)))%nat;
|}.

Lemma inner_block_exists_get self r :
  inner_block_exists self r = bool_decide (is_Some (inner_get_block self r)).
Proof.
  unfold inner_block_exists, inner_get_block. destruct (index self !! br_round r); [done|].
  symmetry. apply bool_decide_eq_false. by intros [? ?].
Qed.

(** Appending to the log does not fail. *)
Context (wal_write_ok : ∀ wal tag bytes, is_ok (wal_write wal tag bytes)).

#[global] Instance store_writer_laws : BlockWriterLaws StoreWriter.
Proof using wal_write_ok.
  split. intros [wal store] b [Hother Hlen] _. simpl in *. unfold StoreWriter_insert_block. simpl.
  destruct (wal_write_ok wal WAL_ENTRY_BLOCK (serialized_bytes b)) as [[wal' pos] ->]. simpl.
  destruct (lookup_lt_is_Some_2 _ _ Hlen) as [seen Hseen].
  unfold add_loaded. rewrite add_own_index_ok by done. cbn.
  rewrite (update_last_seen_ok _ _ seen) by done. cbn.
  eexists _, pos. split; [done|]. split.
  - intros r. cbn [sw_store]. rewrite !inner_block_exists_get.
    rewrite inner_get_block_insert. case_decide as Hr.
    + rewrite (bool_decide_true (r = reference b)) by done. by rewrite orb_true_r.
    + rewrite (bool_decide_false (r = reference b)) by done. by rewrite orb_false_r.
  - intros b' [? ?]. cbn. split; [done|]. by rewrite length_insert.
Qed.
End StoreWriter.

(** ** The manager *)

Record BlockManager := mkManager {
  blocks_pending : gmap BlockReference StatementBlock;
  block_references_waiting : gmap BlockReference (gset BlockReference);
  missing : list (gset BlockReference);
}.

Definition BlockManager_new (c : Committee) : BlockManager :=
  mkManager ∅ ∅ (replicate (length (authorities_vec c)) ∅).

(** [self.missing[a]] updated in place; out of range is a panic. *)
Definition update_missing (self : BlockManager) (a : AuthorityIndex)
    (f : gset BlockReference → gset BlockReference) : outcome BlockManager :=
  s ← expect (missing self !! N.to_nat a);
  Ok (mkManager (blocks_pending self) (block_references_waiting self)
        (<[N.to_nat a := f s]> (missing self))).

Section BlockManager.
Context {W : Type} `{BlockWriter W}.

(** The loop over the includes; returns [processed]. *)
Definition check_include (w : W) (block_reference : BlockReference)
    (st : BlockManager * bool) (included_reference : BlockReference)
    : outcome (BlockManager * bool) :=
  let '(self, processed) := st in
  if store_exists w included_reference then Ok (self, processed)
  else
    let waiting := block_references_waiting self in
    let self := mkManager (blocks_pending self)
      (<[included_reference :=
           {[block_reference]} ∪ default ∅ (waiting !! included_reference)]> waiting)
      (missing self) in
    self ← if bool_decide (is_Some (blocks_pending self !! included_reference)) then Ok self
           else update_missing self (br_authority included_reference)
                  (λ s, {[included_reference]} ∪ s);
    Ok (self, false).

(** The loop that unlocks the blocks waiting for a processed one. *)
Definition unlock (st : BlockManager * list StatementBlock) (waiting_block_reference : BlockReference)
    : outcome (BlockManager * list StatementBlock) :=
  let '(self, blocks) := st in
  block_pointer ← expect (blocks_pending self !! waiting_block_reference);
  if forallb (λ item_ref, negb (bool_decide (is_Some (block_references_waiting self !! item_ref))))
       (includes block_pointer)
  then
    block ← expect (blocks_pending self !! waiting_block_reference);
    Ok (mkManager (delete waiting_block_reference (blocks_pending self))
          (block_references_waiting self) (missing self), block :: blocks)
  else Ok (self, blocks).

Notation add_state := (BlockManager * W * list StatementBlock * list (WalPosition * StatementBlock))%type.
Notation add_result := (BlockManager * W * list (WalPosition * StatementBlock))%type.

(** One iteration of [while let Some(block) = blocks.pop_front()]. *)
Definition add_blocks_step (st : add_state) : outcome (add_state + add_result) :=
  let '(self, w, blocks, newly_blocks_processed) := st in
  match blocks with
  | [] => Ok (inr (self, w, newly_blocks_processed))
  | block :: blocks =>
      let block_reference := reference block in
      if store_exists w block_reference
         || bool_decide (is_Some (blocks_pending self !! block_reference))
      then Ok (inl (self, w, blocks, newly_blocks_processed))
      else
        '(self, processed) ← foldM (check_include w block_reference) (self, true) (includes block);
        self ← update_missing self (br_authority block_reference) (λ s, s ∖ {[block_reference]});
        if (negb processed : bool) then
          Ok (inl (mkManager (<[block_reference := block]> (blocks_pending self))
                     (block_references_waiting self) (missing self),
                   w, blocks, newly_blocks_processed))
        else
          '(w, position) ← insert_block w block;
          let newly_blocks_processed := newly_blocks_processed ++ [(position, block)] in
          match block_references_waiting self !! block_reference with
          | None => Ok (inl (self, w, blocks, newly_blocks_processed))
          | Some waiting_references =>
              let self := mkManager (blocks_pending self)
                (delete block_reference (block_references_waiting self)) (missing self) in
              '(self, blocks) ← foldM unlock (self, blocks) (elements waiting_references);
              Ok (inl (self, w, blocks, newly_blocks_processed))
          end
  end.

(** An incoming block is looked at once and possibly once more after it was
    suspended, a pending block at most once: twice the input plus the pending
    blocks bound the iterations. *)
Definition add_blocks_fuel (self : BlockManager) (blocks : list StatementBlock) : N :=
  2 * N.of_nat (length blocks) + N.of_nat (size (blocks_pending self)) + 1.

Definition add_blocks (self : BlockManager) (blocks : list StatementBlock) (w : W)
    : outcome add_result :=
  loop add_blocks_step (add_blocks_fuel self blocks) (self, w, blocks, []).

Definition missing_blocks (self : BlockManager) : list (gset BlockReference) := missing self.
End BlockManager.

(** ** Invariant *)

Section Invariant.
Context {W : Type} `{BlockWriterLaws W}.
Implicit Types (w : W) (self : BlockManager) (b : StatementBlock) (r i : BlockReference).

(** All includes of the block are stored. *)
Definition ready w b : Prop := ∀ i, i ∈ includes b → store_exists w i = true.
Definition readyb w b : bool := forallb (store_exists w) (includes b).

(** The block and its includes name authorities below [n]; it can be written. *)
Definition ok_block (n : nat) w b : Prop :=
  (N.to_nat (author b) < n)%nat ∧
  (∀ i, i ∈ includes b → (N.to_nat (br_authority i) < n)%nat) ∧ writable w b.

Definition is_missing self i : Prop :=
  ∃ s, missing self !! N.to_nat (br_authority i) = Some s ∧ i ∈ s.

(** The invariant between iterations; [moved] are the references that left the
    pending map and are next in the queue. *)
Record mgr_inv (n : nat) w self (moved : gset BlockReference) : Prop := {
  mi_pending : ∀ r b, blocks_pending self !! r = Some b →
                 reference b = r ∧ store_exists w r = false ∧ ok_block n w b;
  mi_waiting : ∀ i refs, block_references_waiting self !! i = Some refs →
                 store_exists w i = false ∧
                 ∀ r, r ∈ refs → ∃ b, blocks_pending self !! r = Some b ∧ i ∈ includes b;
  mi_blocked : ∀ r b i, blocks_pending self !! r = Some b → i ∈ includes b →
                 store_exists w i = false →
                 ∃ refs, block_references_waiting self !! i = Some refs ∧ r ∈ refs;
  mi_stuck : ∀ r b, blocks_pending self !! r = Some b →
               ∃ i, i ∈ includes b ∧ store_exists w i = false;
  mi_len : length (missing self) = n;
  mi_slot : ∀ a s i, missing self !! a = Some s → i ∈ s → N.to_nat (br_authority i) = a;
  mi_missing : ∀ i, is_missing self i ↔
                 is_Some (block_references_waiting self !! i) ∧
                 blocks_pending self !! i = None ∧ i ∉ moved;
  mi_nonempty : ∀ i refs, block_references_waiting self !! i = Some refs → refs ≠ ∅;
}.

Lemma readyb_spec w b : readyb w b = true ↔ ready w b.
Proof.
  unfold readyb, ready. rewrite forallb_forall. setoid_rewrite list_elem_of_In. done.
Qed.

(** Slots of [missing] hold references of their own authority. *)
Definition slots_ok self : Prop :=
  ∀ a s i, missing self !! a = Some s → i ∈ s → N.to_nat (br_authority i) = a.

Lemma update_missing_spec self r f :
  (N.to_nat (br_authority r) < length (missing self))%nat → slots_ok self →
  (∀ s i, i ≠ r → i ∈ f s ↔ i ∈ s) →
  ∃ self', update_missing self (br_authority r) f = Ok self' ∧
    blocks_pending self' = blocks_pending self ∧
    block_references_waiting self' = block_references_waiting self ∧
    length (missing self') = length (missing self) ∧ slots_ok self' ∧
    (∀ i, i ≠ r → is_missing self' i ↔ is_missing self i) ∧
    (∃ s, is_missing self' r ↔ r ∈ f s).
Proof.
  intros Hlen Hslot Hf. unfold update_missing.
  destruct (lookup_lt_is_Some_2 _ _ Hlen) as [s Hs]. rewrite Hs. simpl.
  eexists; split; [done|]. simpl. split_and!; [done|done|by rewrite length_insert| | |].
  - intros a s' i Ha Hi. simpl in Ha. destruct (decide (a = N.to_nat (br_authority r))) as [->|Hne].
    + rewrite list_lookup_insert_eq in Ha by done. injection Ha as <-.
      destruct (decide (i = r)) as [->|Hir]; [done|].
      apply (Hslot _ s i Hs). by apply Hf.
    + rewrite list_lookup_insert_ne in Ha by done. by eapply Hslot.
  - intros i Hir. unfold is_missing. simpl.
    destruct (decide (N.to_nat (br_authority i) = N.to_nat (br_authority r))) as [->|Hne].
    + rewrite list_lookup_insert_eq, Hs by done. split.
      * intros (s' & [= <-] & Hi). exists s. split; [done|]. by apply Hf.
      * intros (s' & [= <-] & Hi). exists (f s). split; [done|]. by apply Hf.
    + by rewrite list_lookup_insert_ne by done.
  - exists s. unfold is_missing. simpl. rewrite list_lookup_insert_eq by done.
    split; [by intros (s' & [= <-] & ?)|]. intros Hr. by exists (f s).
Qed.

(** The effect of the loop over the includes. *)
Lemma check_includes_spec n w rb l : ∀ self p,
  (∀ i, i ∈ l → (N.to_nat (br_authority i) < n)%nat) →
  length (missing self) = n → slots_ok self →
  ∃ self', foldM (check_include w rb) (self, p) l
           = Ok (self', p && forallb (store_exists w) l) ∧
    blocks_pending self' = blocks_pending self ∧
    length (missing self') = n ∧ slots_ok self' ∧
    (∀ i, block_references_waiting self' !! i =
       if bool_decide (i ∈ l ∧ store_exists w i = false)
       then Some ({[rb]} ∪ default ∅ (block_references_waiting self !! i))
       else block_references_waiting self !! i) ∧
    (∀ i, is_missing self' i ↔ is_missing self i ∨
       (i ∈ l ∧ store_exists w i = false ∧ blocks_pending self !! i = None)).
Proof.
  induction l as [|j l IH]; intros self p Hauth Hlen Hslot; cbn [foldM forallb].
  - exists self. rewrite andb_true_r. split_and!; try done.
    intros i. split; [by left|]. intros [?|[Hi _]]; [done|by apply not_elem_of_nil in Hi].
  - unfold check_include at 2. destruct (store_exists w j) eqn:Hj.
    + cbn [mbind outcome_bind].
      destruct (IH self p) as (self' & -> & Hp & Hl & Hs & Hw & Hm); [|done|done|].
      { intros i Hi. apply Hauth. by right. }
      exists self'. split_and!; try done.
      * intros i. rewrite Hw. apply (f_equal (λ x : bool, if x then _ else _)), bool_decide_ext.
        rewrite elem_of_cons. naive_solver congruence.
      * intros i. rewrite Hm, elem_of_cons. naive_solver congruence.
    + set (self1 := mkManager _ _ _).
      assert (∃ self2, (if bool_decide (is_Some (blocks_pending self1 !! j)) then Ok self1
                        else update_missing self1 (br_authority j) (λ s, {[j]} ∪ s)) = Ok self2 ∧
        blocks_pending self2 = blocks_pending self ∧
        block_references_waiting self2 = block_references_waiting self1 ∧
        length (missing self2) = n ∧ slots_ok self2 ∧
        (∀ i, is_missing self2 i ↔ is_missing self i ∨ (i = j ∧ blocks_pending self !! i = None)))
        as (self2 & -> & Hp2 & Hw2 & Hl2 & Hs2 & Hm2).
      { case_bool_decide as Hpend.
        - exists self1. split_and!; try done. intros i. split; [by left|].
          intros [?|[-> Hnone]]; [done|]. simpl in Hpend. rewrite Hnone in Hpend. by destruct Hpend.
        - destruct (update_missing_spec self1 j (λ s, {[j]} ∪ s)) as (self2 & -> & Hp2 & Hw2 & Hl2 & Hs2 & Hm2 & s & Hj2).
          { simpl. rewrite Hlen. apply Hauth. left. } { done. } { set_solver. }
          exists self2. split_and!; try done; [by rewrite Hl2|]. intros i.
          destruct (decide (i = j)) as [->|Hij].
          + rewrite Hj2. split; [intros _; right|set_solver]. split; [done|].
            simpl in Hpend. destruct (blocks_pending self !! j); [exfalso; apply Hpend; by eexists|done].
          + rewrite (Hm2 i Hij). split; [by left|]. intros [?|[? _]]; done. }
      cbn [mbind outcome_bind].
      destruct (IH self2 false) as (self' & -> & Hp' & Hl' & Hs' & Hw' & Hm'); [|done|done|].
      { intros i Hi. apply Hauth. by right. }
      exists self'. rewrite andb_false_r. split_and!; try done; [congruence| |].
      * intros i. rewrite Hw', Hw2. simpl. destruct (decide (i = j)) as [->|Hij].
        -- rewrite (bool_decide_true (j ∈ j :: l ∧ _)) by (split; [left|done]).
           rewrite lookup_insert_eq. simpl. case_bool_decide; [f_equal; set_solver|done].
        -- rewrite lookup_insert_ne by done. apply (f_equal (λ x : bool, if x then _ else _)), bool_decide_ext.
           rewrite elem_of_cons. naive_solver.
      * intros i. rewrite Hm', Hm2, Hp2, elem_of_cons. naive_solver.
Qed.

(** No include of the block is waited for. *)
Definition unblocked self b : Prop :=
  ∀ i, i ∈ includes b → block_references_waiting self !! i = None.

#[global] Instance unblocked_dec self b : Decision (unblocked self b).
Proof.
  refine (cast_if (decide (Forall (λ i, block_references_waiting self !! i = None) (includes b))));
    unfold unblocked; by rewrite <-Forall_forall.
Defined.

Lemma unlock_test self b :
  forallb (λ item_ref, negb (bool_decide (is_Some (block_references_waiting self !! item_ref))))
    (includes b) = bool_decide (unblocked self b).
Proof.
  symmetry. case_bool_decide as Hu.
  - symmetry. apply forallb_forall. intros i Hi%list_elem_of_In. rewrite (Hu i Hi). done.
  - symmetry. apply not_true_iff_false. intros Hall. apply Hu. intros i Hi%list_elem_of_In.
    rewrite forallb_forall in Hall. specialize (Hall i Hi). apply negb_true_iff in Hall.
    apply bool_decide_eq_false in Hall. by apply eq_None_not_Some.
Qed.

(** The effect of the unlocking loop over the references [l]. *)
Lemma unlock_spec l : ∀ self blocks,
  NoDup l → (∀ r, r ∈ l → ∃ b, blocks_pending self !! r = Some b ∧ reference b = r) →
  ∃ self' moved, foldM unlock (self, blocks) l = Ok (self', moved ++ blocks) ∧
    block_references_waiting self' = block_references_waiting self ∧
    missing self' = missing self ∧
    NoDup (reference <$> moved) ∧
    (∀ b, b ∈ moved ↔ reference b ∈ l ∧ blocks_pending self !! reference b = Some b ∧ unblocked self b) ∧
    (∀ r, blocks_pending self' !! r = None ↔
       blocks_pending self !! r = None ∨ ∃ b, b ∈ moved ∧ reference b = r) ∧
    (∀ r b, blocks_pending self' !! r = Some b → blocks_pending self !! r = Some b) ∧
    (size (blocks_pending self') + length moved = size (blocks_pending self))%nat.
Proof.
  induction l as [|r l IH]; intros self blocks Hnd Hin; cbn [foldM].
  - exists self, []. split_and!; try done.
    + intros b. split; [by intros ?%not_elem_of_nil|]. by intros [?%not_elem_of_nil _].
    + intros r. split; [by left|]. intros [?|(b & ?%not_elem_of_nil & _)]; done.
  - apply NoDup_cons in Hnd as [Hr Hnd]. destruct (Hin r) as (b & Hb & Href); [left|].
    unfold unlock at 2. rewrite Hb. cbn [expect mbind outcome_bind]. rewrite unlock_test.
    case_bool_decide as Hu; cbn [mbind outcome_bind].
    + set (self1 := mkManager _ _ _).
      assert (Hother : ∀ r', r' ≠ r → blocks_pending self1 !! r' = blocks_pending self !! r').
      { intros r' ?. simpl. by rewrite lookup_delete_ne. }
      destruct (IH self1 (b :: blocks)) as (self' & moved & -> & Hw & Hm & Hndm & Hmoved & Hnone & Hsub & Hsz);
        [done| |].
      { intros r' Hr'. rewrite Hother by (by intros ->). apply Hin. by right. }
      exists self', (moved ++ [b]). rewrite <-app_assoc. split_and!; try done.
      * rewrite fmap_app. apply NoDup_app. split_and!; [done| |apply NoDup_singleton].
        intros x (b' & -> & Hb')%list_elem_of_fmap Hx%list_elem_of_singleton.
        apply Hmoved in Hb' as [Hl _]. rewrite Hx, Href in Hl. done.
      * intros b'. rewrite elem_of_app, list_elem_of_singleton, Hmoved, elem_of_cons. split.
        -- intros [(Hl & Hp & Hu')| ->]; [|rewrite Href; by split; [left|]].
           split_and!; [by right| |done]. rewrite <-Hother; [done|]. intros Hbr. by rewrite Hbr in Hl.
        -- intros [[Heq|Hl] [Hp Hu']].
           ++ right. rewrite Heq, Hb in Hp. by simplify_eq.
           ++ left. split_and!; [done| |done]. rewrite Hother; [done|]. intros Hbr. by rewrite Hbr in Hl.
      * intros r'. rewrite Hnone. setoid_rewrite elem_of_app. setoid_rewrite list_elem_of_singleton.
        destruct (decide (r' = r)) as [->|Hne].
        -- split; [intros _; right; exists b; eauto|intros _; left; simpl; by rewrite lookup_delete_eq].
        -- rewrite Hother by done. naive_solver congruence.
      * intros r' b' Hr'%Hsub. simpl in Hr'. by apply lookup_delete_Some in Hr' as [_ ?].
      * rewrite length_app. simpl in *. rewrite map_size_delete_Some in Hsz by (by eexists).
        assert (size (blocks_pending self) ≠ 0%nat).
        { intros Hz%map_size_empty_iff. by rewrite Hz, lookup_empty in Hb. }
        lia.
    + destruct (IH self blocks) as (self' & moved & -> & Hw & Hm & Hndm & Hmoved & Hnone & Hsub & Hsz);
        [done| |].
      { intros r' Hr'. apply Hin. by right. }
      exists self', moved. split_and!; try done. intros b'. rewrite Hmoved, elem_of_cons.
      split; [naive_solver|]. intros [[Heq|Hl] [Hp Hu']]; [|done].
      rewrite Heq, Hb in Hp. by simplify_eq.
Qed.

(** *** Preservation, per branch of an iteration *)

(** A block with an unknown include is suspended. *)
Lemma suspend_inv n w self b :
  mgr_inv n w self ∅ → store_exists w (reference b) = false →
  blocks_pending self !! reference b = None → ok_block n w b → ¬ ready w b →
  ∃ self1 self2,
    foldM (check_include w (reference b)) (self, true) (includes b) = Ok (self1, false) ∧
    update_missing self1 (br_authority (reference b)) (λ s, s ∖ {[reference b]}) = Ok self2 ∧
    blocks_pending self2 = blocks_pending self ∧
    mgr_inv n w (mkManager (<[reference b := b]> (blocks_pending self2))
                   (block_references_waiting self2) (missing self2)) ∅.
Proof.
  intros [Hpend Hwait Hblk Hstuck Hlen Hslot Hmiss Hnemp] Hnew Hnp Hok Hnr.
  destruct (check_includes_spec n w (reference b) (includes b) self true)
    as (self1 & Hf & Hp1 & Hl1 & Hs1 & Hw1 & Hm1); [apply Hok|done|done|].
  assert (forallb (store_exists w) (includes b) = false) as Hfalse.
  { apply not_true_iff_false. intros Hr. apply Hnr. by apply readyb_spec. }
  rewrite Hfalse in Hf. cbn in Hf.
  destruct (update_missing_spec self1 (reference b) (λ s, s ∖ {[reference b]}))
    as (self2 & Hu & Hp2 & Hw2 & Hl2 & Hs2 & Hm2 & s & Hmb).
  { rewrite Hl1. exact (proj1 Hok). } { done. } { set_solver. }
  exists self1, self2. split_and!; [done|done|congruence|].
  assert (Hw : ∀ i, block_references_waiting self2 !! i =
       if bool_decide (i ∈ includes b ∧ store_exists w i = false)
       then Some ({[reference b]} ∪ default ∅ (block_references_waiting self !! i))
       else block_references_waiting self !! i) by (intros; by rewrite Hw2).
  assert (Hp : blocks_pending self2 = blocks_pending self) by congruence.
  constructor; cbn [blocks_pending block_references_waiting missing].
  - intros r b'. rewrite Hp, lookup_insert. case_decide; [intros [= <-]; by subst|apply Hpend].
  - intros i refs. rewrite Hw, Hp. case_bool_decide as Hi.
    + intros [= <-]. split; [apply Hi|]. intros r [->%elem_of_singleton|Hr]%elem_of_union.
      * exists b. rewrite lookup_insert_eq. split; [done|apply Hi].
      * destruct (block_references_waiting self !! i) as [refs|] eqn:Ew; [|set_solver].
        apply Hwait in Ew as [_ Hr']. apply Hr' in Hr as (b' & Hb' & ?). exists b'.
        rewrite lookup_insert_ne by congruence. done.
    + intros [? Hr]%Hwait. split; [done|]. intros r (b' & Hb' & ?)%Hr. exists b'.
      rewrite lookup_insert_ne by congruence. done.
  - intros r b' i. rewrite Hp, lookup_insert, Hw. case_decide as Hr.
    + intros [= <-] Hi Hex. rewrite bool_decide_true by done. eexists; split; [done|]. set_solver.
    + intros Hb' Hi Hex. destruct (Hblk r b' i Hb' Hi Hex) as (refs & -> & Hin).
      case_bool_decide; eexists; (split; [done|]); set_solver.
  - intros r b'. rewrite Hp, lookup_insert. case_decide; [|apply Hstuck]. intros [= <-].
    destruct (Exists_dec (λ i, store_exists w i = false) (includes b)) as [Hex|Hnex].
    + apply Exists_exists in Hex as (i & ? & ?). by exists i.
    + exfalso. apply Hnr. intros i Hi. destruct (store_exists w i) eqn:E; [done|].
      exfalso. apply Hnex, Exists_exists. by exists i.
  - congruence.
  - exact Hs2.
  - intros i. change (is_missing self2 i ↔ is_Some (block_references_waiting self2 !! i) ∧
      <[reference b:=b]> (blocks_pending self2) !! i = None ∧ i ∉ (∅ : gset BlockReference)).
    rewrite Hp. destruct (decide (i = reference b)) as [->|Hne].
    + rewrite Hmb, lookup_insert_eq. set_solver.
    + rewrite (Hm2 i Hne), Hm1, Hmiss, lookup_insert_ne, Hw by done.
      case_bool_decide as Hi; naive_solver.
  - intros i refs. rewrite Hw. case_bool_decide; [intros [= <-]; set_solver|apply Hnemp].
Qed.

(** The blocks taken from the pending map are ready, new and not pending. *)
Definition moved_ok (n : nat) w self (moved : list StatementBlock) : Prop :=
  NoDup (reference <$> moved) ∧
  ∀ b, b ∈ moved → ready w b ∧ store_exists w (reference b) = false ∧
                   blocks_pending self !! reference b = None ∧ ok_block n w b.

Notation refs_of l := (list_to_set (reference <$> l) : gset BlockReference).

(** A ready block is written and unlocks blocks that wait for it. *)
Lemma process_inv n w self b rest w' pos :
  mgr_inv n w self (refs_of rest) ∨ mgr_inv n w self (refs_of (b :: rest)) →
  moved_ok n w self rest → reference b ∉ reference <$> rest →
  store_exists w (reference b) = false →
  blocks_pending self !! reference b = None → ok_block n w b → ready w b →
  insert_block w b = Ok (w', pos) →
  (∀ r, store_exists w' r = store_exists w r || bool_decide (r = reference b)) →
  (∀ b', writable w b' → writable w' b') →
  ∃ self1 self2,
    foldM (check_include w (reference b)) (self, true) (includes b) = Ok (self1, true) ∧
    update_missing self1 (br_authority (reference b)) (λ s, s ∖ {[reference b]}) = Ok self2 ∧
    blocks_pending self2 = blocks_pending self ∧
    block_references_waiting self2 = block_references_waiting self ∧
    ∀ queue, ∃ self3 moved,
      foldM unlock (mkManager (blocks_pending self2)
                      (delete (reference b) (block_references_waiting self2)) (missing self2), queue)
        (elements (default ∅ (block_references_waiting self2 !! reference b)))
        = Ok (self3, moved ++ queue) ∧
      mgr_inv n w' self3 (refs_of (moved ++ rest)) ∧ moved_ok n w' self3 (moved ++ rest) ∧
      (size (blocks_pending self3) + length moved = size (blocks_pending self))%nat ∧
      (∀ r b', blocks_pending self3 !! r = Some b' → blocks_pending self !! r = Some b') ∧
      (∀ b', b' ∈ moved → blocks_pending self !! reference b' = Some b') ∧
      (∀ r, is_Some (blocks_pending self !! r) →
         is_Some (blocks_pending self3 !! r) ∨ r ∈ reference <$> moved).
Proof.
  intros Hinv [Hnd Hrest] Hnotin Hnew Hnp Hok Hready Hins Hex' Hwr'.
  assert (∃ moved0, mgr_inv n w self moved0 ∧ ∀ i, i ≠ reference b → i ∈ moved0 ↔ i ∈ refs_of rest)
    as (moved0 & Hinv0 & Hmoved0).
  { destruct Hinv as [Hi|Hi]; [by exists (refs_of rest)|]. exists (refs_of (b :: rest)).
    split; [done|]. intros i ?. rewrite !elem_of_list_to_set, fmap_cons, elem_of_cons. naive_solver. }
  clear Hinv. destruct Hinv0 as [Hpend Hwait Hblk Hstuck Hlen Hslot Hmiss Hnemp].
  destruct (check_includes_spec n w (reference b) (includes b) self true)
    as (self1 & Hf & Hp1 & Hl1 & Hs1 & Hw1 & Hm1); [apply Hok|done|done|].
  pose proof (proj2 (readyb_spec w b) Hready) as Htrue. unfold readyb in Htrue.
  rewrite Htrue in Hf. cbn in Hf.
  destruct (update_missing_spec self1 (reference b) (λ s, s ∖ {[reference b]}))
    as (self2 & Hu & Hp2 & Hw2 & Hl2 & Hs2 & Hm2 & s & Hmb).
  { rewrite Hl1. exact (proj1 Hok). } { done. } { set_solver. }
  assert (Hp : blocks_pending self2 = blocks_pending self) by congruence.
  assert (Hw : block_references_waiting self2 = block_references_waiting self).
  { rewrite Hw2. apply map_eq. intros i. rewrite Hw1. rewrite bool_decide_false; [done|].
    intros [Hi Hx]. rewrite (Hready i Hi) in Hx. done. }
  assert (Hmiss2 : ∀ i, is_missing self2 i ↔ i ≠ reference b ∧ is_missing self i).
  { intros i. destruct (decide (i = reference b)) as [->|Hne]; [rewrite Hmb; set_solver|].
    rewrite (Hm2 i Hne), Hm1. split; [|naive_solver]. intros [?|(Hi & Hx & _)]; [done|].
    rewrite (Hready i Hi) in Hx. done. }
  exists self1, self2. split_and!; [done..|]. intros queue. rewrite Hw.
  set (selfd := mkManager (blocks_pending self2) (delete (reference b) (block_references_waiting self))
                  (missing self2)).
  set (wrefs := default ∅ (block_references_waiting self !! reference b)).
  assert (Hwrefs : ∀ r, r ∈ wrefs → ∃ b', blocks_pending self !! r = Some b' ∧ reference b ∈ includes b').
  { intros r. unfold wrefs. destruct (block_references_waiting self !! reference b) as [refs|] eqn:E;
      simpl; [|set_solver]. apply Hwait in E as [_ Hr]. apply Hr. }
  destruct (unlock_spec (elements wrefs) selfd queue)
    as (self3 & moved & Hfold & Hw3 & Hm3 & Hndm & Hmv & Hnone & Hsub & Hsz).
  { apply NoDup_elements. }
  { intros r (b' & Hb' & _)%elem_of_elements%Hwrefs. exists b'. unfold selfd. cbn. rewrite Hp.
    split; [done|]. by apply Hpend in Hb' as [? _]. }
  unfold selfd in Hw3, Hm3, Hmv, Hnone, Hsub, Hsz.
  cbn [blocks_pending block_references_waiting missing] in Hw3, Hm3, Hmv, Hnone, Hsub, Hsz.
  rewrite Hp in Hmv, Hnone, Hsub, Hsz.
  (* the facts about the new store and the moved blocks *)
  assert (Hexf : ∀ r, store_exists w' r = false ↔ store_exists w r = false ∧ r ≠ reference b).
  { intros r. rewrite Hex', orb_false_iff, bool_decide_eq_false. done. }
  assert (Hext : ∀ r, store_exists w' r = true ↔ store_exists w r = true ∨ r = reference b).
  { intros r. rewrite Hex', orb_true_iff, bool_decide_eq_true. done. }
  assert (Hok' : ∀ b', ok_block n w b' → ok_block n w' b') by (intros b' (? & ? & ?); split_and!; auto).
  assert (Hunb : ∀ b', b' ∈ moved → ready w' b').
  { intros b' (_ & Hb' & Hu')%Hmv i Hi. apply Hext. destruct (decide (i = reference b)); [by right|left].
    specialize (Hu' i Hi). simpl in Hu'. rewrite lookup_delete_ne in Hu' by done.
    destruct (store_exists w i) eqn:E; [done|].
    destruct (Hblk _ _ _ Hb' Hi E) as (refs & Hr & _). congruence. }
  exists self3, moved. split_and!; [done| | |done|done| |].
  - constructor.
    + intros r b' Hb'%Hsub. pose proof (Hpend r b' Hb') as (? & ? & ?). split_and!; [done| |auto].
      apply Hexf. split; [done|]. congruence.
    + intros i refs. rewrite Hw3. intros [Hi Hr]%lookup_delete_Some.
      apply Hwait in Hr as [Hx Hr]. split; [by apply Hexf|]. intros r (b' & Hb' & Hinc)%Hr.
      exists b'. split; [|done]. destruct (blocks_pending self3 !! r) as [b''|] eqn:E.
      * apply Hsub in E. congruence.
      * apply Hnone in E as [E|(b2 & Hb2 & <-)]; [congruence|]. exfalso.
        apply Hmv in Hb2 as (_ & Hb2 & Hu'). rewrite Hb' in Hb2. simplify_eq.
        specialize (Hu' i Hinc). simpl in Hu'. rewrite lookup_delete_ne in Hu' by done.
        destruct (Hblk _ _ _ Hb' Hinc Hx) as (? & ? & _). congruence.
    + intros r b' i Hb'%Hsub Hi [Hx Hne]%Hexf. rewrite Hw3, lookup_delete_ne by done.
      by apply (Hblk r b').
    + intros r b' Hb'. pose proof (Hsub _ _ Hb') as Hb0. destruct (Hpend r b' Hb0) as (Href & _ & _).
      destruct (decide (r ∈ wrefs)) as [Hr|Hr].
      * destruct (decide (unblocked selfd b')) as [Hu'|Hu'].
        { assert (blocks_pending self3 !! r = None); [|congruence].
          apply Hnone. right. exists b'. split; [|done]. apply Hmv. rewrite Href.
          split_and!; [by apply elem_of_elements|done|done]. }
        destruct (Exists_dec (λ i, block_references_waiting selfd !! i ≠ None) (includes b')) as [He|He].
        -- apply Exists_exists in He as (i & Hi & Hwi). exists i. split; [done|]. apply Hexf.
           simpl in Hwi. destruct (decide (i = reference b)) as [->|Hne].
           { rewrite lookup_delete_eq in Hwi. done. }
           rewrite lookup_delete_ne in Hwi by done. split; [|done].
           destruct (block_references_waiting self !! i) eqn:E; [|done]. by apply Hwait in E as [? _].
        -- exfalso. apply Hu'. intros i Hi. destruct (block_references_waiting selfd !! i) eqn:E; [|done].
           exfalso. apply He, Exists_exists. exists i. split; [done|]. by rewrite E.
      * destruct (Hstuck r b' Hb0) as (i & Hi & Hx). exists i. split; [done|]. apply Hexf. split; [done|].
        intros ->. destruct (Hblk r b' _ Hb0 Hi Hx) as (refs & Hrefs & Hin). apply Hr. unfold wrefs.
        by rewrite Hrefs.
    + rewrite Hm3. congruence.
    + rewrite Hm3. exact Hs2.
    + intros i. assert (is_missing self3 i ↔ is_missing self2 i) as -> by (unfold is_missing; by rewrite Hm3).
      rewrite Hmiss2, Hmiss, Hw3, elem_of_list_to_set, fmap_app, elem_of_app.
      destruct (decide (i = reference b)) as [->|Hne].
      { rewrite lookup_delete_eq. split; [naive_solver|]. intros [[? ?] _]. done. }
      rewrite lookup_delete_ne, Hnone by done.
      pose proof (Hmoved0 i Hne) as Hmi. rewrite elem_of_list_to_set in Hmi.
      assert (Hdisj : i ∈ reference <$> moved → blocks_pending self !! i = None → False).
      { intros (b2 & -> & (_ & Hb2 & _)%Hmv)%list_elem_of_fmap. congruence. }
      assert (Hdisj2 : (∃ b0, b0 ∈ moved ∧ reference b0 = i) → i ∈ reference <$> moved).
      { intros (b0 & ? & <-). by apply list_elem_of_fmap_2. }
      tauto.
    + intros i refs. rewrite Hw3. intros [_ Hr]%lookup_delete_Some. by eapply Hnemp.
  - split.
    + rewrite fmap_app. apply NoDup_app. split_and!; [done| |done].
      intros r (b1 & -> & (_ & Hb1 & _)%Hmv)%list_elem_of_fmap (b2 & Heq & Hb2)%list_elem_of_fmap.
      apply Hrest in Hb2 as (_ & _ & Hn & _). rewrite Heq in Hb1. congruence.
    + intros b' [Hb'|Hb']%elem_of_app.
      * pose proof (proj1 (Hmv b') Hb') as (_ & Hb0 & _). destruct (Hpend _ _ Hb0) as (_ & Hx & Hokb).
        split_and!; [by apply Hunb| |apply Hnone; right; by exists b'|by apply Hok'].
        apply Hexf. split; [done|]. congruence.
      * destruct (Hrest b' Hb') as (Hr & Hx & Hn & Hokb).
        split_and!; [intros i Hi; apply Hext; left; by apply Hr| |apply Hnone; by left|by apply Hok'].
        apply Hexf. split; [done|]. intros Heq. apply Hnotin. rewrite <-Heq.
        by apply list_elem_of_fmap_2.
  - intros b' (_ & ? & _)%Hmv. done.
  - intros r Hr. destruct (blocks_pending self3 !! r) eqn:E; [by left; eexists|right].
    apply Hnone in E as [E|(b' & ? & <-)]; [rewrite E in Hr; by destruct Hr|].
    by apply list_elem_of_fmap_2.
Qed.

(** Every block comes after its includes, which are in the old store or earlier
    in the list. *)
Definition causal w (l : list StatementBlock) : Prop :=
  ∀ l1 b l2, l = l1 ++ b :: l2 → ∀ i, i ∈ includes b → store_exists w i = true ∨ i ∈ reference <$> l1.

Lemma causal_nil w : causal w [].
Proof. intros l1 b l2 Heq. by destruct l1. Qed.

Lemma causal_snoc w l b :
  causal w l → (∀ i, i ∈ includes b → store_exists w i = true ∨ i ∈ reference <$> l) →
  causal w (l ++ [b]).
Proof.
  intros Hl Hb l1 b' l2 Heq. destruct l2 as [|x l2 _] using rev_ind.
  - apply app_inj_tail in Heq as [-> ->]. done.
  - rewrite app_comm_cons, app_assoc in Heq. apply app_inj_tail in Heq as [Heq _]. by eapply Hl.
Qed.

(** *** The loop invariant *)

Section Loop.
(** The store and the blocks ([src]: incoming or pending) at the call. *)
Context (n : nat) (w0 : W) (src : StatementBlock → Prop).

Record add_inv (self : BlockManager) w (queue : list StatementBlock)
    (out : list StatementBlock) : Prop := {
  ai_queue : ∃ moved rest, queue = moved ++ rest ∧ mgr_inv n w self (refs_of moved) ∧
               moved_ok n w self moved ∧ (∀ b, b ∈ rest → ok_block n w b);
  ai_store : ∀ r, store_exists w r = store_exists w0 r || bool_decide (r ∈ reference <$> out);
  ai_causal : causal w0 out;
  ai_fresh : ∀ b, b ∈ out → store_exists w0 (reference b) = false;
  ai_nodup : NoDup (reference <$> out);
  ai_src : ∀ b, b ∈ queue ∨ blocks_pending self !! reference b = Some b ∨ b ∈ out → src b;
  ai_kept : ∀ b, src b → store_exists w (reference b) = true ∨
              is_Some (blocks_pending self !! reference b) ∨ reference b ∈ reference <$> queue;
}.

Definition add_measure self w (queue : list StatementBlock) : N :=
  list_sum (λ b, if readyb w b then 1 else 2) queue + N.of_nat (size (blocks_pending self)).

Lemma readyb_mono w w' b :
  (∀ r, store_exists w r = true → store_exists w' r = true) → readyb w b = true → readyb w' b = true.
Proof. intros Hm. rewrite !readyb_spec. intros Hr i Hi. by apply Hm, Hr. Qed.

Lemma weight_mono w w' (l : list StatementBlock) :
  (∀ r, store_exists w r = true → store_exists w' r = true) →
  list_sum (λ b, if readyb w' b then 1 else 2) l ≤ list_sum (λ b, if readyb w b then 1 else 2) l.
Proof.
  intros Hm. induction l as [|b l IH]; simpl; [lia|].
  destruct (readyb w b) eqn:E; [rewrite (readyb_mono w w' b Hm E); lia|].
  destruct (readyb w' b); lia.
Qed.

Lemma weight_ready w (l : list StatementBlock) :
  (∀ b, b ∈ l → ready w b) → list_sum (λ b, if readyb w b then 1 else 2) l = N.of_nat (length l).
Proof.
  induction l as [|b l IH]; intros Hr; simpl; [done|].
  rewrite (proj2 (readyb_spec w b)) by (apply Hr; left).
  fold (list_sum (λ b, if readyb w b then 1 else 2) l).
  rewrite IH; [lia|]. intros b' ?. apply Hr. by right.
Qed.

Lemma skip_step self w b queue out :
  add_inv self w (b :: queue) out →
  store_exists w (reference b) || bool_decide (is_Some (blocks_pending self !! reference b)) = true →
  add_inv self w queue out.
Proof.
  intros [(moved & rest & Hq & Hinv & Hmv & Hrest) ? ? ? ? Hsrc Hkept] Hskip.
  assert (Hkeep : store_exists w (reference b) = true ∨ is_Some (blocks_pending self !! reference b)).
  { apply orb_true_iff in Hskip as [?|?%bool_decide_eq_true]; auto. }
  constructor; [|done..| |].
  - destruct moved as [|b' moved].
    + destruct rest as [|b' rest]; simplify_eq/=. exists [], rest. split_and!; try done.
      intros b Hb. apply Hrest. by right.
    + simplify_eq/=. exfalso. destruct Hmv as [_ Hmv].
      destruct (Hmv b') as (_ & Hx & Hn & _); [left|]. destruct Hkeep as [?|Hs]; [congruence|].
      rewrite Hn in Hs. by destruct Hs.
  - intros b' Hb'. apply Hsrc. rewrite elem_of_cons. naive_solver.
  - intros b' Hb'. destruct (Hkept b' Hb') as [?|[?|Hin]]; [by left|by right; left|].
    rewrite fmap_cons, elem_of_cons in Hin. destruct Hin as [->|?]; [|by right; right].
    destruct Hkeep; auto.
Qed.

Lemma add_inv_head self w b queue out :
  add_inv self w (b :: queue) out →
  store_exists w (reference b) = false → blocks_pending self !! reference b = None →
  ok_block n w b ∧
  ((∃ moved rest, queue = moved ++ rest ∧ mgr_inv n w self (refs_of (b :: moved)) ∧
      moved_ok n w self moved ∧ reference b ∉ reference <$> moved ∧ ready w b ∧
      (∀ b, b ∈ rest → ok_block n w b)) ∨
   (mgr_inv n w self ∅ ∧ (∀ b, b ∈ queue → ok_block n w b))).
Proof.
  intros [(moved & rest & Hq & Hinv & [Hnd Hmv] & Hrest) _ _ _ _ _ _] Hx Hn.
  destruct moved as [|b' moved]; simplify_eq/=.
  - split; [apply Hrest; left|]. right. split; [done|]. intros b' Hb'. apply Hrest. by right.
  - destruct (Hmv b') as (Hr & _ & _ & Hok); [left|]. split; [done|]. left.
    apply NoDup_cons in Hnd as [Hni Hnd]. exists moved, rest. split_and!; try done.
    split; [done|]. intros b'' Hb''. apply Hmv. by right.
Qed.

Lemma suspend_step self w b queue out :
  add_inv self w (b :: queue) out → store_exists w (reference b) = false →
  blocks_pending self !! reference b = None → ¬ ready w b →
  ∃ self1 self2,
    foldM (check_include w (reference b)) (self, true) (includes b) = Ok (self1, false) ∧
    update_missing self1 (br_authority (reference b)) (λ s, s ∖ {[reference b]}) = Ok self2 ∧
    let self3 := mkManager (<[reference b := b]> (blocks_pending self2))
                   (block_references_waiting self2) (missing self2) in
    add_inv self3 w queue out ∧ add_measure self3 w queue < add_measure self w (b :: queue).
Proof.
  intros Hinv Hx Hn Hnr. destruct (add_inv_head _ _ _ _ _ Hinv Hx Hn) as [Hok [Hm|[Hmi Hrest]]].
  { destruct Hm as (? & ? & _ & _ & _ & _ & ? & _). done. }
  destruct (suspend_inv n w self b Hmi Hx Hn Hok Hnr) as (self1 & self2 & Hf & Hu & Hp & Hmi').
  destruct Hinv as [_ Hst Hca Hfr Hnd Hsrc Hkept].
  exists self1, self2. split; [done|]. split; [done|]. cbv zeta. split.
  - constructor; try done.
    + exists [], queue. split_and!; [done|done| |done]. split; [by apply NoDup_nil_2|].
      by intros b' ?%not_elem_of_nil.
    + intros b' Hb'. cbn [blocks_pending] in Hb'. rewrite Hp, lookup_insert in Hb'.
      destruct Hb' as [?|[Hb'|?]]; [apply Hsrc; left; by right| |apply Hsrc; auto].
      case_decide; [simplify_eq; apply Hsrc; left; left|apply Hsrc; auto].
    + intros b' Hb'. cbn [blocks_pending]. rewrite Hp.
      destruct (Hkept b' Hb') as [?|[Hs|Hin]]; [by left| |].
      * right; left. rewrite lookup_insert. by case_decide.
      * rewrite fmap_cons, elem_of_cons in Hin. destruct Hin as [->|?]; [|by right; right].
        right; left. by rewrite lookup_insert_eq.
  - unfold add_measure. cbn [blocks_pending list_sum foldr]. rewrite Hp, map_size_insert_None by done.
    assert (readyb w b = false) as -> by (apply not_true_iff_false; by rewrite readyb_spec).
    fold (list_sum (λ b, if readyb w b then 1 else 2) queue). lia.
Qed.

Lemma process_step self w b queue out :
  add_inv self w (b :: queue) out → store_exists w (reference b) = false →
  blocks_pending self !! reference b = None → ready w b →
  ∃ self1 self2 self3 w' pos queue',
    foldM (check_include w (reference b)) (self, true) (includes b) = Ok (self1, true) ∧
    update_missing self1 (br_authority (reference b)) (λ s, s ∖ {[reference b]}) = Ok self2 ∧
    insert_block w b = Ok (w', pos) ∧
    foldM unlock (mkManager (blocks_pending self2)
                    (delete (reference b) (block_references_waiting self2)) (missing self2), queue)
      (elements (default ∅ (block_references_waiting self2 !! reference b))) = Ok (self3, queue') ∧
    add_inv self3 w' queue' (out ++ [b]) ∧
    add_measure self3 w' queue' < add_measure self w (b :: queue).
Proof.
  intros Hinv Hx Hn Hr. destruct (add_inv_head _ _ _ _ _ Hinv Hx Hn) as [Hok Hhead].
  destruct Hinv as [_ Hst Hca Hfr Hnd Hsrc Hkept].
  destruct (insert_block_ok w b) as (w' & pos & Hins & Hex & Hwr); [apply Hok|done|].
  assert (Hmono : ∀ r, store_exists w r = true → store_exists w' r = true).
  { intros r Hr'. by rewrite Hex, Hr'. }
  assert (∃ moved rest, queue = moved ++ rest ∧
    (mgr_inv n w self (refs_of moved) ∨ mgr_inv n w self (refs_of (b :: moved))) ∧
    moved_ok n w self moved ∧ reference b ∉ reference <$> moved ∧ (∀ b, b ∈ rest → ok_block n w b))
    as (moved & rest & -> & Hmi & Hmv & Hni & Hrest).
  { destruct Hhead as [(moved & rest & ? & ? & ? & ? & _ & ?)|[Hmi Hrest]].
    - exists moved, rest. split_and!; auto.
    - exists [], queue. split_and!; [done|by left| |by apply not_elem_of_nil|done].
      split; [by apply NoDup_nil_2|]. by intros b' ?%not_elem_of_nil. }
  destruct (process_inv n w self b moved w' pos Hmi Hmv Hni Hx Hn Hok Hr Hins Hex Hwr)
    as (self1 & self2 & Hf & Hu & _ & _ & Hun).
  destruct (Hun (moved ++ rest)) as (self3 & mv & Hfold & Hmi' & Hmv' & Hsz & Hsub & Hfrom & Hall).
  exists self1, self2, self3, w', pos, (mv ++ moved ++ rest). split_and!; [done..| |].
  - constructor.
    + exists (mv ++ moved), rest. rewrite <-app_assoc. split_and!; try done.
      intros b' (? & ? & ?)%Hrest. split_and!; auto.
    + intros r. rewrite Hex, Hst, fmap_app, <-orb_assoc. f_equal. symmetry.
      rewrite <-bool_decide_or. apply bool_decide_ext.
      by rewrite fmap_cons, fmap_nil, elem_of_app, list_elem_of_singleton.
    + apply causal_snoc; [done|]. intros i Hi. specialize (Hr i Hi). rewrite Hst in Hr.
      apply orb_true_iff in Hr as [?|?%bool_decide_eq_true]; auto.
    + intros b' [?| ->%list_elem_of_singleton]%elem_of_app; [by apply Hfr|].
      rewrite Hst in Hx. by apply orb_false_iff in Hx as [? _].
    + rewrite fmap_app. apply NoDup_app. split_and!; [done| |apply NoDup_singleton].
      intros r Hr' ->%list_elem_of_singleton. rewrite Hst in Hx.
      apply orb_false_iff in Hx as [_ Hx%bool_decide_eq_false]. done.
    + intros b' [[Hm|Hq]%elem_of_app|[Hp|Ho]].
      * apply Hsrc. right; left. by apply Hfrom.
      * apply Hsrc. left. by right.
      * apply Hsrc. right; left. by apply Hsub.
      * apply elem_of_app in Ho as [?| ->%list_elem_of_singleton]; apply Hsrc; [auto|left; left].
    + intros b' Hb'. rewrite Hex. destruct (Hkept b' Hb') as [->|[Hs|Hin]]; [by left| |].
      * destruct (Hall _ Hs) as [?|?]; [by right; left|]. right; right. rewrite fmap_app, elem_of_app. auto.
      * rewrite fmap_cons, elem_of_cons in Hin. destruct Hin as [->|?].
        -- left. by rewrite bool_decide_true, orb_true_r.
        -- right; right. rewrite fmap_app, elem_of_app. auto.
  - unfold add_measure. rewrite list_sum_app.
    rewrite (weight_ready w' mv) by (intros b' ?; apply Hmv'; rewrite elem_of_app; auto).
    pose proof (weight_mono w w' (moved ++ rest) Hmono). cbn [list_sum foldr].
    rewrite (proj2 (readyb_spec w b) Hr).
    fold (list_sum (λ b, if readyb w b then 1 else 2) (moved ++ rest)). lia.
Qed.

Lemma add_blocks_step_ok self w queue out :
  add_inv self w queue out.*2 →
  match add_blocks_step (self, w, queue, out) with
  | Ok (inl (self', w', queue', out')) =>
      add_inv self' w' queue' out'.*2 ∧ add_measure self' w' queue' < add_measure self w queue
  | Ok (inr (self', w', out')) => add_inv self' w' [] out'.*2
  | _ => False
  end.
Proof.
  intros Hinv. unfold add_blocks_step. destruct queue as [|b queue]; [done|]. cbv zeta.
  destruct (store_exists w (reference b) || _) eqn:Hskip.
  { split; [by eapply skip_step|]. unfold add_measure. cbn [list_sum foldr].
    fold (list_sum (λ b, if readyb w b then 1 else 2) queue). destruct (readyb w b); lia. }
  apply orb_false_iff in Hskip as [Hx Hn%bool_decide_eq_false].
  apply eq_None_not_Some in Hn.
  destruct (readyb w b) eqn:Hrb.
  - apply readyb_spec in Hrb.
    destruct (process_step self w b queue out.*2 Hinv Hx Hn Hrb)
      as (self1 & self2 & self3 & w' & pos & queue' & -> & Hu & Hins & Hfold & Hinv' & Hmeas).
    cbn [mbind outcome_bind]. rewrite Hu. cbn [mbind outcome_bind negb]. rewrite Hins.
    cbn [mbind outcome_bind].
    destruct (block_references_waiting self2 !! reference b) as [refs|] eqn:Hw.
    + cbn [default from_option id] in Hfold. rewrite Hfold. cbn [mbind outcome_bind].
      rewrite fmap_app. done.
    + cbn [default from_option id] in Hfold. rewrite elements_empty in Hfold. cbn [foldM] in Hfold.
      rewrite delete_id in Hfold by done. injection Hfold as <- <-. rewrite fmap_app.
      by destruct self2.
  - assert (¬ ready w b) as Hnr by (rewrite <-readyb_spec; congruence).
    destruct (suspend_step self w b queue out.*2 Hinv Hx Hn Hnr) as (self1 & self2 & -> & Hu & Hinv').
    cbn [mbind outcome_bind]. rewrite Hu. cbn [mbind outcome_bind negb]. done.
Qed.
End Loop.

(** The whole call. *)
Lemma add_blocks_inv n w self input :
  mgr_inv n w self ∅ → (∀ b, b ∈ input → ok_block n w b) →
  let src b := b ∈ input ∨ blocks_pending self !! reference b = Some b in
  ∃ self' w' out, add_blocks self input w = Ok (self', w', out) ∧
    add_inv n w src self' w' [] out.*2.
Proof.
  intros Hinv Hok src.
  assert (Hinit : add_inv n w src self w input []).
  { constructor.
    - exists [], input. split_and!; [done|done| |done]. split; [by apply NoDup_nil_2|].
      by intros b ?%not_elem_of_nil.
    - intros r. rewrite bool_decide_false; [by rewrite orb_false_r|]. by intros ?%not_elem_of_nil.
    - apply causal_nil.
    - by intros b ?%not_elem_of_nil.
    - by apply NoDup_nil_2.
    - intros b [?|[?|?%not_elem_of_nil]]; [by left|by right|done].
    - intros b [?|?]; [right; right; by apply list_elem_of_fmap_2|right; left; by eexists]. }
  set (Q := λ o : outcome (BlockManager * W * list (WalPosition * StatementBlock)), match o with
              | Ok (self', w', out) => add_inv n w src self' w' [] out.*2 | _ => False end).
  assert (Q (add_blocks self input w)) as HQ.
  { apply (loop_rule add_blocks_step
      (λ '(self, w', queue, out), add_inv n w src self w' queue out.*2)
      Q (λ '(self, w', queue, out), add_measure self w' queue)).
    - intros [[[self1 w1] queue1] out1] H1.
      pose proof (add_blocks_step_ok n w src self1 w1 queue1 out1 H1) as Hs.
      destruct (add_blocks_step _) as [[[[[??]?]?]|[[??]?]]| |]; done.
    - exact Hinit.
    - unfold add_measure, add_blocks_fuel.
      assert (∀ l, list_sum (λ b, if readyb w b then 1 else 2) l ≤ 2 * N.of_nat (length l)) as Hb.
      { induction l as [|b l IH]; [done|]. cbn [list_sum foldr length].
        fold (list_sum (λ b, if readyb w b then 1 else 2) l). destruct (readyb w b); lia. }
      specialize (Hb input). lia. }
  destruct (add_blocks self input w) as [[[self' w'] out]| |]; [|done|done].
  by exists self', w', out.
Qed.

Lemma mgr_inv_missing n w self i :
  mgr_inv n w self ∅ →
  is_missing self i ↔ store_exists w i = false ∧ blocks_pending self !! i = None ∧
    ∃ r b, blocks_pending self !! r = Some b ∧ i ∈ includes b.
Proof.
  intros [Hpend Hwait Hblk Hstuck Hlen Hslot Hmiss Hnemp]. rewrite Hmiss. split.
  - intros ([refs Hrefs] & Hn & _). destruct (Hwait i refs Hrefs) as [Hx Hr].
    split_and!; [done|done|]. destruct (set_choose_L refs (Hnemp i refs Hrefs)) as [r Hin].
    destruct (Hr r Hin) as (b & ? & ?). by exists r, b.
  - intros (Hx & Hn & r & b & Hb & Hi). destruct (Hblk r b i Hb Hi Hx) as (refs & -> & _).
    split_and!; [by eexists|done|set_solver].
Qed.
End Invariant.

(** ** Properties *)

(** C15: [BlockManager::add_blocks] is correct. From a manager that satisfies the
    invariant (in particular a new one), for blocks whose authors and includes
    name known authorities, the call terminates without panic and keeps the
    invariant; the store gains exactly the returned blocks, each new, returned
    once, and after all of its includes (causal order); every returned block was
    incoming or pending; every incoming or pending block is afterwards stored or
    pending; and no pending block has all of its includes stored, so nothing that
    could be processed is left suspended. *)
Theorem add_blocks_correct {W} `{BlockWriterLaws W} n (w : W) self input :
  mgr_inv n w self ∅ → (∀ b, b ∈ input → ok_block n w b) →
  ∃ self' w' out, add_blocks self input w = Ok (self', w', out) ∧ mgr_inv n w' self' ∅ ∧
    (∀ r, store_exists w' r = store_exists w r || bool_decide (r ∈ reference <$> out.*2)) ∧
    causal w out.*2 ∧ NoDup (reference <$> out.*2) ∧
    (∀ b, b ∈ out.*2 → store_exists w (reference b) = false ∧
       (b ∈ input ∨ blocks_pending self !! reference b = Some b)) ∧
    (∀ b, b ∈ input ∨ blocks_pending self !! reference b = Some b →
       store_exists w' (reference b) = true ∨ is_Some (blocks_pending self' !! reference b)) ∧
    (∀ r b, blocks_pending self' !! r = Some b → ¬ ready w' b).
Proof.
  intros Hinv Hok. destruct (add_blocks_inv n w self input Hinv Hok)
    as (self' & w' & out & Hadd & [(mv & rest & Hq & Hinv' & _ & _) Hst Hca Hfr Hnd Hsrc Hkept]).
  symmetry in Hq. apply app_nil in Hq as [-> ->]. exists self', w', out. split_and!; try done.
  - intros b Hb. split; [by apply Hfr|]. apply Hsrc. auto.
  - intros b [?|[?|?%not_elem_of_nil]]%Hkept; auto.
  - intros r b Hb Hr. destruct (mi_stuck _ _ _ _ Hinv' r b Hb) as (i & Hi & Hx).
    rewrite (Hr i Hi) in Hx. done.
Qed.

Lemma mgr_inv_new {W} `{BlockWriterLaws W} (w : W) c :
  mgr_inv (length (authorities_vec c)) w (BlockManager_new c) ∅.
Proof.
  assert (Hm : ∀ i, ¬ is_missing (BlockManager_new c) i).
  { intros i (s & Hs & Hi). simpl in Hs. apply lookup_replicate in Hs as [-> _]. set_solver. }
  constructor; simpl.
  - intros r b Hb. by rewrite lookup_empty in Hb.
  - intros i refs Hb. by rewrite lookup_empty in Hb.
  - intros r b i Hb. by rewrite lookup_empty in Hb.
  - intros r b Hb. by rewrite lookup_empty in Hb.
  - by rewrite length_replicate.
  - intros a s i [-> _]%lookup_replicate. set_solver.
  - intros i. split; [by intros ?%Hm|]. intros [[? Hx] _]. by rewrite lookup_empty in Hx.
  - intros i refs Hb. by rewrite lookup_empty in Hb.
Qed.

(** The sets of missing blocks are exact: under the manager's invariant a
    reference is reported by [missing_blocks], in the slot of its author, exactly
    when it is included by some pending block, is not stored and is not itself
    pending. *)
Theorem missing_blocks_exact {W} `{BlockWriterLaws W} n (w : W) self i :
  mgr_inv n w self ∅ →
  (∀ a s, missing_blocks self !! a = Some s → i ∈ s →
     N.to_nat (br_authority i) = a) ∧
  ((∃ s, missing_blocks self !! N.to_nat (br_authority i) = Some s ∧ i ∈ s) ↔
   store_exists w i = false ∧ blocks_pending self !! i = None ∧
   ∃ r b, blocks_pending self !! r = Some b ∧ i ∈ includes b).
Proof.
  intros Hinv. split; [exact (λ a s, mi_slot _ _ _ _ Hinv a s i)|]. by eapply mgr_inv_missing.
Qed.

(** A log that only counts its entries, for the witnesses. *)
Definition count_write (wal : N) (tag : N) (bytes : list byte) : outcome (N * N) := Ok (wal + 1, wal).
Lemma count_write_ok wal tag bytes : is_ok (count_write wal tag bytes).
Proof. by eexists. Qed.

#[global] Instance count_writer : BlockWriter (StoreWriter (Wal := N)) :=
  store_writer count_write (λ _, []).
#[global] Instance count_writer_laws : BlockWriterLaws (StoreWriter (Wal := N)) :=
  store_writer_laws count_write (λ _, []) count_write_ok.

Definition empty_writer : StoreWriter (Wal := N) := mkStoreWriter 0 (BlockStoreInner_new 3 four_equal).
Definition parent_block : StatementBlock := mkBlock (mkRef 0 1 1) [] [] 0 false 0.
Definition child_block : StatementBlock := mkBlock (mkRef 1 2 2) [mkRef 0 1 1] [] 0 false 0.

Lemma ok_parent_child b : b ∈ [child_block; parent_block] → ok_block 4 empty_writer b.
Proof.
  intros Hb. repeat (apply elem_of_cons in Hb as [->|Hb]); [..|by apply not_elem_of_nil in Hb];
    (split; [vm_compute; lia|]); (split; [|split; [vm_compute; discriminate|vm_compute; lia]]);
    intros i Hi; vm_compute in Hi.
  - apply list_elem_of_singleton in Hi as ->. vm_compute; lia.
  - by apply not_elem_of_nil in Hi.
Qed.

Lemma add_blocks_correct_witness :
  ∃ self' w' out, add_blocks (BlockManager_new four_equal) [child_block; parent_block] empty_writer
                  = Ok (self', w', out) ∧ out.*2 = [parent_block; child_block] ∧
                  mgr_inv 4 w' self' ∅.
Proof.
  destruct (add_blocks_correct 4 empty_writer (BlockManager_new four_equal) [child_block; parent_block])
    as (self' & w' & out & Hadd & Hinv & _).
  - exact (mgr_inv_new empty_writer four_equal).
  - exact ok_parent_child.
  - exists self', w', out. split; [exact Hadd|]. split; [|exact Hinv].
    vm_compute in Hadd. injection Hadd as _ _ <-. reflexivity.
Defined.

(** The manager after the child alone arrived. *)
Definition waiting_manager : BlockManager :=
  match add_blocks (BlockManager_new four_equal) [child_block] empty_writer with
  | Ok (self, _, _) => self | _ => BlockManager_new four_equal end.

Lemma waiting_manager_inv : mgr_inv 4 empty_writer waiting_manager ∅.
Proof.
  destruct (add_blocks_inv 4 empty_writer (BlockManager_new four_equal) [child_block])
    as (self' & w' & out & Hadd & [(mv & rest & Hq & Hinv & _) _ _ _ _ _ _]).
  - exact (mgr_inv_new empty_writer four_equal).
  - intros b Hb%list_elem_of_singleton. subst. apply ok_parent_child. left.
  - symmetry in Hq. apply app_nil in Hq as [-> ->]. unfold waiting_manager. rewrite Hadd.
    vm_compute in Hadd. injection Hadd as _ <- _. exact Hinv.
Qed.

Lemma missing_blocks_exact_witness :
  ∃ s, missing_blocks waiting_manager !! 0%nat = Some s ∧ mkRef 0 1 1 ∈ s.
Proof.
  apply (proj2 (missing_blocks_exact 4 empty_writer waiting_manager (mkRef 0 1 1) waiting_manager_inv)).
  split; [vm_compute; reflexivity|]. split; [vm_compute; reflexivity|].
  exists (mkRef 1 2 2), child_block. split; [vm_compute; reflexivity|left].
Defined.
