(* ===== verification/Linearizer.v ===== *)
(** * Linearizer: from committed leaders to sub-dags
      (mysticeti-core/src/consensus/linearizer.rs) *)

From S2P Require Import Prelude Types BlockStore.

Record CommittedSubDag := mkSubDag {
  anchor : BlockReference;
  sub_dag_blocks : list StatementBlock;
}.

(** [sort_by_key(|x| x.round())]: a stable sort. *)
Fixpoint insert_by_round (x : StatementBlock) (l : list StatementBlock) : list StatementBlock :=
  match l with
  | [] => [x]
  | y :: rest => if bool_decide (block_round x ≤ block_round y) then x :: y :: rest
                 else y :: insert_by_round x rest
  end.
Definition sort_by_round (l : list StatementBlock) : list StatementBlock :=
  foldr insert_by_round [] l.

Definition CommittedSubDag_sort (d : CommittedSubDag) : CommittedSubDag :=
  mkSubDag (anchor d) (sort_by_round (sub_dag_blocks d)).

Section Linearizer.
Context {S : Type} `{BlockReader S}.

(** The [HashSet] of committed references is the state of the linearizer. *)
Notation committed := (gset BlockReference).

(** The loop over the includes of a block; the buffer is a stack (top first). *)
Definition visit_include (s : S) (st : committed * list StatementBlock) (r : BlockReference)
    : outcome (committed * list StatementBlock) :=
  let '(c, buffer) := st in
  block ← expect (get_block s r);
  if bool_decide (r ∈ c) then Ok (c, buffer) else Ok ({[r]} ∪ c, block :: buffer).

Definition collect_step (s : S) (st : committed * list StatementBlock * list StatementBlock)
    : outcome (committed * list StatementBlock * list StatementBlock + committed * list StatementBlock) :=
  let '(c, buffer, to_commit) := st in
  match buffer with
  | [] => Ok (inr (c, to_commit))
  | x :: buffer =>
      let to_commit := to_commit ++ [x] in
      '(c, buffer) ← foldM (visit_include s) (c, buffer) (includes x);
      Ok (inl (c, buffer, to_commit))
  end.

(** A reference enters the buffer at most once, so the size of the store bounds
    the iterations. *)
Definition collect_sub_dag (self : committed) (s : S) (leader_block : StatementBlock)
    : outcome (committed * CommittedSubDag) :=
  let leader_block_ref := reference leader_block in
  _ ← rust_assert (negb (bool_decide (leader_block_ref ∈ self)));
  '(c, to_commit) ← loop (collect_step s) (len_expensive s + 2)
                      ({[leader_block_ref]} ∪ self, [leader_block], []);
  Ok (c, mkSubDag leader_block_ref to_commit).

Definition handle_commit (self : committed) (s : S) (committed_leaders : list StatementBlock)
    : outcome (committed * list CommittedSubDag) :=
  foldM (λ '(self, out) leader_block,
           '(self, sub_dag) ← collect_sub_dag self s leader_block;
           Ok (self, out ++ [CommittedSubDag_sort sub_dag]))
    (self, []) committed_leaders.
End Linearizer.

(** ** Sorting *)

Definition round_le (b1 b2 : StatementBlock) : Prop := block_round b1 ≤ block_round b2.

Lemma insert_by_round_perm x l : insert_by_round x l ≡ₚ x :: l.
Proof.
  induction l as [|y l IH]; simpl; [done|]. case_bool_decide; [done|].
  rewrite IH. apply Permutation_swap.
Qed.

Lemma sort_by_round_perm l : sort_by_round l ≡ₚ l.
Proof. induction l as [|x l IH]; simpl; [done|]. by rewrite insert_by_round_perm, IH. Qed.

Lemma insert_by_round_sorted x l :
  StronglySorted round_le l → StronglySorted round_le (insert_by_round x l).
Proof.
  induction 1 as [|y l Hl IH Hy]; simpl; [repeat constructor|]. case_bool_decide as Hxy.
  - constructor; [by constructor|]. constructor; [done|].
    eapply Forall_impl; [exact Hy|]. intros z. unfold round_le in *. lia.
  - constructor; [done|]. rewrite insert_by_round_perm. constructor; [unfold round_le; lia|done].
Qed.

Lemma sort_by_round_sorted l : StronglySorted round_le (sort_by_round l).
Proof. induction l; simpl; [constructor|by apply insert_by_round_sorted]. Qed.

(** ** Nothing is committed twice

    A run of the linearizer that succeeds commits fresh blocks only, whatever the
    store holds. *)

(** [c] has grown from [c0] by the distinct references of [l]. *)
Definition grown (c0 c : gset BlockReference) (l : list StatementBlock) : Prop :=
  c = list_to_set (reference <$> l) ∪ c0 ∧ NoDup (reference <$> l) ∧
  Forall (λ b, reference b ∉ c0) l.

Lemma grown_nil c : grown c c [].
Proof. split_and!; [set_solver|by apply NoDup_nil_2|constructor]. Qed.

Lemma grown_one c b : reference b ∉ c → grown c ({[reference b]} ∪ c) [b].
Proof. intros Hb. split_and!; [set_solver|apply NoDup_singleton|by repeat constructor]. Qed.

Lemma grown_app c0 c1 c2 l1 l2 : grown c0 c1 l1 → grown c1 c2 l2 → grown c0 c2 (l1 ++ l2).
Proof.
  intros (-> & Hnd1 & Hf1) (-> & Hnd2 & Hf2). rewrite Forall_forall in Hf1, Hf2. split_and!.
  - rewrite fmap_app, list_to_set_app_L. set_solver.
  - rewrite fmap_app. apply NoDup_app. split_and!; [done| |done].
    intros r (b1 & -> & Hb1)%list_elem_of_fmap (b2 & Hr & Hb2)%list_elem_of_fmap.
    apply (Hf2 b2 Hb2). rewrite <-Hr. apply elem_of_union_l, elem_of_list_to_set, list_elem_of_fmap. eauto.
  - apply Forall_app. split; apply Forall_forall; [done|]. intros b Hb Hin.
    apply (Hf2 b Hb). by apply elem_of_union_r.
Qed.

Lemma grown_perm c0 c l l' : l ≡ₚ l' → grown c0 c l → grown c0 c l'.
Proof.
  intros Hp (-> & Hnd & Hf). split_and!.
  - f_equal. apply leibniz_equiv. by rewrite Hp.
  - by rewrite <-Hp.
  - by rewrite <-Hp.
Qed.

Section Fresh.
Context {S : Type} `{BlockReader S} (s : S).
Context (Href : ∀ r b, get_block s r = Some b → reference b = r).

Lemma visit_includes_grown l : ∀ c buffer c' buffer',
  foldM (visit_include s) (c, buffer) l = Ok (c', buffer') →
  ∃ new, buffer' = new ++ buffer ∧ grown c c' new.
Proof using Href.
  induction l as [|i l IH]; intros c buffer c' buffer' Hf; cbn [foldM] in Hf.
  - injection Hf as <- <-. exists []. split; [done|apply grown_nil].
  - apply bind_ok in Hf as ([c1 b1] & Hv & Hf). apply IH in Hf as (new & -> & Hg).
    unfold visit_include in Hv. apply bind_ok in Hv as (b & Hb & Hv). apply expect_ok in Hb.
    apply Href in Hb as <-. case_bool_decide as Hin; injection Hv as <- <-; [by exists new|].
    exists (new ++ [b]). rewrite <-app_assoc. split; [done|].
    eapply grown_perm; [apply Permutation_app_comm|]. eapply grown_app; [by apply grown_one|done].
Qed.

Lemma collect_sub_dag_grown c0 leader c d :
  collect_sub_dag c0 s leader = Ok (c, d) →
  anchor d = reference leader ∧ grown c0 c (sub_dag_blocks d).
Proof using Href.
  unfold collect_sub_dag. intros (u & Ha%rust_assert_ok & Hrun)%bind_ok.
  apply negb_true_iff, bool_decide_eq_false in Ha.
  apply bind_ok in Hrun as ([c1 tc] & Hl & Hrun). injection Hrun as -> <-. split; [done|]. cbn.
  refine (loop_inv _ (λ '(c, buffer, tc), grown c0 c (tc ++ buffer)) (λ '(c, tc), grown c0 c tc) _ _ _ (c, tc) _ Hl).
  - intros [[c1 buffer] tc1] Hg. unfold collect_step.
    destruct buffer as [|x buffer]; [by rewrite app_nil_r in Hg|].
    destruct (foldM (visit_include s) (c1, buffer) (includes x)) as [[c2 b2]| |] eqn:Hv; cbn; [|done..].
    apply visit_includes_grown in Hv as (new & -> & Hn).
    eapply grown_perm; [|eapply grown_app; [exact Hg|exact Hn]].
    rewrite <-!app_assoc. cbn. do 2 f_equiv. apply Permutation_app_comm.
  - by apply grown_one.
Qed.

Lemma handle_commit_grown leaders c0 c dags :
  handle_commit c0 s leaders = Ok (c, dags) →
  anchor <$> dags = reference <$> leaders ∧ grown c0 c (flat_map sub_dag_blocks dags).
Proof using Href.
  unfold handle_commit.
  assert (Hgen : ∀ c1 out, grown c0 c1 (flat_map sub_dag_blocks out) →
    foldM (λ '(self, out) leader_block,
             '(self, sub_dag) ← collect_sub_dag self s leader_block;
             Ok (self, out ++ [CommittedSubDag_sort sub_dag])) (c1, out) leaders = Ok (c, dags) →
    anchor <$> dags = (anchor <$> out) ++ (reference <$> leaders) ∧
    grown c0 c (flat_map sub_dag_blocks dags)); [|intros Hf; apply (Hgen c0 []); [apply grown_nil|done]].
  induction leaders as [|b leaders IH]; intros c1 out Hg Hf; cbn [foldM] in Hf.
  - injection Hf as <- <-. by rewrite app_nil_r.
  - apply bind_ok in Hf as ([c2 out2] & Hstep & Hf). apply bind_ok in Hstep as ([c3 d] & Hd & Hstep).
    injection Hstep as <- <-. apply collect_sub_dag_grown in Hd as [Ha Hd].
    apply IH in Hf as [Hanch Hg'].
    + split; [|done]. rewrite Hanch, fmap_app, <-app_assoc. cbn. by rewrite Ha.
    + rewrite flat_map_app. eapply grown_app; [exact Hg|]. cbn. rewrite app_nil_r.
      eapply grown_perm; [|exact Hd]. by rewrite sort_by_round_perm.
Qed.
End Fresh.

(** ** Ancestors *)

Section Collect.
Context {S : Type} `{BlockReaderLaws S} (s : S).

(** [p] is a stored block included by [b]. *)
Definition parent (b p : StatementBlock) : Prop :=
  reference p ∈ includes b ∧ get_block s (reference p) = Some p.

Definition ancestor (b p : StatementBlock) : Prop := rtc parent b p.

(** Everything a stored block includes is stored. *)
Definition causally_complete : Prop :=
  ∀ r b, get_block s r = Some b → ∀ i, i ∈ includes b → is_Some (get_block s i).

(** The includes of committed blocks are committed. *)
Definition closed_set (c : gset BlockReference) : Prop :=
  ∀ r b, r ∈ c → get_block s r = Some b → ∀ i, i ∈ includes b → i ∈ c.

Context (Hcomplete : causally_complete).

(** The effect of the inner loop. *)
Lemma visit_includes_spec l : ∀ c buffer,
  (∀ i, i ∈ l → is_Some (get_block s i)) →
  ∃ new, foldM (visit_include s) (c, buffer) l = Ok (list_to_set (reference <$> new) ∪ c, new ++ buffer) ∧
    NoDup (reference <$> new) ∧
    (∀ b, b ∈ new → reference b ∈ l ∧ reference b ∉ c ∧ get_block s (reference b) = Some b) ∧
    (∀ i, i ∈ l → i ∈ c ∨ i ∈ reference <$> new).
Proof.
  induction l as [|i l IH]; intros c buffer Hl; cbn [foldM].
  - exists []. split_and!.
    + cbn. by rewrite union_empty_l_L.
    + by apply NoDup_nil_2.
    + by intros b ?%not_elem_of_nil.
    + by intros i ?%not_elem_of_nil.
  - destruct (Hl i) as [b Hb]; [left|]. pose proof (get_block_reference s i b Hb) as Href.
    unfold visit_include at 2. rewrite Hb. cbn [expect mbind outcome_bind].
    assert (Hl' : ∀ j, j ∈ l → is_Some (get_block s j)) by (intros j Hj; apply Hl; by right).
    case_bool_decide as Hin; cbn [mbind outcome_bind].
    + destruct (IH c buffer Hl') as (new & -> & Hnd & Hnew & Hall). exists new. split_and!; [done|done| |].
      * intros b' Hb'. destruct (Hnew b' Hb') as (? & ? & ?). split_and!; [by right|done..].
      * intros j [->|Hj]%elem_of_cons; [by left|by apply Hall].
    + destruct (IH ({[i]} ∪ c) (b :: buffer) Hl') as (new & -> & Hnd & Hnew & Hall).
      exists (new ++ [b]). rewrite fmap_app, fmap_cons, fmap_nil, Href, <-app_assoc. split_and!.
      * do 2 f_equal. rewrite list_to_set_app_L. set_solver.
      * apply NoDup_app. split_and!; [done| |apply NoDup_singleton].
        intros r (b' & -> & Hb')%list_elem_of_fmap Hr%list_elem_of_singleton.
        destruct (Hnew b' Hb') as (_ & Hn & _). set_solver.
      * intros b' [Hb'| ->%list_elem_of_singleton]%elem_of_app.
        -- destruct (Hnew b' Hb') as (? & Hn & ?). split_and!; [by right|set_solver|done].
        -- rewrite Href. split_and!; [left|done|done].
      * intros j [->|Hj]%elem_of_cons; [right; set_solver|].
        destruct (Hall j Hj) as [?|?]; set_solver.
Qed.

(** *** The loop *)

Record collect_inv (c0 : gset BlockReference) (leader : StatementBlock)
    (c : gset BlockReference) (buffer to_commit : list StatementBlock) : Prop := {
  ci_set : c = list_to_set (reference <$> (to_commit ++ buffer)) ∪ c0;
  ci_nodup : NoDup (reference <$> (to_commit ++ buffer));
  ci_fresh : ∀ b, b ∈ to_commit ++ buffer → reference b ∉ c0;
  ci_stored : ∀ b, b ∈ to_commit ++ buffer → get_block s (reference b) = Some b;
  ci_reach : ∀ b, b ∈ to_commit ++ buffer → ancestor leader b;
  ci_leader : leader ∈ to_commit ++ buffer;
  ci_done : ∀ b i, b ∈ to_commit → i ∈ includes b → i ∈ c;
}.

Lemma collect_step_inv c0 leader c buffer to_commit x :
  collect_inv c0 leader c (x :: buffer) to_commit →
  ∃ c' buffer', collect_step s (c, x :: buffer, to_commit) = Ok (inl (c', buffer', to_commit ++ [x])) ∧
    collect_inv c0 leader c' buffer' (to_commit ++ [x]).
Proof.
  intros [Hset Hnd Hfresh Hst Hreach Hlead Hdone].
  assert (Hx : get_block s (reference x) = Some x) by (apply Hst; set_solver).
  unfold collect_step.
  destruct (visit_includes_spec (includes x) c buffer) as (new & -> & Hnd' & Hnew & Hall).
  { by apply (Hcomplete (reference x)). }
  cbn [mbind outcome_bind]. eexists _, _. split; [done|].
  assert (Hsplit : ∀ b, b ∈ (to_commit ++ [x]) ++ new ++ buffer ↔ b ∈ to_commit ++ x :: buffer ∨ b ∈ new) by set_solver.
  constructor.
  - subst c. apply set_eq. intros r. rewrite !elem_of_union, !elem_of_list_to_set, !list_elem_of_fmap.
    setoid_rewrite Hsplit. naive_solver.
  - assert ((to_commit ++ [x]) ++ new ++ buffer ≡ₚ new ++ (to_commit ++ x :: buffer)) as Hp.
    { rewrite (Permutation_app_comm new (to_commit ++ x :: buffer)), (Permutation_app_comm new buffer).
      by rewrite <-!app_assoc. }
    rewrite Hp, fmap_app. apply NoDup_app. split_and!; [done| |done].
    intros r (b & -> & Hb)%list_elem_of_fmap Hr. destruct (Hnew b Hb) as (_ & Hn & _).
    apply Hn. rewrite Hset. apply elem_of_union_l, elem_of_list_to_set, Hr.
  - intros b [?|Hb]%Hsplit; [by apply Hfresh|]. destruct (Hnew b Hb) as (_ & Hn & _). set_solver.
  - intros b [?|Hb]%Hsplit; [by apply Hst|]. by destruct (Hnew b Hb) as (_ & _ & ?).
  - intros b [?|Hb]%Hsplit; [by apply Hreach|]. destruct (Hnew b Hb) as (Hinc & _ & Hget).
    eapply rtc_r; [apply (Hreach x); set_solver|by split].
  - apply Hsplit. by left.
  - intros b i [Hb| ->%list_elem_of_singleton]%elem_of_app Hi.
    + apply elem_of_union_r. by eapply Hdone.
    + destruct (Hall i Hi) as [?|?]; set_solver.
Qed.

(** What a finished collection has. *)
Definition collected (c0 : gset BlockReference) (leader : StatementBlock)
    (to_commit : list StatementBlock) : Prop :=
  NoDup (reference <$> to_commit) ∧
  ∀ b, b ∈ to_commit ↔ ancestor leader b ∧ reference b ∉ c0.

Lemma ancestor_stored leader b :
  get_block s (reference leader) = Some leader → ancestor leader b → get_block s (reference b) = Some b.
Proof.
  intros Hl Ha. revert Hl. induction Ha as [|b1 b2 b3 [_ Hb2] _ IH]; [done|]. intros _. by apply IH.
Qed.

Lemma collect_inv_end c0 leader c to_commit :
  closed_set c0 → get_block s (reference leader) = Some leader →
  collect_inv c0 leader c [] to_commit →
  collected c0 leader to_commit ∧ c = list_to_set (reference <$> to_commit) ∪ c0 ∧ closed_set c.
Proof.
  intros Hclosed Hl [Hset Hnd Hfresh Hst Hreach Hlead Hdone].
  rewrite app_nil_r in *.
  assert (Hcl : closed_set c).
  { intros r b Hr Hb i Hi. rewrite Hset in Hr. apply elem_of_union in Hr as [Hr|Hr].
    - apply elem_of_list_to_set, list_elem_of_fmap in Hr as (b' & -> & Hb').
      rewrite (Hst b' Hb') in Hb. simplify_eq. by eapply Hdone.
    - rewrite Hset. apply elem_of_union_r. by eapply Hclosed. }
  split_and!; [split; [done|]|done|done]. intros b. split; [auto|]. intros [Ha Hn].
  assert (reference b ∈ c) as Hin.
  { assert (Hgen : ∀ x, ancestor x b → reference x ∈ c → get_block s (reference x) = Some x →
              reference b ∈ c).
    { clear Ha Hn. induction 1 as [|x y z [Hinc Hy] _ IH]; [done|]. intros Hx Hgx.
      apply IH; [by eapply Hcl|done]. }
    apply (Hgen leader Ha); [|done]. rewrite Hset.
    apply elem_of_union_l, elem_of_list_to_set. by apply list_elem_of_fmap_2. }
  rewrite Hset in Hin. apply elem_of_union in Hin as [Hin|?]; [|done].
  apply elem_of_list_to_set, list_elem_of_fmap in Hin as (b' & Heq & Hb').
  assert (b = b') as ->; [|done]. pose proof (Hst b' Hb') as H1.
  pose proof (ancestor_stored leader b Hl Ha) as H2. rewrite Heq in H2. congruence.
Qed.

Lemma collect_sub_dag_spec c0 leader :
  closed_set c0 → get_block s (reference leader) = Some leader → reference leader ∉ c0 →
  ∃ to_commit c, collect_sub_dag c0 s leader = Ok (c, mkSubDag (reference leader) to_commit) ∧
    collected c0 leader to_commit ∧ c = list_to_set (reference <$> to_commit) ∪ c0 ∧ closed_set c.
Proof.
  intros Hclosed Hl Hn. unfold collect_sub_dag. rewrite (bool_decide_false (_ ∈ c0)) by done.
  cbn [negb rust_assert mbind outcome_bind].
  set (Q := λ o : outcome (gset BlockReference * list StatementBlock), match o with
    | Ok (c, tc) => collect_inv c0 leader c [] tc | _ => False end).
  assert (Q (loop (collect_step s) (len_expensive s + 2)
               ({[reference leader]} ∪ c0, [leader], []))) as HQ.
  { apply (loop_rule (collect_step s)
      (λ '(c, buffer, tc), collect_inv c0 leader c buffer tc) Q
      (λ '(c, buffer, tc), len_expensive s + 1 - N.of_nat (length tc))).
    - intros [[c buffer] tc] Hinv. destruct buffer as [|x buffer]; [exact Hinv|].
      destruct (collect_step_inv c0 leader c buffer tc x Hinv) as (c' & buffer' & -> & Hinv').
      split; [done|]. rewrite length_app. cbn [length].
      assert (N.of_nat (length (reference <$> ((tc ++ [x]) ++ buffer'))) ≤ len_expensive s) as Hlen.
      { apply len_bound; [apply Hinv'|]. intros r (b & -> & Hb)%list_elem_of_fmap.
        exists b. by apply (ci_stored _ _ _ _ _ Hinv'). }
      rewrite length_fmap, !length_app in Hlen. cbn [length] in Hlen. lia.
    - constructor; cbn.
      + by rewrite union_empty_r_L.
      + apply NoDup_singleton.
      + by intros b ->%list_elem_of_singleton.
      + by intros b ->%list_elem_of_singleton.
      + intros b ->%list_elem_of_singleton. apply rtc_refl.
      + by apply list_elem_of_singleton.
      + by intros b i ?%not_elem_of_nil.
    - lia. }
  destruct (loop _ _ _) as [[c tc]| |]; [|done|done]. cbn [mbind outcome_bind].
  exists tc, c. split; [done|]. by apply collect_inv_end.
Qed.

(** Includes point to lower rounds. *)
Definition lower_includes : Prop :=
  ∀ r b, get_block s r = Some b → ∀ i, i ∈ includes b → br_round i < block_round b.

Lemma ancestor_round leader b :
  lower_includes → get_block s (reference leader) = Some leader → ancestor leader b →
  b = leader ∨ block_round b < block_round leader.
Proof.
  intros Hlow Hl Ha. revert Hl. induction Ha as [|b1 b2 b3 [Hinc Hb2] _ IH]; [by left|]. intros Hl.
  pose proof (Hlow _ _ Hl _ Hinc) as Hlt. destruct (IH Hb2) as [->|?]; right; unfold block_round in *; lia.
Qed.

(** What the sub-dags [subs] of the leaders are, the references [c0] being
    committed before. *)
Definition linearized (c0 : gset BlockReference) (leaders : list StatementBlock)
    (subs : list CommittedSubDag) : Prop :=
  Forall2 (λ leader sub, anchor sub = reference leader ∧
             StronglySorted round_le (sub_dag_blocks sub) ∧
             ∀ b, b ∈ sub_dag_blocks sub → ancestor leader b) leaders subs ∧
  NoDup (reference <$> (subs ≫= sub_dag_blocks)) ∧
  (∀ b, b ∈ subs ≫= sub_dag_blocks ↔
     (∃ leader, leader ∈ leaders ∧ ancestor leader b) ∧ reference b ∉ c0).

Lemma linearized_cons c0 leader tc leaders subs :
  collected c0 leader tc → (∀ l, l ∈ leader :: leaders → get_block s (reference l) = Some l) →
  linearized (list_to_set (reference <$> tc) ∪ c0) leaders subs →
  linearized c0 (leader :: leaders) (CommittedSubDag_sort (mkSubDag (reference leader) tc) :: subs).
Proof.
  intros [Hnd Htc] Hst (Hall & Hnds & Hin). unfold CommittedSubDag_sort. cbn [anchor sub_dag_blocks].
  assert (Hb : ∀ b, b ∈ (mkSubDag (reference leader) (sort_by_round tc) :: subs) ≫= sub_dag_blocks ↔
                    b ∈ tc ∨ b ∈ subs ≫= sub_dag_blocks).
  { intros b. rewrite bind_cons, elem_of_app. cbn [sub_dag_blocks]. by rewrite sort_by_round_perm. }
  split_and!.
  - constructor; [|done]. split_and!; [done|apply sort_by_round_sorted|].
    intros b. cbn [sub_dag_blocks]. rewrite sort_by_round_perm. intros Hbt. by apply Htc in Hbt as [? _].
  - rewrite bind_cons. cbn [sub_dag_blocks]. rewrite sort_by_round_perm, fmap_app. apply NoDup_app.
    split_and!; [done| |done]. intros r Hr (b & -> & Hb')%list_elem_of_fmap.
    apply Hin in Hb' as [_ Hn]. apply Hn. apply elem_of_union_l. by apply elem_of_list_to_set.
  - intros b. rewrite Hb, Htc, Hin, elem_of_union, elem_of_list_to_set. setoid_rewrite elem_of_cons. split.
    + intros [[? ?]|[(l & ? & ?) Hn]]; [eauto|]. split; [eauto|tauto].
    + intros [(l & [->|Hl] & Ha) Hn]; [by left|].
      destruct (decide (reference b ∈ reference <$> tc)) as [Hd|Hd]; [|right; naive_solver].
      left. split; [|done]. apply list_elem_of_fmap in Hd as (b' & Heq & Hb').
      apply Htc in Hb' as [Ha' _].
      assert (b = b') as ->; [|done].
      pose proof (ancestor_stored l b ltac:(apply Hst; by right) Ha) as H1.
      pose proof (ancestor_stored leader b' ltac:(apply Hst; left) Ha') as H2.
      rewrite Heq in H1. congruence.
Qed.

Lemma handle_commit_spec leaders : ∀ c0 out,
  lower_includes → closed_set c0 →
  (∀ l, l ∈ leaders → get_block s (reference l) = Some l ∧ reference l ∉ c0) →
  StronglySorted (λ l1 l2, block_round l1 < block_round l2) leaders →
  ∃ c subs,
    foldM (λ '(self, out) leader_block,
             '(self, sub_dag) ← collect_sub_dag self s leader_block;
             Ok (self, out ++ [CommittedSubDag_sort sub_dag])) (c0, out) leaders
      = Ok (c, out ++ subs) ∧
    linearized c0 leaders subs ∧ closed_set c ∧
    c = list_to_set (reference <$> (subs ≫= sub_dag_blocks)) ∪ c0.
Proof.
  induction leaders as [|l leaders IH]; intros c0 out Hlow Hcl Hl Hsort; cbn [foldM].
  - exists c0, []. rewrite app_nil_r. cbn. split_and!; [done| |done|by rewrite union_empty_l_L].
    split_and!; [constructor|by apply NoDup_nil_2|]. intros b.
    split; [by intros ?%not_elem_of_nil|]. intros [(x & ?%not_elem_of_nil & _) _]. done.
  - destruct (Hl l) as [Hst Hn]; [left|].
    destruct (collect_sub_dag_spec c0 l Hcl Hst Hn) as (tc & c1 & -> & Htc & Hc1 & Hcl1).
    cbn [mbind outcome_bind]. inversion Hsort as [|? ? Hsort' Hlt]; subst.
    destruct (IH (list_to_set (reference <$> tc) ∪ c0)
                (out ++ [CommittedSubDag_sort (mkSubDag (reference l) tc)]) Hlow Hcl1)
      as (c & subs & Hf & Hlin & Hclc & Hc); [|done|].
    { intros l' Hl'. destruct (Hl l') as [Hst' Hn']; [by right|]. split; [done|].
      intros [Hin%elem_of_list_to_set|?]%elem_of_union; [|done].
      apply list_elem_of_fmap in Hin as (b & Heq & Hb). apply Htc in Hb as [Ha _].
      rewrite Forall_forall in Hlt. specialize (Hlt l' Hl').
      destruct (ancestor_round l b Hlow Hst Ha) as [->|Hr]; unfold block_round in *; rewrite Heq in *; lia. }
    exists c, (CommittedSubDag_sort (mkSubDag (reference l) tc) :: subs).
    split_and!; [|by apply linearized_cons; [|intros x Hx; apply Hl|]|done|].
    + etransitivity; [exact Hf|]. by rewrite <-app_assoc.
    + rewrite Hc, bind_cons, fmap_app, list_to_set_app_L. unfold CommittedSubDag_sort. cbn [sub_dag_blocks].
      assert ((list_to_set (reference <$> sort_by_round tc) : gset BlockReference)
              = list_to_set (reference <$> tc)) as ->; [|set_solver].
      apply set_eq. intros r. rewrite !elem_of_list_to_set. by rewrite sort_by_round_perm.
Qed.
End Collect.

(** ** Properties *)


(** The error path of the linearizer: a leader that is already committed trips
    the assertion of [collect_sub_dag], and [handle_commit] panics. *)
Theorem handle_commit_recommit_panics {S} `{BlockReader S} (s : S) c0 leader leaders :
  reference leader ∈ c0 → handle_commit c0 s (leader :: leaders) = Panic.
Proof.
  intros Hin. unfold handle_commit, collect_sub_dag. cbn [foldM].
  by rewrite (bool_decide_true (_ ∈ c0)).
Qed.

(** A three-round DAG: the leader of round 2 includes both blocks of round 1. *)
Definition lin_a : StatementBlock := mkBlock (mkRef 0 1 1) [] [] 0 false 0.
Definition lin_b : StatementBlock := mkBlock (mkRef 1 1 2) [] [] 0 false 0.
Definition lin_leader : StatementBlock := mkBlock (mkRef 0 2 3) [mkRef 0 1 1; mkRef 1 1 2] [] 0 false 0.
Definition lin_dag : Dag :=
  mkDag {[reference lin_a := lin_a; reference lin_b := lin_b; reference lin_leader := lin_leader]} eq_refl.

Lemma lin_dag_blocks r b :
  get_block lin_dag r = Some b → b = lin_a ∨ b = lin_b ∨ b = lin_leader.
Proof.
  cbn [get_block dag_reader lin_dag dag_map]. rewrite !lookup_insert, lookup_singleton.
  repeat case_decide; naive_solver.
Qed.


Lemma handle_commit_recommit_panics_witness :
  handle_commit {[reference lin_leader]} lin_dag [lin_leader] = Panic.
Proof. apply handle_commit_recommit_panics. apply elem_of_singleton. reflexivity. Defined.
