(* ===== verification/Consensus.v ===== *)
(** * Consensus: the commit rules (mysticeti-core/src/consensus/mod.rs,
      base_committer.rs and universal_committer.rs)

    The committers are written against the [BlockReader] interface. A missing
    block of the history and a broken BFT assumption are the panics of the source. *)

From S2P Require Import Prelude Types Committee BlockStore.

Definition MINIMUM_WAVE_LENGTH : RoundNumber := 3.
Definition DEFAULT_WAVE_LENGTH : RoundNumber := MINIMUM_WAVE_LENGTH.

(** ** LeaderStatus *)

Inductive LeaderStatus :=
| Commit (block : StatementBlock)
| Skip (authority : AuthorityIndex) (round : RoundNumber)
| Undecided (authority : AuthorityIndex) (round : RoundNumber).

Definition status_round (s : LeaderStatus) : RoundNumber :=
  match s with Commit b => block_round b | Skip _ r => r | Undecided _ r => r end.
Definition status_authority (s : LeaderStatus) : AuthorityIndex :=
  match s with Commit b => author b | Skip a _ => a | Undecided a _ => a end.
Definition is_decided (s : LeaderStatus) : bool :=
  match s with Commit _ => true | Skip _ _ => true | Undecided _ _ => false end.
Definition into_decided_block (s : LeaderStatus) : outcome (option StatementBlock) :=
  match s with Commit b => Ok (Some b) | Skip _ _ => Ok None | Undecided _ _ => Panic end.
(** [impl Ord for LeaderStatus] *)
Definition LeaderStatus_cmp (s1 s2 : LeaderStatus) : comparison :=
  match status_round s1 ?= status_round s2 with
  | Eq => status_authority s1 ?= status_authority s2
  | c => c
  end.

(** ** BaseCommitter *)

Record BaseCommitterOptions := mkOptions {
  wave_length : N;
  leader_offset : N;
  round_offset : N;
}.

Definition BaseCommitterOptions_default : BaseCommitterOptions := mkOptions DEFAULT_WAVE_LENGTH 0 0.

Record BaseCommitter := mkCommitter { bc_committee : Committee; options : BaseCommitterOptions }.

Definition BaseCommitter_new (c : Committee) : BaseCommitter := mkCommitter c BaseCommitterOptions_default.

Definition with_options (self : BaseCommitter) (o : BaseCommitterOptions) : outcome BaseCommitter :=
  _ ← rust_assert (bool_decide (MINIMUM_WAVE_LENGTH ≤ wave_length o));
  Ok (mkCommitter (bc_committee self) o).

(** [saturating_sub] is the subtraction of [N]. *)
Definition wave_number (self : BaseCommitter) (round : RoundNumber) : N :=
  (round - round_offset (options self)) / wave_length (options self).

Definition leader_round (self : BaseCommitter) (wave : N) : RoundNumber :=
  u64_add (u64_mul wave (wave_length (options self))) (round_offset (options self)).

Definition decision_round (self : BaseCommitter) (wave : N) : RoundNumber :=
  let wl := wave_length (options self) in
  u64_add (u64_sub (u64_add (u64_mul wave wl) wl) 1) (round_offset (options self)).

Definition elect_leader (self : BaseCommitter) (round : RoundNumber) : option AuthorityIndex :=
  let wave := wave_number self round in
  if bool_decide (leader_round self wave = round)
  then Some (committee_elect_leader (bc_committee self) (u64_add round (leader_offset (options self))))
  else None.

Section Committers.
Context {S : Type} `{BlockReader S}.
Implicit Types (s : S).

(** [find_support]: recursion to included blocks, of lower rounds. *)
Fixpoint find_support (fuel : nat) s (slot : AuthorityIndex * RoundNumber) (from : StatementBlock)
    : outcome (option BlockReference) :=
  if bool_decide (block_round from < slot.2) then Ok None
  else
    match fuel with
    | O => OutOfFuel
    | Datatypes.S fuel =>
        (fix go (l : list BlockReference) : outcome (option BlockReference) :=
           match l with
           | [] => Ok None
           | include :: rest =>
               if bool_decide (br_round include < slot.2) then go rest
               else if bool_decide (author_round include = slot) then Ok (Some include)
               else
                 b ← expect (get_block s include);
                 support ← find_support fuel s slot b;
                 match support with Some x => Ok (Some x) | None => go rest end
           end) (includes from)
    end.

(** Rounds decrease by at least one per call, down to the round of the slot. *)
Definition find_support_fuel (slot : AuthorityIndex * RoundNumber) (from : StatementBlock) : nat :=
  N.to_nat (block_round from + 1 - slot.2).

Definition is_vote s (potential_vote leader_block : StatementBlock) : outcome bool :=
  let slot := author_round (reference leader_block) in
  support ← find_support (find_support_fuel slot potential_vote) s slot potential_vote;
  Ok (bool_decide (support = Some (reference leader_block))).

(** The counting loop shared by [is_certificate], [enough_leader_blame] and
    [enough_leader_support]: add the authority of every item that passes the test,
    return as soon as the threshold is reached. *)
Fixpoint count_quorum {A} (c : Committee) (test : A → outcome bool) (authority : A → AuthorityIndex)
    (aggregator : StakeAggregator QuorumThreshold) (l : list A) : outcome bool :=
  match l with
  | [] => Ok false
  | x :: rest =>
      passes ← test x;
      if (passes : bool) then
        '(aggregator, reached) ← StakeAggregator_add aggregator (authority x) c;
        if (reached : bool) then Ok true else count_quorum c test authority aggregator rest
      else count_quorum c test authority aggregator rest
  end.

Definition is_certificate (self : BaseCommitter) s (potential_certificate leader_block : StatementBlock)
    : outcome bool :=
  count_quorum (bc_committee self)
    (λ r, potential_vote ← expect (get_block s r); is_vote s potential_vote leader_block)
    br_authority StakeAggregator_new (includes potential_certificate).

(** [.filter(f).collect()] and [.any(f)] with a panicking [f]. *)
Fixpoint filterM {A} (f : A → outcome bool) (l : list A) : outcome (list A) :=
  match l with
  | [] => Ok []
  | x :: rest => b ← f x; xs ← filterM f rest; Ok (if (b : bool) then x :: xs else xs)
  end.
Fixpoint anyM {A} (f : A → outcome bool) (l : list A) : outcome bool :=
  match l with
  | [] => Ok false
  | x :: rest => b ← f x; if (b : bool) then Ok true else anyM f rest
  end.

Definition decide_leader_from_anchor (self : BaseCommitter) s (anchor : StatementBlock)
    (leader : AuthorityIndex) (leader_round : RoundNumber) : outcome LeaderStatus :=
  let leader_blocks := get_blocks_at_authority_round s leader leader_round in
  let wave := wave_number self leader_round in
  let decision_blocks := get_blocks_by_round s (decision_round self wave) in
  let potential_certificates := List.filter (λ block, linked s anchor block) decision_blocks in
  certified_leader_blocks ←
    filterM (λ leader_block,
      anyM (λ potential_certificate, is_certificate self s potential_certificate leader_block)
        potential_certificates) leader_blocks;
  _ ← rust_assert (negb (bool_decide (1 < length certified_leader_blocks)%nat));
  match last certified_leader_blocks with
  | Some certified_leader_block => Ok (Commit certified_leader_block)
  | None => Ok (Skip leader leader_round)
  end.

Definition enough_leader_blame (self : BaseCommitter) s (voting_round : RoundNumber)
    (leader : AuthorityIndex) : outcome bool :=
  count_quorum (bc_committee self)
    (λ voting_block, Ok (forallb (λ i, negb (bool_decide (br_authority i = leader))) (includes voting_block)))
    author StakeAggregator_new (get_blocks_by_round s voting_round).

Definition enough_leader_support (self : BaseCommitter) s (decision_round : RoundNumber)
    (leader_block : StatementBlock) : outcome bool :=
  count_quorum (bc_committee self)
    (λ decision_block, is_certificate self s decision_block leader_block)
    author StakeAggregator_new (get_blocks_by_round s decision_round).

(** The loop over the anchors: the first committed one decides. *)
Fixpoint indirect_loop (self : BaseCommitter) s (leader : AuthorityIndex) (leader_round : RoundNumber)
    (anchors : list LeaderStatus) : outcome LeaderStatus :=
  match anchors with
  | [] => Ok (Undecided leader leader_round)
  | Commit anchor :: _ => decide_leader_from_anchor self s anchor leader leader_round
  | Skip _ _ :: rest => indirect_loop self s leader leader_round rest
  | Undecided _ _ :: _ => Ok (Undecided leader leader_round)
  end.

Definition try_indirect_decide (self : BaseCommitter) s (leader : AuthorityIndex)
    (leader_round : RoundNumber) (leaders : list LeaderStatus) : outcome LeaderStatus :=
  indirect_loop self s leader leader_round
    (List.filter
       (λ x, bool_decide (u64_add leader_round (wave_length (options self)) ≤ status_round x)) leaders).

Definition try_direct_decide (self : BaseCommitter) s (leader : AuthorityIndex)
    (leader_round : RoundNumber) : outcome LeaderStatus :=
  blamed ← enough_leader_blame self s (u64_add leader_round 1) leader;
  if (blamed : bool) then Ok (Skip leader leader_round)
  else
    let wave := wave_number self leader_round in
    let leader_blocks := get_blocks_at_authority_round s leader leader_round in
    supported ← filterM (enough_leader_support self s (decision_round self wave)) leader_blocks;
    let leaders_with_enough_support := Commit <$> supported in
    _ ← rust_assert (negb (bool_decide (1 < length leaders_with_enough_support)%nat));
    Ok (default (Undecided leader leader_round) (last leaders_with_enough_support)).

(** ** UniversalCommitter *)

(** The body of the two loops of [try_commit] for one committer and round. *)
Definition decide_slot s (round : RoundNumber) (leaders : list LeaderStatus)
    (committer : BaseCommitter) : outcome (list LeaderStatus) :=
  match elect_leader committer round with
  | None => Ok leaders
  | Some leader =>
      status ← try_direct_decide committer s leader round;
      status ← if is_decided status then Ok status
               else try_indirect_decide committer s leader round leaders;
      Ok (status :: leaders)
  end.

Definition decide_rounds s (committers : list BaseCommitter) (rounds : list RoundNumber)
    : outcome (list LeaderStatus) :=
  foldM (λ leaders round, foldM (decide_slot s round) leaders (rev committers)) [] rounds.

Fixpoint skip_while {A} (p : A → bool) (l : list A) : list A :=
  match l with [] => [] | x :: rest => if p x then skip_while p rest else l end.
Fixpoint take_while {A} (p : A → bool) (l : list A) : list A :=
  match l with [] => [] | x :: rest => if p x then x :: take_while p rest else [] end.

(** The part of the decided leaders that [try_commit] returns. *)
Definition decided_sequence (last_decided : BlockReference) (leaders : list LeaderStatus)
    : list LeaderStatus :=
  take_while is_decided
    (List.filter (λ x, bool_decide (0 < status_round x))
       (drop 1 (skip_while
          (λ x, negb (bool_decide ((status_round x, status_authority x)
                                   = (br_round last_decided, br_authority last_decided)))) leaders))).

Definition try_commit (committers : list BaseCommitter) s (last_decided : BlockReference)
    : outcome (list LeaderStatus) :=
  let highest_known_round := reader_highest_round s in
  leaders ← decide_rounds s committers
              (rev (range_list (br_round last_decided) (highest_known_round + 1)));
  Ok (decided_sequence last_decided leaders).

Definition get_leaders (committers : list BaseCommitter) (round : RoundNumber) : list AuthorityIndex :=
  omap (λ committer, elect_leader committer round) committers.
End Committers.

(** [UniversalCommitterBuilder]: the committers, pipeline stage by stage. *)
Record UniversalCommitterBuilder := mkBuilder {
  ub_committee : Committee;
  ub_wave_length : RoundNumber;
  ub_number_of_leaders : N;
  ub_pipeline : bool;
}.

Definition UniversalCommitterBuilder_new (c : Committee) : UniversalCommitterBuilder :=
  mkBuilder c DEFAULT_WAVE_LENGTH 1 false.
Definition with_wave_length (b : UniversalCommitterBuilder) (wl : RoundNumber) : UniversalCommitterBuilder :=
  mkBuilder (ub_committee b) wl (ub_number_of_leaders b) (ub_pipeline b).
Definition with_number_of_leaders (b : UniversalCommitterBuilder) (n : N) : UniversalCommitterBuilder :=
  mkBuilder (ub_committee b) (ub_wave_length b) n (ub_pipeline b).
Definition with_pipeline (b : UniversalCommitterBuilder) (p : bool) : UniversalCommitterBuilder :=
  mkBuilder (ub_committee b) (ub_wave_length b) (ub_number_of_leaders b) p.

Definition builder_build (b : UniversalCommitterBuilder) : outcome (list BaseCommitter) :=
  let pipeline_stages := if ub_pipeline b then ub_wave_length b else 1 in
  foldM (λ committers ro,
    foldM (λ committers lo,
      committer ← with_options (BaseCommitter_new (ub_committee b)) (mkOptions (ub_wave_length b) lo ro);
      Ok (committers ++ [committer]))
      committers (range_list 0 (ub_number_of_leaders b)))
    [] (range_list 0 pipeline_stages).
