(* ===== verification/ConsensusSafety.v ===== *)
(** * ConsensusSafety: agreement of the commit rules

    Views are stores of correct validators ([wf_view]); all of them are part of a
    global DAG in which the authorities outside a set [B] of at most one third of
    the stake do not equivocate. Decisions of the direct and of the indirect rule
    are characterised in the global DAG, independently of the view, and compared. *)

From S2P Require Import Prelude Types Committee ThresholdClock BlockStore Linearizer Consensus.

(** ** The monadic list operations *)

Lemma filterM_ok {A} (f : A → outcome bool) (P : A → bool) l :
  (∀ x, x ∈ l → f x = Ok (P x)) → filterM f l = Ok (List.filter P l).
Proof.
  induction l as [|x l IH]; intros Hf; simpl; [done|].
  rewrite Hf by left. simpl. rewrite IH; [done|]. intros y Hy. apply Hf. by right.
Qed.

Lemma anyM_ok {A} (f : A → outcome bool) (P : A → bool) l :
  (∀ x, x ∈ l → f x = Ok (P x)) → anyM f l = Ok (existsb P l).
Proof.
  induction l as [|x l IH]; intros Hf; simpl; [done|].
  rewrite Hf by left. simpl. destruct (P x); [done|]. apply IH. intros y Hy. apply Hf. by right.
Qed.

(** The authorities of the items that pass a test. *)
Definition passing {A} (P : A → bool) (authority : A → AuthorityIndex) (l : list A) : gset AuthorityIndex :=
  list_to_set (authority <$> List.filter P l).

Lemma elem_of_passing {A} (P : A → bool) authority l a :
  a ∈ passing P authority l ↔ ∃ x, x ∈ l ∧ P x = true ∧ authority x = a.
Proof.
  unfold passing. rewrite elem_of_list_to_set, list_elem_of_fmap.
  setoid_rewrite list_elem_of_In. setoid_rewrite filter_In. naive_solver.
Qed.

Lemma count_quorum_agg {A} c (test : A → outcome bool) P authority l : ∀ agg X,
  wf_committee c → agg_inv c agg X → is_quorum c (set_stake c X) = false →
  (∀ x, x ∈ l → test x = Ok (P x)) →
  (∀ x, x ∈ l → P x = true → authority x < committee_len c) →
  count_quorum c test authority agg l
  = Ok (is_quorum c (set_stake c (passing P authority l ∪ X))).
Proof.
  induction l as [|x l IH]; intros agg X Hwf Hagg Hq Ht Hk; simpl.
  - unfold passing. cbn. by rewrite union_empty_l_L, Hq.
  - rewrite Ht by left. simpl.
    assert (Ht' : ∀ y, y ∈ l → test y = Ok (P y)) by (intros y Hy; apply Ht; by right).
    assert (Hk' : ∀ y, y ∈ l → P y = true → authority y < committee_len c)
      by (intros y Hy; apply Hk; by right).
    destruct (P x) eqn:HP.
    + assert (passing P authority (x :: l) ∪ X = passing P authority l ∪ ({[authority x]} ∪ X)) as ->.
      { unfold passing. simpl. rewrite HP. rewrite fmap_cons. cbn [list_to_set]. set_solver. }
      destruct (StakeAggregator_add_spec c agg X (authority x) Hwf Hagg) as (agg' & -> & Hagg').
      { apply Hk; [left|done]. }
      simpl. unfold is_threshold, quorum_is_threshold.
      destruct (is_quorum c (set_stake c ({[authority x]} ∪ X))) eqn:Hq'.
      * f_equal. symmetry. apply (quorum_mono _ _ _ Hq'), set_stake_subseteq. set_solver.
      * by apply IH.
    + assert (passing P authority (x :: l) = passing P authority l) as ->.
      { unfold passing. simpl. by rewrite HP. }
      by apply IH.
Qed.

(** The counting loop decides whether the passing authorities are a quorum. *)
Lemma count_quorum_spec {A} c (test : A → outcome bool) P authority l :
  wf_committee c → (∀ x, x ∈ l → test x = Ok (P x)) →
  (∀ x, x ∈ l → P x = true → authority x < committee_len c) →
  count_quorum c test authority StakeAggregator_new l
  = Ok (is_quorum c (set_stake c (passing P authority l))).
Proof.
  intros Hwf Ht Hk. rewrite (count_quorum_agg c test P authority l _ ∅); try done.
  - by rewrite union_empty_r_L.
  - apply agg_inv_new.
  - apply is_quorum_empty.
Qed.

(** ** Views *)

Section Views.
Context {S : Type} `{BlockReaderLaws S}.
Implicit Types (s g : S) (b p : StatementBlock).

Notation stored s b := (get_block s (reference b) = Some b).

(** The store of a correct validator: complete histories, rounds that decrease
    along includes, known authors, and blocks valid for the threshold clock. *)
Record wf_view (c : Committee) s : Prop := {
  v_complete : causally_complete s;
  v_lower : lower_includes s;
  v_known : ∀ b, stored s b → author b < committee_len c;
  v_quorum : ∀ b, stored s b → 0 < block_round b →
    is_quorum c (set_stake c (authors_at (block_round b - 1) (includes b))) = true;
  v_bound : ∀ b, stored s b → block_round b < 2 ^ 63;
}.

Definition sub_view s g : Prop := ∀ r b, get_block s r = Some b → get_block g r = Some b.

Lemma stored_of_get s r b : get_block s r = Some b → stored s b.
Proof. intros Hb. by rewrite (get_block_reference s r b Hb). Qed.

Lemma view_include c s b i :
  wf_view c s → stored s b → i ∈ includes b →
  ∃ p, get_block s i = Some p ∧ reference p = i ∧ stored s p ∧ block_round p < block_round b ∧
       br_authority i = author p.
Proof.
  intros Hv Hb Hi. destruct (v_complete c s Hv _ _ Hb i Hi) as [p Hp]. exists p.
  pose proof (get_block_reference s i p Hp) as Href. pose proof (v_lower c s Hv _ _ Hb i Hi).
  split_and!; [done|done|by eapply stored_of_get| |by subst].
  unfold block_round at 1. by rewrite Href.
Qed.

(** *** Support is a function of the history of the block *)

(** The inner loop of [find_support] for a given recursive call. *)
Definition support_loop s (slot : AuthorityIndex * RoundNumber)
    (rec : StatementBlock → outcome (option BlockReference)) :=
  fix go (l : list BlockReference) : outcome (option BlockReference) :=
    match l with
    | [] => Ok None
    | include :: rest =>
        if bool_decide (br_round include < slot.2) then go rest
        else if bool_decide (author_round include = slot) then Ok (Some include)
        else
          b ← expect (get_block s include);
          support ← rec b;
          match support with Some x => Ok (Some x) | None => go rest end
    end.

Lemma find_support_unfold fuel s slot b :
  find_support fuel s slot b =
  if bool_decide (block_round b < slot.2) then Ok None
  else match fuel with
       | O => OutOfFuel
       | Datatypes.S fuel => support_loop s slot (find_support fuel s slot) (includes b)
       end.
Proof. by destruct fuel. Qed.

Lemma find_support_local c s g slot : wf_view c s → sub_view s g → ∀ f1 f2 b,
  stored s b → (N.to_nat (block_round b + 1 - slot.2) ≤ f1)%nat →
  (N.to_nat (block_round b + 1 - slot.2) ≤ f2)%nat →
  ∃ r, find_support f1 s slot b = Ok r ∧ find_support f2 g slot b = Ok r.
Proof.
  intros Hv Hsub. induction f1 as [|f1 IH]; intros f2 b Hb Hf1 Hf2;
    rewrite (find_support_unfold f2), find_support_unfold;
    case_bool_decide as Hr; try (by exists None); [lia|].
  destruct f2 as [|f2]; [lia|].
  assert (Hincl : ∀ i, i ∈ includes b → i ∈ includes b) by done.
  revert Hincl. generalize (includes b) at 1 3 4. intros l.
  induction l as [|i l IHl]; intros Hl; simpl; [by exists None|].
  assert (Hl' : ∀ j, j ∈ l → j ∈ includes b) by (intros j Hj; apply Hl; by right).
  case_bool_decide as Hi; [by apply IHl|]. case_bool_decide; [by eexists|].
  destruct (view_include c s b i Hv Hb) as (p & Hp & Href & Hps & Hlt & _); [apply Hl; left|].
  rewrite Hp, (Hsub _ _ Hp). simpl.
  destruct (IH f2 p Hps) as (r & -> & ->); [lia..|]. simpl. destruct r; [by eexists|]. by apply IHl.
Qed.

(** The block at [slot] that [b] supports. *)
Definition support s (slot : AuthorityIndex * RoundNumber) b : option BlockReference :=
  match find_support (find_support_fuel slot b) s slot b with Ok r => r | _ => None end.

Lemma find_support_support c s g slot b :
  wf_view c s → sub_view s g → stored s b →
  find_support (find_support_fuel slot b) s slot b = Ok (support g slot b).
Proof.
  intros Hv Hsub Hb.
  destruct (find_support_local c s g slot Hv Hsub (find_support_fuel slot b) (find_support_fuel slot b) b)
    as (r & -> & Hr); [done|by unfold find_support_fuel..|]. unfold support. by rewrite Hr.
Qed.

Lemma support_loop_slot s slot rec l r :
  (∀ b x, rec b = Ok (Some x) → author_round x = slot) →
  support_loop s slot rec l = Ok (Some r) → author_round r = slot ∧ ∃ i, i ∈ l ∧ slot.2 ≤ br_round i.
Proof.
  intros Hrec. induction l as [|i l IH]; simpl; [done|].
  case_bool_decide as Hi.
  { intros [? (j & ? & ?)]%IH. split; [done|]. exists j. split; [by right|done]. }
  case_bool_decide as Hs.
  { intros [= <-]. split; [done|]. exists i. split; [left|lia]. }
  intros (p & Hp & Hok)%bind_ok. apply bind_ok in Hok as ([x|] & Hx & Hok).
  - injection Hok as <-. split; [by eapply Hrec|]. exists i. split; [left|lia].
  - apply IH in Hok as [? (j & ? & ?)]. split; [done|]. exists j. split; [by right|done].
Qed.

Lemma find_support_slot s slot fuel : ∀ b r,
  find_support fuel s slot b = Ok (Some r) →
  author_round r = slot ∧ ∃ i, i ∈ includes b ∧ slot.2 ≤ br_round i.
Proof.
  induction fuel as [|fuel IH]; intros b r; rewrite find_support_unfold;
    case_bool_decide; try done. intros Hs. eapply support_loop_slot in Hs; [done|].
  intros b' x Hx. by apply IH in Hx as [? _].
Qed.

(** Support only comes from later rounds. *)
Lemma support_later c s slot b r :
  wf_view c s → stored s b → support s slot b = Some r →
  author_round r = slot ∧ slot.2 < block_round b.
Proof.
  intros Hv Hb. unfold support. destruct (find_support _ s slot b) as [o| |] eqn:Hf; [|done..].
  intros ->. apply find_support_slot in Hf as [? (i & Hi & Hle)]. split; [done|].
  pose proof (v_lower c s Hv _ _ Hb i Hi). lia.
Qed.

Lemma support_loop_case s slot rec l r :
  support_loop s slot rec l = Ok (Some r) →
  r ∈ l ∨ ∃ i p, i ∈ l ∧ get_block s i = Some p ∧ rec p = Ok (Some r).
Proof.
  induction l as [|i l IH]; simpl; [done|].
  assert (Hcons : (r ∈ l ∨ ∃ i p, i ∈ l ∧ get_block s i = Some p ∧ rec p = Ok (Some r)) →
                  r ∈ i :: l ∨ ∃ j p, j ∈ i :: l ∧ get_block s j = Some p ∧ rec p = Ok (Some r)).
  { intros [?|(j & p & ? & ? & ?)]; [left; by right|]. right. exists j, p. split; [by right|done]. }
  case_bool_decide; [auto|]. case_bool_decide.
  { intros [= <-]. left. left. }
  intros (p & Hp%expect_ok & Hok)%bind_ok. apply bind_ok in Hok as ([x|] & Hx & Hok); [|auto].
  injection Hok as <-. right. exists i, p. split; [left|done].
Qed.

(** A block of the next round supports only what it includes. *)
Lemma support_direct c s slot b r :
  wf_view c s → stored s b → block_round b = slot.2 + 1 → support s slot b = Some r → r ∈ includes b.
Proof.
  intros Hv Hb Hr. unfold support. destruct (find_support _ s slot b) as [o| |] eqn:Hf; [|done..].
  intros ->. unfold find_support_fuel in Hf. rewrite find_support_unfold in Hf.
  rewrite bool_decide_false in Hf by lia.
  destruct (N.to_nat _) as [|fuel]; [done|].
  apply support_loop_case in Hf as [?|(i & p & Hi & Hp & Hrec)]; [done|]. exfalso.
  apply find_support_slot in Hrec as [_ (j & Hj & Hle)].
  pose proof (v_lower c s Hv _ _ Hb i Hi). pose proof (v_lower c s Hv _ _ Hp j Hj).
  pose proof (get_block_reference s i p Hp). unfold block_round in *. subst i. lia.
Qed.

(** *** Certificates *)

Definition voteb g (leader b : StatementBlock) : bool :=
  bool_decide (support g (author_round (reference leader)) b = Some (reference leader)).

(** The authors of the includes of [cert] that vote for the leader block. *)
Definition voters g (cert leader : StatementBlock) : gset AuthorityIndex :=
  passing (λ i, match get_block g i with Some b => voteb g leader b | None => false end)
    br_authority (includes cert).

Definition certb (c : Committee) g (cert leader : StatementBlock) : bool :=
  is_quorum c (set_stake c (voters g cert leader)).

Lemma elem_of_voters c g cert leader a :
  wf_view c g → stored g cert →
  a ∈ voters g cert leader ↔ ∃ b, reference b ∈ includes cert ∧ stored g b ∧ author b = a ∧
    support g (author_round (reference leader)) b = Some (reference leader).
Proof.
  intros Hg Hcert. unfold voters. rewrite elem_of_passing. split.
  - intros (i & Hi & Hvote & Ha). destruct (view_include c g cert i Hg Hcert Hi) as (b & Hb & Href & Hst & _ & Hab).
    rewrite Hb in Hvote. exists b. apply bool_decide_eq_true in Hvote. subst i. split_and!; done.
  - intros (b & Hi & Hst & Ha & Hs). exists (reference b). rewrite Hst. split_and!; [done| |done].
    by apply bool_decide_eq_true.
Qed.

Lemma is_vote_spec c s g b leader :
  wf_view c s → sub_view s g → stored s b → is_vote s b leader = Ok (voteb g leader b).
Proof.
  intros Hv Hsub Hb. unfold is_vote. rewrite (find_support_support c s g) by done. done.
Qed.

Lemma is_certificate_spec c self s g cert leader :
  wf_committee c → bc_committee self = c → wf_view c s → sub_view s g → stored s cert →
  is_certificate self s cert leader = Ok (certb c g cert leader).
Proof.
  intros Hc <- Hv Hsub Hcert. unfold is_certificate, certb, voters.
  apply count_quorum_spec; [done| |].
  - intros i Hi. destruct (view_include _ s cert i Hv Hcert Hi) as (b & Hb & _ & Hst & _ & _).
    rewrite Hb, (Hsub _ _ Hb). simpl. by apply (is_vote_spec (bc_committee self)).
  - intros i Hi _. destruct (view_include _ s cert i Hv Hcert Hi) as (b & _ & _ & Hst & _ & ->).
    by apply (v_known _ s Hv).
Qed.
End Views.

(** ** Agreement in the global DAG *)

Section Global.
Context {S : Type} `{BlockReaderLaws S}.
Context (c : Committee) (Hc : wf_committee c).
Context (g : S) (Hg : wf_view c g).
Context (B : gset AuthorityIndex) (HB : is_valid c (set_stake c B) = false).

Notation stored s b := (get_block s (reference b) = Some b).

(** Authorities outside [B] produce one block per round. *)
Definition no_equivocation : Prop :=
  ∀ b1 b2, stored g b1 → stored g b2 → author b1 = author b2 → block_round b1 = block_round b2 →
    author b1 ∉ B → b1 = b2.
Context (Hhonest : no_equivocation).

(** A vote inside a certificate two rounds above the leader is one round above it. *)
Lemma vote_round cert leader b :
  stored g cert → block_round cert = block_round leader + 2 →
  reference b ∈ includes cert → stored g b →
  support g (author_round (reference leader)) b = Some (reference leader) →
  block_round b = block_round leader + 1.
Proof.
  intros Hcert Hr Hi Hb Hs. pose proof (v_lower c g Hg _ _ Hcert _ Hi) as Hlt.
  apply (support_later c) in Hs as [_ Hgt]; [|done|done]. cbn in Hgt.
  unfold block_round in *. lia.
Qed.

Lemma unique_certified cert1 cert2 L1 L2 :
  stored g cert1 → stored g cert2 →
  author_round (reference L1) = author_round (reference L2) →
  block_round cert1 = block_round L1 + 2 → block_round cert2 = block_round L2 + 2 →
  certb c g cert1 L1 = true → certb c g cert2 L2 = true → reference L1 = reference L2.
Proof.
  intros H1 H2 Hslot Hr1 Hr2 Hq1 Hq2.
  destruct (quorums_share_correct c _ _ B Hc Hq1 Hq2 HB) as (a & Ha1 & Ha2 & HaB).
  apply (elem_of_voters c) in Ha1 as (b1 & Hi1 & Hb1 & Hab1 & Hs1); [|done..].
  apply (elem_of_voters c) in Ha2 as (b2 & Hi2 & Hb2 & Hab2 & Hs2); [|done..].
  assert (block_round L1 = block_round L2) as HL by (unfold author_round in Hslot; unfold block_round; congruence).
  assert (b1 = b2) as <-.
  { apply Hhonest; [done..|congruence| |congruence].
    rewrite (vote_round cert1 L1 b1), (vote_round cert2 L2 b2) by done. lia. }
  rewrite Hslot in Hs1. congruence.
Qed.

(** A quorum of blocks of the round above the leader that include no block of it. *)
Definition direct_skip (a : AuthorityIndex) (r : RoundNumber) : Prop :=
  ∃ X, is_quorum c (set_stake c X) = true ∧ ∀ x, x ∈ X →
    ∃ b, stored g b ∧ author b = x ∧ block_round b = r + 1 ∧
         ∀ i, i ∈ includes b → br_authority i ≠ a.

(** A quorum of authors of certificates in the round two above the leader. *)
Definition direct_commit (L : StatementBlock) : Prop :=
  ∃ X, is_quorum c (set_stake c X) = true ∧ ∀ x, x ∈ X →
    ∃ cert, stored g cert ∧ author cert = x ∧ block_round cert = block_round L + 2 ∧
            certb c g cert L = true.

Lemma skip_excludes_certificate cert L :
  direct_skip (author L) (block_round L) → stored g cert →
  block_round cert = block_round L + 2 → certb c g cert L = false.
Proof.
  intros (X & HX & Hblame) Hcert Hr. apply not_true_iff_false. intros Hq.
  destruct (quorums_share_correct c _ _ B Hc HX Hq HB) as (a & HaX & Hav & HaB).
  destruct (Hblame a HaX) as (b & Hb & Hab & Hbr & Hno).
  apply (elem_of_voters c) in Hav as (b2 & Hi2 & Hb2 & Hab2 & Hs2); [|done..].
  pose proof (vote_round cert L b2 Hcert Hr Hi2 Hb2 Hs2) as Hr2.
  assert (b = b2) as <- by (apply Hhonest; try done; congruence).
  apply (support_direct c) in Hs2; [|done..]. by apply Hno in Hs2.
Qed.

Lemma quorum_nonempty X : is_quorum c (set_stake c X) = true → ∃ a, a ∈ X.
Proof.
  intros Hq. apply (set_stake_positive_nonempty c). unfold is_quorum in Hq.
  apply bool_decide_eq_true in Hq. lia.
Qed.

(** *** Links from later rounds *)

Lemma descend n : ∀ A k, stored g A → block_round A = k + N.of_nat n →
  ∃ p, nsteps (strong_parent g) n A p ∧ stored g p ∧ block_round p = k.
Proof.
  induction n as [|n IH]; intros A k HA Hr.
  - exists A. split_and!; [constructor|done|lia].
  - pose proof (v_quorum c g Hg A HA ltac:(lia)) as Hq. destruct (quorum_nonempty _ Hq) as [a Ha].
    apply elem_of_authors_at in Ha as (i & Hi & Hir & _).
    destruct (view_include c g A i Hg HA Hi) as (p & Hp & Href & Hst & _ & _).
    assert (block_round p = block_round A - 1) as Hpr by (unfold block_round at 1; by rewrite Href).
    destruct (IH p k Hst ltac:(lia)) as (q & Hq' & ? & ?). exists q. split; [|done].
    econstructor; [|done]. split_and!; [done|by rewrite Href|lia].
Qed.

(** From a later block one reaches a block of round [k] by a correct member of
    any quorum. *)
Lemma link_to_quorum A k X :
  stored g A → k < block_round A → is_quorum c (set_stake c X) = true →
  ∃ q, nsteps (strong_parent g) (N.to_nat (block_round A - k)) A q ∧ stored g q ∧
       block_round q = k ∧ author q ∈ X ∧ author q ∉ B.
Proof.
  intros HA Hlt HX.
  destruct (descend (N.to_nat (block_round A - (k + 1))) A (k + 1) HA ltac:(lia)) as (p & Hn & Hp & Hpr).
  pose proof (v_quorum c g Hg p Hp ltac:(lia)) as Hq.
  destruct (quorums_share_correct c _ _ B Hc HX Hq HB) as (a & HaX & Ha & HaB).
  apply elem_of_authors_at in Ha as (i & Hi & Hir & Hia).
  destruct (view_include c g p i Hg Hp Hi) as (q & Hq' & Href & Hst & _ & Hau).
  assert (block_round q = k) as Hqr by (unfold block_round at 1; rewrite Href; lia).
  exists q. split_and!; [|done|done|congruence|congruence].
  replace (N.to_nat (block_round A - k)) with (Datatypes.S (N.to_nat (block_round A - (k + 1)))) by lia.
  eapply nsteps_r; [exact Hn|]. split_and!; [done|by rewrite Href|lia].
Qed.

(** The anchor reaches a certificate of the leader block. *)
Definition certified_from (A L : StatementBlock) : Prop :=
  stored g L ∧ ∃ cert, nsteps (strong_parent g) (N.to_nat (block_round A - (block_round L + 2))) A cert ∧
    stored g cert ∧ block_round cert = block_round L + 2 ∧ certb c g cert L = true.

Lemma direct_commit_from_anchor A L :
  stored g A → stored g L → block_round L + 2 < block_round A → direct_commit L → certified_from A L.
Proof.
  intros HA HL Hlt (X & HX & Hcert). split; [done|].
  destruct (link_to_quorum A (block_round L + 2) X HA Hlt HX) as (q & Hn & Hq & Hqr & HqX & HqB).
  destruct (Hcert _ HqX) as (cert & Hst & Ha & Hr & Hb).
  assert (q = cert) as -> by (apply Hhonest; try done; congruence).
  by exists cert.
Qed.

(** *** Decisions of a view, in terms of the global DAG *)

(** The committers of the default wave length. *)
Definition committer_ok (self : BaseCommitter) : Prop :=
  bc_committee self = c ∧ wave_length (options self) = 3 ∧ round_offset (options self) < 3.

Lemma committer_decision_round self r a :
  committer_ok self → r < 2 ^ 63 → elect_leader self r = Some a →
  decision_round self (wave_number self r) = r + 2 ∧ u64_add r 1 = r + 1 ∧
  u64_add r (wave_length (options self)) = r + 3.
Proof.
  intros (_ & Hwl & Hro) Hr. unfold elect_leader. case_bool_decide as Hlr; [|done]. intros _.
  unfold leader_round, decision_round in *. rewrite Hwl in *.
  set (w := wave_number self r) in *.
  assert (w * 3 ≤ r) as Hw.
  { unfold w, wave_number. rewrite Hwl.
    pose proof (N.Div0.mul_div_le (r - round_offset (options self)) 3). lia. }
  assert (2 ^ 63 + 2 ^ 63 = u64_modulus) as Hmod by reflexivity.
  assert (100 < 2 ^ 63) by reflexivity.
  rewrite (u64_mul_small w 3), !u64_add_small in Hlr by lia.
  rewrite (u64_mul_small w 3) by lia. rewrite (u64_add_small (w * 3) 3) by lia.
  rewrite (u64_sub_small (w * 3 + 3) 1) by lia. rewrite !u64_add_small by lia.
  split_and!; lia.
Qed.

Section View.
Context (s : S) (Hs : wf_view c s) (Hsub : sub_view s g).
Context (self : BaseCommitter) (Hself : committer_ok self).

Lemma sub_stored b : stored s b → stored g b.
Proof. apply Hsub. Qed.

Lemma include_local b p :
  stored s b → reference p ∈ includes b → stored g p → stored s p.
Proof.
  intros Hb Hi Hp. destruct (view_include c s b _ Hs Hb Hi) as (p' & Hp' & _ & _).
  pose proof (Hsub _ _ Hp') as Hp2. rewrite Hp in Hp2. by injection Hp2 as <-.
Qed.

Lemma nsteps_local n : ∀ A p, stored s A →
  nsteps (strong_parent s) n A p ↔ nsteps (strong_parent g) n A p.
Proof.
  induction n as [|n IH]; intros A p HA.
  - split; inversion 1; subst; constructor.
  - split; inversion 1 as [|? ? q ? (Hq & Hi & Hr) Hn]; subst.
    + econstructor; [split_and!; [by apply sub_stored|done|done]|]. by apply IH.
    + pose proof (include_local A q HA Hi Hq) as Hqs. econstructor; [by split_and!|]. by apply IH.
Qed.

Lemma nsteps_stored n A p : stored s A → nsteps (strong_parent s) n A p → stored s p.
Proof.
  intros HA Hn. revert HA. induction Hn as [|n x y z (Hy & _) _ IH]; [done|]. intros _. by apply IH.
Qed.

(** The leader block of a certificate known to the view is known to it. *)
Lemma certified_leader_known cert L :
  stored s cert → stored g L → block_round cert = block_round L + 2 → certb c g cert L = true →
  stored s L.
Proof.
  intros Hcert HL Hr Hq. destruct (quorum_nonempty _ Hq) as [a Ha].
  apply (elem_of_voters c) in Ha as (b & Hi & Hb & _ & Hsup); [|done|by apply sub_stored].
  pose proof (vote_round cert L b (sub_stored _ Hcert) Hr Hi Hb Hsup) as Hbr.
  apply (support_direct c) in Hsup; [|done|done|exact Hbr].
  eapply include_local; [|exact Hsup|done]. by eapply include_local.
Qed.

Lemma at_most_one (l : list StatementBlock) :
  NoDup l → (∀ b1 b2, b1 ∈ l → b2 ∈ l → b1 = b2) → (length l ≤ 1)%nat.
Proof.
  intros Hnd Heq. destruct l as [|b1 [|b2 l]]; simpl; [lia|lia|]. exfalso.
  apply NoDup_cons in Hnd as [Hni _]. apply Hni. rewrite (Heq b1 b2); [left|left|right; left].
Qed.

(** A filtered list of leader blocks with at most one element, as the code reads it. *)
Lemma filter_unique (P : StatementBlock → bool) l :
  NoDup l → (∀ b1 b2, b1 ∈ l → b2 ∈ l → P b1 = true → P b2 = true → b1 = b2) →
  (length (List.filter P l) ≤ 1)%nat ∧
  (∀ b, last (List.filter P l) = Some b → b ∈ l ∧ P b = true) ∧
  (last (List.filter P l) = None → ∀ b, b ∈ l → P b = false).
Proof.
  intros Hnd Hu. assert (Hin : ∀ b, b ∈ List.filter P l ↔ b ∈ l ∧ P b = true).
  { intros b. by rewrite !list_elem_of_In, filter_In. }
  split_and!.
  - apply at_most_one; [by apply NoDup_List_filter|]. intros b1 b2 [??]%Hin [??]%Hin. by apply Hu.
  - intros b Hb%last_Some_elem_of. by apply Hin.
  - intros Hnone%last_None b Hb. destruct (P b) eqn:HP; [|done].
    assert (b ∈ List.filter P l) as Hf by (by apply Hin). rewrite Hnone in Hf.
    by apply not_elem_of_nil in Hf.
Qed.

(** The direct rule. *)
Lemma direct_spec a r :
  elect_leader self r = Some a → r < 2 ^ 63 →
  ∃ st, try_direct_decide self s a r = Ok st ∧
    match st with
    | Commit L => author_round (reference L) = (a, r) ∧ stored s L ∧ direct_commit L
    | Skip a' r' => a' = a ∧ r' = r ∧ direct_skip a r
    | Undecided a' r' => a' = a ∧ r' = r
    end.
Proof.
  intros Hel Hr. destruct (committer_decision_round self r a Hself Hr Hel) as (Hdr & Hvr & _).
  destruct Hself as (Hcc & _ & _). unfold try_direct_decide, enough_leader_blame. rewrite Hdr, Hvr, Hcc.
  set (blame := λ b, forallb (λ i, negb (bool_decide (br_authority i = a))) (includes b)).
  rewrite (count_quorum_spec c _ blame); [|done|done|].
  2:{ intros b [Hb _]%elem_of_by_round _. by apply (v_known c s Hs). }
  cbn [mbind outcome_bind].
  destruct (is_quorum c (set_stake c (passing blame author _))) eqn:Hq.
  { eexists; split; [done|]. split_and!; [done..|]. eexists. split; [exact Hq|]. intros x Hx.
    apply elem_of_passing in Hx as (b & [Hb Hbr]%elem_of_by_round & Hbl & Ha). exists b.
    split_and!; [by apply sub_stored|done|done|]. intros i Hi%list_elem_of_In.
    unfold blame in Hbl. rewrite forallb_forall in Hbl. specialize (Hbl i Hi).
    by apply negb_true_iff, bool_decide_eq_false in Hbl. }
  set (sup := λ L, is_quorum c (set_stake c (passing (λ cert, certb c g cert L) author
                     (get_blocks_by_round s (r + 2))))).
  rewrite (filterM_ok _ sup).
  2:{ intros L HL. unfold enough_leader_support. rewrite Hcc. apply count_quorum_spec; [done| |].
      - intros cert [Hcert _]%elem_of_by_round. by apply (is_certificate_spec c).
      - intros cert [Hcert _]%elem_of_by_round _. by apply (v_known c s Hs). }
  cbn [mbind outcome_bind].
  assert (Hsup : ∀ L, L ∈ get_blocks_at_authority_round s a r → sup L = true →
            author_round (reference L) = (a, r) ∧ stored s L ∧ direct_commit L).
  { intros L (HL & HLr & HLa)%elem_of_at_authority_round Hsp. unfold block_round, author in *.
    split_and!; [unfold author_round; congruence|done|]. eexists. split; [exact Hsp|].
    intros x (cert & [Hcert Hcr]%elem_of_by_round & Hcb & Hca)%elem_of_passing. exists cert.
    split_and!; [by apply sub_stored|done| |done]. unfold block_round in *. lia. }
  destruct (filter_unique sup (get_blocks_at_authority_round s a r)) as (Hlen & Hsome & Hnone).
  { apply NoDup_at_authority_round. }
  { intros L1 L2 H1 H2 HP1 HP2.
    destruct (Hsup L1 H1 HP1) as (Hs1 & Hst1 & X1 & HX1 & Hc1).
    destruct (Hsup L2 H2 HP2) as (Hs2 & Hst2 & X2 & HX2 & Hc2).
    destruct (quorum_nonempty _ HX1) as [x1 Hx1]. destruct (quorum_nonempty _ HX2) as [x2 Hx2].
    destruct (Hc1 _ Hx1) as (cert1 & ? & _ & ? & ?). destruct (Hc2 _ Hx2) as (cert2 & ? & _ & ? & ?).
    assert (reference L1 = reference L2) as Heq by (eapply (unique_certified cert1 cert2); try done; congruence).
    rewrite Heq in Hst1. congruence. }
  rewrite length_fmap, bool_decide_false by lia. cbn [negb rust_assert mbind outcome_bind].
  rewrite fmap_last. destruct (last (List.filter sup _)) as [L|] eqn:Hlast; cbn.
  - eexists; split; [done|]. destruct (Hsome L eq_refl) as [HL HP]. by apply Hsup.
  - by eexists.
Qed.

(** The indirect rule, given the anchor. *)
Lemma anchor_spec A a r :
  elect_leader self r = Some a → r < 2 ^ 63 → stored s A → r + 3 ≤ block_round A →
  ∃ st, decide_leader_from_anchor self s A a r = Ok st ∧
    match st with
    | Commit L => author_round (reference L) = (a, r) ∧ stored s L ∧ certified_from A L
    | Skip a' r' => a' = a ∧ r' = r ∧
        ∀ L, author_round (reference L) = (a, r) → ¬ certified_from A L
    | Undecided _ _ => False
    end.
Proof.
  intros Hel Hr HA Hle. destruct (committer_decision_round self r a Hself Hr Hel) as (Hdr & _ & _).
  pose proof Hself as (Hcc & _ & _). unfold decide_leader_from_anchor. rewrite Hdr.
  set (pcs := List.filter (λ block, linked s A block) (get_blocks_by_round s (r + 2))).
  assert (Hpcs : ∀ cert, cert ∈ pcs ↔ stored s cert ∧ block_round cert = r + 2 ∧
            nsteps (strong_parent g) (N.to_nat (block_round A - (r + 2))) A cert).
  { intros cert. unfold pcs. rewrite list_elem_of_In, filter_In, <-list_elem_of_In, elem_of_by_round. split.
    - intros [[Hst Hcr] Hl]. split_and!; [done|done|]. rewrite linked_spec in Hl by lia.
      destruct Hl as (p & Hn & Href). rewrite Hcr in Hn.
      pose proof (nsteps_stored _ _ _ HA Hn) as Hp. rewrite Href in Hp.
      assert (p = cert) as -> by congruence. by apply nsteps_local.
    - intros (Hst & Hcr & Hn). split; [done|]. apply linked_spec; [lia|].
      exists cert. split; [|done]. rewrite Hcr. by apply nsteps_local. }
  set (P := λ L, existsb (λ cert, certb c g cert L) pcs).
  rewrite (filterM_ok _ P).
  2:{ intros L _. apply anyM_ok. intros cert (Hst & _)%Hpcs. by apply (is_certificate_spec c). }
  cbn [mbind outcome_bind].
  assert (HP : ∀ L, P L = true ↔ ∃ cert, cert ∈ pcs ∧ certb c g cert L = true).
  { intros L. unfold P. rewrite existsb_exists. by setoid_rewrite list_elem_of_In. }
  assert (Hin : ∀ L, L ∈ get_blocks_at_authority_round s a r → P L = true →
            author_round (reference L) = (a, r) ∧ stored s L ∧ certified_from A L).
  { intros L (HL & HLr & HLa)%elem_of_at_authority_round (cert & (Hst & Hcr & Hn)%Hpcs & Hcb)%HP.
    unfold author in HLa. split_and!; [unfold author_round, block_round in *; congruence|done|].
    split; [by apply sub_stored|]. exists cert. rewrite HLr. split_and!; [done|by apply sub_stored|done|done]. }
  destruct (filter_unique P (get_blocks_at_authority_round s a r)) as (Hlen & Hsome & Hnone).
  { apply NoDup_at_authority_round. }
  { intros L1 L2 H1 H2 HP1 HP2.
    destruct (Hin L1 H1 HP1) as (Hs1 & Hst1 & _ & cert1 & _ & ? & ? & ?).
    destruct (Hin L2 H2 HP2) as (Hs2 & Hst2 & _ & cert2 & _ & ? & ? & ?).
    assert (reference L1 = reference L2) as Heq by (eapply (unique_certified cert1 cert2); try done; congruence).
    rewrite Heq in Hst1. congruence. }
  rewrite bool_decide_false by lia. cbn [negb rust_assert mbind outcome_bind].
  destruct (last (List.filter P _)) as [L|] eqn:Hlast.
  - eexists; split; [done|]. destruct (Hsome L eq_refl) as [HL HPL]. by apply Hin.
  - eexists; split; [done|]. split_and!; [done..|]. intros L Hslot [HL (cert & Hn & Hst & Hcr & Hcb)].
    assert (block_round L = r) as HLr by (unfold author_round in Hslot; unfold block_round; congruence).
    assert (author L = a) as HLa by (unfold author_round in Hslot; unfold author; congruence).
    assert (stored s cert) as Hsc.
    { eapply nsteps_stored; [exact HA|]. by apply nsteps_local. }
    assert (P L = true) as HPL.
    { apply HP. exists cert. split; [|done]. apply Hpcs. rewrite HLr in *. split_and!; done. }
    rewrite (Hnone eq_refl L) in HPL; [done|]. apply elem_of_at_authority_round.
    split_and!; [|done|done]. by eapply certified_leader_known.
Qed.
End View.

(** *** Slots in order *)

Notation slot_t := (BaseCommitter * AuthorityIndex * RoundNumber)%type.

(** The decision of one slot, the later slots being decided as [acc]. *)
Definition decide_one (s : S) (acc : list LeaderStatus) (sl : slot_t) : outcome LeaderStatus :=
  let '(cm, a, r) := sl in
  status ← try_direct_decide cm s a r;
  if is_decided status then Ok status else try_indirect_decide cm s a r acc.

Fixpoint decide_from (s : S) (acc : list LeaderStatus) (l : list slot_t) : outcome (list LeaderStatus) :=
  match l with
  | [] => Ok acc
  | sl :: rest => acc ← decide_from s acc rest; st ← decide_one s acc sl; Ok (st :: acc)
  end.

Definition slots_of (cms : list BaseCommitter) (r : RoundNumber) : list slot_t :=
  omap (λ cm, (λ a, (cm, a, r)) <$> elect_leader cm r) cms.

Lemma decide_from_app s l1 l2 : ∀ acc,
  decide_from s acc (l1 ++ l2) = (acc' ← decide_from s acc l2; decide_from s acc' l1).
Proof.
  induction l1 as [|sl l1 IH]; intros acc; simpl; [by destruct (decide_from s acc l2)|].
  rewrite IH. by destruct (decide_from s acc l2).
Qed.

Lemma decide_slots_round s r cms : ∀ acc,
  foldM (decide_slot s r) acc (rev cms) = decide_from s acc (slots_of cms r).
Proof.
  induction cms as [|cm cms IH]; intros acc; [done|]. cbn [rev]. rewrite foldM_app, IH.
  unfold slots_of. cbn [omap list_omap]. fold (slots_of cms r).
  destruct (elect_leader cm r) as [a|] eqn:Hel; cbn.
  - destruct (decide_from s acc (slots_of cms r)) as [acc'| |]; cbn; [|done|done].
    unfold decide_slot. rewrite Hel. cbn.
    destruct (try_direct_decide cm s a r) as [st| |]; cbn; [|done|done].
    destruct (is_decided st); cbn; [done|]. by destruct (try_indirect_decide cm s a r acc').
  - destruct (decide_from s acc (slots_of cms r)) as [acc'| |]; cbn; [|done|done].
    unfold decide_slot. by rewrite Hel.
Qed.

Lemma decide_rounds_slots s cms rounds : ∀ acc,
  foldM (λ leaders round, foldM (decide_slot s round) leaders (rev cms)) acc (rev rounds)
  = decide_from s acc (flat_map (slots_of cms) rounds).
Proof.
  induction rounds as [|r rounds IH]; intros acc; [done|]. cbn [rev flat_map].
  rewrite foldM_app, IH, decide_from_app.
  destruct (decide_from s acc (flat_map (slots_of cms) rounds)) as [acc'| |]; cbn; [|done|done].
  rewrite decide_slots_round. by destruct (decide_from s acc' (slots_of cms r)).
Qed.

(** The anchor of a slot of round [r]: the first leader from round [r + 3] on that
    is not skipped, when it is committed. *)
Fixpoint anchor_of (r : RoundNumber) (acc : list LeaderStatus) : option StatementBlock :=
  match acc with
  | [] => None
  | x :: rest =>
      if bool_decide (r + 3 ≤ status_round x) then
        match x with Commit A => Some A | Skip _ _ => anchor_of r rest | Undecided _ _ => None end
      else anchor_of r rest
  end.

(** How a slot can be decided, stated without reference to a view. *)
Inductive decided (acc : list LeaderStatus) (a : AuthorityIndex) (r : RoundNumber) : LeaderStatus → Prop :=
| decided_commit L : author_round (reference L) = (a, r) → stored g L → direct_commit L →
    decided acc a r (Commit L)
| decided_skip : direct_skip a r → decided acc a r (Skip a r)
| decided_anchor_commit A L : anchor_of r acc = Some A → stored g A → r + 3 ≤ block_round A →
    author_round (reference L) = (a, r) → stored g L → certified_from A L → decided acc a r (Commit L)
| decided_anchor_skip A : anchor_of r acc = Some A → stored g A → r + 3 ≤ block_round A →
    (∀ L, author_round (reference L) = (a, r) → ¬ certified_from A L) → decided acc a r (Skip a r).

Definition status_key (st : LeaderStatus) : AuthorityIndex * RoundNumber :=
  (status_authority st, status_round st).

(** Committed statuses name blocks of the view. *)
Definition status_stored (s : S) (st : LeaderStatus) : Prop :=
  match st with Commit L => stored s L | _ => True end.

Definition slot_ok (sl : slot_t) : Prop :=
  let '(cm, a, r) := sl in committer_ok cm ∧ elect_leader cm r = Some a ∧ r < 2 ^ 63.

Lemma indirect_anchor s cm a r acc :
  u64_add r (wave_length (options cm)) = r + 3 →
  try_indirect_decide cm s a r acc
  = match anchor_of r acc with
    | Some A => decide_leader_from_anchor cm s A a r
    | None => Ok (Undecided a r)
    end.
Proof.
  intros Hwl. unfold try_indirect_decide. rewrite Hwl.
  induction acc as [|x acc IH]; simpl; [done|]. case_bool_decide; [|done]. by destruct x.
Qed.

Lemma anchor_of_spec s r acc A :
  Forall (status_stored s) acc → anchor_of r acc = Some A → stored s A ∧ r + 3 ≤ block_round A.
Proof.
  induction acc as [|x acc IH]; intros Hst; simpl; [done|]. apply Forall_cons in Hst as [Hx Hst].
  case_bool_decide; [|by apply IH]. destruct x; [|by apply IH|done]. intros [= <-]. by split.
Qed.

Lemma decide_one_spec s acc cm a r :
  wf_view c s → sub_view s g → slot_ok (cm, a, r) → Forall (status_stored s) acc →
  ∃ st, decide_one s acc (cm, a, r) = Ok st ∧ status_key st = (a, r) ∧ status_stored s st ∧
    (is_decided st = true → decided acc a r st).
Proof.
  intros Hs Hsub (Hcm & Hel & Hr) Hacc. unfold decide_one.
  assert (Hkey : ∀ L, author_round (reference L) = (a, r) → status_key (Commit L) = (a, r)) by done.
  destruct (direct_spec s Hs Hsub cm Hcm a r Hel Hr) as (st & -> & Hst). cbn [mbind outcome_bind].
  destruct st as [L|a' r'|a' r']; cbn [is_decided].
  - destruct Hst as (Hslot & HL & Hdc). exists (Commit L). split_and!; try done.  
    intros _. apply decided_commit; [done|by apply Hsub|done].
  - destruct Hst as (-> & -> & Hds). exists (Skip a r). split_and!; try done. intros _. by constructor.
  - destruct Hst as [-> ->].
    destruct (committer_decision_round cm r a Hcm Hr Hel) as (_ & _ & Hwl).
    rewrite (indirect_anchor s cm a r acc Hwl).
    destruct (anchor_of r acc) as [A|] eqn:HA; [|by exists (Undecided a r)].
    destruct (anchor_of_spec s r acc A Hacc HA) as [HAs HAr].
    destruct (anchor_spec s Hs Hsub cm Hcm A a r Hel Hr HAs HAr) as (st & -> & Hst).
    exists st. split; [done|]. destruct st as [L|a' r'|a' r']; [| |done].
    + destruct Hst as (Hslot & HL & Hcf). split_and!; [by apply Hkey|done|]. intros _.
      apply (decided_anchor_commit _ _ _ A); try done; by apply Hsub.
    + destruct Hst as (-> & -> & Hno). split_and!; try done. intros _.
      apply (decided_anchor_skip _ _ _ A); try done. by apply Hsub.
Qed.

Definition has_certificate (L : StatementBlock) : Prop :=
  ∃ cert, stored g cert ∧ block_round cert = block_round L + 2 ∧ certb c g cert L = true.

Lemma direct_commit_certificate L : direct_commit L → has_certificate L.
Proof.
  intros (X & HX & Hcert). destruct (quorum_nonempty _ HX) as [x Hx].
  destruct (Hcert x Hx) as (cert & ? & _ & ? & ?). by exists cert.
Qed.

Lemma certified_from_certificate A L : certified_from A L → has_certificate L.
Proof. intros [_ (cert & _ & ? & ? & ?)]. by exists cert. Qed.

(** Two decisions of a slot agree when their anchors do. *)
Lemma decided_agree acc1 acc2 a r st1 st2 :
  (∀ A1 A2, anchor_of r acc1 = Some A1 → anchor_of r acc2 = Some A2 → A1 = A2) →
  decided acc1 a r st1 → decided acc2 a r st2 → st1 = st2.
Proof.
  intros Hanchor.
  assert (Hround : ∀ L, author_round (reference L) = (a, r) → block_round L = r ∧ author L = a).
  { intros L [= <- <-]. done. }
  assert (Hsame : ∀ L1 L2, author_round (reference L1) = (a, r) → author_round (reference L2) = (a, r) →
    stored g L1 → stored g L2 → has_certificate L1 → has_certificate L2 → Commit L1 = Commit L2).
  { intros L1 L2 Hs1 Hs2 H1 H2 (cert1 & ? & ? & ?) (cert2 & ? & ? & ?).
    assert (reference L1 = reference L2) as Heq by (eapply (unique_certified cert1 cert2); congruence).
    rewrite Heq in H1. congruence. }
  assert (Hskip : ∀ L, author_round (reference L) = (a, r) → direct_skip a r → has_certificate L → False).
  { intros L HL Hds (cert & ? & ? & Hcb). destruct (Hround L HL) as [HLr HLa].
    rewrite (skip_excludes_certificate cert L) in Hcb; try done. by rewrite HLr, HLa. }
  assert (Hlater : ∀ A L, author_round (reference L) = (a, r) → stored g L → direct_commit L →
    stored g A → r + 3 ≤ block_round A → certified_from A L).
  { intros A L HL ????. destruct (Hround L HL) as [HLr _].
    apply direct_commit_from_anchor; [done|done|lia|done]. }
  pose proof direct_commit_certificate as Hdc. pose proof certified_from_certificate as Hcf.
  intros H1 H2. destruct H1 as [L1 Hs1 Ht1 Hd1|Hd1|A1 L1 Ha1 Hg1 Hr1 Hs1 Ht1 Hd1|A1 Ha1 Hg1 Hr1 Hd1],
    H2 as [L2 Hs2 Ht2 Hd2|Hd2|A2 L2 Ha2 Hg2 Hr2 Hs2 Ht2 Hd2|A2 Ha2 Hg2 Hr2 Hd2]; try done;
    first [apply Hsame; by eauto
          |exfalso; first [eapply Hskip; by eauto|eapply Hd1; by eauto|eapply Hd2; by eauto]
          |exfalso; pose proof (Hanchor _ _ Ha1 Ha2) as <-;
             first [eapply Hd1; by eauto|eapply Hd2; by eauto]].
Qed.

(** *** Sequences of decisions *)

(** Two sequences agree on the slots they share: same slots, and equal statuses
    where both are decided. *)
Inductive aligned : list LeaderStatus → list LeaderStatus → Prop :=
| aligned_nil_l l : aligned [] l
| aligned_nil_r l : aligned l []
| aligned_cons x y l1 l2 : status_key x = status_key y →
    (is_decided x = true → is_decided y = true → x = y) → aligned l1 l2 →
    aligned (x :: l1) (y :: l2).

Lemma aligned_anchor r l1 l2 A1 A2 :
  aligned l1 l2 → anchor_of r l1 = Some A1 → anchor_of r l2 = Some A2 → A1 = A2.
Proof.
  induction 1 as [l|l|x y l1 l2 Hkey Hdec _ IH]; simpl; [done|done|].
  assert (status_round x = status_round y) as -> by (unfold status_key in Hkey; congruence).
  case_bool_decide; [|done]. destruct x as [b1|? ?|? ?], y as [b2|? ?|? ?]; simpl in *; try done;
    specialize (Hdec eq_refl eq_refl); congruence.
Qed.

Lemma decide_from_spec s l :
  wf_view c s → sub_view s g → Forall slot_ok l →
  ∃ acc, decide_from s [] l = Ok acc ∧ Forall (status_stored s) acc.
Proof.
  intros Hs Hsub. induction 1 as [|[[cm a] r] l Hsl _ (acc & IH & Hacc)]; simpl; [by exists []|].
  rewrite IH. cbn [mbind outcome_bind].
  destruct (decide_one_spec s acc cm a r Hs Hsub Hsl Hacc) as (st & Hst & _ & Hss & _).
  unfold decide_one in Hst. rewrite Hst. cbn. exists (st :: acc). split; [done|]. by constructor.
Qed.

Lemma decide_from_aligned s1 s2 l1 : ∀ l2 acc1 acc2,
  wf_view c s1 → sub_view s1 g → wf_view c s2 → sub_view s2 g →
  Forall slot_ok (l1 ++ l2) →
  decide_from s1 [] l1 = Ok acc1 → decide_from s2 [] (l1 ++ l2) = Ok acc2 → aligned acc1 acc2.
Proof.
  induction l1 as [|[[cm a] r] l1 IH]; intros l2 acc1 acc2 Hv1 Hs1 Hv2 Hs2 Hok; cbn [decide_from app].
  { intros [= <-] _. constructor. }
  apply Forall_cons in Hok as [Hsl Hok].
  intros (t1 & Ht1 & Hst1)%bind_ok (t2 & Ht2 & Hst2)%bind_ok.
  apply bind_ok in Hst1 as (x & Hx & [= <-]). apply bind_ok in Hst2 as (y & Hy & [= <-]).
  pose proof (IH l2 t1 t2 Hv1 Hs1 Hv2 Hs2 Hok Ht1 Ht2) as Hal.
  pose proof (proj1 (Forall_app _ _ _) Hok) as [Hok1 _].
  destruct (decide_from_spec s1 l1 Hv1 Hs1 Hok1) as (t1' & Ht1' & Hf1). rewrite Ht1 in Ht1'. simplify_eq.
  destruct (decide_from_spec s2 (l1 ++ l2) Hv2 Hs2 Hok) as (t2' & Ht2' & Hf2). rewrite Ht2 in Ht2'. simplify_eq.
  destruct (decide_one_spec s1 t1' cm a r Hv1 Hs1 Hsl Hf1) as (x' & Hx' & Hk1 & _ & Hd1).
  destruct (decide_one_spec s2 t2' cm a r Hv2 Hs2 Hsl Hf2) as (y' & Hy' & Hk2 & _ & Hd2).
  rewrite Hx in Hx'. rewrite Hy in Hy'. simplify_eq. constructor; [congruence| |done].
  intros Hdx Hdy. eapply (decided_agree t1' t2'); [|by apply Hd1|by apply Hd2].
  intros A1 A2. by apply aligned_anchor.
Qed.

(** One list is a prefix of the other. *)
Definition comparable {A} (l1 l2 : list A) : Prop := l1 `prefix_of` l2 ∨ l2 `prefix_of` l1.

Lemma aligned_skip_while p l1 l2 :
  (∀ x y, status_key x = status_key y → p x = p y) →
  aligned l1 l2 → aligned (skip_while p l1) (skip_while p l2).
Proof.
  intros Hp. induction 1 as [l|l|x y l1 l2 Hkey Hdec Hal IH]; simpl; [constructor|constructor|].
  rewrite (Hp x y Hkey). destruct (p y); [done|by constructor].
Qed.

Lemma aligned_filter p l1 l2 :
  (∀ x y, status_key x = status_key y → p x = p y) →
  aligned l1 l2 → aligned (List.filter p l1) (List.filter p l2).
Proof.
  intros Hp. induction 1 as [l|l|x y l1 l2 Hkey Hdec Hal IH]; simpl; [constructor|constructor|].
  rewrite (Hp x y Hkey). destruct (p y); [by constructor|done].
Qed.

Lemma aligned_drop1 l1 l2 : aligned l1 l2 → aligned (drop 1 l1) (drop 1 l2).
Proof. destruct 1; simpl; rewrite ?drop_0; try done; constructor. Qed.

Lemma aligned_take_while l1 l2 :
  aligned l1 l2 → comparable (take_while is_decided l1) (take_while is_decided l2).
Proof.
  unfold comparable. induction 1 as [l|l|x y l1 l2 Hkey Hdec Hal IH]; simpl.
  - left. apply prefix_nil.
  - right. apply prefix_nil.
  - destruct (is_decided x), (is_decided y); try (by left; apply prefix_nil); try (by right; apply prefix_nil).
    rewrite (Hdec eq_refl eq_refl). destruct IH; [left|right]; by apply prefix_cons.
Qed.

Lemma aligned_sequence ld l1 l2 :
  aligned l1 l2 → comparable (decided_sequence ld l1) (decided_sequence ld l2).
Proof.
  intros Hal. unfold decided_sequence. apply aligned_take_while, aligned_filter.
  - unfold status_key. intros x y [= _ ->]. done.
  - apply aligned_drop1, aligned_skip_while; [|done]. unfold status_key. intros x y [= -> ->]. done.
Qed.

Lemma slots_ok cms lo hi :
  Forall committer_ok cms → hi ≤ 2 ^ 63 →
  Forall slot_ok (flat_map (slots_of cms) (range_list lo hi)).
Proof.
  intros Hcms Hhi. pose proof (proj1 (Forall_forall _ _) Hcms) as Hall. apply Forall_forall.
  intros [[cm a] r] (r' & Hr' & Hin)%list_elem_of_In%in_flat_map.
  apply list_elem_of_In, elem_of_range_list in Hr'. apply list_elem_of_In in Hin.
  unfold slots_of in Hin. apply list_elem_of_omap in Hin as (cm' & Hcm & Hsome).
  destruct (elect_leader cm' r') eqn:Hel; simplify_eq/=. split_and!; [by apply Hall|done|lia].
Qed.

Lemma try_commit_comparable cms s1 s2 ld :
  Forall committer_ok cms →
  wf_view c s1 → sub_view s1 g → wf_view c s2 → sub_view s2 g →
  reader_highest_round s1 < 2 ^ 63 → reader_highest_round s2 < 2 ^ 63 →
  ∃ out1 out2, try_commit cms s1 ld = Ok out1 ∧ try_commit cms s2 ld = Ok out2 ∧ comparable out1 out2.
Proof.
  intros Hcms Hv1 Hs1 Hv2 Hs2 Hh1 Hh2. unfold try_commit, decide_rounds.
  rewrite !decide_rounds_slots. set (lo := br_round ld).
  set (sl h := flat_map (slots_of cms) (range_list lo (h + 1))).
  assert (Hok : ∀ h, h < 2 ^ 63 → Forall slot_ok (sl h)) by (intros h ?; apply slots_ok; [done|lia]).
  assert (Hext : ∀ h1 h2, h1 ≤ h2 → ∃ more, sl h2 = sl h1 ++ more).
  { intros h1 h2 Hle. unfold sl. destruct (N.le_gt_cases lo (h1 + 1)).
    - rewrite (range_list_app lo (h1 + 1) (h2 + 1)), flat_map_app by lia. by eexists.
    - rewrite (range_list_nil lo (h1 + 1)) by lia. by eexists. }
  destruct (decide_from_spec s1 (sl (reader_highest_round s1)) Hv1 Hs1 (Hok _ Hh1)) as (acc1 & Hd1 & _).
  destruct (decide_from_spec s2 (sl (reader_highest_round s2)) Hv2 Hs2 (Hok _ Hh2)) as (acc2 & Hd2 & _).
  fold (sl (reader_highest_round s1)) (sl (reader_highest_round s2)). rewrite Hd1, Hd2. cbn.
  eexists _, _. split_and!; [done..|].
  destruct (N.le_gt_cases (reader_highest_round s1) (reader_highest_round s2)) as [Hle|Hgt].
  - destruct (Hext _ _ Hle) as [more Hm]. pose proof (Hok _ Hh2) as Hok2. rewrite Hm in Hd2, Hok2.
    apply aligned_sequence. by eapply (decide_from_aligned s1 s2).
  - destruct (Hext (reader_highest_round s2) (reader_highest_round s1) ltac:(lia)) as [more Hm].
    pose proof (Hok _ Hh1) as Hok1. rewrite Hm in Hd1, Hok1.
    destruct (aligned_sequence ld acc2 acc1) as [?|?];
      [by eapply (decide_from_aligned s2 s1)|by right|by left].
Qed.
End Global.

(** ** The committers of the builder *)

Lemma builder_committers b cms :
  builder_build b = Ok cms → ub_wave_length b = DEFAULT_WAVE_LENGTH →
  Forall (committer_ok (ub_committee b)) cms.
Proof.
  intros Hb Hwl. unfold builder_build in Hb.
  apply (foldM_inv _ (Forall (committer_ok (ub_committee b)))) in Hb; [done| |constructor].
  intros acc ro acc' Hro Hacc Hin.
  apply (foldM_inv _ (Forall (committer_ok (ub_committee b)))) in Hin; [done| |done].
  intros acc1 lo acc2 _ Hacc1 Hstep. apply bind_ok in Hstep as (cm & Hcm & [= <-]).
  apply bind_ok in Hcm as (? & _ & [= <-]). apply Forall_app. split; [done|].
  constructor; [|constructor]. split_and!; [done|by rewrite Hwl|]. cbn.
  apply elem_of_range_list in Hro as [_ Hro]. rewrite Hwl in Hro. destruct (ub_pipeline b); [done|].
  unfold DEFAULT_WAVE_LENGTH, MINIMUM_WAVE_LENGTH in *. lia.
Qed.

(** ** Properties *)

(** C1: Agreement of the committer: two validators whose stores [s1] and [s2] are
    valid views of one global DAG, in which the authorities that equivocate hold at
    most one third of the stake, never disagree. For the committers of the builder
    at the default wave length (any number of leaders, pipelined or not) and the
    same last decided leader, [try_commit] returns on both stores without panic,
    and one of the two decided sequences is a prefix of the other. *)
Theorem try_commit_agreement {S} `{BlockReaderLaws S} c (g : S) B s1 s2 builder cms ld :
  wf_committee c → wf_view c g → is_valid c (set_stake c B) = false → no_equivocation g B →
  builder_build builder = Ok cms → ub_committee builder = c →
  ub_wave_length builder = DEFAULT_WAVE_LENGTH →
  wf_view c s1 → sub_view s1 g → reader_highest_round s1 < 2 ^ 63 →
  wf_view c s2 → sub_view s2 g → reader_highest_round s2 < 2 ^ 63 →
  ∃ out1 out2, try_commit cms s1 ld = Ok out1 ∧ try_commit cms s2 ld = Ok out2 ∧
    (out1 `prefix_of` out2 ∨ out2 `prefix_of` out1).
Proof.
  intros Hc Hg HB Hne Hb <- Hwl Hv1 Hs1 Hh1 Hv2 Hs2 Hh2.
  apply (try_commit_comparable (ub_committee builder) Hc g Hg B HB Hne); try done.
  by apply builder_committers.
Qed.

(** At most one leader block per slot can be certified: if in two valid views
    of the global DAG some blocks two rounds above are certificates (quorums of
    votes) for leader blocks of the same author and round, the two leader blocks
    are the same. *)
Theorem certified_leader_unique {S} `{BlockReaderLaws S} c (g : S) B s1 s2 self cert1 cert2 L1 L2 :
  wf_committee c → wf_view c g → is_valid c (set_stake c B) = false → no_equivocation g B →
  bc_committee self = c → wf_view c s1 → sub_view s1 g → wf_view c s2 → sub_view s2 g →
  get_block s1 (reference cert1) = Some cert1 → get_block s2 (reference cert2) = Some cert2 →
  author_round (reference L1) = author_round (reference L2) →
  block_round cert1 = block_round L1 + 2 → block_round cert2 = block_round L2 + 2 →
  is_certificate self s1 cert1 L1 = Ok true → is_certificate self s2 cert2 L2 = Ok true →
  reference L1 = reference L2.
Proof.
  intros Hc Hg HB Hne Hself Hv1 Hs1 Hv2 Hs2 H1 H2 Hslot Hr1 Hr2.
  rewrite (is_certificate_spec c self s1 g), (is_certificate_spec c self s2 g) by done.
  intros [= Hq1] [= Hq2].
  apply (unique_certified c Hc g Hg B HB Hne cert1 cert2); try done; [by apply Hs1|by apply Hs2].
Qed.

(** C12: The direct decisions are safe against every later anchor: if one view
    commits the leader block of a slot directly, every view decides the slot from
    every committed anchor three or more rounds above to that very block; if one
    view skips the slot directly, every view decides it from every such anchor to
    skip. *)
Theorem direct_decision_safe {S} `{BlockReaderLaws S} c (g : S) B s1 s2 self a r A st :
  wf_committee c → wf_view c g → is_valid c (set_stake c B) = false → no_equivocation g B →
  committer_ok c self → elect_leader self r = Some a → r < 2 ^ 63 →
  wf_view c s1 → sub_view s1 g → wf_view c s2 → sub_view s2 g →
  get_block s2 (reference A) = Some A → r + 3 ≤ block_round A →
  try_direct_decide self s1 a r = Ok st → is_decided st = true →
  decide_leader_from_anchor self s2 A a r = Ok st.
Proof.
  intros Hc Hg HB Hne Hself Hel Hr Hv1 Hs1 Hv2 Hs2 HA HAr Hdir Hdec.
  destruct (direct_spec c Hc g Hg B HB Hne s1 Hv1 Hs1 self Hself a r Hel Hr) as (st' & Hst' & Hspec).
  rewrite Hdir in Hst'. simplify_eq.
  destruct (anchor_spec c Hc g Hg B HB Hne s2 Hv2 Hs2 self Hself A a r Hel Hr HA HAr) as (st2 & -> & Hspec2).
  f_equal. eapply (decided_agree c Hc g Hg B HB Hne [Commit A] [Commit A] a r); [intros; congruence| |].
  - assert (Hanchor : anchor_of r [Commit A] = Some A) by (cbn; by rewrite bool_decide_true).
    pose proof (Hs2 _ _ HA) as HAg. destruct st2 as [L|a' r'|]; [| |done].
    + destruct Hspec2 as (? & HL & ?). by apply (decided_anchor_commit _ _ _ _ _ A); [..|apply Hs2|].
    + destruct Hspec2 as (-> & -> & ?). by apply (decided_anchor_skip _ _ _ _ _ A).
  - destruct st' as [L|a' r'|]; [| |done].
    + destruct Hspec as (? & ? & ?). apply decided_commit; [done|by apply Hs1|done].
    + destruct Hspec as (-> & -> & ?). by apply decided_skip.
Qed.

(** *** A checker for concrete views *)

Definition view_okb (c : Committee) (d : Dag) : bool :=
  forallb (λ b,
    forallb (λ i, bool_decide (is_Some (dag_map d !! i)) && bool_decide (br_round i < block_round b))
      (includes b)
    && bool_decide (author b < committee_len c)
    && (bool_decide (block_round b = 0)
        || is_quorum c (set_stake c (authors_at (block_round b - 1) (includes b))))
    && bool_decide (block_round b < 2 ^ 63)) (dag_blocks (dag_map d)).

Lemma view_okb_sound c d : view_okb c d = true → wf_view c d.
Proof.
  unfold view_okb. rewrite forallb_forall. intros Hall.
  assert (Hb : ∀ r b, get_block d r = Some b →
    (∀ i, i ∈ includes b → is_Some (dag_map d !! i) ∧ br_round i < block_round b) ∧
    author b < committee_len c ∧
    (block_round b = 0 ∨ is_quorum c (set_stake c (authors_at (block_round b - 1) (includes b))) = true) ∧
    block_round b < 2 ^ 63).
  { intros r b Hget. pose proof (get_block_reference d r b Hget) as Href.
    assert (b ∈ dag_blocks (dag_map d)) as Hin%list_elem_of_In.
    { apply elem_of_dag_blocks; [apply dag_map_ok|]. rewrite Href. exact Hget. }
    specialize (Hall b Hin). rewrite !andb_true_iff, forallb_forall in Hall.
    destruct Hall as [[[Hinc Ha] Hq] Hbound]. split_and!.
    - intros i Hi%list_elem_of_In. specialize (Hinc i Hi). apply andb_true_iff in Hinc as [H1 H2].
      split; [by eapply bool_decide_eq_true_1|by eapply bool_decide_eq_true_1].
    - by eapply bool_decide_eq_true_1.
    - apply orb_true_iff in Hq as [H1|H1]; [left; by eapply bool_decide_eq_true_1|by right].
    - by eapply bool_decide_eq_true_1. }
  constructor.
  - intros r b Hget i Hi. by apply (Hb r b Hget).
  - intros r b Hget i Hi. by apply (Hb r b Hget).
  - intros b Hget. by apply (Hb _ b Hget).
  - intros b Hget Hpos. destruct (Hb _ b Hget) as (_ & _ & [?|?] & _); [lia|done].
  - intros b Hget. by apply (Hb _ b Hget).
Qed.

Definition no_equivocationb (d : Dag) : bool :=
  forallb (λ b1, forallb (λ b2,
    negb (bool_decide (author b1 = author b2 ∧ block_round b1 = block_round b2)) || bool_decide (b1 = b2))
    (dag_blocks (dag_map d))) (dag_blocks (dag_map d)).

Lemma no_equivocationb_sound d B : no_equivocationb d = true → no_equivocation d B.
Proof.
  unfold no_equivocationb. rewrite forallb_forall. intros Hall b1 b2 H1 H2 Ha Hr _.
  assert (∀ b, get_block d (reference b) = Some b → In b (dag_blocks (dag_map d))) as Hin.
  { intros b Hb. apply list_elem_of_In, elem_of_dag_blocks; [apply dag_map_ok|done]. }
  specialize (Hall b1 (Hin b1 H1)). rewrite forallb_forall in Hall. specialize (Hall b2 (Hin b2 H2)).
  rewrite (bool_decide_true (_ ∧ _)) in Hall by done. by eapply bool_decide_eq_true_1.
Qed.

Definition sub_viewb (d1 d2 : Dag) : bool :=
  forallb (λ b, bool_decide (dag_map d2 !! reference b = Some b)) (dag_blocks (dag_map d1)).

Lemma sub_viewb_sound d1 d2 : sub_viewb d1 d2 = true → sub_view d1 d2.
Proof.
  unfold sub_viewb. rewrite forallb_forall. intros Hall r b Hb.
  pose proof (get_block_reference d1 r b Hb) as Href. subst r.
  eapply bool_decide_eq_true_1, Hall, list_elem_of_In, elem_of_dag_blocks; [apply dag_map_ok|done].
Qed.

(** A fully connected DAG of four authorities up to round [n]. *)
Definition full_ref (r a : N) : BlockReference := mkRef a r (4 * r + a).
Definition full_block (r a : N) : StatementBlock :=
  mkBlock (full_ref r a) (if bool_decide (r = 0) then [] else full_ref (r - 1) <$> range_list 0 4) [] 0 false 0.
Definition full_map (n : N) : gmap BlockReference StatementBlock :=
  list_to_map (flat_map (λ r, (λ a, (full_ref r a, full_block r a)) <$> range_list 0 4) (range_list 0 (n + 1))).
Definition full_dag4 : Dag := mkDag (full_map 4) ltac:(vm_compute; reflexivity).
Definition full_dag6 : Dag := mkDag (full_map 6) ltac:(vm_compute; reflexivity).

Definition default_builder : UniversalCommitterBuilder := UniversalCommitterBuilder_new four_equal.
Definition default_committer : BaseCommitter := BaseCommitter_new four_equal.

Lemma default_committer_ok : committer_ok four_equal default_committer.
Proof. by split_and!. Qed.

Lemma try_commit_agreement_witness :
  ∃ out1 out2, try_commit [default_committer] full_dag6 (full_ref 0 0) = Ok out1 ∧
    try_commit [default_committer] full_dag4 (full_ref 0 0) = Ok out2 ∧
    (out1 `prefix_of` out2 ∨ out2 `prefix_of` out1) ∧ out1 = [Commit (full_block 3 3)].
Proof.
  destruct (try_commit_agreement four_equal full_dag6 ∅ full_dag6 full_dag4 default_builder
    [default_committer] (full_ref 0 0)) as (out1 & out2 & H1 & H2 & Hp).
  - exact four_equal_wf.
  - apply view_okb_sound. vm_compute; reflexivity.
  - vm_compute; reflexivity.
  - apply no_equivocationb_sound. vm_compute; reflexivity.
  - vm_compute; reflexivity.
  - reflexivity.
  - reflexivity.
  - apply view_okb_sound. vm_compute; reflexivity.
  - intros r b Hb. exact Hb.
  - vm_compute; reflexivity.
  - apply view_okb_sound. vm_compute; reflexivity.
  - apply sub_viewb_sound. vm_compute; reflexivity.
  - vm_compute; reflexivity.
  - exists out1, out2. split; [exact H1|]. split; [exact H2|]. split; [exact Hp|].
    vm_compute in H1. injection H1 as <-. vm_compute; reflexivity.
Defined.

Lemma certified_leader_unique_witness :
  is_certificate default_committer full_dag6 (full_block 5 1) (full_block 3 3) = Ok true ∧
  reference (full_block 3 3) = full_ref 3 3.
Proof.
  split; [vm_compute; reflexivity|].
  apply (certified_leader_unique four_equal full_dag6 ∅ full_dag6 full_dag6 default_committer
    (full_block 5 1) (full_block 5 2) (full_block 3 3) (full_block 3 3)).
  - exact four_equal_wf.
  - apply view_okb_sound. vm_compute; reflexivity.
  - vm_compute; reflexivity.
  - apply no_equivocationb_sound. vm_compute; reflexivity.
  - reflexivity.
  - apply view_okb_sound. vm_compute; reflexivity.
  - intros r b Hb. exact Hb.
  - apply view_okb_sound. vm_compute; reflexivity.
  - intros r b Hb. exact Hb.
  - vm_compute; reflexivity.
  - vm_compute; reflexivity.
  - reflexivity.
  - vm_compute; reflexivity.
  - vm_compute; reflexivity.
  - vm_compute; reflexivity.
  - vm_compute; reflexivity.
Defined.

Lemma direct_decision_safe_witness :
  decide_leader_from_anchor default_committer full_dag6 (full_block 6 2) 3 3 = Ok (Commit (full_block 3 3)).
Proof.
  apply (direct_decision_safe four_equal full_dag6 ∅ full_dag6 full_dag6 default_committer 3 3).
  - exact four_equal_wf.
  - apply view_okb_sound. vm_compute; reflexivity.
  - vm_compute; reflexivity.
  - apply no_equivocationb_sound. vm_compute; reflexivity.
  - exact default_committer_ok.
  - vm_compute; reflexivity.
  - vm_compute; reflexivity.
  - apply view_okb_sound. vm_compute; reflexivity.
  - intros r b Hb. exact Hb.
  - apply view_okb_sound. vm_compute; reflexivity.
  - intros r b Hb. exact Hb.
  - vm_compute; reflexivity.
  - vm_compute; discriminate.
  - vm_compute; reflexivity.
  - vm_compute; reflexivity.
Defined.

(** *** Waves longer than three rounds *)

(** After four full rounds, authority 0 leads round 4; authorities 1 to 3 do not
    include its block in round 5, and the rounds above are built on authorities
    0, 1 and 2. The second view has not received the round-5 block of authority 3. *)
Definition split_includes (r a : N) : list BlockReference :=
  if bool_decide (r = 5 ∧ 0 < a) then full_ref 4 <$> [1; 2; 3]
  else full_ref (r - 1) <$> [0; 1; 2].
Definition split_block (r a : N) : StatementBlock := mkBlock (full_ref r a) (split_includes r a) [] 0 false 0.
Definition split_map (round5 : list N) : gmap BlockReference StatementBlock :=
  list_to_map (((λ a, (full_ref 5 a, split_block 5 a)) <$> round5)
    ++ flat_map (λ r, (λ a, (full_ref r a, split_block r a)) <$> [0; 1; 2]) [6; 7]) ∪ full_map 4.
Definition split_dag : Dag := mkDag (split_map [0; 1; 2; 3]) ltac:(vm_compute; reflexivity).
Definition split_dag_behind : Dag := mkDag (split_map [0; 1; 2]) ltac:(vm_compute; reflexivity).

(** The direct skip rule is only sound for waves of three rounds: with a wave
    length of four, which [with_options] accepts and the configuration exposes,
    two valid views of one DAG without any equivocation reach opposite direct
    decisions for the same leader: one skips it (a quorum of the round above does
    not include it) and the other commits it (a quorum of certificates three rounds
    above, whose votes reach it through one block). *)
Theorem long_waves_disagree :
  ∃ cm, with_options default_committer (mkOptions 4 0 0) = Ok cm ∧
    wf_view four_equal split_dag ∧ wf_view four_equal split_dag_behind ∧
    sub_view split_dag_behind split_dag ∧ no_equivocation split_dag ∅ ∧
    elect_leader cm 4 = Some 0 ∧
    try_direct_decide cm split_dag 0 4 = Ok (Skip 0 4) ∧
    try_direct_decide cm split_dag_behind 0 4 = Ok (Commit (full_block 4 0)).
Proof.
  eexists. split; [vm_compute; reflexivity|].
  split; [apply view_okb_sound; vm_compute; reflexivity|].
  split; [apply view_okb_sound; vm_compute; reflexivity|].
  split; [apply sub_viewb_sound; vm_compute; reflexivity|].
  split; [apply no_equivocationb_sound; vm_compute; reflexivity|].
  split; [vm_compute; reflexivity|]. split; vm_compute; reflexivity.
Qed.
