(* ===== verification/Recovery.v ===== *)
(** * Recovery: the state rebuilt from the log (mysticeti-core/src/state.rs and
      [BlockStore::open] of block_store.rs)

    Every item of the log goes through the builder; the index of the store is
    filled with on-disk entries. The bincode encodings are the class [Codec]. *)

From S2P Require Import Prelude Bytes Types Committee BTree BlockStore Linearizer Wal WalLog.
From Stdlib Require Import Strings.Byte.

(** [CommitData] *)
Record CommitData := mkCommitData { leader : BlockReference; sub_dag : list BlockReference }.

Definition CommitData_from (value : CommittedSubDag) : CommitData :=
  mkCommitData (anchor value) (reference <$> sub_dag_blocks value).

(** [core::MetaStatement] *)
Inductive MetaStatement :=
| Include (r : BlockReference)
| Payload (statements : list BaseStatement).

Inductive RawMetaStatement :=
| RawInclude (r : BlockReference)
| RawPayload (payload : list byte).

(** The bincode encodings of the values in the log. *)
Class Codec := {
  serialized_bytes : StatementBlock → list byte;
  block_from_bytes : list byte → option StatementBlock;
  position_bytes : WalPosition → list byte;
  position_from_bytes : list byte → option WalPosition;
  statements_bytes : list BaseStatement → list byte;
  statements_from_bytes : list byte → option (list BaseStatement);
  commits_bytes : list CommitData * list byte → list byte;
  commits_from_bytes : list byte → option (list CommitData * list byte);
}.

(** Decoding undoes encoding; a position takes eight bytes
    ([own_block_serialization_test]). *)
Class CodecLaws `{Codec} := {
  block_round_trip : ∀ b, block_from_bytes (serialized_bytes b) = Some b;
  position_round_trip : ∀ p, p ≤ u64_max → position_from_bytes (position_bytes p) = Some p;
  position_size : ∀ p, p ≤ u64_max → length (position_bytes p) = OWN_BLOCK_HEADER_SIZE;
  statements_round_trip : ∀ l, statements_from_bytes (statements_bytes l) = Some l;
  commits_round_trip : ∀ x, commits_from_bytes (commits_bytes x) = Some x;
}.

Record RecoveredState := mkRecovered {
  rs_block_store : BlockStoreInner;
  rs_last_own_block : option OwnBlockData;
  rs_pending : list (WalPosition * MetaStatement);
  rs_state : option (list byte);
  rs_unprocessed_blocks : list StatementBlock;
  rs_last_committed_leader : option BlockReference;
  rs_committed_blocks : gset BlockReference;
  rs_committed_state : option (list byte);
}.

Record RecoveredStateBuilder := mkStateBuilder {
  sb_pending : gmap WalPosition RawMetaStatement;
  sb_last_own_block : option OwnBlockData;
  sb_state : option (list byte);
  sb_unprocessed_blocks : list StatementBlock;
  sb_last_committed_leader : option BlockReference;
  sb_committed_blocks : gset BlockReference;
  sb_committed_state : option (list byte);
}.

Definition RecoveredStateBuilder_new : RecoveredStateBuilder :=
  mkStateBuilder ∅ None None [] None ∅ None.

Definition builder_block (self : RecoveredStateBuilder) (pos : WalPosition) (block : StatementBlock)
    : RecoveredStateBuilder :=
  mkStateBuilder (<[pos := RawInclude (reference block)]> (sb_pending self)) (sb_last_own_block self)
    (sb_state self) (sb_unprocessed_blocks self ++ [block]) (sb_last_committed_leader self)
    (sb_committed_blocks self) (sb_committed_state self).

Definition builder_payload (self : RecoveredStateBuilder) (pos : WalPosition) (payload : list byte)
    : RecoveredStateBuilder :=
  mkStateBuilder (<[pos := RawPayload payload]> (sb_pending self)) (sb_last_own_block self)
    (sb_state self) (sb_unprocessed_blocks self) (sb_last_committed_leader self)
    (sb_committed_blocks self) (sb_committed_state self).

(** [split_off(&next_entry)] keeps the keys from [next_entry] on. *)
Definition builder_own_block (self : RecoveredStateBuilder) (data : OwnBlockData)
    : RecoveredStateBuilder :=
  mkStateBuilder (filter (λ kv, next_entry data ≤ kv.1) (sb_pending self)) (Some data)
    (sb_state self) (sb_unprocessed_blocks self ++ [own_block data]) (sb_last_committed_leader self)
    (sb_committed_blocks self) (sb_committed_state self).

Definition builder_state (self : RecoveredStateBuilder) (state : list byte) : RecoveredStateBuilder :=
  mkStateBuilder (sb_pending self) (sb_last_own_block self) (Some state) []
    (sb_last_committed_leader self) (sb_committed_blocks self) (sb_committed_state self).

Definition builder_commit_data (self : RecoveredStateBuilder) (commits : list CommitData)
    (committed_state : list byte) : RecoveredStateBuilder :=
  let '(last_leader, committed) :=
    foldl (λ '(_, committed) c, (Some (leader c), committed ∪ list_to_set (sub_dag c)))
      (sb_last_committed_leader self, sb_committed_blocks self) commits in
  mkStateBuilder (sb_pending self) (sb_last_own_block self) (sb_state self)
    (sb_unprocessed_blocks self) last_leader committed (Some committed_state).

Section Recovery.
Context `{Codec}.

Definition into_meta_statement (raw : RawMetaStatement) : outcome MetaStatement :=
  match raw with
  | RawInclude r => Ok (Include r)
  | RawPayload payload => statements ← expect (statements_from_bytes payload); Ok (Payload statements)
  end.

(** [RecoveredStateBuilder::build] *)
Definition builder_finish (self : RecoveredStateBuilder) (block_store : BlockStoreInner)
    : outcome RecoveredState :=
  pending ← mapM_outcome (λ '(pos, raw), m ← into_meta_statement raw; Ok (pos, m))
              (btree_entries (sb_pending self));
  Ok (mkRecovered block_store (sb_last_own_block self) pending (sb_state self)
        (sb_unprocessed_blocks self) (sb_last_committed_leader self) (sb_committed_blocks self)
        (sb_committed_state self)).

(** The body of the loop of [BlockStore::open]. *)
Definition open_step (st : RecoveredStateBuilder * BlockStoreInner) (i : wal_item)
    : outcome (RecoveredStateBuilder * BlockStoreInner) :=
  let '(builder, inner) := st in
  let '(pos, (tag, data)) := i in
  if tag =? WAL_ENTRY_BLOCK then
    block ← expect (block_from_bytes data);
    inner ← add_unloaded inner (reference block) pos;
    Ok (builder_block builder pos block, inner)
  else if tag =? WAL_ENTRY_PAYLOAD then Ok (builder_payload builder pos data, inner)
  else if tag =? WAL_ENTRY_OWN_BLOCK then
    res ← OwnBlockData_from_bytes block_from_bytes position_from_bytes data;
    '(own_block_data, own_block) ← expect res;
    inner ← add_unloaded inner (reference own_block) pos;
    Ok (builder_own_block builder own_block_data, inner)
  else if tag =? WAL_ENTRY_STATE then Ok (builder_state builder data, inner)
  else if tag =? WAL_ENTRY_COMMIT then
    '(commit_data, state) ← expect (commits_from_bytes data);
    Ok (builder_commit_data builder commit_data state, inner)
  else Panic.

Definition open_items (authority : AuthorityIndex) (c : Committee) (l : list wal_item)
    : outcome (RecoveredStateBuilder * BlockStoreInner) :=
  foldM open_step (RecoveredStateBuilder_new, BlockStoreInner_new authority c) l.

(** [BlockStore::open] *)
Definition store_open {Wal} `{WalOps Wal} (authority : AuthorityIndex) (wal : Wal) (c : Committee)
    : outcome RecoveredState :=
  l ← log_iterate wal;
  '(builder, inner) ← open_items authority c l;
  builder_finish builder inner.
End Recovery.
