(* ===== verification/Core.v ===== *)
(** * Core: the validator's state machine (mysticeti-core/src/core.rs)

    The core composes the block manager, the threshold clock, the log with the
    block store, the epoch manager, the committers and the block handler. Its
    operations are state passing in [outcome]; the readings of the clock are
    arguments. *)

From S2P Require Import Prelude Bytes Types Committee ThresholdClock Epoch BTree BlockStore.
From S2P Require Import BlockManager Linearizer Consensus BlockAuth Wal WalLog Recovery.
From Stdlib Require Import Strings.Byte.

(** ** The interfaces of the core *)

(** The trait [BlockHandler]. A handler may read transactions from the store. *)
Class BlockHandler (H : Type) := {
  handle_blocks : (TransactionLocator → outcome (option Transaction)) → H → list StatementBlock →
    bool → outcome (H * list BaseStatement);
  handle_proposal : H → StatementBlock → outcome H;
  handler_state : H → list byte;
  recover_state : H → list byte → outcome H;
  handler_cleanup : H → H;
}.

(** The executor of the pevm crate, given raw transactions with their callers, and
    the bincode decoding of a shared transaction. *)
Class PevmExecutor (E : Type) := {
  execute : E → list (list byte * N) → outcome E;
  decode_share_base_statement : list byte → option (list byte * N);
}.

(** ** The store behind its reader *)

Section Reader.
Context {Wal : Type} `{WalOps Wal} `{Codec}.

Notation StoreWriter := (StoreWriter (Wal := Wal)).

Definition writer_get_block (w : StoreWriter) (r : BlockReference) : outcome (option StatementBlock) :=
  store_get_block (log_read (sw_wal w)) block_from_bytes position_from_bytes (sw_store w) r.

Definition writer_get_transaction (w : StoreWriter) (l : TransactionLocator)
    : outcome (option Transaction) :=
  get_transaction (log_read (sw_wal w)) block_from_bytes position_from_bytes (sw_store w) l.

Definition ok_or {A} (d : A) (m : outcome A) : A := match m with Ok a => a | _ => d end.

(** The store as the committers read it; where a read of the log fails (the
    process would panic) the block counts as absent. *)
#[global] Instance writer_reader : BlockReader StoreWriter := {|
  get_block w r := ok_or None (writer_get_block w r);
  get_blocks_by_round w r :=
    ok_or [] (store_get_blocks_by_round (log_read (sw_wal w)) block_from_bytes position_from_bytes
                (sw_store w) r);
  get_blocks_at_authority_round w a r :=
    ok_or [] (store_get_blocks_at_authority_round (log_read (sw_wal w)) block_from_bytes
                position_from_bytes (sw_store w) a r);
  len_expensive w := inner_len_expensive (sw_store w);
  reader_highest_round w := highest_round (sw_store w);
|}.

#[global] Instance writer_writer : BlockWriter StoreWriter := store_writer log_write serialized_bytes.

(** A write to the log on its own. *)
Definition writer_log (w : StoreWriter) (tag : N) (data : list byte)
    : outcome (StoreWriter * WalPosition) :=
  '(wal, pos) ← log_write (sw_wal w) tag data; Ok (mkStoreWriter wal (sw_store w), pos).

Definition writer_insert_own_block (w : StoreWriter) (data : OwnBlockData) : outcome StoreWriter :=
  insert_own_block log_write serialized_bytes position_bytes w data.
End Reader.

(** ** The state *)

Section Core.
Context {Wal H E : Type} `{WalOps Wal} `{Codec} `{Crypto} `{BlockHandler H} `{PevmExecutor E}.

Notation StoreWriter := (StoreWriter (Wal := Wal)).

(** The fields that do not change after [open]. *)
Record CoreConfig := mkCoreConfig {
  cc_authority : AuthorityIndex;
  cc_committee : Committee;
  cc_fsync : bool;
  cc_signer : Signer;
  cc_rounds_in_epoch : RoundNumber;
  cc_committer : list BaseCommitter;
}.

(** [wal_writer] and [block_store] are the two halves of [core_writer]. *)
Record Core := mkCore {
  core_block_manager : BlockManager;
  core_pending : list (WalPosition * MetaStatement);
  core_last_own_block : OwnBlockData;
  core_block_handler : H;
  core_threshold_clock : ThresholdClockAggregator;
  core_last_commit_leader : BlockReference;
  core_writer : StoreWriter;
  core_recovered_committed_blocks : option (gset BlockReference * option (list byte));
  core_epoch_manager : EpochManager;
  core_pevm_executor : option E;
  core_executed_txns : N;
}.

Definition set_writer (self : Core) (w : StoreWriter) : Core :=
  mkCore (core_block_manager self) (core_pending self) (core_last_own_block self)
    (core_block_handler self) (core_threshold_clock self) (core_last_commit_leader self) w
    (core_recovered_committed_blocks self) (core_epoch_manager self) (core_pevm_executor self)
    (core_executed_txns self).

Definition set_epoch_manager (self : Core) (m : EpochManager) : Core :=
  mkCore (core_block_manager self) (core_pending self) (core_last_own_block self)
    (core_block_handler self) (core_threshold_clock self) (core_last_commit_leader self)
    (core_writer self) (core_recovered_committed_blocks self) m (core_pevm_executor self)
    (core_executed_txns self).

Context (cfg : CoreConfig).

Definition epoch_changing (self : Core) : bool := changing (core_epoch_manager self).
Definition epoch_closed (self : Core) : bool := closed (core_epoch_manager self).
Definition last_proposed (self : Core) : RoundNumber :=
  block_round (own_block (core_last_own_block self)).

(** ** Receiving blocks *)

Definition run_block_handler (self : Core) (processed : list StatementBlock) : outcome Core :=
  '(h, statements) ← handle_blocks (writer_get_transaction (core_writer self))
                       (core_block_handler self) processed (negb (epoch_changing self));
  '(w, position) ← writer_log (core_writer self) WAL_ENTRY_PAYLOAD (statements_bytes statements);
  Ok (mkCore (core_block_manager self) (core_pending self ++ [(position, Payload statements)])
        (core_last_own_block self) h (core_threshold_clock self) (core_last_commit_leader self) w
        (core_recovered_committed_blocks self) (core_epoch_manager self) (core_pevm_executor self)
        (core_executed_txns self)).

(** The loop over the processed blocks. *)
Definition note_processed (st : ThresholdClockAggregator * list (WalPosition * MetaStatement))
    (p : WalPosition * StatementBlock)
    : outcome (ThresholdClockAggregator * list (WalPosition * MetaStatement)) :=
  let '(clock, pending) := st in
  clock ← clock_add_block clock (reference p.2) (cc_committee cfg);
  Ok (clock, pending ++ [(p.1, Include (reference p.2))]).

(** [Core::add_blocks] *)
Definition core_add_blocks (self : Core) (blocks : list StatementBlock)
    : outcome (Core * list StatementBlock) :=
  '(manager, w, processed) ← add_blocks (core_block_manager self) blocks (core_writer self);
  '(clock, pending) ← foldM note_processed (core_threshold_clock self, core_pending self) processed;
  let result := processed.*2 in
  self ← run_block_handler
           (mkCore manager pending (core_last_own_block self) (core_block_handler self) clock
              (core_last_commit_leader self) w (core_recovered_committed_blocks self)
              (core_epoch_manager self) (core_pevm_executor self) (core_executed_txns self)) result;
  Ok (self, result).

(** ** Proposing *)

Definition is_include_from (clock_round : RoundNumber) (m : MetaStatement) : bool :=
  match m with Include r => bool_decide (clock_round ≤ br_round r) | Payload _ => false end.

(** [position(..).unwrap_or(len)] *)
Fixpoint first_include_index (clock_round : RoundNumber) (l : list (WalPosition * MetaStatement)) : nat :=
  match l with
  | [] => O
  | (_, m) :: rest =>
      if is_include_from clock_round m then O
      else Datatypes.S (first_include_index clock_round rest)
  end.

(** The references in the blocks that are about to be included. *)
Definition collect_references (w : StoreWriter) (refs : gset BlockReference)
    (p : WalPosition * MetaStatement) : outcome (gset BlockReference) :=
  match p.2 with
  | Include r =>
      ob ← writer_get_block w r;
      Ok (match ob with Some b => refs ∪ list_to_set (includes b) | None => refs end)
  | Payload _ => Ok refs
  end.

Definition select_include (references_in_block : gset BlockReference) (m : MetaStatement)
    : list BlockReference :=
  match m with
  | Include i => if bool_decide (i ∈ references_in_block) then [] else [i]
  | Payload _ => []
  end.

Definition select_statements (epoch_changing : bool) (m : MetaStatement) : list BaseStatement :=
  match m with
  | Include _ => []
  | Payload payload => if epoch_changing then [] else payload
  end.

(** [WalPosition::MAX] *)
Definition WalPosition_MAX : WalPosition := u64_max.

Definition next_entry_of (pending : list (WalPosition * MetaStatement)) : WalPosition :=
  match pending with (pos, _) :: _ => pos | [] => WalPosition_MAX end.

(** [Core::try_new_block] *)
Definition core_try_new_block (self : Core) (now : N) : outcome (Core * option StatementBlock) :=
  let clock_round := clock_get_round (core_threshold_clock self) in
  if bool_decide (clock_round ≤ last_proposed self) then Ok (self, None)
  else
    let index := first_include_index clock_round (core_pending self) in
    let taken := take index (core_pending self) in
    let pending := drop index (core_pending self) in
    references_in_block ←
      foldM (collect_references (core_writer self))
        (list_to_set (includes (own_block (core_last_own_block self)))) taken;
    let includes_list :=
      reference (own_block (core_last_own_block self))
      :: flat_map (λ p, select_include references_in_block p.2) taken in
    let statements_list := flat_map (λ p, select_statements (epoch_changing self) p.2) taken in
    let block := new_with_signer (cc_authority cfg) clock_round includes_list statements_list now
                   (epoch_changing self) (cc_signer cfg) in
    first ← expect (head (includes block));
    _ ← rust_assert (bool_decide (br_authority first = cc_authority cfg));
    _ ← rust_assert (byte_len (serialized_bytes block) <=? log_max_entry_size / 2);
    clock ← clock_add_block (core_threshold_clock self) (reference block) (cc_committee cfg);
    h ← handle_proposal (core_block_handler self) block;
    let last_own_block := mkOwnBlockData (next_entry_of pending) block in
    w ← writer_insert_own_block (core_writer self) last_own_block;
    _ ← rust_assert (negb (cc_fsync cfg) || log_sync (sw_wal w));
    Ok (mkCore (core_block_manager self) pending last_own_block h clock
          (core_last_commit_leader self) w (core_recovered_committed_blocks self)
          (core_epoch_manager self) (core_pevm_executor self) (core_executed_txns self),
        Some block).

(** [Core::ready_new_block]; [period - 1] wraps at zero. *)
Definition ready_new_block (self : Core) (period : N) (connected_authorities : gset AuthorityIndex) : bool :=
  let quorum_round := clock_get_round (core_threshold_clock self) in
  if bool_decide (N.max (br_round (core_last_commit_leader self)) (u64_sub period 1) < quorum_round)
  then
    let leader_round := quorum_round - 1 in
    let leaders := filter (λ a, a ∈ connected_authorities) (get_leaders (cc_committer cfg) leader_round) in
    all_blocks_exists_at_authority_round (sw_store (core_writer self)) leaders leader_round
  else false.

(** ** Committing *)

(** [Core::try_commit] *)
Definition core_try_commit (self : Core) : outcome (Core * list StatementBlock) :=
  statuses ← try_commit (cc_committer cfg) (core_writer self) (core_last_commit_leader self);
  decided ← mapM_outcome into_decided_block statuses;
  let sequence := omap id decided in
  let last_commit_leader :=
    match last sequence with Some b => reference b | None => core_last_commit_leader self end in
  let epoch_manager :=
    if bool_decide (cc_rounds_in_epoch cfg < br_round last_commit_leader)
    then epoch_change_begun (core_epoch_manager self) else core_epoch_manager self in
  Ok (mkCore (core_block_manager self) (core_pending self) (core_last_own_block self)
        (core_block_handler self) (core_threshold_clock self) last_commit_leader (core_writer self)
        (core_recovered_committed_blocks self) epoch_manager (core_pevm_executor self)
        (core_executed_txns self), sequence).

Definition RETAIN_BELOW_COMMIT_ROUNDS : RoundNumber := 100.

(** [Core::cleanup] *)
Definition core_cleanup (self : Core) : Core :=
  let store := cleanup (sw_store (core_writer self))
                 (br_round (core_last_commit_leader self) - RETAIN_BELOW_COMMIT_ROUNDS) in
  mkCore (core_block_manager self) (core_pending self) (core_last_own_block self)
    (handler_cleanup (core_block_handler self)) (core_threshold_clock self)
    (core_last_commit_leader self) (mkStoreWriter (sw_wal (core_writer self)) store)
    (core_recovered_committed_blocks self) (core_epoch_manager self) (core_pevm_executor self)
    (core_executed_txns self).

(** The epoch manager observes the blocks of the committed sub-dags in order. *)
Definition observe_commits (self : Core) (committed : list CommittedSubDag) (now : N) : outcome Core :=
  m ← foldM (λ m b, observe_committed_block m b (cc_committee cfg) now) (core_epoch_manager self)
        (flat_map sub_dag_blocks committed);
  Ok (set_epoch_manager self m).

Definition write_state (self : Core) : outcome Core :=
  '(w, _) ← writer_log (core_writer self) WAL_ENTRY_STATE (handler_state (core_block_handler self));
  Ok (set_writer self w).

Definition write_commits (self : Core) (commits : list CommitData) (state : list byte) : outcome Core :=
  '(w, _) ← writer_log (core_writer self) WAL_ENTRY_COMMIT (commits_bytes (commits, state));
  Ok (set_writer self w).

(** [Core::handle_committed_subdag] *)
Definition handle_committed_subdag (self : Core) (committed : list CommittedSubDag) (state : list byte)
    (now : N) : outcome (Core * list CommitData) :=
  self ← observe_commits self committed now;
  let commit_data := CommitData_from <$> committed in
  self ← write_state self;
  self ← write_commits self commit_data state;
  Ok (self, commit_data).

(** [Core::execute_block_in_pevm] *)
Definition decode_shares (statements : list BaseStatement) : outcome (list (list byte * N)) :=
  foldM (λ txs s, match s with
                  | Share tx => t ← expect (decode_share_base_statement (tx_data tx)); Ok (txs ++ [t])
                  | _ => Ok txs
                  end) [] statements.

Definition execute_block_in_pevm (self : Core) (statements : list BaseStatement) : outcome Core :=
  txs ← decode_shares statements;
  if bool_decide (0 < length txs)%nat then
    e ← expect (core_pevm_executor self);
    e ← execute e txs;
    Ok (mkCore (core_block_manager self) (core_pending self) (core_last_own_block self)
          (core_block_handler self) (core_threshold_clock self) (core_last_commit_leader self)
          (core_writer self) (core_recovered_committed_blocks self) (core_epoch_manager self) (Some e)
          (u64_add (core_executed_txns self) (N.of_nat (length txs))))
  else Ok self.

(** [Core::handle_committed_subdag_with_pevm]: one block after the other is
    observed and executed; nothing is written to the log. *)
Definition handle_committed_subdag_with_pevm (self : Core) (committed : list CommittedSubDag)
    (now : N) : outcome Core :=
  foldM (λ self b,
           m ← observe_committed_block (core_epoch_manager self) b (cc_committee cfg) now;
           execute_block_in_pevm (set_epoch_manager self m) (statements b))
    self (flat_map sub_dag_blocks committed).

Definition take_recovered_committed_blocks (self : Core)
    : outcome (Core * (gset BlockReference * option (list byte))) :=
  r ← expect (core_recovered_committed_blocks self);
  Ok (mkCore (core_block_manager self) (core_pending self) (core_last_own_block self)
        (core_block_handler self) (core_threshold_clock self) (core_last_commit_leader self)
        (core_writer self) None (core_epoch_manager self) (core_pevm_executor self)
        (core_executed_txns self), r).

(** ** Opening *)

(** The genesis blocks of the other authorities are inserted and become pending. *)
Definition insert_genesis
    (st : ThresholdClockAggregator * StoreWriter * list (WalPosition * MetaStatement))
    (block : StatementBlock)
    : outcome (ThresholdClockAggregator * StoreWriter * list (WalPosition * MetaStatement)) :=
  let '(clock, w, pending) := st in
  clock ← clock_add_block clock (reference block) (cc_committee cfg);
  '(w, position) ← insert_block w block;
  Ok (clock, w, pending ++ [(position, Include (reference block))]).

(** The clock and the own block when the log is empty. *)
Definition open_genesis (w : StoreWriter) (pending : list (WalPosition * MetaStatement))
    : outcome (ThresholdClockAggregator * StoreWriter * list (WalPosition * MetaStatement) * OwnBlockData) :=
  _ ← rust_assert (bool_decide (length pending = O));
  let '(own_genesis_block, other_genesis_blocks) :=
    genesis_blocks (cc_committee cfg) (cc_authority cfg) in
  _ ← rust_assert (bool_decide (author own_genesis_block = cc_authority cfg));
  '(clock, w, pending) ← foldM insert_genesis (ThresholdClockAggregator_new 0, w, pending)
                           other_genesis_blocks;
  clock ← clock_add_block clock (reference own_genesis_block) (cc_committee cfg);
  let own_block_data := mkOwnBlockData WalPosition_MAX own_genesis_block in
  w ← writer_insert_own_block w own_block_data;
  Ok (clock, w, pending, own_block_data).

(** The clock of a recovered core sees the pending includes only. *)
Definition recover_clock (pending : list (WalPosition * MetaStatement)) : outcome ThresholdClockAggregator :=
  foldM (λ clock p, match p.2 with
                    | Include r => clock_add_block clock r (cc_committee cfg)
                    | Payload _ => Ok clock
                    end) (ThresholdClockAggregator_new 0) pending.

(** [Core::open] *)
Definition core_open (block_handler : H) (recovered : RecoveredState) (wal : Wal)
    (pevm_executor : option E) : outcome Core :=
  let w := mkStoreWriter wal (rs_block_store recovered) in
  '(clock, w, pending, last_own) ←
    match rs_last_own_block recovered with
    | Some own_block =>
        clock ← recover_clock (rs_pending recovered);
        Ok (clock, w, rs_pending recovered, own_block)
    | None => open_genesis w (rs_pending recovered)
    end;
  h ← match rs_state recovered with Some s => recover_state block_handler s | None => Ok block_handler end;
  let this :=
    mkCore (BlockManager_new (cc_committee cfg)) pending last_own h clock
      (default (mkRef 0 0 0) (rs_last_committed_leader recovered)) w
      (Some (rs_committed_blocks recovered, rs_committed_state recovered)) EpochManager_new
      pevm_executor 0 in
  match rs_unprocessed_blocks recovered with
  | [] => Ok this
  | blocks => run_block_handler this blocks
  end.
End Core.
