(* ===== verification/CoreRecovery.v ===== *)
(** * CoreRecovery: what a validator finds again after a restart

    [logged] relates a running core to the items in its log: replaying them
    rebuilds the store (with on-disk entries), the pending queue and the own block
    of the core. Every operation of the core preserves it, and so does a restart;
    hence a core never proposes two blocks for one round, not even across
    restarts. *)

From S2P Require Import Prelude Bytes Types Committee ThresholdClock Epoch BTree BlockStore.
From S2P Require Import BlockManager Linearizer Consensus BlockAuth Wal WalLog Recovery Core.
From Stdlib Require Import Strings.Byte.

(** ** Sorted association lists as maps *)

Section SortedKeys.
Context {V : Type}.

Definition keys_sorted (l : list (N * V)) : Prop := StronglySorted (λ x y, x.1 < y.1) l.

Lemma keys_sorted_NoDup l : keys_sorted l → NoDup l.*1.
Proof.
  induction 1 as [|x l _ IH Hx]; simpl; constructor; [|done].
  intros (y & Heq & Hy)%list_elem_of_fmap. rewrite Forall_forall in Hx. specialize (Hx y Hy). lia.
Qed.

(** Sorted lists with the same members are equal. *)
Lemma keys_sorted_unique (l1 l2 : list (N * V)) :
  keys_sorted l1 → keys_sorted l2 → (∀ x, x ∈ l1 ↔ x ∈ l2) → l1 = l2.
Proof.
  intros H1. revert l2. induction H1 as [|x l1 H1 IH Hx]; intros l2 H2 Hmem.
  - destruct l2 as [|y l2]; [done|]. exfalso. apply (not_elem_of_nil y). apply Hmem. by left.
  - destruct H2 as [|y l2 H2 Hy].
    { exfalso. apply (not_elem_of_nil x). apply Hmem. by left. }
    rewrite Forall_forall in Hx, Hy.
    assert (x = y) as ->.
    { destruct (proj1 (elem_of_cons _ _ _) (proj1 (Hmem x) ltac:(by left))) as [|Hin]; [done|].
      destruct (proj1 (elem_of_cons _ _ _) (proj2 (Hmem y) ltac:(by left))) as [|Hin']; [done|].
      specialize (Hx _ Hin'). specialize (Hy _ Hin). lia. }
    f_equal. apply IH; [done|]. intros z. specialize (Hmem z). rewrite !elem_of_cons in Hmem.
    split; intros Hz.
    + destruct (proj1 Hmem (or_intror Hz)) as [->|]; [|done]. specialize (Hx _ Hz). lia.
    + destruct (proj2 Hmem (or_intror Hz)) as [->|]; [|done]. specialize (Hy _ Hz). lia.
Qed.

Lemma btree_entries_keys_sorted (m : gmap N V) : keys_sorted (btree_entries m).
Proof.
  pose proof (btree_entries_sorted m) as Hs. pose proof (btree_entries_NoDup m) as Hn.
  revert Hs Hn. induction 1 as [|x l _ IH Hx]; simpl; [constructor|].
  intros [Hnot Hn]%NoDup_cons. constructor; [by apply IH|].
  rewrite Forall_forall in *. intros y Hy. specialize (Hx y Hy). unfold key_le in Hx.
  assert (x.1 ≠ y.1); [|lia]. intros Heq. apply Hnot. rewrite Heq. apply list_elem_of_fmap. eauto.
Qed.

Lemma btree_entries_list (l : list (N * V)) :
  keys_sorted l → btree_entries (list_to_map l) = l.
Proof.
  intros Hl. apply keys_sorted_unique; [apply btree_entries_keys_sorted|done|].
  intros [k v]. rewrite elem_of_btree_entries.
  rewrite <-elem_of_list_to_map by by apply keys_sorted_NoDup. done.
Qed.

Lemma list_to_map_filter_keys (P : N → Prop) `{∀ k, Decision (P k)} (l : list (N * V)) :
  keys_sorted l →
  filter (λ kv, P kv.1) (list_to_map l : gmap N V) = list_to_map (filter (λ kv, P kv.1) l).
Proof.
  intros Hl. pose proof (keys_sorted_NoDup l Hl) as Hn. apply map_eq. intros k.
  apply option_eq. intros v. rewrite map_lookup_filter_Some. cbn [fst].
  rewrite <-!elem_of_list_to_map; [|apply keys_sorted_NoDup; by apply StronglySorted_filter|done].
  rewrite list_elem_of_filter. naive_solver.
Qed.

(** Keeping the keys from that of the [i]-th entry on. *)
Lemma filter_from_key (l : list (N * V)) i next :
  keys_sorted l →
  (match drop i l with x :: _ => next = x.1 | [] => Forall (λ x, x.1 < next) l end) →
  filter (λ kv, next ≤ kv.1) l = drop i l.
Proof.
  intros Hl. revert i. induction Hl as [|x l Hl IH Hx]; intros i Hnext; [by destruct i|].
  rewrite Forall_forall in Hx. destruct i as [|i]; simpl in Hnext.
  - subst next. simpl. apply filter_all. intros y [->|Hy]%elem_of_cons; [lia|].
    specialize (Hx y Hy). lia.
  - simpl drop. rewrite filter_cons_False.
    + apply IH. destruct (drop i l) eqn:Hd; [by apply Forall_cons in Hnext as [_ ?]|done].
    + destruct (drop i l) as [|y l'] eqn:Hd; [apply Forall_cons in Hnext as [? _]; lia|].
      subst next. assert (Hy : y ∈ l).
      { rewrite <-(take_drop i l), Hd. apply elem_of_app. right. by left. }
      specialize (Hx y Hy). lia.
Qed.
End SortedKeys.

(** ** The store without its cache *)

Notation round_index := (gmap (AuthorityIndex * BlockDigest) IndexEntry).

Definition unload_round (m : round_index) : round_index := unload_entry <$> m.

Definition unload_all (s : BlockStoreInner) : BlockStoreInner :=
  mkStore (unload_round <$> index s) (own_blocks s) (highest_round s) (store_authority s)
    (last_seen_vec s) (last_own_block s).

Lemma unload_all_new a c : unload_all (BlockStoreInner_new a c) = BlockStoreInner_new a c.
Proof. unfold unload_all, BlockStoreInner_new. simpl. by rewrite fmap_empty. Qed.

Lemma unload_entry_idemp e : unload_entry (unload_entry e) = unload_entry e.
Proof. by destruct e. Qed.

Lemma unload_all_idemp s : unload_all (unload_all s) = unload_all s.
Proof.
  unfold unload_all. simpl. f_equal. rewrite <-map_fmap_compose. apply map_fmap_ext.
  intros r m _. unfold unload_round. simpl. rewrite <-map_fmap_compose. apply map_fmap_ext.
  intros k e _. apply unload_entry_idemp.
Qed.

Lemma unload_all_cleanup s t : unload_all (cleanup s t) = unload_all s.
Proof.
  unfold cleanup. case_bool_decide; [done|]. unfold unload_below_round, unload_all. simpl. f_equal.
  apply map_eq. intros r. rewrite !lookup_fmap, map_lookup_imap.
  destruct (index s !! r) as [m|]; simpl; [|done]. f_equal.
  case_bool_decide; [done|]. unfold unload_round. rewrite <-map_fmap_compose. apply map_fmap_ext.
  intros k e _. apply unload_entry_idemp.
Qed.

Lemma inner_get_block_unload_all s r :
  inner_get_block (unload_all s) r = unload_entry <$> inner_get_block s r.
Proof.
  unfold inner_get_block, unload_all. simpl. rewrite lookup_fmap.
  destruct (index s !! br_round r) as [m|]; simpl; [|done]. unfold unload_round. by rewrite lookup_fmap.
Qed.

(** Loading a block into the store and indexing its log position agree. *)
Lemma add_unloaded_all s pos b s' : add_loaded s pos b = Ok s' →
  add_unloaded (unload_all s) (reference b) pos = Ok (unload_all s').
Proof.
  unfold add_loaded, add_unloaded, add_own_index, update_last_seen_by_authority, block_round.
  destruct s as [idx own high auth seen last_own]. simpl.
  assert (Hidx : ∀ m : gmap RoundNumber round_index, unload_round <$>
      <[br_round (reference b) := <[author_digest (reference b) := Loaded pos b]>
          (default ∅ (m !! br_round (reference b)))]> m
    = <[br_round (reference b) := <[author_digest (reference b) := OnDisk pos]>
          (default ∅ ((unload_round <$> m) !! br_round (reference b)))]>
        (unload_round <$> m)).
  { intros m. unfold unload_round. rewrite !fmap_insert, lookup_fmap. simpl. do 2 f_equal.
    destruct (m !! br_round (reference b)); simpl; [done|]. by rewrite fmap_empty. }
  destruct (seen !! N.to_nat (br_authority (reference b))) as [x|] eqn:Hseen;
    repeat (case_bool_decide; simpl; rewrite ?Hseen; simpl; try done); intros [= <-];
    unfold unload_all, index_insert; simpl; by rewrite Hidx.
Qed.

Lemma add_loaded_index s pos b s' r : add_loaded s pos b = Ok s' →
  inner_get_block s' r = if decide (r = reference b) then Some (Loaded pos b) else inner_get_block s r.
Proof.
  unfold add_loaded. intros (s1 & Hown & Hadd)%bind_ok. apply bind_ok in Hadd as (s2 & Hseen & Hadd).
  injection Hadd as <-. rewrite inner_get_block_insert. case_decide; [done|].
  assert (index s2 = index s) as Hidx; [|unfold inner_get_block; by rewrite Hidx].
  unfold update_last_seen_by_authority in Hseen. apply bind_ok in Hseen as (x & _ & Hseen). simpl in Hseen.
  assert (index s2 = index s1) as -> by (case_bool_decide; by simplify_eq).
  revert Hown. unfold add_own_index. repeat case_bool_decide; simpl; intros; by simplify_eq/=.
Qed.

(** ** The log behind a running core *)

Definition raw_of `{Codec} (m : MetaStatement) : RawMetaStatement :=
  match m with Include r => RawInclude r | Payload s => RawPayload (statements_bytes s) end.

Definition raw_entry `{Codec} (x : WalPosition * MetaStatement) : WalPosition * RawMetaStatement :=
  (x.1, raw_of x.2).

Notation commit_view := (option BlockReference * gset BlockReference * option (list byte))%type.

Definition commit_view_of (b : RecoveredStateBuilder) : commit_view :=
  (sb_last_committed_leader b, sb_committed_blocks b, sb_committed_state b).

Section Logged.
Context {Wal : Type} `{WalLaws Wal} `{CodecLaws}.
Context (authority : AuthorityIndex) (c : Committee).

Notation StoreWriter := (StoreWriter (Wal := Wal)).

(** The item of the log holds the block. *)
Definition holds_block (e : N * list byte) (b : StatementBlock) : Prop :=
  (e.1 = WAL_ENTRY_BLOCK ∧ block_from_bytes e.2 = Some b) ∨
  (e.1 = WAL_ENTRY_OWN_BLOCK ∧
   ∃ d, OwnBlockData_from_bytes block_from_bytes position_from_bytes e.2 = Ok (Some (d, b))).

(** The entry of the index stands for the block, in memory and in the log. *)
Definition entry_logged (l : list wal_item) (e : IndexEntry) (b : StatementBlock) : Prop :=
  ∃ pos i, unload_entry e = OnDisk pos ∧ (pos, i) ∈ l ∧ holds_block i b ∧
    (e = OnDisk pos ∨ e = Loaded pos b).

Record log_state (w : StoreWriter) (pending : list (WalPosition * MetaStatement))
    (own : option OwnBlockData) (cv : commit_view) (l : list wal_item) (bld : RecoveredStateBuilder)
    : Prop := {
  ls_log : log_rel (sw_wal w) l;
  ls_open : open_items authority c l = Ok (bld, unload_all (sw_store w));
  ls_pending : sb_pending bld = list_to_map (raw_entry <$> pending);
  ls_sorted : keys_sorted pending;
  ls_in : ∀ x, x ∈ pending → x.1 ∈ l.*1;
  ls_own : sb_last_own_block bld = own;
  ls_commits : commit_view_of bld = cv;
  ls_entries : ∀ r e, inner_get_block (sw_store w) r = Some e →
                 ∃ b, entry_logged l e b ∧ reference b = r;
}.

Definition logged (w : StoreWriter) (pending : list (WalPosition * MetaStatement))
    (own : option OwnBlockData) (cv : commit_view) : Prop :=
  ∃ l bld, log_state w pending own cv l bld.

Lemma open_items_snoc l i b inner :
  open_items authority c l = Ok (b, inner) →
  open_items authority c (l ++ [i]) = open_step (b, inner) i.
Proof.
  unfold open_items. intros Hl. rewrite foldM_app, Hl. cbn [mbind outcome_bind foldM]. by destruct (open_step (b, inner) i).
Qed.

(** A new position is greater than those of the log. *)
Lemma increasing_snoc (l : list wal_item) p e x : increasing (l ++ [(p, e)]) → x ∈ l.*1 → x < p.
Proof.
  intros [Hs _] (y & -> & Hy)%list_elem_of_fmap. clear authority c. induction l as [|z l IH]; [by apply elem_of_nil in Hy|].
  simpl in Hs. apply StronglySorted_inv in Hs as [Hs Hz]. apply elem_of_cons in Hy as [->|Hy]; [|by apply IH].
  rewrite Forall_forall in Hz. apply (Hz (p, e)). apply elem_of_app. right. by left.
Qed.

Lemma keys_sorted_snoc {V} (l : list (N * V)) x :
  keys_sorted l → (∀ y, y ∈ l → y.1 < x.1) → keys_sorted (l ++ [x]).
Proof.
  induction 1 as [|z l Hl IH Hz]; intros Hx; simpl; [repeat constructor|].
  constructor; [apply IH; intros y Hy; apply Hx; by right|].
  apply Forall_app. split; [done|]. constructor; [|constructor]. apply Hx. by left.
Qed.

Lemma raw_entry_keys pending : (raw_entry <$> pending).*1 = pending.*1.
Proof. rewrite <-list_fmap_compose. apply list_fmap_ext. by intros. Qed.

Lemma keys_sorted_raw pending : keys_sorted pending → keys_sorted (raw_entry <$> pending).
Proof.
  induction 1 as [|z l Hl IH Hz]; simpl; constructor; [done|].
  apply Forall_fmap. eapply Forall_impl; [exact Hz|]. done.
Qed.

Lemma entry_logged_mono l l' e b : entry_logged l e b → entry_logged (l ++ l') e b.
Proof.
  intros (pos & i & He & Hi & Hb & Hc). exists pos, i. split_and!; try done.
  apply elem_of_app. by left.
Qed.

(** Reading an entry of the index. *)
Lemma entry_logged_denotes (wal : Wal) l e b : log_rel wal l → entry_logged l e b →
  entry_denotes (log_read wal) block_from_bytes position_from_bytes e b.
Proof.
  intros Hl (pos & i & He & Hi & Hb & Hc).
  assert (Hdisk : read_index (log_read wal) block_from_bytes position_from_bytes (OnDisk pos) = Ok b).
  { unfold read_index. rewrite (log_read_spec _ _ _ _ Hl Hi). destruct i as [tag data]. unfold holds_block in Hb. simpl in *.
    destruct Hb as [[-> Hb]|[-> [d Hb]]]; simpl; [by rewrite Hb|].
    by rewrite Hb. }
  split; [|by rewrite He]. by destruct Hc as [-> | ->].
Qed.
(** A write to the log. *)
Lemma log_state_write w pending own cv l bld t data wal' p :
  log_state w pending own cv l bld → t < 2 ^ 32 → log_write (sw_wal w) t data = Ok (wal', p) →
  log_rel wal' (l ++ [(p, (t, data))]) ∧ (∀ x, x ∈ pending → x.1 < p).
Proof.
  intros Hs Ht Hw. pose proof (log_write_spec _ _ _ _ _ _ Ht (ls_log _ _ _ _ _ _ Hs) Hw) as Hl.
  split; [done|]. intros x Hx. apply (ls_in _ _ _ _ _ _ Hs) in Hx.
  eapply increasing_snoc; [by eapply log_increasing|done].
Qed.

(** The pending queue and its map grow together. *)
Lemma pending_snoc (m : gmap WalPosition RawMetaStatement) pending p x :
  m = list_to_map (raw_entry <$> pending) → (∀ y, y ∈ pending → y.1 < p) →
  <[p := raw_of x]> m = list_to_map (raw_entry <$> (pending ++ [(p, x)])).
Proof.
  intros -> Hp. rewrite fmap_app. change (raw_entry <$> [(p, x)]) with [(p, raw_of x)].
  rewrite list_to_map_snoc; [done|].
  rewrite raw_entry_keys. intros (y & -> & Hy)%list_elem_of_fmap. specialize (Hp y Hy). lia.
Qed.

Lemma in_snoc (l : list wal_item) (pending : list (WalPosition * MetaStatement)) p e x :
  (∀ y, y ∈ pending → y.1 ∈ l.*1) →
  ∀ y, y ∈ pending ++ [(p, x)] → y.1 ∈ (l ++ [(p, e)]).*1.
Proof.
  intros Hin y. rewrite fmap_app, !elem_of_app. intros [Hy|Hy]; [by left; apply Hin|].
  right. apply list_elem_of_singleton in Hy as ->. by left.
Qed.

(** [insert_block]: the block is logged, indexed, and may become pending. *)
Lemma insert_block_logged w pending own cv b w' p :
  logged w pending own cv → StoreWriter_insert_block log_write serialized_bytes w b = Ok (w', p) →
  logged w' (pending ++ [(p, Include (reference b))]) own cv.
Proof.
  intros (l & bld & Hs) Hins. unfold StoreWriter_insert_block in Hins.
  apply bind_ok in Hins as ([wal' p1] & Hw & Hins). apply bind_ok in Hins as (store' & Hadd & Hins).
  injection Hins as <- ->. pose proof (log_state_write _ _ _ _ _ _ WAL_ENTRY_BLOCK _ _ _ Hs eq_refl Hw) as [Hl Hp].
  pose proof (ls_pending _ _ _ _ _ _ Hs) as Hpend.
  exists (l ++ [(p, (WAL_ENTRY_BLOCK, serialized_bytes b))]), (builder_block bld p b).
  split; cbn [sw_wal sw_store].
  - done.
  - rewrite (open_items_snoc _ _ _ _ (ls_open _ _ _ _ _ _ Hs)). cbn [open_step N.eqb WAL_ENTRY_BLOCK].
    rewrite block_round_trip. cbn [expect mbind outcome_bind].
    by rewrite (add_unloaded_all _ _ _ _ Hadd).
  - simpl. by apply (pending_snoc _ pending p (Include (reference b))).
  - apply keys_sorted_snoc; [apply Hs|done].
  - apply in_snoc, Hs.
  - apply Hs.
  - apply Hs.
  - intros r e He. rewrite (add_loaded_index _ _ _ _ _ Hadd) in He. case_decide as Hr.
    + injection He as <-. exists b. split; [|done].
      exists p, (WAL_ENTRY_BLOCK, serialized_bytes b). split_and!; [done| | |by right].
      * apply elem_of_app. right. by left.
      * left. split; [done|]. apply block_round_trip.
    + apply (ls_entries _ _ _ _ _ _ Hs) in He as (b' & He & Hb'). exists b'.
      split; [by apply entry_logged_mono|done].
Qed.
(** A write that leaves the store alone. *)
Lemma log_only w pending own cv l bld t data w' p pending' bld' cv' :
  log_state w pending own cv l bld → t < 2 ^ 32 → writer_log w t data = Ok (w', p) →
  open_step (bld, unload_all (sw_store w)) (p, (t, data)) = Ok (bld', unload_all (sw_store w)) →
  sb_pending bld' = list_to_map (raw_entry <$> pending') → keys_sorted pending' →
  (∀ x, x ∈ pending' → x.1 ∈ (l ++ [(p, (t, data))]).*1) →
  sb_last_own_block bld' = own → commit_view_of bld' = cv' →
  logged w' pending' own cv'.
Proof.
  intros Hs Ht Hw Hstep Hpend Hsort Hin Hown Hcv. unfold writer_log in Hw.
  apply bind_ok in Hw as ([wal' p1] & Hw & Heq). injection Heq as <- ->.
  pose proof (log_state_write _ _ _ _ _ _ t _ _ _ Hs Ht Hw) as [Hl _].
  exists (l ++ [(p, (t, data))]), bld'. split; cbn [sw_wal sw_store]; try done.
  - by rewrite (open_items_snoc _ _ _ _ (ls_open _ _ _ _ _ _ Hs)).
  - intros r e He. apply (ls_entries _ _ _ _ _ _ Hs) in He as (b' & He & Hb'). exists b'.
    split; [by apply entry_logged_mono|done].
Qed.

Lemma in_mono (l : list wal_item) (pending : list (WalPosition * MetaStatement)) i :
  (∀ y, y ∈ pending → y.1 ∈ l.*1) → ∀ y, y ∈ pending → y.1 ∈ (l ++ [i]).*1.
Proof. intros Hin y Hy. rewrite fmap_app, elem_of_app. left. by apply Hin. Qed.

Lemma payload_logged w pending own cv s w' p :
  logged w pending own cv →
  writer_log w WAL_ENTRY_PAYLOAD (statements_bytes s) = Ok (w', p) →
  logged w' (pending ++ [(p, Payload s)]) own cv.
Proof.
  intros (l & bld & Hs) Hw.
  assert (Hp : ∀ y, y ∈ pending → y.1 < p).
  { unfold writer_log in Hw. apply bind_ok in Hw as ([wal' p1] & Hw & Heq). injection Heq as <- ->.
    by apply (log_state_write _ _ _ _ _ _ WAL_ENTRY_PAYLOAD _ _ _ Hs eq_refl Hw). }
  eapply (log_only _ _ _ _ _ _ WAL_ENTRY_PAYLOAD); [exact Hs|done|exact Hw|done|..].
  - simpl. apply (pending_snoc _ pending p (Payload s)); [apply Hs|done].
  - apply keys_sorted_snoc; [apply Hs|done].
  - apply in_snoc, Hs.
  - apply Hs.
  - apply Hs.
Qed.

Lemma state_logged w pending own cv data w' p :
  logged w pending own cv → writer_log w WAL_ENTRY_STATE data = Ok (w', p) →
  logged w' pending own cv.
Proof.
  intros (l & bld & Hs) Hw.
  eapply (log_only _ _ _ _ _ _ WAL_ENTRY_STATE); [exact Hs|done|exact Hw|done|..]; try apply Hs.
  apply in_mono, Hs.
Qed.

(** The commits a restart finds, after one more commit entry. *)
Definition view_commits (cv : commit_view) (commits : list CommitData) (state : list byte) : commit_view :=
  (foldl (λ '(_, committed) d, (Some (leader d), committed ∪ list_to_set (sub_dag d)))
     (cv.1.1, cv.1.2) commits, Some state).

Lemma commits_logged w pending own cv commits state w' p :
  logged w pending own cv →
  writer_log w WAL_ENTRY_COMMIT (commits_bytes (commits, state)) = Ok (w', p) →
  logged w' pending own (view_commits cv commits state).
Proof.
  intros (l & bld & Hs) Hw.
  eapply (log_only _ _ _ _ _ _ WAL_ENTRY_COMMIT _ _ _ _ (builder_commit_data bld commits state));
    [exact Hs|done|exact Hw| |..].
  - cbn. by rewrite commits_round_trip.
  - unfold builder_commit_data. destruct (foldl _ _ _). apply Hs.
  - apply Hs.
  - apply in_mono, Hs.
  - unfold builder_commit_data. destruct (foldl _ _ _). apply Hs.
  - unfold builder_commit_data, view_commits. rewrite <-(ls_commits _ _ _ _ _ _ Hs). simpl.
    by destruct (foldl _ _ _) as [last committed].
Qed.

(** The bytes of an own block decode to it. *)
Lemma own_block_round_trip data : next_entry data ≤ u64_max →
  OwnBlockData_from_bytes block_from_bytes position_from_bytes
    (position_bytes (next_entry data) ++ serialized_bytes (own_block data))
  = Ok (Some (data, own_block data)).
Proof.
  intros Hn. unfold OwnBlockData_from_bytes. pose proof (position_size _ Hn) as Hlen.
  rewrite bool_decide_true by (rewrite length_app; lia). simpl.
  rewrite <-Hlen at 1. rewrite take_app_length, position_round_trip by done. simpl.
  rewrite <-Hlen at 1. rewrite drop_app_length, block_round_trip. by destruct data.
Qed.

(** The positions of the queue are those of entries of the log. *)
Lemma logged_bounds w pending own cv :
  logged w pending own cv → Forall (λ x, x.1 < u64_max) pending.
Proof.
  intros (l & bld & Hs). apply Forall_forall. intros x Hx. apply (ls_in _ _ _ _ _ _ Hs) in Hx.
  destruct (log_increasing _ _ (ls_log _ _ _ _ _ _ Hs)) as [_ Hb]. rewrite Forall_forall in Hb.
  apply list_elem_of_fmap in Hx as (y & -> & Hy). by apply Hb.
Qed.

Lemma next_entry_bound (pending : list (WalPosition * MetaStatement)) i :
  Forall (λ x, x.1 < u64_max) (drop i pending) → next_entry_of (drop i pending) ≤ u64_max.
Proof.
  destruct (drop i pending) as [|[q m] rest]; simpl; [unfold WalPosition_MAX; lia|].
  intros [Hq _]%Forall_cons. simpl in Hq. lia.
Qed.

(** [insert_own_block]: the queue is cut at the first entry that stays pending. *)
Lemma own_block_logged w pending own cv block i w' :
  let data := mkOwnBlockData (next_entry_of (drop i pending)) block in
  logged w pending own cv → writer_insert_own_block w data = Ok w' →
  logged w' (drop i pending) (Some data) cv.
Proof.
  intros data (l & bld & Hs) Hins. unfold writer_insert_own_block, insert_own_block in Hins.
  apply bind_ok in Hins as ([wal' p] & Hw & Hins). apply bind_ok in Hins as (store' & Hadd & Hins).
  injection Hins as <-.
  pose proof (log_state_write _ _ _ _ _ _ WAL_ENTRY_OWN_BLOCK _ _ _ Hs eq_refl Hw) as [Hl Hp].
  pose proof (ls_sorted _ _ _ _ _ _ Hs) as Hsort.
  assert (Hbound : Forall (λ x, x.1 < u64_max) pending) by (eapply logged_bounds; by exists l, bld).
  assert (Hnext : next_entry data ≤ u64_max) by (by apply next_entry_bound, Forall_drop).
  eexists _, (builder_own_block bld data). split; cbn [sw_wal sw_store].
  - exact Hl.
  - rewrite (open_items_snoc _ _ _ _ (ls_open _ _ _ _ _ _ Hs)).
    cbn [open_step N.eqb Pos.eqb WAL_ENTRY_OWN_BLOCK WAL_ENTRY_BLOCK WAL_ENTRY_PAYLOAD].
    rewrite own_block_round_trip by done. cbn [expect mbind outcome_bind].
    by rewrite (add_unloaded_all _ _ _ _ Hadd).
  - cbn [builder_own_block sb_pending]. rewrite (ls_pending _ _ _ _ _ _ Hs).
    rewrite list_to_map_filter_keys by by apply keys_sorted_raw.
    f_equal. rewrite (filter_from_key _ i); [by rewrite <-fmap_drop|by apply keys_sorted_raw|].
    rewrite <-fmap_drop. simpl next_entry. destruct (drop i pending) as [|[q m] rest]; simpl; [|done].
    apply Forall_fmap. exact Hbound.
  - rewrite <-(take_drop i pending) in Hsort. clear -Hsort.
    induction (take i pending) as [|x l' IH]; [done|]. simpl in Hsort.
    apply StronglySorted_inv in Hsort as [Hsort _]. by apply IH.
  - intros x Hx. apply in_mono with (pending := pending); [apply Hs|].
    rewrite <-(take_drop i pending). apply elem_of_app. by right.
  - done.
  - apply Hs.
  - intros r e He. rewrite (add_loaded_index _ _ _ _ _ Hadd) in He. case_decide as Hr.
    + injection He as <-. exists block. split; [|done]. eexists p, _.
      split_and!; [done|apply elem_of_app; right; by left| |by right].
      right. split; [done|]. exists data. by apply own_block_round_trip.
    + apply (ls_entries _ _ _ _ _ _ Hs) in He as (b' & He & Hb'). exists b'.
      split; [by apply entry_logged_mono|done].
Qed.
Lemma entry_logged_unload l e b : entry_logged l e b → entry_logged l (unload_entry e) b.
Proof.
  intros (pos & i & He & Hi & Hb & _). exists pos, i.
  rewrite He. split_and!; [done..|by left].
Qed.

(** Unloading blocks from memory. *)
Lemma unload_logged w pending own cv store :
  logged w pending own cv → unload_all store = unload_all (sw_store w) →
  (∀ r e, inner_get_block store r = Some e →
     ∃ e', inner_get_block (sw_store w) r = Some e' ∧ (e = e' ∨ e = unload_entry e')) →
  logged (mkStoreWriter (sw_wal w) store) pending own cv.
Proof.
  intros (l & bld & [Hl Ho Hp Hso Hi Hw Hc He]) Heq Hget. exists l, bld.
  split; cbn [sw_wal sw_store]; try done; [by rewrite Heq|].
  intros r e Hr. apply Hget in Hr as (e' & Hr & Hcase). apply He in Hr as (b & Hb & Href).
  exists b. split; [|done]. destruct Hcase as [->| ->]; [done|by apply entry_logged_unload].
Qed.

Lemma cleanup_logged w pending own cv t :
  logged w pending own cv → logged (mkStoreWriter (sw_wal w) (cleanup (sw_store w) t)) pending own cv.
Proof.
  intros Hw. apply unload_logged; [done|apply unload_all_cleanup|]. intros r e Hr.
  unfold cleanup in Hr. case_bool_decide; [eauto|]. rewrite inner_get_block_unload in Hr.
  destruct (inner_get_block (sw_store w) r) as [e'|]; simpl in Hr; [|done].
  exists e'. split; [done|]. case_bool_decide; simplify_eq; auto.
Qed.

(** An empty log. *)
Lemma logged_nil (wal : Wal) : log_rel wal [] →
  logged (mkStoreWriter wal (BlockStoreInner_new authority c)) [] None (None, ∅, None).
Proof.
  intros Hl. exists [], RecoveredStateBuilder_new. split; cbn [sw_wal sw_store]; try done.
  - constructor.
  - intros x Hx. by apply elem_of_nil in Hx.
Qed.

Lemma into_meta_raw m : into_meta_statement (raw_of m) = Ok m.
Proof. destruct m; simpl; [done|]. by rewrite statements_round_trip. Qed.

Lemma finish_pending pending :
  mapM_outcome (λ '(pos, raw), m ← into_meta_statement raw; Ok (pos, m)) (raw_entry <$> pending)
  = Ok pending.
Proof.
  induction pending as [|[pos m] pending IH]; [done|].
  change (raw_entry <$> (pos, m) :: pending) with ((pos, raw_of m) :: (raw_entry <$> pending)).
  cbn [mapM_outcome]. rewrite into_meta_raw. cbn [mbind outcome_bind]. by rewrite IH.
Qed.

(** Replaying the log of a core rebuilds its state. *)
Lemma store_open_logged w pending own cv items :
  logged w pending own cv → log_iterate (sw_wal w) = Ok items →
  ∃ rs, store_open authority (sw_wal w) c = Ok rs ∧
    rs_pending rs = pending ∧ rs_last_own_block rs = own ∧
    (rs_last_committed_leader rs, rs_committed_blocks rs, rs_committed_state rs) = cv ∧
    rs_block_store rs = unload_all (sw_store w) ∧
    logged (mkStoreWriter (sw_wal w) (rs_block_store rs)) pending own cv.
Proof.
  intros Hw Hit. pose proof Hw as (l & bld & [Hl Ho Hp Hso Hi Hown Hc He]).
  pose proof (log_iterate_spec _ _ _ Hl Hit) as ->.
  unfold store_open. rewrite Hit. cbn [mbind outcome_bind]. rewrite Ho. cbn [mbind outcome_bind].
  unfold builder_finish. rewrite Hp, btree_entries_list by by apply keys_sorted_raw.
  rewrite finish_pending. cbn [mbind outcome_bind]. eexists. split; [done|]. cbn.
  split_and!; try done. apply unload_logged; [done|apply unload_all_idemp|].
  intros r e. rewrite inner_get_block_unload_all.
  destruct (inner_get_block (sw_store w) r) as [e'|]; simpl; [|done]. intros [= <-]. eauto.
Qed.

(** What the store returns for a reference does not depend on its cache. *)
Lemma logged_get_block w pending own cv w2 pending2 own2 cv2 r :
  logged w pending own cv → logged w2 pending2 own2 cv2 → sw_wal w2 = sw_wal w →
  unload_all (sw_store w2) = unload_all (sw_store w) →
  writer_get_block w2 r = writer_get_block w r.
Proof.
  intros (l & bld & Hs) (l2 & bld2 & Hs2) Hwal Hun. unfold writer_get_block, store_get_block.
  assert (Hget : unload_entry <$> inner_get_block (sw_store w2) r
                 = unload_entry <$> inner_get_block (sw_store w) r).
  { by rewrite <-!inner_get_block_unload_all, Hun. }
  destruct (inner_get_block (sw_store w2) r) as [e2|] eqn:He2,
    (inner_get_block (sw_store w) r) as [e|] eqn:He1; simpl in Hget; try done.
  injection Hget as Hget.
  apply (ls_entries _ _ _ _ _ _ Hs) in He1 as (b & Hb & _).
  apply (ls_entries _ _ _ _ _ _ Hs2) in He2 as (b2 & Hb2 & _).
  destruct (entry_logged_denotes _ _ _ _ (ls_log _ _ _ _ _ _ Hs) Hb) as [-> Hd].
  destruct (entry_logged_denotes _ _ _ _ (ls_log _ _ _ _ _ _ Hs2) Hb2) as [-> Hd2].
  rewrite Hwal, Hget, Hd in Hd2. by injection Hd2 as ->.
Qed.
End Logged.

(** ** The writes of the core *)

Section Events.
Context {Wal : Type} `{WalLaws Wal} `{CodecLaws}.
Context (authority : AuthorityIndex) (c : Committee).

Notation StoreWriter := (StoreWriter (Wal := Wal)).
Notation queue := (list (WalPosition * MetaStatement)).

(** The part of a core that its log determines. *)
Record LogView := mkLogView {
  lv_writer : StoreWriter;
  lv_pending : queue;
  lv_own : option OwnBlockData;
  lv_commits : commit_view;
}.

Definition view_logged (v : LogView) : Prop :=
  logged authority c (lv_writer v) (lv_pending v) (lv_own v) (lv_commits v).

Definition own_round (own : option OwnBlockData) : option RoundNumber :=
  (λ d, block_round (own_block d)) <$> own.

(** One write to the log and the change of the core that goes with it. The process
    may stop after any of them. *)
Inductive log_event : LogView → LogView → Prop :=
| ev_block w w' pending own cv b p :
    StoreWriter_insert_block log_write serialized_bytes w b = Ok (w', p) →
    log_event (mkLogView w pending own cv)
      (mkLogView w' (pending ++ [(p, Include (reference b))]) own cv)
| ev_payload w w' pending own cv s p :
    writer_log w WAL_ENTRY_PAYLOAD (statements_bytes s) = Ok (w', p) →
    log_event (mkLogView w pending own cv) (mkLogView w' (pending ++ [(p, Payload s)]) own cv)
| ev_own w w' pending own cv block i :
    let data := mkOwnBlockData (next_entry_of (drop i pending)) block in
    writer_insert_own_block w data = Ok w' →
    (∀ d, own = Some d → block_round (own_block d) < block_round block) →
    log_event (mkLogView w pending own cv) (mkLogView w' (drop i pending) (Some data) cv)
| ev_state w w' pending own cv data p :
    writer_log w WAL_ENTRY_STATE data = Ok (w', p) →
    log_event (mkLogView w pending own cv) (mkLogView w' pending own cv)
| ev_commits w w' pending own cv commits state p :
    writer_log w WAL_ENTRY_COMMIT (commits_bytes (commits, state)) = Ok (w', p) →
    log_event (mkLogView w pending own cv)
      (mkLogView w' pending own (view_commits cv commits state))
| ev_unload w pending own cv t :
    log_event (mkLogView w pending own cv)
      (mkLogView (mkStoreWriter (sw_wal w) (cleanup (sw_store w) t)) pending own cv).

Lemma event_logged v v' : log_event v v' → view_logged v → view_logged v'.
Proof.
  unfold view_logged. destruct 1; cbn [lv_writer lv_pending lv_own lv_commits]; intros Hv.
  - by eapply insert_block_logged.
  - by eapply payload_logged.
  - by eapply own_block_logged.
  - by eapply state_logged.
  - by eapply commits_logged.
  - by apply cleanup_logged.
Qed.

Lemma events_logged v v' : rtc log_event v v' → view_logged v → view_logged v'.
Proof. induction 1; eauto using event_logged. Qed.

(** The round of the own block never decreases. *)
Lemma events_own v v' d : rtc log_event v v' → lv_own v = Some d →
  ∃ d', lv_own v' = Some d' ∧ block_round (own_block d) ≤ block_round (own_block d').
Proof.
  intros Hev. revert d. induction Hev as [v|v1 v2 v3 Hstep _ IH]; intros d Hd; [exists d; split; [done|lia]|].
  assert (∃ d2, lv_own v2 = Some d2 ∧ block_round (own_block d) ≤ block_round (own_block d2))
    as (d2 & Hd2 & Hle).
  { destruct Hstep as [| |????????? Hlt| | |]; simpl in *; try (exists d; split; [done|lia]).
    eexists. split; [done|]. specialize (Hlt d Hd). simpl. lia. }
  destruct (IH d2 Hd2) as (d3 & Hd3 & Hle3). exists d3. split; [done|lia].
Qed.

(** [BlockManager::add_blocks] writes the blocks it processes, in order. *)
Definition include_entries (out : list (WalPosition * StatementBlock)) : queue :=
  (λ p, (p.1, Include (reference p.2))) <$> out.

Lemma add_blocks_events mgr blocks w pending own cv mgr' w' out :
  add_blocks mgr blocks w = Ok (mgr', w', out) →
  rtc log_event (mkLogView w pending own cv)
    (mkLogView w' (pending ++ include_entries out) own cv).
Proof.
  unfold add_blocks. intros Hadd.
  refine (loop_inv add_blocks_step
    (λ st, let '(_, w1, _, out1) := st in
       rtc log_event (mkLogView w pending own cv)
         (mkLogView w1 (pending ++ include_entries out1) own cv))
    (λ res, let '(_, w1, out1) := res in
       rtc log_event (mkLogView w pending own cv)
         (mkLogView w1 (pending ++ include_entries out1) own cv)) _ _ _ (mgr', w', out) _ Hadd).
  - clear Hadd. intros [[[m1 w1] queue] out1] Hinv. unfold add_blocks_step.
    destruct queue as [|b queue]; [done|].
    destruct (_ || _); [done|].
    destruct (foldM (check_include w1 (reference b)) (m1, true) (includes b)) as [[m2 ok]| |];
      cbn [mbind outcome_bind]; try done.
    destruct (update_missing m2 _ _) as [m3| |]; cbn [mbind outcome_bind]; try done.
    destruct ok; cbn [negb]; [|done].
    destruct (insert_block w1 b) as [[w2 p]| |] eqn:Hins; cbn [mbind outcome_bind]; try done.
    assert (Hev : rtc log_event (mkLogView w pending own cv)
              (mkLogView w2 (pending ++ include_entries (out1 ++ [(p, b)])) own cv)).
    { eapply rtc_r; [exact Hinv|]. unfold include_entries. rewrite fmap_app, app_assoc.
      apply ev_block, Hins. }
    destruct (block_references_waiting m3 !! _) as [waiting|]; [|done].
    destruct (foldM unlock _ _) as [[m4 q4]| |]; cbn [mbind outcome_bind]; done.
  - unfold include_entries. simpl. by rewrite app_nil_r.
Qed.
End Events.
