(* ===== verification/CoreSample.v ===== *)
(** * CoreSample: a small validator for the examples

    Concrete encodings, a block handler that shares one transaction whenever it is
    run, an executor that counts transactions, and the validator 3 of four on the
    log of Wal.v. *)

From S2P Require Import Prelude Bytes Types Committee ThresholdClock Epoch BTree BlockStore.
From S2P Require Import BlockManager Linearizer Consensus BlockAuth Wal WalLog Recovery Core.
From Stdlib Require Import Strings.Byte.

(** ** Encodings *)

#[global] Instance byte_countable : Countable byte.
Proof. refine (inj_countable Byte.to_N Byte.of_N _). apply Byte.of_to_N. Defined.

#[global] Instance Transaction_countable : Countable Transaction.
Proof. refine (inj_countable' tx_data mkTransaction _). by intros []. Defined.

#[global] Instance TransactionLocatorRange_countable : Countable TransactionLocatorRange.
Proof.
  refine (inj_countable' (λ r, (tlr_block r, offset_start_inclusive r, offset_end_exclusive r))
    (λ '(b, s, e), mkLocatorRange b s e) _). by intros [].
Defined.

#[global] Instance Vote_countable : Countable Vote.
Proof.
  refine (inj_countable' (λ v, match v with Accept => inl tt | Reject l => inr l end)
    (λ x, match x with inl _ => Accept | inr l => Reject l end) _). by intros [].
Defined.

#[global] Instance BaseStatement_countable : Countable BaseStatement.
Proof.
  refine (inj_countable'
    (λ s, match s with Share tx => inl tx | VoteStmt l v => inr (inl (l, v)) | VoteRange r => inr (inr r) end)
    (λ x, match x with inl tx => Share tx | inr (inl (l, v)) => VoteStmt l v | inr (inr r) => VoteRange r end)
    _). by intros [].
Defined.

#[global] Instance StatementBlock_countable : Countable StatementBlock.
Proof.
  refine (inj_countable'
    (λ b, (reference b, includes b, statements b, meta_creation_time_ns b, epoch_marker b, signature b))
    (λ '(r, i, s, t, e, g), mkBlock r i s t e g) _). by intros [].
Defined.

#[global] Instance CommitData_eq_dec : EqDecision CommitData.
Proof. solve_decision. Defined.
#[global] Instance CommitData_countable : Countable CommitData.
Proof. refine (inj_countable' (λ d, (leader d, sub_dag d)) (λ '(l, s), mkCommitData l s) _). by intros []. Defined.

(** A byte per bit. *)
Fixpoint pos_bytes (p : positive) : list byte :=
  match p with xH => [] | xO p => x00 :: pos_bytes p | xI p => x01 :: pos_bytes p end.
Fixpoint pos_from_bytes (l : list byte) : positive :=
  match l with [] => xH | x00 :: l => xO (pos_from_bytes l) | _ :: l => xI (pos_from_bytes l) end.

Lemma pos_from_to_bytes p : pos_from_bytes (pos_bytes p) = p.
Proof. induction p as [p IH|p IH|]; simpl; by rewrite ?IH. Qed.

Definition to_bytes {A} `{Countable A} (x : A) : list byte := pos_bytes (countable.encode x).
Definition of_bytes {A} `{Countable A} (l : list byte) : option A := countable.decode (pos_from_bytes l).

Lemma of_to_bytes {A} `{Countable A} (x : A) : of_bytes (to_bytes x) = Some x.
Proof. unfold of_bytes, to_bytes. by rewrite pos_from_to_bytes, decode_encode. Qed.

#[global] Instance sample_codec : Codec := {|
  serialized_bytes := to_bytes; block_from_bytes := of_bytes;
  position_bytes := to_le_bytes 8; position_from_bytes := λ l, Some (from_le_bytes l);
  statements_bytes := to_bytes; statements_from_bytes := of_bytes;
  commits_bytes := to_bytes; commits_from_bytes := of_bytes |}.

#[global] Instance sample_codec_laws : CodecLaws.
Proof.
  split; intros; try apply of_to_bytes.
  - cbn [position_from_bytes position_bytes sample_codec]. f_equal. apply from_to_le_bytes. change (256 ^ N.of_nat 8) with (2 ^ 64).
    unfold u64_max, u64_modulus in *. lia.
  - apply length_to_le_bytes.
Qed.

(** ** The validator *)

#[global] Existing Instance toy_crypto.
#[global] Existing Instance toy_crypto_laws.

#[global] Instance sample_wal_ops : WalOps WalWriter :=
  wal_ops test_map_bits sample_crc sample_os true (λ _, true) 4096.

Lemma sample_os_sane fl n m : sample_os fl n = IoOk m → m ≤ n ∧ fl + m ≤ 2 ^ 63.
Proof.
  unfold sample_os. destruct (N.leb_spec (fl + n) (2 ^ 63)); [|done]. intros [= <-]. lia.
Qed.

#[global] Instance sample_wal_laws : WalLaws WalWriter.
Proof.
  apply (wal_laws test_map_bits sample_crc sample_os true (λ _, true) 4096);
    [done|apply sample_crc_lt|apply sample_os_sane|done|done].
Defined.

(** The handler counts the blocks it has seen. *)
#[global] Instance sample_handler : BlockHandler N := {|
  handle_blocks _ h blocks require_response :=
    Ok (h + N.of_nat (length blocks),
        if (require_response : bool) then [Share (mkTransaction [x2a])] else []);
  handle_proposal h _ := Ok h;
  handler_state h := to_le_bytes 8 h;
  recover_state _ s := Ok (from_le_bytes s);
  handler_cleanup h := h |}.

#[global] Instance sample_executor : PevmExecutor N := {|
  execute n txs := Ok (n + N.of_nat (length txs));
  decode_share_base_statement data := Some (data, 0) |}.

Definition sample_cfg : CoreConfig :=
  mkCoreConfig 3 four_equal true (0 : Signer) 1000
    (ok_or [] (builder_build (UniversalCommitterBuilder_new four_equal))).

Notation sample_core := (Core (Wal := WalWriter) (H := N) (E := N)).
