(* ===== verification/CoreRuns.v ===== *)
(** * CoreRuns: runs of a validator with restarts

    The core as a transition system: its operations, in any order, and restarts
    after any number of writes to the log. *)

From S2P Require Import Prelude Bytes Types Committee ThresholdClock Epoch BTree BlockStore.
From S2P Require Import BlockManager Linearizer Consensus BlockAuth Wal WalLog Recovery Core.
From S2P Require Import CoreRecovery CoreSample.
From Stdlib Require Import Strings.Byte.

Section Runs.
Context {Wal H E : Type} `{WalLaws Wal} `{CodecLaws} `{Crypto} `{BlockHandler H} `{PevmExecutor E}.
Context (cfg : CoreConfig).

Notation Core := (Core (Wal := Wal) (H := H) (E := E)).
Notation event := (log_event (Wal := Wal)).

(** What the log gives back: all but the first [n] entries of the pending queue. *)
Definition core_view (n : nat) (self : Core) (cv : commit_view) : LogView :=
  mkLogView (core_writer self) (drop n (core_pending self)) (Some (core_last_own_block self)) cv.

(** One operation of the core, with the blocks it receives, the block it proposes,
    the number of pending entries that are not in the log, and the commit data it
    leaves in the log. *)
Inductive core_op (n : nat) (self : Core) (cv : commit_view)
    : list StatementBlock → list StatementBlock → nat → Core → commit_view → Prop :=
| op_add_blocks blocks self' out :
    core_add_blocks cfg self blocks = Ok (self', out) → core_op n self cv blocks [] n self' cv
| op_no_block now self' :
    core_try_new_block cfg self now = Ok (self', None) → core_op n self cv [] [] n self' cv
| op_new_block now self' b :
    core_try_new_block cfg self now = Ok (self', Some b) → core_op n self cv [] [b] 0 self' cv
| op_try_commit self' leaders :
    core_try_commit cfg self = Ok (self', leaders) → core_op n self cv [] [] n self' cv
| op_committed committed state now self' data :
    handle_committed_subdag cfg self committed state now = Ok (self', data) →
    core_op n self cv [] [] n self' (view_commits cv data state)
| op_committed_with_pevm committed now self' :
    handle_committed_subdag_with_pevm cfg self committed now = Ok self' →
    core_op n self cv [] [] n self' cv
| op_cleanup : core_op n self cv [] [] n (core_cleanup self) cv
| op_take_recovered self' r :
    take_recovered_committed_blocks self = Ok (self', r) → core_op n self cv [] [] n self' cv.

(** [Core::open] on what [BlockStore::open] recovers from a log, with a new block
    handler and executor. *)
Definition restart (wal : Wal) (h : H) (e : option E) : outcome Core :=
  rs ← store_open (cc_authority cfg) wal (cc_committee cfg);
  core_open cfg h rs wal e.

(** A run from an empty log: operations, and restarts after any further writes;
    the list holds the blocks proposed so far, oldest first. The genesis blocks
    that are pending at the start are not recovered by a restart. *)
Inductive core_run : list StatementBlock → nat → Core → commit_view → Prop :=
| run_start wal h e self :
    log_rel wal [] → restart wal h e = Ok self →
    core_run [] (length (core_pending self)) self (None, ∅, None)
| run_op proposed n self cv received new n' self' cv' :
    core_run proposed n self cv → core_op n self cv received new n' self' cv' →
    core_run (proposed ++ new) n' self' cv'
| run_restart proposed n self cv v h e self' :
    core_run proposed n self cv → rtc event (core_view n self cv) v →
    restart (sw_wal (lv_writer v)) h e = Ok self' → core_run proposed 0 self' (lv_commits v).

(** ** What the operations write *)

Lemma run_block_handler_event (self : Core) processed self' :
  run_block_handler self processed = Ok self' →
  ∃ x, core_pending self' = core_pending self ++ [x] ∧
    core_last_own_block self' = core_last_own_block self ∧
    ∀ pending own cv, event (mkLogView (core_writer self) pending own cv)
      (mkLogView (core_writer self') (pending ++ [x]) own cv).
Proof.
  unfold run_block_handler. intros ([h stmts] & Hh & Hrun)%bind_ok.
  apply bind_ok in Hrun as ([w p] & Hw & Hrun). injection Hrun as <-.
  exists (p, Payload stmts). split_and!; [done|done|]. intros. by apply ev_payload.
Qed.

Lemma note_processed_pending l : ∀ clock pending clock' pending',
  foldM (note_processed cfg) (clock, pending) l = Ok (clock', pending') →
  pending' = pending ++ include_entries l.
Proof.
  induction l as [|x l IH]; intros clock pending clock' pending' Hf; simpl in Hf.
  - injection Hf as <- <-. unfold include_entries. simpl. by rewrite app_nil_r.
  - apply bind_ok in Hf as ([cl1 pd1] & Hx & Hf). apply bind_ok in Hx as (cl2 & Hcl & Hx).
    injection Hx as <- <-. apply IH in Hf as ->. unfold include_entries. simpl. by rewrite <-app_assoc.
Qed.

Lemma core_add_blocks_events (self : Core) blocks self' out n cv :
  core_add_blocks cfg self blocks = Ok (self', out) → (n ≤ length (core_pending self))%nat →
  rtc event (core_view n self cv) (core_view n self' cv) ∧
  core_last_own_block self' = core_last_own_block self ∧
  ∃ l, core_pending self' = core_pending self ++ l.
Proof.
  unfold core_add_blocks. intros ([[mgr w] processed] & Hadd & Hrun)%bind_ok Hn.
  apply bind_ok in Hrun as ([clock pending] & Hnote & Hrun).
  apply bind_ok in Hrun as (self1 & Hhandler & Hrun). injection Hrun as -> _.
  apply note_processed_pending in Hnote as ->.
  apply run_block_handler_event in Hhandler as (x & Hp & Hown & Hev).
  cbn [core_pending core_last_own_block core_writer] in *. split_and!; [|done|].
  - unfold core_view. rewrite Hp, Hown, <-app_assoc, drop_app_le, app_assoc by done.
    eapply rtc_r; [|apply Hev]. by eapply add_blocks_events.
  - eexists. by rewrite Hp, <-app_assoc.
Qed.

(** The entries before the first include of the round or later. *)
Lemma first_include_before r l :
  Forall (λ x, is_include_from r x.2 = false) (take (first_include_index r l) l).
Proof.
  induction l as [|[p m] l IH]; simpl; [constructor|].
  destruct (is_include_from r m) eqn:Hm; simpl; [constructor|]. by constructor.
Qed.

Lemma first_include_ge r l n : (n ≤ length l)%nat →
  Forall (λ x, is_include_from r x.2 = false) (take n l) → (n ≤ first_include_index r l)%nat.
Proof.
  revert n. induction l as [|[p m] l IH]; intros n Hn Hall; simpl in *; [lia|].
  destruct n as [|n]; [lia|]. simpl in Hall. apply Forall_cons in Hall as [Hm Hall].
  simpl in Hm. rewrite Hm. apply IH in Hall; lia.
Qed.

(** The first [n] entries are includes of genesis blocks. *)
Definition genesis_first (n : nat) (l : list (WalPosition * MetaStatement)) : Prop :=
  (n ≤ length l)%nat ∧ Forall (λ x, ∀ r, x.2 = Include r → br_round r = 0) (take n l).

(** The entries that a restart loses come before the cut. *)
Lemma genesis_before n l r : genesis_first n l → ∀ m, m < r → (n ≤ first_include_index r l)%nat.
Proof.
  intros [Hn Hg] m Hm. apply first_include_ge; [done|]. eapply Forall_impl; [exact Hg|].
  intros [p [i|]]; [|done]. cbn. intros Hi. rewrite (Hi i eq_refl). apply bool_decide_eq_false_2. lia.
Qed.

Lemma try_new_block_events (self : Core) now self' b n cv :
  core_try_new_block cfg self now = Ok (self', Some b) → genesis_first n (core_pending self) →
  event (core_view n self cv) (core_view 0 self' cv) ∧ own_block (core_last_own_block self') = b ∧
  author b = cc_authority cfg ∧ last_proposed self < block_round b.
Proof.
  unfold core_try_new_block. case_bool_decide as Hround; [done|].
  intros (refs & _ & Hrun)%bind_ok Hgen. apply bind_ok in Hrun as (first & _ & Hrun).
  apply bind_ok in Hrun as (? & _ & Hrun). apply bind_ok in Hrun as (? & _ & Hrun).
  apply bind_ok in Hrun as (clock & _ & Hrun). apply bind_ok in Hrun as (h & _ & Hrun).
  apply bind_ok in Hrun as (w & Hins & Hrun). apply bind_ok in Hrun as (? & _ & Hrun).
  injection Hrun as <- <-.
  match goal with |- context [new_with_signer ?a ?r ?i ?s ?t ?e ?k] =>
    assert (Hr : block_round (new_with_signer a r i s t e k) = r) by done end.
  split_and!; [|done|done|rewrite Hr; lia].
  set (i := first_include_index _ _) in *.
  assert (Hi : (n ≤ i)%nat).
  { apply (genesis_before _ _ _ Hgen (last_proposed self)). unfold i in *. lia. }
  assert (Hdrop : drop i (core_pending self) = drop (i - n) (drop n (core_pending self))).
  { rewrite drop_drop. f_equal. lia. }
  unfold core_view. cbn [core_writer core_pending core_last_own_block]. rewrite drop_0, Hdrop in *.
  apply ev_own; [done|]. intros d [= <-]. rewrite Hr. unfold last_proposed in Hround. lia.
Qed.

Lemma try_new_block_None (self : Core) now self' : core_try_new_block cfg self now = Ok (self', None) → self' = self.
Proof.
  unfold core_try_new_block. case_bool_decide as Hround; [by intros [= ->]|].
  intros (refs & _ & Hrun)%bind_ok. apply bind_ok in Hrun as (first & _ & Hrun).
  apply bind_ok in Hrun as (? & _ & Hrun). apply bind_ok in Hrun as (? & _ & Hrun).
  apply bind_ok in Hrun as (clock & _ & Hrun). apply bind_ok in Hrun as (h & _ & Hrun).
  apply bind_ok in Hrun as (w & Hins & Hrun). by apply bind_ok in Hrun as (? & _ & Hrun).
Qed.

(** The operations that do not touch the log. *)
Definition same_view (self self' : Core) : Prop :=
  core_writer self' = core_writer self ∧ core_pending self' = core_pending self ∧
  core_last_own_block self' = core_last_own_block self ∧
  core_threshold_clock self' = core_threshold_clock self ∧
  core_block_manager self' = core_block_manager self.

Lemma same_view_eq (self : Core) self' n cv :
  same_view self self' → core_view n self' cv = core_view n self cv.
Proof. unfold core_view. by intros (-> & -> & -> & _). Qed.

Lemma try_commit_view (self : Core) self' leaders :
  core_try_commit cfg self = Ok (self', leaders) → same_view self self'.
Proof.
  unfold core_try_commit. intros (st & _ & Hrun)%bind_ok. apply bind_ok in Hrun as (d & _ & Hrun).
  by injection Hrun as <- _.
Qed.

Lemma take_recovered_view (self : Core) self' r :
  take_recovered_committed_blocks self = Ok (self', r) → same_view self self'.
Proof.
  unfold take_recovered_committed_blocks. intros (st & _ & Hrun)%bind_ok. by injection Hrun as <- _.
Qed.

Lemma observe_commits_view (self : Core) committed now self' :
  observe_commits cfg self committed now = Ok self' → same_view self self'.
Proof. unfold observe_commits. intros (m & _ & Hrun)%bind_ok. by injection Hrun as <-. Qed.

Lemma execute_block_view (self : Core) stmts self' : execute_block_in_pevm self stmts = Ok self' → same_view self self'.
Proof.
  unfold execute_block_in_pevm. intros (txs & _ & Hrun)%bind_ok. case_bool_decide; [|by injection Hrun as <-].
  apply bind_ok in Hrun as (e & _ & Hrun). apply bind_ok in Hrun as (e' & _ & Hrun).
  by injection Hrun as <-.
Qed.

Lemma with_pevm_view (self : Core) committed now self' :
  handle_committed_subdag_with_pevm cfg self committed now = Ok self' → same_view self self'.
Proof.
  unfold handle_committed_subdag_with_pevm. intros Hrun.
  refine (foldM_inv _ (same_view self) _ _ _ _ _ Hrun); [|done].
  intros s b s' _ Hs Hstep. apply bind_ok in Hstep as (m & _ & Hstep).
  apply execute_block_view in Hstep as (Hw & Hp & Ho & Hcl & Hm).
  unfold same_view. by rewrite Hw, Hp, Ho, Hcl, Hm.
Qed.

Lemma handle_committed_events (self : Core) committed state now self' data n cv :
  handle_committed_subdag cfg self committed state now = Ok (self', data) →
  rtc event (core_view n self cv) (core_view n self' (view_commits cv data state)) ∧
  core_pending self' = core_pending self ∧ core_last_own_block self' = core_last_own_block self.
Proof.
  unfold handle_committed_subdag. intros (s1 & Hobs & Hrun)%bind_ok.
  apply bind_ok in Hrun as (s2 & Hst & Hrun). apply bind_ok in Hrun as (s3 & Hco & Hrun).
  injection Hrun as -> <-. apply observe_commits_view in Hobs as Hv.
  pose proof (same_view_eq _ _ n cv Hv) as Heq. destruct Hv as (_ & Hpend & Hown & _).
  unfold write_state in Hst. apply bind_ok in Hst as ([w2 p2] & Hw2 & Hst). injection Hst as <-.
  unfold write_commits in Hco. apply bind_ok in Hco as ([w3 p3] & Hw3 & Hco). injection Hco as <-.
  split; [|done]. rewrite <-Heq.
  eapply rtc_l; [by eapply ev_state|]. apply rtc_once. by eapply ev_commits.
Qed.

(** ** Opening *)

Notation vlogged := (view_logged (cc_authority cfg) (cc_committee cfg)).

Lemma insert_genesis_events l : ∀ (st st' : ThresholdClockAggregator * StoreWriter (Wal := Wal) *
    list (WalPosition * MetaStatement)) cv,
  Forall (λ b, block_round b = 0) l → foldM (insert_genesis cfg) st l = Ok st' →
  rtc event (mkLogView st.1.2 st.2 None cv) (mkLogView st'.1.2 st'.2 None cv) ∧
  ∃ q, st'.2 = st.2 ++ q ∧ Forall (λ x, ∀ r, x.2 = Include r → br_round r = 0) q.
Proof.
  induction l as [|b l IH]; intros [[clock w] pending] st' cv Hgen Hf; simpl in Hf.
  - injection Hf as <-. split; [done|]. exists []. by rewrite app_nil_r.
  - apply Forall_cons in Hgen as [Hb Hgen]. apply bind_ok in Hf as (st1 & Hstep & Hf).
    apply bind_ok in Hstep as (cl1 & _ & Hstep). apply bind_ok in Hstep as ([w1 p] & Hins & Hstep).
    injection Hstep as <-. apply (IH _ _ cv Hgen) in Hf as (Hev & q & Hq & Hqg). cbn [fst snd] in *.
    split.
    + eapply rtc_l; [|exact Hev]. apply ev_block, Hins.
    + exists ((p, Include (reference b)) :: q). rewrite Hq, <-app_assoc. split; [done|].
      constructor; [|done]. by intros r [= <-].
Qed.

Lemma open_genesis_events (w : StoreWriter (Wal := Wal)) clock w' pending own cv :
  open_genesis cfg w [] = Ok (clock, w', pending, own) →
  rtc event (mkLogView w [] None cv) (mkLogView w' [] (Some own) cv) ∧
  Forall (λ x, ∀ r, x.2 = Include r → br_round r = 0) pending ∧ block_round (own_block own) = 0.
Proof.
  unfold open_genesis. intros (? & _ & Hrun)%bind_ok.
  destruct (genesis_blocks (cc_committee cfg) (cc_authority cfg)) as [own_genesis others] eqn:Hg.
  apply bind_ok in Hrun as (? & _ & Hrun). apply bind_ok in Hrun as ([[cl1 w1] pd1] & Hf & Hrun).
  apply bind_ok in Hrun as (cl2 & _ & Hrun). apply bind_ok in Hrun as (w2 & Hins & Hrun).
  injection Hrun as <- <- <- <-. unfold genesis_blocks in Hg. injection Hg as <- <-.
  apply (insert_genesis_events _ _ _ cv) in Hf as (Hev & q & Hq & Hqg).
  2:{ apply Forall_fmap, Forall_forall. done. }
  cbn [fst snd] in *. rewrite app_nil_l in Hq. subst q. split_and!; [|done|done].
  eapply rtc_r; [exact Hev|].
  assert (Hlen : drop (length pd1) pd1 = []) by by apply drop_all.
  rewrite <-Hlen at 1.
  assert (Hnext : next_entry_of (drop (length pd1) pd1) = WalPosition_MAX) by by rewrite Hlen.
  rewrite <-Hnext in Hins |- *. by apply ev_own.
Qed.

(** Reopening the log of a core whose own block is in the log. *)
Lemma restart_logged v d h e (self' : Core) :
  vlogged v → lv_own v = Some d → restart (sw_wal (lv_writer v)) h e = Ok self' →
  vlogged (core_view 0 self' (lv_commits v)) ∧ core_last_own_block self' = d.
Proof.
  intros Hv Hown Hrun. unfold restart in Hrun. apply bind_ok in Hrun as (rs & Hopen & Hrun).
  pose proof Hopen as Hit. unfold store_open in Hit. apply bind_ok in Hit as (items & Hit & _).
  unfold view_logged in Hv. rewrite Hown in Hv.
  destruct (store_open_logged _ _ _ _ _ _ _ Hv Hit) as (rs' & Hrs & Hp & Ho & Hc & Hst & Hl).
  rewrite Hopen in Hrs. injection Hrs as <-. unfold core_open in Hrun. rewrite Ho in Hrun.
  apply bind_ok in Hrun as ([[[clock w] pending] own] & Hclock & Hrun).
  apply bind_ok in Hclock as (cl & _ & Hclock). injection Hclock as <- <- <- <-.
  apply bind_ok in Hrun as (h' & _ & Hrun).
  assert (Hbase : vlogged (mkLogView (mkStoreWriter (sw_wal (lv_writer v)) (rs_block_store rs))
                             (rs_pending rs) (Some d) (lv_commits v))).
  { unfold view_logged. cbn. by rewrite Hp. }
  destruct (rs_unprocessed_blocks rs) as [|b0 bs] eqn:Hun.
  - injection Hrun as <-. by split.
  - apply run_block_handler_event in Hrun as (x & Hpend & Hown' & Hev). split; [|done].
    eapply event_logged; [|exact Hbase]. unfold core_view. rewrite Hpend, Hown', drop_0. apply Hev.
Qed.

Lemma restart_start (wal : Wal) h e (self : Core) :
  log_rel wal [] → restart wal h e = Ok self →
  vlogged (core_view (length (core_pending self)) self (None, ∅, None)) ∧
  genesis_first (length (core_pending self)) (core_pending self) ∧ last_proposed self = 0.
Proof.
  intros Hwal Hrun. unfold restart in Hrun. apply bind_ok in Hrun as (rs & Hopen & Hrun).
  unfold store_open in Hopen. apply bind_ok in Hopen as (items & Hit & Hopen).
  pose proof (log_iterate_spec _ _ _ Hwal Hit) as ->. cbn in Hopen. injection Hopen as <-.
  unfold core_open in Hrun. cbn [rs_last_own_block rs_pending rs_state rs_unprocessed_blocks] in Hrun.
  apply bind_ok in Hrun as ([[[clock w] pending] own] & Hgen & Hrun).
  apply bind_ok in Hrun as (h' & _ & Hrun). injection Hrun as <-. cbn in Hgen.
  apply (open_genesis_events _ _ _ _ _ (None, ∅, None)) in Hgen as (Hev & Hq & Hr).
  cbn [core_pending]. split_and!.
  - unfold core_view. cbn. rewrite drop_all. eapply events_logged; [exact Hev|].
    by apply logged_nil.
  - split; [done|]. by rewrite take_ge.
  - done.
Qed.

(** ** The invariant of runs *)

Record run_inv (proposed : list StatementBlock) (n : nat) (self : Core) (cv : commit_view) : Prop := {
  ri_logged : vlogged (core_view n self cv);
  ri_genesis : genesis_first n (core_pending self);
  ri_lost : n = O ∨ last_proposed self = 0;
  ri_sorted : StronglySorted (λ b1 b2, block_round b1 < block_round b2) proposed;
  ri_below : Forall (λ b, author b = cc_authority cfg ∧ block_round b ≤ last_proposed self) proposed;
}.

Lemma genesis_first_app n l l' : genesis_first n l → genesis_first n (l ++ l').
Proof. intros [Hn Hg]. split; [rewrite length_app; lia|]. by rewrite take_app_le. Qed.

(** An operation that only writes and keeps the own block. *)
Lemma run_inv_writes proposed n (self : Core) cv self' cv' :
  run_inv proposed n self cv → rtc event (core_view n self cv) (core_view n self' cv') →
  genesis_first n (core_pending self') → core_last_own_block self' = core_last_own_block self →
  run_inv proposed n self' cv'.
Proof.
  intros [Hl Hg Hlost Hs Hb] Hev Hg' Hown.
  assert (Hlast : last_proposed self' = last_proposed self) by (unfold last_proposed; by rewrite Hown).
  split; rewrite ?Hlast; try done. by eapply events_logged.
Qed.

Lemma run_inv_same proposed n (self : Core) cv self' :
  run_inv proposed n self cv → same_view self self' → run_inv proposed n self' cv.
Proof.
  intros Hinv Hsame. eapply run_inv_writes; [exact Hinv| | |].
  - by rewrite (same_view_eq _ _ n cv Hsame).
  - destruct Hsame as (_ & -> & _). apply Hinv.
  - apply Hsame.
Qed.

Lemma sorted_rounds_snoc (l : list StatementBlock) b :
  StronglySorted (λ b1 b2, block_round b1 < block_round b2) l →
  Forall (λ x, block_round x < block_round b) l →
  StronglySorted (λ b1 b2, block_round b1 < block_round b2) (l ++ [b]).
Proof.
  induction 1 as [|x l Hl IH Hx]; intros Hb; simpl; [repeat constructor|].
  apply Forall_cons in Hb as [Hxb Hb]. constructor; [by apply IH|].
  apply Forall_app. split; [done|]. by repeat constructor.
Qed.

Lemma core_op_inv proposed n (self : Core) cv received new n' self' cv' :
  run_inv proposed n self cv → core_op n self cv received new n' self' cv' →
  run_inv (proposed ++ new) n' self' cv'.
Proof.
  intros Hinv Hop. destruct Hop as
    [blocks self' out Hrun|now self' Hrun|now self' b Hrun|self' leaders Hrun
    |committed state now self' data Hrun|committed now self' Hrun| |self' r Hrun]; rewrite ?app_nil_r.
  - apply (core_add_blocks_events _ _ _ _ n cv) in Hrun as (Hev & Hown & l & Hp); [|apply Hinv].
    eapply run_inv_writes; [exact Hinv|exact Hev| |done]. rewrite Hp. apply genesis_first_app, Hinv.
  - apply try_new_block_None in Hrun as ->. done.
  - apply (try_new_block_events _ _ _ _ n cv) in Hrun as (Hev & Hown & Hauth & Hlt); [|apply Hinv].
    assert (Hlast : last_proposed self' = block_round b) by (unfold last_proposed; by rewrite Hown).
    destruct Hinv as [Hl Hg Hlost Hs Hb]. split.
    + by eapply event_logged.
    + split; [lia|constructor].
    + by left.
    + apply sorted_rounds_snoc; [done|]. eapply Forall_impl; [exact Hb|]. cbn. intros x [_ ?]. lia.
    + apply Forall_app. split; [|constructor; [split; [done|lia]|constructor]].
      eapply Forall_impl; [exact Hb|]. cbn. intros x [? ?]. split; [done|lia].
  - eapply run_inv_same; [done|by eapply try_commit_view].
  - apply (handle_committed_events _ _ _ _ _ _ n cv) in Hrun as (Hev & Hp & Hown).
    eapply run_inv_writes; [exact Hinv|exact Hev| |done]. rewrite Hp. apply Hinv.
  - eapply run_inv_same; [done|by eapply with_pevm_view].
  - eapply run_inv_writes; [exact Hinv|apply rtc_once, ev_unload|apply Hinv|done].
  - eapply run_inv_same; [done|by eapply take_recovered_view].
Qed.

Lemma core_run_inv proposed n (self : Core) cv : core_run proposed n self cv → run_inv proposed n self cv.
Proof.
  induction 1 as [wal h e self Hwal Hrun|proposed n self cv received new n' self' cv' _ IH Hop
                 |proposed n self cv v h e self' _ [Hl Hg Hlost Hs Hb] Hev Hrun].
  - destruct (restart_start _ _ _ _ Hwal Hrun) as (Hl & Hg & Hr). split; auto using SSorted_nil.
  - by eapply core_op_inv.
  - destruct (events_own _ _ _ Hev eq_refl) as (d & Hd & Hle).
    destruct (restart_logged v d h e self') as [Hl' Hown]; [by eapply events_logged|done|done|].
    split; [done|split; [lia|constructor]|by left|done|].
    eapply Forall_impl; [exact Hb|]. cbn. intros x [? Hx]. split; [done|].
    unfold last_proposed in *. rewrite Hown. cbn in Hle. lia.
Qed.
End Runs.

(** ** A run of the sample validator *)

Definition closed_core : sample_core :=
  mkCore (BlockManager_new four_equal) [] (mkOwnBlockData 0 sample_block) 0
    (ThresholdClockAggregator_new 0) (mkRef 0 0 0)
    (mkStoreWriter (mkWalWriter [] 0) (BlockStoreInner_new 3 four_equal)) None EpochManager_new None 0.

(** Open on an empty log, propose, receive the blocks of round 1, propose again,
    and restart. *)
Definition run_core0 : sample_core := ok_or closed_core (restart sample_cfg (mkWalWriter [] 0) 0 None).
Definition run_block1 : sample_core * option StatementBlock :=
  ok_or (closed_core, None) (core_try_new_block sample_cfg run_core0 7).
Definition run_round1 : list StatementBlock :=
  (λ a, new_with_signer a 1 [mkRef a 0 a; mkRef 0 0 0; mkRef 1 0 1; mkRef 2 0 2] [] 5 false (0 : Signer))
    <$> [0; 1; 2].
Definition run_core2 : sample_core * list StatementBlock :=
  ok_or (closed_core, []) (core_add_blocks sample_cfg run_block1.1 run_round1).
Definition run_block2 : sample_core * option StatementBlock :=
  ok_or (closed_core, None) (core_try_new_block sample_cfg run_core2.1 9).
Definition run_core4 : sample_core :=
  ok_or closed_core (restart sample_cfg (sw_wal (core_writer run_block2.1)) 0 None).

Lemma ok_or_eq {A} (d : A) m : (match m with Ok _ => true | _ => false end) = true → m = Ok (ok_or d m).
Proof. by destruct m. Qed.

Lemma sample_log_nil : log_rel (mkWalWriter [] 0) [].
Proof. exists []. split; [apply wal_rel_nil|done]. Qed.

Definition run_proposed : list StatementBlock :=
  [default sample_block run_block1.2; default sample_block run_block2.2].

Lemma run_core0_eq : restart sample_cfg (mkWalWriter [] 0) 0 None = Ok run_core0.
Proof. apply ok_or_eq. vm_compute. reflexivity. Qed.

Lemma run_block1_eq :
  core_try_new_block sample_cfg run_core0 7 = Ok (run_block1.1, Some (default sample_block run_block1.2)).
Proof. vm_compute. reflexivity. Qed.

Lemma run_core2_eq : core_add_blocks sample_cfg run_block1.1 run_round1 = Ok (run_core2.1, run_core2.2).
Proof. vm_compute. reflexivity. Qed.

Lemma run_block2_eq :
  core_try_new_block sample_cfg run_core2.1 9 = Ok (run_block2.1, Some (default sample_block run_block2.2)).
Proof. vm_compute. reflexivity. Qed.

Lemma run_core4_eq : restart sample_cfg (sw_wal (core_writer run_block2.1)) 0 None = Ok run_core4.
Proof. apply ok_or_eq. vm_compute. reflexivity. Qed.

Lemma sample_core_run : core_run sample_cfg run_proposed 0 run_core4 (None, ∅, None).
Proof.
  pose proof (run_start sample_cfg _ _ _ _ sample_log_nil run_core0_eq) as R0.
  pose proof (run_op sample_cfg _ _ _ _ _ _ _ _ _ R0 (op_new_block _ _ _ _ _ _ _ run_block1_eq)) as R1.
  pose proof (run_op sample_cfg _ _ _ _ _ _ _ _ _ R1 (op_add_blocks _ _ _ _ _ _ _ run_core2_eq)) as R2.
  pose proof (run_op sample_cfg _ _ _ _ _ _ _ _ _ R2 (op_new_block _ _ _ _ _ _ _ run_block2_eq)) as R3.
  exact (run_restart sample_cfg _ _ _ _ _ _ _ _ R3 (rtc_refl _ _) run_core4_eq).
Qed.

(** C6: A validator never equivocates: in every run of the core from an empty log,
    with its operations in any order and with restarts from the log after any
    number of writes, the blocks it proposes have strictly increasing rounds and
    carry its own index; no two of them are for one round. *)
Theorem core_never_equivocates {Wal H E} `{WalLaws Wal} `{CodecLaws} `{Crypto} `{BlockHandler H}
    `{PevmExecutor E} cfg proposed n (self : Core (Wal := Wal) (H := H) (E := E)) cv :
  core_run cfg proposed n self cv →
  StronglySorted (λ b1 b2, block_round b1 < block_round b2) proposed ∧
  Forall (λ b, author b = cc_authority cfg ∧ block_round b ≤ last_proposed self) proposed.
Proof. intros Hrun. by destruct (core_run_inv cfg _ _ _ _ Hrun). Qed.

Lemma core_never_equivocates_witness :
  StronglySorted (λ b1 b2, block_round b1 < block_round b2) run_proposed ∧
  Forall (λ b, author b = 3 ∧ block_round b ≤ last_proposed run_core4) run_proposed.
Proof. exact (core_never_equivocates sample_cfg run_proposed 0 run_core4 (None, ∅, None) sample_core_run). Defined.

(** C9: Crash recovery is exact: whenever a run of the core stands at some state and
    its log can be iterated over, [BlockStore::open] on the log succeeds and returns
    the core's own block, the commits it has logged, a store from which every block
    is read as from the running one, and its pending queue; only before the first
    proposal the [n] pending genesis blocks are missing from the queue. *)
Theorem core_recovery_exact {Wal H E} `{WalLaws Wal} `{CodecLaws} `{Crypto} `{BlockHandler H}
    `{PevmExecutor E} cfg proposed n (self : Core (Wal := Wal) (H := H) (E := E)) cv items :
  core_run cfg proposed n self cv → log_iterate (sw_wal (core_writer self)) = Ok items →
  ∃ rs, store_open (cc_authority cfg) (sw_wal (core_writer self)) (cc_committee cfg) = Ok rs ∧
    rs_last_own_block rs = Some (core_last_own_block self) ∧
    rs_pending rs = drop n (core_pending self) ∧ (n = O ∨ last_proposed self = 0) ∧
    (rs_last_committed_leader rs, rs_committed_blocks rs, rs_committed_state rs) = cv ∧
    ∀ r, writer_get_block (mkStoreWriter (sw_wal (core_writer self)) (rs_block_store rs)) r
         = writer_get_block (core_writer self) r.
Proof.
  intros Hrun Hit. destruct (core_run_inv cfg _ _ _ _ Hrun) as [Hl _ Hlost _ _].
  unfold view_logged in Hl. cbn in Hl.
  destruct (store_open_logged _ _ _ _ _ _ _ Hl Hit) as (rs & Hrs & Hp & Ho & Hc & Hst & Hl').
  exists rs. split_and!; try done. intros r. eapply logged_get_block; [exact Hl|exact Hl'|done|].
  cbn. by rewrite Hst, unload_all_idemp.
Qed.

Lemma run_items_eq : log_iterate (sw_wal (core_writer run_core4)) =
  Ok (ok_or [] (log_iterate (sw_wal (core_writer run_core4)))).
Proof. apply ok_or_eq. vm_compute. reflexivity. Qed.

Lemma core_recovery_exact_witness :
  ∃ rs, store_open 3 (sw_wal (core_writer run_core4)) four_equal = Ok rs ∧
    rs_last_own_block rs = Some (core_last_own_block run_core4) ∧
    rs_pending rs = core_pending run_core4 ∧ (0%nat = O ∨ last_proposed run_core4 = 0) ∧
    (rs_last_committed_leader rs, rs_committed_blocks rs, rs_committed_state rs) = (None, ∅, None) ∧
    ∀ r, writer_get_block (mkStoreWriter (sw_wal (core_writer run_core4)) (rs_block_store rs)) r
         = writer_get_block (core_writer run_core4) r.
Proof.
  exact (core_recovery_exact sample_cfg run_proposed 0 run_core4 (None, ∅, None)
           (ok_or [] (log_iterate (sw_wal (core_writer run_core4)))) sample_core_run run_items_eq).
Defined.

(** ** Where recovery falls short *)

(** A restart before the first proposal forgets the pending genesis blocks: the own
    genesis block is logged with [WalPosition::MAX] as its next entry. The validator
    that then sees a block of round 1 proposes a block without a quorum of round 0,
    which [verify] rejects. *)
Definition genesis_restart : sample_core :=
  ok_or closed_core (restart sample_cfg (sw_wal (core_writer run_core0)) 0 None).
Definition genesis_restart_proposal : option StatementBlock :=
  (ok_or (closed_core, None)
     (core_try_new_block sample_cfg
        (ok_or (closed_core, []) (core_add_blocks sample_cfg genesis_restart (take 1 run_round1))).1 7)).2.

Lemma genesis_restart_invalid :
  length (core_pending run_core0) = 3%nat ∧ core_pending (E := N) genesis_restart = [(648, Payload [Share (mkTransaction [x2a])])] ∧
  (b ← genesis_restart_proposal; Some (verify b four_equal)) = Some (Ok false).
Proof. vm_compute. auto. Qed.

(** A restarted clock counts the pending includes but not the own block: with the
    own block and two more of the four of round 1 the running core has reached
    round 2 and can propose, the restarted one has not. *)
Definition two_more : sample_core :=
  (ok_or (closed_core, []) (core_add_blocks sample_cfg run_block1.1 (take 2 run_round1))).1.
Definition two_more_restart : sample_core :=
  ok_or closed_core (restart sample_cfg (sw_wal (core_writer two_more)) 0 None).

Lemma restarted_clock_behind :
  clock_get_round (core_threshold_clock two_more) = 2 ∧
  clock_get_round (core_threshold_clock two_more_restart) = 1 ∧
  last_proposed two_more_restart = 1.
Proof. vm_compute. auto. Qed.
