(* ===== verification/CoreProposals.v ===== *)
(** * CoreProposals: an honest validator proposes valid blocks

    [prop_inv] relates the blocks in the store, the pending queue, the last own
    block and the threshold clock of a core that receives verified blocks. It
    implies that the block built by [try_new_block] passes [verify] everywhere:
    dropping references that other includes already carry, and cutting the queue at
    the first block of the new round, keep a quorum of the previous round. *)

From S2P Require Import Prelude Bytes Types Committee ThresholdClock Epoch BTree BlockStore.
From S2P Require Import BlockManager Linearizer Consensus BlockAuth Wal WalLog Recovery Core.
From S2P Require Import CoreRecovery CoreSample CoreRuns.
From Stdlib Require Import Strings.Byte.

(** ** The queue *)

Lemma first_include_at r l :
  first_include_index r l = length l ∨
  ∃ p r0, l !! first_include_index r l = Some (p, Include r0) ∧ r ≤ br_round r0.
Proof.
  induction l as [|[p m] l IH]; simpl; [by left|].
  destruct (is_include_from r m) eqn:Hm.
  - right. destruct m as [r0|]; [|done]. exists p, r0. split; [done|].
    by apply bool_decide_eq_true in Hm.
  - destruct IH as [-> |IH]; [by left|by right].
Qed.

Lemma first_include_lt r l k p r0 : l !! k = Some (p, Include r0) →
  (k < first_include_index r l)%nat → br_round r0 < r.
Proof.
  intros Hk Hlt. pose proof (first_include_before r l) as Hall. rewrite Forall_lookup in Hall.
  specialize (Hall k (p, Include r0)). rewrite lookup_take_lt in Hall by done.
  specialize (Hall Hk). cbn in Hall. apply bool_decide_eq_false in Hall. lia.
Qed.

Lemma first_include_keeps r l k p r0 : l !! k = Some (p, Include r0) → r ≤ br_round r0 →
  ∃ k', (k' + first_include_index r l)%nat = k ∧ drop (first_include_index r l) l !! k' = Some (p, Include r0).
Proof.
  intros Hk Hr. destruct (decide (k < first_include_index r l)%nat) as [Hlt|Hge].
  { apply (first_include_lt r) in Hk; [lia|done]. }
  exists (k - first_include_index r l)%nat. split; [lia|]. rewrite lookup_drop.
  replace (first_include_index r l + (k - first_include_index r l))%nat with k by lia. done.
Qed.

Lemma max_round_attained l : 0 < max_round 0 l → ∃ b, b ∈ l ∧ br_round b = max_round 0 l.
Proof.
  induction l as [|b l IH] using rev_ind; [done|]. rewrite max_round_snoc. intros Hpos.
  destruct (N.max_spec (max_round 0 l) (br_round b)) as [[_ Hm]|[Hle Hm]]; rewrite Hm in *.
  - exists b. split; [|done]. apply elem_of_app. right. by left.
  - destruct (IH Hpos) as (b' & Hb' & Hr). exists b'. split; [|done]. apply elem_of_app. by left.
Qed.

Lemma authors_at_subseteq r l1 l2 :
  (∀ i, i ∈ l1 → br_round i = r → i ∈ l2) → authors_at r l1 ⊆ authors_at r l2.
Proof. intros Hsub a. rewrite !elem_of_authors_at. naive_solver. Qed.

Lemma quorum_subseteq c r l1 l2 :
  is_quorum c (set_stake c (authors_at r l1)) = true →
  (∀ i, i ∈ l1 → br_round i = r → i ∈ l2) → is_quorum c (set_stake c (authors_at r l2)) = true.
Proof.
  intros Hq Hsub. eapply quorum_mono; [exact Hq|]. by apply set_stake_subseteq, authors_at_subseteq.
Qed.

Lemma quorum_member c r l : is_quorum c (set_stake c (authors_at r l)) = true →
  ∃ i, i ∈ l ∧ br_round i = r.
Proof.
  intros Hq. destruct (decide (authors_at r l = ∅)) as [He|Hne].
  - rewrite He, is_quorum_empty in Hq. done.
  - apply set_choose_L in Hne as [a Ha]. apply elem_of_authors_at in Ha as (i & Hi & Hr & _). eauto.
Qed.

(** The references of a queue. *)
Definition queue_includes (l : list (WalPosition * MetaStatement)) : list BlockReference :=
  omap (λ x, match x.2 with Include r => Some r | Payload _ => None end) l.

Lemma elem_of_queue_includes l r : r ∈ queue_includes l ↔ ∃ k p, l !! k = Some (p, Include r).
Proof.
  unfold queue_includes. rewrite list_elem_of_omap. split.
  - intros ([p [r'|s]] & Hin & Heq); [|done]. injection Heq as ->.
    apply list_elem_of_lookup in Hin as [k Hk]. eauto.
  - intros (k & p & Hk). exists (p, Include r). split; [|done]. by eapply list_elem_of_lookup_2.
Qed.

(** ** The invariant *)

Section Invariant.
Context `{Crypto} (c : Committee) (Hc : wf_committee c) (Hnd : no_dictator c).

(** A genesis block or a block that passed [verify]. *)
Definition ok_stored (b : StatementBlock) : Prop :=
  author b < committee_len c ∧ block_round b < u64_max ∧
  (b = new_genesis (author b) ∨ well_formed_block c b ∧ verify b c = Ok true).

(** The references of the genesis blocks. *)
Definition genesis_ref (r : BlockReference) : Prop :=
  ∃ a, a < committee_len c ∧ r = reference (new_genesis a).

Record prop_inv (d : dag) (pending : list (WalPosition * MetaStatement)) (own : StatementBlock)
    (clock : ThresholdClockAggregator) : Prop := {
  pi_valid : ∀ r b, d !! r = Some b → reference b = r ∧ ok_stored b;
  pi_own : d !! reference own = Some own;
  pi_pending : ∀ k p r, pending !! k = Some (p, Include r) → is_Some (d !! r);
  (* what is at least as recent as the own block is the own block or pending *)
  pi_kept : ∀ r, is_Some (d !! r) → block_round own ≤ br_round r →
    r = reference own ∨ ∃ k p, pending !! k = Some (p, Include r);
  (* a pending block comes after its pending parents *)
  pi_order : ∀ k p r b i, pending !! k = Some (p, Include r) → d !! r = Some b →
    block_round own < br_round r → i ∈ includes b → block_round own ≤ br_round i →
    i = reference own ∨ ∃ k' p', (k' < k)%nat ∧ pending !! k' = Some (p', Include i);
  pi_clock : ∃ fed, clock_inv c 0 fed clock ∧ ∀ r, r ∈ fed → is_Some (d !! r);
  pi_statements : ∀ k p s, pending !! k = Some (p, Payload s) →
    Forall (λ x, verify_statement x = true) s;
  pi_genesis : ∀ r, genesis_ref r → is_Some (d !! r);
}.

Lemma ok_stored_includes b i : ok_stored b → i ∈ includes b → br_round i < block_round b.
Proof.
  intros (_ & _ & [->|[Hwf _]]) Hi; [by apply elem_of_nil in Hi|].
  pose proof (wb_includes _ _ Hwf) as Hall. rewrite Forall_forall in Hall. by apply Hall.
Qed.

(** Receiving a verified block whose parents are stored. *)
Lemma prop_inv_include d pending own clock p b :
  prop_inv d pending own clock → d !! reference b = None → ok_stored b →
  (∀ i, i ∈ includes b → is_Some (d !! i)) →
  prop_inv (<[reference b := b]> d) (pending ++ [(p, Include (reference b))]) own clock.
Proof.
  intros [Hv Ho Hp Hk Hord (fed & Hcl & Hfed) Hst Hge] Hnew Hok Hpar.
  assert (Hmono : ∀ r, is_Some (d !! r) → is_Some (<[reference b := b]> d !! r)).
  { intros r Hr. destruct (decide (reference b = r)) as [->|]; [rewrite lookup_insert_eq; eauto|].
    by rewrite lookup_insert_ne. }
  assert (Hold : ∀ k q r, (pending ++ [(p, Include (reference b))]) !! k = Some (q, Include r) →
            pending !! k = Some (q, Include r) ∨ k = length pending ∧ r = reference b).
  { intros k q r. rewrite lookup_app. destruct (pending !! k) as [x|] eqn:Hx; [by left|].
    intros Hs. right. apply lookup_ge_None in Hx. destruct (k - length pending)%nat as [|m] eqn:Hm;
      simpl in Hs; [|done]. injection Hs as _ ->. split; [lia|done]. }
  split.
  - intros r b'. rewrite lookup_insert_Some. intros [[<- <-]|[_ Hr]]; [done|by apply Hv].
  - rewrite lookup_insert_ne; [done|]. intros Heq. rewrite <-Heq in Ho. congruence.
  - intros k q r Hq. apply Hold in Hq as [Hq|[_ ->]]; [by apply Hmono; eapply Hp|].
    rewrite lookup_insert_eq. eauto.
  - intros r Hr Hle. destruct (decide (r = reference b)) as [->|Hne].
    + right. exists (length pending), p. by rewrite list_lookup_middle.
    + rewrite lookup_insert_ne in Hr by done. destruct (Hk r Hr Hle) as [|(k & q & Hq)]; [by left|].
      right. exists k, q. by apply lookup_app_l_Some.
  - intros k q r b' i Hq Hb' Hlt Hi Hle. apply Hold in Hq as [Hq|[-> ->]].
    + assert (r ≠ reference b) as Hne.
      { intros ->. apply Hp in Hq as [x Hx]. congruence. }
      rewrite lookup_insert_ne in Hb' by done.
      destruct (Hord _ _ _ _ _ Hq Hb' Hlt Hi Hle) as [|(k' & p' & Hk' & Hp')]; [by left|].
      right. exists k', p'. split; [done|]. by apply lookup_app_l_Some.
    + rewrite lookup_insert_eq in Hb'. injection Hb' as <-.
      destruct (Hk i (Hpar i Hi) Hle) as [|(k' & p' & Hp')]; [by left|]. right. exists k', p'.
      split; [by eapply lookup_lt_Some|by apply lookup_app_l_Some].
  - exists fed. split; [done|]. intros r Hr. by apply Hmono, Hfed.
  - intros k q s Hs. rewrite lookup_app in Hs. destruct (pending !! k) as [x|] eqn:Hx.
    + injection Hs as ->. by eapply Hst.
    + destruct (k - length pending)%nat; simpl in Hs; done.
  - intros r Hr. by apply Hmono, Hge.
Qed.

Lemma prop_inv_payload d pending own clock p s :
  prop_inv d pending own clock → Forall (λ x, verify_statement x = true) s →
  prop_inv d (pending ++ [(p, Payload s)]) own clock.
Proof.
  intros [Hv Ho Hp Hk Hord Hcl Hst Hge] Hs.
  assert (Hold : ∀ k q r, (pending ++ [(p, Payload s)]) !! k = Some (q, Include r) →
            pending !! k = Some (q, Include r)).
  { intros k q r. rewrite lookup_app. destruct (pending !! k) as [x|] eqn:Hx; [done|].
    destruct (k - length pending)%nat; done. }
  split; try done.
  - intros k q r Hq%Hold. by eapply Hp.
  - intros r Hr Hle. destruct (Hk r Hr Hle) as [|(k & q & Hq)]; [by left|].
    right. exists k, q. by apply lookup_app_l_Some.
  - intros k q r b i Hq%Hold Hb Hlt Hi Hle.
    destruct (Hord _ _ _ _ _ Hq Hb Hlt Hi Hle) as [|(k' & p' & Hk' & Hp')]; [by left|].
    right. exists k', p'. split; [done|]. by apply lookup_app_l_Some.
  - intros k q s' Hq. rewrite lookup_app in Hq. destruct (pending !! k) as [x|] eqn:Hx.
    + injection Hq as ->. by eapply Hst.
    + destruct (k - length pending)%nat; simpl in Hq; [by injection Hq as _ <-|done].
Qed.

Lemma prop_inv_clock d pending own clock r clock' :
  prop_inv d pending own clock → is_Some (d !! r) → clock_add_block clock r c = Ok clock' →
  prop_inv d pending own clock'.
Proof using Hc Hnd.
  intros [Hv Ho Hp Hk Hord (fed & Hcl & Hfed) Hst Hge] [b Hr] Hadd. split; try done.
  exists (fed ++ [r]). destruct (Hv _ _ Hr) as [<- (Ha & Hround & _)].
  destruct (clock_inv_step c 0 fed clock (reference b) Hc Hnd Hcl Ha Hround) as (cl & Hcl' & Hinv).
  rewrite Hadd in Hcl'. injection Hcl' as <-. split; [done|].
  intros x [Hx|Hx]%elem_of_app; [by apply Hfed|]. apply list_elem_of_singleton in Hx as ->. eauto.
Qed.

(** The quorum of the previous round in the part of the queue that is taken. *)
Lemma taken_quorum d pending own clock :
  prop_inv d pending own clock → block_round own < clock_round clock →
  let taken := take (first_include_index (clock_round clock) pending) pending in
  is_quorum c (set_stake c (authors_at (clock_round clock - 1)
    (reference own :: queue_includes taken))) = true.
Proof.
  intros [Hv Ho Hp Hk Hord (fed & [Hcl _] & Hfed) Hst _] Hlt taken.
  set (r := clock_round clock) in *. set (idx := first_include_index r pending) in *.
  destruct (first_include_at r pending) as [Hall|(p0 & r0 & H0 & Hge)];
    [fold idx in Hall|fold idx in H0].
  - (* the whole queue is taken *)
    assert (Htake : taken = pending) by (unfold taken; rewrite Hall; by apply take_ge).
    assert (Hsmall : ∀ k p i, pending !! k = Some (p, Include i) → br_round i < r).
    { intros k p i Hki. eapply first_include_lt; [exact Hki|]. fold idx. rewrite Hall.
      by eapply lookup_lt_Some. }
    assert (Hfrom : ∀ i, i ∈ fed → block_round own ≤ br_round i → br_round i < r ∧ i ∈ reference own :: queue_includes taken).
    { intros i Hi Hle. destruct (Hk i (Hfed i Hi) Hle) as [->|(k & p & Hki)].
      - split; [by fold (block_round own)|by left].
      - split; [by eapply Hsmall|]. right. rewrite Htake. apply elem_of_queue_includes. eauto. }
    unfold clock_spec in Hcl. destruct (is_quorum c _) eqn:Hq.
    + rewrite Hcl, N.add_sub. eapply quorum_subseteq; [exact Hq|]. intros i Hi Hri.
      apply Hfrom; [done|lia].
    + destruct (max_round_attained fed) as (i & Hi & Hri); [lia|].
      destruct (Hfrom i Hi) as [Hbad _]; lia.
  - (* the queue is cut at a block of the new round *)
    destruct (Hp _ _ _ H0) as [b Hb]. destruct (Hv _ _ Hb) as [Href (_ & _ & Hcase)].
    destruct Hcase as [Hz|[Hwf _]]; [rewrite Hz in Href; rewrite <-Href in Hge; cbn in Hge; unfold GENESIS_ROUND in Hge; lia|].
    pose proof (wb_quorum _ _ Hwf) as Hq.
    assert (Hround : block_round b = br_round r0) by (unfold block_round; by rewrite Href).
    assert (Htaken : ∀ i, i ∈ includes b → block_round own ≤ br_round i →
              i ∈ reference own :: queue_includes taken ∧ br_round i < r).
    { intros i Hi Hle. destruct (Hord _ _ _ _ _ H0 Hb ltac:(lia) Hi Hle) as [->|(k' & p' & Hk' & Hp')].
      - split; [by left|by fold (block_round own)].
      - split; [|by eapply first_include_lt]. right. apply elem_of_queue_includes. exists k', p'.
        unfold taken. by rewrite lookup_take_lt. }
    assert (br_round r0 = r) as Hr0.
    { destruct (decide (br_round r0 = r)) as [|Hne]; [done|].
      destruct (quorum_member _ _ _ Hq) as (i & Hi & Hri). destruct (Htaken i Hi); lia. }
    rewrite Hround, Hr0 in Hq. eapply quorum_subseteq; [exact Hq|]. intros i Hi Hri.
    apply Htaken; [done|lia].
Qed.
(** The includes of the new block: the own block, and the taken references that no
    taken block and not the own block carries. *)
Definition proposal_includes (own : StatementBlock) (refs : gset BlockReference)
    (taken : list (WalPosition * MetaStatement)) : list BlockReference :=
  reference own :: flat_map (λ p, select_include refs p.2) taken.

Lemma elem_of_selected refs taken i :
  i ∈ flat_map (λ p, select_include refs p.2) taken ↔ i ∈ queue_includes taken ∧ i ∉ refs.
Proof.
  rewrite list_elem_of_In, in_flat_map. split.
  - intros ([p [r|s]] & Hin & Hsel); simpl in Hsel; [|done].
    case_bool_decide as Hr; [done|]. destruct Hsel as [<-|[]]. split; [|done].
    apply list_elem_of_In, list_elem_of_lookup in Hin as [k Hk]. apply elem_of_queue_includes. eauto.
  - intros [(k & p & Hk)%elem_of_queue_includes Hr]. exists (p, Include i).
    split; [apply list_elem_of_In; by eapply list_elem_of_lookup_2|]. simpl.
    rewrite bool_decide_false by done. by left.
Qed.

(** Every reference left out is older than the previous round. *)
Definition refs_older (round : RoundNumber) (refs : gset BlockReference) : Prop :=
  ∀ i, i ∈ refs → br_round i < round - 1.

Lemma proposal_quorum d pending own clock refs :
  prop_inv d pending own clock → block_round own < clock_round clock →
  refs_older (clock_round clock) refs →
  is_quorum c (set_stake c (authors_at (clock_round clock - 1)
    (proposal_includes own refs
       (take (first_include_index (clock_round clock) pending) pending)))) = true.
Proof.
  intros Hinv Hlt Hrefs. eapply quorum_subseteq; [by eapply taken_quorum|].
  intros i [->|Hi]%elem_of_cons Hr; [by left|]. right. apply elem_of_selected. split; [done|].
  intros Hin. apply Hrefs in Hin. lia.
Qed.

Lemma proposal_includes_ok d pending own clock refs :
  prop_inv d pending own clock → block_round own < clock_round clock →
  Forall (λ i, br_authority i < committee_len c ∧ br_round i < clock_round clock)
    (proposal_includes own refs (take (first_include_index (clock_round clock) pending) pending)).
Proof.
  intros Hinv Hlt. apply Forall_forall. intros i [->|Hi]%elem_of_cons.
  - destruct (pi_valid _ _ _ _ Hinv _ _ (pi_own _ _ _ _ Hinv)) as [_ (Ha & _)]. split; [done|].
    by fold (block_round own).
  - apply elem_of_selected in Hi as [(k & p & Hk)%elem_of_queue_includes _].
    apply lookup_take_Some in Hk as [Hk Hidx]. split; [|by eapply first_include_lt].
    destruct (pi_pending _ _ _ _ Hinv _ _ _ Hk) as [b Hb].
    destruct (pi_valid _ _ _ _ Hinv _ _ Hb) as [<- (Ha & _)]. done.
Qed.

Lemma taken_statements_ok d pending own clock epoch n :
  prop_inv d pending own clock →
  Forall (λ s, verify_statement s = true)
    (flat_map (λ p, select_statements epoch p.2) (take n pending)).
Proof.
  intros Hinv. apply Forall_forall. intros s Hs.
  apply list_elem_of_In, in_flat_map in Hs as ([p [r|stmts]] & Hin & Hsel); [done|].
  apply list_elem_of_In, list_elem_of_lookup in Hin as [k Hk].
  apply lookup_take_Some in Hk as [Hk _]. pose proof (pi_statements _ _ _ _ Hinv _ _ _ Hk) as Hall.
  simpl in Hsel. destruct epoch; [done|]. rewrite Forall_forall in Hall. apply Hall.
  by apply list_elem_of_In.
Qed.

(** After a proposal of the clock's round. *)
Lemma prop_inv_propose d pending own clock b :
  prop_inv d pending own clock → block_round own < clock_round clock →
  block_round b = clock_round clock → ok_stored b →
  prop_inv (<[reference b := b]> d) (drop (first_include_index (clock_round clock) pending) pending)
    b clock.
Proof.
  intros [Hv Ho Hp Hk Hord (fed & Hcl & Hfed) Hst Hge] Hlt Hr Hok.
  set (idx := first_include_index (clock_round clock) pending).
  assert (Hrb : br_round (reference b) = clock_round clock) by done.
  assert (Hro : br_round (reference own) = block_round own) by done.
  assert (Hmono : ∀ r, is_Some (d !! r) → is_Some (<[reference b := b]> d !! r)).
  { intros r Hr'. destruct (decide (reference b = r)) as [->|]; [rewrite lookup_insert_eq; eauto|].
    by rewrite lookup_insert_ne. }
  split.
  - intros r b'. rewrite lookup_insert_Some. intros [[<- <-]|[_ Hr']]; [done|by apply Hv].
  - by rewrite lookup_insert_eq.
  - intros k p r. rewrite lookup_drop. intros Hkr. apply Hmono. by eapply Hp.
  - intros r Hr' Hle. rewrite Hr in Hle. destruct (decide (r = reference b)) as [|Hne]; [by left|].
    rewrite lookup_insert_ne in Hr' by done.
    destruct (Hk r Hr' ltac:(lia)) as [->|(k & p & Hkr)]; [lia|].
    destruct (first_include_keeps _ _ _ _ _ Hkr Hle) as (k' & _ & Hk'). right. eauto.
  - intros k p r b' i Hkr Hb' Hlt' Hi Hle. rewrite Hr in Hlt', Hle.
    rewrite lookup_insert_ne in Hb' by (intros <-; lia). rewrite lookup_drop in Hkr.
    destruct (Hord _ _ _ _ _ Hkr Hb' ltac:(lia) Hi ltac:(lia)) as [->|(k' & p' & Hk' & Hp')]; [lia|].
    destruct (first_include_keeps _ _ _ _ _ Hp' Hle) as (k2 & Heq & Hk2). right. exists k2, p'.
    split; [|done]. fold idx in Heq. lia.
  - exists fed. split; [done|]. intros r Hr'. by apply Hmono, Hfed.
  - intros k p s. rewrite lookup_drop. apply Hst.
  - intros r Hr'. by apply Hmono, Hge.
Qed.
End Invariant.

(** ** The blocks behind the store *)

Section Reads.
Context {Wal : Type} `{WalLaws Wal} `{CodecLaws} `{Crypto}.
Context (c : Committee) (Hc : wf_committee c) (Hnd : no_dictator c).

Notation StoreWriter := (StoreWriter (Wal := Wal)).

(** The index of the store and the log stand for the blocks [d]. *)
Definition log_dag (l : list wal_item) (store : BlockStoreInner) (d : dag) : Prop :=
  ∀ r, match inner_get_block store r with
       | Some e => ∃ b, d !! r = Some b ∧ entry_logged l e b
       | None => d !! r = None
       end.

(** The secondary indexes agree with the index of the blocks. *)
Record indexes_ok (store : BlockStoreInner) : Prop := {
  io_seen : ∀ a n, last_seen_vec store !! a = Some n →
    n = 0 ∨ ∃ r, br_round r = n ∧ is_Some (inner_get_block store r);
  io_own : ∀ n dg, own_blocks store !! n = Some dg ↔
    is_Some (inner_get_block store (mkRef (store_authority store) n dg)) }.

Lemma indexes_ok_same store store' :
  indexes_ok store → own_blocks store' = own_blocks store → last_seen_vec store' = last_seen_vec store →
  store_authority store' = store_authority store →
  (∀ r, is_Some (inner_get_block store' r) ↔ is_Some (inner_get_block store r)) → indexes_ok store'.
Proof.
  intros [Hs Ho] Eo Es Ea Hi. split; rewrite ?Eo, ?Es, ?Ea.
  - intros a n Hn. destruct (Hs a n Hn) as [->|(r & Hr & Hr')]; [by left|]. right. exists r. by rewrite Hi.
  - intros n dg. by rewrite Ho, Hi.
Qed.

Lemma add_own_index_inv store r store' :
  add_own_index store r = Ok store' →
  last_seen_vec store' = last_seen_vec store ∧ store_authority store' = store_authority store ∧
  index store' = index store ∧
  (br_authority r = store_authority store ∧ own_blocks store !! br_round r = None ∧
     own_blocks store' = <[br_round r := br_digest r]> (own_blocks store) ∨
   br_authority r ≠ store_authority store ∧ own_blocks store' = own_blocks store).
Proof.
  unfold add_own_index. case_bool_decide as Ha; [|intros [= <-]; split_and!; [done..|by right]].
  intros (? & Has & Heq)%bind_ok. unfold rust_assert in Has.
  destruct (decide (own_blocks store !! br_round r = None)) as [Hn|Hn]; [|by rewrite bool_decide_false in Has].
  injection Heq as <-. split_and!; [done..|by left].
Qed.

Lemma add_loaded_indexes store pos b store' :
  indexes_ok store → add_loaded store pos b = Ok store' → indexes_ok store'.
Proof.
  intros [Hs Ho] Hadd. pose proof (λ r, add_loaded_index _ _ _ _ r Hadd) as Hi.
  unfold add_loaded in Hadd. apply bind_ok in Hadd as (s1 & Hown & Hadd).
  apply bind_ok in Hadd as (s2 & Hseen & Heq). injection Heq as <-.
  apply add_own_index_inv in Hown as (Es & Ea & _ & Eo). cbn [last_seen_vec store_authority own_blocks set_highest_round] in *.
  unfold update_last_seen_by_authority in Hseen. apply bind_ok in Hseen as (n0 & Hn0 & Hseen). apply expect_ok in Hn0.
  split.
  - intros a n Hn. assert (n = block_round b ∨ last_seen_vec s1 !! a = Some n) as [->|Hold].
    { destruct (bool_decide (n0 < _)); injection Hseen as <-; [|by right]. cbn in Hn.
      apply list_lookup_insert_Some in Hn as [(_ & <- & _)|[_ ?]]; [by left|by right]. }
    + right. exists (reference b). rewrite Hi, decide_True by done. eauto.
    + rewrite Es in Hold. destruct (Hs _ _ Hold) as [->|(r & Hr & Hr')]; [by left|]. right. exists r. rewrite Hi.
      destruct (decide (r = reference b)); eauto.
  - intros n dg. assert (store_authority s2 = store_authority store ∧ own_blocks s2 = own_blocks s1) as [Ea2 Eo2]
      by (destruct (bool_decide (n0 < _)); injection Hseen as <-; done).
    clear Hseen. cbn [own_blocks store_authority index_insert]. rewrite Hi. cbn [store_authority index_insert]. rewrite Ea2, Eo2.
    destruct Eo as [(Hauth & Hnone & ->)|(Hauth & ->)].
    + rewrite lookup_insert. destruct (decide (br_round (reference b) = n)) as [<-|Hne].
      * case_decide as Hd; [apply (f_equal br_digest) in Hd; cbn in Hd; subst dg; split; eauto|].
        rewrite <-Ho. split; [intros [= <-]; destruct Hd; destruct (reference b); cbn in *; by subst|congruence].
      * rewrite decide_False by (intros Hd; rewrite <-Hd in *; done). by rewrite Ho.
    + rewrite decide_False by (intros Hd; rewrite <-Hd in *; done). by rewrite Ho.
Qed.

Definition reads (w : StoreWriter) (d : dag) : Prop :=
  ∃ l, log_rel (sw_wal w) l ∧ log_dag l (sw_store w) d ∧ indexes_ok (sw_store w).

Lemma reads_get w d r : reads w d → writer_get_block w r = Ok (d !! r).
Proof.
  intros (l & Hl & Hd & Hx). unfold writer_get_block, store_get_block. specialize (Hd r).
  destruct (inner_get_block (sw_store w) r) as [e|]; [|by rewrite Hd].
  destruct Hd as (b & -> & He). destruct (entry_logged_denotes _ _ _ _ Hl He) as [-> _]. done.
Qed.

Lemma reads_exists w d r : reads w d → store_exists w r = true ↔ is_Some (d !! r).
Proof.
  intros (l & Hl & Hd & Hx). cbn [store_exists writer_writer store_writer].
  rewrite inner_block_exists_get, bool_decide_eq_true. specialize (Hd r).
  destruct (inner_get_block (sw_store w) r) as [e|].
  - destruct Hd as (b & -> & _). split; eauto.
  - rewrite Hd. split; by intros [? ?].
Qed.

Lemma log_dag_mono l i store d : log_dag l store d → log_dag (l ++ [i]) store d.
Proof.
  intros Hd r. specialize (Hd r). destruct (inner_get_block store r) as [e|]; [|done].
  destruct Hd as (b & Hb & He). exists b. split; [done|]. by apply entry_logged_mono.
Qed.

Lemma log_dag_add l store d pos i b store' :
  log_dag l store d → add_loaded store pos b = Ok store' → holds_block i b →
  log_dag (l ++ [(pos, i)]) store' (<[reference b := b]> d).
Proof.
  intros Hd Hadd Hi r. rewrite (add_loaded_index _ _ _ _ _ Hadd). case_decide as Hr.
  - subst r. exists b. rewrite lookup_insert_eq. split; [done|]. exists pos, i.
    split_and!; [done|apply elem_of_app; right; by left|done|by right].
  - rewrite lookup_insert_ne by done. apply (log_dag_mono l (pos, i) _ _ Hd r).
Qed.

Lemma reads_insert w d b w' p :
  reads w d → StoreWriter_insert_block log_write serialized_bytes w b = Ok (w', p) →
  reads w' (<[reference b := b]> d).
Proof.
  intros (l & Hl & Hd & Hx) Hins. unfold StoreWriter_insert_block in Hins.
  apply bind_ok in Hins as ([wal' p1] & Hw & Hins). apply bind_ok in Hins as (store' & Hadd & Hins).
  injection Hins as <- ->. eexists. split_and!; [by eapply (log_write_spec _ _ WAL_ENTRY_BLOCK)| |by eapply add_loaded_indexes].
  eapply log_dag_add; [done|exact Hadd|]. left. split; [done|]. apply block_round_trip.
Qed.

Lemma reads_own w d data w' :
  reads w d → writer_insert_own_block w data = Ok w' → next_entry data ≤ u64_max →
  reads w' (<[reference (own_block data) := own_block data]> d).
Proof.
  intros (l & Hl & Hd & Hx) Hins Hn. unfold writer_insert_own_block, insert_own_block in Hins.
  apply bind_ok in Hins as ([wal' p] & Hw & Hins). apply bind_ok in Hins as (store' & Hadd & Hins).
  injection Hins as <-. eexists. split_and!; [by eapply (log_write_spec _ _ WAL_ENTRY_OWN_BLOCK)| |by eapply add_loaded_indexes].
  eapply log_dag_add; [done|exact Hadd|]. right. split; [done|]. exists data.
  by apply own_block_round_trip.
Qed.

Lemma reads_log w d t data w' p : t < 2 ^ 32 → reads w d → writer_log w t data = Ok (w', p) → reads w' d.
Proof.
  intros Ht (l & Hl & Hd & Hx) Hw. unfold writer_log in Hw. apply bind_ok in Hw as ([wal' p1] & Hw & Heq).
  injection Heq as <- ->. eexists. split_and!; [by eapply (log_write_spec _ _ t)|by apply log_dag_mono|done].
Qed.

Lemma reads_unload w d store :
  reads w d → own_blocks store = own_blocks (sw_store w) → last_seen_vec store = last_seen_vec (sw_store w) →
  store_authority store = store_authority (sw_store w) →
  (∀ r, inner_get_block store r = inner_get_block (sw_store w) r ∨
        inner_get_block store r = unload_entry <$> inner_get_block (sw_store w) r) →
  reads (mkStoreWriter (sw_wal w) store) d.
Proof.
  intros (l & Hl & Hd & Hx) Eo Es Ea Hs. exists l. split_and!; [done| |].
  2:{ eapply indexes_ok_same; [done..|]. intros r. cbn [sw_store]. destruct (Hs r) as [-> | ->]; [done|]. by rewrite fmap_is_Some. }
  intros r. specialize (Hd r). cbn [sw_store].
  destruct (Hs r) as [-> | ->]; [done|].
  destruct (inner_get_block (sw_store w) r) as [e|]; simpl; [|done].
  destruct Hd as (b & Hb & He). exists b. split; [done|]. by apply entry_logged_unload.
Qed.

Lemma reads_cleanup w d t : reads w d → reads (mkStoreWriter (sw_wal w) (cleanup (sw_store w) t)) d.
Proof.
  intros Hr. apply reads_unload; [done|by unfold cleanup; case_bool_decide..|]. intros r. unfold cleanup. case_bool_decide; [by left|].
  rewrite inner_get_block_unload. case_bool_decide; [left|by right].
  by destruct (inner_get_block (sw_store w) r).
Qed.

Lemma reads_unload_all w d : reads w d → reads (mkStoreWriter (sw_wal w) (unload_all (sw_store w))) d.
Proof.
  intros Hr. apply reads_unload; [done..|]. intros r. right. apply inner_get_block_unload_all.
Qed.

(** ** Receiving blocks *)

(** The manager never misses a genesis block. *)
Definition missing_ok (m : BlockManager) : Prop :=
  ∀ a s i, missing m !! a = Some s → i ∈ s → ¬ genesis_ref c i.

Lemma update_missing_ok m a f m' :
  update_missing m a f = Ok m' → (∀ s i, i ∈ f s → i ∈ s ∨ ¬ genesis_ref c i) →
  blocks_pending m' = blocks_pending m ∧ (missing_ok m → missing_ok m').
Proof.
  unfold update_missing. intros (s & Hs & Heq)%bind_ok Hf. apply expect_ok in Hs. injection Heq as <-.
  split; [done|]. intros Hm a' s' i. cbn [missing]. rewrite list_lookup_insert_Some.
  intros [(_ & <- & _)|[_ Hs']] Hi; [|by eapply Hm]. destruct (Hf _ _ Hi); [by eapply Hm|done].
Qed.

Lemma check_includes_true (w : StoreWriter) rb incs : ∀ m p m' p',
  foldM (check_include w rb) (m, p) incs = Ok (m', p') → (∀ r, genesis_ref c r → store_exists w r = true) →
  blocks_pending m' = blocks_pending m ∧ (missing_ok m → missing_ok m') ∧
  (p' = true → p = true ∧ ∀ i, i ∈ incs → store_exists w i = true).
Proof.
  induction incs as [|i incs IH]; intros m p m' p' Hf Hge; cbn [foldM] in Hf.
  - injection Hf as <- <-. split_and!; [done|done|]. intros ->. split; [done|]. intros i Hi. by apply elem_of_nil in Hi.
  - apply bind_ok in Hf as ([m1 p1] & Hstep & Hf). apply IH in Hf as (Hm & Hmi & Hp); [|done].
    unfold check_include in Hstep. cbn beta iota in Hstep. destruct (store_exists w i) eqn:Hi.
    + injection Hstep as <- <-. split_and!; [done|done|]. intros [-> Hall]%Hp. split; [done|].
      intros j [->|Hj]%elem_of_cons; [done|by apply Hall].
    + apply bind_ok in Hstep as (m2 & Hup & Hstep). injection Hstep as <- <-. rewrite Hm.
      assert (blocks_pending m2 = blocks_pending m ∧ (missing_ok m → missing_ok m2)) as [-> Hm2].
      { revert Hup. case_bool_decide; [by intros [= <-]|]. intros Hup.
        apply update_missing_ok in Hup; [done|].
        intros s j [->%elem_of_singleton|]%elem_of_union; [right|by left]. intros Hj%Hge. congruence. }
      split_and!; [done|by auto|by intros [? _]%Hp].
Qed.

(** The suspended blocks of the manager. *)
Definition manager_ok (m : BlockManager) : Prop :=
  (∀ r b, blocks_pending m !! r = Some b → ok_stored c b) ∧ missing_ok m.

Lemma unlock_ok l : ∀ m q m' q',
  manager_ok m → Forall (ok_stored c) q → foldM unlock (m, q) l = Ok (m', q') →
  manager_ok m' ∧ Forall (ok_stored c) q'.
Proof.
  induction l as [|x l IH]; intros m q m' q' Hm Hq Hf; cbn [foldM] in Hf; [by injection Hf as <- <-|].
  apply bind_ok in Hf as ([m1 q1] & Hstep & Hf). apply bind_ok in Hstep as (b & Hb & Hstep).
  apply expect_ok in Hb. destruct (forallb _ _).
  - rewrite Hb in Hstep. cbn in Hstep. injection Hstep as <- <-. eapply IH; [| |exact Hf].
    + split; [|apply Hm]. intros r b' Hr. cbn in Hr. apply lookup_delete_Some in Hr as [_ Hr]. by eapply Hm.
    + constructor; [by eapply Hm|done].
  - injection Hstep as <- <-. by eapply IH.
Qed.

Lemma add_blocks_prop mgr blocks (w : StoreWriter) mgr' w' out pending own clock d :
  add_blocks mgr blocks w = Ok (mgr', w', out) → manager_ok mgr → Forall (ok_stored c) blocks →
  reads w d → prop_inv c d pending own clock →
  ∃ d', reads w' d' ∧ prop_inv c d' (pending ++ include_entries out) own clock ∧ manager_ok mgr' ∧
    (∀ p b, (p, b) ∈ out → is_Some (d' !! reference b)).
Proof.
  intros Hadd Hm Hb Hd Hinv. unfold add_blocks in Hadd.
  refine (loop_inv add_blocks_step
    (λ st, let '(m1, w1, q1, out1) := st in manager_ok m1 ∧ Forall (ok_stored c) q1 ∧
       ∃ d1, reads w1 d1 ∧ prop_inv c d1 (pending ++ include_entries out1) own clock ∧
         (∀ p b, (p, b) ∈ out1 → is_Some (d1 !! reference b)))
    (λ res, let '(m1, w1, out1) := res in
       ∃ d1, reads w1 d1 ∧ prop_inv c d1 (pending ++ include_entries out1) own clock ∧
         manager_ok m1 ∧ (∀ p b, (p, b) ∈ out1 → is_Some (d1 !! reference b)))
    _ _ _ (mgr', w', out) _ Hadd).
  - clear -H0 H2. intros [[[m1 w1] q1] out1] (Hm & Hq & d1 & Hd & Hinv & Hout). unfold add_blocks_step.
    destruct q1 as [|b q1]; [by eauto 10|]. apply Forall_cons in Hq as [Hb Hq].
    destruct (store_exists w1 (reference b)) eqn:Hex; cbn [orb]; [by eauto 10|].
    case_bool_decide; [by eauto 10|].
    destruct (foldM (check_include w1 (reference b)) (m1, true) (includes b)) as [[m2 ok]| |] eqn:Hchk;
      cbn [mbind outcome_bind]; try done.
    apply check_includes_true in Hchk as (Hm2 & Hmi2 & Hok);
      [|intros r Hr; eapply reads_exists; [done|by eapply pi_genesis]].
    destruct (update_missing m2 _ _) as [m3| |] eqn:Hup; cbn [mbind outcome_bind]; try done.
    apply update_missing_ok in Hup as [Hm3 Hmi3]; [|intros s i [? _]%elem_of_difference; by left].
    assert (Hmok : manager_ok m3) by (unfold manager_ok; rewrite Hm3, Hm2; split; [apply Hm|apply Hmi3, Hmi2, Hm]).
    destruct ok; cbn [negb].
    2:{ split_and!; [|done|by eauto 10]. split; [|apply Hmok]. intros r b'. cbn. rewrite lookup_insert_Some.
        intros [[_ <-]|[_ Hr]]; [done|by eapply Hmok]. }
    destruct (Hok eq_refl) as [_ Hpar].
    destruct (insert_block w1 b) as [[w2 p]| |] eqn:Hins; cbn [mbind outcome_bind]; try done.
    pose proof (reads_insert _ _ _ _ _ Hd Hins) as Hd2.
    assert (Hinv2 : prop_inv c (<[reference b := b]> d1)
                      (pending ++ include_entries (out1 ++ [(p, b)])) own clock).
    { unfold include_entries. rewrite fmap_app, app_assoc. apply prop_inv_include; [done| |done|].
      - destruct (d1 !! reference b) as [x|] eqn:Hx; [|done].
        assert (store_exists w1 (reference b) = true) as Ht by (apply (reads_exists _ d1); eauto).
        congruence.
      - intros i Hi. apply (reads_exists w1); [done|]. by apply Hpar. }
    assert (Hout2 : ∀ q b', (q, b') ∈ out1 ++ [(p, b)] → is_Some (<[reference b := b]> d1 !! reference b')).
    { intros q b' [Hin|Hin]%elem_of_app.
      - destruct (decide (reference b = reference b')) as [->|]; [rewrite lookup_insert_eq; eauto|].
        rewrite lookup_insert_ne by done. by eapply Hout.
      - apply list_elem_of_singleton in Hin. injection Hin as -> ->. rewrite lookup_insert_eq. eauto. }
    destruct (block_references_waiting m3 !! _) as [waiting|]; [|by eauto 10].
    destruct (foldM unlock _ _) as [[m4 q4]| |] eqn:Hun; cbn [mbind outcome_bind]; try done.
    apply unlock_ok in Hun as [Hm4 Hq4]; [|done|done]. by eauto 10.
  - split_and!; [done|done|]. exists d. split_and!; [done| |].
    + unfold include_entries. simpl. by rewrite app_nil_r.
    + intros p b Hin. by apply elem_of_nil in Hin.
Qed.
End Reads.

(** ** Honest runs *)

Section Honest.
Context {Wal H E : Type} `{WalLaws Wal} `{CodecLaws} `{CryptoLaws} `{BlockHandler H} `{PevmExecutor E}.
Context (cfg : CoreConfig).

Notation Core := (Core (Wal := Wal) (H := H) (E := E)).
Notation c := (cc_committee cfg).
Notation StoreWriter := (StoreWriter (Wal := Wal)).

(** A run in which every received block has passed [verify] and the rounds stay
    below the largest 64-bit number; it may restart between operations, but not
    before its first proposal. *)
Inductive honest_run : list StatementBlock → nat → Core → commit_view → Prop :=
| honest_start wal h e self :
    log_rel wal [] → restart cfg wal h e = Ok self →
    honest_run [] (length (core_pending self)) self (None, ∅, None)
| honest_op proposed n self cv received new n' self' cv' :
    honest_run proposed n self cv → core_op cfg n self cv received new n' self' cv' →
    Forall (λ b, verify b c = Ok true ∧ block_round b < u64_max) received →
    Forall (λ b, block_round b < u64_max) new →
    honest_run (proposed ++ new) n' self' cv'
| honest_restart proposed self cv h e self' :
    honest_run proposed 0 self cv → restart cfg (sw_wal (core_writer self)) h e = Ok self' →
    honest_run proposed 0 self' cv.

Lemma honest_is_run proposed n self cv : honest_run proposed n self cv → core_run cfg proposed n self cv.
Proof.
  induction 1 as [wal h e self Hwal Hrun|proposed n self cv received new n' self' cv' _ IH Hop _ _
                 |proposed self cv h e self' _ IH Hrun].
  - by eapply run_start.
  - by eapply run_op.
  - by eapply (run_restart cfg _ _ _ _ (core_view 0 self cv)).
Qed.

(** The committee is well formed, the signer is the one the committee knows, and
    the handler's statements are within their bounds. *)
Context (Hc : wf_committee c) (Hnd : no_dictator c).
Context (Hkey : get_public_key c (cc_authority cfg) = Some (signer_public_key (cc_signer cfg))).
Context (Hhandler : ∀ get h blocks respond h' stmts,
  handle_blocks get h blocks respond = Ok (h', stmts) → Forall (λ x, verify_statement x = true) stmts).

Definition core_prop (self : Core) : Prop :=
  ∃ d, reads (core_writer self) d ∧
    prop_inv c d (core_pending self) (own_block (core_last_own_block self)) (core_threshold_clock self) ∧
    manager_ok c (core_block_manager self).

Lemma run_block_handler_prop self processed self' :
  core_prop self → run_block_handler self processed = Ok self' → core_prop self'.
Proof using All.
  intros (d & Hd & Hinv & Hm) Hrun. unfold run_block_handler in Hrun.
  apply bind_ok in Hrun as ([h stmts] & Hh & Hrun). apply bind_ok in Hrun as ([w p] & Hw & Hrun).
  injection Hrun as <-. exists d. split_and!; [|apply prop_inv_payload; [done|by eapply Hhandler]|done].
  by eapply (reads_log _ _ WAL_ENTRY_PAYLOAD).
Qed.

Lemma note_processed_clock l : ∀ clock pending clock' pending' d q own,
  foldM (note_processed cfg) (clock, pending) l = Ok (clock', pending') →
  (∀ p b, (p, b) ∈ l → is_Some (d !! reference b)) →
  prop_inv c d q own clock → prop_inv c d q own clock'.
Proof using All.
  induction l as [|[p b] l IH]; intros clock pending clock' pending' d q own Hf Hin Hinv;
    cbn [foldM] in Hf; [by injection Hf as <- <-|].
  apply bind_ok in Hf as ([cl1 pd1] & Hx & Hf). apply bind_ok in Hx as (cl2 & Hcl & Hx).
  injection Hx as <- <-. eapply IH; [exact Hf|intros p' b' Hb'; eapply Hin; by right|].
  eapply prop_inv_clock; [done|done|exact Hinv| |exact Hcl]. apply (Hin p). by left.
Qed.

Lemma verified_ok b : verify b c = Ok true → block_round b < u64_max → ok_stored c b.
Proof using All.
  intros Hv Hr. destruct (verify_spec c b Hc) as (r & Hr' & Hiff); [unfold u64_max in Hr; lia|].
  rewrite Hv in Hr'. injection Hr' as <-. destruct Hiff as [Hiff _]. destruct (Hiff eq_refl) as [_ Hwf].
  split_and!; [apply Hwf|done|by right].
Qed.

Lemma core_add_blocks_prop self blocks self' out :
  core_prop self → Forall (λ b, verify b c = Ok true ∧ block_round b < u64_max) blocks →
  core_add_blocks cfg self blocks = Ok (self', out) → core_prop self'.
Proof using All.
  intros (d & Hd & Hinv & Hm) Hb Hrun. unfold core_add_blocks in Hrun.
  apply bind_ok in Hrun as ([[mgr w] processed] & Hadd & Hrun).
  apply bind_ok in Hrun as ([clock pending] & Hnote & Hrun).
  apply bind_ok in Hrun as (self1 & Hh & Hrun). injection Hrun as -> _.
  eapply add_blocks_prop in Hadd as (d' & Hd' & Hinv' & Hm' & Hout);
    [|exact Hm|eapply Forall_impl; [exact Hb|]; intros b [? ?]; by apply verified_ok|exact Hd|exact Hinv].
  pose proof (note_processed_pending cfg _ _ _ _ _ Hnote) as ->.
  eapply run_block_handler_prop; [|exact Hh]. exists d'. split_and!; [done| |done].
  cbn. by eapply note_processed_clock.
Qed.

(** The references that are left out. *)
Lemma collect_references_spec (w : StoreWriter) d taken : reads w d → ∀ refs refs',
  foldM (collect_references w) refs taken = Ok refs' →
  ∀ i, i ∈ refs' → i ∈ refs ∨ ∃ k p r b, taken !! k = Some (p, Include r) ∧ d !! r = Some b ∧ i ∈ includes b.
Proof.
  intros Hd. induction taken as [|[p m] taken IH]; intros refs refs' Hf i Hi; cbn [foldM] in Hf.
  { injection Hf as <-. by left. }
  apply bind_ok in Hf as (refs1 & Hstep & Hf).
  destruct (IH _ _ Hf i Hi) as [Hi1|(k & q & r & b & Hk & Hb & Hin)].
  2:{ right. exists (Datatypes.S k), q, r, b. done. }
  unfold collect_references in Hstep. cbn [snd] in Hstep. destruct m as [r|s].
  - rewrite (reads_get _ _ _ Hd) in Hstep. cbn in Hstep. injection Hstep as <-.
    destruct (d !! r) as [b|] eqn:Hb; [|by left].
    apply elem_of_union in Hi1 as [|Hin]; [by left|]. right. exists 0%nat, p, r, b.
    split_and!; [done|done|by apply elem_of_list_to_set in Hin].
  - injection Hstep as <-. by left.
Qed.

(** A proposal passes verification and keeps the invariant. *)
Lemma try_new_block_prop n self now self' b :
  core_prop self → core_try_new_block cfg self now = Ok (self', Some b) → block_round b < u64_max →
  genesis_first n (core_pending self) → Forall (λ x, x.1 < u64_max) (drop n (core_pending self)) →
  verify b c = Ok true ∧ core_prop self'.
Proof using All.
  intros (d & Hd & Hinv & Hm) Hrun Hmax Hgen Hpos. unfold core_try_new_block in Hrun.
  case_bool_decide as Hround; [done|].
  unfold last_proposed, clock_get_round in *.
  set (clock := core_threshold_clock self) in *. set (own := own_block (core_last_own_block self)) in *.
  set (idx := first_include_index (clock_round clock) (core_pending self)) in *.
  apply bind_ok in Hrun as (refs & Hrefs & Hrun). apply bind_ok in Hrun as (first & _ & Hrun).
  apply bind_ok in Hrun as (? & _ & Hrun). apply bind_ok in Hrun as (? & _ & Hrun).
  apply bind_ok in Hrun as (clock' & Hclock & Hrun). apply bind_ok in Hrun as (h & _ & Hrun).
  apply bind_ok in Hrun as (w & Hins & Hrun). apply bind_ok in Hrun as (? & _ & Hrun).
  injection Hrun as <- Hb.
  assert (Hlt : block_round own < clock_round clock) by lia.
  assert (Hold : refs_older (clock_round clock) refs).
  { intros i Hi. destruct (collect_references_spec _ _ _ Hd _ _ Hrefs i Hi) as [Ho|(k & p & r & b' & Hk & Hb' & Hin)].
    - apply elem_of_list_to_set in Ho.
      destruct (pi_valid _ _ _ _ _ Hinv _ _ (pi_own _ _ _ _ _ Hinv)) as [_ Hok].
      apply (ok_stored_includes c own) in Ho; [lia|done].
    - apply lookup_take_Some in Hk as [Hk Hi2]. apply (first_include_lt _ _ _ _ _ Hk) in Hi2.
      destruct (pi_valid _ _ _ _ _ Hinv _ _ Hb') as [Href Hok].
      apply (ok_stored_includes c b') in Hin; [|done]. unfold block_round in Hin. rewrite Href in Hin. lia. }
  assert (Hbr : block_round b = clock_round clock) by (by rewrite <-Hb).
  assert (Hinc : includes b = proposal_includes own refs (take idx (core_pending self))) by (by rewrite <-Hb).
  assert (Hauth : author b = cc_authority cfg) by (by rewrite <-Hb).
  assert (Hwf : well_formed_block c b).
  { split.
    - rewrite Hauth. by eapply get_public_key_known.
    - lia.
    - rewrite Hinc, Hbr. by eapply proposal_includes_ok.
    - rewrite <-Hb. by eapply taken_statements_ok.
    - rewrite Hinc, Hbr. by eapply proposal_quorum. }
  assert (Hver : verify b c = Ok true).
  { destruct (verify_spec c b Hc) as (r & -> & Hiff); [unfold u64_max in Hmax; lia|]. f_equal.
    apply Hiff. split; [|done]. rewrite <-Hb. by apply new_with_signer_authentic. }
  assert (Hok : ok_stored c b) by (split_and!; [apply Hwf|done|by right]).
  split; [done|].
  - rewrite Hb in *. exists (<[reference b := b]> d). split_and!; [| |done].
    + apply (reads_own _ _ _ _ Hd Hins), next_entry_bound.
      replace (drop idx (core_pending self)) with (drop (idx - n) (drop n (core_pending self)))
        by (rewrite drop_drop; f_equal; pose proof (genesis_before _ _ _ Hgen _ Hlt); unfold idx; lia).
      by apply Forall_drop.
    + cbn [core_pending core_last_own_block core_threshold_clock own_block].
      eapply prop_inv_clock; [done|done| |by rewrite lookup_insert_eq; eauto|exact Hclock].
      by apply prop_inv_propose with (own := own).
Qed.
Lemma same_view_prop self self' : core_prop self → same_view self self' → core_prop self'.
Proof. unfold core_prop. by intros Hp (-> & -> & -> & -> & ->). Qed.

Lemma handle_committed_prop self committed state now self' data :
  core_prop self → handle_committed_subdag cfg self committed state now = Ok (self', data) →
  core_prop self'.
Proof using All.
  intros Hp Hrun. unfold handle_committed_subdag in Hrun. apply bind_ok in Hrun as (s1 & Hobs & Hrun).
  apply bind_ok in Hrun as (s2 & Hst & Hrun). apply bind_ok in Hrun as (s3 & Hco & Hrun).
  injection Hrun as -> <-. apply observe_commits_view in Hobs.
  pose proof (same_view_prop _ _ Hp Hobs) as (d & Hd & Hinv & Hm).
  unfold write_state in Hst. apply bind_ok in Hst as ([w2 p2] & Hw2 & Hst). injection Hst as <-.
  unfold write_commits in Hco. apply bind_ok in Hco as ([w3 p3] & Hw3 & Hco). injection Hco as <-.
  exists d. split_and!; [|done|done].
  eapply (reads_log _ _ WAL_ENTRY_COMMIT); [done| |exact Hw3].
  by eapply (reads_log _ _ WAL_ENTRY_STATE).
Qed.

(** The clock of a restarted core. *)
Lemma recover_clock_prop d (l : list (WalPosition * MetaStatement)) : ∀ clock clock' q own,
  foldM (λ clock p, match p.2 with
                    | Include r => clock_add_block clock r c
                    | Payload _ => Ok clock
                    end) clock l = Ok clock' →
  (∀ k p r, l !! k = Some (p, Include r) → is_Some (d !! r)) →
  prop_inv c d q own clock → prop_inv c d q own clock'.
Proof using All.
  induction l as [|[p m] l IH]; intros clock clock' q own Hf Hin Hinv; cbn [foldM] in Hf;
    [by injection Hf as <-|].
  apply bind_ok in Hf as (cl1 & Hstep & Hf).
  eapply IH; [exact Hf|intros k; apply (Hin (Datatypes.S k))|]. cbn [snd] in Hstep. destruct m as [r|s].
  - eapply prop_inv_clock; [done|done|exact Hinv|by apply (Hin 0%nat p)|exact Hstep].
  - by injection Hstep as <-.
Qed.

Lemma prop_inv_new_clock d q own clock :
  prop_inv c d q own clock → prop_inv c d q own (ThresholdClockAggregator_new 0).
Proof using All.
  intros [Hv Ho Hp Hk Hord _ Hst Hge]. split; try done. exists []. split; [apply clock_inv_new|].
  intros r Hr. by apply elem_of_nil in Hr.
Qed.

Lemma manager_ok_new : manager_ok c (BlockManager_new c).
Proof.
  split; [intros r b Hr; cbn [blocks_pending BlockManager_new] in Hr; by rewrite lookup_empty in Hr|].
  intros a s i [-> _]%lookup_replicate. set_solver.
Qed.

Lemma restart_prop self cv h e self' :
  core_prop self → view_logged (cc_authority cfg) c (core_view 0 self cv) →
  restart cfg (sw_wal (core_writer self)) h e = Ok self' → core_prop self'.
Proof using All.
  intros (d & Hd & Hinv & Hm) Hl Hrun. unfold restart in Hrun.
  apply bind_ok in Hrun as (rs & Hopen & Hrun). pose proof Hopen as Hit. unfold store_open in Hit.
  apply bind_ok in Hit as (items & Hit & _). unfold view_logged in Hl. cbn in Hl.
  destruct (store_open_logged _ _ _ _ _ _ _ Hl Hit) as (rs' & Hrs & Hp & Ho & _ & Hst & _).
  rewrite Hopen in Hrs. injection Hrs as <-. unfold core_open in Hrun. rewrite Ho in Hrun.
  apply bind_ok in Hrun as ([[[clock w] pending] own] & Hclock & Hrun).
  apply bind_ok in Hclock as (cl & Hcl & Hclock). injection Hclock as <- <- <- <-.
  apply bind_ok in Hrun as (h' & _ & Hrun). rewrite drop_0 in Hp. rewrite Hp, Hst in *.
  set (this := mkCore _ _ _ _ _ _ _ _ _ _ _) in Hrun.
  assert (Hthis : core_prop this).
  { exists d. split_and!; [by apply reads_unload_all| |apply manager_ok_new].
    cbn. eapply recover_clock_prop; [exact Hcl|apply Hinv|]. by eapply prop_inv_new_clock. }
  destruct (rs_unprocessed_blocks rs); [by injection Hrun as <-|].
  by eapply run_block_handler_prop.
Qed.
(** Genesis: the blocks of the others are stored and pending. *)
Record genesis_inv (w : StoreWriter) (pending : list (WalPosition * MetaStatement))
    (clock : ThresholdClockAggregator) (d : dag) : Prop := {
  gi_reads : reads w d;
  gi_valid : ∀ r b, d !! r = Some b → reference b = r ∧ ok_stored c b ∧ block_round b = 0 ∧
               ∃ k p, pending !! k = Some (p, Include r);
  gi_pending : ∀ k p m, pending !! k = Some (p, m) → ∃ r, m = Include r ∧ is_Some (d !! r);
  gi_clock : ∃ fed, clock_inv c 0 fed clock ∧ ∀ r, r ∈ fed → is_Some (d !! r);
}.
Definition holds_genesis (l : list AuthorityIndex) (d : dag) : Prop :=
  ∀ a, a ∈ l → is_Some (d !! reference (new_genesis a)).

Lemma genesis_ok a : a < committee_len c → ok_stored c (new_genesis a).
Proof. intros Ha. split_and!; [done|done|by left]. Qed.

Lemma insert_genesis_inv (l : list AuthorityIndex) : ∀ clock w pending clock' w' pending' d,
  Forall (λ a, a < committee_len c) l → genesis_inv w pending clock d →
  foldM (insert_genesis cfg) (clock, w, pending) (new_genesis <$> l) = Ok (clock', w', pending') →
  ∃ d', genesis_inv w' pending' clock' d' ∧ holds_genesis l d' ∧ (∀ r, is_Some (d !! r) → is_Some (d' !! r)).
Proof using All.
  induction l as [|a l IH]; intros clock w pending clock' w' pending' d Hl Hinv Hf;
    cbn [fmap list_fmap foldM] in Hf.
  { injection Hf as <- <- <-. exists d. split_and!; [done|intros a Ha; by apply elem_of_nil in Ha|done]. }
  apply Forall_cons in Hl as [Ha Hl]. apply bind_ok in Hf as (st1 & Hstep & Hf).
  apply bind_ok in Hstep as (cl1 & Hcl & Hstep). apply bind_ok in Hstep as ([w1 p] & Hins & Hstep).
  injection Hstep as <-. set (b := new_genesis a) in *.
  destruct Hinv as [Hr Hv Hp (fed & Hfed & Hin)]. pose proof (reads_insert _ _ _ _ _ Hr Hins) as Hr1.
  assert (Hmono : ∀ r, is_Some (d !! r) → is_Some (<[reference b := b]> d !! r)).
  { intros r Hr'. destruct (decide (reference b = r)) as [->|]; [rewrite lookup_insert_eq; eauto|].
    by rewrite lookup_insert_ne. }
  cut (genesis_inv w1 (pending ++ [(p, Include (reference b))]) cl1 (<[reference b := b]> d)).
  { intros Hinv. destruct (IH _ _ _ _ _ _ (<[reference b := b]> d) Hl Hinv Hf) as (d' & Hinv' & Hh & Hm').
    exists d'. split_and!; [done| |by auto]. intros a' [->|Ha']%elem_of_cons; [|by apply Hh].
    apply Hm'. fold b. rewrite lookup_insert_eq. eauto. }
  split; [done| | |].
  - intros r b'. rewrite lookup_insert_Some. intros [[<- <-]|[_ Hb']].
    + split_and!; [done|by apply genesis_ok|done|]. exists (length pending), p. by rewrite list_lookup_middle.
    + destruct (Hv _ _ Hb') as (? & ? & ? & k & q & Hk). split_and!; try done. exists k, q.
      by apply lookup_app_l_Some.
  - intros k q m Hk. rewrite lookup_app in Hk. destruct (pending !! k) as [x|] eqn:Hx.
    + injection Hk as ->. destruct (Hp _ _ _ Hx) as (r & -> & Hs). exists r. split; [done|]. by apply Hmono.
    + destruct (k - length pending)%nat; simpl in Hk; [|done]. injection Hk as _ <-.
      eexists. split; [done|]. rewrite lookup_insert_eq. eauto.
  - exists (fed ++ [reference b]).
    destruct (clock_inv_step c 0 fed clock (reference b) Hc Hnd Hfed Ha) as (cl & Hcl' & Hinv); [done|].
    rewrite Hcl in Hcl'. injection Hcl' as <-. split; [done|].
    intros r [Hr'|Hr']%elem_of_app; [by apply Hmono, Hin|].
    apply list_elem_of_singleton in Hr' as ->. rewrite lookup_insert_eq. eauto.
Qed.

Lemma open_genesis_prop (w : StoreWriter) clock w' pending own :
  reads w ∅ → open_genesis cfg w [] = Ok (clock, w', pending, own) →
  ∃ d, reads w' d ∧ prop_inv c d pending (own_block own) clock.
Proof using All.
  intros Hr Hopen. unfold open_genesis in Hopen. apply bind_ok in Hopen as (? & _ & Hrun).
  unfold genesis_blocks in Hrun. cbn beta iota in Hrun. apply bind_ok in Hrun as (? & _ & Hrun).
  apply bind_ok in Hrun as ([[cl1 w1] pd1] & Hf & Hrun).
  apply bind_ok in Hrun as (cl2 & Hcl & Hrun). apply bind_ok in Hrun as (w2 & Hins & Hrun).
  injection Hrun as <- <- <- <-. cbn [own_block].
  eapply (insert_genesis_inv _ _ _ _ _ _ _ ∅) in Hf as (d & [Hr1 Hv Hp (fed & Hfed & Hin)] & Hh & _).
  2:{ apply Forall_forall. intros a Ha. apply list_elem_of_filter in Ha as [_ Ha].
      unfold authorities in Ha. apply elem_of_range_list in Ha. lia. }
  2:{ split; [done|by intros|by intros|]. exists []. split; [apply clock_inv_new|].
      intros r Hr'. by apply elem_of_nil in Hr'. }
  set (b := new_genesis (cc_authority cfg)) in *.
  assert (Hown : cc_authority cfg < committee_len c) by by eapply get_public_key_known.
  assert (Hbase : prop_inv c (<[reference b := b]> d) pd1 b cl1).
  { assert (Hmono : ∀ r, is_Some (d !! r) → is_Some (<[reference b := b]> d !! r)).
    { intros r Hr'. destruct (decide (reference b = r)) as [->|]; [rewrite lookup_insert_eq; eauto|].
      by rewrite lookup_insert_ne. }
    assert (Hz : ∀ r, is_Some (<[reference b := b]> d !! r) → br_round r = 0).
    { intros r [y Hx]. apply lookup_insert_Some in Hx as [[<- _]|[_ Hx]]; [done|].
      destruct (Hv _ _ Hx) as (<- & _ & Hx0 & _). done. }
    split.
    - intros r b'. rewrite lookup_insert_Some. intros [[<- <-]|[_ Hb']]; [split; [done|by apply genesis_ok]|].
      by destruct (Hv _ _ Hb') as (? & ? & _).
    - by rewrite lookup_insert_eq.
    - intros k p r Hk. destruct (Hp _ _ _ Hk) as (r' & [= ->] & Hs). by apply Hmono.
    - intros r [y Hx] _. apply lookup_insert_Some in Hx as [[<- _]|[_ Hx]]; [by left|].
      destruct (Hv _ _ Hx) as (_ & _ & _ & Hk). by right.
    - intros k p r b' i _ Hb' Hlt. assert (br_round r = 0) as Hr0 by (apply Hz; eauto). lia.
    - exists fed. split; [done|]. intros r Hr'. by apply Hmono, Hin.
    - intros k p s Hk. destruct (Hp _ _ _ Hk) as (r' & Heq & _). done.
    - intros r (a & Ha & ->). destruct (decide (a = cc_authority cfg)) as [->|Hne]; [rewrite lookup_insert_eq; eauto|].
      apply Hmono, Hh. apply list_elem_of_filter. split; [done|]. unfold authorities. apply elem_of_range_list. lia. }
  exists (<[reference b := b]> d). split; [by apply (reads_own _ _ _ _ Hr1 Hins)|].
  eapply prop_inv_clock; [done|done|exact Hbase| |exact Hcl]. rewrite lookup_insert_eq. eauto.
Qed.

Lemma start_prop (wal : Wal) h e self :
  log_rel wal [] → restart cfg wal h e = Ok self → core_prop self.
Proof using All.
  intros Hwal Hrun. unfold restart in Hrun. apply bind_ok in Hrun as (rs & Hopen & Hrun).
  unfold store_open in Hopen. apply bind_ok in Hopen as (items & Hit & Hopen).
  pose proof (log_iterate_spec _ _ _ Hwal Hit) as ->. cbn in Hopen. injection Hopen as <-.
  unfold core_open in Hrun. cbn [rs_last_own_block rs_pending rs_state rs_unprocessed_blocks] in Hrun.
  apply bind_ok in Hrun as ([[[clock w] pending] own] & Hgen & Hrun).
  apply bind_ok in Hrun as (h' & _ & Hrun). injection Hrun as <-. cbn in Hgen.
  apply open_genesis_prop in Hgen as (d & Hd & Hinv).
  - exists d. split_and!; [done|done|apply manager_ok_new].
  - exists []. split_and!; [done| |split].
    + intros r. cbn. unfold inner_get_block. cbn. by rewrite lookup_empty.
    + intros a n Hn. cbn in Hn. apply list_lookup_fmap_Some in Hn as (? & -> & _). by left.
    + intros n dg. split; [done|]. intros [? Hx]. done.
Qed.

(** The invariant of honest runs. *)
Lemma honest_run_prop proposed n self cv :
  honest_run proposed n self cv → core_prop self ∧ Forall (λ b, verify b c = Ok true) proposed.
Proof using All.
  induction 1 as [wal h e self Hwal Hrun
                 |proposed n self cv received new n' self' cv' Hbefore [Hp Hall] Hop Hrec Hnew
                 |proposed self cv h e self' Hbefore [Hp Hall] Hrun].
  - split; [by eapply start_prop|constructor].
  - pose proof (core_run_inv cfg _ _ _ _ (honest_is_run _ _ _ _ Hbefore)) as Hinv.
    destruct Hop as
      [blocks self' out Hrun|now self' Hrun|now self' b Hrun|self' leaders Hrun
      |committed state now self' data Hrun|committed now self' Hrun| |self' r Hrun]; rewrite ?app_nil_r.
    + split; [|done]. by eapply core_add_blocks_prop.
    + apply try_new_block_None in Hrun as ->. done.
    + apply Forall_cons in Hnew as [Hb _].
      destruct (try_new_block_prop n self now self' b Hp Hrun Hb) as [Hv Hp']; [apply Hinv| |].
      { eapply logged_bounds. apply (ri_logged _ _ _ _ _ Hinv). }
      split; [done|]. apply Forall_app. split; [done|]. by repeat constructor.
    + split; [|done]. eapply same_view_prop; [done|by eapply try_commit_view].
    + split; [|done]. by eapply handle_committed_prop.
    + split; [|done]. eapply same_view_prop; [done|by eapply with_pevm_view].
    + split; [|done]. destruct Hp as (d & Hd & Hpi & Hm). exists d.
      split_and!; [by apply reads_cleanup|done|done].
    + split; [|done]. eapply same_view_prop; [done|by eapply take_recovered_view].
  - pose proof (core_run_inv cfg _ _ _ _ (honest_is_run _ _ _ _ Hbefore)) as Hinv.
    split; [|done]. eapply restart_prop; [done|apply (ri_logged _ _ _ _ _ Hinv)|done].
Qed.
End Honest.


Lemma sample_received : Forall (λ b, verify b four_equal = Ok true ∧ block_round b < u64_max) run_round1.
Proof. repeat constructor; by vm_compute. Qed.

Lemma sample_honest_run : honest_run sample_cfg run_proposed 0 run_core4 (None, ∅, None).
Proof.
  pose proof (honest_start sample_cfg _ _ _ _ sample_log_nil run_core0_eq) as R0.
  pose proof (honest_op sample_cfg _ _ _ _ _ _ _ _ _ R0 (op_new_block _ _ _ _ _ _ _ run_block1_eq)
                (Forall_nil_2 _) ltac:(repeat constructor; by vm_compute)) as R1.
  pose proof (honest_op sample_cfg _ _ _ _ _ _ _ _ _ R1 (op_add_blocks _ _ _ _ _ _ _ run_core2_eq)
                sample_received (Forall_nil_2 _)) as R2.
  pose proof (honest_op sample_cfg _ _ _ _ _ _ _ _ _ R2 (op_new_block _ _ _ _ _ _ _ run_block2_eq)
                (Forall_nil_2 _) ltac:(repeat constructor; by vm_compute)) as R3.
  exact (honest_restart sample_cfg _ _ _ _ _ _ R3 run_core4_eq).
Qed.

Lemma sample_statements get (h : N) blocks respond h' stmts :
  handle_blocks get h blocks respond = Ok (h', stmts) → Forall (λ x, verify_statement x = true) stmts.
Proof. cbn. intros [= _ <-]. destruct respond; by repeat constructor. Qed.

