(* ===== verification/Handlers.v ===== *)
(** * Handlers: the block handler and the commit observer of a validator
      (mysticeti-core/src/block_handler.rs, syncer.rs, transactions_generator.rs)

    [RealBlockHandler] takes client transactions from its channel and votes for the
    transactions of other blocks; [TestCommitHandler], the observer the validator
    runs with, linearizes commits and certifies their transactions. The clocks and
    metrics are left out, except that reading the timestamp of a transaction panics
    when it is too short. *)

From S2P Require Import Prelude Bytes Types Committee BTree RangeMap Aggregator BlockStore.
From S2P Require Import Linearizer Wal WalLog Recovery BlockAuth BlockManager Consensus.
From S2P Require Import ThresholdClock Epoch Core.
From Stdlib Require Import Strings.Byte.

(** The bincode encoding of the pending votes of an aggregator. *)
Class AggregatorCodec (TH : Type) := {
  votes_bytes : gmap BlockReference (gmap N (RangeItem (StakeAggregator TH))) → list byte;
  votes_from_bytes : list byte → option (gmap BlockReference (gmap N (RangeItem (StakeAggregator TH))));
}.

Section State.
Context {TH H : Type} `{AggregatorCodec TH}.

(** [TransactionAggregator::state] and [with_state] *)
Definition aggregator_state (self : TransactionAggregator TH H) : list byte := votes_bytes (pending self).

Definition with_state (self : TransactionAggregator TH H) (state : list byte)
    : outcome (TransactionAggregator TH H) :=
  _ ← rust_assert (aggregator_is_empty self);
  p ← expect (votes_from_bytes state);
  Ok (mkTxAggregator p (handler self)).
End State.

(** [TransactionGenerator::extract_timestamp]: the first eight bytes. *)
Definition extract_timestamp (tx : Transaction) : outcome N :=
  _ ← rust_assert (8 <=? byte_len (tx_data tx));
  Ok (from_le_bytes (take 8 (tx_data tx))).

(** ** RealBlockHandler *)

Definition SOFT_MAX_PROPOSED_PER_BLOCK : N := 20 * 1000.

(** The receiver is the list of the batches in the channel. *)
Record RealBlockHandler := mkRealHandler {
  transaction_votes : TransactionAggregator QuorumThreshold TransactionLog;
  rh_committee : Committee;
  rh_authority : AuthorityIndex;
  receiver : list (list Transaction);
  pending_transactions : N;
  consensus_only : bool;
}.

Definition RealBlockHandler_new (c : Committee) (authority : AuthorityIndex) (consensus_only : bool)
    : RealBlockHandler :=
  mkRealHandler (with_handler (mkTransactionLog [])) c authority [] 0 consensus_only.

Definition set_votes (self : RealBlockHandler) (v : TransactionAggregator QuorumThreshold TransactionLog)
    : RealBlockHandler :=
  mkRealHandler v (rh_committee self) (rh_authority self) (receiver self) (pending_transactions self)
    (consensus_only self).

(** [receive_with_limit] *)
Definition receive_with_limit (self : RealBlockHandler) : RealBlockHandler * option (list Transaction) :=
  if bool_decide (SOFT_MAX_PROPOSED_PER_BLOCK ≤ pending_transactions self) then (self, None)
  else match receiver self with
  | [] => (self, None)
  | received :: rest =>
      (mkRealHandler (transaction_votes self) (rh_committee self) (rh_authority self) rest
         (u64_add (pending_transactions self) (N.of_nat (length received))) (consensus_only self),
       Some received)
  end.

(** [while let Some(data) = self.receive_with_limit()]: a batch leaves the channel
    in every iteration. *)
Fixpoint receive_loop (fuel : nat) (self : RealBlockHandler) (response : list BaseStatement)
    : RealBlockHandler * list BaseStatement :=
  match fuel with
  | O => (self, response)
  | Datatypes.S fuel =>
      match receive_with_limit self with
      | (self, Some data) => receive_loop fuel self (response ++ (Share <$> data))
      | (self, None) => (self, response)
      end
  end.

Definition receive_all (self : RealBlockHandler) : RealBlockHandler * list BaseStatement :=
  receive_loop (Datatypes.S (length (receiver self))) self [].

(** The metrics of one certified transaction. *)
Definition observe_processed (get_tx : TransactionLocator → outcome (option Transaction))
    (l : TransactionLocator) : outcome unit :=
  otx ← get_tx l;
  tx ← expect otx;
  _ ← extract_timestamp tx;
  Ok tt.

(** One block of [handle_blocks]. *)
Definition handle_block (get_tx : TransactionLocator → outcome (option Transaction))
    (require_response : bool) (st : RealBlockHandler * list BaseStatement) (block : StatementBlock)
    : outcome (RealBlockHandler * list BaseStatement) :=
  let '(self, response) := st in
  if consensus_only self then Ok (self, response)
  else
    '(votes, response_option, processed) ←
      process_block (transaction_votes self) block (if require_response then Some response else None)
        (rh_committee self);
    _ ← foldM (λ _ l, observe_processed get_tx l) tt processed;
    Ok (set_votes self votes, default response response_option).

Definition real_handle_blocks (get_tx : TransactionLocator → outcome (option Transaction))
    (self : RealBlockHandler) (blocks : list StatementBlock) (require_response : bool)
    : outcome (RealBlockHandler * list BaseStatement) :=
  let '(self, response) := if require_response then receive_all self else (self, []) in
  foldM (handle_block get_tx require_response) (self, response) blocks.

(** [handle_proposal]: the count of pending transactions wraps below zero. *)
Definition real_handle_proposal (self : RealBlockHandler) (block : StatementBlock)
    : outcome RealBlockHandler :=
  let self := mkRealHandler (transaction_votes self) (rh_committee self) (rh_authority self)
                (receiver self)
                (u64_sub (pending_transactions self) (N.of_nat (length (shared_transactions block))))
                (consensus_only self) in
  if consensus_only self then Ok self
  else
    votes ← foldM (λ v range, register v range (rh_authority self) (rh_committee self))
              (transaction_votes self) (shared_ranges block);
    Ok (set_votes self votes).

#[global] Instance real_block_handler `{AggregatorCodec QuorumThreshold} : BlockHandler RealBlockHandler := {|
  handle_blocks := real_handle_blocks;
  handle_proposal := real_handle_proposal;
  handler_state self := aggregator_state (transaction_votes self);
  recover_state self state :=
    votes ← with_state (transaction_votes self) state; Ok (set_votes self votes);
  handler_cleanup self := self;
|}.

(** ** The commit observer *)

(** The trait [CommitObserver], for a store [S]. *)
Class CommitObserver (S C : Type) := {
  observer_handle_commit : C → S → list StatementBlock → outcome (C * list CommittedSubDag);
  observer_state : C → list byte;
  recover_committed : C → gset BlockReference → option (list byte) → outcome C;
}.

Section TestCommitHandler.
Context {H : Type} `{ProcessedTransactionHandler H} `{AggregatorCodec QuorumThreshold}.

Record TestCommitHandler := mkCommitHandler {
  commit_interpreter : gset BlockReference;
  ch_votes : TransactionAggregator QuorumThreshold H;
  ch_committee : Committee;
  committed_leaders : list BlockReference;
  ch_consensus_only : bool;
}.

(** One block of a committed sub-dag. *)
Definition commit_block (c : Committee) (consensus_only : bool)
    (votes : TransactionAggregator QuorumThreshold H) (block : StatementBlock)
    : outcome (TransactionAggregator QuorumThreshold H) :=
  votes ← if consensus_only then Ok votes
          else '(votes, _, _) ← process_block votes block None c; Ok votes;
  _ ← foldM (λ _ p, _ ← extract_timestamp p.2; Ok tt) tt (shared_transactions block);
  Ok votes.

Definition commit_handle_commit {S} `{BlockReader S} (self : TestCommitHandler) (s : S)
    (leaders : list StatementBlock) : outcome (TestCommitHandler * list CommittedSubDag) :=
  '(interpreter, committed) ← handle_commit (commit_interpreter self) s leaders;
  votes ← foldM (commit_block (ch_committee self) (ch_consensus_only self)) (ch_votes self)
            (flat_map sub_dag_blocks committed);
  Ok (mkCommitHandler interpreter votes (ch_committee self)
        (committed_leaders self ++ (anchor <$> committed)) (ch_consensus_only self), committed).

Definition commit_recover_committed (self : TestCommitHandler) (committed : gset BlockReference)
    (state : option (list byte)) : outcome TestCommitHandler :=
  _ ← rust_assert (bool_decide (commit_interpreter self = ∅));
  votes ← match state with
          | Some s => with_state (ch_votes self) s
          | None => _ ← rust_assert (bool_decide (committed = ∅)); Ok (ch_votes self)
          end;
  Ok (mkCommitHandler committed votes (ch_committee self) (committed_leaders self)
        (ch_consensus_only self)).

#[global] Instance test_commit_handler {S} `{BlockReader S} : CommitObserver S TestCommitHandler := {|
  observer_handle_commit := commit_handle_commit;
  observer_state self := aggregator_state (ch_votes self);
  recover_committed := commit_recover_committed;
|}.
End TestCommitHandler.
Arguments TestCommitHandler H : clear implicits.

(** ** Receiving transactions *)

Definition batch_total (l : list (list Transaction)) : N := N.of_nat (length (concat l)).

(** The loop takes batches from the front of the channel. *)
Lemma receive_loop_spec fuel : ∀ self response,
  (length (receiver self) < fuel)%nat →
  pending_transactions self + batch_total (receiver self) < u64_modulus →
  ∃ taken rest, receiver self = taken ++ rest ∧
    receive_loop fuel self response =
      (mkRealHandler (transaction_votes self) (rh_committee self) (rh_authority self) rest
         (pending_transactions self + batch_total taken) (consensus_only self),
       response ++ (Share <$> concat taken)) ∧
    (rest = [] ∨ SOFT_MAX_PROPOSED_PER_BLOCK ≤ pending_transactions self + batch_total taken) ∧
    (∀ init b, taken = init ++ [b] →
       pending_transactions self + batch_total init < SOFT_MAX_PROPOSED_PER_BLOCK).
Proof.
  induction fuel as [|fuel IH]; intros self response Hfuel Hsum; [lia|]. cbn [receive_loop].
  assert (Hstop : ∀ rest, receiver self = rest →
    (self, response) = (mkRealHandler (transaction_votes self) (rh_committee self) (rh_authority self)
       rest (pending_transactions self + batch_total []) (consensus_only self),
       response ++ (Share <$> concat []))).
  { intros rest <-. unfold batch_total. cbn. rewrite N.add_0_r, app_nil_r. by destruct self. }
  unfold receive_with_limit. case_bool_decide as Hmax.
  { exists [], (receiver self). split_and!; [done|by apply Hstop| |by intros [] ?].
    right. unfold batch_total. cbn. lia. }
  destruct (receiver self) as [|b batches] eqn:Hrec.
  { exists [], []. split_and!; [done|by apply Hstop|by left|by intros [] ?]. }
  assert (Hb : batch_total (b :: batches) = N.of_nat (length b) + batch_total batches).
  { unfold batch_total. cbn. rewrite length_app. lia. }
  rewrite u64_add_small by lia. cbn in Hfuel.
  edestruct (IH (mkRealHandler (transaction_votes self) (rh_committee self) (rh_authority self) batches
               (pending_transactions self + N.of_nat (length b)) (consensus_only self))
               (response ++ (Share <$> b))) as (taken & rest & Hsplit & Hres & Hend & Hlast);
    [cbn; lia|cbn; lia|]. cbn in Hsplit, Hres, Hend, Hlast.
  assert (Hbt : batch_total (b :: taken) = N.of_nat (length b) + batch_total taken).
  { unfold batch_total. cbn. rewrite length_app. lia. }
  exists (b :: taken), rest. split_and!.
  - by rewrite Hsplit.
  - rewrite Hres. cbn. rewrite fmap_app, <-app_assoc, Hbt, N.add_assoc. done.
  - rewrite Hbt. destruct Hend; [by left|right; lia].
  - intros [|b' init] last_b Heq; injection Heq as <- Heq.
    + unfold batch_total. cbn. lia.
    + specialize (Hlast init last_b Heq).
      assert (batch_total (b :: init) = N.of_nat (length b) + batch_total init) as ->; [|lia].
      unfold batch_total. cbn. rewrite length_app. lia.
Qed.

(** Backpressure of the block handler: asked for transactions,
    [RealBlockHandler] takes whole batches from the front of its channel, shares
    exactly their transactions in order and counts them as pending; it stops when the
    channel is empty or at least [SOFT_MAX_PROPOSED_PER_BLOCK] transactions are
    pending, which before the last batch it took they were not. *)
Theorem receive_all_exact self :
  pending_transactions self + batch_total (receiver self) < u64_modulus →
  ∃ taken rest, receiver self = taken ++ rest ∧
    receive_all self =
      (mkRealHandler (transaction_votes self) (rh_committee self) (rh_authority self) rest
         (pending_transactions self + batch_total taken) (consensus_only self),
       Share <$> concat taken) ∧
    (rest = [] ∨ SOFT_MAX_PROPOSED_PER_BLOCK ≤ pending_transactions self + batch_total taken) ∧
    (∀ init b, taken = init ++ [b] →
       pending_transactions self + batch_total init < SOFT_MAX_PROPOSED_PER_BLOCK).
Proof. intros Hsum. apply (receive_loop_spec _ self []); [lia|done]. Qed.

Definition busy_handler : RealBlockHandler :=
  mkRealHandler (with_handler (mkTransactionLog [])) four_equal 1
    [[mkTransaction [x01]]; [mkTransaction [x02]; mkTransaction [x03]]] 19999 true.

Lemma receive_all_exact_witness :
  receive_all busy_handler =
    (mkRealHandler (with_handler (mkTransactionLog [])) four_equal 1
       [[mkTransaction [x02]; mkTransaction [x03]]] 20000 true,
     [Share (mkTransaction [x01])]).
Proof.
  destruct (receive_all_exact busy_handler eq_refl) as (taken & rest & Hsplit & -> & Hend & Hlast).
  cbn in Hsplit. destruct taken as [|b1 taken]; cbn in Hsplit.
  { subst rest. destruct Hend as [?|Hend]; [done|]. exfalso. revert Hend. by vm_compute. }
  injection Hsplit as <- Hsplit. destruct taken as [|b2 taken]; cbn in Hsplit; [by subst rest|].
  exfalso. destruct (exists_last (l := b2 :: taken)) as (init & b & Heq); [done|].
  specialize (Hlast ([mkTransaction [x01]] :: init) b). rewrite Heq in Hlast. specialize (Hlast eq_refl).
  revert Hlast. unfold batch_total, SOFT_MAX_PROPOSED_PER_BLOCK, busy_handler. cbn [pending_transactions concat].
  rewrite length_app. cbn. lia.
Defined.

(** ** A restarted handler stops receiving

    The count of pending transactions starts at zero also when the pending queue is
    recovered from the log. The first proposal with recovered transactions makes it
    wrap, and nothing is received any more. *)
Lemma restarted_handler_stuck self block self' :
  pending_transactions self = 0 →
  0 < N.of_nat (length (shared_transactions block)) →
  N.of_nat (length (shared_transactions block)) ≤ u64_modulus - SOFT_MAX_PROPOSED_PER_BLOCK →
  real_handle_proposal self block = Ok self' →
  (receive_all self').2 = [].
Proof.
  intros Hz Hpos Hle Hrun.
  assert (Hpend : SOFT_MAX_PROPOSED_PER_BLOCK ≤ pending_transactions self').
  { set (k := N.of_nat (length (shared_transactions block))) in *.
    assert (Hk : u64_sub (pending_transactions self) k = u64_modulus - k).
    { rewrite Hz. unfold u64_sub, SOFT_MAX_PROPOSED_PER_BLOCK in *.
      rewrite u64_modulus_eq in *. rewrite (wrap64_small k), wrap64_small; rewrite ?u64_modulus_eq; lia. }
    revert Hrun. unfold real_handle_proposal. cbn [consensus_only]. fold k.
    destruct (consensus_only self); [intros [= <-]|intros (v & _ & [= <-])%bind_ok];
      cbn [pending_transactions set_votes]; rewrite Hk; lia. }
  unfold receive_all. cbn [receive_loop]. unfold receive_with_limit.
  by rewrite bool_decide_true.
Qed.

(** ** A short transaction stops every validator that commits it

    [verify] does not look into transactions; the commit observer reads the first
    eight bytes of each. *)
Lemma extract_timestamp_short tx : byte_len (tx_data tx) < 8 → extract_timestamp tx = Panic.
Proof. intros Hlen. unfold extract_timestamp. by rewrite (proj2 (N.leb_gt 8 _) Hlen). Qed.

Lemma short_transaction_panics {H} `{ProcessedTransactionHandler H} c (votes : TransactionAggregator QuorumThreshold H)
    (b : StatementBlock) l tx :
  (l, tx) ∈ shared_transactions b → byte_len (tx_data tx) < 8 →
  commit_block c true votes b = Panic.
Proof.
  intros Hin Hlen. unfold commit_block. cbn [mbind outcome_bind].
  assert (Hbad : ∀ u, foldM (λ _ p, _ ← extract_timestamp p.2; Ok tt) u (shared_transactions b) = Panic);
    [|by rewrite Hbad].
  induction (shared_transactions b) as [|[l' tx'] rest IH]; intros u; [by apply elem_of_nil in Hin|].
  cbn [foldM]. cbn [snd].
  apply elem_of_cons in Hin as [Heq|Hin].
  - injection Heq as _ <-. by rewrite extract_timestamp_short.
  - unfold extract_timestamp in IH |- *. destruct (8 <=? byte_len (tx_data tx')); [|done].
    cbn [rust_assert mbind outcome_bind]. by apply IH.
Qed.

Definition short_block : StatementBlock :=
  @new_with_signer toy_crypto 2 1 [mkRef 0 0 0; mkRef 1 0 0; mkRef 2 0 0]
    [Share (mkTransaction [x01])] 9 false 0.

Lemma short_block_verifies_and_panics (votes : TransactionAggregator QuorumThreshold TransactionLog) :
  @verify toy_crypto short_block four_equal = Ok true ∧
  commit_block four_equal true votes short_block = Panic.
Proof.
  split; [by vm_compute|].
  eapply (short_transaction_panics _ _ _ (mkLocator (reference short_block) 0) (mkTransaction [x01])); [|done].
  by left.
Qed.
