(* ===== verification/Syncer.v ===== *)
(** * Syncer: the loop of the core thread
      (mysticeti-core/src/syncer.rs, core_thread/spawned.rs, net_sync.rs)

    The syncer drives a core and a commit observer: received blocks go to the core,
    a new block is proposed when the core is ready or a timeout forces it, and the
    leaders committed with it are linearized by the observer, handed to the core and
    logged. The commands of the core thread are its only entry points. *)

From S2P Require Import Prelude Bytes Types Committee BTree RangeMap Aggregator BlockStore.
From S2P Require Import Linearizer Wal WalLog Recovery BlockAuth BlockManager Consensus.
From S2P Require Import ThresholdClock Epoch Core CoreRecovery CoreSample CoreRuns Handlers.
From Stdlib Require Import Strings.Byte.

(** ** The state *)

(** The trait [SyncerSignals] *)
Class SyncerSignals (Sg : Type) := { new_block_ready : Sg → Sg }.

#[global] Instance bool_signals : SyncerSignals bool := {| new_block_ready _ := true |}.

(** [CoreThreadCommand] without the channels for the answers. *)
Inductive CoreThreadCommand :=
| AddBlocks (blocks : list StatementBlock)
| ForceNewBlock (round : RoundNumber)
| Cleanup
| GetMissing
| ConnectionEstablished (authority : AuthorityIndex)
| ConnectionDropped (authority : AuthorityIndex).

Section Syncer.
Context {Wal H E Sg C : Type} `{WalOps Wal} `{Codec} `{Crypto} `{BlockHandler H} `{PevmExecutor E}.
Context `{SyncerSignals Sg} `{CommitObserver (StoreWriter (Wal := Wal)) C}.

Notation Core := (Core (Wal := Wal) (H := H) (E := E)).

Record Syncer := mkSyncer {
  syncer_core : Core;
  syncer_force : bool;
  commit_period : N;
  signals : Sg;
  commit_observer : C;
  connected_authorities : gset AuthorityIndex;
}.

(** [Syncer::new] *)
Definition Syncer_new (core : Core) (period : N) (sg : Sg) (observer : C) : Syncer :=
  mkSyncer core false period sg observer ∅.

Definition set_core (self : Syncer) (core : Core) : Syncer :=
  mkSyncer core (syncer_force self) (commit_period self) (signals self) (commit_observer self)
    (connected_authorities self).

Definition set_force (self : Syncer) : Syncer :=
  mkSyncer (syncer_core self) true (commit_period self) (signals self) (commit_observer self)
    (connected_authorities self).

Definition set_connected (self : Syncer) (a : gset AuthorityIndex) : Syncer :=
  mkSyncer (syncer_core self) (syncer_force self) (commit_period self) (signals self)
    (commit_observer self) a.

Context (cfg : CoreConfig).

(** ** The operations

    Each returns the committed sub-dags it handed to the core with the new state;
    [now] is the clock at the proposal, [later] at the commit. *)

Definition syncer_commit (self : Syncer) (later : N) : outcome (Syncer * list CommittedSubDag) :=
  '(core, newly_committed) ← core_try_commit cfg (syncer_core self);
  '(observer, committed_subdag) ←
    observer_handle_commit (commit_observer self) (core_writer core) newly_committed;
  core ← match core_pevm_executor core with
         | Some _ => handle_committed_subdag_with_pevm cfg core committed_subdag later
         | None => '(core, _) ← handle_committed_subdag cfg core committed_subdag
                                  (observer_state observer) later;
                   Ok core
         end;
  Ok (mkSyncer core (syncer_force self) (commit_period self) (signals self) observer
        (connected_authorities self), committed_subdag).

Definition syncer_try_new_block (self : Syncer) (now later : N)
    : outcome (Syncer * list CommittedSubDag) :=
  if syncer_force self
     || ready_new_block cfg (syncer_core self) (commit_period self) (connected_authorities self)
  then
    '(core, block) ← core_try_new_block cfg (syncer_core self) now;
    match block with
    | None => Ok (set_core self core, [])
    | Some _ =>
        let self := mkSyncer core false (commit_period self) (new_block_ready (signals self))
                      (commit_observer self) (connected_authorities self) in
        if epoch_closed core then Ok (self, []) else syncer_commit self later
    end
  else Ok (self, []).

Definition syncer_add_blocks (self : Syncer) (blocks : list StatementBlock) (now later : N)
    : outcome (Syncer * list CommittedSubDag) :=
  '(core, _) ← core_add_blocks cfg (syncer_core self) blocks;
  syncer_try_new_block (set_core self core) now later.

Definition force_new_block (self : Syncer) (round : RoundNumber) (now later : N)
    : outcome (Syncer * list CommittedSubDag * bool) :=
  if bool_decide (last_proposed (syncer_core self) = round) then
    '(self, committed) ← syncer_try_new_block (set_force self) now later;
    Ok (self, committed, true)
  else Ok (self, [], false).

(** One iteration of [CoreThread::run]. *)
Definition run_command (self : Syncer) (command : CoreThreadCommand) (now later : N)
    : outcome (Syncer * list CommittedSubDag) :=
  match command with
  | AddBlocks blocks => syncer_add_blocks self blocks now later
  | ForceNewBlock round =>
      '(self, committed, _) ← force_new_block self round now later; Ok (self, committed)
  | Cleanup => Ok (set_core self (core_cleanup (syncer_core self)), [])
  | GetMissing => Ok (self, [])
  | ConnectionEstablished a => Ok (set_connected self ({[a]} ∪ connected_authorities self), [])
  | ConnectionDropped a => Ok (set_connected self (connected_authorities self ∖ {[a]}), [])
  end.

(** The part of [NetworkSyncer::start] before the threads start: the observer
    recovers the committed blocks the core found in its log. *)
Definition start_syncer (core : Core) (period : N) (sg : Sg) (observer : C) (now later : N)
    : outcome (Syncer * list CommittedSubDag) :=
  '(core, (committed, state)) ← take_recovered_committed_blocks core;
  observer ← recover_committed observer committed state;
  '(self, committed, _) ← force_new_block (Syncer_new core period sg observer) 0 now later;
  Ok (self, committed).
End Syncer.
Arguments Syncer : clear implicits.

(** ** What an observer promises *)

(** The references of stored blocks are their keys. *)
Definition references_match {S} `{BlockReader S} (s : S) : Prop :=
  ∀ r b, get_block s r = Some b → reference b = r.

Class CommitObserverLaws (S C : Type) `{BlockReader S} `{CommitObserver S C} := {
  (** The blocks the observer has committed. *)
  observer_committed : C → gset BlockReference;
  observer_commit_spec : ∀ (o : C) (s : S) leaders o' dags,
    references_match s → observer_handle_commit o s leaders = Ok (o', dags) →
    anchor <$> dags = reference <$> leaders ∧
    grown (observer_committed o) (observer_committed o') (flat_map sub_dag_blocks dags);
  observer_recover_spec : ∀ (o : C) committed state o',
    recover_committed (S := S) o committed state = Ok o' → observer_committed o' = committed;
}.

#[global] Instance test_commit_handler_laws {S H} `{BlockReader S} `{ProcessedTransactionHandler H}
    `{AggregatorCodec QuorumThreshold} : CommitObserverLaws S (TestCommitHandler H).
Proof.
  refine {| observer_committed := commit_interpreter |}.
  - intros o s leaders o' dags Hs. cbn. unfold commit_handle_commit.
    intros ([c d] & Hc & Hrun)%bind_ok. apply bind_ok in Hrun as (v & _ & Hrun). injection Hrun as <- <-.
    by apply handle_commit_grown in Hc.
  - intros o committed state o'. cbn. unfold commit_recover_committed.
    intros (? & _ & Hrun)%bind_ok. apply bind_ok in Hrun as (v & _ & Hrun). by injection Hrun as <-.
Defined.

(** ** Runs *)

Section Runs.
Context {Wal H E Sg C : Type} `{WalLaws Wal} `{CodecLaws} `{Crypto} `{BlockHandler H} `{PevmExecutor E}.
Context `{SyncerSignals Sg} {observer_ops : CommitObserver (StoreWriter (Wal := Wal)) C}.
Context {observer_laws : CommitObserverLaws (StoreWriter (Wal := Wal)) C} (cfg : CoreConfig).

Notation Core := (Core (Wal := Wal) (H := H) (E := E)).
Notation Syncer := (Syncer Wal H E Sg C).
Notation event := (log_event (Wal := Wal)).

(** The pending entries that are not in the log, and the commits that are, after a
    command took a syncer from [s] to [s'] and returned [dags]. *)
Definition proposed_by (s s' : Syncer) : bool :=
  negb (bool_decide (last_proposed (syncer_core s') = last_proposed (syncer_core s))).
Definition unlogged_after (n : nat) (s s' : Syncer) : nat := if proposed_by s s' then 0%nat else n.
Definition commits_after (cv : commit_view) (s s' : Syncer) (dags : list CommittedSubDag) : commit_view :=
  if proposed_by s s' && negb (epoch_closed (syncer_core s))
  then view_commits cv (CommitData_from <$> dags) (observer_state (commit_observer s')) else cv.

(** A run from an empty log: commands, and restarts after any further writes but
    that of a commit; no executor is configured. The list holds the blocks handed to
    the core by the commands and starts that completed. *)
Inductive syncer_run : list StatementBlock → nat → Syncer → commit_view → Prop :=
| sr_start wal h period sg o now later core s dags :
    let s0 := Syncer_new core period sg o in
    log_rel wal [] → restart cfg wal h None = Ok core →
    start_syncer cfg core period sg o now later = Ok (s, dags) →
    syncer_run (flat_map sub_dag_blocks dags) (unlogged_after (length (core_pending core)) s0 s) s
      (commits_after (None, ∅, None) s0 s dags)
| sr_command delivered n s cv command now later s' dags :
    syncer_run delivered n s cv → run_command cfg s command now later = Ok (s', dags) →
    syncer_run (delivered ++ flat_map sub_dag_blocks dags) (unlogged_after n s s') s'
      (commits_after cv s s' dags)
| sr_restart delivered n s cv v h period sg o now later core s' dags :
    let s0 := Syncer_new core period sg o in
    syncer_run delivered n s cv →
    rtc event (core_view n (syncer_core s) cv) v → lv_commits v = cv →
    restart cfg (sw_wal (lv_writer v)) h None = Ok core →
    start_syncer cfg core period sg o now later = Ok (s', dags) →
    syncer_run (delivered ++ flat_map sub_dag_blocks dags) (unlogged_after 0 s0 s') s'
      (commits_after cv s0 s' dags).

(** The invariant: the run of the core below, and the agreement of the observer,
    the core and the log on what has been committed. *)
Record syncer_inv (delivered : list StatementBlock) (n : nat) (s : Syncer) (cv : commit_view) : Prop := {
  si_run : ∃ proposed, core_run cfg proposed n (syncer_core s) cv;
  si_executor : core_pevm_executor (syncer_core s) = None;
  si_leader : core_last_commit_leader (syncer_core s) = default (mkRef 0 0 0) cv.1.1;
  si_observer : observer_committed (commit_observer s) = cv.1.2;
  si_delivered : grown ∅ cv.1.2 delivered;
}.

(** *** The fields the core operations keep *)

Definition same_commits (self self' : Core) : Prop :=
  core_pevm_executor self' = core_pevm_executor self ∧
  core_last_commit_leader self' = core_last_commit_leader self ∧
  core_epoch_manager self' = core_epoch_manager self.

Lemma run_block_handler_commits (self : Core) l self' :
  run_block_handler self l = Ok self' → same_commits self self'.
Proof.
  unfold run_block_handler. intros ([h st] & _ & Hrun)%bind_ok.
  apply bind_ok in Hrun as ([w p] & _ & Hrun). by injection Hrun as <-.
Qed.

Lemma add_blocks_commits (self : Core) blocks self' out :
  core_add_blocks cfg self blocks = Ok (self', out) → same_commits self self'.
Proof.
  unfold core_add_blocks. intros ([[mgr w] processed] & _ & Hrun)%bind_ok.
  apply bind_ok in Hrun as ([clock pending] & _ & Hrun).
  apply bind_ok in Hrun as (self1 & Hh & Hrun). injection Hrun as -> _.
  by apply run_block_handler_commits in Hh.
Qed.

Lemma new_block_commits (self : Core) now self' b :
  core_try_new_block cfg self now = Ok (self', Some b) →
  same_commits self self' ∧ last_proposed self ≠ last_proposed self'.
Proof.
  unfold core_try_new_block. case_bool_decide as Hround; [done|].
  intros (refs & _ & Hrun)%bind_ok. apply bind_ok in Hrun as (first & _ & Hrun).
  do 2 apply bind_ok in Hrun as (? & _ & Hrun).
  apply bind_ok in Hrun as (clock & _ & Hrun). apply bind_ok in Hrun as (h & _ & Hrun).
  apply bind_ok in Hrun as (w & _ & Hrun). apply bind_ok in Hrun as (? & _ & Hrun).
  injection Hrun as <- _. split; [done|]. unfold last_proposed at 2. cbn. lia.
Qed.

Lemma try_commit_leader (self : Core) self' leaders :
  core_try_commit cfg self = Ok (self', leaders) →
  core_pevm_executor self' = core_pevm_executor self ∧
  core_last_commit_leader self' = default (core_last_commit_leader self) (last (reference <$> leaders)).
Proof.
  unfold core_try_commit. intros (st & _ & Hrun)%bind_ok. apply bind_ok in Hrun as (d & _ & Hrun).
  injection Hrun as <- <-. cbn. rewrite fmap_last. split; [done|]. by destruct (last (omap id d)).
Qed.

Lemma handle_committed_commits (self : Core) committed state now self' data :
  handle_committed_subdag cfg self committed state now = Ok (self', data) →
  data = CommitData_from <$> committed ∧ core_pevm_executor self' = core_pevm_executor self ∧
  core_last_commit_leader self' = core_last_commit_leader self ∧
  last_proposed self' = last_proposed self.
Proof.
  unfold handle_committed_subdag. intros (s1 & Hobs & Hrun)%bind_ok.
  apply bind_ok in Hrun as (s2 & Hst & Hrun). apply bind_ok in Hrun as (s3 & Hco & Hrun).
  injection Hrun as <- <-. unfold observe_commits in Hobs. apply bind_ok in Hobs as (m & _ & Hobs).
  unfold write_state in Hst. apply bind_ok in Hst as ([w2 p2] & _ & Hst).
  unfold write_commits in Hco. apply bind_ok in Hco as ([w3 p3] & _ & Hco).
  injection Hobs as <-. injection Hst as <-. injection Hco as <-. split_and!; done.
Qed.

(** The commit entry of a list of sub-dags. *)
Lemma view_commits_dags cv dags state :
  view_commits cv (CommitData_from <$> dags) state =
    (from_option Some cv.1.1 (last (anchor <$> dags)),
     cv.1.2 ∪ list_to_set (reference <$> flat_map sub_dag_blocks dags), Some state).
Proof.
  unfold view_commits. f_equal. destruct cv as [[l c] st]. cbn [fst snd]. clear st.
  revert l c. induction dags as [|d dags IH]; intros l c; cbn [fmap list_fmap foldl flat_map].
  - f_equal. set_solver.
  - rewrite IH, fmap_app, list_to_set_app_L, union_assoc_L. f_equal.
    rewrite last_cons. by destruct (last (anchor <$> dags)).
Qed.

Lemma run_references_match proposed n (self : Core) cv :
  core_run cfg proposed n self cv → references_match (core_writer self).
Proof.
  intros Hrun. destruct (core_run_inv cfg _ _ _ _ Hrun) as [(l & bld & Hs) _ _ _ _].
  destruct Hs as [Hl _ _ _ _ _ _ He]. cbn [core_view lv_writer] in *. intros r b. cbn. unfold writer_get_block, store_get_block.
  destruct (inner_get_block (sw_store (core_writer self)) r) as [e|] eqn:Hget; [|done].
  destruct (He r e Hget) as (b' & He' & <-). destruct (entry_logged_denotes _ _ _ _ Hl He') as [-> _].
  cbn. congruence.
Qed.

(** *** The steps *)

Lemma inv_core_op delivered n (s : Syncer) cv received new n' core' :
  syncer_inv delivered n s cv → core_op cfg n (syncer_core s) cv received new n' core' cv →
  core_pevm_executor core' = core_pevm_executor (syncer_core s) →
  core_last_commit_leader core' = core_last_commit_leader (syncer_core s) →
  syncer_inv delivered n' (set_core s core') cv.
Proof.
  intros [[proposed Hrun] Hx Hl Ho Hd] Hop Hx' Hl'. split; cbn; [|congruence|congruence|done|done].
  eexists. by eapply run_op.
Qed.

Lemma commit_inv delivered n (s : Syncer) cv later s' dags :
  syncer_inv delivered n s cv → syncer_commit cfg s later = Ok (s', dags) →
  syncer_inv (delivered ++ flat_map sub_dag_blocks dags) n s'
    (view_commits cv (CommitData_from <$> dags) (observer_state (commit_observer s'))) ∧
  last_proposed (syncer_core s') = last_proposed (syncer_core s).
Proof.
  intros [[proposed Hrun] Hx Hl Ho Hd]. unfold syncer_commit.
  intros ([core1 leaders] & Hc & Hs)%bind_ok. apply bind_ok in Hs as ([o d] & Hobs & Hs).
  destruct (try_commit_leader _ _ _ Hc) as [Hx1 Hl1].
  rewrite Hx1, Hx in Hs. apply bind_ok in Hs as (core2 & Hh & Hs). injection Hs as <- ->.
  apply bind_ok in Hh as ([core3 data] & Hh & Hs). injection Hs as ->.
  destruct (handle_committed_commits _ _ _ _ _ _ Hh) as (-> & Hx2 & Hl2 & Hp2).
  pose proof (run_op cfg _ _ _ _ _ _ _ _ _ Hrun (op_try_commit cfg _ _ _ _ _ Hc)) as Hrun1.
  pose proof (run_op cfg _ _ _ _ _ _ _ _ _ Hrun1 (op_committed cfg _ _ _ _ _ _ _ _ Hh)) as Hrun2.
  apply observer_commit_spec in Hobs as [Ha Hg]; [|by eapply run_references_match].
  destruct (try_commit_view _ _ _ _ Hc) as (_ & _ & Hown & _).
  split; [|unfold last_proposed in *; cbn; by rewrite Hp2, Hown].
  rewrite Ho in Hg. pose proof Hg as (Heq & _ & _).
  split; cbn [syncer_core commit_observer]; [by eexists|congruence|..];
    rewrite view_commits_dags; cbn [fst snd].
  - rewrite Hl2, Hl1, <-Ha, Hl. by destruct (last (anchor <$> dags)).
  - rewrite Heq. apply union_comm_L.
  - rewrite union_comm_L, <-Heq. eapply grown_app; [exact Hd|exact Hg].
Qed.

Lemma after_same n cv (s s' : Syncer) :
  last_proposed (syncer_core s') = last_proposed (syncer_core s) →
  unlogged_after n s s' = n ∧ ∀ dags, commits_after cv s s' dags = cv.
Proof.
  intros Heq. unfold commits_after, unlogged_after, proposed_by. by rewrite bool_decide_true.
Qed.

Lemma after_from n cv (s1 s2 s' : Syncer) dags :
  last_proposed (syncer_core s1) = last_proposed (syncer_core s2) →
  core_epoch_manager (syncer_core s1) = core_epoch_manager (syncer_core s2) →
  unlogged_after n s1 s' = unlogged_after n s2 s' ∧
  commits_after cv s1 s' dags = commits_after cv s2 s' dags.
Proof.
  intros Hp He. unfold commits_after, unlogged_after, proposed_by, epoch_closed. by rewrite Hp, He.
Qed.

Lemma try_new_block_inv delivered n (s : Syncer) cv now later s' dags :
  syncer_inv delivered n s cv → syncer_try_new_block cfg s now later = Ok (s', dags) →
  syncer_inv (delivered ++ flat_map sub_dag_blocks dags) (unlogged_after n s s') s'
    (commits_after cv s s' dags).
Proof.
  intros Hinv. unfold syncer_try_new_block.
  destruct (_ || _); [|intros [= <- <-]; destruct (after_same n cv s s eq_refl) as [-> ->];
                       cbn; by rewrite app_nil_r].
  intros ([core [b|]] & Hnew & Hs)%bind_ok.
  - destruct (new_block_commits _ _ _ _ Hnew) as [(Hx & Hl & He) Hp].
    set (s1 := mkSyncer core false _ _ _ _) in Hs.
    assert (Hinv1 : syncer_inv delivered 0 s1 cv).
    { pose proof (inv_core_op _ _ _ _ _ _ _ _ Hinv (op_new_block cfg _ _ _ _ _ _ Hnew) Hx Hl) as [].
      by split. }
    unfold commits_after, unlogged_after, proposed_by.
    destruct (epoch_closed core) eqn:Hcl; unfold epoch_closed in *; rewrite He in Hcl.
    + injection Hs as <- <-. cbn. rewrite bool_decide_false, Hcl, app_nil_r by congruence. done.
    + destruct (commit_inv _ _ _ _ _ _ _ Hinv1 Hs) as [Hinv2 Hp2]. cbn in Hp2.
      rewrite bool_decide_false, Hcl by congruence. done.
  - apply try_new_block_None in Hnew as ->. injection Hs as <- <-.
    destruct (after_same n cv s (set_core s (syncer_core s)) eq_refl) as [-> ->].
    cbn. rewrite app_nil_r. destruct Hinv. by split.
Qed.

Lemma force_new_block_inv delivered n (s : Syncer) cv round now later s' dags f :
  syncer_inv delivered n s cv → force_new_block cfg s round now later = Ok (s', dags, f) →
  syncer_inv (delivered ++ flat_map sub_dag_blocks dags) (unlogged_after n s s') s'
    (commits_after cv s s' dags).
Proof.
  intros Hinv. unfold force_new_block. case_bool_decide.
  - intros ([s1 d] & Hn & Hs)%bind_ok. injection Hs as <- <- _.
    eapply try_new_block_inv in Hn; [|split; apply Hinv]. exact Hn.
  - intros [= <- <- _]. destruct (after_same n cv s s eq_refl) as [-> ->]. cbn. by rewrite app_nil_r.
Qed.

Lemma command_inv delivered n (s : Syncer) cv command now later s' dags :
  syncer_inv delivered n s cv → run_command cfg s command now later = Ok (s', dags) →
  syncer_inv (delivered ++ flat_map sub_dag_blocks dags) (unlogged_after n s s') s'
    (commits_after cv s s' dags).
Proof.
  intros Hinv. assert (Hquiet : ∀ s1 : Syncer, syncer_inv delivered n s1 cv →
    last_proposed (syncer_core s1) = last_proposed (syncer_core s) →
    syncer_inv (delivered ++ flat_map sub_dag_blocks []) (unlogged_after n s s1) s1 (commits_after cv s s1 [])).
  { intros s1 Hs1 Hp. destruct (after_same n cv s s1 Hp) as [-> ->]. cbn. by rewrite app_nil_r. }
  destruct command as [blocks|round| | |a|a]; cbn [run_command].
  - unfold syncer_add_blocks. intros ([core out] & Hadd & Hs)%bind_ok.
    destruct (add_blocks_commits _ _ _ _ Hadd) as (Hx & Hl & He).
    pose proof (inv_core_op _ _ _ _ _ _ _ _ Hinv (op_add_blocks cfg _ _ _ _ _ _ Hadd) Hx Hl) as Hinv1.
    apply (try_new_block_inv _ _ _ _ _ _ _ _ Hinv1) in Hs.
    destruct Hinv as [[proposed Hrun] _ _ _ _].
    apply (core_add_blocks_events _ _ _ _ _ n cv) in Hadd as (_ & Hown & _);
      [|apply (core_run_inv cfg _ _ _ _ Hrun)].
    destruct (after_from n cv s (set_core s core) s' dags) as [-> ->];
      [unfold last_proposed; cbn; by rewrite Hown|by symmetry|done].
  - intros ([[s1 d] f] & Hf & Hs)%bind_ok. injection Hs as <- <-. by eapply force_new_block_inv.
  - intros [= <- <-]. apply Hquiet; [|done]. by eapply inv_core_op; [|apply op_cleanup|..].
  - intros [= <- <-]. by apply Hquiet.
  - intros [= <- <-]. apply Hquiet; [|done]. destruct Hinv. by split.
  - intros [= <- <-]. apply Hquiet; [|done]. destruct Hinv. by split.
Qed.

(** *** Starting *)

Lemma restart_fields (wal : Wal) h e (core : Core) :
  restart cfg wal h e = Ok core →
  ∃ rs, store_open (cc_authority cfg) wal (cc_committee cfg) = Ok rs ∧
    core_recovered_committed_blocks core = Some (rs_committed_blocks rs, rs_committed_state rs) ∧
    core_last_commit_leader core = default (mkRef 0 0 0) (rs_last_committed_leader rs) ∧
    core_pevm_executor core = e.
Proof.
  unfold restart, core_open. intros (rs & Hrs & Hrun)%bind_ok. exists rs. split; [done|].
  apply bind_ok in Hrun as ([[[clock w] pending] own] & _ & Hrun).
  apply bind_ok in Hrun as (h' & _ & Hrun).
  destruct (rs_unprocessed_blocks rs); [by injection Hrun as <-|]. unfold run_block_handler in Hrun.
  apply bind_ok in Hrun as ([h2 st] & _ & Hrun). apply bind_ok in Hrun as ([w2 p2] & _ & Hrun).
  by injection Hrun as <-.
Qed.

(** What a restarted core knows of the commits in its log. *)
Lemma restart_commits w pending own cv h (core : Core) :
  logged (cc_authority cfg) (cc_committee cfg) w pending own cv →
  restart cfg (sw_wal w) h None = Ok core →
  core_recovered_committed_blocks core = Some (cv.1.2, cv.2) ∧
  core_last_commit_leader core = default (mkRef 0 0 0) cv.1.1 ∧ core_pevm_executor core = None.
Proof.
  intros Hl Hrun. destruct (restart_fields _ _ _ _ Hrun) as (rs & Hrs & Hc & Hlead & Hx).
  pose proof Hrs as Hit. unfold store_open in Hit. apply bind_ok in Hit as (items & Hit & _).
  destruct (store_open_logged _ _ _ _ _ _ _ Hl Hit) as (rs' & Hrs' & _ & _ & <- & _).
  rewrite Hrs in Hrs'. injection Hrs' as <-. done.
Qed.

Lemma start_syncer_inv delivered proposed n (core : Core) cv period sg o now later s dags :
  let s0 := Syncer_new core period sg o in
  core_run cfg proposed n core cv → grown ∅ cv.1.2 delivered →
  core_recovered_committed_blocks core = Some (cv.1.2, cv.2) →
  core_last_commit_leader core = default (mkRef 0 0 0) cv.1.1 → core_pevm_executor core = None →
  start_syncer cfg core period sg o now later = Ok (s, dags) →
  syncer_inv (delivered ++ flat_map sub_dag_blocks dags) (unlogged_after n s0 s) s
    (commits_after cv s0 s dags).
Proof.
  intros s0 Hrun Hg Hr Hl Hx. unfold start_syncer.
  intros ([core1 [committed state]] & Ht & Hs)%bind_ok. apply bind_ok in Hs as (o1 & Ho & Hs).
  apply bind_ok in Hs as ([[s1 d] f] & Hf & Hs). injection Hs as <- <-.
  pose proof (run_op cfg _ _ _ _ _ _ _ _ _ Hrun (op_take_recovered cfg _ _ _ _ _ Ht)) as Hrun1.
  apply observer_recover_spec in Ho. unfold take_recovered_committed_blocks in Ht.
  rewrite Hr in Ht. injection Ht as <- <- <-.
  eapply force_new_block_inv in Hf; [|split; [by eexists|done|done|exact Ho|exact Hg]].
  exact Hf.
Qed.

Lemma syncer_run_inv delivered n (s : Syncer) cv :
  syncer_run delivered n s cv → syncer_inv delivered n s cv.
Proof.
  induction 1 as [wal h period sg o now later core s dags s0 Hwal Hrun Hs
    |delivered n s cv command now later s' dags _ IH Hs
    |delivered n s cv v h period sg o now later core s' dags s0 _ IH Hev Hcv Hrun Hs].
  - destruct (restart_commits (mkStoreWriter wal (BlockStoreInner_new (cc_authority cfg) (cc_committee cfg)))
                [] None (None, ∅, None) h core) as (Hr & Hl & Hx); [by apply logged_nil|done|].
    eapply (start_syncer_inv [] _ _ _ (None, ∅, None)) in Hs;
      [exact Hs|by eapply run_start|apply grown_nil|done|done|done].
  - by eapply command_inv.
  - destruct IH as [[proposed Hcore] Hx Hl Ho Hd].
    destruct (core_run_inv cfg _ _ _ _ Hcore) as [Hlog _ _ _ _].
    pose proof (events_logged _ _ _ _ Hev Hlog) as Hv.
    destruct (restart_commits _ _ _ _ h core Hv Hrun) as (Hr & Hl' & Hx').
    pose proof (run_restart cfg _ _ _ _ _ _ _ _ Hcore Hev Hrun) as Hrun'.
    rewrite Hcv in *. by eapply start_syncer_inv.
Qed.
End Runs.

(** ** A run of the sample validator

    Three peers build rounds on each other's blocks; the validator commits the leader
    of round 6, restarts, and commits the leader of round 9. *)

#[local] Instance sample_votes : AggregatorCodec QuorumThreshold :=
  {| votes_bytes _ := []; votes_from_bytes _ := Some ∅ |}.

Notation sample_observer := (TestCommitHandler (gset TransactionLocator)).
Notation sample_syncer := (Syncer WalWriter N N bool sample_observer).

Definition fresh_observer : sample_observer := mkCommitHandler ∅ (with_handler ∅) four_equal [] false.

Definition peer_block (round : RoundNumber) (prev : list BlockReference) (a : AuthorityIndex)
    : StatementBlock :=
  new_with_signer a round
    (filter (λ r, br_authority r = a) prev ++ filter (λ r, br_authority r ≠ a) prev) [] 5 false (0 : Signer).

Fixpoint peer_rounds (k : nat) : list BlockReference * list CoreThreadCommand :=
  match k with
  | O => ((λ a, mkRef a 0 a) <$> [0; 1; 2], [])
  | Datatypes.S k =>
      let '(prev, l) := peer_rounds k in
      let bs := peer_block (N.of_nat (Datatypes.S k)) prev <$> [0; 1; 2] in
      (reference <$> bs, l ++ [AddBlocks bs])
  end.

Section Commands.
Context {Wal H E Sg C : Type} `{WalLaws Wal} `{CodecLaws} `{Crypto} `{BlockHandler H} `{PevmExecutor E}.
Context `{SyncerSignals Sg} {observer_ops : CommitObserver (StoreWriter (Wal := Wal)) C}.
Context {observer_laws : CommitObserverLaws (StoreWriter (Wal := Wal)) C} (cfg : CoreConfig).

(** The commands the core thread receives, one after the other. *)
Definition run_commands (st : Syncer Wal H E Sg C * list CommittedSubDag) (now later : N)
    (commands : list CoreThreadCommand) : outcome (Syncer Wal H E Sg C * list CommittedSubDag) :=
  foldM (λ '(s, dags) command,
           '(s, new) ← run_command cfg s command now later; Ok (s, dags ++ new)) st commands.

Lemma run_commands_run now later commands : ∀ delivered n s cv dags s' dags',
  syncer_run cfg (delivered ++ flat_map sub_dag_blocks dags) n s cv →
  run_commands (s, dags) now later commands = Ok (s', dags') →
  ∃ n' cv', syncer_run cfg (delivered ++ flat_map sub_dag_blocks dags') n' s' cv'.
Proof.
  induction commands as [|cmd commands IH]; intros delivered n s cv dags s' dags' Hrun Hf;
    unfold run_commands in Hf; cbn [foldM] in Hf; [injection Hf as <- <-; eauto|].
  apply bind_ok in Hf as ([s1 dags1] & Hstep & Hf). apply bind_ok in Hstep as ([s2 new] & Hc & Hstep).
  injection Hstep as <- <-. eapply IH; [|exact Hf].
  rewrite flat_map_app, app_assoc. by eapply sr_command.
Qed.
End Commands.

Definition sample_boot (wal : WalWriter) (e : option N) : outcome (sample_syncer * list CommittedSubDag) :=
  core ← restart sample_cfg wal 0 e; start_syncer sample_cfg core 1 false fresh_observer 7 8.

Definition no_syncer : sample_syncer := Syncer_new closed_core 0 false fresh_observer.

Definition sample_started : sample_syncer * list CommittedSubDag :=
  ok_or (no_syncer, []) (start_syncer sample_cfg run_core0 1 false fresh_observer 7 8).
Definition sample_first : sample_syncer * list CommittedSubDag :=
  ok_or (no_syncer, []) (run_commands sample_cfg sample_started 7 8 (peer_rounds 8).2).
Definition sample_core1 : sample_core :=
  ok_or closed_core (restart sample_cfg (sw_wal (core_writer (syncer_core sample_first.1))) 0 None).
Definition sample_restarted : sample_syncer * list CommittedSubDag :=
  ok_or (no_syncer, []) (start_syncer sample_cfg sample_core1 1 false fresh_observer 7 8).
Definition sample_second : sample_syncer * list CommittedSubDag :=
  ok_or (no_syncer, []) (run_commands sample_cfg sample_restarted 7 8 (drop 8 (peer_rounds 12).2)).
Definition sample_delivered : list StatementBlock :=
  flat_map sub_dag_blocks sample_first.2 ++ flat_map sub_dag_blocks sample_second.2.

Lemma sample_started_eq : start_syncer sample_cfg run_core0 1 false fresh_observer 7 8 =
  Ok (sample_started.1, sample_started.2).
Proof. rewrite <-surjective_pairing. apply ok_or_eq. vm_compute. reflexivity. Qed.

Lemma sample_first_eq :
  run_commands sample_cfg (sample_started.1, sample_started.2) 7 8 (peer_rounds 8).2 =
  Ok (sample_first.1, sample_first.2).
Proof. rewrite <-!surjective_pairing. apply ok_or_eq. vm_compute. reflexivity. Qed.

Lemma sample_core1_eq :
  restart sample_cfg (sw_wal (core_writer (syncer_core sample_first.1))) 0 None = Ok sample_core1.
Proof. apply ok_or_eq. vm_compute. reflexivity. Qed.

Lemma sample_restarted_eq : start_syncer sample_cfg sample_core1 1 false fresh_observer 7 8 =
  Ok (sample_restarted.1, sample_restarted.2).
Proof. rewrite <-surjective_pairing. apply ok_or_eq. vm_compute. reflexivity. Qed.

Lemma sample_second_eq :
  run_commands sample_cfg (sample_restarted.1, sample_restarted.2) 7 8 (drop 8 (peer_rounds 12).2) =
  Ok (sample_second.1, sample_second.2).
Proof. rewrite <-!surjective_pairing. apply ok_or_eq. vm_compute. reflexivity. Qed.

Lemma sample_syncer_run : ∃ n cv, syncer_run sample_cfg sample_delivered n sample_second.1 cv.
Proof.
  pose proof (sr_start sample_cfg _ _ _ _ _ _ _ _ _ _ sample_log_nil run_core0_eq sample_started_eq) as R0.
  destruct (run_commands_run sample_cfg 7 8 (peer_rounds 8).2 [] _ _ _ _ _ _ R0 sample_first_eq)
    as (n1 & cv1 & R1).
  pose proof (sr_restart sample_cfg _ _ _ _ _ _ _ _ _ _ _ _ _ _ R1 (rtc_refl _ _) eq_refl
                sample_core1_eq sample_restarted_eq) as R2.
  exact (run_commands_run sample_cfg 7 8 _ _ _ _ _ _ _ _ R2 sample_second_eq).
Qed.



(** ** With an executor the commits are not logged

    [handle_committed_subdag_with_pevm] writes no commit entry: the restarted
    validator commits and executes the same blocks again. *)
Definition executed_first : sample_syncer * list CommittedSubDag :=
  ok_or (no_syncer, [])
    (st ← sample_boot (mkWalWriter [] 0) (Some 0); run_commands sample_cfg st 7 8 (peer_rounds 8).2).
Definition executed_again : sample_syncer * list CommittedSubDag :=
  ok_or (no_syncer, [])
    (st ← sample_boot (sw_wal (core_writer (syncer_core executed_first.1))) (Some 0);
     run_commands sample_cfg st 7 8 (drop 8 (peer_rounds 9).2)).

Lemma executor_commits_forgotten :
  length (flat_map sub_dag_blocks executed_first.2) = 19%nat ∧ executed_again.2 = executed_first.2.
Proof. vm_compute. auto. Qed.
