(* ===== verification/Graph.v ===== *)
(** * Dependency graph of transactions

    Models the data and the construction half of
    src/pevm/crates/pevm/src/dependency_graph.rs: key sets and their merge scan,
    nodes, [add_node], [has_edge], [add_edge], [add_transaction] and
    [integrate_graph]. A [HashSet] or [HashMap] key iteration visits its elements
    in an unspecified order: the operations take that order from the class
    [HashOrder], and the theorems hold for every order. *)

From Stdlib Require Import SpecFloat.
From S2P Require Import Prelude.

(** ** Iteration order of hash sets *)

Class HashOrder (A : Type) `{Countable A} := {
  hash_iter : gset A → list A;
  hash_iter_perm : ∀ X, hash_iter X ≡ₚ elements X }.

Definition elements_order (A : Type) `{Countable A} : HashOrder A :=
  {| hash_iter := elements; hash_iter_perm := λ _, Permutation_refl _ |}.

Lemma elem_of_hash_iter `{HashOrder A} (X : gset A) x : x ∈ hash_iter X ↔ x ∈ X.
Proof. rewrite hash_iter_perm. apply elem_of_elements. Qed.

Lemma hash_iter_nodup `{HashOrder A} (X : gset A) : NoDup (hash_iter X).
Proof. rewrite hash_iter_perm. apply NoDup_elements. Qed.

(** ** Key sets *)

Definition KeySet : Type := list N.

(** The merge scan; every iteration advances one of the two indices. *)
Fixpoint sorted_is_disjoint_loop (fuel : nat) (a b : KeySet) : outcome bool :=
  match fuel with
  | O => OutOfFuel
  | S fuel =>
      match a, b with
      | x :: a', y :: b' =>
          if bool_decide (x = y) then Ok false
          else if bool_decide (x < y) then sorted_is_disjoint_loop fuel a' b
          else sorted_is_disjoint_loop fuel a b'
      | _, _ => Ok true
      end
  end.

Definition sorted_is_disjoint (a b : KeySet) : outcome bool :=
  sorted_is_disjoint_loop (S (length a + length b)) a b.

(** ** Nodes *)

Record TransactionId := mkTxId { tid_id : N; tid_replica : N }.

#[global] Instance TransactionId_eq_dec : EqDecision TransactionId.
Proof. solve_decision. Defined.
#[global] Instance TransactionId_countable : Countable TransactionId.
Proof.
  by apply (inj_countable' (λ t, (tid_id t, tid_replica t)) (λ '(i, r), mkTxId i r)); intros [].
Defined.

Record TransactionNode := mkNode {
  node_id : N;
  node_replica : N;
  node_round : N;
  gas_cost : N;
  read_set : KeySet;
  write_set : KeySet;
  longest_suffix : N;
  children_indices : list nat;
  parent_indices : list nat }.

Definition transaction_id (n : TransactionNode) : TransactionId :=
  mkTxId (node_id n) (node_replica n).

Definition TransactionNode_new (id replica round gas : N) (reads writes : gset N) : TransactionNode :=
  mkNode id replica round gas
    (merge_sort N.le (elements reads)) (merge_sort N.le (elements writes)) gas [] [].

Definition push_child (n : TransactionNode) (c : nat) : TransactionNode :=
  mkNode (node_id n) (node_replica n) (node_round n) (gas_cost n) (read_set n) (write_set n)
    (longest_suffix n) (children_indices n ++ [c]) (parent_indices n).
Definition push_parent (n : TransactionNode) (p : nat) : TransactionNode :=
  mkNode (node_id n) (node_replica n) (node_round n) (gas_cost n) (read_set n) (write_set n)
    (longest_suffix n) (children_indices n) (parent_indices n ++ [p]).
Definition with_links (n : TransactionNode) (cs ps : list nat) : TransactionNode :=
  mkNode (node_id n) (node_replica n) (node_round n) (gas_cost n) (read_set n) (write_set n)
    (longest_suffix n) cs ps.
Definition with_suffix (n : TransactionNode) (s : N) : TransactionNode :=
  mkNode (node_id n) (node_replica n) (node_round n) (gas_cost n) (read_set n) (write_set n)
    s (children_indices n) (parent_indices n).

Record HeapEntry := mkHeapEntry { he_suffix : N; he_tx_id : TransactionId }.

Record ThreadState := mkThread {
  thread_id : nat;
  current_transaction : option TransactionId;
  completion_time : N;
  completed_transactions : list TransactionId }.

Record KeyAccessSpan := mkSpan {
  span_key : N;
  earliest_start : N;
  latest_finish : N;
  access_count : N }.

(** [f64] values are [spec_float] at binary64 precision. *)
Record SimulationResult := mkResult {
  total_time : N;
  thread_results : list ThreadState;
  execution_order : list (nat * TransactionId * N * N);
  standard_deviation : spec_float;
  coefficient_of_variation : spec_float;
  sum_completion_times : N;
  key_access_spans : gmap N KeyAccessSpan }.

Record TransactionGraph := mkGraph {
  nodes : list TransactionNode;
  id_to_index : gmap TransactionId nat;
  head_txns : gmap N TransactionId;
  tail_txns : gmap N TransactionId;
  txns_without_parent : list HeapEntry;
  simulation_result : option SimulationResult;
  temp_parents : list N;
  hot_key_threshold : spec_float;
  hot_keys : gset N }.

Definition with_nodes (g : TransactionGraph) (l : list TransactionNode) : TransactionGraph :=
  mkGraph l (id_to_index g) (head_txns g) (tail_txns g) (txns_without_parent g)
    (simulation_result g) (temp_parents g) (hot_key_threshold g) (hot_keys g).
Definition with_ids (g : TransactionGraph) (m : gmap TransactionId nat) : TransactionGraph :=
  mkGraph (nodes g) m (head_txns g) (tail_txns g) (txns_without_parent g)
    (simulation_result g) (temp_parents g) (hot_key_threshold g) (hot_keys g).
Definition with_ends (g : TransactionGraph) (heads tails : gmap N TransactionId) : TransactionGraph :=
  mkGraph (nodes g) (id_to_index g) heads tails (txns_without_parent g)
    (simulation_result g) (temp_parents g) (hot_key_threshold g) (hot_keys g).

(** 1.5 *)
Definition default_hot_key_threshold : spec_float := S754_finite false 6755399441055744 (-52).

Definition TransactionGraph_new : TransactionGraph :=
  mkGraph [] ∅ ∅ ∅ [] None [] default_hot_key_threshold ∅.

Definition set_hot_key_threshold (g : TransactionGraph) (t : spec_float) : TransactionGraph :=
  mkGraph (nodes g) (id_to_index g) (head_txns g) (tail_txns g) (txns_without_parent g)
    (simulation_result g) (temp_parents g) t (hot_keys g).

(** The [String] errors, by their cause. *)
Inductive GraphError :=
| ParentNotFound (id : TransactionId)
| ChildNotFound (id : TransactionId)
| AlreadyExists (id : TransactionId).

Definition get_node (g : TransactionGraph) (tx_id : TransactionId) : outcome (option TransactionNode) :=
  match id_to_index g !! tx_id with
  | None => Ok None
  | Some idx => Some <$> expect (nodes g !! idx)
  end.

Definition add_node (g : TransactionGraph) (node : TransactionNode) : TransactionGraph * nat :=
  let g := with_nodes g (nodes g ++ [node]) in
  let index := (length (nodes g) - 1)%nat in
  (with_ids g (<[transaction_id node := index]> (id_to_index g)), index).

Definition has_edge (g : TransactionGraph) (parent_id child_id : TransactionId)
    : outcome (GraphError + bool) :=
  match id_to_index g !! parent_id with
  | None => Ok (inl (ParentNotFound parent_id))
  | Some parent_idx =>
      match id_to_index g !! child_id with
      | None => Ok (inl (ChildNotFound child_id))
      | Some child_idx =>
          parent ← expect (nodes g !! parent_idx);
          Ok (inr (bool_decide (child_idx ∈ children_indices parent)))
      end
  end.

Definition add_edge (g : TransactionGraph) (parent_id child_id : TransactionId)
    : outcome (GraphError + TransactionGraph) :=
  match id_to_index g !! parent_id with
  | None => Ok (inl (ParentNotFound parent_id))
  | Some parent_idx =>
      match id_to_index g !! child_id with
      | None => Ok (inl (ChildNotFound child_id))
      | Some child_idx =>
          parent ← expect (nodes g !! parent_idx);
          if bool_decide (child_idx ∈ children_indices parent) then Ok (inr g)
          else
            let g := with_nodes g (<[parent_idx := push_child parent child_idx]> (nodes g)) in
            child ← expect (nodes g !! child_idx);
            Ok (inr (with_nodes g (<[child_idx := push_parent child parent_idx]> (nodes g))))
      end
  end.

(** ** add_transaction *)

(** Step 2 for one address. *)
Definition find_parent (g : TransactionGraph) (node : TransactionNode)
    (parents : gset TransactionId) (addr : N) : outcome (gset TransactionId) :=
  match tail_txns g !! addr with
  | None => Ok parents
  | Some tail_tx_id =>
      tail_node ← get_node g tail_tx_id;
      match tail_node with
      | None => Ok parents
      | Some tail_node =>
          disjoint ← sorted_is_disjoint (write_set tail_node) (write_set node);
          Ok (if (negb disjoint : bool) then {[tail_tx_id]} ∪ parents else parents)
      end
  end.

(** Step 3: [add_edge(..)?] for every parent. *)
Fixpoint add_edges (g : TransactionGraph) (tx_id : TransactionId) (parents : list TransactionId)
    : outcome (TransactionGraph * option GraphError) :=
  match parents with
  | [] => Ok (g, None)
  | parent_tx_id :: rest =>
      r ← add_edge g parent_tx_id tx_id;
      match r with
      | inl e => Ok (g, Some e)
      | inr g => add_edges g tx_id rest
      end
  end.

(** Step 4 for one address. *)
Definition update_ends (tx_id : TransactionId) (g : TransactionGraph) (addr : N) : TransactionGraph :=
  let g := if bool_decide (is_Some (head_txns g !! addr)) then g
           else with_ends g (<[addr := tx_id]> (head_txns g)) (tail_txns g) in
  with_ends g (head_txns g) (<[addr := tx_id]> (tail_txns g)).

Definition all_addresses_of (node : TransactionNode) : gset N :=
  list_to_set (read_set node) ∪ list_to_set (write_set node).

Section add_transaction.
Context `{!HashOrder N} `{!HashOrder TransactionId}.

Definition add_transaction (g : TransactionGraph) (node : TransactionNode)
    : outcome (TransactionGraph * (GraphError + nat)) :=
  let tx_id := transaction_id node in
  if bool_decide (is_Some (id_to_index g !! tx_id)) then Ok (g, inl (AlreadyExists tx_id))
  else
    let all_addresses := all_addresses_of node in
    let '(g, new_idx) := add_node g node in
    parent_transactions ← foldM (find_parent g node) ∅ (hash_iter all_addresses);
    '(g, err) ← add_edges g tx_id (hash_iter parent_transactions);
    match err with
    | Some e => Ok (g, inl e)
    | None => Ok (foldl (update_ends tx_id) g (hash_iter all_addresses), inr new_idx)
    end.

(** ** integrate_graph *)

Definition graph_addresses (g : TransactionGraph) : gset N :=
  dom (head_txns g) ∪ dom (tail_txns g).

(** Step 2 *)
Definition append_node (g : TransactionGraph) (node : TransactionNode) : TransactionGraph :=
  let new_idx := length (nodes g) in
  let g := with_ids g (<[transaction_id node := new_idx]> (id_to_index g)) in
  with_nodes g (nodes g ++ [node]).

(** Step 3 for one index of [other]. *)
Definition remap_node (base : nat) (other g : TransactionGraph) (old_idx : nat)
    : outcome TransactionGraph :=
  let new_idx := (base + old_idx)%nat in
  src ← expect (nodes other !! old_idx);
  node ← expect (nodes g !! new_idx);
  Ok (with_nodes g (<[new_idx :=
        with_links node ((λ c, base + c)%nat <$> children_indices src)
                        ((λ p, base + p)%nat <$> parent_indices src)]> (nodes g))).

(** [if let Some(g2_tail) = other.tail_txns.get(addr) ...] *)
Definition take_tail (other g : TransactionGraph) (addr : N) : TransactionGraph :=
  match tail_txns other !! addr with
  | Some g2_tail => with_ends g (head_txns g) (<[addr := g2_tail]> (tail_txns g))
  | None => g
  end.

(** Step 4 for one address; the state carries [edges_added] and the error of [?]. *)
Definition connect_address (other : TransactionGraph)
    (st : TransactionGraph * nat * option GraphError) (addr : N)
    : outcome (TransactionGraph * nat * option GraphError) :=
  let '(g, edges_added, err) := st in
  match err with
  | Some _ => Ok st
  | None =>
      match tail_txns g !! addr, head_txns other !! addr with
      | Some tail_tx_id, Some head_tx_id =>
          present ← has_edge g tail_tx_id head_tx_id;
          match present with
          | inr false =>
              r ← add_edge g tail_tx_id head_tx_id;
              match r with
              | inl e => Ok (g, edges_added, Some e)
              | inr g => Ok (take_tail other g addr, S edges_added, None)
              end
          | _ => Ok (take_tail other g addr, edges_added, None)
          end
      | None, Some head_tx_id =>
          let g := with_ends g (<[addr := head_tx_id]> (head_txns g)) (tail_txns g) in
          Ok (take_tail other g addr, edges_added, None)
      | _, None => Ok (g, edges_added, None)
      end
  end.

Definition integrate_graph (g other : TransactionGraph)
    : outcome (TransactionGraph * (GraphError + nat)) :=
  let all_addresses := graph_addresses g ∪ graph_addresses other in
  let base := length (nodes g) in
  let g := foldl append_node g (nodes other) in
  g ← foldM (remap_node base other) g (seq 0 (length (nodes other)));
  '(g, edges_added, err) ← foldM (connect_address other) (g, 0%nat, None) (hash_iter all_addresses);
  Ok (g, match err with Some e => inl e | None => inr edges_added end).
End add_transaction.

Definition dependencies (g : TransactionGraph) (tx_idx : nat) : list nat :=
  match nodes g !! tx_idx with Some n => parent_indices n | None => [] end.

Definition node_count (g : TransactionGraph) : nat := length (nodes g).

Definition edge_count (g : TransactionGraph) : nat :=
  sum_list ((λ n, length (children_indices n)) <$> nodes g).

(** ** The merge scan decides disjointness of sorted key sets *)

Lemma sorted_head_le (x y : N) (l : KeySet) :
  StronglySorted N.le (x :: l) → y ∈ l → x ≤ y.
Proof. intros Hs Hy. apply StronglySorted_inv in Hs as [_ Hall]. rewrite Forall_forall in Hall. auto. Qed.

Lemma sorted_is_disjoint_loop_spec fuel : ∀ a b,
  StronglySorted N.le a → StronglySorted N.le b → (length a + length b < fuel)%nat →
  ∃ d, sorted_is_disjoint_loop fuel a b = Ok d ∧ (d = true ↔ ∀ x, x ∈ a → x ∉ b).
Proof.
  induction fuel as [|fuel IH]; intros a b Ha Hb Hf; [lia|].
  destruct a as [|x a]; simpl.
  { exists true. split; [done|]. set_solver. }
  destruct b as [|y b].
  { exists true. split; [done|]. set_solver. }
  case_bool_decide as Hxy; [subst|case_bool_decide as Hlt].
  { exists false. split; [done|]. split; [done|]. intros Hd. destruct (Hd y); left. }
  - destruct (IH a (y :: b)) as (d & -> & Hd); [by apply StronglySorted_inv in Ha as []|done|simpl in *; lia|].
    exists d. split; [done|]. rewrite Hd. split; [|set_solver].
    intros Hdis z [->|Hz]%elem_of_cons; [|by apply Hdis]. intros [->|Hz]%elem_of_cons; [done|].
    pose proof (sorted_head_le y x b Hb Hz). lia.
  - destruct (IH (x :: a) b) as (d & -> & Hd); [done|by apply StronglySorted_inv in Hb as []|simpl in *; lia|].
    exists d. split; [done|]. rewrite Hd. split; [|set_solver].
    intros Hdis z Hz [->|Hzb]%elem_of_cons; [|by eapply Hdis].
    apply elem_of_cons in Hz as [->|Hz]; [done|].
    pose proof (sorted_head_le x y a Ha Hz). lia.
Qed.

Lemma sorted_is_disjoint_spec a b :
  StronglySorted N.le a → StronglySorted N.le b →
  ∃ d, sorted_is_disjoint a b = Ok d ∧ (d = true ↔ ∀ x, x ∈ a → x ∉ b).
Proof. intros. apply sorted_is_disjoint_loop_spec; [done..|lia]. Qed.

(** ** Well-formed graphs *)

Definition edge_in (l : list TransactionNode) (i j : nat) : Prop :=
  ∃ n, l !! i = Some n ∧ j ∈ children_indices n.

Definition edge (g : TransactionGraph) : nat → nat → Prop := edge_in (nodes g).

(** Children and parents mirror each other, without duplicates, and every edge
    leads to a later node. *)
Record links_wf (l : list TransactionNode) : Prop := {
  links_mirror : ∀ i j n, l !! j = Some n → (i ∈ parent_indices n ↔ edge_in l i j);
  links_order : ∀ i j, edge_in l i j → (i < j < length l)%nat;
  links_nodup : ∀ i n, l !! i = Some n → NoDup (children_indices n) ∧ NoDup (parent_indices n) }.

Definition ids_wf (m : gmap TransactionId nat) (l : list TransactionNode) : Prop :=
  ∀ id i, m !! id = Some i ↔ ∃ n, l !! i = Some n ∧ transaction_id n = id.

Definition keys_sorted (n : TransactionNode) : Prop :=
  StronglySorted N.le (read_set n) ∧ StronglySorted N.le (write_set n).

Definition ends_wf (ends : gmap N TransactionId) (m : gmap TransactionId nat) : Prop :=
  ∀ a id, ends !! a = Some id → is_Some (m !! id).

Record graph_wf (g : TransactionGraph) : Prop := {
  wf_links : links_wf (nodes g);
  wf_ids : ids_wf (id_to_index g) (nodes g);
  wf_keys : ∀ i n, nodes g !! i = Some n → keys_sorted n;
  wf_heads : ends_wf (head_txns g) (id_to_index g);
  wf_tails : ends_wf (tail_txns g) (id_to_index g);
  wf_ends : ∀ a, is_Some (head_txns g !! a) ↔ is_Some (tail_txns g !! a) }.

(** Two graphs that differ only in the links of their nodes. *)
Definition same_nodes (l l' : list TransactionNode) : Prop :=
  (λ n, with_links n [] []) <$> l = (λ n, with_links n [] []) <$> l'.

Definition same_core (g g' : TransactionGraph) : Prop :=
  same_nodes (nodes g) (nodes g') ∧ id_to_index g' = id_to_index g ∧
  head_txns g' = head_txns g ∧ tail_txns g' = tail_txns g.

Lemma same_core_refl g : same_core g g.
Proof. done. Qed.

Lemma same_core_trans g1 g2 g3 : same_core g1 g2 → same_core g2 g3 → same_core g1 g3.
Proof. unfold same_core, same_nodes. intros (?&?&?&?) (?&?&?&?). repeat split; congruence. Qed.

Lemma same_nodes_length l l' : same_nodes l l' → length l = length l'.
Proof. intros H%(f_equal length). by rewrite !length_fmap in H. Qed.

Lemma same_nodes_lookup l l' i n' :
  same_nodes l l' → l' !! i = Some n' → ∃ n, l !! i = Some n ∧ with_links n [] [] = with_links n' [] [].
Proof.
  intros H Hn'. apply (f_equal (lookup i)) in H. rewrite !list_lookup_fmap, Hn' in H.
  destruct (l !! i) as [n|] eqn:E; [|discriminate]. exists n.
  split; [done|]. by apply (inj Some).
Qed.

Lemma same_nodes_sym l l' : same_nodes l l' → same_nodes l' l.
Proof. by unfold same_nodes. Qed.

Lemma with_links_inj n n' : with_links n [] [] = with_links n' [] [] →
  transaction_id n = transaction_id n' ∧ read_set n = read_set n' ∧ write_set n = write_set n' ∧
  gas_cost n = gas_cost n' ∧ longest_suffix n = longest_suffix n'.
Proof. destruct n, n'. unfold with_links, transaction_id. simpl. intros H. injection H. naive_solver. Qed.

Lemma ids_wf_same m l l' : same_nodes l l' → ids_wf m l → ids_wf m l'.
Proof.
  intros Hs Hm id i. rewrite (Hm id i). split; intros (n & Hn & Hid).
  - destruct (same_nodes_lookup l' l i n) as (n' & ? & [? _]%with_links_inj); [by apply same_nodes_sym|done|].
    exists n'. split; congruence.
  - destruct (same_nodes_lookup l l' i n) as (n' & ? & [? _]%with_links_inj); [done|done|].
    exists n'. split; congruence.
Qed.

Lemma keys_sorted_same l l' : same_nodes l l' →
  (∀ i n, l !! i = Some n → keys_sorted n) → ∀ i n, l' !! i = Some n → keys_sorted n.
Proof.
  intros Hs Hl i n Hn. destruct (same_nodes_lookup l l' i n Hs Hn) as (n0 & H0 & (_&Hr&Hw&_)%with_links_inj).
  unfold keys_sorted. rewrite <-Hr, <-Hw. by eapply Hl.
Qed.

Lemma graph_wf_same g g' : same_core g g' → links_wf (nodes g') → graph_wf g → graph_wf g'.
Proof.
  intros (Hs & Hi & Hh & Ht) Hl []. split; rewrite ?Hi, ?Hh, ?Ht; try done.
  - by eapply ids_wf_same.
  - by eapply keys_sorted_same.
Qed.

(** ** add_edge *)

Lemma edge_in_insert l i n n' a b :
  l !! i = Some n →
  edge_in (<[i := n']> l) a b ↔ (a ≠ i ∧ edge_in l a b) ∨ (a = i ∧ b ∈ children_indices n').
Proof.
  intros Hi. pose proof (lookup_lt_Some _ _ _ Hi) as Hlt. unfold edge_in.
  destruct (decide (a = i)) as [->|Ha].
  - rewrite list_lookup_insert_eq by done. split.
    + intros (m & [= <-] & Hm). by right.
    + intros [[? _]|[_ Hb]]; [done|]. by exists n'.
  - rewrite list_lookup_insert_ne by done. split; [by left|]. by intros [[_ ?]|[? _]].
Qed.

Lemma links_add_edge l i j ni nj :
  links_wf l → l !! i = Some ni → l !! j = Some nj → (i < j)%nat → j ∉ children_indices ni →
  let l' := <[j := push_parent nj i]> (<[i := push_child ni j]> l) in
  links_wf l' ∧ (∀ a b, edge_in l' a b ↔ edge_in l a b ∨ (a = i ∧ b = j)).
Proof.
  intros [Hm Ho Hd] Hi Hj Hij Hnew l'.
  assert (Hj' : <[i := push_child ni j]> l !! j = Some nj) by (rewrite list_lookup_insert_ne by lia; done).
  assert (Hedge : ∀ a b, edge_in l' a b ↔ edge_in l a b ∨ (a = i ∧ b = j)).
  { intros a b. unfold l'. rewrite (edge_in_insert _ j nj) by done. rewrite (edge_in_insert _ i ni) by done.
    simpl. rewrite elem_of_app, list_elem_of_singleton. unfold edge_in.
    destruct (decide (a = i)) as [->|]; [destruct (decide (i = j)); [lia|]|destruct (decide (a = j)) as [->|]];
      naive_solver. }
  split; [|done]. split.
  - intros a b n Hn. rewrite Hedge. unfold l' in Hn. destruct (decide (b = j)) as [->|Hbj].
    + rewrite list_lookup_insert_eq in Hn by (rewrite length_insert; by eapply lookup_lt_Some).
      injection Hn as <-. simpl. rewrite elem_of_app, list_elem_of_singleton, (Hm a j nj Hj). naive_solver.
    + rewrite list_lookup_insert_ne in Hn by done. destruct (decide (b = i)) as [->|Hbi].
      * rewrite list_lookup_insert_eq in Hn by (by eapply lookup_lt_Some). injection Hn as <-. simpl.
        rewrite (Hm a i ni Hi). naive_solver.
      * rewrite list_lookup_insert_ne in Hn by done. rewrite (Hm a b n Hn). naive_solver.
  - intros a b. rewrite Hedge. unfold l'. rewrite !length_insert. intros [H|[-> ->]]; [auto|].
    apply lookup_lt_Some in Hj. lia.
  - intros a n Hn. unfold l' in Hn. destruct (decide (a = j)) as [->|Haj].
    + rewrite list_lookup_insert_eq in Hn by (rewrite length_insert; by eapply lookup_lt_Some).
      injection Hn as <-. simpl. destruct (Hd j nj Hj) as [? Hp]. split; [done|].
      apply NoDup_app. split; [done|]. split; [|apply NoDup_singleton].
      intros x Hx ->%list_elem_of_singleton. apply (Hm i j nj Hj) in Hx as (n' & Hn' & Hin).
      by replace n' with ni in Hin by congruence.
    + rewrite list_lookup_insert_ne in Hn by done. destruct (decide (a = i)) as [->|Hai].
      * rewrite list_lookup_insert_eq in Hn by (by eapply lookup_lt_Some). injection Hn as <-. simpl.
        destruct (Hd i ni Hi) as [Hc ?]. split; [|done]. apply NoDup_app. split; [done|].
        split; [|apply NoDup_singleton]. by intros x Hx ->%list_elem_of_singleton.
      * rewrite list_lookup_insert_ne in Hn by done. eauto.
Qed.

Lemma same_nodes_insert l i n n' :
  l !! i = Some n → with_links n' [] [] = with_links n [] [] → same_nodes l (<[i := n']> l).
Proof.
  intros Hi Hn. unfold same_nodes. rewrite list_fmap_insert, Hn, list_insert_id; [done|].
  by rewrite list_lookup_fmap, Hi.
Qed.

Lemma same_nodes_trans l1 l2 l3 : same_nodes l1 l2 → same_nodes l2 l3 → same_nodes l1 l3.
Proof. unfold same_nodes. congruence. Qed.

Lemma add_edge_spec g p c i j :
  graph_wf g → id_to_index g !! p = Some i → id_to_index g !! c = Some j → (i < j)%nat →
  ∃ g', add_edge g p c = Ok (inr g') ∧ graph_wf g' ∧ same_core g g' ∧
    (∀ a b, edge g' a b ↔ edge g a b ∨ (a = i ∧ b = j)).
Proof.
  intros Hwf Hp Hc Hij. pose proof (wf_ids g Hwf) as Hids.
  destruct (proj1 (Hids p i) Hp) as (ni & Hi & _). destruct (proj1 (Hids c j) Hc) as (nj & Hj & _).
  unfold add_edge. rewrite Hp, Hc, Hi. simpl. case_bool_decide as Hin.
  { exists g. split; [done|]. split; [done|]. split; [apply same_core_refl|].
    intros a b. split; [by left|]. intros [?|[-> ->]]; [done|]. by exists ni. }
  simpl. rewrite list_lookup_insert_ne by lia. rewrite Hj. simpl.
  destruct (links_add_edge (nodes g) i j ni nj) as [Hl He]; [apply Hwf|done..|].
  eexists. split; [done|].
  assert (Hsame : same_core g
    (with_nodes g (<[j := push_parent nj i]> (<[i := push_child ni j]> (nodes g))))).
  { split; [|done]. simpl. eapply same_nodes_trans; [by apply (same_nodes_insert _ i ni (push_child ni j))|].
    apply (same_nodes_insert _ j nj); [|done]. rewrite list_lookup_insert_ne by lia. done. }
  split; [by eapply graph_wf_same|]. split; [done|]. done.
Qed.

(** ** add_transaction *)

Definition writes_meet (m n : TransactionNode) : Prop :=
  ∃ x, x ∈ write_set m ∧ x ∈ write_set n.

Definition touches (n : TransactionNode) (a : N) : Prop := a ∈ all_addresses_of n.

#[global] Instance touches_dec n a : Decision (touches n a).
Proof. unfold touches. apply _. Defined.

Lemma add_edges_spec c j : ∀ ps g,
  graph_wf g → id_to_index g !! c = Some j →
  (∀ p, p ∈ ps → ∃ i, id_to_index g !! p = Some i ∧ (i < j)%nat) →
  ∃ g', add_edges g c ps = Ok (g', None) ∧ graph_wf g' ∧ same_core g g' ∧
    (∀ a b, edge g' a b ↔ edge g a b ∨ (b = j ∧ ∃ p, p ∈ ps ∧ id_to_index g !! p = Some a)).
Proof.
  induction ps as [|p ps IH]; intros g Hwf Hc Hps; simpl.
  { exists g. split; [done|]. split; [done|]. split; [apply same_core_refl|]. set_solver. }
  destruct (Hps p) as (i & Hi & Hij); [left|].
  destruct (add_edge_spec g p c i j) as (g1 & -> & Hwf1 & Hs1 & He1); [done..|]. simpl.
  pose proof Hs1 as (_ & Hids & _).
  destruct (IH g1) as (g2 & -> & Hwf2 & Hs2 & He2); [done|by rewrite Hids| |].
  { intros q Hq. rewrite Hids. apply Hps. by right. }
  exists g2. split; [done|]. split; [done|]. split; [by eapply same_core_trans|].
  intros a b. rewrite He2, He1, Hids. split.
  - intros [[?|[-> ->]]|(-> & q & Hq & Ha)]; [by left|right..]; (split; [done|]).
    + exists p. split; [left|done].
    + exists q. split; [by right|done].
  - intros [?|(-> & q & [->|Hq]%elem_of_cons & Ha)]; [by left; left|left; right|right].
    + split; congruence.
    + split; [done|]. by exists q.
Qed.

Lemma find_parents_spec g node : ∀ addrs P0,
  graph_wf g → keys_sorted node →
  ∃ P, foldM (find_parent g node) P0 addrs = Ok P ∧
    (∀ id, id ∈ P ↔ id ∈ P0 ∨ ∃ a i m, a ∈ addrs ∧ tail_txns g !! a = Some id ∧
       id_to_index g !! id = Some i ∧ nodes g !! i = Some m ∧ writes_meet m node).
Proof.
  intros addrs P0 Hwf [_ Hnode]. revert P0.
  induction addrs as [|a addrs IH]; intros P0; simpl.
  { exists P0. split; [done|]. set_solver. }
  assert (Hstep : ∃ P1, find_parent g node P0 a = Ok P1 ∧ ∀ id, id ∈ P1 ↔ id ∈ P0 ∨
    (tail_txns g !! a = Some id ∧ ∃ i m, id_to_index g !! id = Some i ∧ nodes g !! i = Some m ∧ writes_meet m node)).
  { unfold find_parent, get_node. destruct (tail_txns g !! a) as [t|] eqn:Ht; [|exists P0; naive_solver].
    destruct (wf_tails g Hwf a t Ht) as [i Hi]. rewrite Hi.
    destruct (proj1 (wf_ids g Hwf t i) Hi) as (m & Hm & _). rewrite Hm. simpl.
    destruct (sorted_is_disjoint_spec (write_set m) (write_set node)) as (d & -> & Hd);
      [apply (wf_keys g Hwf i m Hm)|done|]. simpl.
    eexists. split; [done|]. intros id. destruct d; simpl.
    - split; [by left|]. intros [?|(? & i' & m' & ? & ? & x & Hx & Hx')]; [done|].
      exfalso. simplify_eq. by eapply (proj1 Hd eq_refl).
    - rewrite elem_of_union, elem_of_singleton. split.
      + intros [->|?]; [right|by left]. split; [done|]. exists i, m. split; [done|]. split; [done|].
        unfold writes_meet. destruct (decide (Exists (λ x, x ∈ write_set node) (write_set m))) as [Hex|Hno].
        * apply Exists_exists in Hex. done.
        * exfalso. enough (false = true) by done. apply Hd. intros x Hx Hx'. apply Hno.
          apply Exists_exists. eauto.
      + intros [?|[[= ->] _]]; [by right|by left]. }
  destruct Hstep as (P1 & -> & H1). simpl. destruct (IH P1) as (P & -> & HP). exists P. split; [done|].
  intros id. rewrite HP, H1. split.
  - intros [[?|(Ht & i & m & ?)]|(b & i & m & Hb & ?)]; [by left| |]; right.
    + exists a, i, m. split; [left|]. tauto.
    + exists b, i, m. split; [by right|]. done.
  - intros [?|(b & i & m & [->|Hb]%elem_of_cons & ?)]; [by left; left|left; right|right].
    + split; [tauto|]. exists i, m. tauto.
    + by exists b, i, m.
Qed.

Lemma edge_in_app_nil l n a b :
  children_indices n = [] → edge_in (l ++ [n]) a b ↔ edge_in l a b.
Proof.
  intros Hn. unfold edge_in. split; intros (m & Hm & Hb).
  - apply lookup_app_Some in Hm as [Hm|[_ Hm]]; [by exists m|].
    apply list_lookup_singleton_Some in Hm as [_ <-]. rewrite Hn in Hb. by apply not_elem_of_nil in Hb.
  - exists m. split; [by apply lookup_app_l_Some|done].
Qed.

Lemma ids_wf_app m l n :
  ids_wf m l → m !! transaction_id n = None →
  ids_wf (<[transaction_id n := length l]> m) (l ++ [n]).
Proof.
  intros Hm Hfresh id i. destruct (decide (id = transaction_id n)) as [->|Hne].
  - rewrite lookup_insert_eq. split.
    + intros [= <-]. exists n. split; [by apply list_lookup_middle|done].
    + intros (n' & [Hn'|[Hle Hn']]%lookup_app_Some & Hid).
      * assert (m !! transaction_id n = Some i) by (apply Hm; eauto). congruence.
      * apply list_lookup_singleton_Some in Hn' as [Hi _]. f_equal. lia.
  - rewrite lookup_insert_ne by done. rewrite (Hm id i). split; intros (n' & Hn' & Hid).
    + exists n'. split; [by apply lookup_app_l_Some|done].
    + apply lookup_app_Some in Hn' as [Hn'|[_ Hn']]; [eauto|].
      apply list_lookup_singleton_Some in Hn' as [_ <-]. congruence.
Qed.

Lemma ends_wf_insert ends m id i : ends_wf ends m → ends_wf ends (<[id := i]> m).
Proof. intros H a id' Ha. rewrite lookup_insert_is_Some. destruct (decide (id = id')); [by left|right]. eauto. Qed.

Lemma links_wf_app l n :
  links_wf l → children_indices n = [] → parent_indices n = [] → links_wf (l ++ [n]).
Proof.
  intros [Hm Ho Hd] Hc Hp. split.
  - intros i j n' Hn'. rewrite edge_in_app_nil by done.
    apply lookup_app_Some in Hn' as [Hn'|[Hle Hn']]; [by apply Hm|].
    apply list_lookup_singleton_Some in Hn' as [Hj <-]. rewrite Hp. split; [by intros ?%not_elem_of_nil|].
    intros Hij%Ho. lia.
  - intros i j. rewrite edge_in_app_nil by done. intros Hij%Ho. rewrite length_app. lia.
  - intros i n' Hn'. apply lookup_app_Some in Hn' as [Hn'|[Hle Hn']]; [by eapply Hd|].
    apply list_lookup_singleton_Some in Hn' as [Hj <-]. rewrite Hc, Hp. split; constructor.
Qed.

Lemma add_node_wf g node :
  graph_wf g → id_to_index g !! transaction_id node = None →
  children_indices node = [] → parent_indices node = [] → keys_sorted node →
  graph_wf (add_node g node).1.
Proof.
  intros [Hl Hi Hk Hh Ht He] Hfresh Hc Hp Hkeys. unfold add_node. simpl.
  rewrite length_app. simpl. replace (length (nodes g) + 1 - 1)%nat with (length (nodes g)) by lia.
  split; simpl.
  - by apply links_wf_app.
  - by apply ids_wf_app.
  - intros i n [Hn|[_ Hn]]%lookup_app_Some; [eauto|].
    apply list_lookup_singleton_Some in Hn as [_ <-]. done.
  - by apply ends_wf_insert.
  - by apply ends_wf_insert.
  - done.
Qed.

Lemma update_ends_spec id addrs : ∀ g,
  let g' := foldl (update_ends id) g addrs in
  nodes g' = nodes g ∧ id_to_index g' = id_to_index g ∧
  (∀ a, tail_txns g' !! a = if decide (a ∈ addrs) then Some id else tail_txns g !! a) ∧
  (∀ a, head_txns g' !! a = match head_txns g !! a with
                            | Some h => Some h
                            | None => if decide (a ∈ addrs) then Some id else None end).
Proof.
  induction addrs as [|x addrs IH]; intros g; simpl.
  { split; [done|]. split; [done|]. split; intros a; [done|]. by destruct (head_txns g !! a). }
  destruct (IH (update_ends id g x)) as (Hn & Hi & Ht & Hh).
  assert (Hpre : nodes (update_ends id g x) = nodes g ∧ id_to_index (update_ends id g x) = id_to_index g)
    by (unfold update_ends; case_bool_decide; done).
  destruct Hpre as [Hpn Hpi]. split; [congruence|]. split; [congruence|]. split; intros a.
  - rewrite Ht. destruct (decide (a ∈ addrs)) as [Ha|Ha].
    + rewrite decide_True by set_solver. done.
    + unfold update_ends. simpl. replace (tail_txns (if bool_decide _ then _ else _)) with (tail_txns g)
        by (by case_bool_decide).
      destruct (decide (a = x)) as [->|Hax].
      * rewrite lookup_insert_eq, decide_True by set_solver. done.
      * rewrite lookup_insert_ne, decide_False by set_solver. done.
  - rewrite Hh. unfold update_ends. simpl. case_bool_decide as Hx; simpl.
    + destruct (head_txns g !! a) eqn:Ha; [done|]. destruct (decide (a = x)) as [->|Hax].
      * rewrite Ha in Hx. by destruct Hx.
      * destruct (decide (a ∈ addrs)); [rewrite decide_True by set_solver; done|].
        rewrite decide_False by set_solver. done.
    + destruct (decide (a = x)) as [->|Hax].
      * rewrite lookup_insert_eq. apply eq_None_not_Some in Hx. rewrite Hx, decide_True by set_solver. done.
      * rewrite lookup_insert_ne by done. destruct (head_txns g !! a) eqn:Ha; [done|].
        destruct (decide (a ∈ addrs)); [rewrite decide_True by set_solver; done|].
        rewrite decide_False by set_solver. done.
Qed.

Section construction.
Context `{!HashOrder N} `{!HashOrder TransactionId}.

Definition fresh_node (g : TransactionGraph) (node : TransactionNode) : Prop :=
  id_to_index g !! transaction_id node = None ∧
  children_indices node = [] ∧ parent_indices node = [] ∧ keys_sorted node.

Lemma add_transaction_spec g node :
  graph_wf g → fresh_node g node →
  ∃ g', add_transaction g node = Ok (g', inr (length (nodes g))) ∧ graph_wf g' ∧
    same_nodes (nodes g ++ [node]) (nodes g') ∧
    id_to_index g' = <[transaction_id node := length (nodes g)]> (id_to_index g) ∧
    (∀ a b, edge g' a b ↔ edge g a b ∨ (b = length (nodes g) ∧
       ∃ x id m, touches node x ∧ tail_txns g !! x = Some id ∧ id_to_index g !! id = Some a ∧
         nodes g !! a = Some m ∧ writes_meet m node)) ∧
    (∀ x, tail_txns g' !! x = if decide (touches node x) then Some (transaction_id node)
                              else tail_txns g !! x) ∧
    (∀ x, head_txns g' !! x = match head_txns g !! x with
            | Some h => Some h
            | None => if decide (touches node x) then Some (transaction_id node) else None end).
Proof.
  intros Hwf (Hfresh & Hc & Hp & Hkeys). unfold add_transaction.
  rewrite bool_decide_eq_false_2 by (rewrite Hfresh; by intros [? ?]).
  pose proof (add_node_wf g node Hwf Hfresh Hc Hp Hkeys) as Hwf1.
  assert (Hidx : (add_node g node).2 = length (nodes g)) by (simpl; rewrite length_app; simpl; lia).
  assert (Hids1 : id_to_index (add_node g node).1 = <[transaction_id node := length (nodes g)]> (id_to_index g))
    by (rewrite <-Hidx; done).
  assert (He1 : ∀ a b, edge (add_node g node).1 a b ↔ edge g a b)
    by (intros a b; apply (edge_in_app_nil (nodes g) node a b Hc)).
  assert (Hn1 : nodes (add_node g node).1 = nodes g ++ [node]) by done.
  assert (Ht1 : tail_txns (add_node g node).1 = tail_txns g) by done.
  assert (Hh1 : head_txns (add_node g node).1 = head_txns g) by done.
  destruct (add_node g node) as [g1 i1]. simpl in *. subst i1.
  destruct (find_parents_spec g1 node (hash_iter (all_addresses_of node)) ∅ Hwf1 Hkeys) as (P & -> & HP).
  simpl.
  assert (HP' : ∀ id, id ∈ P ↔ ∃ x a m, touches node x ∧ tail_txns g !! x = Some id ∧
     id_to_index g !! id = Some a ∧ nodes g !! a = Some m ∧ writes_meet m node).
  { intros id. rewrite HP, Ht1, Hids1, Hn1. split.
    - intros [?%not_elem_of_empty|(x & i & m & Hx & Ht & Hi & Hm & Hmeet)]; [done|].
      rewrite elem_of_hash_iter in Hx. exists x, i, m.
      destruct (wf_tails g Hwf x id Ht) as [i' Hi'].
      rewrite lookup_insert_ne in Hi by congruence.
      destruct (proj1 (wf_ids g Hwf id i) Hi) as (m' & Hm' & _).
      rewrite (lookup_app_l_Some _ _ _ _ Hm') in Hm. by simplify_eq.
    - intros (x & i & m & Hx & Ht & Hi & Hm & Hmeet). right. exists x, i, m.
      rewrite elem_of_hash_iter, lookup_insert_ne by congruence.
      rewrite (lookup_app_l_Some _ _ _ _ Hm). done. }
  destruct (add_edges_spec (transaction_id node) (length (nodes g)) (hash_iter P) g1) as (g2 & -> & Hwf2 & Hs2 & He2).
  { done. }
  { by rewrite Hids1, lookup_insert_eq. }
  { intros id. rewrite elem_of_hash_iter, HP'. intros (x & a & m & _ & _ & Ha & Hm & _).
    exists a. rewrite Hids1, lookup_insert_ne by congruence. split; [done|]. by eapply lookup_lt_Some. }
  simpl. destruct (update_ends_spec (transaction_id node) (hash_iter (all_addresses_of node)) g2)
    as (Hn3 & Hi3 & Ht3 & Hh3).
  destruct Hs2 as (Hsn & Hsi & Hsh & Hst).
  set (g3 := foldl _ g2 _) in *. exists g3. split; [done|].
  assert (Htail : ∀ x, tail_txns g3 !! x = if decide (touches node x) then Some (transaction_id node)
                              else tail_txns g !! x).
  { intros x. rewrite Ht3, Hst, Ht1. apply decide_ext, elem_of_hash_iter. }
  assert (Hhead : ∀ x, head_txns g3 !! x = match head_txns g !! x with Some h => Some h
      | None => if decide (touches node x) then Some (transaction_id node) else None end).
  { intros x. rewrite Hh3, Hsh, Hh1. destruct (head_txns g !! x); [done|]. apply decide_ext, elem_of_hash_iter. }
  assert (Hids3 : id_to_index g3 = <[transaction_id node := length (nodes g)]> (id_to_index g)) by congruence.
  split; [|split; [|split; [|split; [|split]]]]; [|congruence|congruence| |done|done].
  - destruct Hwf2 as [Hl2 Hi2 Hk2 Hh2 Htl2 _]. split; rewrite ?Hn3, ?Hi3; try done.
    + intros a id. rewrite Hhead. destruct (head_txns g !! a) eqn:Ea.
      * intros [= <-]. rewrite Hsi, Hids1. apply (ends_wf_insert _ _ _ _ (wf_heads g Hwf) a). done.
      * case_decide; [|done]. intros [= <-]. rewrite Hsi, Hids1, lookup_insert_eq. by eexists.
    + intros a id. rewrite Htail. case_decide.
      * intros [= <-]. rewrite Hsi, Hids1, lookup_insert_eq. by eexists.
      * intros Ha. rewrite Hsi, Hids1. by apply (ends_wf_insert _ _ _ _ (wf_tails g Hwf) a).
    + intros a. rewrite Hhead, Htail. pose proof (wf_ends g Hwf a) as He.
      destruct (head_txns g !! a), (decide (touches node a)); rewrite <-?He; split; (done || by eexists).
  - intros a b. unfold edge at 1. rewrite Hn3. fold (edge g2 a b). rewrite He2, He1.
    apply or_iff_compat_l, and_iff_compat_l. rewrite Hids1. split.
    + intros (id & Hid & Ha). rewrite elem_of_hash_iter, HP' in Hid.
      destruct Hid as (x & a' & m & Hx & Ht & Ha' & Hm & Hmeet).
      rewrite lookup_insert_ne in Ha by congruence. simplify_eq. by exists x, id, m.
    + intros (x & id & m & Hx & Ht & Ha & Hm & Hmeet). exists id.
      rewrite elem_of_hash_iter, HP', lookup_insert_ne by congruence. split; [|done]. by exists x, a, m.
Qed.

(** A second transaction with the same identifier is refused. *)
Lemma add_transaction_duplicate g node i :
  id_to_index g !! transaction_id node = Some i →
  add_transaction g node = Ok (g, inl (AlreadyExists (transaction_id node))).
Proof. intros Hi. unfold add_transaction. by rewrite bool_decide_eq_true_2 by (by exists i). Qed.

(** ** The graph of a block *)

(** The loop that builds the graph of a block: every transaction in order, the
    result of [add_transaction] ignored. *)
Definition build_graph (ns : list TransactionNode) : outcome TransactionGraph :=
  foldM (λ g n, '(g, _) ← add_transaction g n; Ok g) TransactionGraph_new ns.

Record block_nodes (ns : list TransactionNode) : Prop := {
  bn_ids : NoDup (transaction_id <$> ns);
  bn_links : ∀ i n, ns !! i = Some n → children_indices n = [] ∧ parent_indices n = [];
  bn_keys : ∀ i n, ns !! i = Some n → keys_sorted n }.

(** [i] is the last transaction before [j] that touches [a]. *)
Definition last_toucher (ns : list TransactionNode) (a : N) (i j : nat) : Prop :=
  (i < j)%nat ∧ (∃ n, ns !! i = Some n ∧ touches n a) ∧
  ∀ k n, (i < k < j)%nat → ns !! k = Some n → ¬ touches n a.

Definition conflict_edge (ns : list TransactionNode) (i j : nat) : Prop :=
  ∃ a ni nj, ns !! i = Some ni ∧ ns !! j = Some nj ∧ touches nj a ∧
    last_toucher ns a i j ∧ writes_meet ni nj.

Record built (ns : list TransactionNode) (g : TransactionGraph) : Prop := {
  built_wf : graph_wf g;
  built_nodes : same_nodes ns (nodes g);
  built_edges : ∀ i j, edge g i j ↔ conflict_edge ns i j;
  built_tails : ∀ a id, tail_txns g !! a = Some id ↔
    ∃ i n, ns !! i = Some n ∧ transaction_id n = id ∧ last_toucher ns a i (length ns) }.

Lemma TransactionGraph_new_wf : graph_wf TransactionGraph_new.
Proof.
  split; simpl.
  - split.
    + intros i j n Hn. by rewrite lookup_nil in Hn.
    + intros i j (n & Hn & _). by rewrite lookup_nil in Hn.
    + intros i n Hn. by rewrite lookup_nil in Hn.
  - intros id i. rewrite lookup_empty. split; [done|]. intros (n & Hn & _). by rewrite lookup_nil in Hn.
  - intros i n Hn. by rewrite lookup_nil in Hn.
  - intros a id Ha. by rewrite lookup_empty in Ha.
  - intros a id Ha. by rewrite lookup_empty in Ha.
  - intros a. by rewrite !lookup_empty.
Qed.

Lemma last_toucher_app ns n a i j :
  (j ≤ length ns)%nat → last_toucher (ns ++ [n]) a i j ↔ last_toucher ns a i j.
Proof.
  intros Hj. unfold last_toucher. split.
  - intros (Hij & (m & Hm & Ht) & Hno). rewrite lookup_app_l in Hm by lia.
    split; [done|]. split; [eauto|]. intros k m' Hk Hm'. apply (Hno k); [done|]. by apply lookup_app_l_Some.
  - intros (Hij & (m & Hm & Ht) & Hno). split; [done|]. split; [exists m; split; [by apply lookup_app_l_Some|done]|].
    intros k m' Hk Hm'. rewrite lookup_app_l in Hm' by lia. by eapply Hno.
Qed.

Lemma last_toucher_snoc ns n a i :
  last_toucher (ns ++ [n]) a i (length (ns ++ [n])) ↔
  (touches n a ∧ i = length ns) ∨ (¬ touches n a ∧ last_toucher ns a i (length ns)).
Proof.
  rewrite length_app. simpl. split.
  - intros (Hij & (m & Hm & Ht) & Hno). destruct (decide (i = length ns)) as [->|Hi].
    { left. rewrite list_lookup_middle in Hm by done. by simplify_eq. }
    right. split; [apply (Hno (length ns)); [lia|by apply list_lookup_middle]|].
    apply (last_toucher_app ns n); [lia|]. split; [lia|]. split; [eauto|].
    intros k m' Hk. apply Hno. lia.
  - intros [[Ht ->]|[Hn Hl]].
    + split; [lia|]. split; [exists n; split; [by apply list_lookup_middle|done]|]. lia.
    + apply (last_toucher_app ns n) in Hl as (Hij & Hex & Hno); [|lia].
      split; [lia|]. split; [done|]. intros k m Hk Hm. destruct (decide (k = length ns)) as [->|Hne].
      * rewrite list_lookup_middle in Hm by done. by simplify_eq.
      * apply (Hno k); [lia|done].
Qed.

Lemma conflict_edge_snoc ns n i j :
  conflict_edge (ns ++ [n]) i j ↔ conflict_edge ns i j ∨
    (j = length ns ∧ ∃ a ni, ns !! i = Some ni ∧ touches n a ∧
       last_toucher ns a i (length ns) ∧ writes_meet ni n).
Proof.
  split.
  - intros (a & ni & nj & Hi & Hj & Ht & Hl & Hw).
    apply lookup_app_Some in Hj as [Hj|[Hle Hj]].
    + left. pose proof (lookup_lt_Some _ _ _ Hj). rewrite last_toucher_app in Hl by lia.
      pose proof Hl as [Hij _]. rewrite lookup_app_l in Hi by lia. by exists a, ni, nj.
    + apply list_lookup_singleton_Some in Hj as [Hj <-]. assert (j = length ns) as -> by lia.
      right. split; [done|]. rewrite last_toucher_app in Hl by lia. pose proof Hl as [Hij _].
      rewrite lookup_app_l in Hi by lia. by exists a, ni.
  - intros [(a & ni & nj & Hi & Hj & Ht & Hl & Hw)|(-> & a & ni & Hi & Ht & Hl & Hw)].
    + pose proof (lookup_lt_Some _ _ _ Hj). exists a, ni, nj.
      rewrite !(lookup_app_l_Some _ _ _ _ Hi), !(lookup_app_l_Some _ _ _ _ Hj).
      rewrite last_toucher_app by lia. done.
    + exists a, ni, n. rewrite (lookup_app_l_Some _ _ _ _ Hi), list_lookup_middle by done.
      rewrite last_toucher_app by lia. done.
Qed.

Lemma last_toucher_unique ns a i i' j : last_toucher ns a i j → last_toucher ns a i' j → i = i'.
Proof.
  intros (Hi & (n & Hn & Ht) & Hno) (Hi' & (n' & Hn' & Ht') & Hno').
  destruct (decide (i < i')%nat); [exfalso; apply (Hno i' n'); [lia|done|done]|].
  destruct (decide (i' < i)%nat); [exfalso; apply (Hno' i n); [lia|done|done]|]. lia.
Qed.

Lemma block_nodes_snoc ns n : block_nodes (ns ++ [n]) →
  block_nodes ns ∧ transaction_id n ∉ transaction_id <$> ns ∧
  children_indices n = [] ∧ parent_indices n = [] ∧ keys_sorted n.
Proof.
  intros [Hid Hl Hk]. rewrite fmap_app in Hid. apply NoDup_app in Hid as (Hid & Hnew & _).
  assert (Hn : (ns ++ [n]) !! length ns = Some n) by (by apply list_lookup_middle).
  split; [split; [done|..]|].
  - intros i m Hm. eapply Hl. by apply lookup_app_l_Some.
  - intros i m Hm. eapply Hk. by apply lookup_app_l_Some.
  - split; [|split; [|split]]; [|by eapply (Hl _ n)|by eapply (Hl _ n)|by eapply Hk].
    intros Hin. apply (Hnew _ Hin). simpl. left.
Qed.

Lemma built_index ns g i n : built ns g → ns !! i = Some n → id_to_index g !! transaction_id n = Some i.
Proof.
  intros Hb Hi. apply (wf_ids g (built_wf ns g Hb)).
  destruct (same_nodes_lookup (nodes g) ns i n) as (m & Hm & [Hid _]%with_links_inj);
    [apply same_nodes_sym, Hb|done|]. by exists m.
Qed.

Lemma build_graph_snoc ns n g :
  built ns g → block_nodes (ns ++ [n]) →
  ∃ g', add_transaction g n = Ok (g', inr (length ns)) ∧ built (ns ++ [n]) g'.
Proof.
  intros Hb (Hns & Hid & Hc & Hp & Hk)%block_nodes_snoc.
  pose proof (same_nodes_length _ _ (built_nodes ns g Hb)) as Hlen.
  assert (Hfresh : id_to_index g !! transaction_id n = None).
  { destruct (id_to_index g !! transaction_id n) as [i|] eqn:Hi; [|done]. exfalso. apply Hid.
    apply (wf_ids g (built_wf ns g Hb)) in Hi as (m & Hm & Hmid).
    destruct (same_nodes_lookup ns (nodes g) i m) as (m0 & H0 & [Hid0 _]%with_links_inj); [apply Hb|done|].
    apply list_elem_of_fmap. exists m0. split; [congruence|]. by eapply list_elem_of_lookup_2. }
  destruct (add_transaction_spec g n) as (g' & Hadd & Hwf' & Hsame & Hids & Hedge & Htail & _);
    [apply Hb|done|]. rewrite <-Hlen in *.
  exists g'. split; [done|]. split; [done| | |].
  - eapply same_nodes_trans; [|done]. unfold same_nodes. rewrite !fmap_app. f_equal. apply Hb.
  - intros i j. rewrite Hedge, conflict_edge_snoc, (built_edges ns g Hb).
    apply or_iff_compat_l, and_iff_compat_l. split.
    + intros (x & id & m & Hx & Ht & Hi & Hm & Hw).
      apply (built_tails ns g Hb) in Ht as (i' & n' & Hi' & Hid' & Hl).
      pose proof (built_index ns g i' n' Hb Hi') as Hix. rewrite Hid' in Hix. simplify_eq.
      exists x, n'. split; [done|]. split; [done|]. split; [done|].
      destruct (same_nodes_lookup ns (nodes g) i m) as (m0 & H0 & (_&_&Hw0&_)%with_links_inj); [apply Hb|done|].
      unfold writes_meet in *. replace n' with m0 by congruence. by rewrite Hw0.
    + intros (x & ni & Hi & Hx & Hl & Hw).
      destruct (same_nodes_lookup (nodes g) ns i ni) as (m0 & H0 & (_&_&Hw0&_)%with_links_inj);
        [apply same_nodes_sym, Hb|done|].
      exists x, (transaction_id ni), m0. split; [done|]. split; [apply (built_tails ns g Hb); by exists i, ni|].
      split; [by eapply built_index|]. split; [done|]. unfold writes_meet in *. by rewrite Hw0.
  - intros a id. rewrite Htail. setoid_rewrite last_toucher_snoc. case_decide as Ht.
    + split.
      * intros [= <-]. exists (length ns), n. rewrite list_lookup_middle by done. auto.
      * intros (i & m & Hi & <- & [[_ ->]|[? _]]); [|done].
        rewrite list_lookup_middle in Hi by done. by simplify_eq.
    + rewrite (built_tails ns g Hb). split.
      * intros (i & m & Hi & Hmid & Hl). exists i, m. rewrite (lookup_app_l_Some _ _ _ _ Hi). auto.
      * intros (i & m & Hi & Hmid & [[? _]|[_ Hl]]); [done|]. exists i, m.
        rewrite lookup_app_l in Hi by (apply Hl). done.
Qed.

Lemma build_graph_app ns n :
  build_graph (ns ++ [n]) = (g ← build_graph ns; '(g, _) ← add_transaction g n; Ok g).
Proof.
  unfold build_graph. rewrite foldM_app. destruct (foldM _ _ ns); simpl; [|done|done].
  destruct (add_transaction a n) as [[]| |]; done.
Qed.

Lemma build_graph_built ns : block_nodes ns → ∃ g, build_graph ns = Ok g ∧ built ns g.
Proof.
  induction ns as [|n ns IH] using rev_ind; intros Hns.
  { exists TransactionGraph_new. split; [done|]. split; [apply TransactionGraph_new_wf|done|..].
    - intros i j. split.
      + intros (n & Hn & _). by destruct i.
      + intros (a & n & ? & Hn & _). by rewrite lookup_nil in Hn.
    - intros a id. simpl. rewrite lookup_empty. split; [done|]. intros (i & n & Hn & _). by rewrite lookup_nil in Hn. }
  destruct IH as (g & Hg & Hb); [by apply block_nodes_snoc in Hns as [? _]|].
  rewrite build_graph_app, Hg. simpl.
  destruct (build_graph_snoc ns n g Hb Hns) as (g' & -> & Hb'). simpl. by exists g'.
Qed.

(** C24: the graph built from a block of transactions with distinct identifiers is
    well formed (children and parents mirror each other, identifiers index the nodes)
    and acyclic because every edge leads from an earlier to a later transaction; there
    is an edge from [i] to [j] exactly when their write sets meet and [i] is the last
    transaction before [j] to touch some address that [j] touches. *)
Theorem graph_edges_exact ns :
  block_nodes ns →
  ∃ g, build_graph ns = Ok g ∧ graph_wf g ∧ same_nodes ns (nodes g) ∧
    (∀ i j, edge g i j → (i < j)%nat) ∧ (∀ i j, edge g i j ↔ conflict_edge ns i j).
Proof.
  intros Hns. destruct (build_graph_built ns Hns) as (g & Hg & []).
  exists g. split; [done|]. split; [done|]. split; [done|]. split; [|done].
  intros i j Hij%(links_order _ (wf_links g built_wf0)). lia.
Qed.

(** ** integrate_graph *)

Definition shift_node (base : nat) (n : TransactionNode) : TransactionNode :=
  with_links n ((λ c, base + c)%nat <$> children_indices n) ((λ p, base + p)%nat <$> parent_indices n).

Lemma append_nodes_spec l : ∀ g,
  ids_wf (id_to_index g) (nodes g) → NoDup (transaction_id <$> l) →
  (∀ n, n ∈ l → id_to_index g !! transaction_id n = None) →
  let g' := foldl append_node g l in
  nodes g' = nodes g ++ l ∧ ids_wf (id_to_index g') (nodes g') ∧
  head_txns g' = head_txns g ∧ tail_txns g' = tail_txns g.
Proof.
  induction l as [|n l IH]; intros g Hids Hnd Hfresh; simpl; [by rewrite app_nil_r|].
  apply NoDup_cons in Hnd as [Hn Hnd].
  destruct (IH (append_node g n)) as (H1 & H2 & H3 & H4); [|done| |].
  - apply ids_wf_app; [done|]. apply Hfresh. left.
  - intros m Hm. simpl. rewrite lookup_insert_ne; [apply Hfresh; by right|].
    intros Heq. apply Hn. rewrite Heq. by apply list_elem_of_fmap_2.
  - rewrite H1. simpl. rewrite <-app_assoc. simpl in *. rewrite H1, <-app_assoc in H2. done.
Qed.

Lemma remap_nodes_spec l1 other : ∀ k g,
  (k ≤ length (nodes other))%nat → nodes g = l1 ++ nodes other →
  foldM (remap_node (length l1) other) g (seq 0 k) =
  Ok (with_nodes g (l1 ++ (shift_node (length l1) <$> take k (nodes other)) ++ drop k (nodes other))).
Proof.
  induction k as [|k IH]; intros g Hk Hg.
  { simpl. rewrite ?drop_0, <-Hg. by destruct g. }
  rewrite seq_S, foldM_app, IH by (done || lia). simpl.
  destruct (lookup_lt_is_Some_2 (nodes other) k) as [n Hn]; [lia|].
  unfold remap_node. rewrite Hn. simpl.
  assert (Hlen : length (shift_node (length l1) <$> take k (nodes other)) = k)
    by (rewrite length_fmap, length_take; lia).
  rewrite (drop_S _ _ _ Hn), lookup_app_r by lia.
  replace (length l1 + k - length l1)%nat with k by lia.
  rewrite list_lookup_middle by done. simpl. f_equal. unfold with_nodes. simpl. f_equal.
  rewrite insert_app_r_alt by lia. replace (length l1 + k - length l1)%nat with k by lia.
  rewrite insert_app_r_alt by lia. rewrite Hlen, Nat.sub_diag. simpl.
  rewrite (take_S_r _ _ _ Hn), fmap_app, <-app_assoc. done.
Qed.

Lemma edge_in_app_shift l1 l2 a b :
  (∀ i j, edge_in l1 i j → (j < length l1)%nat) →
  edge_in (l1 ++ (shift_node (length l1) <$> l2)) a b ↔
  edge_in l1 a b ∨ ∃ i j, a = (length l1 + i)%nat ∧ b = (length l1 + j)%nat ∧ edge_in l2 i j.
Proof.
  intros Hl1. split.
  - intros (n & [Hn|[Hle Hn]]%lookup_app_Some & Hb); [left; by exists n|right].
    rewrite list_lookup_fmap in Hn. destruct (l2 !! (a - length l1)%nat) as [m|] eqn:Hm; [|done].
    simpl in Hn. injection Hn as <-. simpl in Hb. apply list_elem_of_fmap in Hb as (j & -> & Hj).
    exists (a - length l1)%nat, j. split; [lia|]. split; [done|]. by exists m.
  - intros [(n & Hn & Hb)|(i & j & -> & -> & (n & Hn & Hj))].
    + exists n. split; [by apply lookup_app_l_Some|done].
    + exists (shift_node (length l1) n). rewrite lookup_app_r by lia.
      replace (length l1 + i - length l1)%nat with i by lia. rewrite list_lookup_fmap, Hn.
      split; [done|]. simpl. by apply list_elem_of_fmap_2.
Qed.

Lemma links_wf_app_shift l1 l2 :
  links_wf l1 → links_wf l2 → links_wf (l1 ++ (shift_node (length l1) <$> l2)).
Proof.
  intros [Hm1 Ho1 Hd1] [Hm2 Ho2 Hd2].
  assert (He := edge_in_app_shift l1 l2).
  assert (Hlt : ∀ i j, edge_in l1 i j → (j < length l1)%nat) by (intros i j ?%Ho1; lia).
  split.
  - intros i j n Hn. rewrite He by done. apply lookup_app_Some in Hn as [Hn|[Hle Hn]].
    + rewrite (Hm1 i j n Hn). split; [by left|]. intros [?|(i' & j' & -> & -> & _)]; [done|].
      apply lookup_lt_Some in Hn. lia.
    + rewrite list_lookup_fmap in Hn. destruct (l2 !! (j - length l1)%nat) as [m|] eqn:Hm; [|done].
      injection Hn as <-. simpl. rewrite list_elem_of_fmap. split.
      * intros (p & -> & Hp). right. exists p, (j - length l1)%nat. split; [done|]. split; [lia|].
        by apply (Hm2 p _ m).
      * intros [?%Hlt|(i' & j' & -> & Hj & Hij)]; [lia|]. exists i'. split; [done|].
        apply (Hm2 i' _ m Hm). by replace (j - length l1)%nat with j' by lia.
  - intros i j. rewrite He, length_app, length_fmap by done.
    intros [?%Ho1|(i' & j' & -> & -> & ?%Ho2)]; lia.
  - intros i n [Hn|[Hle Hn]]%lookup_app_Some; [by eapply Hd1|].
    rewrite list_lookup_fmap in Hn. destruct (l2 !! (i - length l1)%nat) as [m|] eqn:Hm; [|done].
    injection Hn as <-. simpl. destruct (Hd2 _ m Hm).
    split; (apply NoDup_fmap_2; [intros x y Hxy; simpl in Hxy; lia|done]).
Qed.

Lemma same_nodes_shift base l : same_nodes l (shift_node base <$> l).
Proof. unfold same_nodes. rewrite <-list_fmap_compose. by apply list_fmap_ext. Qed.

(** *** Edge counts *)

Lemma sum_list_insert (l : list nat) i x y :
  l !! i = Some x → (sum_list (<[i := y]> l) + x = sum_list l + y)%nat.
Proof.
  revert i. induction l as [|m l IH]; intros [|i] Hi; simpl in *; try done.
  - injection Hi as ->. lia.
  - specialize (IH i Hi). lia.
Qed.

Lemma edge_count_insert l i n n' :
  l !! i = Some n →
  (sum_list ((λ n, length (children_indices n)) <$> <[i := n']> l) + length (children_indices n) =
   sum_list ((λ n, length (children_indices n)) <$> l) + length (children_indices n'))%nat.
Proof. intros Hi. rewrite list_fmap_insert. apply sum_list_insert. by rewrite list_lookup_fmap, Hi. Qed.

Lemma add_edge_count g p c g' :
  add_edge g p c = Ok (inr g') → has_edge g p c = Ok (inr false) →
  edge_count g' = S (edge_count g).
Proof.
  unfold add_edge, has_edge. destruct (id_to_index g !! p) as [i|]; [|done].
  destruct (id_to_index g !! c) as [j|]; [|done].
  destruct (nodes g !! i) as [n|] eqn:Hn; simpl; [|done]. case_bool_decide; [done|]. simpl.
  destruct (<[i:=push_child n j]> (nodes g) !! j) as [m|] eqn:Hm; simpl; [|done]. intros [= <-] _.
  unfold edge_count. simpl.
  pose proof (edge_count_insert _ j m (push_parent m i) Hm) as H1.
  pose proof (edge_count_insert _ i n (push_child n j) Hn) as H2. simpl in *.
  rewrite length_app in H2. simpl in *. lia.
Qed.

(** *** Connecting the two halves *)

Section connect.
Context (g0 other : TransactionGraph) (base : nat).
Context (Hwf0 : graph_wf g0) (Hother : graph_wf other).
Context (Hbase : ∀ a id i, tail_txns g0 !! a = Some id → id_to_index g0 !! id = Some i → (i < base)%nat).
Context (Hshift : ∀ id i, id_to_index other !! id = Some i → id_to_index g0 !! id = Some (base + i)%nat).

(** The edge that address [x] asks for. *)
Definition cross_edge (x : N) (a b : nat) : Prop :=
  ∃ tail_id head_id, tail_txns g0 !! x = Some tail_id ∧ head_txns other !! x = Some head_id ∧
    id_to_index g0 !! tail_id = Some a ∧ id_to_index g0 !! head_id = Some b.

Record connected (done : list N) (g : TransactionGraph) (cnt : nat) : Prop := {
  con_links : links_wf (nodes g);
  con_nodes : same_nodes (nodes g0) (nodes g);
  con_ids : id_to_index g = id_to_index g0;
  con_edges : ∀ a b, edge g a b ↔ edge g0 a b ∨ ∃ x, x ∈ done ∧ cross_edge x a b;
  con_tails : ∀ x, tail_txns g !! x =
    if decide (x ∈ done) then tail_txns other !! x ∪ tail_txns g0 !! x else tail_txns g0 !! x;
  con_heads : ∀ x, head_txns g !! x =
    if decide (x ∈ done) then head_txns g0 !! x ∪ head_txns other !! x else head_txns g0 !! x;
  con_count : edge_count g = (edge_count g0 + cnt)%nat }.

Lemma connected_wf done g cnt : connected done g cnt → graph_wf g.
Proof.
  intros [Hl Hn Hi He Ht Hh _]. split; [done|..]; rewrite ?Hi.
  - eapply ids_wf_same; [done|apply Hwf0].
  - eapply keys_sorted_same; [done|apply Hwf0].
  - intros x id. rewrite Hh. case_decide; [|apply (wf_heads g0 Hwf0)].
    intros [?|[_ Hx]]%union_Some; [by eapply (wf_heads g0 Hwf0)|].
    destruct (wf_heads other Hother x id Hx) as [i Hi']. exists (base + i)%nat. by apply Hshift.
  - intros x id. rewrite Ht. case_decide; [|apply (wf_tails g0 Hwf0)].
    intros [Hx|[_ ?]]%union_Some; [|by eapply (wf_tails g0 Hwf0)].
    destruct (wf_tails other Hother x id Hx) as [i Hi']. exists (base + i)%nat. by apply Hshift.
  - intros x. rewrite Ht, Hh. pose proof (wf_ends g0 Hwf0 x) as H0. pose proof (wf_ends other Hother x) as H1.
    case_decide; [|done]. rewrite !union_is_Some. tauto.
Qed.

Lemma take_tail_eq g x :
  tail_txns (take_tail other g x) !! x = tail_txns other !! x ∪ tail_txns g !! x.
Proof.
  unfold take_tail. destruct (tail_txns other !! x) as [t|]; simpl; [rewrite lookup_insert_eq|];
    by destruct (tail_txns g !! x).
Qed.

Lemma take_tail_ne g x y : x ≠ y → tail_txns (take_tail other g x) !! y = tail_txns g !! y.
Proof. intros. unfold take_tail. destruct (tail_txns other !! x); simpl; [by rewrite lookup_insert_ne|done]. Qed.

Lemma take_tail_frame g x :
  nodes (take_tail other g x) = nodes g ∧ id_to_index (take_tail other g x) = id_to_index g ∧
  head_txns (take_tail other g x) = head_txns g.
Proof. unfold take_tail. by destruct (tail_txns other !! x). Qed.

(** The end maps after the address [x] is processed. *)
Lemma connected_ends done g cnt x g1 :
  connected done g cnt → x ∉ done →
  tail_txns g1 = tail_txns g →
  (∀ y, head_txns g1 !! y = if decide (y = x) then head_txns g0 !! x ∪ head_txns other !! x
                            else head_txns g !! y) →
  let g' := take_tail other g1 x in
  (∀ y, tail_txns g' !! y = if decide (y ∈ done ++ [x]) then tail_txns other !! y ∪ tail_txns g0 !! y
                            else tail_txns g0 !! y) ∧
  (∀ y, head_txns g' !! y = if decide (y ∈ done ++ [x]) then head_txns g0 !! y ∪ head_txns other !! y
                            else head_txns g0 !! y).
Proof.
  intros [_ _ _ _ Ht Hh _] Hx Ht1 Hh1 g'. destruct (take_tail_frame g1 x) as (_ & _ & Hframe).
  split; intros y.
  - destruct (decide (y = x)) as [->|Hne].
    + rewrite decide_True by set_solver. unfold g'. rewrite take_tail_eq, Ht1, Ht.
      by rewrite decide_False by done.
    + unfold g'. rewrite take_tail_ne, Ht1, Ht by done. apply decide_ext. set_solver.
  - unfold g'. rewrite Hframe, Hh1. destruct (decide (y = x)) as [->|Hne].
    + by rewrite decide_True by set_solver.
    + rewrite Hh. apply decide_ext. set_solver.
Qed.

Lemma connect_address_spec done g cnt x :
  connected done g cnt → x ∉ done →
  ∃ g' cnt', connect_address other (g, cnt, None) x = Ok (g', cnt', None) ∧
    connected (done ++ [x]) g' cnt'.
Proof.
  intros Hc Hx. pose proof (connected_wf _ _ _ Hc) as Hwf. pose proof Hc as [Hl Hn Hi He Ht Hh Hcnt].
  assert (Htx : tail_txns g !! x = tail_txns g0 !! x) by (rewrite Ht; by rewrite decide_False).
  assert (Hhx : head_txns g !! x = head_txns g0 !! x) by (rewrite Hh; by rewrite decide_False).
  assert (Hsnoc : ∀ a b, (∃ y, y ∈ done ++ [x] ∧ cross_edge y a b) ↔
                         (∃ y, y ∈ done ∧ cross_edge y a b) ∨ cross_edge x a b) by set_solver.
  unfold connect_address.
  destruct (head_txns other !! x) as [h|] eqn:Hho.
  2: { (* the second graph does not touch the address *)
    assert (Hto : tail_txns other !! x = None).
    { apply eq_None_not_Some. intros Hs%(wf_ends other Hother). rewrite Hho in Hs. by destruct Hs. }
    assert (Hres : connected (done ++ [x]) g cnt).
    { split; try done.
      - intros a b. rewrite He, Hsnoc. unfold cross_edge at 3. rewrite Hho. naive_solver.
      - intros y. rewrite Ht. destruct (decide (y = x)) as [->|].
        + rewrite decide_False, decide_True, Hto by set_solver. by destruct (tail_txns g0 !! x).
        + apply decide_ext. set_solver.
      - intros y. rewrite Hh. destruct (decide (y = x)) as [->|].
        + rewrite decide_False, decide_True, Hho by set_solver. by destruct (head_txns g0 !! x).
        + apply decide_ext. set_solver. }
    exists g, cnt. by destruct (tail_txns g !! x). }
  destruct (wf_heads other Hother x h Hho) as [j Hj]. apply Hshift in Hj.
  rewrite Htx. destruct (tail_txns g0 !! x) as [t|] eqn:Htg.
  - (* both graphs touch it *)
    destruct (wf_tails g0 Hwf0 x t Htg) as [i Hti]. pose proof (Hbase x t i Htg Hti) as Hlt.
    destruct (proj2 (wf_ends g0 Hwf0 x)) as [h0 Hh0]; [by exists t|].
    destruct (proj1 (wf_ids g Hwf t i)) as (n & Hni & _); [by rewrite Hi|].
    assert (Hcross : ∀ a b, cross_edge x a b ↔ a = i ∧ b = (base + j)%nat).
    { intros a b. unfold cross_edge. rewrite Htg, Hho. split.
      - intros (? & ? & [= <-] & [= <-] & ? & ?). split; congruence.
      - intros [-> ->]. by exists t, h. }
    destruct (add_edge_spec g t h i (base + j)) as (g1 & Hadd & Hwf1 & Hs1 & He1);
      [done|by rewrite Hi|by rewrite Hi|lia|].
    destruct Hs1 as (Hsn & Hsi & Hsh & Hst).
    assert (Hends : ∀ g1, head_txns g1 = head_txns g → tail_txns g1 = tail_txns g → ∀ y,
      head_txns g1 !! y = if decide (y = x) then head_txns g0 !! x ∪ head_txns other !! x else head_txns g !! y).
    { intros g2 Hg2 _ y. rewrite Hg2. case_decide as Hy; [subst y|done]. rewrite Hhx, Hh0. by rewrite union_Some_l. }
    destruct (take_tail_frame g x) as (Hfn & Hfi & _). destruct (take_tail_frame g1 x) as (Hfn1 & Hfi1 & _).
    unfold has_edge. rewrite Hi, Hti, Hj, Hni. simpl. case_bool_decide as Hin.
    + exists (take_tail other g x), cnt. split; [done|].
      destruct (connected_ends done g cnt x g Hc Hx eq_refl (Hends g eq_refl eq_refl)) as [Ht' Hh'].
      split; rewrite ?Hfn, ?Hfi; try done; [|by unfold edge_count; rewrite Hfn].
      intros a b. unfold edge at 1. rewrite Hfn, Hsnoc, Hcross. fold (edge g a b). rewrite He.
      split; [tauto|]. intros [?|[?|[-> ->]]]; [tauto..|]. apply He. by exists n.
    + rewrite Hadd. simpl. exists (take_tail other g1 x), (S cnt). split; [done|].
      destruct (connected_ends done g cnt x g1 Hc Hx Hst (Hends g1 Hsh Hst)) as [Ht' Hh'].
      split; rewrite ?Hfn1, ?Hfi1; try done; [apply Hwf1|by eapply same_nodes_trans|congruence|..].
      * intros a b. unfold edge at 1. rewrite Hfn1, Hsnoc, Hcross. fold (edge g1 a b). rewrite He1, He. tauto.
      * replace (edge_count (take_tail other g1 x)) with (edge_count g1)
          by (unfold edge_count; by rewrite Hfn1). rewrite (add_edge_count g t h g1 Hadd); [lia|].
        unfold has_edge. rewrite Hi, Hti, Hj, Hni. simpl. by rewrite bool_decide_eq_false_2.
  - (* only the second graph touches it *)
    assert (Hh0 : head_txns g0 !! x = None).
    { apply eq_None_not_Some. intros Hs%(wf_ends g0 Hwf0). rewrite Htg in Hs. by destruct Hs. }
    set (g1 := with_ends g (<[x:=h]> (head_txns g)) (tail_txns g)).
    destruct (take_tail_frame g1 x) as (Hfn & Hfi & _).
    exists (take_tail other g1 x), cnt. split; [done|].
    destruct (connected_ends done g cnt x g1 Hc Hx eq_refl) as [Ht' Hh'].
    { intros y. simpl. case_decide as Hy; [subst y|by rewrite lookup_insert_ne].
      by rewrite lookup_insert_eq, Hh0, Hho. }
    split; rewrite ?Hfn, ?Hfi; try done; [|by unfold edge_count; rewrite Hfn].
    intros a b. unfold edge at 1. rewrite Hfn, Hsnoc. change (edge_in (nodes g1) a b) with (edge g a b).
    rewrite He. unfold cross_edge at 3. rewrite Htg. naive_solver.
Qed.

Lemma connect_all_spec l : ∀ done g cnt,
  connected done g cnt → NoDup (done ++ l) →
  ∃ g' cnt', foldM (connect_address other) (g, cnt, None) l = Ok (g', cnt', None) ∧
    connected (done ++ l) g' cnt'.
Proof.
  induction l as [|x l IH]; intros done g cnt Hc Hnd; cbn [foldM].
  { exists g, cnt. by rewrite app_nil_r. }
  destruct (connect_address_spec done g cnt x Hc) as (g1 & cnt1 & -> & Hc1).
  { apply NoDup_app in Hnd as (_ & Hd & _). intros Hin. apply (Hd x Hin). left. }
  simpl. destruct (IH (done ++ [x]) g1 cnt1 Hc1) as (g2 & cnt2 & -> & Hc2); [by rewrite <-app_assoc|].
  exists g2, cnt2. split; [done|]. by rewrite <-app_assoc in Hc2.
Qed.
End connect.

(** The graph after steps 2 and 3: both node lists, the second one shifted. *)
Definition side_by_side (g other g0 : TransactionGraph) : Prop :=
  nodes g0 = nodes g ++ (shift_node (length (nodes g)) <$> nodes other) ∧
  ids_wf (id_to_index g0) (nodes g0) ∧ head_txns g0 = head_txns g ∧ tail_txns g0 = tail_txns g.

Lemma graph_ids_nodup g : graph_wf g → NoDup (transaction_id <$> nodes g).
Proof.
  intros Hwf. apply NoDup_alt. intros i j id Hi Hj.
  rewrite list_lookup_fmap in Hi, Hj.
  destruct (nodes g !! i) as [n|] eqn:Hn; [|done]. destruct (nodes g !! j) as [m|] eqn:Hm; [|done].
  simpl in *. assert (id_to_index g !! id = Some i) by (apply (wf_ids g Hwf); exists n; split; [done|congruence]).
  assert (id_to_index g !! id = Some j) by (apply (wf_ids g Hwf); exists m; split; [done|congruence]). congruence.
Qed.

Lemma integrate_side_by_side g other :
  graph_wf g → graph_wf other → id_to_index g ##ₘ id_to_index other →
  ∃ g0, foldM (remap_node (length (nodes g)) other) (foldl append_node g (nodes other))
          (seq 0 (length (nodes other))) = Ok g0 ∧ side_by_side g other g0.
Proof.
  intros Hwf Hwo Hdisj.
  destruct (append_nodes_spec (nodes other) g) as (Hn & Hi & Hh & Ht);
    [apply Hwf|by apply graph_ids_nodup| |].
  { intros n [i Hi]%list_elem_of_lookup_1. destruct (id_to_index g !! transaction_id n) eqn:Hg; [|done].
    exfalso. eapply (map_disjoint_spec (id_to_index g)); [done|done|]. apply (wf_ids other Hwo). by exists n. }
  eexists. split; [by apply remap_nodes_spec|].
  rewrite firstn_all, drop_all, app_nil_r.
  split; [done|]. split; [|done]. simpl. eapply ids_wf_same; [|done]. rewrite Hn.
  unfold same_nodes. rewrite !fmap_app. f_equal. apply same_nodes_shift.
Qed.

Lemma side_by_side_index g other g0 id i :
  graph_wf g → graph_wf other → side_by_side g other g0 →
  (id_to_index g !! id = Some i → id_to_index g0 !! id = Some i) ∧
  (id_to_index other !! id = Some i → id_to_index g0 !! id = Some (length (nodes g) + i)%nat).
Proof.
  intros Hwf Hwo (Hn & Hi & _). split.
  - intros (n & Hni & Hid)%(wf_ids g Hwf). apply Hi. exists n. rewrite Hn. split; [|done].
    by apply lookup_app_l_Some.
  - intros (n & Hni & Hid)%(wf_ids other Hwo). apply Hi. exists (shift_node (length (nodes g)) n).
    rewrite Hn. split; [|done]. rewrite lookup_app_r by lia.
    replace (length (nodes g) + i - length (nodes g))%nat with i by lia. by rewrite list_lookup_fmap, Hni.
Qed.

Lemma side_by_side_wf g other g0 :
  graph_wf g → graph_wf other → side_by_side g other g0 → graph_wf g0.
Proof.
  intros Hwf Hwo Hs. pose proof Hs as (Hn & Hi & Hh & Ht). split; rewrite ?Hh, ?Ht; [|done|..].
  - rewrite Hn. apply links_wf_app_shift; [apply Hwf|apply Hwo].
  - rewrite Hn. intros i n [Hni|[_ Hni]]%lookup_app_Some; [by eapply (wf_keys g Hwf)|].
    rewrite list_lookup_fmap in Hni. destruct (nodes other !! (i - length (nodes g))%nat) eqn:Ho; [|done].
    injection Hni as <-. apply (wf_keys other Hwo _ _ Ho).
  - intros a id [i Hid]%(wf_heads g Hwf). exists i. by apply (side_by_side_index g other g0 id i Hwf Hwo Hs).
  - intros a id [i Hid]%(wf_tails g Hwf). exists i. by apply (side_by_side_index g other g0 id i Hwf Hwo Hs).
  - apply Hwf.
Qed.

Lemma side_by_side_count g other g0 :
  side_by_side g other g0 → edge_count g0 = (edge_count g + edge_count other)%nat.
Proof.
  intros (Hn & _). unfold edge_count. rewrite Hn, fmap_app, <-list_fmap_compose, sum_list_with_app.
  unfold compose. f_equal. f_equal. apply list_fmap_ext. intros i n _. simpl. by rewrite length_fmap.
Qed.

Lemma integrate_graph_spec g other :
  graph_wf g → graph_wf other → id_to_index g ##ₘ id_to_index other →
  ∃ g' added, integrate_graph g other = Ok (g', inr added) ∧ graph_wf g' ∧
    same_nodes (nodes g ++ nodes other) (nodes g') ∧
    (∀ a b, edge g' a b ↔ edge g a b ∨
       (∃ i j, a = (length (nodes g) + i)%nat ∧ b = (length (nodes g) + j)%nat ∧ edge other i j) ∨
       (∃ x t h j, tail_txns g !! x = Some t ∧ head_txns other !! x = Some h ∧
          id_to_index g !! t = Some a ∧ id_to_index other !! h = Some j ∧
          b = (length (nodes g) + j)%nat)) ∧
    (∀ x, tail_txns g' !! x = tail_txns other !! x ∪ tail_txns g !! x) ∧
    (∀ x, head_txns g' !! x = head_txns g !! x ∪ head_txns other !! x) ∧
    edge_count g' = (edge_count g + edge_count other + added)%nat.
Proof.
  intros Hwf Hwo Hdisj. unfold integrate_graph.
  destruct (integrate_side_by_side g other Hwf Hwo Hdisj) as (g0 & -> & Hs). simpl.
  pose proof (side_by_side_wf _ _ _ Hwf Hwo Hs) as Hwf0. pose proof Hs as (Hn0 & Hi0 & Hh0 & Ht0).
  set (base := length (nodes g)) in *.
  assert (Hidx : ∀ id i, id_to_index other !! id = Some i → id_to_index g0 !! id = Some (base + i)%nat)
    by (intros id i; apply (side_by_side_index g other g0 id i Hwf Hwo Hs)).
  assert (Hlow : ∀ id i, id_to_index g !! id = Some i → (i < base)%nat).
  { intros id i (n & Hn & _)%(wf_ids g Hwf). by eapply lookup_lt_Some. }
  assert (Hbase : ∀ a id i, tail_txns g0 !! a = Some id → id_to_index g0 !! id = Some i → (i < base)%nat).
  { intros a id i Ha Hid. rewrite Ht0 in Ha. destruct (wf_tails g Hwf a id Ha) as [k Hk].
    assert (id_to_index g0 !! id = Some k) by (by apply (side_by_side_index g other g0 id k Hwf Hwo Hs)).
    replace i with k by congruence. eauto. }
  set (addrs := hash_iter _).
  destruct (connect_all_spec g0 other base Hwf0 Hwo Hbase Hidx addrs [] g0 0) as (g' & added & -> & Hc).
  { split; try done; [apply Hwf0|]. intros a b. set_solver. }
  { apply hash_iter_nodup. }
  simpl. exists g', added. split; [done|].
  pose proof (connected_wf _ _ _ Hwf0 Hwo Hidx _ _ _ Hc) as Hwf'. destruct Hc as [_ Hcn Hci Hce Hct Hch Hcc].
  assert (Haddr : ∀ x, x ∉ addrs → head_txns g !! x = None ∧ tail_txns g !! x = None ∧
                       head_txns other !! x = None ∧ tail_txns other !! x = None).
  { intros x Hx. unfold addrs in Hx. rewrite elem_of_hash_iter in Hx. unfold graph_addresses in Hx.
    rewrite !not_elem_of_union, !not_elem_of_dom in Hx. tauto. }
  split; [done|]. split.
  { eapply same_nodes_trans; [|exact Hcn]. rewrite Hn0. unfold same_nodes. rewrite !fmap_app. f_equal.
    apply same_nodes_shift. }
  split; [|split; [|split]].
  - intros a b. rewrite Hce. unfold edge at 1. rewrite Hn0. unfold base. rewrite edge_in_app_shift.
    2: { intros i j ?%(links_order _ (wf_links g Hwf)). lia. }
    fold base.
    rewrite Logic.or_assoc. do 2 apply or_iff_compat_l. split.
    + intros (x & Hx & t & h & Ht & Hh & Ha & Hb). rewrite Ht0 in Ht.
      destruct (wf_tails g Hwf x t Ht) as [k Hk]. destruct (wf_heads other Hwo x h Hh) as [j Hj].
      exists x, t, h, j. split; [done|]. split; [done|].
      assert (id_to_index g0 !! t = Some k) by (by apply (side_by_side_index g other g0 t k Hwf Hwo Hs)).
      specialize (Hidx h j Hj). repeat split; congruence.
    + intros (x & t & h & j & Ht & Hh & Ha & Hj & ->). exists x. split.
      * destruct (decide (x ∈ addrs)) as [|Hx]; [done|]. apply Haddr in Hx. naive_solver congruence.
      * exists t, h. rewrite Ht0. split; [done|]. split; [done|]. split; [by apply (side_by_side_index g other g0 t a Hwf Hwo Hs)|auto].
  - intros x. rewrite Hct, Ht0. simpl. case_decide as Hx; [done|].
    destruct (Haddr x Hx) as (_ & -> & _ & ->). done.
  - intros x. rewrite Hch, Hh0. simpl. case_decide as Hx; [done|].
    destruct (Haddr x Hx) as (-> & _ & -> & _). done.
  - rewrite Hcc. f_equal. by apply side_by_side_count.
Qed.
(** C25: integrating one graph into another with no common transaction keeps both
    graphs side by side (the second one shifted past the first), adds exactly the edges
    that lead from the last transaction of the first graph on an address to the first
    one of the second graph on it, returns the number of edges it added, and leaves a
    well-formed graph, in which every edge still leads forward. *)
Theorem integrate_graph_correct g other :
  graph_wf g → graph_wf other → id_to_index g ##ₘ id_to_index other →
  ∃ g' added, integrate_graph g other = Ok (g', inr added) ∧ graph_wf g' ∧
    same_nodes (nodes g ++ nodes other) (nodes g') ∧
    (∀ a b, edge g' a b ↔ edge g a b ∨
       (∃ i j, a = (length (nodes g) + i)%nat ∧ b = (length (nodes g) + j)%nat ∧ edge other i j) ∨
       (∃ x t h j, tail_txns g !! x = Some t ∧ head_txns other !! x = Some h ∧
          id_to_index g !! t = Some a ∧ id_to_index other !! h = Some j ∧
          b = (length (nodes g) + j)%nat)) ∧
    (∀ x, tail_txns g' !! x = tail_txns other !! x ∪ tail_txns g !! x) ∧
    (∀ x, head_txns g' !! x = head_txns g !! x ∪ head_txns other !! x) ∧
    edge_count g' = (edge_count g + edge_count other + added)%nat.
Proof. apply integrate_graph_spec. Qed.
End construction.

(** ** Examples *)

Notation node_of id gas := (TransactionNode_new id 0 1 gas).

Lemma TransactionNode_new_sorted id replica round gas reads writes :
  keys_sorted (TransactionNode_new id replica round gas reads writes).
Proof. split; simpl; apply (StronglySorted_merge_sort N.le). Qed.

Lemma elem_of_new_write_set id replica round gas reads writes x :
  x ∈ write_set (TransactionNode_new id replica round gas reads writes) ↔ x ∈ writes.
Proof. simpl. rewrite merge_sort_Permutation. apply elem_of_elements. Qed.

Lemma touches_new id replica round gas reads writes x :
  touches (TransactionNode_new id replica round gas reads writes) x ↔ x ∈ reads ∨ x ∈ writes.
Proof.
  unfold touches, all_addresses_of. simpl. rewrite elem_of_union, !elem_of_list_to_set, !merge_sort_Permutation.
  by rewrite !elem_of_elements.
Qed.

(** Nodes that come from [TransactionNode::new] with distinct identifiers. *)
Lemma block_nodes_new ns :
  NoDup (transaction_id <$> ns) →
  (∀ n, n ∈ ns → ∃ id replica round gas reads writes,
     n = TransactionNode_new id replica round gas reads writes) →
  block_nodes ns.
Proof.
  intros Hid Hns. split; [done|..]; intros i n Hn; apply list_elem_of_lookup_2, Hns in Hn as (?&?&?&?&?&?&->);
    [done|apply TransactionNode_new_sorted].
Qed.

(** The first transaction writes a key, the second reads it, the third writes it. *)
Definition waw_block : list TransactionNode := [node_of 0 10 ∅ {[7]}; node_of 1 5 {[7]} ∅; node_of 2 4 ∅ {[7]}].

Lemma waw_block_nodes : block_nodes waw_block.
Proof.
  apply block_nodes_new; [apply (bool_decide_unpack _); vm_compute; done|].
  intros n. unfold waw_block. set_solver by eauto 10.
Qed.

(** a transaction that only reads a key still becomes the tail of that key, so
    the conflict between the writers on either side of it gets no edge, although the
    comment of the construction asks for the write-after-write conflicts: the first and the
    third transaction write the same key, and the first one has no edge at all. *)
Theorem waw_edge_lost `{!HashOrder N} `{!HashOrder TransactionId} :
  ∃ g n0 n2, build_graph waw_block = Ok g ∧
    waw_block !! 0%nat = Some n0 ∧ waw_block !! 2%nat = Some n2 ∧ writes_meet n0 n2 ∧
    ∀ j, ¬ edge g 0 j.
Proof.
  destruct (build_graph_built waw_block waw_block_nodes) as (g & Hg & Hb).
  eexists g, _, _. split; [done|]. split; [done|]. split; [done|]. split.
  { exists 7. by rewrite !elem_of_new_write_set, !elem_of_singleton. }
  intros j. rewrite (built_edges _ _ Hb). intros (a & ni & nj & Hi & Hj & Ht & (Hlt & _ & Hno) & x & Hx & Hx').
  simpl in Hi. injection Hi as <-.
  destruct j as [|[|[|j]]]; [lia| | |by destruct j]; injection Hj as <-.
  - rewrite elem_of_new_write_set in Hx'. set_solver.
  - eapply (Hno 1%nat); [lia|done|]. rewrite touches_new in *. set_solver.
Qed.

Lemma graph_edges_exact_witness :
  block_nodes waw_block ∧
  ∃ g, @build_graph (elements_order N) (elements_order TransactionId) waw_block = Ok g ∧
       (∀ i j, edge g i j → (i < j)%nat).
Proof.
  split; [exact waw_block_nodes|].
  destruct (@graph_edges_exact (elements_order N) (elements_order TransactionId) waw_block waw_block_nodes)
    as (g & Hg & _ & _ & Hlt & _).
  exists g. split; assumption.
Defined.

(** Two blocks that meet on key 7. *)
Definition first_block : list TransactionNode := [node_of 0 10 ∅ {[7]}].
Definition second_block : list TransactionNode := [node_of 1 5 {[7]} {[8]}].

#[local] Existing Instance elements_order.

Lemma built_disjoint ns1 ns2 g1 g2 :
  built ns1 g1 → built ns2 g2 →
  (∀ n1 n2, n1 ∈ ns1 → n2 ∈ ns2 → transaction_id n1 ≠ transaction_id n2) →
  id_to_index g1 ##ₘ id_to_index g2.
Proof.
  intros H1 H2 Hne. apply map_disjoint_spec. intros id i j Hi Hj.
  apply (wf_ids _ (built_wf _ _ H1)) in Hi as (m1 & Hm1 & Hid1).
  apply (wf_ids _ (built_wf _ _ H2)) in Hj as (m2 & Hm2 & Hid2).
  destruct (same_nodes_lookup _ _ i m1 (built_nodes _ _ H1) Hm1) as (n1 & Hn1 & [E1 _]%with_links_inj).
  destruct (same_nodes_lookup _ _ j m2 (built_nodes _ _ H2) Hm2) as (n2 & Hn2 & [E2 _]%with_links_inj).
  eapply (Hne n1 n2); [by eapply list_elem_of_lookup_2..|congruence].
Qed.

Lemma sample_graphs : ∃ g1 g2,
  build_graph first_block = Ok g1 ∧ build_graph second_block = Ok g2 ∧
  graph_wf g1 ∧ graph_wf g2 ∧ id_to_index g1 ##ₘ id_to_index g2.
Proof.
  assert (H1 : block_nodes first_block).
  { apply block_nodes_new; [apply (bool_decide_unpack _); vm_compute; done|].
    unfold first_block. set_solver by eauto 10. }
  assert (H2 : block_nodes second_block).
  { apply block_nodes_new; [apply (bool_decide_unpack _); vm_compute; done|].
    unfold second_block. set_solver by eauto 10. }
  destruct (build_graph_built _ H1) as (g1 & Hg1 & Hb1). destruct (build_graph_built _ H2) as (g2 & Hg2 & Hb2).
  exists g1, g2. split; [done|]. split; [done|]. split; [apply Hb1|]. split; [apply Hb2|].
  eapply built_disjoint; [done|done|]. intros n1 n2 ->%list_elem_of_singleton ->%list_elem_of_singleton. done.
Qed.

Lemma integrate_graph_correct_witness :
  ∃ g1 g2 g', build_graph first_block = Ok g1 ∧ build_graph second_block = Ok g2 ∧
    (∃ added, integrate_graph g1 g2 = Ok (g', inr added)) ∧ graph_wf g'.
Proof.
  destruct sample_graphs as (g1 & g2 & H1 & H2 & Hw1 & Hw2 & Hd).
  destruct (integrate_graph_correct g1 g2 Hw1 Hw2 Hd) as (g' & added & Hg & Hwf & _).
  exists g1, g2, g'. split; [exact H1|]. split; [exact H2|]. split; [exists added; exact Hg|exact Hwf].
Defined.

(** The tail of the first block is connected to the head of the second one. *)
Example integrate_adds_edge :
  (g1 ← build_graph first_block; g2 ← build_graph second_block;
   r ← integrate_graph g1 g2; Ok ((dependencies r.1 1, edge_count r.1), r.2)) = Ok (([0%nat], 1%nat), inr 1%nat).
Proof. vm_compute. reflexivity. Qed.
