(* ===== verification/GraphSim.v ===== *)
(** * Simulated execution of a dependency graph

    Models the second half of src/pevm/crates/pevm/src/dependency_graph.rs: the
    longest suffix of every transaction, the simulation of an execution on [k]
    threads, its statistics, the access spans of the keys and the hot keys. A
    [BinaryHeap] is a list kept in descending order; [f64] is the binary64 instance of
    the Standard Library's [SpecFloat]. *)

From Stdlib Require Import SpecFloat.
From S2P Require Import Prelude Graph.

(** ** f64 *)

Definition f64_of_u64 (n : N) : spec_float := binary_normalize 53 1024 (Z.of_N n) 0 false.
Definition f64_add : spec_float → spec_float → spec_float := SFadd 53 1024.
Definition f64_sub : spec_float → spec_float → spec_float := SFsub 53 1024.
Definition f64_mul : spec_float → spec_float → spec_float := SFmul 53 1024.
Definition f64_div : spec_float → spec_float → spec_float := SFdiv 53 1024.
Definition f64_sqrt : spec_float → spec_float := SFsqrt 53 1024.
Definition f64_gt (a b : spec_float) : bool := SFltb b a.
Definition f64_le (a b : spec_float) : bool := SFleb a b.
Definition f64_zero : spec_float := S754_zero false.
Definition f64_infinity : spec_float := S754_infinity false.
Definition f64_sum (l : list spec_float) : spec_float := foldl f64_add f64_zero l.

(** ** Binary heaps *)

Section heap.
Context {A : Type} (before : A → A → bool).

(** [push]: the list is ordered by [before], the next element to pop comes first. *)
Fixpoint heap_push (x : A) (h : list A) : list A :=
  match h with
  | [] => [x]
  | y :: h' => if before x y then x :: h else y :: heap_push x h'
  end.

Lemma heap_push_perm x h : heap_push x h ≡ₚ x :: h.
Proof.
  induction h as [|y h IH]; simpl; [done|]. destruct (before x y); [done|].
  rewrite IH. apply Permutation_swap.
Qed.
End heap.

(** The derived order of [HeapEntry]: suffix, then identifier, then replica. *)
Definition entry_ge (a b : HeapEntry) : bool :=
  match he_suffix a ?= he_suffix b with
  | Gt => true
  | Lt => false
  | Eq => match tid_id (he_tx_id a) ?= tid_id (he_tx_id b) with
          | Gt => true
          | Lt => false
          | Eq => bool_decide (tid_replica (he_tx_id b) ≤ tid_replica (he_tx_id a))
          end
  end.

Record EstimatedCompletion := mkCompletion { ec_time : N; ec_thread_id : nat }.

(** The reversed order of [EstimatedCompletion]: the earliest event is popped first. *)
Definition completion_le (a b : EstimatedCompletion) : bool :=
  match ec_time a ?= ec_time b with
  | Lt => true
  | Gt => false
  | Eq => bool_decide (ec_thread_id a ≤ ec_thread_id b)%nat
  end.

Definition with_heap (g : TransactionGraph) (h : list HeapEntry) : TransactionGraph :=
  mkGraph (nodes g) (id_to_index g) (head_txns g) (tail_txns g) h
    (simulation_result g) (temp_parents g) (hot_key_threshold g) (hot_keys g).
Definition with_temp_parents (g : TransactionGraph) (t : list N) : TransactionGraph :=
  mkGraph (nodes g) (id_to_index g) (head_txns g) (tail_txns g) (txns_without_parent g)
    (simulation_result g) t (hot_key_threshold g) (hot_keys g).
Definition with_result (g : TransactionGraph) (r : option SimulationResult) : TransactionGraph :=
  mkGraph (nodes g) (id_to_index g) (head_txns g) (tail_txns g) (txns_without_parent g)
    r (temp_parents g) (hot_key_threshold g) (hot_keys g).
Definition with_hot_keys (g : TransactionGraph) (h : gset N) : TransactionGraph :=
  mkGraph (nodes g) (id_to_index g) (head_txns g) (tail_txns g) (txns_without_parent g)
    (simulation_result g) (temp_parents g) (hot_key_threshold g) h.

(** ** Longest suffix *)

(** The recursion enters a node at most once, so its depth is at most the number of
    nodes. The first two components of the state are the nodes and [visited]. *)
Fixpoint postorder_dfs (fuel : nat) (ns : list TransactionNode) (visited : list bool) (node_idx : nat)
    : outcome (list TransactionNode * list bool * N) :=
  match fuel with
  | O => OutOfFuel
  | S fuel =>
      v ← expect (visited !! node_idx);
      node ← expect (ns !! node_idx);
      if (v : bool) then Ok (ns, visited, longest_suffix node)
      else
        let visited := <[node_idx := true]> visited in
        '(ns, visited, max_child_suffix) ←
          foldM (λ '(ns, visited, max_child_suffix) child_idx,
                   '(ns, visited, child_suffix) ← postorder_dfs fuel ns visited child_idx;
                   Ok (ns, visited, N.max max_child_suffix child_suffix))
            (ns, visited, 0) (children_indices node);
        node ← expect (ns !! node_idx);
        let new_suffix := u64_add (gas_cost node) max_child_suffix in
        Ok (<[node_idx := with_suffix node new_suffix]> ns, visited, new_suffix)
  end.

(** The nodes that are nobody's child. *)
Definition mark_children (ns : list TransactionNode) : outcome (list bool) :=
  foldM (λ has_parent node,
           foldM (λ has_parent child_idx,
                    _ ← expect (has_parent !! child_idx); Ok (<[child_idx := true]> has_parent))
             has_parent (children_indices node))
    (replicate (length ns) false) ns.

Definition root_nodes (has_parent : list bool) : list nat :=
  List.filter (λ idx, negb (default false (has_parent !! idx))) (seq 0 (length has_parent)).

(** Step 3 for one root. *)
Definition visit_root (st : TransactionGraph * list bool) (root_idx : nat)
    : outcome (TransactionGraph * list bool) :=
  let '(g, visited) := st in
  '(ns, visited, _) ← postorder_dfs (S (length (nodes g))) (nodes g) visited root_idx;
  let g := with_nodes g ns in
  root_node ← expect (nodes g !! root_idx);
  let entry := mkHeapEntry (longest_suffix root_node) (transaction_id root_node) in
  Ok (with_heap g (heap_push entry_ge entry (txns_without_parent g)), visited).

Definition update_longest_suffix_postorder (g : TransactionGraph) : outcome TransactionGraph :=
  let n := length (nodes g) in
  if bool_decide (n = 0%nat) then Ok g
  else
    has_parent ← mark_children (nodes g);
    let g := with_heap g [] in
    '(g, _) ← foldM visit_root (g, replicate n false) (root_nodes has_parent);
    Ok g.

Definition pop_txn_without_parent (g : TransactionGraph) : TransactionGraph * option TransactionId :=
  match txns_without_parent g with
  | [] => (g, None)
  | entry :: h => (with_heap g h, Some (he_tx_id entry))
  end.

(** ** Threads *)

Definition ThreadState_new (i : nat) : ThreadState := mkThread i None 0 [].

Definition is_idle (t : ThreadState) : bool := bool_decide (current_transaction t = None).

Definition assign_transaction (t : ThreadState) (tx_id : TransactionId) (current_time cost : N)
    : ThreadState :=
  mkThread (thread_id t) (Some tx_id) (u64_add current_time cost) (completed_transactions t).

Definition complete_transaction (t : ThreadState) : ThreadState * option TransactionId :=
  match current_transaction t with
  | Some tx_id => (mkThread (thread_id t) None (completion_time t)
                     (completed_transactions t ++ [tx_id]), Some tx_id)
  | None => (t, None)
  end.

(** ** The simulation *)

Definition u32_modulus : N := 2 ^ 32.

(** The loop over the children; [*remaining -= 1] is on [u32]. *)
Definition release_child (g : TransactionGraph) (child_idx : nat) : outcome TransactionGraph :=
  remaining ← expect (temp_parents g !! child_idx);
  let remaining := (remaining + u32_modulus - 1) mod u32_modulus in
  let g := with_temp_parents g (<[child_idx := remaining]> (temp_parents g)) in
  if bool_decide (remaining = 0) then
    child_node ← expect (nodes g !! child_idx);
    Ok (with_heap g (heap_push entry_ge
          (mkHeapEntry (longest_suffix child_node) (transaction_id child_node))
          (txns_without_parent g)))
  else Ok g.

Definition remove_transaction_and_update (g : TransactionGraph) (tx_id : TransactionId)
    : outcome TransactionGraph :=
  match id_to_index g !! tx_id with
  | None => Ok g
  | Some tx_idx =>
      node ← expect (nodes g !! tx_idx);
      foldM release_child g (children_indices node)
  end.

Record SimState := mkSim {
  sim_graph : TransactionGraph;
  sim_threads : list ThreadState;
  completion_heap : list EstimatedCompletion;
  sim_order : list (nat * TransactionId * N * N);
  current_time : N }.

(** The body of [for thread in &mut threads]; the flag is [assigned_any]. *)
Definition assign_thread (st : SimState * bool) (thread_id : nat) : outcome (SimState * bool) :=
  let '(s, assigned_any) := st in
  thread ← expect (sim_threads s !! thread_id);
  if is_idle thread then
    match pop_txn_without_parent (sim_graph s) with
    | (_, None) => Ok (s, assigned_any)
    | (g, Some tx_id) =>
        node ← get_node g tx_id;
        node ← expect node;
        let gas := gas_cost node in
        let expected_completion_time := u64_add (current_time s) gas in
        Ok (mkSim g
              (<[thread_id := assign_transaction thread tx_id (current_time s) gas]> (sim_threads s))
              (heap_push completion_le (mkCompletion expected_completion_time (Graph.thread_id thread))
                 (completion_heap s))
              (sim_order s ++ [(Graph.thread_id thread, tx_id, current_time s, expected_completion_time)])
              (current_time s), true)
    end
  else Ok (s, assigned_any).

(** One iteration of the [loop]. *)
Definition sim_step (s : SimState) : outcome (SimState + SimState) :=
  '(s, assigned_any) ← foldM assign_thread (s, false) (seq 0 (length (sim_threads s)));
  if (assigned_any && negb (bool_decide (txns_without_parent (sim_graph s) = [])) : bool)
  then Ok (inl s)
  else
    match completion_heap s with
    | [] => Ok (inr s)
    | event :: h =>
        let now := if bool_decide (current_time s < ec_time event) then ec_time event else current_time s in
        thread ← expect (sim_threads s !! ec_thread_id event);
        let '(thread, completed) := complete_transaction thread in
        completed_tx_id ← expect completed;
        g ← remove_transaction_and_update (sim_graph s) completed_tx_id;
        Ok (inl (mkSim g (<[ec_thread_id event := thread]> (sim_threads s)) h (sim_order s) now))
    end.

(** ** Statistics *)

Definition calculate_std_dev_and_cv (threads : list ThreadState) (sum_completion : N)
    : spec_float * spec_float :=
  match threads with
  | [] => (f64_zero, f64_zero)
  | _ =>
      let len := f64_of_u64 (N.of_nat (length threads)) in
      let mean := f64_div (f64_of_u64 sum_completion) len in
      let variance := f64_div
        (f64_sum ((λ t, let diff := f64_sub (f64_of_u64 (completion_time t)) mean in f64_mul diff diff)
                    <$> threads)) len in
      let standard_deviation := f64_sqrt variance in
      (standard_deviation,
       if f64_gt mean f64_zero then f64_div standard_deviation mean else f64_zero)
  end.

Definition SimulationResult_new (total : N) (threads : list ThreadState)
    (order : list (nat * TransactionId * N * N)) : SimulationResult :=
  let sum_completion := foldl (λ acc t, u64_add acc (completion_time t)) 0 threads in
  let '(sd, cv) := calculate_std_dev_and_cv threads sum_completion in
  mkResult total threads order sd cv sum_completion ∅.

Definition average_thread_completion_time (g : TransactionGraph) : spec_float :=
  match simulation_result g with
  | None => f64_zero
  | Some result =>
      match thread_results result with
      | [] => f64_zero
      | _ => f64_div (f64_of_u64 (sum_completion_times result))
               (f64_of_u64 (N.of_nat (length (thread_results result))))
      end
  end.

Definition is_hot (threshold : spec_float) (span : KeyAccessSpan) : bool :=
  f64_gt (f64_of_u64 (u64_sub (latest_finish span) (earliest_start span))) threshold.

Definition detect_hot_keys (g : TransactionGraph) : TransactionGraph :=
  match simulation_result g with
  | None => with_hot_keys g ∅
  | Some result =>
      let threshold := f64_mul (average_thread_completion_time g) (hot_key_threshold g) in
      with_hot_keys g (dom (filter (λ '(_, span), is_hot threshold span = true) (key_access_spans result)))
  end.

(** [collect] into a map keyed by the bare [id]: the last node with an [id] wins. *)
Definition node_map (ns : list TransactionNode) : gmap N TransactionNode :=
  foldl (λ m n, <[node_id n := n]> m) ∅ ns.

Definition record_access (start_time end_time : N) (spans : gmap N KeyAccessSpan) (key : N)
    : gmap N KeyAccessSpan :=
  <[key := match spans !! key with
           | Some span => mkSpan (span_key span) (N.min (earliest_start span) start_time)
                            (N.max (latest_finish span) end_time) (u64_add (access_count span) 1)
           | None => mkSpan key start_time end_time 1
           end]> spans.

Section analysis.
Context `{!HashOrder N}.

Definition analyze_entry (m : gmap N TransactionNode) (spans : gmap N KeyAccessSpan)
    (e : nat * TransactionId * N * N) : gmap N KeyAccessSpan :=
  let '(_, tx_id, start_time, end_time) := e in
  match m !! tid_id tx_id with
  | None => spans
  | Some node => foldl (record_access start_time end_time) spans (hash_iter (all_addresses_of node))
  end.

Definition analyze_key_access_spans (g : TransactionGraph) : TransactionGraph :=
  let g := match simulation_result g with
           | None => g
           | Some r =>
               let spans := foldl (analyze_entry (node_map (nodes g))) ∅ (execution_order r) in
               with_result g (Some (mkResult (total_time r) (thread_results r) (execution_order r)
                 (standard_deviation r) (coefficient_of_variation r) (sum_completion_times r) spans))
           end in
  detect_hot_keys g.

(** Every iteration assigns or completes a transaction; twice the number of
    transactions bounds the iterations that continue. *)
Definition simulate_parallel_execution (g : TransactionGraph) (k : nat) : outcome TransactionGraph :=
  let g := with_temp_parents g
    ((λ node, N.of_nat (length (parent_indices node)) mod u32_modulus) <$> nodes g) in
  let threads := ThreadState_new <$> seq 0 k in
  g ← update_longest_suffix_postorder g;
  s ← loop sim_step (2 * N.of_nat (length (nodes g)) + 1) (mkSim g threads [] [] 0);
  let g := with_result (sim_graph s)
    (Some (SimulationResult_new (current_time s) (sim_threads s) (sim_order s))) in
  Ok (analyze_key_access_spans g).
End analysis.

Definition is_hot_key (g : TransactionGraph) (key : N) : bool := bool_decide (key ∈ hot_keys g).

Definition has_common_hot_keys (g other : TransactionGraph) : bool :=
  negb (bool_decide (hot_keys g ## hot_keys other)).

Definition get_hot_key_spans `{!HashOrder N} (g : TransactionGraph) : list KeyAccessSpan :=
  match simulation_result g with
  | Some result => omap (λ key, key_access_spans result !! key) (hash_iter (hot_keys g))
  | None => []
  end.

(** [sort_by] lifespan, descending and stable. *)
Definition lifespan (s : KeyAccessSpan) : N := u64_sub (latest_finish s) (earliest_start s).

Definition get_hottest_keys `{!HashOrder N} (g : TransactionGraph) (n : nat) : list KeyAccessSpan :=
  take n (foldr (heap_push (λ a b, bool_decide (lifespan b ≤ lifespan a))) [] (get_hot_key_spans g)).

Record HotKeyStats := mkStats {
  total_keys : N;
  hot_keys_count : N;
  hot_key_ratio : spec_float;
  threshold_value : spec_float;
  avg_thread_completion : spec_float }.

Definition hot_key_statistics (g : TransactionGraph) : HotKeyStats :=
  let all_keys := match simulation_result g with
                  | Some result => N.of_nat (size (key_access_spans result))
                  | None => 0
                  end in
  let hot_count := N.of_nat (size (hot_keys g)) in
  let avg := average_thread_completion_time g in
  mkStats all_keys hot_count
    (if bool_decide (0 < all_keys) then f64_div (f64_of_u64 hot_count) (f64_of_u64 all_keys) else f64_zero)
    (f64_mul avg (hot_key_threshold g)) avg.

(** ** The longest suffix is the heaviest path *)

Definition max_list_N (l : list N) : N := foldr N.max 0 l.

(** Weight of the heaviest path that starts at a node; the fuel is the number of
    nodes that can still follow. *)
Fixpoint suffix_at (ns : list TransactionNode) (fuel : nat) (i : nat) : N :=
  match fuel with
  | O => 0
  | S fuel =>
      match ns !! i with
      | None => 0
      | Some n => u64_add (gas_cost n) (max_list_N (suffix_at ns fuel <$> children_indices n))
      end
  end.

Definition suffix_of (ns : list TransactionNode) (i : nat) : N := suffix_at ns (length ns - i) i.

Lemma suffix_at_stable ns fuel1 : ∀ fuel2 i,
  links_wf ns → (length ns - i ≤ fuel1)%nat → (length ns - i ≤ fuel2)%nat →
  suffix_at ns fuel1 i = suffix_at ns fuel2 i.
Proof.
  induction fuel1 as [|fuel1 IH]; intros [|fuel2] i Hwf H1 H2; simpl; try done.
  - by rewrite lookup_ge_None_2 by lia.
  - by rewrite lookup_ge_None_2 by lia.
  - destruct (ns !! i) as [n|] eqn:Hn; [|done]. do 2 f_equal.
    apply list_fmap_ext. intros k c Hc. apply list_elem_of_lookup_2 in Hc.
    assert (edge_in ns i c) as He%(links_order ns Hwf) by (by exists n). apply IH; [done|lia..].
Qed.

Lemma suffix_of_eq ns i n :
  links_wf ns → ns !! i = Some n →
  suffix_of ns i = u64_add (gas_cost n) (max_list_N (suffix_of ns <$> children_indices n)).
Proof.
  intros Hwf Hn. pose proof (lookup_lt_Some _ _ _ Hn). unfold suffix_of at 1.
  destruct (length ns - i)%nat as [|f] eqn:Hf; [lia|]. simpl. rewrite Hn. do 2 f_equal.
  apply list_fmap_ext. intros k c Hc. apply list_elem_of_lookup_2 in Hc.
  assert (edge_in ns i c) as He%(links_order ns Hwf) by (by exists n).
  apply suffix_at_stable; [done|lia..].
Qed.

(** Nodes that differ only in their recorded suffix. *)
Definition same_shape (l l' : list TransactionNode) : Prop :=
  (λ n, with_suffix n 0) <$> l = (λ n, with_suffix n 0) <$> l'.

Lemma same_shape_lookup l l' i n :
  same_shape l l' → l !! i = Some n → ∃ s, l' !! i = Some (with_suffix n s).
Proof.
  intros H Hn. apply (f_equal (lookup i)) in H. rewrite !list_lookup_fmap, Hn in H.
  destruct (l' !! i) as [n'|] eqn:Hn'; [|done]. exists (longest_suffix n').
  apply (inj Some) in H. f_equal. destruct n, n'. unfold with_suffix in *. simpl in *. congruence.
Qed.

Lemma same_shape_length l l' : same_shape l l' → length l = length l'.
Proof. intros H%(f_equal length). by rewrite !length_fmap in H. Qed.

Lemma same_shape_insert l0 l i n s :
  same_shape l0 l → l !! i = Some n → same_shape l0 (<[i := with_suffix n s]> l).
Proof.
  unfold same_shape. intros -> Hn. rewrite list_fmap_insert, list_insert_id; [done|].
  by rewrite list_lookup_fmap, Hn.
Qed.

Lemma same_shape_sym l l' : same_shape l l' → same_shape l' l.
Proof. by unfold same_shape. Qed.

Section dfs.
Context (ns0 : list TransactionNode) (Hwf : links_wf ns0).

Definition suffix_done (ns : list TransactionNode) (j : nat) : Prop :=
  ∃ n, ns !! j = Some n ∧ longest_suffix n = suffix_of ns0 j.

(** Nodes from [i] on that were visited carry their final suffix, and their children
    were visited. *)
Record dfs_inv (i : nat) (ns : list TransactionNode) (visited : list bool) : Prop := {
  di_shape : same_shape ns0 ns;
  di_length : length visited = length ns0;
  di_done : ∀ j, (i ≤ j)%nat → visited !! j = Some true →
    suffix_done ns j ∧ ∀ c, edge_in ns0 j c → visited !! c = Some true }.

(** What a visit of [i] may change: nothing below [i], and no visited mark is lost. *)
Record dfs_frame (i : nat) (ns : list TransactionNode) (visited : list bool)
    (ns' : list TransactionNode) (visited' : list bool) : Prop := {
  df_below : ∀ j, (j < i)%nat → ns' !! j = ns !! j ∧ visited' !! j = visited !! j;
  df_mono : ∀ j, visited !! j = Some true → visited' !! j = Some true }.

Lemma dfs_frame_refl i ns visited : dfs_frame i ns visited ns visited.
Proof. done. Qed.

Lemma dfs_frame_trans i ns1 v1 ns2 v2 ns3 v3 :
  dfs_frame i ns1 v1 ns2 v2 → dfs_frame i ns2 v2 ns3 v3 → dfs_frame i ns1 v1 ns3 v3.
Proof.
  intros [Hb1 Hm1] [Hb2 Hm2]. split; [|auto]. intros j Hj.
  destruct (Hb1 j Hj), (Hb2 j Hj). split; congruence.
Qed.

Lemma dfs_frame_weaken i c ns v ns' v' :
  (i ≤ c)%nat → dfs_frame c ns v ns' v' → dfs_frame i ns v ns' v'.
Proof. intros Hic [Hb Hm]. split; [|done]. intros j Hj. apply Hb. lia. Qed.

Definition dfs_post (i : nat) ns visited (r : outcome (list TransactionNode * list bool * N)) : Prop :=
  ∃ ns' visited', r = Ok (ns', visited', suffix_of ns0 i) ∧ dfs_inv i ns' visited' ∧
    dfs_frame i ns visited ns' visited' ∧ visited' !! i = Some true.

(** The loop over the children of [i], given the recursive calls. *)
Lemma dfs_children_spec i f cs : ∀ ns visited mx,
  (∀ c ns visited, c ∈ cs → dfs_inv c ns visited → dfs_post c ns visited (f ns visited c)) →
  (∀ c, c ∈ cs → (i < c < length ns0)%nat) → dfs_inv (S i) ns visited →
  ∃ ns' visited',
    foldM (λ '(ns, visited, mx) c, '(ns, visited, s) ← f ns visited c; Ok (ns, visited, N.max mx s))
      (ns, visited, mx) cs = Ok (ns', visited', N.max mx (max_list_N (suffix_of ns0 <$> cs))) ∧
    dfs_inv (S i) ns' visited' ∧ dfs_frame (S i) ns visited ns' visited' ∧
    (∀ c, c ∈ cs → visited' !! c = Some true).
Proof.
  induction cs as [|c cs IH]; intros ns visited mx Hf Hcs Hinv; cbn [foldM].
  { exists ns, visited. split; [unfold max_list_N; simpl; by rewrite N.max_0_r|]. split; [done|]. split; [apply dfs_frame_refl|].
    by intros c ?%not_elem_of_nil. }
  pose proof (Hcs c ltac:(left)) as Hc. pose proof Hinv as [Hsh Hlen Hdone].
  destruct (Hf c ns visited) as (ns1 & v1 & -> & [Hsh1 Hlen1 Hdone1] & Hfr & Hvis); [left| |].
  { split; [done|done|]. intros j Hj. apply Hdone. lia. }
  cbn [mbind outcome_bind]. destruct (IH ns1 v1 (N.max mx (suffix_of ns0 c))) as (ns2 & v2 & Heq & Hinv2 & Hfr2 & Hvis2).
  - intros c' ns' v' Hc'. apply Hf. by right.
  - intros c' Hc'. apply Hcs. by right.
  - split; [done|done|]. intros j Hj Hvj. destruct (decide (c ≤ j)%nat); [by apply Hdone1|].
    destruct (df_below _ _ _ _ _ Hfr j) as [Hnj Hv]; [lia|]. unfold suffix_done. rewrite Hnj.
    destruct (Hdone j) as [Hs Hcl]; [done|congruence|]. split; [done|].
    intros c' Hc'. apply (df_mono _ _ _ _ _ Hfr). auto.
  - exists ns2, v2. split; [|split; [done|split]].
    + rewrite Heq. unfold max_list_N. simpl. by rewrite N.max_assoc.
    + eapply dfs_frame_trans; [|done]. eapply dfs_frame_weaken; [|done]. lia.
    + intros c' [->|Hc']%elem_of_cons; [|by apply Hvis2]. by eapply df_mono.
Qed.

Lemma postorder_dfs_spec fuel : ∀ i ns visited,
  (length ns0 - i < fuel)%nat → (i < length ns0)%nat → dfs_inv i ns visited →
  dfs_post i ns visited (postorder_dfs fuel ns visited i).
Proof.
  induction fuel as [|fuel IH]; intros i ns visited Hfuel Hi Hinv; [lia|].
  pose proof Hinv as [Hsh Hlen Hdone]. cbn [postorder_dfs].
  destruct (lookup_lt_is_Some_2 ns0 i Hi) as [n0 Hn0].
  destruct (same_shape_lookup _ _ _ _ Hsh Hn0) as [s Hn]. rewrite Hn.
  destruct (lookup_lt_is_Some_2 visited i) as [v Hv]; [lia|]. rewrite Hv. cbn [expect mbind outcome_bind].
  destruct v.
  { destruct (Hdone i) as [(n' & Hn' & Hs) _]; [lia|done|]. rewrite Hn in Hn'. injection Hn' as <-.
    exists ns, visited. split; [by rewrite Hs|]. split; [done|]. split; [apply dfs_frame_refl|done]. }
  assert (Hch : ∀ c, c ∈ children_indices n0 → (i < c < length ns0)%nat).
  { intros c Hc. apply (links_order ns0 Hwf). by exists n0. }
  destruct (dfs_children_spec i (postorder_dfs fuel) (children_indices n0) ns (<[i:=true]> visited) 0)
    as (ns1 & v1 & Heq & [Hsh1 Hlen1 Hdone1] & Hfr & Hvis).
  - intros c ns' v' Hc Hinv'. apply Hch in Hc. apply IH; [lia|lia|done].
  - done.
  - split; [done|by rewrite length_insert|]. intros j Hj. rewrite list_lookup_insert_ne by lia.
    intros Hvj. destruct (Hdone j) as [Hs Hcl]; [lia|done|]. split; [done|]. intros c Hc.
    apply Hcl in Hc. destruct (decide (c = i)) as [->|]; [by rewrite list_lookup_insert_eq by lia|].
    by rewrite list_lookup_insert_ne.
  - change (children_indices (with_suffix n0 s)) with (children_indices n0). rewrite Heq.
    cbn [mbind outcome_bind].
    destruct (df_below _ _ _ _ _ Hfr i) as [Hni Hvi]; [lia|].
    rewrite list_lookup_insert_eq in Hvi by lia. rewrite Hni, Hn. cbn [expect mbind outcome_bind].
    rewrite N.max_0_l. change (gas_cost (with_suffix n0 s)) with (gas_cost n0).
    rewrite <-(suffix_of_eq ns0 i n0) by done.
    eexists _, v1. split; [done|]. split; [split|split; [split|done]].
    + eapply same_shape_insert; [done|congruence].
    + done.
    + intros j Hj Hvj. unfold suffix_done. destruct (decide (j = i)) as [->|].
      * rewrite list_lookup_insert_eq by (rewrite <-(same_shape_length _ _ Hsh1); done).
        split; [eexists; done|]. intros c (n & Hn' & Hc). apply Hvis. congruence.
      * rewrite list_lookup_insert_ne by done. apply Hdone1; [lia|done].
    + intros j Hj. rewrite list_lookup_insert_ne by lia.
      destruct (df_below _ _ _ _ _ Hfr j) as [Hnj Hvj]; [lia|]. rewrite list_lookup_insert_ne in Hvj by lia. done.
    + intros j Hj. apply (df_mono _ _ _ _ _ Hfr). destruct (decide (j = i)) as [->|].
      * by rewrite list_lookup_insert_eq by lia.
      * by rewrite list_lookup_insert_ne.
Qed.
End dfs.

(** *** Roots *)

Definition is_root (ns : list TransactionNode) (i : nat) : Prop :=
  (i < length ns)%nat ∧ ∀ p, ¬ edge_in ns p i.

Lemma mark_one_spec cs : ∀ hp : list bool,
  (∀ c, c ∈ cs → (c < length hp)%nat) →
  ∃ hp', foldM (λ hp c, _ ← expect (hp !! c); Ok (<[c := true]> hp)) hp cs = Ok hp' ∧
    length hp' = length hp ∧ (∀ c, hp' !! c = Some true ↔ hp !! c = Some true ∨ c ∈ cs).
Proof.
  induction cs as [|c cs IH]; intros hp Hcs; simpl.
  { exists hp. split; [done|]. split; [done|]. set_solver. }
  destruct (lookup_lt_is_Some_2 hp c) as [b Hb]; [apply Hcs; left|]. rewrite Hb. simpl.
  destruct (IH (<[c := true]> hp)) as (hp' & -> & Hlen & Hin).
  { intros c' Hc'. rewrite length_insert. apply Hcs. by right. }
  exists hp'. split; [done|]. rewrite length_insert in Hlen. split; [done|].
  intros c'. rewrite Hin, elem_of_cons. destruct (decide (c' = c)) as [->|Hne].
  - rewrite list_lookup_insert_eq by (by eapply lookup_lt_Some). tauto.
  - rewrite list_lookup_insert_ne by done. tauto.
Qed.

Lemma mark_nodes_spec l : ∀ hp : list bool,
  (∀ n c, n ∈ l → c ∈ children_indices n → (c < length hp)%nat) →
  ∃ hp', foldM (λ hp n, foldM (λ hp c, _ ← expect (hp !! c); Ok (<[c := true]> hp)) hp (children_indices n))
           hp l = Ok hp' ∧ length hp' = length hp ∧
    (∀ c, hp' !! c = Some true ↔ hp !! c = Some true ∨ ∃ n, n ∈ l ∧ c ∈ children_indices n).
Proof.
  induction l as [|n l IH]; intros hp Hl; cbn [foldM].
  { exists hp. split; [done|]. split; [done|]. set_solver. }
  destruct (mark_one_spec (children_indices n) hp) as (hp1 & -> & Hlen1 & Hin1).
  { intros c. apply Hl. left. }
  cbn [mbind outcome_bind]. destruct (IH hp1) as (hp' & -> & Hlen & Hin).
  { intros n' c Hn'. rewrite Hlen1. apply Hl. by right. }
  exists hp'. split; [done|]. split; [congruence|]. intros c. rewrite Hin, Hin1. set_solver.
Qed.

Lemma root_nodes_spec ns :
  links_wf ns →
  ∃ hp, mark_children ns = Ok hp ∧ NoDup (root_nodes hp) ∧
    (∀ i, i ∈ root_nodes hp ↔ is_root ns i).
Proof.
  intros Hwf. destruct (mark_nodes_spec ns (replicate (length ns) false)) as (hp & Heq & Hlen & Hin).
  { intros n c [i Hi]%list_elem_of_lookup_1 Hc. rewrite length_replicate.
    apply (links_order ns Hwf i). by exists n. }
  exists hp. split; [done|]. rewrite length_replicate in Hlen.
  unfold root_nodes. split; [apply NoDup_ListNoDup, List.NoDup_filter, NoDup_ListNoDup, NoDup_seq|].
  intros i. rewrite list_elem_of_In, List.filter_In, <-list_elem_of_In, elem_of_seq, Hlen. unfold is_root.
  assert (Hedge : hp !! i = Some true ↔ ∃ p, edge_in ns p i).
  { rewrite Hin. split.
    - intros [[? _]%lookup_replicate|(n & [p Hp]%list_elem_of_lookup_1 & Hc)]; [done|]. exists p, n. done.
    - intros (p & n & Hp & Hc). right. exists n. split; [by eapply list_elem_of_lookup_2|done]. }
  split; intros [Hlt Hr].
  - split; [lia|]. intros p Hp. rewrite (proj2 Hedge) in Hr by (by exists p). done.
  - split; [lia|]. destruct (hp !! i) as [[]|] eqn:Hhp; simpl; [|done|done].
    exfalso. destruct (proj1 Hedge eq_refl) as [p Hp]. by apply (Hr p).
Qed.

(** The heap entry of node [i] once the suffixes are known. *)
Definition entry_at (ns : list TransactionNode) (i : nat) : HeapEntry :=
  mkHeapEntry (suffix_of ns i) (match ns !! i with Some n => transaction_id n | None => mkTxId 0 0 end).

(** Graphs that differ only in suffixes and the heap. *)
Definition sim_frame (g g' : TransactionGraph) : Prop :=
  same_shape (nodes g) (nodes g') ∧ id_to_index g' = id_to_index g ∧
  head_txns g' = head_txns g ∧ tail_txns g' = tail_txns g ∧ temp_parents g' = temp_parents g ∧
  hot_key_threshold g' = hot_key_threshold g.

Lemma visit_roots_spec g rs : ∀ g1 visited,
  links_wf (nodes g) → sim_frame g g1 → dfs_inv (nodes g) 0 (nodes g1) visited →
  (∀ r, r ∈ rs → (r < length (nodes g))%nat) →
  ∃ g2 visited', foldM visit_root (g1, visited) rs = Ok (g2, visited') ∧ sim_frame g g2 ∧
    dfs_inv (nodes g) 0 (nodes g2) visited' ∧
    (∀ j, visited !! j = Some true → visited' !! j = Some true) ∧
    (∀ r, r ∈ rs → visited' !! r = Some true) ∧
    txns_without_parent g2 ≡ₚ txns_without_parent g1 ++ (entry_at (nodes g) <$> rs).
Proof.
  induction rs as [|r rs IH]; intros g1 visited Hwf Hfr Hinv Hrs; cbn [foldM].
  { exists g1, visited. rewrite app_nil_r. split; [done|]. split; [done|]. split; [done|]. split; [done|].
    split; [by intros r ?%not_elem_of_nil|done]. }
  pose proof (Hrs r ltac:(left)) as Hr. pose proof Hinv as [Hsh Hlen Hdone].
  pose proof (same_shape_length _ _ Hsh) as Hlen'.
  destruct (postorder_dfs_spec (nodes g) Hwf (S (length (nodes g1))) r (nodes g1) visited)
    as (ns2 & v2 & Heq & [Hsh2 Hlen2 Hdone2] & [Hbelow Hmono] & Hvis); [lia|done| |].
  { split; [done|done|]. intros j Hj. apply Hdone. lia. }
  destruct (Hdone2 r) as [(n2 & Hn2 & Hs2) _]; [lia|done|].
  unfold visit_root at 2. cbv beta iota. rewrite Heq. cbn [mbind outcome_bind nodes with_nodes]. rewrite Hn2.
  cbn [expect mbind outcome_bind].
  set (g2 := with_heap _ _).
  destruct (IH g2 v2 Hwf) as (g3 & v3 & -> & Hfr3 & Hinv3 & Hmono3 & Hvis3 & Hheap).
  - destruct Hfr as (_ & ? & ? & ? & ? & ?). repeat split; done.
  - split; [done|done|]. intros j _ Hj. destruct (decide (r ≤ j)%nat); [by apply Hdone2|].
    destruct (Hbelow j) as [Hnj Hvj]; [lia|]. unfold suffix_done. simpl. rewrite Hnj.
    destruct (Hdone j) as [Hs Hc]; [lia|congruence|]. split; [done|]. intros c Hc'. auto.
  - intros r' Hr'. apply Hrs. by right.
  - exists g3, v3. split; [done|]. split; [done|]. split; [done|]. split; [auto|]. split.
    + intros r' [->|Hr']%elem_of_cons; [auto|by apply Hvis3].
    + rewrite Hheap. simpl. rewrite heap_push_perm. simpl. rewrite Permutation_middle.
      destruct (same_shape_lookup _ _ r n2 (same_shape_sym _ _ Hsh2) Hn2) as [s Hn0].
      apply Permutation_app_head, Permutation_cons; [|done].
      unfold entry_at. by rewrite Hn0, Hs2.
Qed.

(** The suffixes and the heap after [update_longest_suffix_postorder]. *)
Lemma update_longest_suffix_spec g :
  links_wf (nodes g) → (nodes g = [] → txns_without_parent g = []) →
  ∃ g' rs, update_longest_suffix_postorder g = Ok g' ∧ sim_frame g g' ∧
    (∀ i n, nodes g' !! i = Some n → longest_suffix n = suffix_of (nodes g) i) ∧
    NoDup rs ∧ (∀ i, i ∈ rs ↔ is_root (nodes g) i) ∧
    txns_without_parent g' ≡ₚ entry_at (nodes g) <$> rs.
Proof.
  intros Hwf Hempty. unfold update_longest_suffix_postorder. case_bool_decide as Hn.
  { apply length_zero_iff_nil in Hn. exists g, []. rewrite Hn, Hempty by done.
    split; [done|]. split; [done|]. split; [intros i n Hi; by rewrite lookup_nil in Hi|].
    split; [constructor|]. split; [|done]. intros i. split; [by intros ?%not_elem_of_nil|].
    intros [Hi _]. simpl in Hi. lia. }
  destruct (root_nodes_spec (nodes g) Hwf) as (hp & -> & Hnd & Hroots). simpl.
  destruct (visit_roots_spec g (root_nodes hp) (with_heap g []) (replicate (length (nodes g)) false) Hwf)
    as (g' & v' & -> & Hfr & [Hsh Hlen Hdone] & _ & Hvis & Hheap).
  - done.
  - split; [done|by rewrite length_replicate|]. intros j _ [? _]%lookup_replicate. done.
  - intros r Hr%Hroots. apply Hr.
  - simpl. exists g', (root_nodes hp). split; [done|]. split; [done|]. split; [|done].
    assert (Hall : ∀ i, (i < length (nodes g))%nat → v' !! i = Some true).
    { intros i. induction (lt_wf i) as [i _ IH]. intros Hi.
      destruct (lookup_lt_is_Some_2 (nodes g) i Hi) as [n Hni].
      destruct (parent_indices n) as [|p ps] eqn:Hp.
      - apply Hvis, Hroots. split; [done|]. intros p Hpi.
        apply (links_mirror _ Hwf p i n Hni) in Hpi. rewrite Hp in Hpi. by apply not_elem_of_nil in Hpi.
      - assert (edge_in (nodes g) p i) as He.
        { apply (links_mirror _ Hwf p i n Hni). rewrite Hp. left. }
        pose proof (links_order _ Hwf _ _ He). apply (Hdone p); [lia|apply IH; lia|done]. }
    intros i n Hn'. pose proof (lookup_lt_Some _ _ _ Hn') as Hi.
    rewrite <-(same_shape_length _ _ Hsh) in Hi.
    destruct (Hdone i) as [(n' & Hn'' & Hs) _]; [lia|by apply Hall|]. congruence.
Qed.

(** *** Heaviest paths *)

Inductive path_from (ns : list TransactionNode) : nat → N → Prop :=
| path_one i n : ns !! i = Some n → path_from ns i (gas_cost n)
| path_cons i j n w : ns !! i = Some n → edge_in ns i j → path_from ns j w →
    path_from ns i (gas_cost n + w).

Definition total_gas (ns : list TransactionNode) : N := list_sum gas_cost ns.

Lemma total_gas_drop ns i j : (i ≤ j)%nat → total_gas (drop j ns) ≤ total_gas (drop i ns).
Proof.
  intros Hij. replace j with (i + (j - i))%nat by lia. rewrite <-drop_drop. unfold total_gas.
  rewrite <-(take_drop (j - i) (drop i ns)) at 2. rewrite list_sum_app. lia.
Qed.

Lemma path_weight_bound ns i w :
  links_wf ns → path_from ns i w → w ≤ total_gas (drop i ns).
Proof.
  intros Hwf. induction 1 as [i n Hn|i j n w Hn He _ IH]; rewrite (drop_S _ _ _ Hn); unfold total_gas; simpl.
  - lia.
  - pose proof (links_order _ Hwf _ _ He). pose proof (total_gas_drop ns (S i) j ltac:(lia)).
    unfold total_gas in *. lia.
Qed.

Lemma max_list_N_spec l :
  (∀ x, x ∈ l → x ≤ max_list_N l) ∧ (l ≠ [] → max_list_N l ∈ l).
Proof.
  induction l as [|x l [IH1 IH2]]; simpl; [split; [by intros ? ?%not_elem_of_nil|done]|]. split.
  - intros y [->|Hy]%elem_of_cons; [lia|]. specialize (IH1 y Hy). lia.
  - intros _. destruct (N.max_spec x (max_list_N l)) as [[Hlt ->]|[_ ->]]; [right|left].
    destruct l; [simpl in *; lia|]. by apply IH2.
Qed.

Lemma suffix_is_heaviest ns i n :
  links_wf ns → total_gas ns < u64_modulus → ns !! i = Some n →
  path_from ns i (suffix_of ns i) ∧ (∀ w, path_from ns i w → w ≤ suffix_of ns i).
Proof.
  intros Hwf Hgas. revert n. remember (length ns - i)%nat as d eqn:Hd. revert i Hd.
  induction (lt_wf d) as [d _ IH]. intros i -> n Hn.
  assert (Hchild : ∀ c, c ∈ children_indices n → path_from ns c (suffix_of ns c) ∧
                        (∀ w, path_from ns c w → w ≤ suffix_of ns c) ∧ edge_in ns i c).
  { intros c Hc. assert (He : edge_in ns i c) by (by exists n).
    pose proof (links_order _ Hwf _ _ He). destruct (lookup_lt_is_Some_2 ns c) as [nc Hnc]; [lia|].
    destruct (IH (length ns - c)%nat ltac:(lia) c eq_refl nc Hnc). auto. }
  destruct (max_list_N_spec (suffix_of ns <$> children_indices n)) as [Hmax Hmem].
  set (m := max_list_N _) in *.
  assert (Hm : path_from ns i (gas_cost n + m)).
  { destruct (children_indices n) as [|c0 cs] eqn:Hcs.
    - unfold m. simpl. replace (gas_cost n + 0) with (gas_cost n) by lia. by constructor.
    - apply list_elem_of_fmap in Hmem as (c & Hmc & Hc); [|done]. rewrite Hmc.
      destruct (Hchild c Hc) as (? & _ & ?). by econstructor. }
  assert (suffix_of ns i = gas_cost n + m) as Heq.
  { rewrite (suffix_of_eq ns i n Hwf Hn). fold m. apply u64_add_small.
    pose proof (path_weight_bound ns i _ Hwf Hm). pose proof (total_gas_drop ns 0 i ltac:(lia)).
    rewrite drop_0 in *. lia. }
  rewrite Heq. split; [done|]. intros w Hw. inversion Hw as [i' n' Hn'|i' j n' w' Hn' He Hw']; subst.
  - replace n' with n by congruence. lia.
  - replace n' with n by congruence. destruct He as (n'' & Hn'' & Hj). replace n'' with n in Hj by congruence.
    destruct (Hchild j Hj) as (_ & Hle & _). specialize (Hle w' Hw').
    pose proof (Hmax (suffix_of ns j) ltac:(by apply list_elem_of_fmap_2)). lia.
Qed.

(** C27: after [update_longest_suffix_postorder] on a well-formed graph whose total
    gas fits [u64], the recorded suffix of every transaction is the weight of the
    heaviest path that starts at it, only suffixes and the heap have changed, and the
    heap holds exactly the transactions without parents, each once. *)
Theorem longest_suffix_correct g :
  graph_wf g → total_gas (nodes g) < u64_modulus → (nodes g = [] → txns_without_parent g = []) →
  ∃ g' rs, update_longest_suffix_postorder g = Ok g' ∧ sim_frame g g' ∧
    (∀ i n, nodes g' !! i = Some n →
       path_from (nodes g) i (longest_suffix n) ∧
       ∀ w, path_from (nodes g) i w → w ≤ longest_suffix n) ∧
    NoDup rs ∧ (∀ i, i ∈ rs ↔ is_root (nodes g) i) ∧
    txns_without_parent g' ≡ₚ entry_at (nodes g) <$> rs.
Proof.
  intros Hwf Hgas Hempty. pose proof (wf_links g Hwf) as Hl.
  destruct (update_longest_suffix_spec g Hl Hempty) as (g' & rs & Heq & Hfr & Hs & Hrest).
  exists g', rs. split; [done|]. split; [done|]. split; [|done].
  intros i n Hn. rewrite (Hs i n Hn). destruct Hfr as [Hsh _].
  destruct (same_shape_lookup _ _ i n (same_shape_sym _ _ Hsh) Hn) as [s Hn0].
  by eapply suffix_is_heaviest.
Qed.

(** ** The simulation executes a valid schedule *)

Definition node_entry (ns : list TransactionNode) (i : nat) : HeapEntry :=
  match ns !! i with
  | Some n => mkHeapEntry (longest_suffix n) (transaction_id n)
  | None => mkHeapEntry 0 (mkTxId 0 0)
  end.
Definition id_at (ns : list TransactionNode) (i : nat) : TransactionId := he_tx_id (node_entry ns i).
Definition gas_at (ns : list TransactionNode) (i : nat) : N :=
  match ns !! i with Some n => gas_cost n | None => 0 end.

(** The fields of an entry of [execution_order]. *)
Definition ev_thread (e : nat * TransactionId * N * N) : nat := e.1.1.1.
Definition ev_tx (e : nat * TransactionId * N * N) : TransactionId := e.1.1.2.
Definition ev_start (e : nat * TransactionId * N * N) : N := e.1.2.
Definition ev_end (e : nat * TransactionId * N * N) : N := e.2.

#[local] Instance edge_in_dec ns i c : Decision (edge_in ns i c).
Proof.
  refine (match ns !! i as o return ns !! i = o → Decision (edge_in ns i c) with
          | Some n => λ Hn, match decide (c ∈ children_indices n) with
                            | left H => left (ex_intro _ n (conj Hn H)) | right H => right _ end
          | None => λ Hn, right _ end eq_refl); intros (n' & Hn' & Hc); congruence.
Defined.

Section simulation.
Context (ns : list TransactionNode) (ids : gmap TransactionId nat) (k : nat).
Context (Hlinks : links_wf ns) (Hids : ids_wf ids ns).
Context (Hgas : total_gas ns < u64_modulus) (Hsmall : N.of_nat (length ns) < u32_modulus).

Lemma ids_id_at i : (i < length ns)%nat → ids !! id_at ns i = Some i.
Proof.
  intros [n Hn]%lookup_lt_is_Some_2. apply Hids. exists n. split; [done|].
  unfold id_at, node_entry. by rewrite Hn.
Qed.

Lemma id_at_inj i j : (i < length ns)%nat → (j < length ns)%nat → id_at ns i = id_at ns j → i = j.
Proof. intros Hi%ids_id_at Hj%ids_id_at Heq. congruence. Qed.

(** Number of parents of [i] that have not completed. *)
Definition open_parents (completed : gset nat) (i : nat) : list nat :=
  match ns !! i with Some n => filter (λ p, p ∉ completed) (parent_indices n) | None => [] end.

Definition gas_done (completed : gset nat) : N := set_sum (gas_at ns) completed.

(** [started] lists the started transactions in order, [completed] holds those that
    have finished. *)
Record sim_inv (s : SimState) (started : list nat) (completed : gset nat) : Prop := {
  si_nodes : nodes (sim_graph s) = ns;
  si_ids : id_to_index (sim_graph s) = ids;
  si_started : NoDup started ∧ ∀ i, i ∈ started → (i < length ns)%nat;
  si_completed : ∀ i, i ∈ completed → i ∈ started;
  si_ready : ∀ i, i ∈ started → open_parents completed i = [];
  si_heap : ∃ ready, txns_without_parent (sim_graph s) ≡ₚ node_entry ns <$> ready ∧ NoDup ready ∧
    ∀ i, i ∈ ready ↔ (i < length ns)%nat ∧ i ∉ started ∧ open_parents completed i = [];
  si_temp : ∀ i, (i < length ns)%nat →
    temp_parents (sim_graph s) !! i = Some (N.of_nat (length (open_parents completed i)));
  si_threads : length (sim_threads s) = k ∧
    ∀ t th, sim_threads s !! t = Some th → thread_id th = t;
  si_order : Forall2 (λ i e, ev_tx e = id_at ns i ∧ ev_end e = ev_start e + gas_at ns i ∧
                             (ev_thread e < k)%nat) started (sim_order s);
  si_running : ∀ j i e, started !! j = Some i → sim_order s !! j = Some e → i ∉ completed →
    ∃ th, sim_threads s !! ev_thread e = Some th ∧ current_transaction th = Some (id_at ns i) ∧
          completion_time th = ev_end e;
  si_busy : ∀ t th id, sim_threads s !! t = Some th → current_transaction th = Some id →
    ∃ j i e, started !! j = Some i ∧ sim_order s !! j = Some e ∧ id = id_at ns i ∧ i ∉ completed ∧
      ev_thread e = t ∧ ev_end e = completion_time th ∧ completion_time th ≤ gas_done completed + gas_at ns i;
  si_events : completion_heap s ≡ₚ
    omap (λ th, if is_idle th then None else Some (mkCompletion (completion_time th) (thread_id th)))
      (sim_threads s);
  si_past : ∀ j i e, started !! j = Some i → sim_order s !! j = Some e → i ∈ completed →
    ev_end e ≤ current_time s;
  si_time : current_time s ≤ gas_done completed;
  si_now : ∀ e, e ∈ sim_order s → ev_start e ≤ current_time s;
  si_deps : ∀ j i p e, started !! j = Some i → sim_order s !! j = Some e → edge_in ns p i →
    ∃ j' e', (j' < j)%nat ∧ started !! j' = Some p ∧ sim_order s !! j' = Some e' ∧ ev_end e' ≤ ev_start e;
  si_serial : ∀ j1 j2 e1 e2, (j1 < j2)%nat → sim_order s !! j1 = Some e1 → sim_order s !! j2 = Some e2 →
    ev_thread e1 = ev_thread e2 → ev_end e1 ≤ ev_start e2 }.

Lemma gas_done_bound completed i :
  (∀ j, j ∈ completed → (j < length ns)%nat) → (i < length ns)%nat → i ∉ completed →
  gas_done completed + gas_at ns i ≤ total_gas ns.
Proof.
  intros Hc Hi Hnot. unfold gas_done. replace (set_sum (gas_at ns) completed + gas_at ns i)
    with (set_sum (gas_at ns) ({[i]} ∪ completed)) by (rewrite set_sum_insert by done; lia).
  transitivity (set_sum (gas_at ns) (list_to_set (seq 0 (length ns)))).
  - apply set_sum_subseteq. intros j Hj. rewrite elem_of_list_to_set, elem_of_seq.
    apply elem_of_union in Hj as [->%elem_of_singleton|Hj]; [lia|]. specialize (Hc j Hj). lia.
  - rewrite set_sum_list_to_set by apply NoDup_seq. unfold total_gas.
    clear. unfold gas_at. induction ns as [|n l IH] using rev_ind; [done|].
    rewrite length_app. simpl. rewrite seq_app, !list_sum_app. simpl. rewrite list_lookup_middle by done.
    rewrite (list_sum_ext _ (λ i, match l !! i with Some n => gas_cost n | None => 0 end)); [lia|].
    intros i [_ Hi]%elem_of_seq. by rewrite lookup_app_l by lia.
Qed.

Lemma started_lookup s started completed j i :
  sim_inv s started completed → started !! j = Some i → ∃ e, sim_order s !! j = Some e ∧
    ev_tx e = id_at ns i ∧ ev_end e = ev_start e + gas_at ns i.
Proof.
  intros Hinv Hj. destruct (Forall2_lookup_l _ _ _ _ _ (si_order _ _ _ Hinv) Hj) as (e & He & ? & ? & ?). eauto.
Qed.

(** *** Completing a transaction *)

Lemma release_children_spec cs : ∀ g T,
  nodes g = ns → temp_parents g = T → NoDup cs →
  (∀ c, c ∈ cs → (c < length ns)%nat ∧ ∃ m, T !! c = Some m ∧ 0 < m < u32_modulus) →
  ∃ g' freed, foldM release_child g cs = Ok g' ∧ nodes g' = ns ∧ id_to_index g' = id_to_index g ∧
    (∀ c, temp_parents g' !! c = if decide (c ∈ cs) then N.pred <$> T !! c else T !! c) ∧
    txns_without_parent g' ≡ₚ (node_entry ns <$> freed) ++ txns_without_parent g ∧
    NoDup freed ∧ (∀ c, c ∈ freed ↔ c ∈ cs ∧ T !! c = Some 1).
Proof.
  induction cs as [|c cs IH]; intros g T Hn HT Hnd Hcs; cbn [foldM].
  { exists g, []. split; [done|]. split; [done|]. split; [done|]. split; [intros c; by rewrite HT|].
    split; [done|]. split; [constructor|]. set_solver. }
  apply NoDup_cons in Hnd as [Hc Hnd]. destruct (Hcs c) as (Hlt & m & Hm & Hpos); [left|].
  destruct (lookup_lt_is_Some_2 ns c Hlt) as [n Hnc].
  assert (Hdec : (m + u32_modulus - 1) mod u32_modulus = N.pred m).
  { replace (m + u32_modulus - 1) with (N.pred m + 1 * u32_modulus) by lia.
    rewrite N.Div0.mod_add. apply N.mod_small. lia. }
  assert (Hone : ∃ g1 f1, release_child g c = Ok g1 ∧ nodes g1 = ns ∧ id_to_index g1 = id_to_index g ∧
    temp_parents g1 = <[c := N.pred m]> T ∧
    txns_without_parent g1 ≡ₚ (node_entry ns <$> f1) ++ txns_without_parent g ∧
    f1 = if decide (m = 1) then [c] else []).
  { unfold release_child. rewrite HT, Hm. cbn [expect mbind outcome_bind]. rewrite Hdec.
    case_bool_decide as Hz.
    - cbn [nodes with_temp_parents]. rewrite Hn, Hnc. cbn [expect mbind outcome_bind].
      eexists _, [c]. split; [done|]. split; [done|]. split; [done|]. split; [done|].
      split; [|by rewrite decide_True by lia]. simpl. rewrite heap_push_perm. unfold node_entry. by rewrite Hnc.
    - eexists _, []. split; [done|]. split; [done|]. split; [done|]. split; [done|]. split; [done|].
      by rewrite decide_False by lia. }
  destruct Hone as (g1 & f1 & -> & Hn1 & Hi1 & HT1 & Hh1 & Hf1). cbn [mbind outcome_bind].
  destruct (IH g1 (<[c := N.pred m]> T)) as (g2 & f2 & -> & Hn2 & Hi2 & HT2 & Hh2 & Hnd2 & Hf2); [done|done|done| |].
  { intros c' Hc'. destruct (Hcs c') as (Hlt' & m' & Hm' & Hpos'); [by right|]. split; [done|].
    exists m'. rewrite list_lookup_insert_ne by (intros ->; done). done. }
  assert (HcT : (c < length T)%nat) by (by eapply lookup_lt_Some).
  exists g2, (f2 ++ f1). split; [done|]. split; [done|]. split; [congruence|]. split; [|split; [|split]].
  - intros c'. rewrite HT2. destruct (decide (c' = c)) as [->|Hne].
    + rewrite decide_False by done. rewrite decide_True by set_solver.
      rewrite list_lookup_insert_eq by done. by rewrite Hm.
    + rewrite list_lookup_insert_ne by done. apply decide_ext. set_solver.
  - rewrite Hh2, Hh1, fmap_app. by rewrite app_assoc.
  - apply NoDup_app. split; [done|]. split.
    + intros c' [Hc' _]%Hf2. subst f1. case_decide; set_solver.
    + subst f1. case_decide; [apply NoDup_singleton|constructor].
  - intros c'. rewrite elem_of_app, Hf2, elem_of_cons. subst f1. destruct (decide (c' = c)) as [->|Hne].
    + rewrite Hm. case_decide; [subst m|]; set_solver.
    + rewrite list_lookup_insert_ne by done. case_decide; set_solver.
Qed.

(** *** Assigning a transaction to an idle thread *)

Definition busy (s : SimState) (t : nat) : Prop :=
  ∃ th, sim_threads s !! t = Some th ∧ is_idle th = false.

(** The state after thread [t] starts transaction [i]. *)
Definition assigned (s : SimState) (t : nat) (th : ThreadState) (i : nat) (h : list HeapEntry) : SimState :=
  let end_time := current_time s + gas_at ns i in
  mkSim (with_heap (sim_graph s) h)
    (<[t := mkThread t (Some (id_at ns i)) end_time (completed_transactions th)]> (sim_threads s))
    (heap_push completion_le (mkCompletion end_time t) (completion_heap s))
    (sim_order s ++ [(t, id_at ns i, current_time s, end_time)]) (current_time s).

Lemma is_idle_iff th : is_idle th = true ↔ current_transaction th = None.
Proof. unfold is_idle. by rewrite bool_decide_eq_true. Qed.

Lemma omap_insert_perm {A B} (f : A → option B) (l : list A) i x y b :
  l !! i = Some x → f x = None → f y = Some b → omap f (<[i := y]> l) ≡ₚ b :: omap f l.
Proof.
  revert i. induction l as [|z l IH]; intros [|i] Hi Hx Hy; simpl in *; try done.
  - injection Hi as ->. by rewrite Hx, Hy.
  - specialize (IH i Hi Hx Hy). destruct (f z); [|done].
    etransitivity; [by apply Permutation_skip|]. apply Permutation_swap.
Qed.

(** Looks up a position of a list extended at its end. *)
Lemma lookup_snoc_cases {A} (l : list A) x j y :
  (l ++ [x]) !! j = Some y → l !! j = Some y ∨ (j = length l ∧ y = x).
Proof.
  intros [H|[Hle H]]%lookup_app_Some; [by left|right].
  apply list_lookup_singleton_Some in H as [Hj ->]. split; [lia|done].
Qed.

Lemma sim_assigned s started completed t th i h ready :
  sim_inv s started completed → sim_threads s !! t = Some th → current_transaction th = None →
  node_entry ns i :: h ≡ₚ node_entry ns <$> (i :: ready) → NoDup (i :: ready) →
  (∀ j, j ∈ i :: ready ↔ (j < length ns)%nat ∧ j ∉ started ∧ open_parents completed j = []) →
  sim_inv (assigned s t th i h) (started ++ [i]) completed.
Proof.
  intros [Hn Hi [Hnd Hlt] Hcs Hpar _ Htemp [Hk Htid] Hord Hrun Hbusy Hev Hpast Htime Hnow Hdeps Hser]
    Hth Hidle Hheap Hrnd Hready.
  destruct (proj1 (Hready i)) as (Hil & His & Hio); [left|]. apply NoDup_cons in Hrnd as [Hir Hrnd].
  pose proof (Forall2_length _ _ _ Hord) as Hlen. pose proof (lookup_lt_Some _ _ _ Hth) as Htk.
  assert (Hic : i ∉ completed) by (intros Hic; apply His; auto).
  split; simpl; try done.
  - split.
    + apply NoDup_app. split; [done|]. split; [|apply NoDup_singleton]. by intros j Hj ->%list_elem_of_singleton.
    + intros j [Hj| ->%list_elem_of_singleton]%elem_of_app; auto.
  - intros j Hj. apply elem_of_app. left. auto.
  - intros j [Hj| ->%list_elem_of_singleton]%elem_of_app; auto.
  - exists ready. split; [by apply Permutation_cons_inv in Hheap|]. split; [done|]. intros j. split.
    + intros Hj. destruct (proj1 (Hready j)) as (? & ? & ?); [by right|]. split; [done|]. split; [|done].
      intros [?| ->%list_elem_of_singleton]%elem_of_app; done.
    + intros (Hj & Hjs & Ho). apply not_elem_of_app in Hjs as [? Hji].
      assert (Hin : j ∈ i :: ready) by (by apply Hready). apply elem_of_cons in Hin as [->|?]; [|done].
      destruct Hji. left.
  - rewrite length_insert. split; [done|]. intros t' th'. destruct (decide (t' = t)) as [->|].
    + rewrite list_lookup_insert_eq by done. by intros [= <-].
    + rewrite list_lookup_insert_ne by done. apply Htid.
  - apply Forall2_app; [done|]. constructor; [|constructor]. split; [done|]. split; [done|].
    unfold ev_thread. simpl. lia.
  - intros j i' e Hj He Hnc. destruct (lookup_snoc_cases _ _ _ _ Hj) as [Hj'|[-> ->]].
    + destruct (lookup_snoc_cases _ _ _ _ He) as [He'|[-> _]]; [|apply lookup_lt_Some in Hj'; lia].
      destruct (Hrun j i' e Hj' He' Hnc) as (th' & Hth' & Hcur & ?).
      exists th'. rewrite list_lookup_insert_ne by (intros Heq; rewrite <-Heq in Hth'; congruence). done.
    + destruct (lookup_snoc_cases _ _ _ _ He) as [He'|[_ ->]]; [apply lookup_lt_Some in He'; lia|].
      unfold ev_thread. simpl. rewrite list_lookup_insert_eq by done. eexists. done.
  - intros t' th' id. destruct (decide (t' = t)) as [->|].
    + rewrite list_lookup_insert_eq by done. intros [= <-] [= <-]. exists (length started), i, (t, id_at ns i, current_time s, current_time s + gas_at ns i).
      rewrite list_lookup_middle by done. rewrite Hlen, list_lookup_middle by done. simpl. repeat split; [done|].
      specialize (Htime). lia.
    + rewrite list_lookup_insert_ne by done. intros Hth' Hcur.
      destruct (Hbusy t' th' id Hth' Hcur) as (j & i' & e & Hj & He & Hrest). exists j, i', e.
      split; [by apply lookup_app_l_Some|]. split; [by apply lookup_app_l_Some|done].
  - rewrite heap_push_perm, Hev. symmetry. eapply omap_insert_perm; [done| |].
    + by rewrite (proj2 (is_idle_iff th) Hidle).
    + done.
  - intros j i' e Hj He Hc. destruct (lookup_snoc_cases _ _ _ _ Hj) as [Hj'|[-> ->]]; [|done].
    destruct (lookup_snoc_cases _ _ _ _ He) as [He'|[-> _]]; [by eapply Hpast|apply lookup_lt_Some in Hj'; lia].
  - intros e [He| ->%list_elem_of_singleton]%elem_of_app; [by apply Hnow|done].
  - intros j i' p e Hj He Hp. destruct (lookup_snoc_cases _ _ _ _ Hj) as [Hj'|[-> ->]].
    + destruct (lookup_snoc_cases _ _ _ _ He) as [He'|[-> _]]; [|apply lookup_lt_Some in Hj'; lia].
      destruct (Hdeps j i' p e Hj' He' Hp) as (j' & e' & ? & ? & ? & ?). exists j', e'.
      split; [done|]. split; [by apply lookup_app_l_Some|]. split; [by apply lookup_app_l_Some|done].
    + destruct (lookup_snoc_cases _ _ _ _ He) as [He'|[_ ->]]; [apply lookup_lt_Some in He'; lia|].
      assert (Hpc : p ∈ completed).
      { destruct (lookup_lt_is_Some_2 ns i Hil) as [ni Hni]. unfold open_parents in Hio. rewrite Hni in Hio.
        destruct (decide (p ∈ completed)) as [|Hno]; [done|]. exfalso.
        assert (p ∈ filter (λ p, p ∉ completed) (parent_indices ni)) as Hin.
        { apply list_elem_of_filter. split; [done|]. by apply (links_mirror _ Hlinks p i ni Hni). }
        rewrite Hio in Hin. by apply not_elem_of_nil in Hin. }
      destruct (list_elem_of_lookup_1 _ _ (Hcs p Hpc)) as [j' Hj'].
      destruct (Forall2_lookup_l _ _ _ _ _ Hord Hj') as (e' & He' & _).
      exists j', e'. split; [by eapply lookup_lt_Some|]. split; [by apply lookup_app_l_Some|].
      split; [by apply lookup_app_l_Some|]. by eapply Hpast.
  - intros j1 j2 e1 e2 Hlt' H1 H2 Heq. destruct (lookup_snoc_cases _ _ _ _ H2) as [H2'|[-> ->]].
    + destruct (lookup_snoc_cases _ _ _ _ H1) as [H1'|[-> _]]; [by eapply Hser|apply lookup_lt_Some in H2'; lia].
    + destruct (lookup_snoc_cases _ _ _ _ H1) as [H1'|[-> _]]; [|lia].
      destruct (Forall2_lookup_r _ _ _ _ _ Hord H1') as (i1 & Hi1 & _).
      unfold ev_start. simpl. destruct (decide (i1 ∈ completed)) as [Hc1|Hn1]; [by eapply Hpast|].
      destruct (Hrun j1 i1 e1 Hi1 H1' Hn1) as (th' & Hth' & Hcur & _). rewrite Heq in Hth'.
      unfold ev_thread in Hth'. simpl in Hth'. congruence.
Qed.

Lemma assign_thread_spec s started completed b t :
  sim_inv s started completed → (t < k)%nat →
  ∃ s' started' b', assign_thread (s, b) t = Ok (s', b') ∧ sim_inv s' started' completed ∧
    (length (completion_heap s') + length (sim_order s) = length (completion_heap s) + length (sim_order s'))%nat ∧
    (length started ≤ length started')%nat ∧
    (b' = true → b = true ∨ (length started < length started')%nat) ∧
    (txns_without_parent (sim_graph s') = [] ∨ busy s' t) ∧
    (txns_without_parent (sim_graph s) = [] → txns_without_parent (sim_graph s') = []) ∧
    (∀ t', busy s t' → busy s' t').
Proof.
  intros Hinv Ht. pose proof Hinv as [Hn Hi [Hnd Hlt] Hcs _ (ready & Hheap & Hrnd & Hready) _ [Hk Htid] _ _ _ _ _ Htime _ _ _].
  destruct (lookup_lt_is_Some_2 (sim_threads s) t) as [th Hth]; [lia|].
  unfold assign_thread. rewrite Hth. cbn [expect mbind outcome_bind].
  destruct (is_idle th) eqn:Hidle.
  2: { exists s, started, b. split; [done|]. split; [done|]. split; [done|]. split; [done|]. split; [by left|].
       split; [right; by exists th|]. done. }
  unfold pop_txn_without_parent. destruct (txns_without_parent (sim_graph s)) as [|entry h] eqn:Hh.
  { exists s, started, b. split; [done|]. split; [done|]. split; [done|]. split; [done|]. split; [by left|].
    split; [by left|]. done. }
  assert (Hin : entry ∈ node_entry ns <$> ready) by (rewrite <-Hheap; left).
  apply list_elem_of_fmap in Hin as (i & -> & Hir). apply Hready in Hir as Hi'. destruct Hi' as (Hil & His & Hio).
  destruct (proj1 (elem_of_Permutation ready i) Hir) as [ready' Hperm].
  destruct (lookup_lt_is_Some_2 ns i Hil) as [n Hni].
  assert (Hgi : gas_at ns i = gas_cost n) by (unfold gas_at; by rewrite Hni).
  change (he_tx_id (node_entry ns i)) with (id_at ns i).
  unfold get_node. cbn [id_to_index nodes with_heap]. rewrite Hi, (ids_id_at i Hil), Hn, Hni.
  cbn [expect fmap outcome_fmap mbind outcome_bind]. unfold assign_transaction. rewrite (Htid t th Hth).
  assert (Hno : u64_add (current_time s) (gas_cost n) = current_time s + gas_at ns i).
  { rewrite Hgi. apply u64_add_small. rewrite <-Hgi.
    assert (Hic : i ∉ completed) by (intros Hic; apply His; auto).
    pose proof (gas_done_bound completed i ltac:(auto) Hil Hic). lia. }
  rewrite Hno. eexists (assigned s t th i h), (started ++ [i]), true. split; [done|].
  simpl. rewrite heap_push_perm, !length_app. simpl.
  split; [|split; [lia|split; [lia|split; [right; lia|split; [|split; [done|]]]]]].
  - eapply (sim_assigned s started completed t th i h ready'); [done|done|by apply is_idle_iff| | |].
    + rewrite Hheap. by apply fmap_Permutation.
    + by rewrite <-Hperm.
    + intros j. rewrite <-Hperm. apply Hready.
  - right. exists (mkThread t (Some (id_at ns i)) (current_time s + gas_at ns i) (completed_transactions th)).
    simpl. rewrite list_lookup_insert_eq by lia. done.
  - intros t' (th' & Hth' & Hb). destruct (decide (t' = t)) as [->|].
    + congruence.
    + exists th'. simpl. by rewrite list_lookup_insert_ne.
Qed.

Lemma assign_all_spec ts : ∀ s started completed b,
  sim_inv s started completed → (∀ t, t ∈ ts → (t < k)%nat) →
  ∃ s' started' b', foldM assign_thread (s, b) ts = Ok (s', b') ∧ sim_inv s' started' completed ∧
    (length (completion_heap s') + length (sim_order s) = length (completion_heap s) + length (sim_order s'))%nat ∧
    (length started ≤ length started')%nat ∧
    (b' = true → b = true ∨ (length started < length started')%nat) ∧
    (txns_without_parent (sim_graph s') = [] ∨ ∀ t, t ∈ ts → busy s' t) ∧
    (txns_without_parent (sim_graph s) = [] → txns_without_parent (sim_graph s') = []) ∧
    (∀ t', busy s t' → busy s' t').
Proof.
  induction ts as [|t ts IH]; intros s started completed b Hinv Hts; cbn [foldM].
  { exists s, started, b. split; [done|]. split; [done|]. split; [done|]. split; [done|]. split; [by left|].
    split; [right; by intros t ?%not_elem_of_nil|]. done. }
  destruct (assign_thread_spec s started completed b t Hinv) as (s1 & st1 & b1 & -> & Hinv1 & Hc1 & Hl1 & Hb1 & Hd1 & He1 & Hm1);
    [apply Hts; left|]. cbn [mbind outcome_bind].
  destruct (IH s1 st1 completed b1 Hinv1) as (s2 & st2 & b2 & -> & Hinv2 & Hc2 & Hl2 & Hb2 & Hd2 & He2 & Hm2).
  { intros t' Ht'. apply Hts. by right. }
  exists s2, st2, b2. split; [done|]. split; [done|]. split; [lia|]. split; [lia|].
  split; [|split; [|split; [auto|auto]]].
  - intros Hb. destruct (Hb2 Hb) as [Hb'|?]; [|right; lia]. destruct (Hb1 Hb') as [?|?]; [by left|right; lia].
  - destruct Hd2 as [?|Hd2]; [by left|]. destruct Hd1 as [Hd1|Hd1]; [left; auto|right].
    intros t' [->|Ht']%elem_of_cons; auto.
Qed.

(** *** Completing a transaction *)

Lemma open_parents_nodup C c : NoDup (open_parents C c).
Proof.
  unfold open_parents. destruct (ns !! c) as [n|] eqn:Hn; [|constructor].
  apply NoDup_filter. by apply (links_nodup _ Hlinks c n).
Qed.

Lemma elem_of_open_parents C c p : p ∈ open_parents C c ↔ p ∉ C ∧ edge_in ns p c.
Proof.
  unfold open_parents. destruct (ns !! c) as [n|] eqn:Hn.
  - rewrite list_elem_of_filter. by rewrite (links_mirror _ Hlinks p c n Hn).
  - split; [by intros ?%not_elem_of_nil|]. intros [_ He]. apply (links_order _ Hlinks) in He.
    apply lookup_ge_None_1 in Hn. lia.
Qed.

Lemma open_parents_short C c : N.of_nat (length (open_parents C c)) < u32_modulus.
Proof.
  enough (length (open_parents C c) ≤ length ns)%nat by lia.
  rewrite <-(length_seq (length ns) 0). apply submseteq_length, NoDup_submseteq; [apply open_parents_nodup|].
  intros p [_ He]%elem_of_open_parents. apply (links_order _ Hlinks) in He. apply elem_of_seq. lia.
Qed.

Lemma open_parents_insert C c i :
  open_parents ({[i]} ∪ C) c ≡ₚ filter (λ p, p ≠ i) (open_parents C c).
Proof.
  apply NoDup_Permutation; [apply open_parents_nodup|apply NoDup_filter, open_parents_nodup|].
  intros p. rewrite list_elem_of_filter, !elem_of_open_parents. set_solver.
Qed.

(** The number of open parents after [i] completes. *)
Lemma open_parents_count C c i :
  i ∉ C →
  length (open_parents C c) =
    (length (open_parents ({[i]} ∪ C) c) + if decide (edge_in ns i c) then 1 else 0)%nat.
Proof.
  intros Hi. rewrite open_parents_insert. case_decide as He.
  - assert (Hin : i ∈ open_parents C c) by (by apply elem_of_open_parents).
    apply elem_of_Permutation in Hin as [l Hl].
    pose proof (open_parents_nodup C c) as Hnd. rewrite Hl in Hnd. apply NoDup_cons in Hnd as [Hnl _].
    rewrite Hl, filter_cons_False by (by intros []). rewrite filter_all; [simpl; lia|].
    by intros p Hp ->.
  - rewrite filter_all; [lia|]. intros p [_ Hp]%elem_of_open_parents ->. done.
Qed.

Lemma remove_transaction_spec s started completed i :
  sim_inv s started completed → i ∈ started → i ∉ completed →
  ∃ g' ready, remove_transaction_and_update (sim_graph s) (id_at ns i) = Ok g' ∧
    nodes g' = ns ∧ id_to_index g' = ids ∧
    (∀ c, (c < length ns)%nat →
       temp_parents g' !! c = Some (N.of_nat (length (open_parents ({[i]} ∪ completed) c)))) ∧
    txns_without_parent g' ≡ₚ node_entry ns <$> ready ∧ NoDup ready ∧
    (∀ c, c ∈ ready ↔ (c < length ns)%nat ∧ c ∉ started ∧ open_parents ({[i]} ∪ completed) c = []).
Proof.
  intros [Hn Hi [_ Hlt] _ Hpar (ready & Hheap & Hrnd & Hready) Htemp _ _ _ _ _ _ _ _ _ _] His Hic.
  destruct (lookup_lt_is_Some_2 ns i (Hlt i His)) as [n Hni].
  assert (Hch : ∀ c, c ∈ children_indices n ↔ edge_in ns i c).
  { intros c. split; [by exists n|]. intros (n' & Hn' & Hc). by replace n with n' by congruence. }
  assert (Hlen : ∀ c, edge_in ns i c → (c < length ns)%nat) by (intros c ?%(links_order _ Hlinks); lia).
  unfold remove_transaction_and_update. rewrite Hi, (ids_id_at i (Hlt i His)), Hn, Hni.
  cbn [expect mbind outcome_bind].
  destruct (release_children_spec (children_indices n) (sim_graph s) _ Hn eq_refl)
    as (g' & freed & -> & Hn' & Hi' & HT & Hh & Hfnd & Hfreed).
  { by apply (links_nodup _ Hlinks i n). }
  { intros c Hc%Hch. split; [auto|]. rewrite (Htemp c) by auto. eexists. split; [done|].
    pose proof (open_parents_count completed c i Hic) as Hcount. rewrite decide_True in Hcount by done.
    pose proof (open_parents_short completed c). lia. }
  exists g', (freed ++ ready). split; [done|]. split; [done|]. split; [congruence|].
  assert (Hcount : ∀ c, length (open_parents completed c) =
    (length (open_parents ({[i]} ∪ completed) c) + if decide (c ∈ children_indices n) then 1 else 0)%nat).
  { intros c. rewrite (open_parents_count completed c i Hic). f_equal. apply decide_ext. by rewrite Hch. }
  assert (Hone : ∀ c, c ∈ freed ↔ c ∈ children_indices n ∧ open_parents ({[i]} ∪ completed) c = []).
  { intros c. rewrite Hfreed. rewrite <-length_zero_iff_nil. specialize (Hcount c).
    split; intros [Hc Heq]; (split; [done|]); rewrite decide_True in Hcount by done;
      rewrite (Htemp c) in * by (apply Hlen, Hch, Hc); [injection Heq as Heq|f_equal]; lia. }
  assert (Hopen : ∀ c, c ∈ children_indices n → open_parents completed c ≠ []).
  { intros c Hc Hnil. specialize (Hcount c). rewrite decide_True in Hcount by done. rewrite Hnil in Hcount.
    simpl in Hcount. lia. }
  split; [|split; [|split]].
  - intros c Hc. rewrite HT. specialize (Hcount c). rewrite (Htemp c Hc).
    destruct (decide (c ∈ children_indices n)); simpl; f_equal; lia.
  - rewrite Hh, fmap_app. apply Permutation_app_head. done.
  - apply NoDup_app. split; [done|]. split; [|done]. intros c [Hc _]%Hone (_ & _ & Ho)%Hready. by apply (Hopen c).
  - intros c. rewrite elem_of_app, Hone, Hready. specialize (Hcount c).
    destruct (decide (c ∈ children_indices n)) as [Hc|Hc].
    + split.
      * intros [[_ Ho]|(_ & _ & Ho)]; [|by destruct (Hopen c)].
        split; [by apply Hlen, Hch|]. split; [|done]. intros Hcs%Hpar. by apply (Hopen c).
      * intros (_ & _ & Ho). by left.
    + assert (Hiff : open_parents completed c = [] ↔ open_parents ({[i]} ∪ completed) c = [])
        by (rewrite <-!length_zero_iff_nil; lia). rewrite Hiff. tauto.
Qed.

Lemma sim_completed s started completed event h :
  sim_inv s started completed → completion_heap s = event :: h →
  let now := if bool_decide (current_time s < ec_time event) then ec_time event else current_time s in
  ∃ th th' id g' i, sim_threads s !! ec_thread_id event = Some th ∧
    complete_transaction th = (th', Some id) ∧
    remove_transaction_and_update (sim_graph s) id = Ok g' ∧ i ∈ started ∧ i ∉ completed ∧
    sim_inv (mkSim g' (<[ec_thread_id event := th']> (sim_threads s)) h (sim_order s) now)
      started ({[i]} ∪ completed).
Proof.
  intros Hinv Hh now.
  pose proof Hinv as [Hn Hi [Hnd Hlt] Hcs Hpar _ _ [Hk Htid] Hord Hrun Hbusy Hev Hpast Htime Hnow Hdeps Hser].
  assert (Hin : event ∈ completion_heap s) by (rewrite Hh; left). rewrite Hev in Hin.
  apply list_elem_of_omap in Hin as (th & [t Hth]%list_elem_of_lookup_1 & Hf).
  destruct (is_idle th) eqn:Hidle; [done|]. injection Hf as <-. rewrite (Htid t th Hth) in *. simpl in *.
  destruct (current_transaction th) as [id|] eqn:Hcur; [|by apply is_idle_iff in Hcur; congruence].
  destruct (Hbusy t th id Hth Hcur) as (j & i & e & Hj & He & -> & Hic & Het & Hend & Hbound).
  assert (His : i ∈ started) by (by eapply list_elem_of_lookup_2).
  destruct (remove_transaction_spec s started completed i Hinv His Hic)
    as (g' & ready & Hrem & Hn' & Hi' & Htemp' & Hheap' & Hrnd' & Hready').
  exists th, (mkThread (thread_id th) None (completion_time th) (completed_transactions th ++ [id_at ns i])),
    (id_at ns i), g', i.
  split; [done|]. split; [unfold complete_transaction; by rewrite Hcur|]. split; [done|]. split; [done|].
  split; [done|].
  assert (Hgd : gas_done ({[i]} ∪ completed) = gas_at ns i + gas_done completed)
    by (unfold gas_done; by rewrite set_sum_insert).
  assert (Hnow' : current_time s ≤ now ∧ completion_time th ≤ now ∧ now ≤ gas_done ({[i]} ∪ completed))
    by (unfold now; case_bool_decide; lia).
  assert (Hsub : ∀ c, open_parents completed c = [] → open_parents ({[i]} ∪ completed) c = []).
  { intros c Hc. pose proof (open_parents_count completed c i Hic) as Hcnt. rewrite Hc in Hcnt. simpl in Hcnt.
    apply length_zero_iff_nil. lia. }
  pose proof (lookup_lt_Some _ _ _ Hth) as Htl.
  split; simpl; try done.
  - intros c [->%elem_of_singleton|Hc]%elem_of_union; auto.
  - intros c Hc. auto.
  - exists ready. done.
  - rewrite length_insert. split; [done|]. intros t' th'. destruct (decide (t' = t)) as [->|].
    + rewrite list_lookup_insert_eq by done. intros [= <-]. simpl. by apply Htid.
    + rewrite list_lookup_insert_ne by done. apply Htid.
  - intros j' i' e' Hj' He' [Hne Hnc]%not_elem_of_union.
    destruct (Hrun j' i' e' Hj' He' Hnc) as (th' & Hth' & Hcur' & ?). exists th'.
    rewrite list_lookup_insert_ne; [done|]. intros Ht. rewrite <-Ht in Hth'.
    rewrite not_elem_of_singleton in Hne. apply Hne. apply id_at_inj; [|auto|congruence].
    apply Hlt. by eapply list_elem_of_lookup_2.
  - intros t' th' id. destruct (decide (t' = t)) as [->|Hne].
    + rewrite list_lookup_insert_eq by done. intros [= <-]. simpl. done.
    + rewrite list_lookup_insert_ne by done. intros Hth' Hcur'.
      destruct (Hbusy t' th' id Hth' Hcur') as (j' & i' & e' & Hj' & He' & -> & Hnc & Het' & Hend' & Hb').
      exists j', i', e'. split; [done|]. split; [done|]. split; [done|]. split; [|split; [done|split; [done|lia]]].
      apply not_elem_of_union. split; [|done]. rewrite not_elem_of_singleton. intros ->.
      assert (j' = j) as -> by (apply (NoDup_lookup started j' j i); done). congruence.
  - rewrite Hh in Hev. apply (Permutation_cons_inv (a := mkCompletion (completion_time th) t)).
    rewrite Hev. rewrite <-(list_insert_id (sim_threads s) t th Hth) at 1.
    rewrite <-(list_insert_insert_eq (sim_threads s) t th
      (mkThread (thread_id th) None (completion_time th) (completed_transactions th ++ [id_at ns i]))).
    eapply omap_insert_perm; [by rewrite list_lookup_insert_eq|done|].
    by rewrite Hidle, (Htid t th Hth).
  - intros j' i' e' Hj' He' [->%elem_of_singleton|Hc]%elem_of_union; [|specialize (Hpast j' i' e' Hj' He' Hc); lia].
    assert (j' = j) as -> by (apply (NoDup_lookup started j' j i); done). replace e' with e by congruence. lia.
  - apply Hnow'.
  - intros e' He'%Hnow. lia.
Qed.

(** *** The loop *)

Lemma started_short s started completed : sim_inv s started completed → (length started ≤ length ns)%nat.
Proof.
  intros Hinv. destruct (si_started _ _ _ Hinv) as [Hnd Hlt].
  rewrite <-(length_seq (length ns) 0). apply submseteq_length, NoDup_submseteq; [done|].
  intros i Hi%Hlt. apply elem_of_seq. lia.
Qed.

(** When nothing runs and nothing is ready, everything has completed. *)
Lemma sim_finished s started completed :
  sim_inv s started completed → txns_without_parent (sim_graph s) = [] → completion_heap s = [] →
  ∀ i, (i < length ns)%nat → i ∈ completed.
Proof.
  intros Hinv Hheap Hev i. induction (lt_wf i) as [i _ IH]. intros Hi.
  assert (Hrunning : i ∈ started → i ∈ completed).
  { intros [j Hj]%list_elem_of_lookup_1. destruct (decide (i ∈ completed)) as [|Hno]; [done|]. exfalso.
    destruct (started_lookup s started completed j i Hinv Hj) as (e & He & _).
    destruct (si_running _ _ _ Hinv j i e Hj He Hno) as (th & Hth & Hcur & _).
    pose proof (si_events _ _ _ Hinv) as Hperm. rewrite Hev in Hperm.
    assert (Hin : mkCompletion (completion_time th) (thread_id th) ∈ @nil EstimatedCompletion).
    { rewrite Hperm. apply list_elem_of_omap. exists th. split; [by eapply list_elem_of_lookup_2|].
      unfold is_idle. by rewrite Hcur. }
    by apply not_elem_of_nil in Hin. }
  destruct (decide (i ∈ started)) as [|Hns]; [auto|].
  destruct (si_heap _ _ _ Hinv) as (ready & Hperm & _ & Hready). rewrite Hheap in Hperm.
  assert (ready = []) as Hnil.
  { destruct ready; [done|]. symmetry in Hperm. by apply Permutation_nil_r in Hperm. }
  exfalso. assert (i ∈ ready) as Hin; [|rewrite Hnil in Hin; by apply not_elem_of_nil in Hin].
  apply Hready. split; [done|]. split; [done|].
  destruct (open_parents completed i) as [|p ps] eqn:Hp; [done|].
  assert (p ∈ open_parents completed i) as [Hno He]%elem_of_open_parents by (rewrite Hp; left).
  pose proof (links_order _ Hlinks _ _ He). destruct Hno. apply IH; lia.
Qed.

Definition sim_measure (s : SimState) : N :=
  N.of_nat (2 * length ns + length (completion_heap s) - 2 * length (sim_order s)).

(** The loop ends with every transaction completed. *)
Lemma sim_loop_spec s started completed :
  (0 < k)%nat → sim_inv s started completed → completion_heap s = [] → sim_order s = [] →
  ∃ s' started' completed', loop sim_step (2 * N.of_nat (length ns) + 1) s = Ok s' ∧
    sim_inv s' started' completed' ∧ (∀ i, (i < length ns)%nat → i ∈ completed') ∧
    txns_without_parent (sim_graph s') = [].
Proof.
  intros Hk Hinv Hch Hso.
  set (Q := λ r, ∃ s' started' completed', r = Ok s' ∧ sim_inv s' started' completed' ∧
                 (∀ i, (i < length ns)%nat → i ∈ completed') ∧ txns_without_parent (sim_graph s') = []).
  assert (H : Q (loop sim_step (2 * N.of_nat (length ns) + 1) s)); [|done].
  apply (loop_rule sim_step (λ s, ∃ started completed, sim_inv s started completed) Q sim_measure);
    [|eauto|unfold sim_measure; rewrite Hch, Hso; simpl; lia].
  clear s started completed Hinv Hch Hso. intros s (started & completed & Hinv).
  destruct (si_threads _ _ _ Hinv) as [Hlen _]. unfold sim_step.
  destruct (assign_all_spec (seq 0 (length (sim_threads s))) s started completed false Hinv)
    as (s1 & st1 & b1 & -> & Hinv1 & Hcount & Hle & Hb & Hidle & _ & _).
  { intros t [_ Ht]%elem_of_seq. lia. }
  cbn [mbind outcome_bind].
  pose proof (started_short _ _ _ Hinv1) as Hshort. pose proof (Forall2_length _ _ _ (si_order _ _ _ Hinv1)) as Ho1.
  pose proof (Forall2_length _ _ _ (si_order _ _ _ Hinv)) as Ho0.
  destruct (b1 && negb (bool_decide (txns_without_parent (sim_graph s1) = []))) eqn:Hcont.
  { apply andb_true_iff in Hcont as [-> _]. split; [eauto|]. destruct (Hb eq_refl) as [?|Hgrow]; [done|].
    unfold sim_measure. lia. }
  destruct (completion_heap s1) as [|event h] eqn:Hevent.
  - exists s1, st1, completed. split; [done|]. split; [done|].
    enough (Hnil : txns_without_parent (sim_graph s1) = [])
      by (split; [by apply (sim_finished s1 st1 completed Hinv1)|done]).
    destruct Hidle as [?|Hbusy]; [done|]. exfalso.
    destruct (Hbusy 0%nat) as (th & Hth & Hb1); [apply elem_of_seq; lia|].
    pose proof (si_events _ _ _ Hinv1) as Hperm. rewrite Hevent in Hperm.
    assert (Hin : mkCompletion (completion_time th) (thread_id th) ∈ @nil EstimatedCompletion).
    { rewrite Hperm. apply list_elem_of_omap. exists th. split; [by eapply list_elem_of_lookup_2|]. by rewrite Hb1. }
    by apply not_elem_of_nil in Hin.
  - destruct (sim_completed s1 st1 completed event h Hinv1 Hevent)
      as (th & th' & id & g' & i & -> & Hct & Hrem & His & Hic & Hinv').
    cbn [expect mbind outcome_bind]. rewrite Hct. cbn [expect mbind outcome_bind]. rewrite Hrem.
    cbn [mbind outcome_bind]. split; [eauto|]. unfold sim_measure. simpl in *. lia.
Qed.
End simulation.

Record valid_schedule (g : TransactionGraph) (k : nat) (r : SimulationResult) : Prop := {
  vs_once : ev_tx <$> execution_order r ≡ₚ transaction_id <$> nodes g;
  vs_cost : ∀ e, e ∈ execution_order r → (ev_thread e < k)%nat ∧ ev_end e ≤ total_time r ∧
    ∃ n, n ∈ nodes g ∧ transaction_id n = ev_tx e ∧ ev_end e = ev_start e + gas_cost n;
  vs_deps : ∀ p c np nc, edge g p c → nodes g !! p = Some np → nodes g !! c = Some nc →
    ∃ jp jc ep ec, (jp < jc)%nat ∧ execution_order r !! jp = Some ep ∧ execution_order r !! jc = Some ec ∧
      ev_tx ep = transaction_id np ∧ ev_tx ec = transaction_id nc ∧ ev_end ep ≤ ev_start ec;
  vs_serial : ∀ j1 j2 e1 e2, (j1 < j2)%nat → execution_order r !! j1 = Some e1 →
    execution_order r !! j2 = Some e2 → ev_thread e1 = ev_thread e2 → ev_end e1 ≤ ev_start e2;
  vs_makespan : total_time r ≤ total_gas (nodes g) }.

Lemma same_shape_edges l l' i j : same_shape l l' → edge_in l i j ↔ edge_in l' i j.
Proof.
  intros Hs. split; intros (n & Hn & Hj).
  - destruct (same_shape_lookup _ _ _ _ Hs Hn) as [s Hn']. by exists (with_suffix n s).
  - destruct (same_shape_lookup _ _ _ _ (same_shape_sym _ _ Hs) Hn) as [s Hn']. by exists (with_suffix n s).
Qed.

Lemma links_wf_shape l l' : same_shape l l' → links_wf l → links_wf l'.
Proof.
  intros Hs [Hm Ho Hd]. split.
  - intros i j n Hn. destruct (same_shape_lookup _ _ _ _ (same_shape_sym _ _ Hs) Hn) as [s Hn'].
    rewrite <-(same_shape_edges l l') by done. apply (Hm i j _ Hn').
  - intros i j. rewrite <-(same_shape_edges l l'), <-(same_shape_length l l') by done. apply Ho.
  - intros i n Hn. destruct (same_shape_lookup _ _ _ _ (same_shape_sym _ _ Hs) Hn) as [s Hn'].
    apply (Hd i _ Hn').
Qed.

Lemma ids_wf_shape m l l' : same_shape l l' → ids_wf m l → ids_wf m l'.
Proof.
  intros Hs Hm id i. rewrite (Hm id i). split; intros (n & Hn & Hid).
  - destruct (same_shape_lookup _ _ _ _ Hs Hn) as [s Hn']. by exists (with_suffix n s).
  - destruct (same_shape_lookup _ _ _ _ (same_shape_sym _ _ Hs) Hn) as [s Hn']. by exists (with_suffix n s).
Qed.

Lemma same_shape_fmap {A} (f : TransactionNode → A) l l' :
  (∀ n s, f (with_suffix n s) = f n) → same_shape l l' → f <$> l = f <$> l'.
Proof.
  intros Hf Hs. apply list_eq. intros i. rewrite !list_lookup_fmap.
  destruct (l !! i) as [n|] eqn:Hn.
  - destruct (same_shape_lookup _ _ _ _ Hs Hn) as [s ->]. simpl. by rewrite Hf.
  - apply lookup_ge_None_1 in Hn. rewrite (same_shape_length _ _ Hs) in Hn. by rewrite lookup_ge_None_2.
Qed.

Lemma total_gas_shape l l' : same_shape l l' → total_gas l = total_gas l'.
Proof.
  intros Hs%(same_shape_fmap gas_cost); [|done]. unfold total_gas.
  enough (∀ l, list_sum gas_cost l = list_sum id (gas_cost <$> l)) as H by (by rewrite !H, Hs).
  clear. induction l as [|n l IH]; simpl; [done|]. by rewrite IH.
Qed.

(** The initial state of the loop satisfies the invariant. *)
Lemma sim_initial g g1 rs k :
  links_wf (nodes g) → ids_wf (id_to_index g) (nodes g) → total_gas (nodes g) < u64_modulus →
  N.of_nat (length (nodes g)) < u32_modulus →
  temp_parents g = ((λ node, N.of_nat (length (parent_indices node)) mod u32_modulus) <$> nodes g) →
  sim_frame g g1 → (∀ i n, nodes g1 !! i = Some n → longest_suffix n = suffix_of (nodes g) i) →
  NoDup rs → (∀ i, i ∈ rs ↔ is_root (nodes g) i) →
  txns_without_parent g1 ≡ₚ entry_at (nodes g) <$> rs →
  sim_inv (nodes g1) (id_to_index g) k (mkSim g1 (ThreadState_new <$> seq 0 k) [] [] 0) [] ∅.
Proof.
  intros Hl Hids Hgas Hsmall Htp (Hsh & Hi & _ & _ & Ht & _) Hsuf Hnd Hrs Hheap.
  pose proof (same_shape_length _ _ Hsh) as Hlen. pose proof (links_wf_shape _ _ Hsh Hl) as Hl1.
  assert (Hopen : ∀ i n, nodes g1 !! i = Some n → open_parents (nodes g1) ∅ i = parent_indices n).
  { intros i n Hn. unfold open_parents. rewrite Hn. apply filter_all. set_solver. }
  split; simpl; try done.
  - split; [constructor|]. by intros i ?%not_elem_of_nil.
  - by intros i ?%not_elem_of_nil.
  - exists rs. split; [|split; [done|]].
    + rewrite Hheap. rewrite (list_fmap_ext (entry_at (nodes g)) (node_entry (nodes g1)) rs); [done|].
      intros j i Hj%list_elem_of_lookup_2%Hrs. destruct Hj as [Hi' _].
      destruct (lookup_lt_is_Some_2 (nodes g) i Hi') as [n Hn].
      destruct (same_shape_lookup _ _ _ _ Hsh Hn) as [s Hn1].
      unfold entry_at, node_entry. rewrite Hn, Hn1, (Hsuf i _ Hn1). done.
    + intros i. rewrite Hrs. unfold is_root. rewrite Hlen. split.
      * intros [Hi' Hno]. split; [done|]. split; [apply not_elem_of_nil|].
        destruct (lookup_lt_is_Some_2 (nodes g1) i Hi') as [n Hn]. rewrite (Hopen i n Hn).
        destruct (parent_indices n) as [|p ps] eqn:Hp; [done|]. exfalso. apply (Hno p).
        rewrite (same_shape_edges _ _ _ _ Hsh). apply (links_mirror _ Hl1 p i n Hn). rewrite Hp. left.
      * intros (Hi' & _ & Ho). split; [done|]. intros p He.
        destruct (lookup_lt_is_Some_2 (nodes g1) i Hi') as [n Hn]. rewrite (Hopen i n Hn) in Ho.
        rewrite (same_shape_edges _ _ _ _ Hsh) in He. apply (links_mirror _ Hl1 p i n Hn) in He.
        rewrite Ho in He. by apply not_elem_of_nil in He.
  - intros i Hi'. destruct (lookup_lt_is_Some_2 (nodes g1) i Hi') as [n Hn].
    destruct (same_shape_lookup _ _ _ _ (same_shape_sym _ _ Hsh) Hn) as [s Hn0].
    rewrite Ht, Htp, list_lookup_fmap, Hn0. simpl. rewrite (Hopen i n Hn). f_equal. apply N.mod_small.
    rewrite <-(Hopen i n Hn). apply open_parents_short; [done| |by rewrite <-Hlen].
    by rewrite <-(total_gas_shape _ _ Hsh).
  - rewrite length_fmap, length_seq. split; [done|]. intros t th Hth.
    rewrite list_lookup_fmap in Hth. destruct (seq 0 k !! t) as [t'|] eqn:Ht'; [|done].
    apply lookup_seq in Ht' as [-> _]. by injection Hth as <-.
  - intros t th id Hth Hcur. rewrite list_lookup_fmap in Hth. destruct (seq 0 k !! t); [|done].
    injection Hth as <-. done.
  - generalize (seq 0 k). intros l. induction l as [|t l IH]; simpl; [done|]. apply IH.
  - by intros e ?%not_elem_of_nil.
Qed.

Lemma final_schedule g g1 k s started completed :
  same_shape (nodes g) (nodes g1) → links_wf (nodes g1) → ids_wf (id_to_index g) (nodes g1) →
  total_gas (nodes g1) < u64_modulus → N.of_nat (length (nodes g1)) < u32_modulus →
  sim_inv (nodes g1) (id_to_index g) k s started completed →
  (∀ i, (i < length (nodes g1))%nat → i ∈ completed) →
  valid_schedule g k (SimulationResult_new (current_time s) (sim_threads s) (sim_order s)).
Proof.
  intros Hsh Hl Hids Hgas Hsmall Hinv Hall.
  assert (Hr : ∀ o, total_time (SimulationResult_new (current_time s) (sim_threads s) o) = current_time s ∧
                    execution_order (SimulationResult_new (current_time s) (sim_threads s) o) = o).
  { intros o. unfold SimulationResult_new. by destruct (calculate_std_dev_and_cv _ _). }
  destruct (Hr (sim_order s)) as [Ht Ho].
  pose proof Hinv as [Hn Hi [Hnd Hlt] Hcs Hpar _ _ [Hk _] Hord Hrun _ _ Hpast Htime Hnow Hdeps Hser].
  assert (Hid : ∀ i n, nodes g1 !! i = Some n → id_at (nodes g1) i = transaction_id n).
  { intros i n Hni. unfold id_at, node_entry. by rewrite Hni. }
  assert (Hperm : started ≡ₚ seq 0 (length (nodes g1))).
  { apply NoDup_Permutation; [done|apply NoDup_seq|]. intros i. rewrite elem_of_seq. split.
    - intros ?%Hlt. lia.
    - intros Hi'. apply Hcs, Hall. lia. }
  split; rewrite ?Ht, ?Ho.
  - transitivity (id_at (nodes g1) <$> started).
    { apply reflexive_eq. clear -Hord. induction Hord as [|i e l l' [Hx _] _ IH]; [done|].
      rewrite !fmap_cons. by rewrite Hx, IH. }
    rewrite Hperm. rewrite (same_shape_fmap transaction_id _ _ (λ _ _, eq_refl) Hsh). apply reflexive_eq.
    apply list_eq. intros i. rewrite !list_lookup_fmap. destruct (nodes g1 !! i) as [n|] eqn:Hni.
    + rewrite lookup_seq_lt by (by eapply lookup_lt_Some). simpl. by rewrite (Hid i n Hni).
    + rewrite lookup_seq_ge by (by apply lookup_ge_None_1). done.
  - intros e [j Hj]%list_elem_of_lookup_1.
    destruct (Forall2_lookup_r _ _ _ _ _ Hord Hj) as (i & Hji & Htx & Hend & Hth).
    pose proof (Hlt i ltac:(by eapply list_elem_of_lookup_2)) as Hil. split; [done|].
    split; [eapply Hpast; [done|done|auto]|].
    destruct (lookup_lt_is_Some_2 (nodes g1) i Hil) as [n Hni].
    destruct (same_shape_lookup _ _ _ _ (same_shape_sym _ _ Hsh) Hni) as [sf Hn0].
    exists (with_suffix n sf). split; [by eapply list_elem_of_lookup_2|].
    split; [rewrite Htx, (Hid i n Hni); done|]. rewrite Hend. unfold gas_at. by rewrite Hni.
  - intros p c np nc He Hp Hc. unfold edge in He. rewrite (same_shape_edges _ _ _ _ Hsh) in He.
    pose proof (links_order _ Hl _ _ He) as Hpc.
    destruct (list_elem_of_lookup_1 started c) as [jc Hjc]; [apply Hcs, Hall; lia|].
    destruct (started_lookup _ _ _ _ _ _ jc c Hinv Hjc) as (ec & Hec & Htxc & _).
    destruct (Hdeps jc c p ec Hjc Hec He) as (jp & ep & Hlt' & Hjp & Hep & Hle).
    destruct (started_lookup _ _ _ _ _ _ jp p Hinv Hjp) as (ep' & Hep' & Htxp & _).
    replace ep' with ep in Htxp by congruence.
    destruct (same_shape_lookup _ _ _ _ Hsh Hp) as [sp Hp1]. destruct (same_shape_lookup _ _ _ _ Hsh Hc) as [sc Hc1].
    exists jp, jc, ep, ec. split; [done|]. split; [done|]. split; [done|].
    split; [by rewrite Htxp, (Hid p _ Hp1)|]. split; [by rewrite Htxc, (Hid c _ Hc1)|done].
  - done.
  - etransitivity; [done|]. rewrite (total_gas_shape _ _ Hsh).
    destruct (set_choose_or_empty completed) as [[i Hic]|Hno%leibniz_equiv].
    + transitivity (gas_done (nodes g1) (completed ∖ {[i]}) + gas_at (nodes g1) i).
      * unfold gas_done. rewrite (union_difference_L {[i]} completed) at 1 by set_solver.
        rewrite set_sum_disj_union, set_sum_singleton by set_solver. lia.
      * apply gas_done_bound; try done; [set_solver|apply Hlt; auto|set_solver].
    + unfold gas_done. rewrite Hno, set_sum_empty. lia.
Qed.

Section simulate.
Context `{!HashOrder N}.

Lemma analyze_frame g r :
  simulation_result g = Some r →
  ∃ r', simulation_result (analyze_key_access_spans g) = Some r' ∧
    execution_order r' = execution_order r ∧ total_time r' = total_time r ∧
    nodes (analyze_key_access_spans g) = nodes g ∧
    id_to_index (analyze_key_access_spans g) = id_to_index g ∧
    head_txns (analyze_key_access_spans g) = head_txns g ∧ tail_txns (analyze_key_access_spans g) = tail_txns g.
Proof.
  intros Hr. unfold analyze_key_access_spans, detect_hot_keys. rewrite Hr. simpl. eexists. split; [done|]. done.
Qed.

(** A simulation that starts from a well-formed graph. *)
Record simulable (g : TransactionGraph) : Prop := {
  sb_wf : graph_wf g;
  sb_gas : total_gas (nodes g) < u64_modulus;
  sb_size : N.of_nat (length (nodes g)) < u32_modulus;
  sb_heap : nodes g = [] → txns_without_parent g = [] }.

(** *** What the simulation leaves alone *)

Definition ends_same (g g' : TransactionGraph) : Prop :=
  head_txns g' = head_txns g ∧ tail_txns g' = tail_txns g.

Lemma ends_same_trans g1 g2 g3 : ends_same g1 g2 → ends_same g2 g3 → ends_same g1 g3.
Proof. unfold ends_same. intros [] []. split; congruence. Qed.

Lemma release_child_ends g c g' : release_child g c = Ok g' → ends_same g g'.
Proof.
  unfold release_child. intros H. apply bind_ok in H as (m & _ & H). case_bool_decide.
  - apply bind_ok in H as (n & _ & H). by injection H as <-.
  - by injection H as <-.
Qed.

Lemma remove_transaction_ends g id g' : remove_transaction_and_update g id = Ok g' → ends_same g g'.
Proof.
  unfold remove_transaction_and_update. destruct (id_to_index g !! id) as [i|]; [|by intros [= <-]].
  intros H. apply bind_ok in H as (n & _ & H).
  eapply (foldM_inv release_child (ends_same g)); [|done|done].
  intros g1 c g2 _ H1 H2%release_child_ends. by eapply ends_same_trans.
Qed.

Lemma assign_thread_ends s b t s' b' :
  assign_thread (s, b) t = Ok (s', b') → ends_same (sim_graph s) (sim_graph s').
Proof.
  unfold assign_thread. intros H. apply bind_ok in H as (th & _ & H).
  destruct (is_idle th); [|by injection H as <- <-].
  unfold pop_txn_without_parent in H. destruct (txns_without_parent (sim_graph s)); [by injection H as <- <-|].
  apply bind_ok in H as (n & _ & H). apply bind_ok in H as (n' & _ & H). by injection H as <- <-.
Qed.

Lemma sim_step_ends s :
  match sim_step s with
  | Ok (inl s') => ends_same (sim_graph s) (sim_graph s')
  | Ok (inr s') => ends_same (sim_graph s) (sim_graph s')
  | _ => True
  end.
Proof.
  unfold sim_step. destruct (foldM assign_thread (s, false) _) as [[s1 b1]| |] eqn:Hf; simpl; [|done|done].
  assert (H1 : ends_same (sim_graph s) (sim_graph s1)).
  { eapply (foldM_inv assign_thread (λ st, ends_same (sim_graph s) (sim_graph st.1)) _ (s, false) (s1, b1)); [|by split|exact Hf].
    intros [s2 b2] t [s3 b3] _ H2 H3%assign_thread_ends. simpl in *. by eapply ends_same_trans. }
  destruct (b1 && _); [done|]. destruct (completion_heap s1) as [|ev h]; [done|].
  destruct (sim_threads s1 !! ec_thread_id ev) as [th|]; simpl; [|done].
  destruct (complete_transaction th) as [th' [id|]]; simpl; [|done].
  destruct (remove_transaction_and_update (sim_graph s1) id) as [g'| |] eqn:Hr; simpl; [|done|done].
  apply remove_transaction_ends in Hr. by eapply ends_same_trans.
Qed.

Lemma sim_loop_ends fuel s s' : loop sim_step fuel s = Ok s' → ends_same (sim_graph s) (sim_graph s').
Proof.
  apply (loop_inv sim_step (λ s1, ends_same (sim_graph s) (sim_graph s1)) (λ s1, ends_same (sim_graph s) (sim_graph s1)));
    [|done].
  intros s1 H1. pose proof (sim_step_ends s1) as H2.
  destruct (sim_step s1) as [[|]| |]; [by eapply ends_same_trans..|done|done].
Qed.

(** Nodes that differ only in suffixes make equally well-formed graphs. *)
Lemma graph_wf_shape g g' :
  same_shape (nodes g) (nodes g') → id_to_index g' = id_to_index g → ends_same g g' →
  graph_wf g → graph_wf g'.
Proof.
  intros Hs Hi [Hh Ht] [H1 H2 H3 H4 H5 H6]. split; rewrite ?Hi, ?Hh, ?Ht; try done.
  - by eapply links_wf_shape.
  - by eapply ids_wf_shape.
  - intros i n Hn. destruct (same_shape_lookup _ _ _ _ (same_shape_sym _ _ Hs) Hn) as [s Hn'].
    apply (H3 i _ Hn').
Qed.

Lemma simulate_spec g k :
  simulable g → (0 < k)%nat →
  ∃ g' r, simulate_parallel_execution g k = Ok g' ∧ simulation_result g' = Some r ∧
    same_shape (nodes g) (nodes g') ∧ id_to_index g' = id_to_index g ∧ ends_same g g' ∧
    graph_wf g' ∧ txns_without_parent g' = [] ∧ valid_schedule g k r.
Proof.
  intros [Hwf Hgas Hsize Hempty] Hk. unfold simulate_parallel_execution.
  set (g0 := with_temp_parents _ _). pose proof (wf_links g Hwf) as Hl.
  destruct (update_longest_suffix_spec g0 Hl Hempty) as (g1 & rs & -> & Hfr & Hsuf & Hnd & Hrs & Hheap).
  cbn [mbind outcome_bind]. pose proof Hfr as (Hsh & Hids & Hh1 & Ht1 & Htp & _).
  change (nodes g0) with (nodes g) in *. change (id_to_index g0) with (id_to_index g) in *.
  pose proof (links_wf_shape _ _ Hsh Hl) as Hl1. pose proof (ids_wf_shape _ _ _ Hsh (wf_ids g Hwf)) as Hi1.
  assert (Hgas1 : total_gas (nodes g1) < u64_modulus) by (by rewrite <-(total_gas_shape _ _ Hsh)).
  pose proof (sim_initial g0 g1 rs k Hl (wf_ids g Hwf) Hgas Hsize eq_refl Hfr Hsuf Hnd Hrs Hheap) as Hinit.
  assert (Hsize1 : N.of_nat (length (nodes g1)) < u32_modulus) by (by rewrite <-(same_shape_length _ _ Hsh)).
  destruct (sim_loop_spec (nodes g1) (id_to_index g) k Hl1 Hi1 Hgas1 Hsize1 _ [] ∅ Hk Hinit eq_refl eq_refl)
    as (s & started & completed & Hloop & Hinv & Hall & Hnil). rewrite Hloop.
  cbn [mbind outcome_bind].
  pose proof (final_schedule g g1 k s started completed Hsh Hl1 Hi1 Hgas1 Hsize1 Hinv Hall) as [H1 H2 H3 H4 H5].
  set (g2 := with_result _ _).
  destruct (analyze_frame g2 _ eq_refl) as (r' & Hr' & Ho & Ht & Hn & Hi & Hh & Htl).
  assert (Hends : ends_same g (analyze_key_access_spans g2)).
  { apply sim_loop_ends in Hloop as [Hlh Hlt]. split; rewrite ?Hh, ?Htl; simpl in *; congruence. }
  assert (Hsn : same_shape (nodes g) (nodes (analyze_key_access_spans g2)))
    by (rewrite Hn; simpl; by rewrite (si_nodes _ _ _ _ _ _ Hinv)).
  assert (Hsi : id_to_index (analyze_key_access_spans g2) = id_to_index g)
    by (rewrite Hi; simpl; by rewrite (si_ids _ _ _ _ _ _ Hinv)).
  exists (analyze_key_access_spans g2), r'. split; [done|]. split; [done|].
  split; [done|]. split; [done|]. split; [done|]. split; [by eapply graph_wf_shape|].
  split; [done|]. split; rewrite ?Ho, ?Ht; done.
Qed.

(** C22: simulating a well-formed graph on [k > 0] threads terminates without a panic
    and yields a valid schedule: every transaction is executed exactly once for exactly
    its gas, no thread runs two transactions at a time, a transaction starts only after
    every transaction it depends on has ended (and comes later in the execution order),
    and everything ends by the reported total time, which is at most the total gas. *)
Theorem simulation_valid g k :
  simulable g → (0 < k)%nat →
  ∃ g' r, simulate_parallel_execution g k = Ok g' ∧ simulation_result g' = Some r ∧
    same_shape (nodes g) (nodes g') ∧ id_to_index g' = id_to_index g ∧ valid_schedule g k r.
Proof.
  intros Hs Hk. destruct (simulate_spec g k Hs Hk) as (g' & r & ? & ? & ? & ? & _ & _ & _ & ?). by exists g', r.
Qed.
End simulate.

(** ** Examples *)

#[local] Existing Instance elements_order.

Lemma total_gas_same l l' : same_nodes l l' → total_gas l = total_gas l'.
Proof.
  revert l'. induction l as [|n l IH]; intros [|n' l'] Hs; try done.
  unfold same_nodes in Hs. rewrite !fmap_cons in Hs. injection Hs as H1 H2 H3 Hg H5 H6 H7 Hl.
  unfold total_gas in *. simpl. rewrite Hg. f_equal. by apply IH.
Qed.

(** Two writers of one key and an independent transaction. *)
Definition sim_block : list TransactionNode :=
  [node_of 0 10 ∅ {[7]}; node_of 1 5 ∅ {[7]}; node_of 2 4 ∅ {[8]}].

Lemma sim_block_simulable : ∃ g, build_graph sim_block = Ok g ∧ simulable g.
Proof.
  assert (Hb : block_nodes sim_block).
  { apply block_nodes_new; [apply (bool_decide_unpack _); vm_compute; done|].
    unfold sim_block. set_solver by eauto 10. }
  destruct (build_graph_built sim_block Hb) as (g & Hg & [Hwf Hn _ _]). exists g. split; [done|].
  pose proof (same_nodes_length _ _ Hn) as Hlen. split; [done|..].
  - rewrite <-(total_gas_same _ _ Hn). vm_compute. done.
  - rewrite <-Hlen. vm_compute. done.
  - intros Hnil. by rewrite Hnil in Hlen.
Qed.

Lemma simulation_valid_witness :
  ∃ g g' r, build_graph sim_block = Ok g ∧ simulable g ∧ (0 < 2)%nat ∧
    simulate_parallel_execution g 2 = Ok g' ∧ simulation_result g' = Some r ∧ valid_schedule g 2 r.
Proof.
  destruct sim_block_simulable as (g & Hg & Hs).
  destruct (simulation_valid g 2 Hs (Nat.lt_0_succ 1)) as (g' & r & H1 & H2 & _ & _ & H3).
  exists g, g', r. repeat (split; [first [exact Hg|exact Hs|exact (Nat.lt_0_succ 1)|exact H1|exact H2]|]). exact H3.
Defined.

Lemma longest_suffix_correct_witness :
  ∃ g g', build_graph sim_block = Ok g ∧ graph_wf g ∧ update_longest_suffix_postorder g = Ok g' ∧ sim_frame g g'.
Proof.
  destruct sim_block_simulable as (g & Hg & [Hwf Hgas _ Hh]).
  destruct (longest_suffix_correct g Hwf Hgas Hh) as (g' & rs & H1 & H2 & _).
  exists g, g'. split; [exact Hg|]. split; [exact Hwf|]. split; [exact H1|exact H2].
Defined.

(** The order, the total time and the thread of every transaction of the example. *)
Example sim_block_order :
  (g ← build_graph sim_block; g ← simulate_parallel_execution g 2;
   Ok (from_option (λ r, (total_time r, execution_order r)) (0, []) (simulation_result g))) =
  Ok (15, [(0%nat, mkTxId 0 0, 0, 10); (1%nat, mkTxId 2 0, 0, 4); (0%nat, mkTxId 1 0, 10, 15)]).
Proof. vm_compute. reflexivity. Qed.

(** Two transactions of different replicas with the same number: the spans of both
    are taken from the keys of the later node, so key 7 has no span although a
    transaction accesses it. *)
Definition replica_block : list TransactionNode :=
  [TransactionNode_new 0 0 1 10 ∅ {[7]}; TransactionNode_new 0 1 1 5 ∅ {[8]}].

(** the access spans look a transaction up by its number alone, which two replicas
    may share: the span of a key that only one of them accesses is missing, and the
    other's key is counted twice. *)
Theorem spans_confuse_replicas :
  ∃ g r, (g ← build_graph replica_block; simulate_parallel_execution g 2) = Ok g ∧
    simulation_result g = Some r ∧ key_access_spans r !! 7 = None ∧
    access_count <$> key_access_spans r !! 8 = Some 2.
Proof.
  destruct (g ← build_graph replica_block; simulate_parallel_execution g 2) as [g| |] eqn:Hg;
    [|by vm_compute in Hg..].
  destruct (simulation_result g) as [r|] eqn:Hr; [|vm_compute in Hg; injection Hg as <-; by vm_compute in Hr].
  exists g, r. split; [done|]. split; [done|]. vm_compute in Hg. injection Hg as <-.
  vm_compute in Hr. injection Hr as <-. split; vm_compute; reflexivity.
Qed.
