(* ===== verification/Integrator.v ===== *)
(** * Reordering and greedy integration of dependency graphs

    Models [construct_graph_pevm_by_sequential] and [reorder_txs_by_dependency_graph] of
    src/pevm/crates/pevm/src/graph_pevm.rs and the whole of
    src/pevm/crates/pevm/src/greedy_integrator.rs. Transactions ([TxEnv]) are an
    abstract type; log output is left out. *)

From Stdlib Require Import SpecFloat.
From S2P Require Import Prelude Graph GraphSim.

Section integrator.
Context {TxEnv : Type} `{!HashOrder N} `{!HashOrder TransactionId}.

(** ** graph_pevm.rs *)

(** The nodes of a sequentially executed block: cumulative gas and access sets per
    transaction, as [execute_revm_sequential_with_access_sets] returns them. *)
Fixpoint nodes_of_receipts (replica : N) (i : N) (previous_cumulative_gas : N)
    (receipts : list (N * gset N * gset N)) : list TransactionNode :=
  match receipts with
  | [] => []
  | (cumulative_gas_used, read_set, write_set) :: rest =>
      TransactionNode_new i replica 1 (u64_sub cumulative_gas_used previous_cumulative_gas)
        read_set write_set
      :: nodes_of_receipts replica (i + 1) cumulative_gas_used rest
  end.

Definition construct_graph (replica : N) (receipts : list (N * gset N * gset N))
    : outcome TransactionGraph :=
  build_graph (nodes_of_receipts replica 0 0 receipts).

(** The node that enters the new graph. *)
Definition reset_node (n : TransactionNode) : TransactionNode :=
  with_suffix (with_links n [] []) (gas_cost n).

Definition reorder_step (txs : list TxEnv) (graph : TransactionGraph)
    (st : list TxEnv * TransactionGraph) (e : nat * TransactionId * N * N)
    : outcome (list TxEnv * TransactionGraph) :=
  let '(reordered_txs, new_graph) := st in
  match id_to_index graph !! ev_tx e with
  | None => Ok st
  | Some index =>
      tx ← expect (txs !! index);
      node ← expect (nodes graph !! index);
      '(new_graph, _) ← add_transaction new_graph (reset_node node);
      Ok (reordered_txs ++ [tx], new_graph)
  end.

Definition reorder_txs_by_dependency_graph (txs : list TxEnv) (graph : TransactionGraph)
    (concurrency_level : nat) : outcome (list TxEnv * TransactionGraph) :=
  graph ← match simulation_result graph with
          | None => simulate_parallel_execution graph concurrency_level
          | Some _ => Ok graph
          end;
  match simulation_result graph with
  | Some r => foldM (reorder_step txs graph) ([], TransactionGraph_new) (execution_order r)
  | None => Ok ([], TransactionGraph_new)
  end.

(** ** greedy_integrator.rs *)

Record GreedyIntegratorConfig := mkConfig { tau_cv : spec_float; num_threads : nat }.

Record IntegratedGraphWithIndices := mkIntegrated {
  ig_graph : TransactionGraph;
  source_indices : list nat }.

Definition cv_or (default_cv : spec_float) (g : TransactionGraph) : spec_float :=
  match simulation_result g with Some r => coefficient_of_variation r | None => default_cv end.

Definition mu (g : TransactionGraph) : spec_float :=
  match simulation_result g with Some r => f64_of_u64 (sum_completion_times r) | None => f64_zero end.

Definition decent_graph (self : GreedyIntegratorConfig) (g : TransactionGraph) : bool :=
  f64_le (cv_or f64_infinity g) (tau_cv self).

(** The weighted average of the coefficients of variation. *)
Definition cv_base (graphs : list TransactionGraph) : spec_float :=
  let sum_mu := f64_sum (mu <$> graphs) in
  let n := N.of_nat (length graphs) in
  f64_sum ((λ g, let w_i := if f64_gt sum_mu f64_zero then f64_div (mu g) sum_mu
                            else f64_div (f64_of_u64 1) (f64_of_u64 n) in
                 f64_mul w_i (cv_or f64_zero g)) <$> graphs).

Definition decent_integration (self : GreedyIntegratorConfig) (graph_a graph_b : TransactionGraph)
    (integrated_graphs : list TransactionGraph) : outcome (option TransactionGraph) :=
  '(test_graph, res) ← integrate_graph graph_a graph_b;
  match res with
  | inl _ => Ok None
  | inr _ =>
      test_graph ← simulate_parallel_execution test_graph (num_threads self);
      let cv_g := cv_or f64_infinity test_graph in
      Ok (if f64_le cv_g (cv_base (integrated_graphs ++ [graph_b])) then Some test_graph else None)
  end.

(** The state of the inner loop: the merged graph, its sources, the accepted
    positions of [l] and the accepted graphs. *)
Record MergeState := mkMerge {
  ms_g : TransactionGraph;
  ms_sources : list nat;
  ms_positions : gset nat;
  ms_graphs : list TransactionGraph }.

(** The inner [while i > 0]: [i] positions are left. *)
Fixpoint merge_loop (self : GreedyIntegratorConfig) (l : list (nat * TransactionGraph)) (i : nat)
    (st : MergeState) : outcome MergeState :=
  match i with
  | O => Ok st
  | S i =>
      if decent_graph self (ms_g st) then Ok st
      else
        '(idx, graph_i) ← expect (l !! i);
        if has_common_hot_keys (ms_g st) graph_i then merge_loop self l i st
        else
          maybe_integrated ← decent_integration self (ms_g st) graph_i (ms_graphs st);
          match maybe_integrated with
          | None => merge_loop self l i st
          | Some g =>
              let st := mkMerge g (ms_sources st ++ [idx]) ({[i]} ∪ ms_positions st)
                          (ms_graphs st ++ [graph_i]) in
              if bool_decide (10 < length (ms_sources st))%nat then Ok st else merge_loop self l i st
          end
  end.

(** [l.remove(pos)] for every accepted position, from the last to the first. *)
Definition remove_positions {A} (l : list A) (positions : gset nat) : list A :=
  foldl (λ l pos, delete pos l) l (reverse (merge_sort Nat.le (elements positions))).

(** One iteration of [while !l.is_empty()]. *)
Definition integration_step (self : GreedyIntegratorConfig)
    (st : list (nat * TransactionGraph) * list IntegratedGraphWithIndices)
    : outcome (list (nat * TransactionGraph) * list IntegratedGraphWithIndices
               + list IntegratedGraphWithIndices) :=
  let '(l, output) := st in
  match l with
  | [] => Ok (inr output)
  | (first_idx, first_graph) :: l =>
      m ← merge_loop self l (length l) (mkMerge first_graph [first_idx] ∅ [first_graph]);
      Ok (inl (remove_positions l (ms_positions m),
               output ++ [mkIntegrated (ms_g m) (ms_sources m)]))
  end.

(** [sort_by] descending coefficient of variation; stable, incomparable values are equal. *)
Definition cv_before (a b : nat * TransactionGraph) : bool :=
  negb (SFltb (cv_or f64_zero a.2) (cv_or f64_zero b.2)).

Definition sort_by_cv (l : list (nat * TransactionGraph)) : list (nat * TransactionGraph) :=
  foldr (heap_push cv_before) [] l.

Definition simulate_if_needed (self : GreedyIntegratorConfig) (g : TransactionGraph)
    : outcome TransactionGraph :=
  match simulation_result g with
  | None => simulate_parallel_execution g (num_threads self)
  | Some _ => Ok g
  end.

Fixpoint simulate_all (self : GreedyIntegratorConfig) (i : nat) (graphs : list TransactionGraph)
    : outcome (list (nat * TransactionGraph)) :=
  match graphs with
  | [] => Ok []
  | g :: rest =>
      g ← simulate_if_needed self g;
      l ← simulate_all self (S i) rest;
      Ok ((i, g) :: l)
  end.

(** Every iteration of the outer loop removes at least one graph. *)
Definition greedy_decent_integration_with_indices (self : GreedyIntegratorConfig)
    (graphs : list TransactionGraph) : outcome (list IntegratedGraphWithIndices) :=
  indexed_graphs ← simulate_all self 0 graphs;
  loop (integration_step self) (N.of_nat (length graphs) + 1) (sort_by_cv indexed_graphs, []).

Definition greedy_decent_integration (self : GreedyIntegratorConfig) (graphs : list TransactionGraph)
    : outcome (list TransactionGraph) :=
  (λ l : list IntegratedGraphWithIndices, ig_graph <$> l) <$> greedy_decent_integration_with_indices self graphs.

(** The loop over the groups of [integrate_pevm_graphs]. *)
Definition merge_group (self : GreedyIntegratorConfig) (reordered_blocks_txs : list (list TxEnv))
    (st : list (list TxEnv) * list TransactionGraph) (r : IntegratedGraphWithIndices)
    : outcome (list (list TxEnv) * list TransactionGraph) :=
  let '(integrated_txns, integrated_graphs) := st in
  merged_txns ← foldM (λ acc idx, txs ← expect (reordered_blocks_txs !! idx); Ok (acc ++ txs))
                  [] (source_indices r);
  '(final_txns, final_graph) ←
    reorder_txs_by_dependency_graph merged_txns (ig_graph r) (num_threads self);
  Ok (integrated_txns ++ [final_txns], integrated_graphs ++ [final_graph]).

Definition integrate_pevm_graphs (self : GreedyIntegratorConfig)
    (dependency_graphs : list TransactionGraph) (reordered_blocks_txs : list (list TxEnv))
    : outcome (list (list TxEnv) * list TransactionGraph) :=
  integrated_results ← greedy_decent_integration_with_indices self dependency_graphs;
  foldM (merge_group self reordered_blocks_txs) ([], []) integrated_results.

(** ** Picking the elements at a list of positions *)

Definition pick {A} (l : list A) (idxs : list nat) : list A := omap (λ i, l !! i) idxs.

Lemma pick_cons {A} (l : list A) i idxs :
  pick l (i :: idxs) = match l !! i with Some x => x :: pick l idxs | None => pick l idxs end.
Proof. done. Qed.

Lemma pick_in_range {A} (l : list A) idxs :
  (∀ i, i ∈ idxs → (i < length l)%nat) → length (pick l idxs) = length idxs ∧
  ∀ j i, idxs !! j = Some i → pick l idxs !! j = l !! i.
Proof.
  induction idxs as [|i idxs IH]; intros Hr; [done|].
  destruct (lookup_lt_is_Some_2 l i) as [x Hx]; [apply Hr; left|].
  destruct IH as [Hlen Hl]; [intros k Hk; apply Hr; by right|].
  assert (Hcons : pick l (i :: idxs) = x :: pick l idxs) by (by rewrite pick_cons, Hx).
  rewrite Hcons. split; [simpl; by rewrite Hlen|].
  intros [|j] k Hk; simpl in *; [by injection Hk as <-|auto].
Qed.

Lemma pick_seq {A} (l : list A) : pick l (seq 0 (length l)) = l.
Proof.
  destruct (pick_in_range l (seq 0 (length l))) as [Hlen Hl]; [intros i Hi%elem_of_seq; lia|].
  rewrite length_seq in Hlen. apply list_eq. intros j. destruct (decide (j < length l)%nat).
  - apply Hl. by apply lookup_seq_lt.
  - by rewrite !lookup_ge_None_2 by lia.
Qed.

Lemma pick_perm {A} (l : list A) idxs idxs' : idxs ≡ₚ idxs' → pick l idxs ≡ₚ pick l idxs'.
Proof. intros H. unfold pick. by rewrite H. Qed.

Lemma pick_snoc {A} (l : list A) idxs i x : l !! i = Some x → pick l (idxs ++ [i]) = pick l idxs ++ [x].
Proof. intros Hi. unfold pick. rewrite omap_app. simpl. by rewrite Hi. Qed.

Lemma pick_fmap {A B} (f : A → B) (l : list A) idxs : pick (f <$> l) idxs = f <$> pick l idxs.
Proof.
  induction idxs as [|i idxs IH]; [done|]. rewrite !pick_cons, list_lookup_fmap.
  destruct (l !! i); simpl; by rewrite IH.
Qed.

(** ** Reordering *)

(** A graph that carries a valid schedule of its own transactions. *)
Record scheduled (k : nat) (g : TransactionGraph) : Prop := {
  sch_wf : graph_wf g;
  sch_heap : nodes g = [] → txns_without_parent g = [];
  sch_result : ∃ r, simulation_result g = Some r ∧ valid_schedule g k r }.

Lemma valid_schedule_shape g g' k r :
  same_shape (nodes g) (nodes g') → valid_schedule g k r → valid_schedule g' k r.
Proof.
  intros Hs [H1 H2 H3 H4 H5]. split; [| | |done|].
  - by rewrite <-(same_shape_fmap transaction_id _ _ (λ _ _, eq_refl) Hs).
  - intros e He. destruct (H2 e He) as (? & ? & n & [i Hi]%list_elem_of_lookup_1 & ? & ?).
    destruct (same_shape_lookup _ _ _ _ Hs Hi) as [s Hi'].
    split; [done|]. split; [done|]. exists (with_suffix n s). split; [by eapply list_elem_of_lookup_2|done].
  - intros p c np nc He Hp Hc.
    destruct (same_shape_lookup _ _ _ _ (same_shape_sym _ _ Hs) Hp) as [sp Hp'].
    destruct (same_shape_lookup _ _ _ _ (same_shape_sym _ _ Hs) Hc) as [sc Hc'].
    apply (H3 p c (with_suffix np sp) (with_suffix nc sc)); [|done|done].
    unfold edge in *. by rewrite (same_shape_edges _ _ _ _ Hs).
  - by rewrite <-(total_gas_shape _ _ Hs).
Qed.

Lemma simulate_scheduled g k :
  simulable g → (0 < k)%nat →
  ∃ g', simulate_parallel_execution g k = Ok g' ∧ scheduled k g' ∧
    same_shape (nodes g) (nodes g') ∧ id_to_index g' = id_to_index g ∧ ends_same g g'.
Proof.
  intros Hs Hk. destruct (simulate_spec g k Hs Hk) as (g' & r & Hg & Hr & Hsh & Hi & He & Hwf & Hh & Hv).
  exists g'. split; [done|]. split; [|done]. split; [done|done|]. exists r. split; [done|].
  by eapply valid_schedule_shape.
Qed.

(** The execution order as positions of the nodes. *)
Lemma schedule_positions g k r :
  graph_wf g → valid_schedule g k r →
  ∃ idxs, idxs ≡ₚ seq 0 (length (nodes g)) ∧
    Forall2 (λ e i, id_to_index g !! ev_tx e = Some i) (execution_order r) idxs.
Proof.
  intros Hwf [Hperm _ _ _ _].
  set (idx id := default 0%nat (id_to_index g !! id)).
  assert (Hids : ∀ id, id ∈ transaction_id <$> nodes g → ∃ i n, nodes g !! i = Some n ∧
            transaction_id n = id ∧ id_to_index g !! id = Some i).
  { intros id (n & -> & [i Hi]%list_elem_of_lookup_1)%list_elem_of_fmap. exists i, n.
    split; [done|]. split; [done|]. apply (wf_ids g Hwf). by exists n. }
  exists (idx <$> (ev_tx <$> execution_order r)). split.
  - rewrite Hperm. apply reflexive_eq, list_eq. intros i. rewrite !list_lookup_fmap.
    destruct (nodes g !! i) as [n|] eqn:Hn; simpl.
    + rewrite lookup_seq_lt by (by eapply lookup_lt_Some). f_equal. unfold idx.
      replace (id_to_index g !! transaction_id n) with (Some i); [done|].
      symmetry. apply (wf_ids g Hwf). by exists n.
    + rewrite lookup_seq_ge by (by apply lookup_ge_None_1). done.
  - apply Forall2_fmap_r, Forall2_fmap_r, Forall_Forall2_diag, Forall_forall. intros e He.
    destruct (Hids (ev_tx e)) as (i & n & _ & _ & Hi).
    { rewrite <-Hperm. by apply list_elem_of_fmap_2. }
    unfold compose, idx. by rewrite Hi.
Qed.

Lemma reset_block_nodes g idxs :
  graph_wf g → NoDup idxs → block_nodes (reset_node <$> pick (nodes g) idxs).
Proof.
  intros Hwf Hnd. split.
  - rewrite <-list_fmap_compose. change (transaction_id ∘ reset_node) with transaction_id.
    rewrite <-pick_fmap. pose proof (graph_ids_nodup g Hwf) as Hids.
    unfold pick. revert Hnd. induction idxs as [|i idxs IH]; intros Hnd; simpl; [constructor|].
    apply NoDup_cons in Hnd as [Hi Hnd]. destruct ((transaction_id <$> nodes g) !! i) as [id|] eqn:Hid; [|auto].
    apply NoDup_cons. split; [|auto]. intros (j & Hj & Hjid)%list_elem_of_omap.
    assert (i = j) as -> by (eapply NoDup_lookup; [exact Hids|exact Hid|exact Hjid]). done.
  - intros i n Hn. rewrite list_lookup_fmap in Hn. destruct (pick (nodes g) idxs !! i); [|done].
    by injection Hn as <-.
  - intros i n Hn. rewrite list_lookup_fmap in Hn. destruct (pick (nodes g) idxs !! i) as [m|] eqn:Hm; [|done].
    injection Hn as <-. apply list_elem_of_lookup_2 in Hm. unfold pick in Hm.
    apply list_elem_of_omap in Hm as (j & _ & Hj). apply (wf_keys g Hwf j m Hj).
Qed.

Lemma block_nodes_prefix l1 l2 : block_nodes (l1 ++ l2) → block_nodes l1.
Proof.
  induction l2 as [|n l2 IH] using rev_ind; [by rewrite app_nil_r|].
  rewrite app_assoc. intros [H _]%block_nodes_snoc. auto.
Qed.

Lemma reorder_loop_spec txs g : ∀ order idxs done ng,
  graph_wf g → length txs = length (nodes g) →
  Forall2 (λ e i, id_to_index g !! ev_tx e = Some i) order idxs → NoDup (done ++ idxs) →
  built (reset_node <$> pick (nodes g) done) ng →
  ∃ ng', foldM (reorder_step txs g) (pick txs done, ng) order = Ok (pick txs (done ++ idxs), ng') ∧
    built (reset_node <$> pick (nodes g) (done ++ idxs)) ng'.
Proof.
  induction order as [|e order IH]; intros idxs done ng Hwf Hlen Hall Hnd Hb; cbn [foldM].
  { apply Forall2_nil_inv_l in Hall as ->. rewrite app_nil_r. by exists ng. }
  apply Forall2_cons_inv_l in Hall as (i & idxs' & Hi & Hall & ->).
  destruct (proj1 (wf_ids g Hwf _ _) Hi) as (n & Hn & _).
  destruct (lookup_lt_is_Some_2 txs i) as [tx Htx]; [rewrite Hlen; by eapply lookup_lt_Some|].
  assert (Hassoc : done ++ i :: idxs' = (done ++ [i]) ++ idxs') by (by rewrite <-app_assoc).
  rewrite Hassoc in *.
  destruct (build_graph_snoc (reset_node <$> pick (nodes g) done) (reset_node n) ng Hb) as (ng1 & Hadd & Hb1).
  { pose proof (reset_block_nodes g (done ++ [i]) Hwf) as Hbn. rewrite (pick_snoc _ _ _ _ Hn), fmap_app in Hbn.
    apply Hbn. by apply NoDup_app in Hnd as [? _]. }
  unfold reorder_step at 2. cbv beta iota. rewrite Hi, Htx, Hn. cbn [expect mbind outcome_bind].
  rewrite Hadd. cbn [mbind outcome_bind]. rewrite <-(pick_snoc _ _ _ _ Htx).
  apply IH; [done|done|done|done|]. rewrite (pick_snoc _ _ _ _ Hn), fmap_app. done.
Qed.

Lemma reorder_spec txs g k :
  scheduled k g → length txs = length (nodes g) →
  ∃ idxs reordered ng, reorder_txs_by_dependency_graph txs g k = Ok (reordered, ng) ∧
    idxs ≡ₚ seq 0 (length (nodes g)) ∧ reordered = pick txs idxs ∧
    built (reset_node <$> pick (nodes g) idxs) ng ∧
    (∀ p c, edge g p c → ∃ jp jc, (jp < jc)%nat ∧ idxs !! jp = Some p ∧ idxs !! jc = Some c).
Proof.
  intros [Hwf _ (r & Hr & Hv)] Hlen. unfold reorder_txs_by_dependency_graph. rewrite Hr. cbn [mbind outcome_bind].
  rewrite Hr. destruct (schedule_positions g k r Hwf Hv) as (idxs & Hperm & Hall).
  destruct (reorder_loop_spec txs g (execution_order r) idxs [] TransactionGraph_new Hwf Hlen Hall) as (ng & Heq & Hb).
  { simpl. rewrite Hperm. apply NoDup_seq. }
  { destruct (build_graph_built []) as (g0 & Hg0 & Hb0); [split; [constructor|done..]|].
    by injection Hg0 as <-. }
  exists idxs, (pick txs idxs), ng. split; [done|]. split; [done|]. split; [done|]. split; [done|].
  intros p c He. pose proof (links_order _ (wf_links g Hwf) _ _ He) as Hpc.
  destruct (lookup_lt_is_Some_2 (nodes g) p) as [np Hp]; [lia|].
  destruct (lookup_lt_is_Some_2 (nodes g) c) as [nc Hc]; [lia|].
  destruct (vs_deps _ _ _ Hv p c np nc He Hp Hc) as (jp & jc & ep & ec & Hlt & Hjp & Hjc & Hidp & Hidc & _).
  exists jp, jc. split; [done|].
  destruct (Forall2_lookup_l _ _ _ _ _ Hall Hjp) as (ip & Hip & Hp').
  destruct (Forall2_lookup_l _ _ _ _ _ Hall Hjc) as (ic & Hic & Hc').
  assert (id_to_index g !! transaction_id np = Some p) by (apply (wf_ids g Hwf); by exists np).
  assert (id_to_index g !! transaction_id nc = Some c) by (apply (wf_ids g Hwf); by exists nc).
  split; congruence.
Qed.

(** C26: reordering a block by its simulated schedule keeps every transaction exactly
    once, puts every transaction after all those it depends on, and returns the graph
    built from the transactions in the new order, with exactly the conflict edges of
    that order. *)
Theorem reorder_topological txs g k :
  simulable g → simulation_result g = None → (0 < k)%nat → length txs = length (nodes g) →
  ∃ idxs reordered ng, reorder_txs_by_dependency_graph txs g k = Ok (reordered, ng) ∧
    idxs ≡ₚ seq 0 (length (nodes g)) ∧ reordered = pick txs idxs ∧ reordered ≡ₚ txs ∧
    (∀ p c, edge g p c → ∃ jp jc, (jp < jc)%nat ∧ idxs !! jp = Some p ∧ idxs !! jc = Some c) ∧
    graph_wf ng ∧ (∀ i j, edge ng i j ↔ conflict_edge (reset_node <$> pick (nodes g) idxs) i j).
Proof.
  intros Hs Hnone Hk Hlen. destruct (simulate_scheduled g k Hs Hk) as (g' & Hg' & Hsch & Hsh & _).
  pose proof (sch_result k g' Hsch) as (r & Hr & _).
  assert (Hpick : ∀ idxs, reset_node <$> pick (nodes g') idxs = reset_node <$> pick (nodes g) idxs).
  { intros idxs. rewrite <-!pick_fmap. f_equal. symmetry. by apply same_shape_fmap. }
  destruct (reorder_spec txs g' k Hsch) as (idxs & reordered & ng & Heq & Hperm & Hpk & Hb & Htopo);
    [by rewrite <-(same_shape_length _ _ Hsh)|].
  rewrite <-(same_shape_length _ _ Hsh) in Hperm. rewrite Hpick in Hb.
  exists idxs, reordered, ng. split.
  { rewrite <-Heq. unfold reorder_txs_by_dependency_graph. rewrite Hnone, Hg', Hr. simpl. by rewrite Hr. }
  split; [done|]. split; [done|]. split; [rewrite Hpk, (pick_perm _ _ _ Hperm), <-Hlen, pick_seq; done|].
  split; [|split; [apply Hb|apply Hb]].
  intros p c He. apply Htopo. unfold edge in *. by rewrite <-(same_shape_edges _ _ _ _ Hsh).
Qed.

(** ** Greedy integration *)

Lemma integrate_graph_heap g other g' r :
  integrate_graph g other = Ok (g', r) → txns_without_parent g' = txns_without_parent g.
Proof.
  unfold integrate_graph. intros H. apply bind_ok in H as (g1 & H1 & H).
  apply bind_ok in H as ([[g2 cnt] err] & H2 & H). injection H as <- _.
  assert (Hadd : ∀ g a b g', add_edge g a b = Ok (inr g') → txns_without_parent g' = txns_without_parent g).
  { clear. intros g a b g'. unfold add_edge. destruct (id_to_index g !! a) as [i|]; [|done].
    destruct (id_to_index g !! b) as [j|]; [|done]. intros H. apply bind_ok in H as (n & _ & H).
    case_bool_decide; [by injection H as <-|]. apply bind_ok in H as (m & _ & H). by injection H as <-. }
  assert (Htail : ∀ o g a, txns_without_parent (take_tail o g a) = txns_without_parent g)
    by (intros o g' a; unfold take_tail; by destruct (tail_txns o !! a)).
  assert (H12 : txns_without_parent g2 = txns_without_parent g1).
  { eapply (foldM_inv (connect_address other) (λ st, txns_without_parent st.1.1 = txns_without_parent g1)
              _ (g1, 0%nat, None) (g2, cnt, err)); [|done|exact H2].
    intros [[ga ca] ea] x [[gb cb] eb] _ Ha Hc. simpl in *. unfold connect_address in Hc.
    destruct ea; [by injection Hc as <- <- <-|].
    destruct (tail_txns ga !! x), (head_txns other !! x); try (injection Hc as <- <- <-; by rewrite ?Htail).
    apply bind_ok in Hc as (p & _ & Hc). destruct p as [|[]]; try (injection Hc as <- <- <-; by rewrite Htail).
    apply bind_ok in Hc as ([e|gc] & Hc1 & Hc); injection Hc as <- <- <-; [done|].
    rewrite Htail, (Hadd _ _ _ _ Hc1). done. }
  assert (H01 : txns_without_parent g1 = txns_without_parent (foldl append_node g (nodes other))).
  { eapply (foldM_inv (remap_node (length (nodes g)) other)
              (λ g', txns_without_parent g' = txns_without_parent (foldl append_node g (nodes other)))
              _ (foldl append_node g (nodes other)) g1); [|done|exact H1].
    intros ga i gb _ Ha Hr. unfold remap_node in Hr. apply bind_ok in Hr as (a & _ & Hr).
    apply bind_ok in Hr as (b & _ & Hr). by injection Hr as <-. }
  rewrite H12, H01.
  assert (Hfold : ∀ (l : list TransactionNode) g0, txns_without_parent (foldl append_node g0 l) = txns_without_parent g0).
  { clear. induction l as [|n l IH]; intros g0; simpl; [done|]. by rewrite IH. }
  apply Hfold.
Qed.

(** *** Bookkeeping of positions *)

Lemma remove_descending {A} (ps : list nat) : ∀ l : list A,
  StronglySorted (λ a b, b < a)%nat ps → (∀ p, p ∈ ps → (p < length l)%nat) →
  l ≡ₚ pick l ps ++ foldl (λ l pos, delete pos l) l ps.
Proof.
  induction ps as [|p ps IH]; intros l Hs Hr; [done|].
  apply StronglySorted_inv in Hs as [Hs Hp]. rewrite Forall_forall in Hp.
  destruct (lookup_lt_is_Some_2 l p) as [x Hx]; [apply Hr; left|]. rewrite pick_cons, Hx. simpl.
  rewrite (delete_Permutation l p x Hx) at 1. constructor.
  assert (Hpick : pick (delete p l) ps = pick l ps).
  { clear -Hp. induction ps as [|q ps IH]; [done|]. rewrite !pick_cons, list_lookup_delete_lt by (apply Hp; left).
    rewrite IH; [done|]. intros q' Hq'. apply Hp. by right. }
  rewrite <-Hpick. apply IH; [done|]. intros q Hq. rewrite (length_delete l p) by (by exists x).
  specialize (Hp q Hq). pose proof (Hr p ltac:(left)). lia.
Qed.

Lemma sorted_reverse (ps : list nat) :
  StronglySorted Nat.le ps → NoDup ps → StronglySorted (λ a b, b < a)%nat (reverse ps).
Proof.
  induction ps as [|p ps IH]; intros Hs Hnd; [constructor|].
  apply StronglySorted_inv in Hs as [Hs Hp]. apply NoDup_cons in Hnd as [Hnp Hnd].
  rewrite reverse_cons. rewrite Forall_forall in Hp.
  assert (Hsnoc : ∀ l, StronglySorted (λ a b, b < a)%nat l → (∀ q, q ∈ l → (p < q)%nat) →
                       StronglySorted (λ a b, b < a)%nat (l ++ [p])).
  { clear. induction l as [|q l IH]; intros Hl Hq; simpl; [repeat constructor|].
    apply StronglySorted_inv in Hl as [Hl Hall]. constructor; [apply IH; [done|]; intros; apply Hq; by right|].
    rewrite Forall_app. split; [done|]. repeat constructor. apply Hq. left. }
  apply Hsnoc; [auto|]. intros q Hq. rewrite elem_of_reverse in Hq. specialize (Hp q Hq).
  destruct (decide (p = q)) as [->|]; [done|]. lia.
Qed.

Lemma remove_positions_perm {A} (l : list A) (P : gset nat) :
  (∀ p, p ∈ P → (p < length l)%nat) → l ≡ₚ pick l (elements P) ++ remove_positions l P.
Proof.
  intros HP. unfold remove_positions. set (ps := reverse (merge_sort Nat.le (elements P))).
  assert (Hps : ps ≡ₚ elements P) by (unfold ps; by rewrite reverse_Permutation, merge_sort_Permutation).
  rewrite (pick_perm l (elements P) ps) by done. apply remove_descending.
  - apply sorted_reverse; [apply (StronglySorted_merge_sort Nat.le)|].
    rewrite merge_sort_Permutation. apply NoDup_elements.
  - intros p. rewrite Hps, elem_of_elements. apply HP.
Qed.

(** *** Families of graphs *)

Definition node_key (n : TransactionNode) : TransactionId * N := (transaction_id n, gas_cost n).

Definition keys_of (graphs : list TransactionGraph) (i : nat) : list (TransactionId * N) :=
  match graphs !! i with Some g => node_key <$> nodes g | None => [] end.

Definition group_keys (graphs : list TransactionGraph) (idxs : list nat) : list (TransactionId * N) :=
  mjoin (keys_of graphs <$> idxs).

(** Blocks that can be integrated: every graph is well formed and either unsimulated
    or carries a valid schedule, no two transactions share an identifier, and the gas
    and the number of all transactions together fit their machine types. *)
Record family (k : nat) (graphs : list TransactionGraph) : Prop := {
  fam_graphs : ∀ i g, graphs !! i = Some g → simulable g ∧
    (simulation_result g = None ∨ scheduled k g);
  fam_ids : NoDup (fst <$> group_keys graphs (seq 0 (length graphs)));
  fam_gas : list_sum snd (group_keys graphs (seq 0 (length graphs))) < u64_modulus;
  fam_size : N.of_nat (length (group_keys graphs (seq 0 (length graphs)))) < u32_modulus }.

Lemma group_keys_app graphs l1 l2 : group_keys graphs (l1 ++ l2) = group_keys graphs l1 ++ group_keys graphs l2.
Proof. unfold group_keys. by rewrite fmap_app, join_app. Qed.

Lemma group_keys_perm graphs l1 l2 : l1 ≡ₚ l2 → group_keys graphs l1 ≡ₚ group_keys graphs l2.
Proof. intros H. unfold group_keys. by rewrite H. Qed.

Lemma total_gas_keys ns : total_gas ns = list_sum snd (node_key <$> ns).
Proof. unfold total_gas. induction ns as [|n ns IH]; simpl; [done|]. by rewrite IH. Qed.

(** The merge of the graphs at [idxs], in that order. *)
Record merged (k : nat) (graphs : list TransactionGraph) (idxs : list nat) (g : TransactionGraph) : Prop := {
  mg_sched : scheduled k g;
  mg_keys : node_key <$> nodes g = group_keys graphs idxs }.

Section family.
Context (k : nat) (graphs : list TransactionGraph) (Hk : (0 < k)%nat) (Hfam : family k graphs).

Lemma group_split idxs :
  NoDup idxs → (∀ i, i ∈ idxs → (i < length graphs)%nat) →
  ∃ rest, group_keys graphs (seq 0 (length graphs)) ≡ₚ group_keys graphs idxs ++ group_keys graphs rest.
Proof.
  intros Hnd Hr. destruct (submseteq_Permutation idxs (seq 0 (length graphs))) as [rest Hrest].
  { apply NoDup_submseteq; [done|]. intros i Hi%Hr. apply elem_of_seq. lia. }
  exists rest. rewrite (group_keys_perm _ _ _ Hrest). by rewrite group_keys_app.
Qed.

Lemma group_bounds idxs ns :
  NoDup idxs → (∀ i, i ∈ idxs → (i < length graphs)%nat) → node_key <$> ns = group_keys graphs idxs →
  NoDup (transaction_id <$> ns) ∧ total_gas ns < u64_modulus ∧ N.of_nat (length ns) < u32_modulus.
Proof.
  intros Hnd Hr Hns. destruct (group_split idxs Hnd Hr) as [rest Hrest].
  pose proof (fam_ids _ _ Hfam) as H1. pose proof (fam_gas _ _ Hfam) as H2. pose proof (fam_size _ _ Hfam) as H3.
  rewrite Hrest in H1, H3. rewrite (list_sum_perm _ _ _ Hrest), list_sum_app in H2.
  rewrite fmap_app in H1. apply NoDup_app in H1 as [H1 _]. rewrite length_app in H3.
  rewrite <-Hns in *. rewrite length_fmap in H3. rewrite total_gas_keys.
  rewrite <-list_fmap_compose in H1. split; [exact H1|]. split; lia.
Qed.

Lemma node_key_same l l' : same_nodes l l' → node_key <$> l = node_key <$> l'.
Proof.
  revert l'. induction l as [|n l IH]; intros [|n' l'] Hs; try done.
  unfold same_nodes in Hs. rewrite !fmap_cons in Hs. injection Hs as H1 H2 H3 Hg H5 H6 H7 Hl.
  rewrite !fmap_cons. f_equal; [|by apply IH]. unfold node_key, transaction_id. congruence.
Qed.

Lemma disjoint_ids idxs a b j :
  NoDup (idxs ++ [j]) → (∀ i, i ∈ idxs ++ [j] → (i < length graphs)%nat) →
  merged k graphs idxs a → merged k graphs [j] b → id_to_index a ##ₘ id_to_index b.
Proof.
  intros Hnd Hr [Ha Hka] [Hb Hkb].
  destruct (group_bounds (idxs ++ [j]) (nodes a ++ nodes b) Hnd Hr) as [Hids _].
  { rewrite fmap_app, Hka, Hkb. by rewrite group_keys_app. }
  rewrite fmap_app in Hids. apply NoDup_app in Hids as (_ & Hdis & _).
  apply map_disjoint_spec. intros id x y Hx Hy.
  apply (wf_ids a (sch_wf _ _ Ha)) in Hx as (n & Hn%list_elem_of_lookup_2 & Hid).
  apply (wf_ids b (sch_wf _ _ Hb)) in Hy as (m & Hm%list_elem_of_lookup_2 & Hid').
  apply (Hdis id); [rewrite <-Hid|rewrite <-Hid']; by apply list_elem_of_fmap_2.
Qed.

Lemma decent_integration_spec self idxs a b j igs :
  num_threads self = k → NoDup (idxs ++ [j]) → (∀ i, i ∈ idxs ++ [j] → (i < length graphs)%nat) →
  merged k graphs idxs a → merged k graphs [j] b →
  ∃ res, decent_integration self a b igs = Ok res ∧
    ∀ g, res = Some g → merged k graphs (idxs ++ [j]) g.
Proof.
  intros Hself Hnd Hr Ha Hb. pose proof (disjoint_ids idxs a b j Hnd Hr Ha Hb) as Hdis.
  destruct Ha as [Hsa Hka], Hb as [Hsb Hkb]. unfold decent_integration.
  destruct (integrate_graph_spec a b (sch_wf _ _ Hsa) (sch_wf _ _ Hsb) Hdis)
    as (g1 & added & Hint & Hwf1 & Hn1 & _).
  rewrite Hint. cbn [mbind outcome_bind].
  assert (Hk1 : node_key <$> nodes g1 = group_keys graphs (idxs ++ [j])).
  { rewrite <-(node_key_same _ _ Hn1), fmap_app, Hka, Hkb. by rewrite group_keys_app. }
  destruct (group_bounds (idxs ++ [j]) (nodes g1) Hnd Hr Hk1) as (_ & Hgas & Hsize).
  assert (Hsim : simulable g1).
  { split; [done|done|done|]. intros Hnil. rewrite (integrate_graph_heap _ _ _ _ Hint). apply (sch_heap _ _ Hsa).
    pose proof (same_nodes_length _ _ Hn1) as Hlen. rewrite Hnil, length_app in Hlen. simpl in Hlen.
    apply length_zero_iff_nil. lia. }
  destruct (simulate_scheduled g1 k Hsim Hk) as (g2 & Hg2 & Hsch & Hsh & _). rewrite Hself, Hg2.
  cbn [mbind outcome_bind]. eexists. split; [done|]. intros g Hg. destruct (f64_le _ _); [|done].
  injection Hg as <-. split; [done|]. rewrite <-Hk1. symmetry. by apply same_shape_fmap.
Qed.

(** *** The inner loop *)

(** [l] holds single graphs that are not yet part of the group of [first]. *)
Record candidates (first : nat) (l : list (nat * TransactionGraph)) : Prop := {
  cd_nodup : NoDup (first :: (fst <$> l));
  cd_range : ∀ i, i ∈ first :: (fst <$> l) → (i < length graphs)%nat;
  cd_merged : ∀ idx g, (idx, g) ∈ l → merged k graphs [idx] g }.

Record merge_inv (first : nat) (l : list (nat * TransactionGraph)) (i : nat) (st : MergeState) : Prop := {
  mi_merged : merged k graphs (ms_sources st) (ms_g st);
  mi_positions : ∀ p, p ∈ ms_positions st → (i ≤ p < length l)%nat;
  mi_sources : ms_sources st ≡ₚ first :: (pick (fst <$> l) (elements (ms_positions st)));
  mi_size : (1 ≤ length (ms_sources st) ≤ 11)%nat }.

Lemma merge_loop_spec self first l : ∀ i st,
  num_threads self = k → candidates first l → (i ≤ length l)%nat →
  merge_inv first l i st → (length (ms_sources st) ≤ 10)%nat →
  ∃ st', merge_loop self l i st = Ok st' ∧ merge_inv first l 0 st'.
Proof.
  induction i as [|i IH]; intros st Hself Hc Hi Hinv Hshort; cbn [merge_loop]; [by exists st|].
  pose proof Hinv as [Hm Hp Hs Hz].
  assert (Hweak : ∀ i', (i' ≤ S i)%nat → merge_inv first l i' st).
  { intros i' Hi'. split; [done| |done|done]. intros p ?%Hp. lia. }
  destruct (decent_graph self (ms_g st)); [exists st; split; [done|by apply Hweak; lia]|].
  destruct (lookup_lt_is_Some_2 l i) as [[idx g] Hl]; [lia|]. rewrite Hl. cbn [expect mbind outcome_bind].
  destruct (has_common_hot_keys (ms_g st) g); [apply IH; [done|done|lia|apply Hweak; lia|done]|].
  assert (Hfst : (fst <$> l) !! i = Some idx) by (by rewrite list_lookup_fmap, Hl).
  assert (Hnew : ms_sources st ++ [idx] ≡ₚ first :: pick (fst <$> l) (elements ({[i]} ∪ ms_positions st))).
  { rewrite Hs. simpl. constructor. rewrite (pick_perm _ (elements ({[i]} ∪ ms_positions st)) (i :: elements (ms_positions st))).
    - rewrite pick_cons, Hfst. by rewrite <-Permutation_cons_append.
    - rewrite elements_disj_union, elements_singleton; [done|]. intros p ->%elem_of_singleton Hip%Hp. lia. }
  assert (Hnd : NoDup (ms_sources st ++ [idx])).
  { rewrite Hnew. destruct (proj1 (NoDup_cons _ _) (cd_nodup first l Hc)) as [Hfirst Hnl]. apply NoDup_cons. split.
    - intros Hin. unfold pick in Hin. apply list_elem_of_omap in Hin as (p & _ & Hpp).
      by apply list_elem_of_lookup_2 in Hpp.
    - pose proof (NoDup_elements ({[i]} ∪ ms_positions st)) as Hel. revert Hel.
      generalize (elements ({[i]} ∪ ms_positions st)). intros ps. induction ps as [|p ps IHp]; [constructor|].
      intros [Hp1 Hp2]%NoDup_cons. rewrite pick_cons. destruct ((fst <$> l) !! p) as [x|] eqn:Hx; [|auto].
      apply NoDup_cons. split; [|auto]. intros Hin. unfold pick in Hin. apply list_elem_of_omap in Hin as (q & Hq & Hxq).
      assert (p = q) as -> by (eapply NoDup_lookup; [exact Hnl|exact Hx|exact Hxq]). done. }
  assert (Hrange : ∀ x, x ∈ ms_sources st ++ [idx] → (x < length graphs)%nat).
  { intros x. rewrite Hnew. intros Hx. apply (cd_range first l Hc). apply elem_of_cons in Hx as [->|Hx]; [left|right].
    unfold pick in Hx. apply list_elem_of_omap in Hx as (p & _ & Hpp). by eapply list_elem_of_lookup_2. }
  destruct (decent_integration_spec self (ms_sources st) (ms_g st) g idx (ms_graphs st)) as (res & -> & Hres);
    [done|done|done|done|eapply (cd_merged first l Hc), list_elem_of_lookup_2; done|].
  cbn [mbind outcome_bind]. destruct res as [g'|]; [|apply IH; [done|done|lia|apply Hweak; lia|done]].
  set (st' := mkMerge _ _ _ _).
  assert (Hinv' : merge_inv first l i st').
  { split; simpl; [by apply Hres| |done|rewrite length_app; simpl; lia].
    intros p [->%elem_of_singleton|Hpp%Hp]%elem_of_union; lia. }
  case_bool_decide as Hbig.
  - exists st'. split; [done|]. destruct Hinv' as [? Hp' ? ?]. split; [done| |done|done]. intros p ?%Hp'. lia.
  - apply IH; [done|done|lia|done|lia].
Qed.

(** *** The outer loop *)

Record greedy_inv (l : list (nat * TransactionGraph)) (output : list IntegratedGraphWithIndices) : Prop := {
  gi_partition : mjoin (source_indices <$> output) ++ (fst <$> l) ≡ₚ seq 0 (length graphs);
  gi_groups : ∀ r, r ∈ output → merged k graphs (source_indices r) (ig_graph r) ∧
    (1 ≤ length (source_indices r) ≤ 11)%nat;
  gi_single : ∀ idx g, (idx, g) ∈ l → merged k graphs [idx] g }.

Lemma integration_step_spec self first g l output :
  num_threads self = k → greedy_inv ((first, g) :: l) output →
  ∃ l' output', integration_step self ((first, g) :: l, output) = Ok (inl (l', output')) ∧
    greedy_inv l' output' ∧ (length l' ≤ length l)%nat.
Proof.
  intros Hself [Hpart Hgroups Hsingle]. unfold integration_step.
  assert (Hnd : NoDup (first :: (fst <$> l))).
  { pose proof (NoDup_seq 0 (length graphs)) as Hs. rewrite <-Hpart in Hs. by apply NoDup_app in Hs as (_ & _ & ?). }
  assert (Hrange : ∀ i, i ∈ first :: (fst <$> l) → (i < length graphs)%nat).
  { intros i Hi. assert (i ∈ seq 0 (length graphs)) as ?%elem_of_seq; [|lia].
    rewrite <-Hpart. apply elem_of_app. by right. }
  assert (Hc : candidates first l) by (split; [done|done|intros idx g' Hin; apply Hsingle; by right]).
  destruct (merge_loop_spec self first l (length l) (mkMerge g [first] ∅ [g]) Hself Hc ltac:(done))
    as (m & -> & [Hm Hp Hs Hz]).
  { split; simpl; [apply Hsingle; left|set_solver|by rewrite elements_empty|lia]. }
  { simpl. lia. }
  cbn [mbind outcome_bind]. eexists _, _. split; [done|].
  pose proof (remove_positions_perm l (ms_positions m) ltac:(intros p Hpp; apply Hp in Hpp; lia)) as Hperm.
  split; [split|].
  - rewrite fmap_app, join_app. simpl. rewrite app_nil_r, <-app_assoc, <-Hpart. apply Permutation_app_head.
    rewrite Hs. simpl. constructor. rewrite Hperm at 3. rewrite fmap_app. apply Permutation_app_tail.
    by rewrite pick_fmap.
  - intros r [Hr| ->%list_elem_of_singleton]%elem_of_app; [by apply Hgroups|done].
  - intros idx g' Hin. apply Hsingle. right. rewrite Hperm. apply elem_of_app. by right.
  - rewrite Hperm at 2. rewrite length_app. lia.
Qed.

Lemma simulate_all_spec self : ∀ rest i,
  num_threads self = k → drop i graphs = rest →
  ∃ l, simulate_all self i rest = Ok l ∧ fst <$> l = seq i (length rest) ∧
    ∀ idx g, (idx, g) ∈ l → merged k graphs [idx] g.
Proof.
  induction rest as [|g rest IH]; intros i Hself Hdrop; cbn [simulate_all].
  { exists []. split; [done|]. split; [done|]. by intros idx g ?%not_elem_of_nil. }
  assert (Hg : graphs !! i = Some g).
  { rewrite <-(Nat.add_0_r i), <-lookup_drop, Hdrop. done. }
  assert (Hrest : drop (S i) graphs = rest).
  { rewrite (drop_S _ _ _ Hg) in Hdrop. by injection Hdrop. }
  destruct (fam_graphs _ _ Hfam i g Hg) as [Hsim Hres].
  assert (Hone : ∃ g', simulate_if_needed self g = Ok g' ∧ scheduled k g' ∧ node_key <$> nodes g' = node_key <$> nodes g).
  { unfold simulate_if_needed. destruct (simulation_result g) eqn:Hr.
    - exists g. destruct Hres as [?|?]; [congruence|done].
    - rewrite Hself. destruct (simulate_scheduled g k Hsim Hk) as (g' & -> & Hsch & Hsh & _).
      exists g'. split; [done|]. split; [done|]. symmetry. by apply same_shape_fmap. }
  destruct Hone as (g' & -> & Hsch & Hkeys). cbn [mbind outcome_bind].
  destruct (IH (S i) Hself Hrest) as (l & -> & Hfst & Hl). cbn [mbind outcome_bind].
  exists ((i, g') :: l). split; [done|]. split; [rewrite fmap_cons, Hfst; done|].
  intros idx g0 [[= -> ->]|Hin]%elem_of_cons; [|by apply Hl]. split; [done|].
  unfold group_keys, keys_of. simpl. rewrite Hg, app_nil_r. done.
Qed.

Lemma sort_by_cv_perm l : sort_by_cv l ≡ₚ l.
Proof. unfold sort_by_cv. induction l as [|x l IH]; simpl; [done|]. by rewrite heap_push_perm, IH. Qed.

Lemma greedy_spec self :
  num_threads self = k →
  ∃ out, greedy_decent_integration_with_indices self graphs = Ok out ∧ greedy_inv [] out.
Proof.
  intros Hself. unfold greedy_decent_integration_with_indices.
  destruct (simulate_all_spec self graphs 0 Hself) as (l & -> & Hfst & Hl); [by rewrite drop_0|].
  cbn [mbind outcome_bind].
  assert (Hlen : length l = length graphs) by (rewrite <-(length_fmap fst l), Hfst; apply length_seq).
  set (Q := λ r, ∃ out, r = Ok out ∧ greedy_inv [] out).
  assert (H : Q (loop (integration_step self) (N.of_nat (length graphs) + 1) (sort_by_cv l, []))); [|done].
  apply (loop_rule (integration_step self) (λ st, greedy_inv st.1 st.2) Q (λ st, N.of_nat (length st.1))).
  - intros [l1 out] Hinv. simpl in Hinv. destruct l1 as [|[first g] l1].
    + simpl. by exists out.
    + destruct (integration_step_spec self first g l1 out Hself Hinv) as (l' & out' & -> & Hinv' & Hle).
      split; [done|]. simpl. lia.
  - simpl. split.
    + simpl. by rewrite sort_by_cv_perm, Hfst.
    + by intros r ?%not_elem_of_nil.
    + intros idx g Hin. apply Hl. by rewrite <-sort_by_cv_perm.
  - simpl. rewrite sort_by_cv_perm. lia.
Qed.
End family.

(** greedy integration of a family of blocks terminates without a panic and
    partitions the input: every block is a source of exactly one group, every group
    merges between one and eleven blocks, and the graph of a group is well formed,
    carries a valid schedule and holds exactly the transactions of its source blocks,
    in the order in which they were integrated. *)
Theorem greedy_partitions_blocks self graphs :
  (0 < num_threads self)%nat → family (num_threads self) graphs →
  ∃ out, greedy_decent_integration_with_indices self graphs = Ok out ∧
    mjoin (source_indices <$> out) ≡ₚ seq 0 (length graphs) ∧
    (∀ r, r ∈ out → (1 ≤ length (source_indices r) ≤ 11)%nat ∧
       scheduled (num_threads self) (ig_graph r) ∧
       node_key <$> nodes (ig_graph r) = group_keys graphs (source_indices r)).
Proof.
  intros Hk Hfam. destruct (greedy_spec _ graphs Hk Hfam self eq_refl) as (out & -> & [Hp Hg _]).
  exists out. split; [done|]. rewrite app_nil_r in Hp. split; [done|].
  intros r Hr. destruct (Hg r Hr) as [[] ?]. done.
Qed.

(** ** The transactions of the integrated blocks *)

Definition txs_match (graphs : list TransactionGraph) (txss : list (list TxEnv)) : Prop :=
  Forall2 (λ g txs, length txs = length (nodes g)) graphs txss.

Lemma collect_txs (txss : list (list TxEnv)) idxs : ∀ acc,
  (∀ i, i ∈ idxs → (i < length txss)%nat) →
  foldM (λ acc idx, txs ← expect (txss !! idx); Ok (acc ++ txs)) acc idxs = Ok (acc ++ mjoin (pick txss idxs)).
Proof.
  induction idxs as [|i idxs IH]; intros acc Hr; cbn [foldM]; [by rewrite app_nil_r|].
  destruct (lookup_lt_is_Some_2 txss i) as [txs Htx]; [apply Hr; left|].
  rewrite Htx. cbn [expect mbind outcome_bind]. rewrite IH by (intros j Hj; apply Hr; by right).
  rewrite pick_cons, Htx. simpl. by rewrite app_assoc.
Qed.

Lemma collect_length graphs txss idxs :
  txs_match graphs txss → (∀ i, i ∈ idxs → (i < length graphs)%nat) →
  length (mjoin (pick txss idxs)) = length (group_keys graphs idxs).
Proof.
  intros Hm. induction idxs as [|i idxs IH]; intros Hr; [done|].
  destruct (lookup_lt_is_Some_2 graphs i) as [g Hg]; [apply Hr; left|].
  destruct (Forall2_lookup_l _ _ _ _ _ Hm Hg) as (txs & Htx & Hlen).
  rewrite pick_cons, Htx. change (i :: idxs) with ([i] ++ idxs). rewrite group_keys_app. simpl.
  rewrite !length_app, IH by (intros j Hj; apply Hr; by right). f_equal.
  unfold group_keys, keys_of. simpl. rewrite Hg, app_nil_r, length_fmap. done.
Qed.

Lemma merge_group_spec self graphs txss st r :
  txs_match graphs txss → (∀ i, i ∈ source_indices r → (i < length graphs)%nat) →
  merged (num_threads self) graphs (source_indices r) (ig_graph r) →
  ∃ final_txns final_graph, merge_group self txss st r = Ok (st.1 ++ [final_txns], st.2 ++ [final_graph]) ∧
    final_txns ≡ₚ mjoin (pick txss (source_indices r)) ∧ graph_wf final_graph ∧
    length (nodes final_graph) = length final_txns.
Proof.
  intros Hm Hr [Hsch Hkeys]. destruct st as [it ig]. unfold merge_group.
  rewrite collect_txs by (rewrite <-(Forall2_length _ _ _ Hm); done). cbn [mbind outcome_bind]. rewrite app_nil_l.
  assert (Hlen : length (mjoin (pick txss (source_indices r))) = length (nodes (ig_graph r))).
  { rewrite (collect_length graphs txss) by done. by rewrite <-Hkeys, length_fmap. }
  destruct (reorder_spec _ (ig_graph r) (num_threads self) Hsch Hlen) as (idxs & re & ng & -> & Hp & -> & Hb & _).
  cbn [mbind outcome_bind]. eexists _, _. split; [done|].
  assert (Hin : ∀ i, i ∈ idxs → (i < length (nodes (ig_graph r)))%nat)
    by (intros i; rewrite Hp, elem_of_seq; lia).
  split; [rewrite (pick_perm _ _ _ Hp), <-Hlen, pick_seq; done|]. split; [apply Hb|].
  rewrite <-(same_nodes_length _ _ (built_nodes _ _ Hb)), length_fmap.
  rewrite (proj1 (pick_in_range _ _ Hin)). symmetry. apply pick_in_range. by rewrite Hlen.
Qed.

Lemma merge_groups_spec self graphs txss out : ∀ st,
  txs_match graphs txss →
  (∀ r, r ∈ out → (∀ i, i ∈ source_indices r → (i < length graphs)%nat) ∧
                  merged (num_threads self) graphs (source_indices r) (ig_graph r)) →
  ∃ res gs, foldM (merge_group self txss) st out = Ok (st.1 ++ res, st.2 ++ gs) ∧
    mjoin res ≡ₚ mjoin (pick txss (mjoin (source_indices <$> out))) ∧
    Forall2 (λ txs g, graph_wf g ∧ length (nodes g) = length txs) res gs.
Proof.
  induction out as [|r out IH]; intros st Hm Hout; cbn [foldM].
  { exists [], []. rewrite !app_nil_r. destruct st. split; [done|]. split; [done|constructor]. }
  destruct (Hout r ltac:(left)) as [Hr Hmg].
  destruct (merge_group_spec self graphs txss st r Hm Hr Hmg) as (ft & fg & -> & Hft & Hfg & Hlen).
  cbn [mbind outcome_bind].
  destruct (IH (st.1 ++ [ft], st.2 ++ [fg]) Hm) as (res & gs & -> & Hres & Hgs);
    [intros r' Hr'; apply Hout; by right|].
  exists (ft :: res), (fg :: gs). simpl. rewrite <-!app_assoc. split; [done|]. split; [|by constructor].
  assert (Hpa : ∀ l1 l2, pick txss (l1 ++ l2) = pick txss l1 ++ pick txss l2) by (intros; apply omap_app).
  rewrite Hpa, join_app. by rewrite Hft, Hres.
Qed.

(** C23: the whole integration keeps every transaction: for a family of blocks with
    one transaction per graph node, the transactions of the integrated blocks are a
    permutation of those of the input blocks, every integrated block comes with a
    well-formed dependency graph of exactly its size, and nothing panics. *)
Theorem integration_keeps_transactions self graphs txss :
  (0 < num_threads self)%nat → family (num_threads self) graphs → txs_match graphs txss →
  ∃ res gs, integrate_pevm_graphs self graphs txss = Ok (res, gs) ∧ mjoin res ≡ₚ mjoin txss ∧
    Forall2 (λ txs g, graph_wf g ∧ length (nodes g) = length txs) res gs.
Proof.
  intros Hk Hfam Hm. destruct (greedy_spec _ graphs Hk Hfam self eq_refl) as (out & Hout & [Hp Hg _]).
  rewrite app_nil_r in Hp.
  unfold integrate_pevm_graphs. rewrite Hout. cbn [mbind outcome_bind].
  destruct (merge_groups_spec self graphs txss out ([], []) Hm) as (res & gs & -> & Hres & Hgs).
  { intros r Hr. split; [|by apply Hg]. intros i Hi.
    assert (i ∈ seq 0 (length graphs)) as ?%elem_of_seq; [|lia]. rewrite <-Hp.
    apply list_elem_of_join. exists (source_indices r). split; [done|]. by apply list_elem_of_fmap_2. }
  exists res, gs. split; [done|]. split; [|done]. rewrite Hres, (pick_perm _ _ _ Hp), (Forall2_length _ _ _ Hm).
  by rewrite pick_seq.
Qed.
End integrator.

(** ** Examples *)

#[local] Existing Instance elements_order.

Definition two_threads : GreedyIntegratorConfig := mkConfig (S754_finite false 4503599627370496 (-53)) 2.

Lemma sample_family : ∃ g1 g2, build_graph first_block = Ok g1 ∧ build_graph second_block = Ok g2 ∧
  family 2 [g1; g2] ∧ simulable g1 ∧ simulation_result g1 = None ∧ length (nodes g1) = 1%nat ∧
  length (nodes g2) = 1%nat.
Proof.
  destruct (build_graph first_block) as [g1| |] eqn:H1; [|by vm_compute in H1..].
  destruct (build_graph second_block) as [g2| |] eqn:H2; [|by vm_compute in H2..].
  destruct sample_graphs as (g1' & g2' & H1' & H2' & Hw1 & Hw2 & _).
  rewrite H1 in H1'. rewrite H2 in H2'. injection H1' as <-. injection H2' as <-.
  assert (Hsim : simulable g1 ∧ simulation_result g1 = None ∧ length (nodes g1) = 1%nat)
    by (vm_compute in H1; injection H1 as <-; split; [split; [done|done|done|done]|done]).
  assert (Hsim2 : simulable g2 ∧ simulation_result g2 = None ∧ length (nodes g2) = 1%nat)
    by (vm_compute in H2; injection H2 as <-; split; [split; [done|done|done|done]|done]).
  exists g1, g2. split; [done|]. split; [done|]. split; [|naive_solver].
  split.
  - intros [|[|i]] g Hg; simpl in Hg; [| |by rewrite lookup_nil in Hg]; injection Hg as <-; naive_solver.
  - vm_compute in H1, H2. injection H1 as <-. injection H2 as <-. apply (bool_decide_unpack _). vm_compute. done.
  - vm_compute in H1, H2. injection H1 as <-. injection H2 as <-. vm_compute. done.
  - vm_compute in H1, H2. injection H1 as <-. injection H2 as <-. vm_compute. done.
Qed.

Lemma reorder_topological_witness :
  ∃ g reordered ng, build_graph first_block = Ok g ∧
    reorder_txs_by_dependency_graph [42] g 2 = Ok (reordered, ng) ∧ reordered ≡ₚ [42].
Proof.
  destruct sample_family as (g1 & g2 & H1 & _ & _ & Hs & Hn & Hl & _).
  destruct (reorder_topological [42] g1 2 Hs Hn (Nat.lt_0_succ 1) (eq_sym Hl))
    as (idxs & re & ng & Heq & _ & _ & Hp & _).
  exists g1, re, ng. split; [exact H1|]. split; [exact Heq|exact Hp].
Defined.

Lemma greedy_partitions_blocks_witness :
  ∃ g1 g2 out, build_graph first_block = Ok g1 ∧ build_graph second_block = Ok g2 ∧
    greedy_decent_integration_with_indices two_threads [g1; g2] = Ok out ∧
    mjoin (source_indices <$> out) ≡ₚ [0%nat; 1%nat].
Proof.
  destruct sample_family as (g1 & g2 & H1 & H2 & Hf & _).
  destruct (greedy_partitions_blocks two_threads [g1; g2] (Nat.lt_0_succ 1) Hf) as (out & Heq & Hp & _).
  exists g1, g2, out. split; [exact H1|]. split; [exact H2|]. split; [exact Heq|exact Hp].
Defined.

Lemma integration_keeps_transactions_witness :
  ∃ g1 g2 res gs, build_graph first_block = Ok g1 ∧ build_graph second_block = Ok g2 ∧
    integrate_pevm_graphs two_threads [g1; g2] [[42]; [43]] = Ok (res, gs) ∧
    mjoin res ≡ₚ [42; 43].
Proof.
  destruct sample_family as (g1 & g2 & H1 & H2 & Hf & _ & _ & Hl1 & Hl2).
  assert (Hm : txs_match [g1; g2] [[42]; [43]])
    by (constructor; [exact (eq_sym Hl1)|]; constructor; [exact (eq_sym Hl2)|constructor]).
  destruct (integration_keeps_transactions two_threads [g1; g2] [[42]; [43]] (Nat.lt_0_succ 1) Hf Hm)
    as (res & gs & Heq & Hp & _).
  exists g1, g2, res, gs. split; [exact H1|]. split; [exact H2|]. split; [exact Heq|exact Hp].
Defined.
