(* ===== verification/Concurrent.v ===== *)
(** * Programs over shared memory

    The parallel executors of src/pevm run the same code on several threads over
    atomics and mutexes. Such code is a [prog]: a tree of atomic actions on the shared
    state. An action is one atomic load, store or read-modify-write, or one critical
    section that touches a single object besides the state its lock protects. It
    waits ([Wait]) while another thread holds a lock it needs, and crashes ([Crash]) on
    an out-of-range index or a failed assertion. [Demon] is the result of code that is
    not modelled. Threads interleave action by action ([step]).

    A [reader] is a program that only loads.

    Programs are verified against a ghost token per thread: [safe p Q tok] says that
    a thread that holds [tok] can run [p] to a result that satisfies [Q], every action
    preserving the global invariant, whatever the other threads do in between.
    [threads_safe] is the soundness of that rule. [safe] rules out crashes when
    [may_crash] is [False]; with [True] it only follows the threads as far as they get. *)

From S2P Require Import Prelude.

(** ** Programs *)

Inductive effect (S R : Type) : Type :=
| Step (s : S) (r : R)
| Wait
| Crash.
Arguments Step {S R} _ _.
Arguments Wait {S R}.
Arguments Crash {S R}.

Inductive prog (S A : Type) : Type :=
| Ret (a : A)
| Act (R : Type) (f : S → effect S R) (k : R → prog S A)
| Demon (X : Type) (k : X → prog S A).
Arguments Ret {S A} _.
Arguments Act {S A R} _ _.
Arguments Demon {S A X} _.

Fixpoint prog_bind {S A B} (p : prog S A) (f : A → prog S B) : prog S B :=
  match p with
  | Ret a => f a
  | Act g k => Act g (λ r, prog_bind (k r) f)
  | Demon k => Demon (λ x, prog_bind (k x) f)
  end.

Declare Scope prog_scope.
Delimit Scope prog_scope with prog.
Notation "x <- m ;; p" := (prog_bind m (λ x, p))
  (at level 100, m at next level, right associativity) : prog_scope.
Notation "m ;; p" := (prog_bind m (λ _, p)) (at level 100, right associativity) : prog_scope.
#[global] Open Scope prog_scope.

(** An action that is always enabled. *)
Definition act {S R} (f : S → effect S R) : prog S R := Act f Ret.
(** An atomic load. *)
Definition load {S R} (f : S → R) : prog S R := act (λ s, Step s (f s)).
(** An atomic update without a result. *)
Definition modify {S} (f : S → S) : prog S unit := act (λ s, Step (f s) tt).

(** A program on one component of a larger state. *)
Fixpoint focus {S S' A} (get : S → S') (put : S → S' → S) (p : prog S' A) : prog S A :=
  match p with
  | Ret a => Ret a
  | Act f k => Act (λ s, match f (get s) with
                         | Step s' r => Step (put s s') r | Wait => Wait | Crash => Crash end)
                 (λ r, focus get put (k r))
  | Demon k => Demon (λ x, focus get put (k x))
  end.

(** Runs a program alone; [None] when it would wait, crash or ask the environment. *)
Fixpoint run {S A} (p : prog S A) (s : S) : option (S * A) :=
  match p with
  | Ret a => Some (s, a)
  | Act f k => match f s with Step s' r => run (k r) s' | _ => None end
  | Demon _ => None
  end.

(** ** Programs that only read

    [serve p ss] is what is left of [p] after its next loads found the states [ss]; [alone p s]
    is its result when nothing changes in between. *)
Inductive reader (S A : Type) : Type :=
| RDone (a : A)
| RLoad (k : S → reader S A).
Arguments RDone {S A} _.
Arguments RLoad {S A} _.

Fixpoint reader_bind {S A B} (p : reader S A) (f : A → reader S B) : reader S B :=
  match p with RDone a => f a | RLoad k => RLoad (λ s, reader_bind (k s) f) end.

Fixpoint reading {S A} (p : reader S A) : prog S A :=
  match p with RDone a => Ret a | RLoad k => Act (λ s, Step s s) (λ s, reading (k s)) end.

Fixpoint alone {S A} (p : reader S A) (s : S) : A :=
  match p with RDone a => a | RLoad k => alone (k s) s end.

Fixpoint serve {S A} (p : reader S A) (ss : list S) {struct ss} : option (reader S A) :=
  match ss, p with
  | [], _ => Some p
  | s :: ss, RLoad k => serve (k s) ss
  | _ :: _, RDone _ => None
  end.

Lemma alone_bind {S A B} (p : reader S A) (f : A → reader S B) s :
  alone (reader_bind p f) s = alone (f (alone p s)) s.
Proof. induction p as [a|k IH]; simpl; [done|apply IH]. Qed.

Lemma serve_snoc {S A} (p : reader S A) ss k s :
  serve p ss = Some (RLoad k) → serve p (ss ++ [s]) = Some (k s).
Proof.
  revert p. induction ss as [|s' ss IH]; intros p; simpl; [by intros [= ->]|].
  destruct p as [a|k']; [done|apply IH].
Qed.

Lemma serve_bind_done {S A B} (p : reader S A) (f : A → reader S B) ss b :
  serve (reader_bind p f) ss = Some (RDone b) → ∃ ss1 ss2 a,
    ss = ss1 ++ ss2 ∧ serve p ss1 = Some (RDone a) ∧ serve (f a) ss2 = Some (RDone b).
Proof.
  revert ss. induction p as [a|k IH]; intros ss; simpl; [by exists [], ss, a|].
  destruct ss as [|s ss]; simpl; [done|]. intros (ss1 & ss2 & a & -> & H1 & H2)%IH.
  by exists (s :: ss1), ss2, a.
Qed.

(** Whatever happens in between, every action of [p] changes the state as [rel]
    allows, none crashes unless [may_crash], and the result satisfies [Q]. *)
Fixpoint within {S A} (may_crash : Prop) (rel : S → S → Prop) (p : prog S A) (Q : A → Prop) : Prop :=
  match p with
  | Ret a => Q a
  | Act f k => ∀ s, match f s with
                    | Step s' r => rel s s' ∧ within may_crash rel (k r) Q
                    | Wait => True
                    | Crash => may_crash
                    end
  | Demon k => ∀ x, within may_crash rel (k x) Q
  end.

Lemma within_bind {S A B} (may_crash : Prop) (rel : S → S → Prop) (p : prog S A) (f : A → prog S B) (P : A → Prop) Q :
  within may_crash rel p P → (∀ a, P a → within may_crash rel (f a) Q) →
  within may_crash rel (prog_bind p f) Q.
Proof.
  intros Hp Hf. induction p as [a|R g k IH|X k IH]; simpl in *; [by apply Hf| |intros x; by apply IH].
  intros s. specialize (Hp s). destruct (g s) as [s' r| |]; [|done|done].
  destruct Hp as [Hrel Hp]. split; [done|]. by apply IH.
Qed.

Lemma within_focus {S S' A} (may_crash : Prop) (get : S → S') (put : S → S' → S) (rel : S → S → Prop) (rel' : S' → S' → Prop)
    (p : prog S' A) Q :
  (∀ s s', rel' (get s) s' → rel s (put s s')) → within may_crash rel' p Q →
  within may_crash rel (focus get put p) Q.
Proof.
  intros Hrel Hp. induction p as [a|R g k IH|X k IH]; simpl in *; [done| |intros x; by apply IH].
  intros s. specialize (Hp (get s)). destruct (g (get s)) as [s' r| |]; [|done|done].
  destruct Hp as [Hg Hp]. split; [by apply Hrel|]. by apply IH.
Qed.

Lemma within_reading {S A} (may_crash : Prop) (rel : S → S → Prop) (p : reader S A) (Q : A → Prop) :
  Reflexive rel → (∀ ss a, serve p ss = Some (RDone a) → Q a) → within may_crash rel (reading p) Q.
Proof.
  intros Hrel. induction p as [a|k IH]; simpl; intros HQ; [by apply (HQ [])|].
  intros s. split; [done|]. apply IH. intros ss a Ha. by apply (HQ (s :: ss)).
Qed.

Lemma run_bind {S A B} (p : prog S A) (f : A → prog S B) : ∀ s,
  run (prog_bind p f) s = match run p s with Some (s', a) => run (f a) s' | None => None end.
Proof.
  induction p as [a|R g k IH|X k IH]; intros s; simpl; [done| |done].
  by destruct (g s) as [s' r| |].
Qed.

(** ** Threads

    A thread repeats [next]: the result of one program selects the next one, [None]
    ends the thread. *)

Section machine.
Context {S W : Type} (next : W → option (prog S W)).

Inductive step : S * list (option (prog S W)) → S * list (option (prog S W)) → Prop :=
| step_act t s s' (threads : list (option (prog S W))) R (f : S → effect S R) k r :
    threads !! t = Some (Some (Act f k)) → f s = Step s' r →
    step (s, threads) (s', <[t := Some (k r)]> threads)
| step_demon t s (threads : list (option (prog S W))) X (k : X → prog S W) x :
    threads !! t = Some (Some (Demon k)) → step (s, threads) (s, <[t := Some (k x)]> threads)
| step_next t s (threads : list (option (prog S W))) w :
    threads !! t = Some (Some (Ret w)) → step (s, threads) (s, <[t := next w]> threads).

(** Some thread is about to crash. *)
Definition crashes (c : S * list (option (prog S W))) : Prop :=
  ∃ t R (f : S → effect S R) k, c.2 !! t = Some (Some (Act f k)) ∧ f c.1 = Crash.

Definition reachable (s0 : S) (threads0 : list (option (prog S W))) : S * list (option (prog S W)) → Prop :=
  rtc step (s0, threads0).

Lemma reachable_length s0 threads0 s threads :
  reachable s0 threads0 (s, threads) → length threads = length threads0.
Proof.
  unfold reachable. intros Hr. change (length (s, threads).2 = length (s0, threads0).2).
  induction Hr as [|c1 c2 c3 Hstep _ IH]; [done|]. rewrite IH. destruct Hstep; simpl; apply length_insert.
Qed.

(** ** One thread alone

    [exec p s s' a]: run alone, [p] can take [s] to [s'] with result [a]. *)
Inductive exec {A} : prog S A → S → S → A → Prop :=
| exec_ret a s : exec (Ret a) s s a
| exec_act R (f : S → effect S R) k s s1 r s2 a :
    f s = Step s1 r → exec (k r) s1 s2 a → exec (Act f k) s s2 a
| exec_demon X (k : X → prog S A) x s s2 a : exec (k x) s s2 a → exec (Demon k) s s2 a.

(** The state a program without choices ends in. *)
Definition final_state {A} (p : prog S A) (s : S) : S :=
  match run p s with Some (s', _) => s' | None => s end.

Lemma exec_run {A} (p : prog S A) : ∀ s a, snd <$> run p s = Some a → exec p s (final_state p s) a.
Proof.
  unfold final_state. induction p as [a|R f k IH|X k IH]; intros s a'; simpl; [|destruct (f s) as [s' r| |] eqn:Hf|done].
  - intros [= <-]. constructor.
  - intros Hr. econstructor; [done|]. specialize (IH r s' a' Hr). destruct (run (k r) s') as [[s2 a2]|]; done.
  - done.
  - done.
Qed.

Lemma exec_steps (p : prog S W) s s' w rest :
  exec p s s' w → rtc step (s, Some p :: rest) (s', Some (Ret w) :: rest).
Proof.
  induction 1 as [a s|R f k s s1 r s2 a Hf He IH|X k x s s2 a He IH]; [done| |].
  - eapply rtc_l; [|done]. by apply (step_act 0%nat s s1 (Some (Act f k) :: rest) R f k r).
  - eapply rtc_l; [|done]. by apply (step_demon 0%nat s (Some (Demon k) :: rest) X k x).
Qed.

(** Runs of one thread through its loop. *)
Inductive loops : S → W → S → Prop :=
| loops_end s w : next w = None → loops s w s
| loops_next s w p s1 w1 s2 : next w = Some p → exec p s s1 w1 → loops s1 w1 s2 → loops s w s2.

Lemma loops_steps s w s' rest p :
  next w = Some p → loops s w s' → rtc step (s, Some p :: rest) (s', None :: rest).
Proof.
  intros Hp Hl. revert p Hp. induction Hl as [s w Hw|s w p1 s1 w1 s2 Hw He Hl IH]; intros p Hp; [congruence|].
  assert (p1 = p) as -> by congruence. transitivity (s1, Some (Ret w1) :: rest); [by apply exec_steps|].
  eapply rtc_l; [by apply (step_next 0%nat s1 (Some (Ret w1) :: rest) w1)|]. simpl.
  destruct (next w1) as [p1|] eqn:Hw1; [by apply IH|]. inversion Hl; subst; [done|congruence].
Qed.

(** ** Tokens *)

Context {T : Type} (may_crash : Prop) (Inv : S → list T → Prop).
Context (Inv_perm : ∀ s l l', l ≡ₚ l' → Inv s l → Inv s l').

Fixpoint safe {A} (p : prog S A) (Q : A → T → Prop) (tok : T) : Prop :=
  match p with
  | Ret a => Q a tok
  | Act f k => ∀ s rest, Inv s (tok :: rest) →
      match f s with
      | Step s' r => ∃ tok', Inv s' (tok' :: rest) ∧ safe (k r) Q tok'
      | Wait => True
      | Crash => may_crash
      end
  | Demon k => ∀ x, safe (k x) Q tok
  end.

Lemma safe_bind {A B} (p : prog S A) (f : A → prog S B) (Q : B → T → Prop) : ∀ tok,
  safe p (λ a tok', safe (f a) Q tok') tok → safe (prog_bind p f) Q tok.
Proof.
  induction p as [a|R g k IH|X k IH]; intros tok; simpl; [done| |].
  - intros Hs s rest Hinv. specialize (Hs s rest Hinv). destruct (g s) as [s' r| |]; [|done|done].
    destruct Hs as (tok' & Hinv' & Hsafe). exists tok'. split; [done|]. by apply IH.
  - intros Hs x. apply IH, Hs.
Qed.

Lemma safe_mono {A} (p : prog S A) (Q Q' : A → T → Prop) : ∀ tok,
  (∀ a tok, Q a tok → Q' a tok) → safe p Q tok → safe p Q' tok.
Proof.
  induction p as [a|R g k IH|X k IH]; intros tok HQ; simpl; [apply HQ| |].
  - intros Hs s rest Hinv. specialize (Hs s rest Hinv). destruct (g s) as [s' r| |]; [|done|done].
    destruct Hs as (tok' & Hinv' & Hsafe). exists tok'. split; [done|]. by apply IH.
  - intros Hs x. by apply IH.
Qed.

Lemma safe_focus_bind {S' A B} (get : S → S') (put : S → S' → S) (p : prog S' A) (f : A → prog S' B)
    (Q : B → T → Prop) : ∀ tok,
  safe (focus get put p) (λ a tok', safe (focus get put (f a)) Q tok') tok →
  safe (focus get put (prog_bind p f)) Q tok.
Proof.
  induction p as [a|R g k IH|X k IH]; intros tok; simpl; [done| |].
  - intros Hs s rest Hinv. specialize (Hs s rest Hinv). destruct (g (get s)) as [s' r| |]; [|done|done].
    destruct Hs as (tok' & Hinv' & Hsafe). exists tok'. split; [done|]. by apply IH.
  - intros Hs x. apply IH, Hs.
Qed.

(** A program that stays within changes the invariant allows keeps its token. *)
Lemma safe_within {A} (rel : S → S → Prop) (p : prog S A) (P : A → Prop) tok :
  (∀ s s' toks, rel s s' → Inv s toks → Inv s' toks) → within may_crash rel p P →
  safe p (λ a tok', tok' = tok ∧ P a) tok.
Proof.
  intros Hrel Hp. induction p as [a|R g k IH|X k IH]; simpl in *; [done| |intros x; by apply IH].
  intros s rest Hinv. specialize (Hp s). destruct (g s) as [s' r| |]; [|done|done].
  destruct Hp as [Hg Hp]. exists tok. split; [by eapply Hrel|]. by apply IH.
Qed.

(** What the loop of a thread needs: the token of every result starts the next
    program; [Fin] are the tokens of a thread that has ended. *)
Context (Q : W → T → Prop) (Fin : T → Prop).
Context (Hnext : ∀ w tok, Q w tok →
  match next w with Some p => safe p Q tok | None => Fin tok end).

Definition thread_ok (th : option (prog S W)) (tok : T) : Prop :=
  match th with Some p => safe p Q tok | None => Fin tok end.

Lemma list_split {A} (l : list A) t x :
  l !! t = Some x → ∃ rest, ∀ y, <[t := y]> l ≡ₚ y :: rest.
Proof.
  intros Ht. exists (delete t l). intros y.
  pose proof (lookup_lt_Some _ _ _ Ht) as Hlt.
  rewrite (delete_Permutation (<[t := y]> l) t y) by (by apply list_lookup_insert_eq).
  constructor. rewrite !delete_take_drop. rewrite take_insert_ge, drop_insert_lt by lia. done.
Qed.

Lemma step_preserves s threads toks s' threads' :
  Inv s toks → Forall2 thread_ok threads toks → step (s, threads) (s', threads') →
  ∃ toks', Inv s' toks' ∧ Forall2 thread_ok threads' toks'.
Proof.
  intros Hinv Hall Hstep. inversion Hstep as [t ? ? ? R f k r Ht Hf|t ? ? X k x Ht|t ? ? w Ht]; subst.
  - destruct (Forall2_lookup_l _ _ _ _ _ Hall Ht) as (tok & Htok & Hsafe).
    destruct (list_split toks t tok Htok) as [rest Hrest].
    assert (Hinv0 : Inv s (tok :: rest)).
    { eapply Inv_perm; [|done]. rewrite <-(Hrest tok). by rewrite list_insert_id. }
    specialize (Hsafe s rest Hinv0). rewrite Hf in Hsafe. destruct Hsafe as (tok' & Hinv' & Hsafe').
    exists (<[t := tok']> toks). split; [by eapply Inv_perm; [symmetry; apply Hrest|]|].
    by apply Forall2_insert.
  - destruct (Forall2_lookup_l _ _ _ _ _ Hall Ht) as (tok & Htok & Hsafe).
    exists toks. split; [done|]. rewrite <-(list_insert_id toks t tok Htok). apply Forall2_insert; [done|apply Hsafe].
  - destruct (Forall2_lookup_l _ _ _ _ _ Hall Ht) as (tok & Htok & Hsafe).
    exists toks. split; [done|]. rewrite <-(list_insert_id toks t tok Htok). apply Forall2_insert; [done|].
    apply (Hnext w tok Hsafe).
Qed.

Lemma safe_no_crash s threads toks :
  Inv s toks → Forall2 thread_ok threads toks → crashes (s, threads) → may_crash.
Proof.
  intros Hinv Hall (t & R & f & k & Ht & Hf). simpl in *.
  destruct (Forall2_lookup_l _ _ _ _ _ Hall Ht) as (tok & Htok & Hsafe).
  destruct (list_split toks t tok Htok) as [rest Hrest].
  assert (Hinv0 : Inv s (tok :: rest)).
  { eapply Inv_perm; [|done]. rewrite <-(Hrest tok). by rewrite list_insert_id. }
  specialize (Hsafe s rest Hinv0). by rewrite Hf in Hsafe.
Qed.

(** Every reachable state satisfies the invariant with some tokens. *)
Lemma threads_safe s0 threads0 toks0 s threads :
  Inv s0 toks0 → Forall2 thread_ok threads0 toks0 → reachable s0 threads0 (s, threads) →
  ∃ toks, Inv s toks ∧ Forall2 thread_ok threads toks.
Proof.
  intros Hinv Hall Hr. unfold reachable in Hr.
  remember (s0, threads0) as c0 eqn:H0. remember (s, threads) as c eqn:Hc.
  revert s0 threads0 toks0 Hinv Hall H0. induction Hr as [c1|c1 [s1 ths1] c3 Hstep _ IH];
    intros s0 threads0 toks0 Hinv Hall H0; subst.
  - injection H0 as <- <-. eauto.
  - destruct (step_preserves _ _ _ _ _ Hinv Hall Hstep) as (toks1 & Hinv1 & Hall1). eauto.
Qed.
End machine.
