(* ===== verification/PevmTypes.v ===== *)
(** * Types of the parallel executor

    Models the types of src/pevm/crates/pevm/src/lib.rs that the schedulers and the
    multi-version memory share. A transaction index or incarnation ([usize]) is a
    [nat] below the block size or the number of re-executions; a memory location is its
    64-bit hash, as in the code. *)

From S2P Require Import Prelude.

Notation TxIdx := nat (only parsing).
Notation TxIncarnation := nat (only parsing).
Definition MemoryLocationHash : Type := N.

Inductive IncarnationStatus := ReadyToExecute | Executing | Executed | Validated | Aborting.

#[global] Instance IncarnationStatus_eq_dec : EqDecision IncarnationStatus.
Proof. solve_decision. Defined.

Record TxStatus := mkTxStatus { incarnation : TxIncarnation; status : IncarnationStatus }.

Record TxVersion := mkVersion { tx_idx : TxIdx; tx_incarnation : TxIncarnation }.

#[global] Instance TxVersion_eq_dec : EqDecision TxVersion.
Proof. solve_decision. Defined.

Inductive ReadOrigin := MvMemoryOrigin (v : TxVersion) | StorageOrigin.

#[global] Instance ReadOrigin_eq_dec : EqDecision ReadOrigin.
Proof. solve_decision. Defined.

Notation ReadOrigins := (list ReadOrigin) (only parsing).
Notation ReadSet := (gmap MemoryLocationHash ReadOrigins) (only parsing).

Inductive Task := Execution (v : TxVersion) | Validation (v : TxVersion).

(** [FinishExecFlags] is a bit set; [NeedValidation] is the constant 0, so every value
    contains it. *)
Definition FinishExecFlags : Type := N.
Definition NeedValidation : FinishExecFlags := 0.
Definition WroteNewLocation : FinishExecFlags := 1.
Definition flags_contains (flags other : FinishExecFlags) : bool :=
  bool_decide (N.land flags other = other).

Record AccountBasic := mkAccount { balance : N; nonce : N }.

#[global] Instance AccountBasic_eq_dec : EqDecision AccountBasic.
Proof. solve_decision. Defined.

Inductive MemoryValue :=
| BasicValue (info : AccountBasic)
| CodeHashValue (hash : N)
| StorageValue (value : N)
| LazyRecipient (addition : N)
| LazySender (subtraction : N)
| SelfDestructed.

#[global] Instance MemoryValue_eq_dec : EqDecision MemoryValue.
Proof. solve_decision. Defined.

Inductive MemoryEntry :=
| Data (n : TxIncarnation) (v : MemoryValue)
| Estimate.

#[global] Instance MemoryEntry_eq_dec : EqDecision MemoryEntry.
Proof. solve_decision. Defined.

Definition WriteSet : Type := list (MemoryLocationHash * MemoryValue).

(** Every set of flags contains [NeedValidation]. *)
Lemma always_needs_validation flags : flags_contains flags NeedValidation = true.
Proof. unfold flags_contains. apply bool_decide_eq_true_2, N.land_0_r. Qed.
