(* ===== verification/Scheduler.v ===== *)
(** * The collaborative scheduler

    Models src/pevm/crates/pevm/src/scheduler.rs: one [prog] per operation, action by
    action. [status_lock] is the state of the mutex of each [TxStatus]; only
    [finish_execution] holds it over several actions, every other critical section on it
    is a single action. [thread::yield_now] and the diagnostics counters are left out. *)

From S2P Require Import Prelude PevmTypes Concurrent.

Record Scheduler := mkScheduler {
  block_size : nat;
  transactions_status : list TxStatus;
  status_lock : list bool;
  transactions_dependents : list (list TxIdx);
  execution_idx : nat;
  validation_idx : nat;
  min_validation_idx : nat;
  num_validated : N;
  aborted : bool }.

Definition Scheduler_new (n : nat) : Scheduler :=
  mkScheduler n (replicate n (mkTxStatus 0%nat ReadyToExecute)) (replicate n false) (replicate n [])
    0%nat n n 0 false.

(** ** Field updates *)

Definition with_status (s : Scheduler) (i : TxIdx) (tx : TxStatus) : Scheduler :=
  mkScheduler (block_size s) (<[i := tx]> (transactions_status s)) (status_lock s)
    (transactions_dependents s) (execution_idx s) (validation_idx s) (min_validation_idx s)
    (num_validated s) (aborted s).
Definition with_lock (s : Scheduler) (i : TxIdx) (b : bool) : Scheduler :=
  mkScheduler (block_size s) (transactions_status s) (<[i := b]> (status_lock s))
    (transactions_dependents s) (execution_idx s) (validation_idx s) (min_validation_idx s)
    (num_validated s) (aborted s).
Definition with_dependents (s : Scheduler) (i : TxIdx) (l : list TxIdx) : Scheduler :=
  mkScheduler (block_size s) (transactions_status s) (status_lock s)
    (<[i := l]> (transactions_dependents s)) (execution_idx s) (validation_idx s) (min_validation_idx s)
    (num_validated s) (aborted s).
Definition with_execution_idx (s : Scheduler) (i : nat) : Scheduler :=
  mkScheduler (block_size s) (transactions_status s) (status_lock s)
    (transactions_dependents s) i (validation_idx s) (min_validation_idx s)
    (num_validated s) (aborted s).
Definition with_validation_idx (s : Scheduler) (i : nat) : Scheduler :=
  mkScheduler (block_size s) (transactions_status s) (status_lock s)
    (transactions_dependents s) (execution_idx s) i (min_validation_idx s)
    (num_validated s) (aborted s).
Definition with_min_validation_idx (s : Scheduler) (i : nat) : Scheduler :=
  mkScheduler (block_size s) (transactions_status s) (status_lock s)
    (transactions_dependents s) (execution_idx s) (validation_idx s) i
    (num_validated s) (aborted s).
Definition with_num_validated (s : Scheduler) (i : N) : Scheduler :=
  mkScheduler (block_size s) (transactions_status s) (status_lock s)
    (transactions_dependents s) (execution_idx s) (validation_idx s) (min_validation_idx s)
    i (aborted s).
Definition with_aborted (s : Scheduler) : Scheduler :=
  mkScheduler (block_size s) (transactions_status s) (status_lock s)
    (transactions_dependents s) (execution_idx s) (validation_idx s) (min_validation_idx s)
    (num_validated s) true.

Definition mark (tx : TxStatus) (st : IncarnationStatus) : TxStatus := mkTxStatus (incarnation tx) st.

(** ** Critical sections

    [index_mutex!(self.transactions_status, i)]: an index beyond the vector is undefined
    behaviour ([Crash]). *)
Definition locked_status {R} (i : TxIdx) (f : TxStatus → Scheduler → effect Scheduler R)
    (s : Scheduler) : effect Scheduler R :=
  match transactions_status s !! i, status_lock s !! i with
  | Some tx, Some false => f tx s
  | Some _, Some true => Wait
  | _, _ => Crash
  end.

Definition is_executed (st : IncarnationStatus) : bool :=
  match st with Executed | Validated => true | _ => false end.

(** ** Operations *)

Definition abort : prog Scheduler unit := modify with_aborted.

Definition try_execute_section (i : TxIdx) : Scheduler → effect Scheduler (option TxVersion) :=
  locked_status i (λ tx s,
    match status tx with
    | ReadyToExecute => Step (with_status s i (mark tx Executing)) (Some (mkVersion i (incarnation tx)))
    | _ => Step s None
    end).

Definition try_execute (n : nat) (i : TxIdx) : prog Scheduler (option TxVersion) :=
  if bool_decide (i < n)%nat then act (try_execute_section i) else Ret None.

(** The validation branch of [next_task] under the lock: [Some (Some task)] returns a
    task, [Some None] continues the loop, [None] falls back to an execution task. *)
Definition validation_section (i : TxIdx) : Scheduler → effect Scheduler (option (option Task)) :=
  locked_status i (λ tx s,
    match status tx with
    | ReadyToExecute =>
        Step (with_status s i (mark tx Executing))
          (Some (Some (Execution (mkVersion i (incarnation tx)))))
    | Executed | Validated => Step s (Some (Some (Validation (mkVersion i (incarnation tx)))))
    | Aborting => Step s (Some None)
    | Executing => Step s None
    end).

(** [fetch_add(1)] *)
Definition fetch_add_validation : prog Scheduler nat :=
  act (λ s, Step (with_validation_idx s (S (validation_idx s))) (validation_idx s)).
Definition fetch_add_execution : prog Scheduler nat :=
  act (λ s, Step (with_execution_idx s (S (execution_idx s))) (execution_idx s)).
(** [fetch_min(i)] *)
Definition fetch_min_validation (i : nat) : prog Scheduler unit :=
  modify (λ s, with_validation_idx s (Nat.min (validation_idx s) i)).
Definition fetch_min_execution (i : nat) : prog Scheduler unit :=
  modify (λ s, with_execution_idx s (Nat.min (execution_idx s) i)).
Definition fetch_min_min_validation (i : nat) : prog Scheduler nat :=
  act (λ s, Step (with_min_validation_idx s (Nat.min (min_validation_idx s) i)) (min_validation_idx s)).

(** The end of an iteration of the [while] loop of [next_task]. *)
Inductive next_result := NextContinue | NextNone | NextTask (t : Task).

Definition next_task_iteration (n : nat) : prog Scheduler next_result :=
  ab <- load aborted;;
  if (ab : bool) then Ret NextNone
  else
    e <- load execution_idx;;
    v <- load validation_idx;;
    if (bool_decide (n ≤ e)%nat && bool_decide (n ≤ v)%nat : bool) then
      num <- load num_validated;;
      m <- load min_validation_idx;;
      if bool_decide (N.of_nat (n - m) ≤ num) then Ret NextNone else Ret NextContinue
    else
      picked <- (if bool_decide (v < e)%nat then
                   i <- fetch_add_validation;;
                   if bool_decide (i < n)%nat then act (validation_section i) else Ret None
                 else Ret None);;
      match picked with
      | Some (Some t) => Ret (NextTask t)
      | Some None => Ret NextContinue
      | None =>
          i <- fetch_add_execution;;
          o <- try_execute n i;;
          Ret (match o with Some v => NextTask (Execution v) | None => NextContinue end)
      end.

(** The lock of the blocking transaction is held over the check, the change of the
    status of [i] and the push. *)
Definition add_dependency_section (i blocking : TxIdx) (s : Scheduler) : effect Scheduler bool :=
  locked_status blocking (λ blocking_tx s,
    if is_executed (status blocking_tx) then Step s false
    else locked_status i (λ tx s,
           match status tx, transactions_dependents s !! blocking with
           | Executing, Some l =>
               Step (with_dependents (with_status s i (mark tx Aborting)) blocking (l ++ [i])) true
           | _, _ => Crash
           end) s) s.

Definition add_dependency (i blocking : TxIdx) : prog Scheduler bool :=
  act (add_dependency_section i blocking).

Definition set_ready_section (i : TxIdx) : Scheduler → effect Scheduler unit :=
  locked_status i (λ tx s,
    match status tx with
    | Aborting => Step (with_status s i (mkTxStatus (S (incarnation tx)) ReadyToExecute)) tt
    | _ => Crash
    end).

Definition set_ready_status (i : TxIdx) : prog Scheduler unit := act (set_ready_section i).

(** [index_mutex!] at the start of [finish_execution], with its assertions. *)
Definition begin_finish_section (v : TxVersion) : Scheduler → effect Scheduler unit :=
  locked_status (tx_idx v) (λ tx s,
    if bool_decide (status tx = Executing) && bool_decide (incarnation tx = tx_incarnation v)
    then Step (with_lock s (tx_idx v) true) tt else Crash).

(** [dependents.drain(..)] *)
Definition take_dependents (i : TxIdx) (s : Scheduler) : effect Scheduler (list TxIdx) :=
  match transactions_dependents s !! i with
  | Some l => Step (with_dependents s i []) l
  | None => Crash
  end.

Fixpoint resume_dependents (l : list TxIdx) : prog Scheduler unit :=
  match l with
  | [] => Ret tt
  | d :: l => set_ready_status d;; fetch_min_execution d;; resume_dependents l
  end.

(** Writes the status under the held lock; [unlock] when the guard is dropped. *)
Definition write_status_section (i : TxIdx) (st : IncarnationStatus) (count unlock : bool)
    (s : Scheduler) : effect Scheduler unit :=
  match transactions_status s !! i with
  | Some tx =>
      let s := with_status s i (mark tx st) in
      let s := if count then with_num_validated s (u64_add (num_validated s) 1) else s in
      Step (if unlock then with_lock s i false else s) tt
  | None => Crash
  end.

Definition write_status (i : TxIdx) (st : IncarnationStatus) (count unlock : bool) : prog Scheduler unit :=
  act (write_status_section i st count unlock).

(** The last part of [finish_execution], which the graph scheduler shares. *)
Definition schedule_validation (n : nat) (v : TxVersion) (flags : FinishExecFlags) : prog Scheduler (option Task) :=
  let i := tx_idx v in
  min_val <- (if flags_contains flags NeedValidation
              then old <- fetch_min_min_validation i;; Ret (Nat.min old i)
              else load min_validation_idx);;
  early <- (if bool_decide (min_val < n)%nat then
              if bool_decide (i < min_val)%nat then
                if flags_contains flags WroteNewLocation
                then fetch_min_validation min_val;; Ret None else Ret None
              else
                val <- load validation_idx;;
                if bool_decide (i < val)%nat then
                  (if flags_contains flags WroteNewLocation then fetch_min_validation (S i) else Ret tt);;
                  if flags_contains flags NeedValidation
                  then write_status i Executed false true;; Ret (Some (Validation v))
                  else write_status i Validated true false;; Ret None
                else Ret None
            else Ret None);;
  match early with
  | Some t => Ret (Some t)
  | None =>
      (if flags_contains flags NeedValidation
       then write_status i Executed false true else write_status i Validated true true);;
      Ret None
  end.

Definition finish_execution (n : nat) (v : TxVersion) (flags : FinishExecFlags)
    : prog Scheduler (option Task) :=
  act (begin_finish_section v);;
  dependents <- act (take_dependents (tx_idx v));;
  resume_dependents dependents;;
  schedule_validation n v flags.

Definition try_validation_abort_section (i : TxIdx) : Scheduler → effect Scheduler bool :=
  locked_status i (λ tx s,
    let s := if bool_decide (status tx = Validated)
             then with_num_validated s (u64_sub (num_validated s) 1) else s in
    if is_executed (status tx) then Step (with_status s i (mark tx Aborting)) true else Step s false).

Definition try_validation_abort (v : TxVersion) : prog Scheduler bool :=
  act (try_validation_abort_section (tx_idx v)).

Definition mark_validated_section (i : TxIdx) : Scheduler → effect Scheduler unit :=
  locked_status i (λ tx s,
    match status tx with
    | Executed => Step (with_num_validated (with_status s i (mark tx Validated))
                          (u64_add (num_validated s) 1)) tt
    | _ => Step s tt
    end).

Definition finish_validation (n : nat) (v : TxVersion) (aborted : bool) : prog Scheduler (option Task) :=
  let i := tx_idx v in
  if aborted then
    set_ready_status i;;
    fetch_min_validation (S i);;
    e <- load execution_idx;;
    if bool_decide (i < e)%nat then
      o <- try_execute n i;;
      Ret (Execution <$> o)
    else Ret None
  else act (mark_validated_section i);; Ret None.

Definition total_reexecutions (s : Scheduler) : nat :=
  sum_list (incarnation <$> transactions_status s).
