(* ===== verification/MvMemory.v ===== *)
(** * Multi-version memory

    Models src/pevm/crates/pevm/src/mv_memory.rs. The operations are programs over
    the shared structure: an access to one entry of [data] (under the lock of its map
    shard) is one action. [record], [validate_read_locations] and
    [convert_writes_to_estimates] hold the mutex of the [LastLocations] of their
    transaction; the model lets other threads run in between all the same, which only adds
    interleavings. The diagnostics counters are left out. *)

From S2P Require Import Prelude PevmTypes Concurrent.

Record LastLocations := mkLast { last_read : ReadSet; last_write : list MemoryLocationHash }.

Record MvMemory := mkMemory {
  data : gmap MemoryLocationHash (gmap TxIdx MemoryEntry);
  last_locations : list LastLocations;
  lazy_addresses : gset N;
  new_bytecodes : gmap N N }.

Definition MvMemory_new (n : nat) (estimated_locations : list (MemoryLocationHash * list TxIdx))
    (addresses : list N) : MvMemory :=
  mkMemory
    (foldl (λ data '(location_hash, idxs),
              <[location_hash := list_to_map ((λ i, (i, Estimate)) <$> idxs)]> data)
       ∅ estimated_locations)
    (replicate n (mkLast ∅ [])) (list_to_set addresses) ∅.

Definition with_data (m : MvMemory) (d : gmap MemoryLocationHash (gmap TxIdx MemoryEntry)) : MvMemory :=
  mkMemory d (last_locations m) (lazy_addresses m) (new_bytecodes m).
Definition with_last (m : MvMemory) (i : TxIdx) (l : LastLocations) : MvMemory :=
  mkMemory (data m) (<[i := l]> (last_locations m)) (lazy_addresses m) (new_bytecodes m).
Definition with_bytecodes (m : MvMemory) (c : gmap N N) : MvMemory :=
  mkMemory (data m) (last_locations m) (lazy_addresses m) c.

Definition add_lazy_addresses (l : list N) : prog MvMemory unit :=
  modify (λ m, mkMemory (data m) (last_locations m) (lazy_addresses m ∪ list_to_set l) (new_bytecodes m)).

Definition consume_lazy_addresses : prog MvMemory (gset N) :=
  act (λ m, Step (mkMemory (data m) (last_locations m) ∅ (new_bytecodes m)) (lazy_addresses m)).

(** ** record *)

(** [Vec::swap_remove] *)
Definition swap_remove {A} (idx : nat) (l : list A) : list A :=
  match last l with
  | Some z => take (length l - 1) (<[idx := z]> l)
  | None => l
  end.

(** The [while] loop over the previously written locations: the locations to keep,
    in the order the vector ends up with, and the ones to remove, in the order of their
    removal. Every iteration advances the index or shortens the vector. *)
Fixpoint split_stale (fuel : nat) (written : list MemoryLocationHash) (idx : nat)
    (l removed : list MemoryLocationHash) : list MemoryLocationHash * list MemoryLocationHash :=
  match fuel with
  | O => (l, removed)
  | S fuel =>
      match l !! idx with
      | None => (l, removed)
      | Some prev_location =>
          if bool_decide (prev_location ∈ written)
          then split_stale fuel written (S idx) l removed
          else split_stale fuel written idx (swap_remove idx l) (removed ++ [prev_location])
      end
  end.

(** [last_locations.read = read_set] and the pruned [last_locations.write], under the
    mutex of the transaction; returns the removed locations. *)
Definition begin_record_section (i : TxIdx) (read_set : ReadSet) (write_set : WriteSet)
    (m : MvMemory) : effect MvMemory (list MemoryLocationHash) :=
  match last_locations m !! i with
  | None => Crash
  | Some last_loc =>
      let '(kept, removed) :=
        split_stale (length (last_write last_loc)) (fst <$> write_set) 0 (last_write last_loc) [] in
      Step (with_last m i (mkLast read_set kept)) removed
  end.

(** [if let Some(mut written) = self.data.get_mut(l) { written.remove(&i) }] *)
Definition remove_entry (i : TxIdx) (location : MemoryLocationHash) (m : MvMemory) : MvMemory :=
  match data m !! location with
  | Some written => with_data m (<[location := delete i written]> (data m))
  | None => m
  end.

Fixpoint remove_entries (i : TxIdx) (l : list MemoryLocationHash) : prog MvMemory unit :=
  match l with
  | [] => Ret tt
  | location :: l => modify (remove_entry i location);; remove_entries i l
  end.

(** One iteration of the loop over the write set; returns whether the location is new. *)
Definition write_entry_section (v : TxVersion) (location : MemoryLocationHash) (value : MemoryValue)
    (m : MvMemory) : effect MvMemory bool :=
  match last_locations m !! tx_idx v with
  | None => Crash
  | Some last_loc =>
      let m := with_data m (<[location :=
        <[tx_idx v := Data (tx_incarnation v) value]> (default ∅ (data m !! location))]> (data m)) in
      if bool_decide (location ∈ last_write last_loc) then Step m false
      else Step (with_last m (tx_idx v) (mkLast (last_read last_loc) (last_write last_loc ++ [location]))) true
  end.

Fixpoint write_entries (v : TxVersion) (write_set : WriteSet) (wrote_new_location : bool)
    : prog MvMemory bool :=
  match write_set with
  | [] => Ret wrote_new_location
  | (location, value) :: rest =>
      is_new <- act (write_entry_section v location value);;
      write_entries v rest (wrote_new_location || is_new)
  end.

Definition record (v : TxVersion) (read_set : ReadSet) (write_set : WriteSet) : prog MvMemory bool :=
  removed <- act (begin_record_section (tx_idx v) read_set write_set);;
  remove_entries (tx_idx v) removed;;
  write_entries v write_set false.

(** ** validate_read_locations *)

(** The entries of the transactions below [i], from the closest down:
    [written.range(..i)] read with [next_back]. *)
Definition entries_below (written : gmap TxIdx MemoryEntry) (i : TxIdx) : list (TxIdx * MemoryEntry) :=
  omap (λ j, (λ e, (j, e)) <$> written !! j) (reverse (seq 0 i)).

Fixpoint check_origins (iter : list (TxIdx * MemoryEntry)) (origins : ReadOrigins) : bool :=
  match origins with
  | [] => true
  | MvMemoryOrigin prior :: origins =>
      match iter with
      | (closest_idx, Data n _) :: iter =>
          if bool_decide (closest_idx = tx_idx prior) && bool_decide (tx_incarnation prior = n)
          then check_origins iter origins else false
      | _ => false
      end
  | StorageOrigin :: origins =>
      match iter with
      | [] => check_origins iter origins
      | _ => false
      end
  end.

Definition valid_location (m : MvMemory) (i : TxIdx) (location : MemoryLocationHash)
    (origins : ReadOrigins) : bool :=
  match data m !! location with
  | Some written => check_origins (entries_below written i) origins
  | None => bool_decide (origins = [StorageOrigin])
  end.

Fixpoint check_locations (i : TxIdx) (l : list (MemoryLocationHash * ReadOrigins)) : prog MvMemory bool :=
  match l with
  | [] => Ret true
  | (location, prior_origins) :: l =>
      ok <- load (λ m, valid_location m i location prior_origins);;
      if (ok : bool) then check_locations i l else Ret false
  end.

(** The read set is a hash map: any order of its entries is possible. *)
Definition orders : Type :=
  ∀ r : ReadSet, { l : list (MemoryLocationHash * ReadOrigins) | l ≡ₚ map_to_list r }.

Definition sample_order : orders := λ r, exist _ (map_to_list r) (Permutation_refl _).

Definition validate_read_locations (i : TxIdx) : prog MvMemory bool :=
  Demon (λ order : orders,
    read_set <- act (λ m, match last_locations m !! i with
                          | Some last_loc => Step m (last_read last_loc)
                          | None => Crash
                          end);;
    check_locations i (proj1_sig (order read_set))).

(** ** convert_writes_to_estimates *)

Definition estimate_entry (i : TxIdx) (location : MemoryLocationHash) (m : MvMemory) : MvMemory :=
  match data m !! location with
  | Some written => with_data m (<[location := <[i := Estimate]> written]> (data m))
  | None => m
  end.

Fixpoint estimate_entries (i : TxIdx) (l : list MemoryLocationHash) : prog MvMemory unit :=
  match l with
  | [] => Ret tt
  | location :: l => modify (estimate_entry i location);; estimate_entries i l
  end.

Definition convert_writes_to_estimates (i : TxIdx) : prog MvMemory unit :=
  locations <- act (λ m, match last_locations m !! i with
                         | Some last_loc => Step m (last_write last_loc)
                         | None => Crash
                         end);;
  estimate_entries i locations.

(** ** Entries *)

(** The entry of transaction [i] at a location. *)
Definition entry (m : MvMemory) (location : MemoryLocationHash) (i : TxIdx) : option MemoryEntry :=
  data m !! location ≫= (.!! i).

(** Every location that [last_write] lists has an entry of the transaction. *)
Definition writes_present (m : MvMemory) (i : TxIdx) : Prop :=
  ∀ last_loc location, last_locations m !! i = Some last_loc → location ∈ last_write last_loc →
    is_Some (entry m location i).

Lemma swap_remove_perm {A} (idx : nat) (l : list A) x :
  l !! idx = Some x → x :: swap_remove idx l ≡ₚ l ∧ take idx (swap_remove idx l) = take idx l.
Proof.
  intros Hx. destruct (decide (l = [])) as [->|Hne]; [done|].
  destruct (exists_last Hne) as (l' & z & ->). unfold swap_remove. rewrite last_snoc.
  rewrite length_app, Nat.add_sub. simpl.
  pose proof (lookup_lt_Some _ _ _ Hx) as Hlt. rewrite length_app in Hlt. simpl in Hlt.
  destruct (decide (idx = length l')) as [->|Hidx].
  - rewrite list_lookup_middle in Hx by done. injection Hx as ->.
    rewrite insert_app_r_alt, Nat.sub_diag by lia. simpl. rewrite take_app_length. split.
    + by rewrite Permutation_app_comm.
    + by rewrite take_ge.
  - rewrite lookup_app_l in Hx by lia. rewrite insert_app_l by lia.
    rewrite (take_app_length' (<[idx:=z]> l')) by (by rewrite length_insert). split.
    + destruct (list_split l' idx x Hx) as [rest Hrest].
      rewrite (Hrest z), <-Permutation_cons_append, <-(list_insert_id l' idx x Hx), (Hrest x). apply perm_swap.
    + rewrite take_insert_ge, take_app_le by lia. done.
Qed.

Lemma split_stale_spec written : ∀ fuel idx l removed kept removed',
  (length l ≤ fuel + idx)%nat → Forall (.∈ written) (take idx l) →
  split_stale fuel written idx l removed = (kept, removed') →
  kept ++ removed' ≡ₚ l ++ removed ∧ Forall (.∈ written) kept ∧
  ∀ x, x ∈ removed' → x ∈ removed ∨ x ∉ written.
Proof.
  induction fuel as [|fuel IH]; intros idx l removed kept removed' Hfuel Htake; simpl.
  { intros [= <- <-]. rewrite take_ge in Htake by lia. eauto. }
  destruct (l !! idx) as [x|] eqn:Hx.
  2:{ intros [= <- <-]. apply lookup_ge_None in Hx. rewrite take_ge in Htake by lia. eauto. }
  case_bool_decide as Hin.
  - apply IH; [lia|]. rewrite (take_S_r _ _ _ Hx). apply Forall_app. eauto.
  - intros Hs. destruct (swap_remove_perm idx l x Hx) as [Hperm Htk].
    pose proof (Permutation_length Hperm) as Hlen. simpl in Hlen.
    destruct (IH idx (swap_remove idx l) (removed ++ [x]) kept removed') as (Hp & Hk & Hr);
      [lia|by rewrite Htk|done|].
    split; [|split; [done|]].
    + rewrite Hp. transitivity ((x :: swap_remove idx l) ++ removed); [|by apply Permutation_app_tail].
      rewrite (app_assoc _ removed [x]). symmetry. apply Permutation_cons_append.
    + intros y Hy. destruct (Hr y Hy) as [Hy'|Hy']; [|by right].
      apply elem_of_app in Hy' as [?|?%list_elem_of_singleton]; subst; eauto.
Qed.

Lemma split_stale_run written l kept removed :
  split_stale (length l) written 0 l [] = (kept, removed) →
  l ≡ₚ kept ++ removed ∧ Forall (.∈ written) kept ∧ Forall (.∉ written) removed.
Proof.
  intros Hs. apply split_stale_spec in Hs as (Hp & Hk & Hr); [|lia|by rewrite take_0].
  rewrite app_nil_r in Hp. split; [done|]. split; [done|]. apply Forall_forall. intros x Hx.
  by destruct (Hr x Hx) as [?%not_elem_of_nil|?].
Qed.

Lemma entry_remove i location m location' j :
  entry (remove_entry i location m) location' j =
  if decide (location = location' ∧ i = j) then None else entry m location' j.
Proof.
  unfold entry, remove_entry. destruct (data m !! location) as [w|] eqn:Hw; simpl.
  - destruct (decide (location = location')) as [->|]; [rewrite lookup_insert_eq|rewrite lookup_insert_ne by done];
      simpl; [|by rewrite decide_False by tauto].
    rewrite Hw. simpl. destruct (decide (i = j)) as [->|].
    + rewrite lookup_delete_eq, decide_True by done. done.
    + rewrite lookup_delete_ne, decide_False by tauto. done.
  - destruct (decide _) as [[-> ->]|]; [by rewrite Hw|done].
Qed.

Lemma entry_estimate i location m location' j :
  entry (estimate_entry i location m) location' j =
  if decide (location = location' ∧ i = j ∧ is_Some (data m !! location)) then Some Estimate
  else entry m location' j.
Proof.
  unfold entry, estimate_entry. destruct (data m !! location) as [w|] eqn:Hw; simpl.
  - destruct (decide (location = location')) as [->|]; [rewrite lookup_insert_eq|rewrite lookup_insert_ne by done];
      simpl; [|by rewrite decide_False by tauto].
    rewrite Hw. simpl. destruct (decide (i = j)) as [->|].
    + rewrite lookup_insert_eq, decide_True by (split; [done|split; [done|by eexists]]). done.
    + rewrite lookup_insert_ne, decide_False by tauto. done.
  - rewrite decide_False; [done|]. intros (_ & _ & [? ?]). done.
Qed.

(** The data after a write of [write_entry_section]. *)
Definition put_entry (v : TxVersion) (location : MemoryLocationHash) (value : MemoryValue) (m : MvMemory)
    : gmap MemoryLocationHash (gmap TxIdx MemoryEntry) :=
  <[location := <[tx_idx v := Data (tx_incarnation v) value]> (default ∅ (data m !! location))]> (data m).

Lemma entry_put v location value m location' j :
  put_entry v location value m !! location' ≫= (.!! j) =
  if decide (location = location' ∧ tx_idx v = j) then Some (Data (tx_incarnation v) value)
  else entry m location' j.
Proof.
  unfold put_entry, entry.
  destruct (decide (location = location')) as [->|]; [rewrite lookup_insert_eq|rewrite lookup_insert_ne by done];
    simpl; [|by rewrite decide_False by tauto].
  destruct (decide (tx_idx v = j)) as [->|].
  - rewrite lookup_insert_eq, decide_True by done. done.
  - rewrite lookup_insert_ne, decide_False by tauto. by destruct (data m !! location').
Qed.

(** ** What an execution records *)

(** The value a write set ends up with at a location: its last write. *)
Definition final_write (write_set : WriteSet) (location : MemoryLocationHash) : option MemoryValue :=
  (list_to_map (reverse write_set) : gmap _ _) !! location.

Lemma final_write_snoc ws location value location' :
  final_write (ws ++ [(location, value)]) location' =
  if decide (location = location') then Some value else final_write ws location'.
Proof.
  unfold final_write. rewrite reverse_snoc. simpl. destruct (decide _) as [->|];
    [by rewrite lookup_insert_eq|by rewrite lookup_insert_ne].
Qed.

Lemma final_write_None ws location : final_write ws location = None ↔ location ∉ ws.*1.
Proof.
  unfold final_write. by rewrite <-not_elem_of_list_to_map, fmap_reverse, elem_of_reverse.
Qed.

Lemma remove_entries_run i : ∀ l m, ∃ m',
  run (remove_entries i l) m = Some (m', tt) ∧ last_locations m' = last_locations m ∧
  lazy_addresses m' = lazy_addresses m ∧
  ∀ location j, entry m' location j = if decide (location ∈ l ∧ i = j) then None else entry m location j.
Proof.
  induction l as [|x l IH]; intros m.
  { exists m. split_and!; [done..|]. intros location j. rewrite decide_False; [done|].
    intros [Hx _]. by apply not_elem_of_nil in Hx. }
  destruct (IH (remove_entry i x m)) as (m' & Hrun & Hlast & Hlazy & Hentry).
  exists m'. rewrite Hlast, Hlazy. split_and!; [done| | |].
  - unfold remove_entry. by destruct (data m !! x).
  - unfold remove_entry. by destruct (data m !! x).
  - intros location j. rewrite Hentry, entry_remove.
    destruct (decide (location ∈ l ∧ i = j)) as [[Hin ->]|Hnot].
    + by rewrite decide_True by (split; [by right|done]).
    + destruct (decide (x = location ∧ i = j)) as [[-> ->]|Hx].
      * by rewrite decide_True by (split; [by left|done]).
      * rewrite decide_False; [done|]. intros [[->|Hin]%elem_of_cons ->]; naive_solver.
Qed.

Lemma write_entries_app v ws ws' : ∀ m b,
  run (write_entries v (ws ++ ws') b) m =
  match run (write_entries v ws b) m with
  | Some (m', b') => run (write_entries v ws' b') m'
  | None => None
  end.
Proof.
  induction ws as [|[x value] ws IH]; intros m b; simpl; [done|].
  destruct (write_entry_section v x value m); [apply IH|done|done].
Qed.

Lemma write_entry_run v x value m last_loc :
  last_locations m !! tx_idx v = Some last_loc →
  write_entry_section v x value m =
  Step (mkMemory (put_entry v x value m)
          (<[tx_idx v := mkLast (last_read last_loc)
               (if decide (x ∈ last_write last_loc) then last_write last_loc else last_write last_loc ++ [x])]>
             (last_locations m)) (lazy_addresses m) (new_bytecodes m))
       (bool_decide (x ∉ last_write last_loc)).
Proof.
  intros Hl. unfold write_entry_section. rewrite Hl. fold (put_entry v x value m).
  destruct (decide (x ∈ last_write last_loc)) as [Hin|Hin].
  - rewrite bool_decide_true, bool_decide_false by tauto. unfold with_data. f_equal. f_equal.
    rewrite list_insert_id; [done|]. by destruct last_loc.
  - by rewrite bool_decide_false, bool_decide_true by tauto.
Qed.

(** The loop over the write set. *)
Lemma write_entries_run v ws m b last_loc :
  last_locations m !! tx_idx v = Some last_loc → ∃ m' lw b',
  run (write_entries v ws b) m = Some (m', b') ∧
  last_locations m' = <[tx_idx v := mkLast (last_read last_loc) lw]> (last_locations m) ∧
  lazy_addresses m' = lazy_addresses m ∧
  (∀ location, location ∈ lw ↔ location ∈ last_write last_loc ∨ location ∈ ws.*1) ∧
  (b' = true ↔ b = true ∨ ∃ location, location ∈ ws.*1 ∧ location ∉ last_write last_loc) ∧
  ∀ location j, entry m' location j =
    if decide (tx_idx v = j) then from_option (λ value, Some (Data (tx_incarnation v) value))
                                  (entry m location j) (final_write ws location)
    else entry m location j.
Proof.
  intros Hl. induction ws as [|[x value] ws IH] using rev_ind.
  { exists m, (last_write last_loc), b. simpl. split_and!; [done| |done| | |].
    - rewrite list_insert_id; [done|]. by destruct last_loc.
    - intros location. rewrite elem_of_nil. tauto.
    - split; [tauto|]. intros [?|(location & Hx & _)]; [done|]. by apply not_elem_of_nil in Hx.
    - intros location j. by destruct (decide _). }
  destruct IH as (m1 & lw & b1 & Hrun & Hlast & Hlazy & Hlw & Hb & Hentry).
  pose proof (lookup_lt_Some _ _ _ Hl) as Hlt.
  assert (Hl1 : last_locations m1 !! tx_idx v = Some (mkLast (last_read last_loc) lw))
    by (by rewrite Hlast, list_lookup_insert_eq).
  eexists _, _, _. rewrite write_entries_app, Hrun. simpl. rewrite (write_entry_run _ _ _ _ _ Hl1). simpl.
  split_and!; [done|by rewrite Hlast, list_insert_insert_eq|done| | |].
  - intros location. rewrite fmap_app, elem_of_app. simpl. rewrite list_elem_of_singleton.
    destruct (decide (x ∈ lw)) as [Hin|Hin].
    + rewrite Hlw in *. naive_solver.
    + rewrite elem_of_app, list_elem_of_singleton, Hlw. tauto.
  - rewrite orb_true_iff, bool_decide_eq_true, Hb, Hlw.
    split; [intros [[?|(y & ? & ?)]|?]|intros [?|(y & Hy & ?)]]; [by left| | |by left; left|].
    + right. exists y. rewrite fmap_app, elem_of_app. tauto.
    + right. exists x. rewrite fmap_app, elem_of_app. simpl. rewrite list_elem_of_singleton. tauto.
    + rewrite fmap_app, elem_of_app in Hy. simpl in Hy. rewrite list_elem_of_singleton in Hy.
      destruct (decide (y ∈ ws.*1)); [left; right; eauto|]. destruct Hy as [?|Hy]; [done|]. subst y. tauto.
  - intros location j. unfold entry at 1. cbn [data]. rewrite entry_put, Hentry, final_write_snoc.
    destruct (decide (tx_idx v = j)) as [->|]; [|by rewrite decide_False by tauto].
    destruct (decide (x = location)); [by rewrite decide_True|by rewrite decide_False by tauto].
Qed.

(** [record] replaces the recorded reads and the entries of the transaction by those
    of the new incarnation, leaves the entries of every other transaction alone, and
    reports whether a location was written that the last incarnation did not write. *)
Lemma record_spec v read_set write_set m last_loc :
  last_locations m !! tx_idx v = Some last_loc → ∃ m' lw b,
  run (record v read_set write_set) m = Some (m', b) ∧
  last_locations m' = <[tx_idx v := mkLast read_set lw]> (last_locations m) ∧
  lazy_addresses m' = lazy_addresses m ∧
  (∀ location, location ∈ lw ↔ location ∈ write_set.*1) ∧
  (b = true ↔ ∃ location, location ∈ write_set.*1 ∧ location ∉ last_write last_loc) ∧
  (∀ location j, j ≠ tx_idx v → entry m' location j = entry m location j) ∧
  (∀ location, entry m' location (tx_idx v) =
    match final_write write_set location with
    | Some value => Some (Data (tx_incarnation v) value)
    | None => if decide (location ∈ last_write last_loc) then None else entry m location (tx_idx v)
    end).
Proof.
  intros Hl. pose proof (lookup_lt_Some _ _ _ Hl) as Hlt. unfold record. simpl.
  unfold begin_record_section. rewrite Hl. simpl.
  destruct (split_stale _ _ _ _ _) as [kept removed] eqn:Hs.
  apply split_stale_run in Hs as (Hperm & Hkept & Hremoved).
  rewrite Forall_forall in Hkept, Hremoved.
  destruct (remove_entries_run (tx_idx v) removed (with_last m (tx_idx v) (mkLast read_set kept)))
    as (m1 & Hrun1 & Hlast1 & Hlazy1 & Hentry1).
  destruct (write_entries_run v write_set m1 false (mkLast read_set kept))
    as (m2 & lw & b & Hrun2 & Hlast2 & Hlazy2 & Hlw & Hb & Hentry2).
  { rewrite Hlast1. simpl. by apply list_lookup_insert_eq. }
  exists m2, lw, b. rewrite run_bind, Hrun1, Hrun2, Hlast2, Hlast1, Hlazy2, Hlazy1. simpl in *.
  rewrite list_insert_insert_eq. split_and!; [done|done|done| | | |].
  - intros location. rewrite Hlw. split; [intros [?|?]|]; eauto.
  - rewrite Hb. setoid_rewrite (elem_of_Permutation_proper _ _ _ Hperm). setoid_rewrite elem_of_app.
    split; [intros [?|(y & ? & ?)]|intros (y & ? & ?)]; [done| |]; eauto 10.
    exists y. split; [done|]. intros [?|Hy]; [done|]. by apply (Hremoved y).
  - intros location j Hj. rewrite Hentry2, Hentry1, !decide_False by naive_solver. done.
  - intros location. rewrite Hentry2, Hentry1, decide_True by done.
    destruct (final_write write_set location) as [value|] eqn:Hw; simpl; [done|].
    apply final_write_None in Hw. fold (entry m location (tx_idx v)).
    destruct (decide (location ∈ removed ∧ tx_idx v = tx_idx v)) as [[Hin _]|Hnot].
    + rewrite decide_True; [done|]. rewrite Hperm, elem_of_app. tauto.
    + rewrite decide_False; [done|]. rewrite Hperm, elem_of_app. intros [Hk|Hr]; [|by apply Hnot].
      by apply Hw, Hkept.
Qed.

(** [record] stores the outcome of an incarnation exactly: afterwards the recorded
    reads and written locations are those of this execution, the transaction has the data
    of its last write at every written location and no entry left at a location only an
    earlier incarnation wrote, entries of other transactions are unchanged, and the result
    says whether a location was written that the previous incarnation had not. *)
Theorem record_correct v read_set write_set m last_loc :
  last_locations m !! tx_idx v = Some last_loc →
  (∀ location, is_Some (entry m location (tx_idx v)) → location ∈ last_write last_loc) → ∃ m' b,
  run (record v read_set write_set) m = Some (m', b) ∧
  (∃ lw, last_locations m' !! tx_idx v = Some (mkLast read_set lw) ∧
         ∀ location, location ∈ lw ↔ location ∈ write_set.*1) ∧
  (∀ j, j ≠ tx_idx v → last_locations m' !! j = last_locations m !! j) ∧
  (∀ location j, j ≠ tx_idx v → entry m' location j = entry m location j) ∧
  (∀ location, entry m' location (tx_idx v) = Data (tx_incarnation v) <$> final_write write_set location) ∧
  (b = true ↔ ∃ location, location ∈ write_set.*1 ∧ location ∉ last_write last_loc).
Proof.
  intros Hl Howned. pose proof (lookup_lt_Some _ _ _ Hl) as Hlt.
  destruct (record_spec v read_set write_set m last_loc Hl)
    as (m' & lw & b & Hrun & Hlast & _ & Hlw & Hb & Hothers & Hown).
  exists m', b. rewrite Hlast. split_and!; [done| | |done| |done].
  - exists lw. by rewrite list_lookup_insert_eq.
  - intros j Hj. by rewrite list_lookup_insert_ne.
  - intros location. rewrite Hown. destruct (final_write write_set location); simpl; [done|].
    destruct (decide _) as [|Hnot]; [done|]. destruct (entry m location (tx_idx v)) eqn:He; [|done].
    destruct Hnot. apply Howned. by rewrite He.
Qed.

(** A memory in which transaction 1 wrote location 7 in its first incarnation. *)
Definition sample_memory : MvMemory :=
  mkMemory {[ 7%N := {[ 1%nat := Estimate ]} ]} [mkLast ∅ []; mkLast ∅ [7%N]] ∅ ∅.

Lemma record_correct_witness : ∃ m' b,
  run (record (mkVersion 1%nat 1%nat) ∅ [(8%N, StorageValue 5)]) sample_memory = Some (m', b) ∧
  entry m' 7%N 1%nat = None ∧ entry m' 8%N 1%nat = Some (Data 1%nat (StorageValue 5)) ∧ b = true.
Proof.
  destruct (record_correct (mkVersion 1%nat 1%nat) ∅ [(8%N, StorageValue 5)] sample_memory (mkLast ∅ [7%N]))
    as (m' & b & Hrun & _ & _ & _ & Hown & Hb).
  - reflexivity.
  - intros location. unfold entry, sample_memory. simpl.
    destruct (decide (location = 7%N)) as [->|Hne]; [intros _; by left|].
    rewrite lookup_singleton_ne by done. intros [? ?]. discriminate.
  - exists m', b. split; [exact Hrun|]. simpl in Hown. rewrite !Hown. split; [reflexivity|].
    split; [reflexivity|]. apply Hb. exists 8%N. split; [by left|]. simpl.
    rewrite list_elem_of_singleton. done.
Defined.
