(* ===== verification/VmDb.v ===== *)
(** * Reads of the virtual machine

    Models [VmDb] of src/pevm/crates/pevm/src/vm.rs, the database the EVM reads
    through while it executes a transaction: every read is served from the
    multi-version memory or from storage, and its origins are recorded in the read set.
    An access reads one entry of the memory under the lock of its shard, so it is
    a function of the memory at that moment and of the database; it returns the database,
    changed also when it fails, and a result. An execution is a [reader] that makes such
    accesses one after the other. Storage is an interface of the program
    ([Storage], storage.rs); the hash of a location and the conversion of bytecode are
    parameters. [evm] stands for the EVM: a deterministic program that issues reads. *)

From S2P Require Import Prelude PevmTypes Concurrent MvMemory.

(** ** 256-bit arithmetic *)

Definition U256_MAX : N := 2 ^ 256 - 1.
Definition saturating_add (a b : N) : N := N.min (a + b) U256_MAX.
Definition saturating_sub (a b : N) : N := a - b.
Definition abs_diff (a b : N) : N := if bool_decide (a <= b) then b - a else a - b.

(** ** Types *)

Inductive MemoryLocation := BasicLocation (a : N) | CodeHashLocation (a : N) | StorageLocation (a i : N).

Inductive ReadError :=
| StorageError (e : N)
| BlockingEstimate (i : TxIdx)
| BlockingNonce (i : TxIdx)
| InconsistentRead
| InvalidNonce (i : TxIdx)
| SelfDestructedAccount
| InvalidBytecode (e : N)
| InvalidMemoryValueType.

(** The [Storage] trait; [inl] is an error of the storage. *)
Class Storage := {
  storage_basic : N → N + option AccountBasic;
  storage_code_hash : N → N + option N;
  storage_code_by_hash : N → N + option N;
  storage_has_storage : N → N + bool;
  storage_storage : N → N → N + N;
  storage_block_hash : N → N + N }.

(** The fields of a transaction that the executor looks at; [tx_value] and the fees
    are 256-bit integers, [total_blob_gas] is the blob gas of the transaction. *)
Record TxEnv := mkTxEnv {
  caller : N;
  transact_to : option N;
  tx_nonce : option N;
  tx_value : N;
  gas_limit : N;
  gas_price : N;
  gas_priority_fee : option N;
  max_fee_per_blob_gas : option N;
  total_blob_gas : N }.

Record AccountInfo := mkInfo {
  info_nonce : N; info_balance : N; info_code_hash : N; info_code : option N }.

Definition KECCAK_EMPTY : N := 0xc5d2460186f7233c927e7db2dcc703c0e500b653ca82273b7bfad8045d85a470.

Record VmDb := mkVmDb {
  db_tx_idx : TxIdx;
  db_tx : TxEnv;
  from_hash : MemoryLocationHash;
  to_hash : option MemoryLocationHash;
  to_code_hash : option N;
  is_lazy : bool;
  read_set : ReadSet;
  storage_read_keys : gset MemoryLocationHash;
  read_accounts : gmap MemoryLocationHash (AccountBasic * option N) }.

Definition with_read (db : VmDb) (l : MemoryLocationHash) (o : ReadOrigins) : VmDb :=
  mkVmDb (db_tx_idx db) (db_tx db) (from_hash db) (to_hash db) (to_code_hash db) (is_lazy db)
    (<[l := o]> (read_set db)) (storage_read_keys db) (read_accounts db).
Definition with_storage_key (db : VmDb) (l : MemoryLocationHash) : VmDb :=
  mkVmDb (db_tx_idx db) (db_tx db) (from_hash db) (to_hash db) (to_code_hash db) (is_lazy db)
    (read_set db) ({[l]} ∪ storage_read_keys db) (read_accounts db).
Definition with_account (db : VmDb) (l : MemoryLocationHash) (a : AccountBasic * option N) : VmDb :=
  mkVmDb (db_tx_idx db) (db_tx db) (from_hash db) (to_hash db) (to_code_hash db) (is_lazy db)
    (read_set db) (storage_read_keys db) (<[l := a]> (read_accounts db)).
Definition with_code_hash (db : VmDb) (h : option N) (lazy : bool) : VmDb :=
  mkVmDb (db_tx_idx db) (db_tx db) (from_hash db) (to_hash db) h lazy
    (read_set db) (storage_read_keys db) (read_accounts db).

(** [self.read_set.entry(l).or_default()] *)
Definition origins_of (db : VmDb) (l : MemoryLocationHash) : ReadOrigins := default [] (read_set db !! l).

(** A fallible operation on the database. *)
Definition db_op (A : Type) : Type := VmDb → VmDb * (ReadError + A).
Definition db_bind {A B} (p : db_op A) (f : A → db_op B) : db_op B := λ db,
  match p db with (db, inr a) => f a db | (db, inl e) => (db, inl e) end.
Definition db_try {A} (r : ReadError + A) : db_op A := λ db, (db, r).

Section vm_db.
Context (hash_deterministic : MemoryLocation → MemoryLocationHash).
Context {st : Storage}.
(** [Bytecode::try_from] *)
Context (bytecode_of : N → N + N).

Definition map_err {A} (r : N + A) : ReadError + A :=
  match r with inl e => inl (StorageError e) | inr a => inr a end.
Definition convert (c : N) : ReadError + N :=
  match bytecode_of c with inl e => inl (InvalidBytecode e) | inr b => inr b end.

Definition hash_basic (db : VmDb) (address : N) : MemoryLocationHash :=
  if bool_decide (address = caller (db_tx db)) then from_hash db
  else match transact_to (db_tx db), to_hash db with
       | Some to, Some h => if bool_decide (to = address) then h else hash_deterministic (BasicLocation address)
       | _, _ => hash_deterministic (BasicLocation address)
       end.

(** [push_origin] on the origins of a location *)
Definition push_origin (read_origins : ReadOrigins) (origin : ReadOrigin) : ReadError + ReadOrigins :=
  match last read_origins with
  | Some prev_origin => if bool_decide (prev_origin = origin) then inr read_origins else inl InconsistentRead
  | None => inr (read_origins ++ [origin])
  end.

Definition push (l : MemoryLocationHash) (origin : ReadOrigin) : db_op unit := λ db,
  match push_origin (origins_of db l) origin with
  | inl e => (with_read db l (origins_of db l), inl e)
  | inr o => (with_read db l o, inr tt)
  end.

(** The entry closest below the transaction: [range(..tx_idx).next_back()]. *)
Definition closest (m : MvMemory) (l : MemoryLocationHash) (i : TxIdx) : option (TxIdx * MemoryEntry) :=
  match data m !! l with
  | Some written => head (entries_below written i)
  | None => None
  end.

Definition get_code_hash (m : MvMemory) (address : N) : db_op (option N) := λ db,
  let l := hash_deterministic (CodeHashLocation address) in
  let from_storage := db_bind (push l StorageOrigin) (λ _, db_try (map_err (storage_code_hash address))) in
  match closest m l (db_tx_idx db) with
  | Some (_, Data _ SelfDestructed) => (with_read db l (origins_of db l), inl SelfDestructedAccount)
  | Some (j, Data k (CodeHashValue h)) =>
      db_bind (push l (MvMemoryOrigin (mkVersion j k))) (λ _, db_try (inr (Some h))) db
  | _ => from_storage db
  end.

(** *** basic *)

(** The variables of the loop that evaluates lazy updates. *)
Record scan := mkScan {
  final_account : option AccountBasic;
  balance_addition : N;
  positive_addition : bool;
  nonce_addition : N;
  new_origins : ReadOrigins }.

Definition add_recipient (sc : scan) (addition : N) : scan :=
  if positive_addition sc
  then mkScan (final_account sc) (saturating_add (balance_addition sc) addition) true (nonce_addition sc) (new_origins sc)
  else mkScan (final_account sc) (abs_diff (balance_addition sc) addition)
         (bool_decide (balance_addition sc <= addition)) (nonce_addition sc) (new_origins sc).
Definition add_sender (sc : scan) (subtraction : N) : scan :=
  if positive_addition sc
  then mkScan (final_account sc) (abs_diff (balance_addition sc) subtraction)
         (bool_decide (subtraction <= balance_addition sc)) (u64_add (nonce_addition sc) 1) (new_origins sc)
  else mkScan (final_account sc) (saturating_add (balance_addition sc) subtraction) false
         (u64_add (nonce_addition sc) 1) (new_origins sc).
Definition add_origin (sc : scan) (o : ReadOrigin) : scan :=
  mkScan (final_account sc) (balance_addition sc) (positive_addition sc) (nonce_addition sc) (new_origins sc ++ [o]).
Definition set_account (sc : scan) (b : AccountBasic) : scan :=
  mkScan (Some b) (balance_addition sc) (positive_addition sc) (nonce_addition sc) (new_origins sc).

Fixpoint scan_entries (read_origins : ReadOrigins) (iter : list (TxIdx * MemoryEntry)) (sc : scan)
    : ReadError + scan :=
  let has_prev_origins := negb (bool_decide (read_origins = [])) in
  match iter with
  | [] => inr sc
  | (blocking_idx, Estimate) :: _ => inl (BlockingEstimate blocking_idx)
  | (closest_idx, Data k value) :: iter =>
      let origin := MvMemoryOrigin (mkVersion closest_idx k) in
      if has_prev_origins && bool_decide (length read_origins = length (new_origins sc)) then inl InconsistentRead
      else if has_prev_origins && negb (bool_decide (read_origins !! length (new_origins sc) = Some origin))
      then inl InconsistentRead
      else
        let sc := add_origin sc origin in
        match value with
        | BasicValue basic => inr (set_account sc basic)
        | LazyRecipient addition => scan_entries read_origins iter (add_recipient sc addition)
        | LazySender subtraction => scan_entries read_origins iter (add_sender sc subtraction)
        | _ => inl InvalidMemoryValueType
        end
  end.

(** The entries [basic] walks through. *)
Definition entries_read (m : MvMemory) (l : MemoryLocationHash) (i : TxIdx) : list (TxIdx * MemoryEntry) :=
  match data m !! l with Some written => entries_below written i | None => [] end.

(** The origins and the account after the fallback to storage. *)
Definition scan_storage (read_origins : ReadOrigins) (address : N) (sc : scan)
    : ReadError + (ReadOrigins * option AccountBasic) :=
  match final_account sc with
  | Some a => inr (new_origins sc, Some a)
  | None =>
      if negb (bool_decide (read_origins = [])) &&
         (negb (bool_decide (length read_origins = S (length (new_origins sc)))) ||
          negb (bool_decide (last read_origins = Some StorageOrigin)))
      then inl InconsistentRead
      else
        let origins := if bool_decide (read_origins = []) then new_origins sc ++ [StorageOrigin]
                       else new_origins sc in
        match storage_basic address with
        | inl e => inl (StorageError e)
        | inr (Some basic) => inr (origins, Some basic)
        | inr None => inr (origins, if bool_decide (0 < balance_addition sc) then Some (mkAccount 0 0) else None)
        end
  end.

(** The code of an account: [codes] are the bytecodes deployed in this block. *)
Definition fetch_code (codes : N → option N) (code_hash : option N) : ReadError + option N :=
  match code_hash with
  | None => inr None
  | Some h =>
      match codes h with
      | Some code => inr (Some code)
      | None =>
          match storage_code_by_hash h with
          | inl e => inl (StorageError e)
          | inr None => inr None
          | inr (Some c) => match convert c with inl e => inl e | inr b => inr (Some b) end
          end
      end
  end.

(** [basic] accesses the memory up to three times: it walks through the entries of the
    account, reads the code hash, and looks up the bytecode. [inl] is an early result. *)
Definition basic_entries (m : MvMemory) (address : N)
    : db_op (option AccountInfo + scan * AccountBasic) := λ db,
  let l := hash_basic db address in
  if is_lazy db && bool_decide (l = from_hash db) then
    (db, inr (inl (Some (mkInfo (default 1 (tx_nonce (db_tx db))) U256_MAX KECCAK_EMPTY None))))
  else if is_lazy db && bool_decide (Some l = to_hash db) then (db, inr (inl None))
  else
    let read_origins := origins_of db l in
    let db0 := with_read db l read_origins in
    match scan_entries read_origins
            (if bool_decide (0 < db_tx_idx db)%nat then entries_read m l (db_tx_idx db) else [])
            (mkScan None 0 true 0 []) with
    | inl e => (db0, inl e)
    | inr sc =>
        match scan_storage read_origins address sc with
        | inl e => (db0, inl e)
        | inr (origins, account) =>
            let db1 := with_read db l (if bool_decide (read_origins = []) then origins else read_origins) in
            (db1, inr (match account with None => inl None | Some account => inr (sc, account) end))
        end
    end.

(** The nonce check, the balance and the code hash. *)
Definition basic_code_hash (m : MvMemory) (address : N) (sc : scan) (account : AccountBasic)
    : db_op (AccountBasic * option N) := λ db,
  let l := hash_basic db address in
  let account := mkAccount (balance account) (u64_add (nonce account) (nonce_addition sc)) in
  if bool_decide (l = from_hash db) &&
     match tx_nonce (db_tx db) with Some x => negb (bool_decide (x = nonce account)) | None => false end
  then (db, inl (if bool_decide (0 < db_tx_idx db)%nat then BlockingNonce (db_tx_idx db - 1)
                 else InvalidNonce (db_tx_idx db)))
  else
    let account := mkAccount
      (if positive_addition sc then saturating_add (balance account) (balance_addition sc)
       else saturating_sub (balance account) (balance_addition sc)) (nonce account) in
    db_bind (if bool_decide (Some l = to_hash db) then db_try (inr (to_code_hash db))
             else get_code_hash m address) (λ code_hash, db_try (inr (account, code_hash))) db.

Definition basic_code (codes : N → option N) (address : N) (account : AccountBasic) (code_hash : option N)
    : db_op (option AccountInfo) := λ db,
  let l := hash_basic db address in
  db_bind (db_try (fetch_code codes code_hash)) (λ code,
    λ db, (with_account db l (account, code_hash),
           inr (Some (mkInfo (nonce account) (balance account) (default KECCAK_EMPTY code_hash) code)))) db.

(** *** The other reads *)

Definition storage_read (m : MvMemory) (address index : N) (l : MemoryLocationHash) : db_op N := λ db,
  let from_storage := db_bind (push l StorageOrigin) (λ _, db_try (map_err (storage_storage address index))) in
  if bool_decide (0 < db_tx_idx db)%nat then
    match closest m l (db_tx_idx db) with
    | Some (j, Data k (StorageValue value)) =>
        db_bind (push l (MvMemoryOrigin (mkVersion j k))) (λ _, db_try (inr value)) db
    | Some (j, Estimate) => (with_read db l (origins_of db l), inl (BlockingEstimate j))
    | Some _ => (with_read db l (origins_of db l), inl InvalidMemoryValueType)
    | None => from_storage db
    end
  else from_storage db.

Definition storage (m : MvMemory) (address index : N) : db_op N := λ db,
  let l := hash_deterministic (StorageLocation address index) in
  storage_read m address index l (with_storage_key db l).

Definition code_by_hash (h : N) : db_op N :=
  db_bind (db_try (map_err (storage_code_by_hash h))) (λ c,
    match c with Some c => db_try (convert c) | None => db_try (inr 0) end).
Definition has_storage (a : N) : db_op bool := db_try (map_err (storage_has_storage a)).
Definition block_hash (x : N) : db_op N := db_try (map_err (storage_block_hash x)).
End vm_db.

(** ** Executions

    The EVM issues reads one after the other; the memory may change between two accesses.
    [evm] is the EVM seen from the database: it asks for accounts, slots, codes and
    block hashes, and ends in an outcome. *)
Inductive evm (Out : Type) :=
| EvmDone (o : Out)
| EvmBasic (a : N) (k : option AccountInfo → evm Out)
| EvmStorage (a i : N) (k : N → evm Out)
| EvmCodeByHash (h : N) (k : N → evm Out)
| EvmHasStorage (a : N) (k : bool → evm Out)
| EvmBlockHash (x : N) (k : N → evm Out).
Arguments EvmDone {Out} _.
Arguments EvmBasic {Out} _ _.
Arguments EvmStorage {Out} _ _ _.
Arguments EvmCodeByHash {Out} _ _.
Arguments EvmHasStorage {Out} _ _.
Arguments EvmBlockHash {Out} _ _.

(** An operation on the database that accesses the memory any number of times. *)
Definition db_reader (A : Type) : Type := VmDb → reader MvMemory (VmDb * (ReadError + A)).
Definition access {A} (f : MvMemory → db_op A) : db_reader A := λ db, RLoad (λ m, RDone (f m db)).
Definition lift {A} (p : db_op A) : db_reader A := λ db, RDone (p db).
Definition rbind {A B} (p : db_reader A) (f : A → db_reader B) : db_reader B := λ db,
  reader_bind (p db) (λ '(db, r), match r with inr a => f a db | inl e => RDone (db, inl e) end).

Section executions.
Context (hash_deterministic : MemoryLocation → MemoryLocationHash).
Context {st : Storage} (bytecode_of : N → N + N) {Out : Type}.

Definition contains_key (l : MemoryLocationHash) (m : MvMemory) : bool := bool_decide (is_Some (data m !! l)).

(** [VmDb::new] on the empty database: a call of an account without code is lazy if
    its sender or recipient is in the memory. *)
Definition VmDb_init (db : VmDb) : reader MvMemory (ReadError + VmDb) :=
  match transact_to (db_tx db) with
  | None => RDone (inr db)
  | Some to =>
      RLoad (λ m,
        match get_code_hash hash_deterministic m to db with
        | (_, inl e) => RDone (inl e)
        | (db, inr (Some h)) => RDone (inr (with_code_hash db (Some h) false))
        | (db, inr None) =>
            RLoad (λ m,
              if contains_key (from_hash db) m then RDone (inr (with_code_hash db None true))
              else match to_hash db with
                   | Some t => RLoad (λ m, RDone (inr (with_code_hash db None (contains_key t m))))
                   | None => RDone (inr (with_code_hash db None false))
                   end)
        end)
  end.
Definition VmDb_empty (i : TxIdx) (tx : TxEnv) : VmDb :=
  mkVmDb i tx (hash_deterministic (BasicLocation (caller tx)))
    (hash_deterministic ∘ BasicLocation <$> transact_to tx) None false ∅ ∅ ∅.
Definition VmDb_new (i : TxIdx) (tx : TxEnv) : reader MvMemory (ReadError + VmDb) :=
  VmDb_init (VmDb_empty i tx).

Definition basic (address : N) : db_reader (option AccountInfo) :=
  rbind (access (λ m, basic_entries hash_deterministic m address)) (λ r,
    match r with
    | inl info => lift (db_try (inr info))
    | inr (sc, account) =>
        rbind (access (λ m, basic_code_hash hash_deterministic m address sc account)) (λ '(account, code_hash),
          access (λ m, basic_code hash_deterministic bytecode_of (λ h, new_bytecodes m !! h) address account code_hash))
    end).

(** [evm.transact()]: an error of the database ends the execution. *)
Fixpoint transact (e : evm Out) : db_reader Out :=
  match e with
  | EvmDone o => lift (db_try (inr o))
  | EvmBasic a k => rbind (basic a) (λ r, transact (k r))
  | EvmStorage a i k => rbind (access (λ m, storage hash_deterministic m a i)) (λ r, transact (k r))
  | EvmCodeByHash h k => rbind (lift (code_by_hash bytecode_of h)) (λ r, transact (k r))
  | EvmHasStorage a k => rbind (lift (has_storage a)) (λ r, transact (k r))
  | EvmBlockHash x k => rbind (lift (block_hash x)) (λ r, transact (k r))
  end.
End executions.

(** ** Repeating a read *)

(** A version of a location has one value. *)
Definition same_versions (m m' : MvMemory) : Prop := ∀ l j k v v',
  entry m l j = Some (Data k v) → entry m' l j = Some (Data k v') → v = v'.

(** A memory in which a version has the value [vals] gives it, and a deployed code hash
    the bytecode it is the hash of. *)
Record mem_ok (vals : MemoryLocationHash → TxIdx → TxIncarnation → option MemoryValue) (code_of : N → N)
    (m : MvMemory) : Prop := mkMemOk {
  ok_vals : ∀ l j k v, entry m l j = Some (Data k v) → vals l j k = Some v;
  ok_deployed : ∀ l j k h, entry m l j = Some (Data k (CodeHashValue h)) → new_bytecodes m !! h = Some (code_of h);
  ok_codes : ∀ h x, new_bytecodes m !! h = Some x → x = code_of h }.

(** Storage has the bytecode of every code hash it knows. *)
Definition storage_has_code {st : Storage} (bytecode_of : N → N + N) (code_of : N → N) : Prop :=
  ∀ a h, storage_code_hash a = inr (Some h) →
    ∃ c, storage_code_by_hash h = inr (Some c) ∧ bytecode_of c = inr (code_of h).

Lemma entries_below_entry m l w i j e :
  data m !! l = Some w → (j, e) ∈ entries_below w i → entry m l j = Some e.
Proof.
  intros Hw Hin. unfold entry. rewrite Hw. simpl. unfold entries_below in Hin.
  apply list_elem_of_omap in Hin as (j' & _ & Hj'). destruct (w !! j') as [e'|] eqn:He; [|done].
  simpl in Hj'. by simplify_eq.
Qed.

Lemma entries_read_entry m l i j e : (j, e) ∈ entries_read m l i → entry m l j = Some e.
Proof.
  unfold entries_read. destruct (data m !! l) as [w|] eqn:Hw; [by apply entries_below_entry|].
  intros Hin. by apply not_elem_of_nil in Hin.
Qed.

Lemma closest_read m l i : closest m l i = head (entries_read m l i).
Proof. unfold closest, entries_read. by destruct (data m !! l). Qed.

(** The memory still has the origins of a read. *)
Definition confirmed (m : MvMemory) (i : TxIdx) (l : MemoryLocationHash) (o : ReadOrigins) : Prop :=
  check_origins (entries_read m l i) o = true.

(** What a valid read set entry says about the entries a read walks through. *)
Lemma valid_entries m l i o : valid_location m i l o = true → confirmed m i l o.
Proof.
  unfold valid_location, confirmed, entries_read. destruct (data m !! l); [done|].
  by intros ->%bool_decide_eq_true.
Qed.

Lemma check_origins_mem iter j k o :
  check_origins iter (MvMemoryOrigin (mkVersion j k) :: o) = true →
  ∃ v iter', iter = (j, Data k v) :: iter' ∧ check_origins iter' o = true.
Proof.
  simpl. destruct iter as [|[j' [k' v|]] iter']; [done| |done].
  destruct (bool_decide (j' = j) && bool_decide (k = k')) eqn:Hb; [|done].
  apply andb_true_iff in Hb as [->%bool_decide_eq_true ->%bool_decide_eq_true]. eauto.
Qed.

Lemma check_origins_storage iter o : check_origins iter (StorageOrigin :: o) = true → iter = [].
Proof. by destruct iter. Qed.

(** The scan over the entries of another memory repeats the one over those of [m], if
    they begin with the same versions, and end where it fell back to storage. *)
Lemma scan_repeats read_origins iter : ∀ sc sc1,
  scan_entries read_origins iter sc = inr sc1 → final_account sc = None →
  ∃ vs, new_origins sc1 = new_origins sc ++ vs ∧ (final_account sc1 = None ∨ vs ≠ []) ∧ ∀ rest iter',
    check_origins iter' (vs ++ rest) = true →
    (final_account sc1 = None → head rest = Some StorageOrigin) →
    (∀ j k v v', (j, Data k v) ∈ iter → (j, Data k v') ∈ iter' → v = v') →
    scan_entries read_origins iter' sc = inr sc1.
Proof.
  induction iter as [|[c [k value|]] iter IH]; intros sc sc1 Hscan Hfinal; cbn [scan_entries] in Hscan; [| |done].
  { injection Hscan as <-. exists []. rewrite app_nil_r. split_and!; [done|by left|].
    intros [|o rest] iter' Hc Hr _; [by specialize (Hr Hfinal)|]. injection (Hr Hfinal) as ->.
    by apply check_origins_storage in Hc as ->. }
  set (o := MvMemoryOrigin (mkVersion c k)) in *.
  destruct (negb _ && bool_decide (length _ = _)) eqn:H1; [done|].
  destruct (negb _ && negb _) eqn:H2; [done|].
  assert (Hstep : ∀ vs rest iter',
    check_origins iter' ((o :: vs) ++ rest) = true →
    (∀ j k' v v', (j, Data k' v) ∈ (c, Data k value) :: iter → (j, Data k' v') ∈ iter' → v = v') →
    ∃ iter2, iter' = (c, Data k value) :: iter2 ∧ check_origins iter2 (vs ++ rest) = true ∧
      ∀ j k' v v', (j, Data k' v) ∈ iter → (j, Data k' v') ∈ iter2 → v = v').
  { intros vs rest iter' Hc Hv. apply check_origins_mem in Hc as (v' & iter2 & -> & Hc).
    assert (value = v') as <- by (eapply Hv; by left). exists iter2. split_and!; [done..|].
    intros j k' v1 v2 Hin1 Hin2. eapply Hv; by right. }
  assert (Hrec : ∀ sc2, scan_entries read_origins iter sc2 = inr sc1 → final_account sc2 = None →
    new_origins sc2 = new_origins sc ++ [o] →
    (∀ iter2, scan_entries read_origins ((c, Data k value) :: iter2) sc = scan_entries read_origins iter2 sc2) →
    ∃ vs, new_origins sc1 = new_origins sc ++ vs ∧ (final_account sc1 = None ∨ vs ≠ []) ∧ ∀ rest iter',
      check_origins iter' (vs ++ rest) = true → (final_account sc1 = None → head rest = Some StorageOrigin) →
      (∀ j k' v v', (j, Data k' v) ∈ (c, Data k value) :: iter → (j, Data k' v') ∈ iter' → v = v') →
      scan_entries read_origins iter' sc = inr sc1).
  { intros sc2 Hs Hf Ho Heq. destruct (IH sc2 sc1 Hs Hf) as (vs & Hvs & _ & Hrep). exists (o :: vs).
    split_and!; [by rewrite Hvs, Ho, <-app_assoc|by right|]. intros rest iter' Hc Hr Hv.
    destruct (Hstep vs rest iter' Hc Hv) as (iter2 & -> & Hc2 & Hv2). rewrite Heq. by eapply Hrep. }
  destruct value as [b| | |add|sub|]; try done.
  - injection Hscan as <-. exists [o]. split_and!; [done|by right|]. intros rest iter' Hc _ Hv.
    destruct (Hstep [] rest iter' Hc Hv) as (iter2 & -> & _). cbn [scan_entries]. fold o. by rewrite H1, H2.
  - eapply Hrec; [done| | |]; [by unfold add_recipient; destruct (positive_addition _)..|].
    intros iter2. cbn [scan_entries]. fold o. by rewrite H1, H2.
  - eapply Hrec; [done| | |]; [by unfold add_sender; destruct (positive_addition _)..|].
    intros iter2. cbn [scan_entries]. fold o. by rewrite H1, H2.
Qed.

(** ** Repeating an execution *)

Section repeats.
Context (hash_deterministic : MemoryLocation → MemoryLocationHash).
Context {st : Storage} (bytecode_of : N → N + N).
(** The code identifies a location with its hash. *)
Context (hash_inj : Inj (=) (=) hash_deterministic).

(** The database between two reads. *)
Record db_wf (db : VmDb) : Prop := mkDbWf {
  wf_from : from_hash db = hash_deterministic (BasicLocation (caller (db_tx db)));
  wf_to : to_hash db = hash_deterministic ∘ BasicLocation <$> transact_to (db_tx db);
  wf_nonempty : ∀ l o, read_set db !! l = Some o → o ≠ [];
  wf_single : ∀ l o, read_set db !! l = Some o → (∀ a, l ≠ hash_deterministic (BasicLocation a)) → ∃ x, o = [x] }.

(** What a successful read keeps. *)
Record extends (db db' : VmDb) : Prop := mkExtends {
  ext_idx : db_tx_idx db' = db_tx_idx db;
  ext_tx : db_tx db' = db_tx db;
  ext_to : to_code_hash db' = to_code_hash db;
  ext_reads : read_set db ⊆ read_set db' }.

Definition reads_valid (m : MvMemory) (db : VmDb) : Prop :=
  ∀ l o, read_set db !! l = Some o → confirmed m (db_tx_idx db) l o.

(** [p] extends the database, and [p'] does the same whenever [m'] confirms its reads. *)
Definition repeatable {A} (m' : MvMemory) (p p' : db_op A) : Prop := ∀ db db' r,
  db_wf db → p db = (db', inr r) →
  db_wf db' ∧ extends db db' ∧ (reads_valid m' db' → p' db = (db', inr r)).

Lemma extends_trans db1 db2 db3 : extends db1 db2 → extends db2 db3 → extends db1 db3.
Proof. intros [] []. split; [congruence..|]. by etransitivity. Qed.

Lemma reads_valid_sub m db db' : extends db db' → reads_valid m db' → reads_valid m db.
Proof. intros [Hi _ Hs] Hv l o Hl. rewrite <-Hi. apply Hv. by eapply lookup_weaken. Qed.

Lemma repeatable_bind {A B} m' (p p' : db_op A) (f f' : A → db_op B) :
  repeatable m' p p' → (∀ a, repeatable m' (f a) (f' a)) → repeatable m' (db_bind p f) (db_bind p' f').
Proof.
  intros Hp Hf db db' r Hwf. unfold db_bind. destruct (p db) as [db1 [e|a]] eqn:Hdb1; [done|]. intros Hdb'.
  destruct (Hp db db1 a Hwf Hdb1) as (Hwf1 & He1 & Hrep1).
  destruct (Hf a db1 db' r Hwf1 Hdb') as (Hwf2 & He2 & Hrep2).
  split_and!; [done|by eapply extends_trans|]. intros Hv.
  rewrite Hrep1 by (by eapply reads_valid_sub). by apply Hrep2.
Qed.

Lemma repeatable_try {A} m' (r : ReadError + A) : repeatable m' (db_try r) (db_try r).
Proof. intros db db' a Hwf [= <- ->]. split_and!; [done|by split|done]. Qed.

Lemma hash_basic_wf db a : db_wf db → hash_basic hash_deterministic db a = hash_deterministic (BasicLocation a).
Proof.
  intros [Hf Ht _ _]. unfold hash_basic. case_bool_decide as Ha; [by rewrite Hf, Ha|]. rewrite Ht.
  destruct (transact_to (db_tx db)) as [to|]; [|done]. simpl.
  case_bool_decide as Hto; [by rewrite <-Hto|done].
Qed.

(** A location that is not an account is read from one place. *)
Lemma push_spec l origin db db' :
  db_wf db → (∀ a, l ≠ hash_deterministic (BasicLocation a)) → push l origin db = (db', inr tt) →
  db_wf db' ∧ extends db db' ∧ read_set db' !! l = Some [origin].
Proof.
  intros Hwf Hl. unfold push, push_origin, origins_of.
  destruct (read_set db !! l) as [o|] eqn:Ho; simpl.
  - destruct (wf_single db Hwf l o Ho Hl) as [x ->]. simpl. case_bool_decide as Hx; [|done]. intros [= <-]. subst x.
    assert (Hsame : with_read db l [origin] = db).
    { unfold with_read. rewrite insert_id by done. by destruct db. }
    rewrite Hsame. split_and!; [done|by split|done].
  - intros [= <-]. destruct Hwf as [H1 H2 H3 H4]. split_and!.
    + split; simpl; [done|done| |]; intros l' o'; rewrite lookup_insert_Some; naive_solver.
    + split; simpl; [done|done|done|]. by apply insert_subseteq.
    + simpl. by rewrite lookup_insert_eq.
Qed.

(** A read with a single origin, then a result that does not depend on the memory. *)
Lemma single_repeatable {A} m' l origin (r : ReadError + A) p' :
  (∀ a, l ≠ hash_deterministic (BasicLocation a)) →
  (∀ db, confirmed m' (db_tx_idx db) l [origin] → p' db = db_bind (push l origin) (λ _, db_try r) db) →
  repeatable m' (db_bind (push l origin) (λ _, db_try r)) p'.
Proof.
  intros Hl Hp' db db' a Hwf Hdb.
  assert (Hpush : push l origin db = (db', inr tt)).
  { unfold db_bind in Hdb. destruct (push l origin db) as [db1 [e|[]]]; [done|]. injection Hdb as <- _. done. }
  destruct (push_spec l origin db db' Hwf Hl Hpush) as (Hwf' & Hext & Hro). split_and!; [done..|].
  intros Hv. rewrite Hp'; [done|]. rewrite <-(ext_idx _ _ Hext). by apply Hv.
Qed.

Lemma valid_closest m i l j k :
  confirmed m i l [MvMemoryOrigin (mkVersion j k)] →
  ∃ v, closest m l i = Some (j, Data k v) ∧ entry m l j = Some (Data k v).
Proof.
  intros Hv. apply check_origins_mem in Hv as (v & iter' & Hiter & _).
  exists v. rewrite closest_read, Hiter. split; [done|]. apply (entries_read_entry _ _ i). rewrite Hiter. by left.
Qed.

Lemma valid_storage m i l : confirmed m i l [StorageOrigin] → entries_read m l i = [].
Proof. apply check_origins_storage. Qed.

Lemma closest_entry m l i j e : closest m l i = Some (j, e) → entry m l j = Some e.
Proof.
  rewrite closest_read. intros Hh. apply (entries_read_entry _ _ i).
  destruct (entries_read m l i); [done|]. injection Hh as ->. by left.
Qed.

Lemma get_code_hash_repeatable m m' a :
  same_versions m m' →
  repeatable m' (get_code_hash hash_deterministic m a) (get_code_hash hash_deterministic m' a).
Proof.
  intros Hsame db db' r Hwf. unfold get_code_hash at 1.
  set (l := hash_deterministic (CodeHashLocation a)).
  assert (Hl : ∀ b, l ≠ hash_deterministic (BasicLocation b)) by (intros b Hb; by apply hash_inj in Hb).
  assert (Hst : db_bind (push l StorageOrigin) (λ _, db_try (map_err (storage_code_hash a))) db = (db', inr r) →
    db_wf db' ∧ extends db db' ∧ (reads_valid m' db' → get_code_hash hash_deterministic m' a db = (db', inr r))).
  { eapply (single_repeatable m' l StorageOrigin (map_err (storage_code_hash a))); [done| |done].
    intros db1 Hv. unfold get_code_hash. fold l. by rewrite closest_read, (valid_storage _ _ _ Hv). }
  destruct (closest m l (db_tx_idx db)) as [[j [k v|]]|] eqn:Hc; [|exact Hst..].
  destruct v as [|h| | | |]; try exact Hst; [|done]. intros Hdb.
  eapply (single_repeatable m' l (MvMemoryOrigin (mkVersion j k)) (inr (Some h))
            (get_code_hash hash_deterministic m' a) Hl); [|done|exact Hdb].
  intros db1 Hv. unfold get_code_hash. fold l. destruct (valid_closest _ _ _ _ _ Hv) as (v' & -> & Hv').
  by rewrite <-(Hsame l j k (CodeHashValue h) v' (closest_entry _ _ _ _ _ Hc) Hv').
Qed.

Lemma storage_repeatable m m' a i :
  same_versions m m' → repeatable m' (storage hash_deterministic m a i) (storage hash_deterministic m' a i).
Proof.
  intros Hsame db db' r Hwf Hdb. unfold storage in *. set (l := hash_deterministic (StorageLocation a i)) in *.
  assert (Hl : ∀ b, l ≠ hash_deterministic (BasicLocation b)) by (intros b Hb; by apply hash_inj in Hb).
  assert (Hrep : repeatable m' (storage_read m a i l) (storage_read m' a i l)).
  { clear Hdb Hwf db db' r. intros db db' r Hwf. unfold storage_read at 1.
    assert (Hst : db_bind (push l StorageOrigin) (λ _, db_try (map_err (storage_storage a i))) db = (db', inr r) →
      db_wf db' ∧ extends db db' ∧ (reads_valid m' db' → storage_read m' a i l db = (db', inr r))).
    { eapply (single_repeatable m' l StorageOrigin (map_err (storage_storage a i))); [done| |done].
      intros db1 Hv. unfold storage_read. rewrite closest_read, (valid_storage _ _ _ Hv). simpl.
      by destruct (bool_decide _). }
    case_bool_decide as Hpos; [|exact Hst].
    destruct (closest m l (db_tx_idx db)) as [[j [k v|]]|] eqn:Hc; [|done|exact Hst].
    destruct v as [| |v| | |]; try done. intros Hdb.
    eapply (single_repeatable m' l (MvMemoryOrigin (mkVersion j k)) (inr v) (λ db1,
      if bool_decide (0 < db_tx_idx db1)%nat then storage_read m' a i l db1
      else db_bind (push l (MvMemoryOrigin (mkVersion j k))) (λ _, db_try (inr v)) db1) Hl) in Hdb; [|clear Hdb|done].
    - destruct Hdb as (H1 & H2 & H3). split_and!; [done..|]. intros Hv. rewrite <-(H3 Hv). by rewrite bool_decide_true.
    - intros db1 Hv. case_bool_decide; [|done]. unfold storage_read. rewrite bool_decide_true by done.
      destruct (valid_closest _ _ _ _ _ Hv) as (v' & -> & Hv').
      by rewrite <-(Hsame l j k (StorageValue v) v' (closest_entry _ _ _ _ _ Hc) Hv'). }
  assert (Hwf0 : db_wf (with_storage_key db l)) by (destruct Hwf; by split).
  destruct (Hrep _ _ _ Hwf0 Hdb) as (H1 & [H2 H3 H4] & H5). by split_and!.
Qed.

(** *** Accounts *)

Lemma entries_read_pos m l i : (if bool_decide (0 < i)%nat then entries_read m l i else []) = entries_read m l i.
Proof.
  case_bool_decide; [done|]. replace i with 0%nat by lia. unfold entries_read, entries_below.
  by destruct (data m !! l).
Qed.

Lemma scan_prefix read_origins iter : ∀ sc sc1,
  scan_entries read_origins iter sc = inr sc1 → read_origins ≠ [] →
  new_origins sc `prefix_of` read_origins → new_origins sc1 `prefix_of` read_origins.
Proof.
  induction iter as [|[c [k value|]] iter IH]; intros sc sc1 Hscan Hne Hpre; cbn [scan_entries] in Hscan; [by injection Hscan as <-| |done].
  rewrite (bool_decide_false (read_origins = [])) in Hscan by done. simpl in Hscan.
  case_bool_decide as Hlen; [done|]. case_bool_decide as Hat; [|done]. simpl in Hscan.
  assert (Hpre2 : new_origins sc ++ [MvMemoryOrigin (mkVersion c k)] `prefix_of` read_origins).
  { destruct Hpre as [rest ->]. rewrite lookup_app_r, Nat.sub_diag in Hat by lia.
    destruct rest as [|x rest]; [done|]. injection Hat as ->. exists rest. by rewrite <-app_assoc. }
  destruct value; try done; [by injection Hscan as <-|eapply IH; [done..|]|eapply IH; [done..|]];
    unfold add_recipient, add_sender; by destruct (positive_addition _).
Qed.

(** The recorded origins are the scanned versions, followed by storage when the scan
    found no account. *)
Lemma scan_recorded read_origins iter address sc origins account :
  scan_entries read_origins iter (mkScan None 0 true 0 []) = inr sc →
  scan_storage read_origins address sc = inr (origins, account) →
  ∃ rest, (if bool_decide (read_origins = []) then origins else read_origins) = new_origins sc ++ rest ∧
    (final_account sc = None → head rest = Some StorageOrigin) ∧
    (if bool_decide (read_origins = []) then origins else read_origins) ≠ [].
Proof.
  intros Hscan Hst. destruct (scan_repeats _ _ _ _ Hscan eq_refl) as (vs & Hvs & Hnil & _). simpl in Hvs. subst vs.
  unfold scan_storage in Hst. destruct (final_account sc) as [acc|] eqn:Hf.
  - injection Hst as <- <-. destruct Hnil as [|Hnil]; [done|]. case_bool_decide as Hro.
    + exists []. by rewrite app_nil_r.
    + destruct (scan_prefix _ _ _ _ Hscan Hro) as [rest Hrest]; [apply prefix_nil|]. exists rest. by rewrite <-Hrest.
  - destruct (bool_decide (read_origins = [])) eqn:Hro; simpl in Hst.
    + assert (origins = new_origins sc ++ [StorageOrigin]) as -> by (by destruct (storage_basic address) as [|[]]; simplify_eq).
      exists [StorageOrigin]. split_and!; [done..|]. by destruct (new_origins sc).
    + apply bool_decide_eq_false in Hro. destruct (scan_prefix _ _ _ _ Hscan Hro) as [rest Hrest]; [apply prefix_nil|].
      case_bool_decide as Hlen; [|done]. case_bool_decide as Hlast; [|done].
      rewrite Hrest, length_app in Hlen. destruct rest as [|x [|y rest]]; simpl in Hlen; try lia.
      rewrite Hrest, last_snoc in Hlast. injection Hlast as ->. exists [StorageOrigin]. by rewrite <-Hrest.
Qed.

Lemma basic_code_hash_repeatable m m' a sc account :
  same_versions m m' →
  repeatable m' (basic_code_hash hash_deterministic m a sc account)
    (basic_code_hash hash_deterministic m' a sc account).
Proof.
  intros Hsame db db' r Hwf. unfold basic_code_hash. destruct (bool_decide _ && _); [done|].
  eapply repeatable_bind; [|intros ch; apply repeatable_try|done].
  destruct (bool_decide _); [apply repeatable_try|by apply get_code_hash_repeatable].
Qed.

Lemma basic_code_repeatable m' codes codes' a account ch :
  fetch_code bytecode_of codes ch = fetch_code bytecode_of codes' ch →
  repeatable m' (basic_code hash_deterministic bytecode_of codes a account ch)
    (basic_code hash_deterministic bytecode_of codes' a account ch).
Proof.
  intros Hcodes db db' r Hwf. unfold basic_code. rewrite <-Hcodes.
  eapply repeatable_bind; [apply repeatable_try| |done]. intros code db1 db2 r1 Hwf1 [= <- <-].
  destruct Hwf1. split_and!; [by split|by split|done].
Qed.

Lemma record_origins_wf db l o :
  db_wf db → (∃ a, l = hash_deterministic (BasicLocation a)) → o ≠ [] → origins_of db l = [] ∨ origins_of db l = o → db_wf (with_read db l o) ∧ extends db (with_read db l o).
Proof.
  intros Hwf Hb Ho Hor. destruct Hwf as [H1 H2 H3 H4].
  split; split; simpl; try done.
  - intros l' o'. rewrite lookup_insert_Some. naive_solver.
  - intros l' o'. rewrite lookup_insert_Some. naive_solver.
  - unfold origins_of in Hor. destruct (read_set db !! l) as [o1|] eqn:Hl; simpl in Hor.
    + destruct Hor as [->| ->]; [by apply H3 in Hl|]. by rewrite insert_id.
    + by apply insert_subseteq.
Qed.

Lemma basic_entries_repeatable m m' a :
  same_versions m m' →
  repeatable m' (basic_entries hash_deterministic m a) (basic_entries hash_deterministic m' a).
Proof.
  intros Hsame db db' r Hwf. unfold basic_entries. rewrite !entries_read_pos.
  pose proof (hash_basic_wf db a Hwf) as Hl. set (l := hash_basic hash_deterministic db a) in *.
  destruct (is_lazy db && bool_decide (l = from_hash db)); [intros [= <- <-]; split_and!; [done|by split|done]|].
  destruct (is_lazy db && bool_decide (Some l = to_hash db)); [intros [= <- <-]; split_and!; [done|by split|done]|].
  destruct (scan_entries _ (entries_read m l _) _) as [e|sc] eqn:Hscan; [done|].
  destruct (scan_storage _ a sc) as [e|[origins account]] eqn:Hst; [done|].
  destruct (scan_recorded _ _ _ _ _ _ Hscan Hst) as (rest & Hrec & Hrest & Hne).
  set (o := if bool_decide (origins_of db l = []) then origins else origins_of db l) in *.
  destruct (record_origins_wf db l o Hwf) as [Hwf1 Hext1]; [eauto|done| |].
  { unfold o. case_bool_decide; [by left|by right]. }
  intros [= <- <-]. split_and!; [done..|]. intros Hv.
  destruct (scan_repeats _ _ _ _ Hscan eq_refl) as (vs & Hvs & _ & Hrep). simpl in Hvs. subst vs.
  rewrite (Hrep rest (entries_read m' l (db_tx_idx db))); [by rewrite Hst| |done|].
  - rewrite <-Hrec. apply Hv. simpl. by rewrite lookup_insert_eq.
  - intros j k v v' H1%entries_read_entry H2%entries_read_entry. by eapply Hsame.
Qed.

(** *** Executions

    The reads of an execution are served from memories [ms], in this order: a version of a
    location has one value in all of them, a deployed code hash has its bytecode, and
    bytecodes are only added. *)

Context (vals : MemoryLocationHash → TxIdx → TxIncarnation → option MemoryValue) (code_of : N → N).
Context (storage_code : storage_has_code bytecode_of code_of).
Local Notation mem_ok := (mem_ok vals code_of).

Lemma mem_ok_same m m' : mem_ok m → mem_ok m' → same_versions m m'.
Proof.
  intros Hm Hm' l j k v v' H1%(ok_vals _ _ _ Hm) H2%(ok_vals _ _ _ Hm'). congruence.
Qed.

(** A code hash that the database returned: it is in storage, or a version of the memory
    in the read set holds it. *)
Definition known (c : gmap N N) (db : VmDb) (h : N) : Prop :=
  (∃ a, storage_code_hash a = inr (Some h)) ∨
  (c !! h = Some (code_of h) ∧ ∃ a j k,
     read_set db !! hash_deterministic (CodeHashLocation a) = Some [MvMemoryOrigin (mkVersion j k)] ∧
     vals (hash_deterministic (CodeHashLocation a)) j k = Some (CodeHashValue h)).
Definition to_known (c : gmap N N) (db : VmDb) : Prop := ∀ h, to_code_hash db = Some h → known c db h.

Lemma known_mono c c' db db' h : c ⊆ c' → extends db db' → known c db h → known c' db' h.
Proof.
  intros Hc Hext [?|(Hch & a & j & k & Ha & Hv)]; [by left|right]. split; [by eapply lookup_weaken|].
  exists a, j, k. split; [|done]. eapply lookup_weaken; [done|apply (ext_reads _ _ Hext)].
Qed.

Lemma fetch_known c db m h :
  known c db h → mem_ok m → c ⊆ new_bytecodes m →
  fetch_code bytecode_of (λ h, new_bytecodes m !! h) (Some h) = inr (Some (code_of h)).
Proof.
  intros [[a Ha]|[Hch _]] Hm Hc; simpl.
  - destruct (storage_code a h Ha) as (x & -> & Hx). unfold convert. rewrite Hx.
    destruct (new_bytecodes m !! h) as [y|] eqn:Hy; [|done]. by rewrite (ok_codes _ _ _ Hm h y Hy).
  - by rewrite (lookup_weaken _ _ _ _ Hch Hc).
Qed.

(** A memory that confirms the reads has the bytecode too. *)
Lemma fetch_confirmed c db m h :
  known c db h → mem_ok m → reads_valid m db →
  fetch_code bytecode_of (λ h, new_bytecodes m !! h) (Some h) = inr (Some (code_of h)).
Proof.
  intros Hk Hm Hv. apply (fetch_known (new_bytecodes m) db m h); [|done|done].
  destruct Hk as [?|(_ & a & j & k & Ha & Hval)]; [by left|right]. split; [|eauto].
  destruct (valid_closest _ _ _ _ _ (Hv _ _ Ha)) as (v & _ & He).
  pose proof (ok_vals _ _ _ Hm _ _ _ _ He) as Hval'. rewrite Hval in Hval'. injection Hval' as <-.
  by eapply (ok_deployed _ _ _ Hm).
Qed.

Lemma get_code_hash_known m a db db' h :
  db_wf db → mem_ok m → get_code_hash hash_deterministic m a db = (db', inr (Some h)) →
  known (new_bytecodes m) db' h.
Proof.
  intros Hwf Hm. unfold get_code_hash. set (l := hash_deterministic (CodeHashLocation a)).
  assert (Hl : ∀ b, l ≠ hash_deterministic (BasicLocation b)) by (intros b Hb; by apply hash_inj in Hb).
  assert (Hst : db_bind (push l StorageOrigin) (λ _, db_try (map_err (storage_code_hash a))) db = (db', inr (Some h)) →
    known (new_bytecodes m) db' h).
  { unfold db_bind, db_try, map_err. destruct (push l StorageOrigin db) as [db1 [e|[]]]; [done|].
    destruct (storage_code_hash a) as [e|r] eqn:Ha; [done|]. intros [= <- ->]. left. eauto. }
  destruct (closest m l (db_tx_idx db)) as [[j [k v|]]|] eqn:Hc; [|exact Hst..].
  destruct v as [|h'| | | |]; try exact Hst; [|done]. unfold db_bind.
  destruct (push l _ db) as [db1 [e|[]]] eqn:Hp; [done|]. intros [= <- ->].
  destruct (push_spec _ _ _ _ Hwf Hl Hp) as (_ & _ & Hro). right.
  apply closest_entry in Hc. split; [by eapply (ok_deployed _ _ _ Hm)|].
  exists a, j, k. split; [done|]. by apply (ok_vals _ _ _ Hm).
Qed.

(** Memories one after the other, from bytecodes [c] on. *)
Fixpoint chain (c : gmap N N) (ms : list MvMemory) : Prop :=
  match ms with
  | [] => True
  | m :: ms => mem_ok m ∧ c ⊆ new_bytecodes m ∧ chain (new_bytecodes m) ms
  end.
Definition chain_end (c : gmap N N) (ms : list MvMemory) : gmap N N :=
  match last ms with Some m => new_bytecodes m | None => c end.

Lemma chain_end_cons c m ms : chain_end c (m :: ms) = chain_end (new_bytecodes m) ms.
Proof. unfold chain_end. rewrite last_cons. by destruct (last ms). Qed.
Lemma chain_app c ms1 ms2 : chain c (ms1 ++ ms2) ↔ chain c ms1 ∧ chain (chain_end c ms1) ms2.
Proof.
  revert c. induction ms1 as [|m ms1 IH]; intros c; simpl; [tauto|]. rewrite IH.
  rewrite chain_end_cons. tauto.
Qed.
Lemma chain_end_app c ms1 ms2 : chain_end c (ms1 ++ ms2) = chain_end (chain_end c ms1) ms2.
Proof. unfold chain_end. rewrite last_app. by destruct (last ms2). Qed.
Lemma chain_grows c ms : chain c ms → c ⊆ chain_end c ms.
Proof.
  revert c. induction ms as [|m ms IH]; intros c; [done|]. intros (_ & Hc & Hms%IH).
  rewrite chain_end_cons. by etransitivity.
Qed.

Section confirmed.
Context (m' : MvMemory) (Hm' : mem_ok m').

(** From a database with [P], [p] extends the database and gives a result with [Q], and it
    does the same on [m'] alone whenever [m'] confirms its reads. *)
Definition repeats {A} (P : gmap N N → VmDb → Prop) (p : db_reader A) (Q : A → gmap N N → VmDb → Prop) : Prop :=
  ∀ c db ms db' r,
    db_wf db → to_known c db → P c db → chain c ms → serve (p db) ms = Some (RDone (db', inr r)) →
    db_wf db' ∧ extends db db' ∧ Q r (chain_end c ms) db' ∧
    (reads_valid m' db' → alone (p db) m' = (db', inr r)).

Local Notation always := (λ _ _, True).

Lemma to_known_mono c c' db db' : c ⊆ c' → extends db db' → to_known c db → to_known c' db'.
Proof. intros Hc He Hk h. rewrite (ext_to _ _ He). intros Hh. eapply known_mono; [done..|by apply Hk]. Qed.

Lemma repeats_bind {A B} P p (Q : A → gmap N N → VmDb → Prop) (f : A → db_reader B) (R : B → gmap N N → VmDb → Prop) :
  repeats P p Q → (∀ a, repeats (Q a) (f a) R) → repeats P (rbind p f) R.
Proof.
  intros Hp Hf c db ms db' r Hwf Hto HP Hch Hs. unfold rbind in *.
  apply serve_bind_done in Hs as (ms1 & ms2 & [db1 [e|a]] & -> & Hs1 & Hs2).
  { destruct ms2; done. }
  apply chain_app in Hch as [Hch1 Hch2].
  destruct (Hp c db ms1 db1 a Hwf Hto HP Hch1 Hs1) as (Hwf1 & He1 & HQ & Hrep1).
  assert (Hto1 : to_known (chain_end c ms1) db1) by (eapply to_known_mono; [by apply chain_grows|done..]).
  destruct (Hf a _ db1 ms2 db' r Hwf1 Hto1 HQ Hch2 Hs2) as (Hwf2 & He2 & HR & Hrep2).
  rewrite chain_end_app. split_and!; [done|by eapply extends_trans|done|]. intros Hv. rewrite alone_bind.
  rewrite Hrep1 by (by eapply reads_valid_sub). by apply Hrep2.
Qed.

Lemma repeats_access {A} P (f : MvMemory → db_op A) (Q : A → gmap N N → VmDb → Prop) :
  (∀ m c db db' r, mem_ok m → c ⊆ new_bytecodes m → db_wf db → to_known c db → P c db → f m db = (db', inr r) →
     db_wf db' ∧ extends db db' ∧ Q r (new_bytecodes m) db' ∧ (reads_valid m' db' → f m' db = (db', inr r))) →
  repeats P (access f) Q.
Proof.
  intros Hf c db ms db' r Hwf Hto HP Hch Hs. unfold access in Hs.
  destruct ms as [|m [|m2 ms]]; simpl in Hs; [done| |done].
  injection Hs as Hs. destruct Hch as (Hm & Hc & _). by apply (Hf m c db db' r).
Qed.

(** An access whose result needs no further care. *)
Lemma repeats_access_plain {A} (f : MvMemory → db_op A) :
  (∀ m, mem_ok m → repeatable m' (f m) (f m')) → repeats always (access f) (λ _, always).
Proof.
  intros Hf. apply repeats_access. intros m c db db' r Hm _ Hwf _ _ Hr.
  destruct (Hf m Hm db db' r Hwf Hr) as (? & ? & ?). done.
Qed.

Lemma repeats_lift {A} (p : db_op A) : repeatable m' p p → repeats always (lift p) (λ _, always).
Proof.
  intros Hp c db ms db' r Hwf _ _ _ Hs. destruct ms; [|done]. injection Hs as Hs.
  destruct (Hp db db' r Hwf Hs) as (? & ? & ?). done.
Qed.

Lemma basic_repeats a : repeats always (basic hash_deterministic bytecode_of a) (λ _, always).
Proof.
  unfold basic. eapply repeats_bind.
  { apply repeats_access_plain. intros m Hm. by apply basic_entries_repeatable, mem_ok_same. }
  intros [info|[sc account]].
  { eapply repeats_lift, repeatable_try. }
  eapply (repeats_bind _ _ (λ '(account, ch) c db, ∀ h, ch = Some h → known c db h)).
  - apply repeats_access. intros m c db db' [account' ch] Hm Hc Hwf Hto _ Hr.
    destruct (basic_code_hash_repeatable m m' a sc account (mem_ok_same _ _ Hm Hm') db db' _ Hwf Hr) as (? & Hext & ?).
    split_and!; [done..| |done]. intros h ->. unfold basic_code_hash in Hr. destruct (bool_decide _ && _); [done|].
    unfold db_bind in Hr. destruct (bool_decide (Some _ = to_hash db)).
    + injection Hr as <- _ Hh. eapply known_mono; [done|by split|by apply Hto].
    + destruct (get_code_hash _ m a db) as [db1 [e|h']] eqn:Hg; [done|]. injection Hr as <- _ ->.
      exact (get_code_hash_known _ _ _ _ _ Hwf Hm Hg).
  - intros [account' ch]. apply repeats_access. intros m c db db' r Hm Hc Hwf Hto Hch Hr.
    destruct (basic_code_repeatable m' (λ h, new_bytecodes m !! h) (λ h, new_bytecodes m !! h) a account' ch eq_refl
                db db' r Hwf Hr) as (? & Hext & _).
    split_and!; [done..|]. intros Hv. rewrite <-Hr. unfold basic_code. f_equal. f_equal.
    destruct ch as [h|]; [|done]. rewrite (fetch_confirmed c db m' h), (fetch_known c db m h); auto.
    by eapply reads_valid_sub.
Qed.

(** An execution whose reads are all confirmed by [m'] does the same on [m'] alone. *)
Lemma transact_repeats {Out} (e : evm Out) : repeats always (transact hash_deterministic bytecode_of e) (λ _, always).
Proof.
  induction e as [o|a k IH|a i k IH|h k IH|a k IH|x k IH]; simpl.
  - apply repeats_lift, repeatable_try.
  - eapply repeats_bind; [apply basic_repeats|]. intros r. apply IH.
  - eapply repeats_bind; [|intros r; apply IH]. apply repeats_access_plain. intros m Hm.
    by apply storage_repeatable, mem_ok_same.
  - eapply repeats_bind; [|intros r; apply IH]. apply repeats_lift, repeatable_bind; [apply repeatable_try|].
    intros [c|]; apply repeatable_try.
  - eapply repeats_bind; [|intros r; apply IH]. apply repeats_lift, repeatable_try.
  - eapply repeats_bind; [|intros r; apply IH]. apply repeats_lift, repeatable_try.
Qed.

Lemma VmDb_empty_wf i tx : db_wf (VmDb_empty hash_deterministic i tx).
Proof. split; simpl; [done|done|intros l o Hl; by rewrite lookup_empty in Hl..]. Qed.

(** [VmDb::new] with the outcome of its test for a lazy update given. *)
Definition VmDb_new_as (i : TxIdx) (tx : TxEnv) (lazy : bool) : reader MvMemory (ReadError + VmDb) :=
  match transact_to tx with
  | None => RDone (inr (VmDb_empty hash_deterministic i tx))
  | Some to =>
      RLoad (λ m, RDone (match get_code_hash hash_deterministic m to (VmDb_empty hash_deterministic i tx) with
                         | (_, inl e) => inl e
                         | (db, inr h) => inr (with_code_hash db h (bool_decide (h = None) && lazy))
                         end))
  end.

(** A database is new again on a memory that confirms what it has read; whether the
    transaction is lazy is not recorded in the read set. *)
Lemma VmDb_new_repeats i tx c ms db :
  chain c ms → serve (VmDb_new hash_deterministic i tx) ms = Some (RDone (inr db)) →
  db_wf db ∧ to_known (chain_end c ms) db ∧ db_tx_idx db = i ∧ db_tx db = tx ∧
  ∃ lazy, reads_valid m' db → alone (VmDb_new_as i tx lazy) m' = inr db.
Proof.
  unfold VmDb_new, VmDb_init, VmDb_new_as. pose proof (VmDb_empty_wf i tx) as Hwf0.
  set (db0 := VmDb_empty _ i tx) in *. intros Hch Hs. change (transact_to (db_tx db0)) with (transact_to tx) in Hs.
  destruct (transact_to tx) as [to|].
  2:{ destruct ms; [|done]. injection Hs as <-. split_and!; [done|by intros h|done|done|]. by exists false. }
  destruct ms as [|m ms]; [done|]. destruct Hch as (Hm & _ & Hch). cbn [serve] in Hs.
  destruct (get_code_hash hash_deterministic m to db0) as [db1 [e|h]] eqn:Hg; [by destruct ms|].
  destruct (get_code_hash_repeatable m m' to (mem_ok_same _ _ Hm Hm') db0 db1 h Hwf0 Hg) as (Hwf1 & Hext & Hrep).
  assert (Hend : new_bytecodes m ⊆ chain_end c (m :: ms)).
  { rewrite chain_end_cons. by apply chain_grows. }
  assert (Hgo : ∀ lazy, db = with_code_hash db1 h (bool_decide (h = None) && lazy) →
    db_wf db ∧ to_known (chain_end c (m :: ms)) db ∧ db_tx_idx db = i ∧ db_tx db = tx ∧
    ∃ lazy, reads_valid m' db → alone (RLoad (λ m, RDone (match get_code_hash hash_deterministic m to db0 with
       | (_, inl e) => inl e
       | (db, inr h) => inr (with_code_hash db h (bool_decide (h = None) && lazy)) end))) m' = inr db).
  { intros lazy ->. split_and!; [by destruct Hwf1| |apply (ext_idx _ _ Hext)|apply (ext_tx _ _ Hext)|].
    - intros h' Hh'. simpl in Hh'. subst h. destruct (get_code_hash_known _ _ _ _ _ Hwf0 Hm Hg) as [?|(H1 & H2)]; [by left|right].
      split; [by eapply lookup_weaken|done].
    - exists lazy. intros Hv. cbn [alone]. by rewrite Hrep. }
  destruct h as [h|]; [destruct ms; [|done]; injection Hs as <-; by apply (Hgo false)|].
  destruct ms as [|m2 ms]; [done|]. cbn [serve] in Hs. destruct (contains_key (from_hash db1) m2).
  { destruct ms; [|done]. injection Hs as <-. by apply (Hgo true). }
  destruct (to_hash db1) as [t|]; [|destruct ms; [|done]; injection Hs as <-; by apply (Hgo false)].
  destruct ms as [|m3 [|]]; [done| |done]. injection Hs as <-. by apply (Hgo (contains_key t m3)).
Qed.
End confirmed.
End repeats.

(** Validation is sound: if an execution of a transaction, whose reads were served
    one by one from memories [ms] that other threads kept changing, recorded reads that a
    memory [m'] confirms, then executing it on [m'] alone goes through the same reads
    to the same result. A version of a location has one value, bytecodes are only
    added and are identified by their hash, and distinct locations have distinct hashes. *)
Theorem validated_execution_repeats (hash_deterministic : MemoryLocation → MemoryLocationHash) {st : Storage}
    (bytecode_of : N → N + N) vals code_of {Out} (e : evm Out) i tx c ms1 ms2 db db' out m' :
  Inj (=) (=) hash_deterministic → storage_has_code bytecode_of code_of →
  chain vals code_of c (ms1 ++ ms2) → mem_ok vals code_of m' →
  serve (VmDb_new hash_deterministic i tx) ms1 = Some (RDone (inr db)) →
  serve (transact hash_deterministic bytecode_of e db) ms2 = Some (RDone (db', inr out)) →
  (∀ l o, read_set db' !! l = Some o → valid_location m' i l o = true) →
  alone (transact hash_deterministic bytecode_of e db) m' = (db', inr out).
Proof.
  intros Hinj Hst Hch Hm' Hnew Hrun Hv. apply chain_app in Hch as [Hch1 Hch2].
  destruct (VmDb_new_repeats hash_deterministic bytecode_of Hinj vals code_of m' Hm' i tx c ms1 db Hch1 Hnew)
    as (Hwf & Hto & Hi & _).
  destruct (transact_repeats hash_deterministic bytecode_of Hinj vals code_of Hst m' Hm' e _ db ms2 db' out Hwf Hto I Hch2 Hrun)
    as (_ & Hext & _ & Hrep).
  apply Hrep. intros l o Hl. rewrite (ext_idx _ _ Hext), Hi. by apply valid_entries, Hv.
Qed.

(** *** A concrete execution

    Transaction 2 reads the account 7, whose balance of 10 transaction 1 lazily
    increased by 5; transaction 3 is about to write it too, in [ms] but not in [m']. *)
Definition sample_hash (l : MemoryLocation) : MemoryLocationHash :=
  N.pos (encode (match l with
                 | BasicLocation a => (0, a, 0)
                 | CodeHashLocation a => (1, a, 0)
                 | StorageLocation a i => (2, a, i)
                 end)).

Lemma sample_hash_inj : Inj (=) (=) sample_hash.
Proof. intros [a|a|a i] [b|b|b j] [= Hab%(inj encode)]; by simplify_eq. Qed.

Definition sample_storage : Storage := {|
  storage_basic a := inr None; storage_code_hash a := inr None; storage_code_by_hash h := inr None;
  storage_has_storage a := inr false; storage_storage a i := inr 0; storage_block_hash x := inr 0 |}.
Definition sample_tx : TxEnv := mkTxEnv 8 None None 0 0 0 None None 0.
Definition account_memory : MvMemory :=
  mkMemory {[ sample_hash (BasicLocation 7) :=
     {[ 0%nat := Data 0 (BasicValue (mkAccount 10 1)); 1%nat := Data 0 (LazyRecipient 5); 3%nat := Estimate ]} ]} [] ∅ ∅.
Definition sample_evm : evm N :=
  EvmBasic 7 (λ r, EvmStorage 7 1 (λ x, EvmDone (match r with Some i => info_balance i + x | None => x end))).
Definition sample_vals (l : MemoryLocationHash) (j : TxIdx) (k : TxIncarnation) : option MemoryValue :=
  match entry account_memory l j with Some (Data k' v) => if decide (k = k') then Some v else None | _ => None end.

Lemma sample_ok m : (∀ l j k v, entry m l j = Some (Data k v) → entry account_memory l j = Some (Data k v)) →
  new_bytecodes m = ∅ → mem_ok sample_vals (λ h, h) m.
Proof.
  intros He Hc. assert (Hno : ∀ l j k h, entry account_memory l j ≠ Some (Data k (CodeHashValue h))).
  { intros l j k h. unfold entry, account_memory. simpl. intros (w & Hw & Hj)%bind_Some.
    apply lookup_singleton_Some in Hw as [_ <-].
    repeat (apply lookup_insert_Some in Hj as [[_ ?]|[_ Hj]]; [done|]). by apply lookup_singleton_Some in Hj as [_ ?]. }
  split.
  - intros l j k v Hv%He. unfold sample_vals. rewrite Hv. by rewrite decide_True.
  - intros l j k h Hv%He. by destruct (Hno l j k h).
  - intros h x. by rewrite Hc.
Qed.

Lemma validated_execution_repeats_witness :
  let db := VmDb_empty sample_hash 2 sample_tx in
  let db' := (alone (transact (st := sample_storage) sample_hash inr sample_evm db) account_memory).1 in
  alone (transact (st := sample_storage) sample_hash inr sample_evm db)
    (remove_entry 3 (sample_hash (BasicLocation 7)) account_memory) = (db', inr 15).
Proof.
  intros db db'.
  apply (validated_execution_repeats (st := sample_storage) sample_hash inr sample_vals (λ h, h) sample_evm 2 sample_tx
           ∅ [] (replicate 4 account_memory)).
  - exact sample_hash_inj.
  - intros a h. discriminate.
  - simpl. split_and!; try done; by apply sample_ok.
  - apply sample_ok; [|reflexivity]. intros l j k v. rewrite entry_remove. destruct (decide _); done.
  - reflexivity.
  - vm_compute. reflexivity.
  - apply map_Forall_to_list. vm_compute. repeat constructor.
Defined.
