(* ===== verification/Chain.v ===== *)
(** * Chain rules

    Models src/pevm/crates/pevm/src/chain.rs, chain/ethereum.rs and compat.rs: the interface
    [PevmChain] to the rules of a chain, as far as the executor consults it, and its
    implementation for Ethereum. [SpecId] lists the hard forks the source names, in the
    order of revm. The handler of the EVM and the receipt trie are not modelled. *)

From S2P Require Import Prelude PevmTypes Concurrent MvMemory VmDb.

Inductive SpecId :=
| FRONTIER | HOMESTEAD | TANGERINE | SPURIOUS_DRAGON | BYZANTIUM | PETERSBURG | ISTANBUL
| BERLIN | LONDON | MERGE | SHANGHAI | CANCUN | PRAGUE.

#[global] Instance SpecId_eq_dec : EqDecision SpecId.
Proof. solve_decision. Defined.

Definition spec_index (s : SpecId) : N :=
  match s with
  | FRONTIER => 0 | HOMESTEAD => 2 | TANGERINE => 4 | SPURIOUS_DRAGON => 5 | BYZANTIUM => 6
  | PETERSBURG => 8 | ISTANBUL => 9 | BERLIN => 11 | LONDON => 12 | MERGE => 15 | SHANGHAI => 16 | CANCUN => 17 | PRAGUE => 18
  end.
(** [spec_id >= other] *)
Definition spec_ge (s other : SpecId) : bool := bool_decide (spec_index other <= spec_index s).

Inductive RewardPolicy := EthereumPolicy.

Record BlockEnv := mkBlockEnv {
  env_number : N;
  coinbase : N;
  env_timestamp : N;
  env_gas_limit : N;
  basefee : N;
  env_difficulty : N;
  prevrandao : option N;
  blob_excess_gas_and_price : option (N * N) }.

(** The header of a block, as far as it is read. *)
Record Header := mkHeader {
  header_number : N;
  header_timestamp : N;
  beneficiary : N;
  header_gas_limit : N;
  header_gas_used : N;
  base_fee_per_gas : option N;
  header_difficulty : N;
  mix_hash : N;
  excess_blob_gas : option N }.

(** [get_block_env] of compat.rs; revm computes the price of blob gas from the excess. *)
Definition get_block_env (blob_gas_price : N → bool → N) (header : Header) (spec_id : SpecId) : BlockEnv :=
  mkBlockEnv (header_number header) (beneficiary header) (header_timestamp header) (header_gas_limit header)
    (default 0 (base_fee_per_gas header)) (header_difficulty header) (Some (mix_hash header))
    ((λ excess, (excess, blob_gas_price excess (spec_ge spec_id PRAGUE))) <$> excess_blob_gas header).

Class PevmChain := {
  chain_id : N;
  is_eip_1559_enabled : SpecId → bool;
  is_eip_161_enabled : SpecId → bool;
  get_reward_policy : RewardPolicy;
  build_mv_memory : (MemoryLocation → MemoryLocationHash) → BlockEnv → list TxEnv → MvMemory }.

(** ** Ethereum *)

Definition get_block_spec (header : Header) : SpecId :=
  if bool_decide (1710338135 <= header_timestamp header) then CANCUN
  else if bool_decide (1681338455 <= header_timestamp header) then SHANGHAI
  else if bool_decide (15537394 <= header_number header) then MERGE
  else if bool_decide (12965000 <= header_number header) then LONDON
  else if bool_decide (12244000 <= header_number header) then BERLIN
  else if bool_decide (9069000 <= header_number header) then ISTANBUL
  else if bool_decide (7280000 <= header_number header) then PETERSBURG
  else if bool_decide (4370000 <= header_number header) then BYZANTIUM
  else if bool_decide (2675000 <= header_number header) then SPURIOUS_DRAGON
  else if bool_decide (2463000 <= header_number header) then TANGERINE
  else if bool_decide (1150000 <= header_number header) then HOMESTEAD
  else FRONTIER.

(** The beneficiary is estimated to be written by every transaction, and lazy. *)
Definition ethereum_mv_memory (hash_deterministic : MemoryLocation → MemoryLocationHash) (block_env : BlockEnv)
    (txs : list TxEnv) : MvMemory :=
  MvMemory_new (length txs) [(hash_deterministic (BasicLocation (coinbase block_env)), seq 0 (length txs))]
    [coinbase block_env].

#[global] Instance PevmEthereum : PevmChain := {|
  chain_id := 1;
  is_eip_1559_enabled spec_id := spec_ge spec_id LONDON;
  is_eip_161_enabled spec_id := spec_ge spec_id SPURIOUS_DRAGON;
  get_reward_policy := EthereumPolicy;
  build_mv_memory := ethereum_mv_memory |}.

(** A transaction of the RPC, as far as it is converted. *)
Inductive TxType := Legacy | Eip2930 | Eip1559 | Eip4844 | Eip7702.

Record RpcTransaction := mkRpcTx {
  rpc_from : N;
  rpc_type : TxType;
  rpc_kind : option N;
  rpc_nonce : N;
  rpc_value : N;
  rpc_gas_limit : N;
  rpc_gas_price : option N;
  rpc_max_fee_per_gas : N;
  rpc_max_priority_fee_per_gas : option N;
  rpc_max_fee_per_blob_gas : option N;
  rpc_blob_count : N }.

(** [None] is the error [MissingGasPrice]. *)
Definition get_ethereum_gas_price (tx : RpcTransaction) : option N :=
  match rpc_type tx with
  | Legacy | Eip2930 => rpc_gas_price tx
  | Eip1559 | Eip4844 | Eip7702 => Some (rpc_max_fee_per_gas tx)
  end.

(** [GAS_PER_BLOB] of EIP-4844; the blob gas of a [TxEnv] is what its blob hashes use. *)
Definition GAS_PER_BLOB : N := 131072.

Definition get_tx_env (tx : RpcTransaction) : option TxEnv :=
  match get_ethereum_gas_price tx with
  | None => None
  | Some price =>
      Some (mkTxEnv (rpc_from tx) (rpc_kind tx) (Some (rpc_nonce tx)) (rpc_value tx) (rpc_gas_limit tx) price
              (rpc_max_priority_fee_per_gas tx) (rpc_max_fee_per_blob_gas tx) (GAS_PER_BLOB * rpc_blob_count tx))
  end.

(** ** Facts *)

(** Hard forks are never undone: a later block has the rules of an earlier one at least. *)
Lemma block_spec_mono h h' :
  header_number h <= header_number h' → header_timestamp h <= header_timestamp h' →
  spec_ge (get_block_spec h') (get_block_spec h) = true.
Proof.
  intros Hn Ht. apply bool_decide_eq_true. unfold get_block_spec.
  repeat (case_bool_decide; [repeat (case_bool_decide; [simpl; lia|]); simpl; lia|]).
  repeat (case_bool_decide; [simpl; lia|]). simpl; lia.
Qed.
