(* ===== verification/BlockStm.v ===== *)
(** * The parallel executor

    Models the worker threads of [Pevm::execute_revm_parallel] in
    src/pevm/crates/pevm/src/pevm.rs: [try_execute], [try_validate] and the loop that
    feeds them with the tasks of the scheduler, over the scheduler and the multi-version
    memory. The virtual machine that runs a transaction is a parameter: a program that
    ends in one of the [vm_outcome]s of [Vm::execute] (vm.rs). [VmSpec] states what the
    executor needs of it: it changes nothing but the deployed bytecodes and blocks on
    lower transactions only. VmExecute models the real one; [any_vm] does anything
    [VmSpec] allows. *)

From S2P Require Import Prelude PevmTypes Concurrent Scheduler MvMemory.

Section block_stm.
(** The execution result of a transaction and the errors of the EVM. *)
Context {R E : Type}.

Inductive AbortReason := FallbackToSequential | ExecutionErrorReason (err : E).

(** What the threads share: the scheduler, the multi-version memory and the fields of
    [Pevm]. *)
Record Shared := mkShared {
  sched : Scheduler;
  mem : MvMemory;
  execution_results : list (option R);
  abort_reason : option AbortReason }.

Definition with_sched (g : Shared) (s : Scheduler) : Shared :=
  mkShared s (mem g) (execution_results g) (abort_reason g).
Definition with_mem (g : Shared) (m : MvMemory) : Shared :=
  mkShared (sched g) m (execution_results g) (abort_reason g).

Definition on_sched {A} : prog Scheduler A → prog Shared A := focus sched with_sched.
Definition on_mem {A} : prog MvMemory A → prog Shared A := focus mem with_mem.

(** ** The virtual machine *)

(** [VmExecutionError], or what a successful execution gathers: the addresses a lazy
    transaction registers, the reads and the writes. *)
Inductive vm_outcome :=
| VmRetry
| VmFallbackToSequential
| VmBlocking (blocking_tx_idx : TxIdx)
| VmExecutionError (err : E)
| VmOk (is_lazy : option (N * N)) (read_set : ReadSet) (write_set : WriteSet) (execution_result : R).

(** A transaction blocks on the owner of an estimate found below its index, or on its
    predecessor. *)
Definition blocks_below (i : TxIdx) (o : vm_outcome) : Prop :=
  match o with VmBlocking j => (j < i)%nat | _ => True end.

(** Only the bytecodes differ. *)
Definition codes_changed (g g' : Shared) : Prop := ∃ c, g' = with_mem g (with_bytecodes (mem g) c).

(** What the executor relies on; [may_crash] says whether the virtual machine may panic. *)
Class VmSpec (may_crash : Prop) (vm : TxVersion → prog Shared vm_outcome) : Prop :=
  vm_within v : within may_crash codes_changed (vm v) (blocks_below (tx_idx v)).

(** The virtual machine that ends in any outcome it may end in. *)
Definition any_vm (v : TxVersion) : prog Shared vm_outcome :=
  Demon (λ o : { o | blocks_below (tx_idx v) o }, Ret (proj1_sig o)).
#[global] Instance any_vm_spec may_crash : VmSpec may_crash any_vm.
Proof. intros v [o Ho]. exact Ho. Qed.

Context (vm : TxVersion → prog Shared vm_outcome).

(** The end of a successful [Vm::execute]. *)
Definition finish_vm (v : TxVersion) (is_lazy : option (N * N)) (read_set : ReadSet)
    (write_set : WriteSet) : prog Shared FinishExecFlags :=
  (match is_lazy with
   | Some (caller, to) => on_mem (add_lazy_addresses [caller; to])
   | None => Ret tt
   end);;
  let flags := if bool_decide (0 < tx_idx v)%nat && negb (bool_decide (is_Some is_lazy))
               then NeedValidation else 0%N in
  wrote_new_location <- on_mem (record v read_set write_set);;
  Ret (if (wrote_new_location : bool) then N.lor flags WroteNewLocation else flags).

(** ** Tasks *)

(** [abort_reason.get_or_init] *)
Definition set_abort_reason (r : AbortReason) : prog Shared unit :=
  modify (λ g, mkShared (sched g) (mem g) (execution_results g) (Some (default r (abort_reason g)))).

Definition abort_with (r : AbortReason) : prog Shared (option (option Task)) :=
  on_sched abort;; set_abort_reason r;; Ret (Some None).

(** [*index_mutex!(self.execution_results, i) = Some(execution_result)] *)
Definition store_result (i : TxIdx) (r : R) : prog Shared unit :=
  act (λ g, if bool_decide (i < length (execution_results g))%nat
            then Step (mkShared (sched g) (mem g) (<[i := Some r]> (execution_results g)) (abort_reason g)) tt
            else Crash).

(** One iteration of the loop of [try_execute]; [None] continues the loop. *)
Definition try_execute_iteration (n : nat) (v : TxVersion) : prog Shared (option (option Task)) :=
  o <- vm v;;
  match o with
  | VmRetry =>
      r <- load abort_reason;;
      Ret (match r with None => None | Some _ => Some None end)
  | VmFallbackToSequential => abort_with FallbackToSequential
  | VmBlocking blocking_tx_idx =>
      added <- on_sched (add_dependency (tx_idx v) blocking_tx_idx);;
      if (added : bool) then Ret (Some None)
      else r <- load abort_reason;;
           Ret (match r with None => None | Some _ => Some None end)
  | VmExecutionError err => abort_with (ExecutionErrorReason err)
  | VmOk is_lazy read_set write_set execution_result =>
      flags <- finish_vm v is_lazy read_set write_set;;
      store_result (tx_idx v) execution_result;;
      t <- on_sched (finish_execution n v flags);;
      Ret (Some t)
  end.

Definition try_validate (n : nat) (v : TxVersion) : prog Shared (option Task) :=
  read_set_valid <- on_mem (validate_read_locations (tx_idx v));;
  aborted <- (if (read_set_valid : bool) then Ret false else on_sched (try_validation_abort v));;
  (if (aborted : bool) then on_mem (convert_writes_to_estimates (tx_idx v)) else Ret tt);;
  on_sched (finish_validation n v aborted).

(** ** Worker threads

    A worker is between two iterations of the loop of [next_task], about to perform
    a task, or has left its loop. *)
Inductive worker := WNext | WTask (t : Task) | WExit.

(** The end of an iteration of the worker loop, after the task. *)
Definition after_task (task : option Task) : prog Shared worker :=
  r <- load abort_reason;;
  Ret (match r with
       | Some _ => WExit
       | None => match task with Some t => WTask t | None => WNext end
       end).

Definition worker_step (n : nat) (w : worker) : option (prog Shared worker) :=
  match w with
  | WNext => Some (
      r <- on_sched (next_task_iteration n);;
      Ret (match r with NextContinue => WNext | NextNone => WExit | NextTask t => WTask t end))
  | WTask (Execution v) => Some (
      o <- try_execute_iteration n v;;
      match o with
      | None => Ret (WTask (Execution v))
      | Some task => after_task task
      end)
  | WTask (Validation v) => Some (task <- try_validate n v;; after_task task)
  | WExit => None
  end.

(** The threads at the start of a block of [n] transactions. *)
Definition initial (n : nat) (m : MvMemory) (results : list (option R)) : Shared :=
  mkShared (Scheduler_new n) m results None.
Definition spawn (n threads : nat) : list (option (prog Shared worker)) :=
  replicate threads (worker_step n WNext).

(** [execution_results] is grown to the block size before the threads start. *)
Definition grow_results (n : nat) (results : list (option R)) : list (option R) :=
  results ++ replicate (n - length results) None.

(** The results read back after the threads have ended, [take().unwrap()] for each
    transaction; [None] when an [unwrap] fails. *)
Definition collect_results (n : nat) (g : Shared) : option (list R) :=
  mapM (λ i, mjoin (execution_results g !! i)) (seq 0 n).

End block_stm.
Arguments AbortReason : clear implicits.
Arguments Shared : clear implicits.
Arguments vm_outcome : clear implicits.
Arguments VmSpec {R E} may_crash vm.
