(* ===== verification/VmExecute.v ===== *)
(** * Execution of a transaction

    Models [Vm::execute] of src/pevm/crates/pevm/src/vm.rs: the reads of the transaction
    (VmDb), the write set built from the state the EVM hands over, the rewards, and the
    bytecodes it deploys. revm is a parameter: [evm_of] is the program of reads of a
    transaction, and an [Account] is what revm says about an account it touched.

    [vm_execute] is the program that the workers of BlockStm run. [execute_as] is the
    same execution on a memory that nobody else changes, with the outcome of the
    test for a lazy update given; it is the reference of the correctness theorems. *)

From S2P Require Import Prelude PevmTypes Concurrent Scheduler MvMemory VmDb Chain BlockStm.

(** ** What the EVM hands over *)

(** [acc_storage] are all slots with their present value, [acc_changed] the slots
    whose value has changed. *)
Record Account := mkEvmAccountState {
  acc_info : AccountInfo;
  is_selfdestructed : bool;
  is_touched : bool;
  is_empty : bool;
  acc_storage : list (N * N);
  acc_changed : list (N * N) }.

Record ResultAndState := mkResult {
  is_success : bool;
  gas_used : N;
  logs : list N;
  result_state : list (N * Account) }.

(** The errors of the EVM that do not come from the database. *)
Inductive EvmError := LackOfFundForMaxFee | NonceTooHigh | OtherError (e : N).
Inductive ExecutionError := DatabaseError (e : ReadError) | TransactionError (e : EvmError) | CustomError (text : N).

(** ** Results *)

Record EvmAccount := mkEvmAccount {
  evm_balance : N;
  evm_nonce : N;
  evm_code_hash : option N;
  evm_code : option N;
  evm_storage : list (N * N) }.

Record PevmTxExecutionResult := mkTxResult {
  receipt_status : bool;
  cumulative_gas_used : N;
  receipt_logs : list N;
  tx_state : gmap N (option EvmAccount) }.

Definition has_code (info : AccountInfo) : bool := negb (bool_decide (info_code_hash info = KECCAK_EMPTY)).

(** [EvmAccount::from]; [None] when the [unwrap] of a missing bytecode panics. *)
Definition EvmAccount_from (account : Account) : option EvmAccount :=
  let info := acc_info account in
  if has_code info then
    match info_code info with
    | Some code => Some (mkEvmAccount (info_balance info) (info_nonce info) (Some (info_code_hash info)) (Some code)
                           (acc_storage account))
    | None => None
    end
  else Some (mkEvmAccount (info_balance info) (info_nonce info) None None (acc_storage account)).

(** The errors of the reads as outcomes of the virtual machine. *)
Definition from_read_error (err : ReadError) : vm_outcome PevmTxExecutionResult ExecutionError :=
  match err with
  | InconsistentRead => VmRetry
  | SelfDestructedAccount => VmFallbackToSequential
  | BlockingEstimate j => VmBlocking j
  | BlockingNonce j => VmBlocking j
  | _ => VmExecutionError (DatabaseError err)
  end.

Definition from_evm_error (i : TxIdx) (err : EvmError) : vm_outcome PevmTxExecutionResult ExecutionError :=
  match err with
  | LackOfFundForMaxFee | NonceTooHigh =>
      if bool_decide (0 < i)%nat then VmBlocking (i - 1)%nat else VmExecutionError (TransactionError err)
  | OtherError _ => VmExecutionError (TransactionError err)
  end.

Definition saturating_mul (a b : N) : N := N.min (a * b) U256_MAX.

Section vm.
Context (hash_deterministic : MemoryLocation → MemoryLocationHash).
Context {st : Storage} (bytecode_of : N → N + N) {chain_rules : PevmChain}.
Context (evm_of : TxEnv → evm (EvmError + ResultAndState)).
Context (spec_id : SpecId) (block_env : BlockEnv) (txs : list TxEnv).

(** [PevmTxExecutionResult::from_revm] *)
Definition from_revm (r : ResultAndState) : option PevmTxExecutionResult :=
  (λ state, mkTxResult (is_success r) (gas_used r) (logs r) (list_to_map (reverse state))) <$>
    mapM (λ '(address, account),
            if is_selfdestructed account || is_empty account && is_eip_161_enabled spec_id then Some (address, None)
            else (λ a, (address, Some a)) <$> EvmAccount_from account)
      (filter (λ '(_, account), is_touched account = true) (result_state r)).

(** ** The write set *)

Definition is_new_code (db : VmDb) (address : N) (account : Account) : bool :=
  has_code (acc_info account) &&
  match read_accounts db !! hash_deterministic (BasicLocation address) with
  | Some (_, Some _) => false
  | _ => true
  end.

Definition is_changed (db : VmDb) (address : N) (account : Account) : bool :=
  is_new_code db address account ||
  match read_accounts db !! hash_deterministic (BasicLocation address) with
  | None => true
  | Some (basic, _) =>
      negb (bool_decide (nonce basic = info_nonce (acc_info account))) ||
      negb (bool_decide (balance basic = info_balance (acc_info account)))
  end.

(** The write of the account itself. *)
Definition basic_write (db : VmDb) (address : N) (account : Account) : WriteSet :=
  let location := hash_deterministic (BasicLocation address) in
  if is_changed db address account then
    if is_lazy db then
      if bool_decide (location = from_hash db)
      then [(location, LazySender (U256_MAX - info_balance (acc_info account)))]
      else if bool_decide (Some location = to_hash db) then [(location, LazyRecipient (tx_value (db_tx db)))]
      else []
    else if negb (is_eip_161_enabled spec_id) || negb (is_empty account)
    then [(location, BasicValue (mkAccount (info_balance (acc_info account)) (info_nonce (acc_info account))))]
    else []
  else [].

Definition code_write (db : VmDb) (address : N) (account : Account) : WriteSet :=
  if is_new_code db address account
  then [(hash_deterministic (CodeHashLocation address), CodeHashValue (info_code_hash (acc_info account)))] else [].

Definition account_writes (db : VmDb) (state : N * Account) : WriteSet :=
  let '(address, account) := state in
  if is_selfdestructed account then [(hash_deterministic (CodeHashLocation address), SelfDestructed)]
  else (if is_touched account then basic_write db address account ++ code_write db address account else []) ++
       ((λ '(slot, value), (hash_deterministic (StorageLocation address slot), StorageValue value)) <$> acc_changed account).

Definition state_writes (db : VmDb) (r : ResultAndState) : WriteSet := result_state r ≫= account_writes db.

(** *** Rewards *)

Definition reward_gas_price (tx : TxEnv) : N :=
  let price := match gas_priority_fee tx with
               | Some fee => N.min (gas_price tx) (saturating_add fee (basefee block_env))
               | None => gas_price tx
               end in
  if is_eip_1559_enabled spec_id then saturating_sub price (basefee block_env) else price.

(** The increments of the policy of the chain. *)
Definition rewards (tx : TxEnv) (gas : N) : list (MemoryLocationHash * N) :=
  match get_reward_policy with
  | EthereumPolicy =>
      [(hash_deterministic (BasicLocation (coinbase block_env)), saturating_mul (reward_gas_price tx) gas)]
  end.

Definition add_reward (amount : N) (value : MemoryValue) : ReadError + MemoryValue :=
  match value with
  | BasicValue b => inr (BasicValue (mkAccount (saturating_add (balance b) amount) (nonce b)))
  | LazySender subtraction => inr (LazySender (saturating_sub subtraction amount))
  | LazyRecipient addition => inr (LazyRecipient (saturating_add addition amount))
  | _ => inl InvalidMemoryValueType
  end.

(** The first write of the recipient is adjusted, or a lazy write is added. *)
Fixpoint apply_reward (recipient : MemoryLocationHash) (amount : N) (write_set : WriteSet) : ReadError + WriteSet :=
  match write_set with
  | [] => inr [(recipient, LazyRecipient amount)]
  | (location, value) :: rest =>
      if bool_decide (location = recipient) then
        match add_reward amount value with inl e => inl e | inr value => inr ((location, value) :: rest) end
      else match apply_reward recipient amount rest with
           | inl e => inl e
           | inr rest => inr ((location, value) :: rest)
           end
  end.

Fixpoint apply_all (l : list (MemoryLocationHash * N)) (write_set : WriteSet) : ReadError + WriteSet :=
  match l with
  | [] => inr write_set
  | (recipient, amount) :: l =>
      match apply_reward recipient amount write_set with inl e => inl e | inr ws => apply_all l ws end
  end.

Definition apply_rewards (tx : TxEnv) (gas : N) (write_set : WriteSet) : ReadError + WriteSet :=
  apply_all (rewards tx gas) write_set.

(** *** Bytecodes *)

(** The new contracts, with the bytecode the EVM has for them. *)
Definition deployments (db : VmDb) (r : ResultAndState) : list (N * option N) :=
  omap (λ '(address, account),
          if negb (is_selfdestructed account) && is_touched account && is_new_code db address account
          then Some (info_code_hash (acc_info account), info_code (acc_info account)) else None)
    (result_state r).

(** [new_bytecodes.entry(h).or_insert_with(|| code.unwrap())] *)
Definition deploy_one (h : N) (code : option N) (m : MvMemory) : effect MvMemory unit :=
  match new_bytecodes m !! h, code with
  | Some _, _ => Step m tt
  | None, Some c => Step (with_bytecodes m (<[h := c]> (new_bytecodes m))) tt
  | None, None => Crash
  end.
Fixpoint deploy (l : list (N * option N)) : prog MvMemory unit :=
  match l with
  | [] => Ret tt
  | (h, code) :: l => act (deploy_one h code);; deploy l
  end.

(** ** Vm::execute *)

(** What the reads of a transaction come to. *)
Notation read_result := (ReadError + VmDb * (EvmError + ResultAndState))%type.

Definition run_evm (tx : TxEnv) (r : ReadError + VmDb) : reader MvMemory read_result :=
  match r with
  | inl e => RDone (inl e)
  | inr db => reader_bind (transact hash_deterministic bytecode_of (evm_of tx) db)
                (λ '(db, r), RDone (match r with inl e => inl e | inr o => inr (db, o) end))
  end.

Definition vm_reads (i : TxIdx) (tx : TxEnv) : reader MvMemory read_result :=
  reader_bind (VmDb_new hash_deterministic i tx) (run_evm tx).

(** The write set and the result of a successful execution: an error of the rewards,
    or [None] for the panic of [from_revm]. *)
Definition vm_effects (tx : TxEnv) (db : VmDb) (r : ResultAndState) : ReadError + option (WriteSet * PevmTxExecutionResult) :=
  match apply_rewards tx (gas_used r) (state_writes db r) with
  | inl e => inl e
  | inr write_set => inr ((λ result, (write_set, result)) <$> from_revm r)
  end.

(** The addresses a lazy transaction registers; a lazy transaction is a call. *)
Definition lazy_pair (tx : TxEnv) (db : VmDb) : option (N * N) :=
  if is_lazy db then (λ to, (caller tx, to)) <$> transact_to tx else None.

Definition vm_finish (i : TxIdx) (tx : TxEnv) (r : read_result) : prog MvMemory (vm_outcome PevmTxExecutionResult ExecutionError) :=
  match r with
  | inl e => Ret (from_read_error e)
  | inr (_, inl e) => Ret (from_evm_error i e)
  | inr (db, inr r) =>
      deploy (deployments db r);;
      match vm_effects tx db r with
      | inl e => Ret (from_read_error e)
      | inr None => act (λ _, Crash)
      | inr (Some (write_set, result)) => Ret (VmOk (lazy_pair tx db) (read_set db) write_set result)
      end
  end.

(** [Vm::execute] up to [record] (see [finish_vm]); the panic of [from_revm] comes
    before the record instead of right after it. An index beyond [txs] is undefined
    behaviour. *)
Definition vm_execute_mem (v : TxVersion) : prog MvMemory (vm_outcome PevmTxExecutionResult ExecutionError) :=
  match txs !! tx_idx v with
  | None => act (λ _, Crash)
  | Some tx => r <- reading (vm_reads (tx_idx v) tx);; vm_finish (tx_idx v) tx r
  end.

Definition vm_execute (v : TxVersion) : prog (Shared PevmTxExecutionResult ExecutionError) (vm_outcome PevmTxExecutionResult ExecutionError) :=
  on_mem (vm_execute_mem v).

(** ** One transaction alone *)

Definition vm_reads_as (i : TxIdx) (tx : TxEnv) (lazy : bool) : reader MvMemory read_result :=
  reader_bind (VmDb_new_as hash_deterministic i tx lazy) (run_evm tx).

(** The reads, writes, deployed bytecodes and result of a successful execution. *)
Record execution := mkExecution {
  exec_reads : ReadSet;
  exec_writes : WriteSet;
  exec_codes : list (N * option N);
  exec_result : PevmTxExecutionResult }.

Definition execution_of (tx : TxEnv) (r : read_result) : option execution :=
  match r with
  | inr (db, inr r) =>
      match vm_effects tx db r with
      | inr (Some (write_set, result)) => Some (mkExecution (read_set db) write_set (deployments db r) result)
      | _ => None
      end
  | _ => None
  end.

Definition execute_as (i : TxIdx) (tx : TxEnv) (lazy : bool) (m : MvMemory) : option execution :=
  execution_of tx (alone (vm_reads_as i tx lazy) m).
End vm.

(** ** What the executor relies on *)

(** A transaction blocks on lower transactions only. *)
Definition error_below (i : TxIdx) (e : ReadError) : Prop :=
  match e with BlockingEstimate j | BlockingNonce j => (j < i)%nat | _ => True end.

Definition below {A} (p : db_op A) : Prop := ∀ db db' r, p db = (db', r) →
  db_tx_idx db' = db_tx_idx db ∧ match r with inl e => error_below (db_tx_idx db) e | inr _ => True end.
Definition reads_below {A} (p : db_reader A) : Prop := ∀ db ms db' r, serve (p db) ms = Some (RDone (db', r)) →
  db_tx_idx db' = db_tx_idx db ∧ match r with inl e => error_below (db_tx_idx db) e | inr _ => True end.

Lemma below_bind {A B} (p : db_op A) (f : A → db_op B) : below p → (∀ a, below (f a)) → below (db_bind p f).
Proof.
  intros Hp Hf db db' r. unfold db_bind. destruct (p db) as [db1 [e|a]] eqn:H1; [by intros [= <- <-]; apply (Hp _ _ _ H1)|].
  destruct (Hp _ _ _ H1) as [Hi _]. intros Hr%Hf. by rewrite Hi in Hr.
Qed.
Lemma below_try {A} (r : ReadError + A) : (∀ i, match r with inl e => error_below i e | inr _ => True end) → below (db_try r).
Proof. intros Hr db db' r' [= <- <-]. split; [done|]. apply Hr. Qed.
Lemma below_map_err {A} (r : N + A) : below (db_try (map_err r)).
Proof. apply below_try. by destruct r. Qed.

Lemma reads_below_bind {A B} (p : db_reader A) (f : A → db_reader B) :
  reads_below p → (∀ a, reads_below (f a)) → reads_below (rbind p f).
Proof.
  intros Hp Hf db ms db' r (ms1 & ms2 & [db1 [e|a]] & -> & H1 & H2)%serve_bind_done.
  - destruct ms2; [|done]. injection H2 as <- <-. by apply (Hp _ _ _ _ H1).
  - destruct (Hp _ _ _ _ H1) as [Hi _]. apply Hf in H2. by rewrite Hi in H2.
Qed.
Lemma reads_below_lift {A} (p : db_op A) : below p → reads_below (lift p).
Proof. intros Hp db [|] db' r; [|done]. intros [= Hr]. by apply (Hp _ _ _ Hr). Qed.
Lemma reads_below_access {A} (f : MvMemory → db_op A) : (∀ m, below (f m)) → reads_below (access f).
Proof. intros Hf db [|m [|]] db' r; [done| |done]. intros [= Hr]. by apply (Hf m _ _ _ Hr). Qed.

Lemma entries_read_below m l i j e : (j, e) ∈ entries_read m l i → (j < i)%nat.
Proof.
  unfold entries_read, entries_below. destruct (data m !! l) as [w|]; [|by intros ?%not_elem_of_nil].
  intros (j' & Hj' & Hw)%list_elem_of_omap. rewrite elem_of_reverse in Hj'. apply elem_of_seq in Hj' as [_ Hj'].
  destruct (w !! j'); [|done]. simpl in Hw. by simplify_eq.
Qed.

Lemma scan_entries_below read_origins i iter : ∀ sc e,
  (∀ j x, (j, x) ∈ iter → (j < i)%nat) → scan_entries read_origins iter sc = inl e → error_below i e.
Proof.
  induction iter as [|[j [k value|]] iter IH]; intros sc e Hj; cbn [scan_entries]; [done| |].
  - assert (Hiter : ∀ j x, (j, x) ∈ iter → (j < i)%nat) by (intros j' x Hx; eapply Hj; by right).
    destruct (negb _ && _); [by intros [= <-]|]. destruct (negb _ && _); [by intros [= <-]|].
    destruct value; try (by intros [= <-]); [by apply IH..].
  - intros [= <-]. eapply (Hj j Estimate). by left.
Qed.

Section vm_spec.
Context (hash_deterministic : MemoryLocation → MemoryLocationHash).
Context {st : Storage} (bytecode_of : N → N + N) {chain_rules : PevmChain}.

Lemma push_below l o : below (push l o).
Proof.
  intros db db' r. unfold push, push_origin. destruct (last (origins_of db l)) as [x|]; [|by intros [= <- <-]].
  case_bool_decide; by intros [= <- <-].
Qed.

Lemma get_code_hash_below m a : below (get_code_hash hash_deterministic m a).
Proof.
  intros db db' r. unfold get_code_hash. set (l := hash_deterministic _).
  assert (Hst : below (db_bind (push l StorageOrigin) (λ _, db_try (map_err (storage_code_hash a))))).
  { apply below_bind; [apply push_below|]. intros _. apply below_map_err. }
  destruct (closest m l (db_tx_idx db)) as [[j [k v|]]|]; [|apply Hst..].
  destruct v; try apply Hst; [|by intros [= <- <-]].
  apply (below_bind (push l _)); [apply push_below|]. intros _. by apply below_try.
Qed.

Lemma basic_entries_below m a : below (basic_entries hash_deterministic m a).
Proof.
  intros db db' r. unfold basic_entries. rewrite entries_read_pos. set (l := hash_basic _ db a).
  destruct (is_lazy db && _); [by intros [= <- <-]|]. destruct (is_lazy db && _); [by intros [= <- <-]|].
  destruct (scan_entries _ _ _) as [e|sc] eqn:Hs.
  { intros [= <- <-]. split; [done|]. eapply scan_entries_below; [|done]. intros j x. apply entries_read_below. }
  unfold scan_storage. destruct (final_account sc); [by intros [= <- <-]|].
  destruct (negb _ && _); [by intros [= <- <-]|]. destruct (storage_basic a) as [e|[b|]]; by intros [= <- <-].
Qed.

Lemma basic_code_hash_below m a sc account : below (basic_code_hash hash_deterministic m a sc account).
Proof.
  intros db db' r. unfold basic_code_hash. destruct (bool_decide _ && _).
  - intros [= <- <-]. split; [done|]. case_bool_decide; simpl; [lia|done].
  - apply below_bind; [|intros ch; by apply below_try]. destruct (bool_decide _); [by apply below_try|apply get_code_hash_below].
Qed.

Lemma basic_code_below codes a account ch : below (basic_code hash_deterministic bytecode_of codes a account ch).
Proof.
  intros db db' r. unfold basic_code. apply below_bind; [|intros code db1 db2 r2; by intros [= <- <-]].
  apply below_try. intros i. unfold fetch_code. destruct ch as [h|]; [|done]. destruct (codes h); [done|].
  destruct (storage_code_by_hash h) as [e|[c|]]; [done| |done]. unfold convert. by destruct (bytecode_of c).
Qed.

Lemma storage_below m a i : below (storage hash_deterministic m a i).
Proof.
  intros db db' r. unfold storage, storage_read. set (l := hash_deterministic _).
  assert (Hst : below (db_bind (push l StorageOrigin) (λ _, db_try (map_err (storage_storage a i))))).
  { apply below_bind; [apply push_below|]. intros _. apply below_map_err. }
  assert (Hgo : ∀ p : db_op N, below p → p (with_storage_key db l) = (db', r) →
    db_tx_idx db' = db_tx_idx db ∧ match r with inl e => error_below (db_tx_idx db) e | inr _ => True end).
  { intros p Hp Hr. exact (Hp _ _ _ Hr). }
  case_bool_decide; [|by apply Hgo].
  destruct (closest m l _) as [[j [k v|]]|] eqn:Hc; [| |by apply Hgo].
  - destruct v; try (by intros [= <- <-]). apply Hgo, below_bind; [apply push_below|]. intros _. by apply below_try.
  - intros [= <- <-]. split; [done|]. simpl. rewrite closest_read in Hc. simpl in Hc.
    apply (entries_read_below m l _ j Estimate). destruct (entries_read m l _); [done|]. injection Hc as ->. by left.
Qed.

Lemma transact_below {Out} (e : evm Out) : reads_below (transact hash_deterministic bytecode_of e).
Proof.
  induction e as [o|a k IH|a i k IH|h k IH|a k IH|x k IH]; simpl.
  - apply reads_below_lift. by apply below_try.
  - apply reads_below_bind; [|done]. apply reads_below_bind.
    { apply reads_below_access. intros m. apply basic_entries_below. }
    intros [info|[sc account]]; [apply reads_below_lift; by apply below_try|]. apply reads_below_bind.
    { apply reads_below_access. intros m. apply basic_code_hash_below. }
    intros [account' ch]. apply reads_below_access. intros m. apply basic_code_below.
  - apply reads_below_bind; [|done]. apply reads_below_access. intros m. apply storage_below.
  - apply reads_below_bind; [|done]. apply reads_below_lift, below_bind; [apply below_map_err|].
    intros [c|]; apply below_try; [|done]. unfold convert. by destruct (bytecode_of c).
  - apply reads_below_bind; [|done]. apply reads_below_lift, below_map_err.
  - apply reads_below_bind; [|done]. apply reads_below_lift, below_map_err.
Qed.

Lemma VmDb_new_below i tx ms r :
  serve (VmDb_new hash_deterministic i tx) ms = Some (RDone r) →
  match r with inl e => error_below i e | inr db => db_tx_idx db = i end.
Proof.
  unfold VmDb_new, VmDb_init. set (db0 := VmDb_empty _ i tx). destruct (transact_to (db_tx db0)) as [to|].
  2:{ destruct ms; [|done]. by intros [= <-]. }
  destruct ms as [|m ms]; [done|]. cbn [serve]. destruct (get_code_hash _ m to db0) as [db1 h] eqn:Hg.
  apply get_code_hash_below in Hg as [Hi He]. destruct h as [e|[h|]].
  - destruct ms; [|done]. by intros [= <-].
  - destruct ms; [|done]. by intros [= <-].
  - destruct ms as [|m2 ms]; [done|]. cbn [serve]. destruct (contains_key _ m2).
    { destruct ms; [|done]. by intros [= <-]. }
    destruct (to_hash db1) as [t|]; [|destruct ms; [|done]; by intros [= <-]].
    destruct ms as [|m3 [|]]; [done| |done]. by intros [= <-].
Qed.

Context (evm_of : TxEnv → evm (EvmError + ResultAndState)).
Context (spec_id : SpecId) (block_env : BlockEnv) (txs : list TxEnv).

Lemma vm_reads_below i tx ms e :
  serve (vm_reads hash_deterministic bytecode_of evm_of i tx) ms = Some (RDone (inl e)) → error_below i e.
Proof.
  intros (ms1 & ms2 & [e'|db] & -> & H1%VmDb_new_below & H2)%serve_bind_done.
  - destruct ms2; [|done]. by injection H2 as ->.
  - apply serve_bind_done in H2 as (ms3 & ms4 & [db' [e'|o]] & -> & H2%transact_below & H3); [|by destruct ms4].
    destruct ms4; [|done]. injection H3 as ->. destruct H2 as [_ H2]. by rewrite H1 in H2.
Qed.

Lemma from_read_error_below i e : error_below i e → blocks_below i (from_read_error e).
Proof. by destruct e. Qed.

Lemma add_reward_error amount value e : add_reward amount value = inl e → e = InvalidMemoryValueType.
Proof. destruct value; by intros [= <-]. Qed.

Lemma apply_reward_error l amount ws e : apply_reward l amount ws = inl e → e = InvalidMemoryValueType.
Proof.
  induction ws as [|[x value] ws IH]; simpl; [done|]. case_bool_decide.
  - destruct (add_reward amount value) eqn:Ha; [intros [= <-]; by eapply add_reward_error|done].
  - destruct (apply_reward l amount ws); [intros [= <-]; by apply IH|done].
Qed.

Lemma vm_effects_error tx db r e :
  vm_effects hash_deterministic spec_id block_env tx db r = inl e → e = InvalidMemoryValueType.
Proof.
  unfold vm_effects, apply_rewards. destruct (apply_all _ _) as [e'|ws] eqn:Ha; [|done]. intros [= <-].
  revert Ha. generalize (state_writes hash_deterministic spec_id db r). induction (rewards _ _ _ _ _) as [|[l a] l' IH];
    intros ws; simpl; [done|].
  destruct (apply_reward l a ws) eqn:Hr; [intros [= <-]; by eapply apply_reward_error|]. apply IH.
Qed.

Definition bytecodes_changed (m m' : MvMemory) : Prop := ∃ c, m' = with_bytecodes m c.

#[local] Instance bytecodes_changed_refl : Reflexive bytecodes_changed.
Proof. intros m. exists (new_bytecodes m). by destruct m. Qed.

Lemma deploy_within l : within True bytecodes_changed (deploy l) (λ _, True).
Proof.
  induction l as [|[h code] l IH]; [done|]. simpl. intros m. unfold deploy_one.
  destruct (new_bytecodes m !! h); [by split|]. destruct code as [c|]; [|done]. split; [by eexists|done].
Qed.

Lemma vm_finish_within i tx r :
  (∀ e, r = inl e → error_below i e) →
  within True bytecodes_changed (vm_finish hash_deterministic spec_id block_env i tx r) (blocks_below i).
Proof.
  intros Hr. destruct r as [e|[db [e|r]]]; simpl.
  - apply from_read_error_below. by apply Hr.
  - destruct e; simpl; [| |done]; case_bool_decide; simpl; [lia|done|lia|done].
  - eapply within_bind; [apply deploy_within|]. intros _ _.
    destruct (vm_effects _ _ _ tx db r) as [e|[[ws result]|]] eqn:He; [|done|done].
    apply vm_effects_error in He as ->. done.
Qed.

(** The real virtual machine is one the executor can rely on. *)
#[global] Instance vm_execute_spec : VmSpec True (vm_execute hash_deterministic bytecode_of evm_of spec_id block_env txs).
Proof.
  intros v. apply within_focus with (rel' := bytecodes_changed).
  { intros g m [c ->]. by exists c. }
  unfold vm_execute_mem. destruct (txs !! tx_idx v) as [tx|]; [|done].
  apply within_bind with (P := λ r, ∀ e, r = inl e → error_below (tx_idx v) e); [|apply vm_finish_within].
  apply within_reading; [apply bytecodes_changed_refl|]. intros ms r Hr e ->. by eapply vm_reads_below.
Qed.
End vm_spec.
