(* ===== verification/VmRepeat.v ===== *)
(** * Executions that other threads disturbed

    An execution whose reads were served from memories that other threads kept changing
    is the execution of the transaction alone on any memory that confirms the reads it
    recorded ([witnessed_repeats]). The EVM is revm, a parameter; [EvmSpec] is what the
    proofs need of it. *)

From S2P Require Import Prelude PevmTypes Concurrent Scheduler MvMemory VmDb Chain BlockStm VmExecute.

(** [yields ans e ans' o]: on some answers of the database, [e] ends in [o]; [ans'] are the
    last answers for each account. *)
Inductive yields {Out} : gmap N (option AccountInfo) → evm Out → gmap N (option AccountInfo) → Out → Prop :=
| yields_done ans o : yields ans (EvmDone o) ans o
| yields_basic ans a k r ans' o : yields (<[a := r]> ans) (k r) ans' o → yields ans (EvmBasic a k) ans' o
| yields_storage ans a i k r ans' o : yields ans (k r) ans' o → yields ans (EvmStorage a i k) ans' o
| yields_code ans h k r ans' o : yields ans (k r) ans' o → yields ans (EvmCodeByHash h k) ans' o
| yields_has ans a k r ans' o : yields ans (k r) ans' o → yields ans (EvmHasStorage a k) ans' o
| yields_hash ans x k r ans' o : yields ans (k r) ans' o → yields ans (EvmBlockHash x k) ans' o.

(** The database gave no code hash for the account. *)
Definition answered_no_code (ans : gmap N (option AccountInfo)) (a : N) : Prop :=
  ∀ info, ans !! a = Some (Some info) → info_code_hash info = KECCAK_EMPTY.

(** The state the EVM hands over is a map from addresses to accounts, whose changed slots
    are a map too; a contract that the database did not know comes with the bytecode that
    its code hash is the hash of. *)
Class EvmSpec (evm_of : TxEnv → evm (EvmError + ResultAndState)) (code_of : N → N) : Prop := {
  evm_keys tx ans r : yields ∅ (evm_of tx) ans (inr r) →
    NoDup (result_state r).*1 ∧ ∀ a acc, (a, acc) ∈ result_state r → NoDup (acc_changed acc).*1;
  evm_new_code tx ans r a acc : yields ∅ (evm_of tx) ans (inr r) → (a, acc) ∈ result_state r →
    has_code (acc_info acc) = true → answered_no_code ans a →
    info_code (acc_info acc) = Some (code_of (info_code_hash (acc_info acc))) }.

(** ** The accounts that were read *)

Definition keeps {A} (p : db_op A) : Prop := ∀ db db' r, p db = (db', r) → read_accounts db' = read_accounts db.

Lemma keeps_bind {A B} (p : db_op A) (f : A → db_op B) : keeps p → (∀ a, keeps (f a)) → keeps (db_bind p f).
Proof.
  intros Hp Hf db db' r. unfold db_bind. destruct (p db) as [db1 [e|a]] eqn:H1; [by intros [= <- <-]; apply (Hp _ _ _ H1)|].
  intros Hr%Hf. by rewrite Hr, (Hp _ _ _ H1).
Qed.
Lemma keeps_try {A} (r : ReadError + A) : keeps (db_try r).
Proof. by intros db db' r' [= <- <-]. Qed.

Section repeat.
Context (hash_deterministic : MemoryLocation → MemoryLocationHash) (hash_inj : Inj (=) (=) hash_deterministic).
Context {st : Storage} (bytecode_of : N → N + N) {chain_rules : PevmChain}.
Context (vals : MemoryLocationHash → TxIdx → TxIncarnation → option MemoryValue) (code_of : N → N).
Local Notation chain := (chain vals code_of).
Local Notation mem_ok := (mem_ok vals code_of).
Local Notation db_wf := (db_wf hash_deterministic).

Lemma push_keeps l o : keeps (push l o).
Proof. intros db db' r. unfold push. destruct (push_origin _ _); by intros [= <- <-]. Qed.

Lemma get_code_hash_keeps m a : keeps (get_code_hash hash_deterministic m a).
Proof.
  intros db db' r. unfold get_code_hash.
  destruct (closest m _ (db_tx_idx db)) as [[j [k []|]]|]; try (by intros [= <- <-]);
    apply keeps_bind; try apply push_keeps; intros []; apply keeps_try.
Qed.

Lemma basic_entries_keeps m a : keeps (basic_entries hash_deterministic m a).
Proof.
  intros db db' r. unfold basic_entries. destruct (is_lazy db && _); [by intros [= <- <-]|].
  destruct (is_lazy db && _); [by intros [= <- <-]|]. destruct (scan_entries _ _ _); [by intros [= <- <-]|].
  destruct (scan_storage _ a _) as [e|[]]; by intros [= <- <-].
Qed.

Lemma basic_code_hash_keeps m a sc account : keeps (basic_code_hash hash_deterministic m a sc account).
Proof.
  intros db db' r. unfold basic_code_hash. destruct (bool_decide _ && _); [by intros [= <- <-]|].
  apply keeps_bind; [|intros ch; apply keeps_try]. destruct (bool_decide _); [apply keeps_try|apply get_code_hash_keeps].
Qed.

Lemma storage_keeps m a i : keeps (storage hash_deterministic m a i).
Proof.
  intros db db' r. unfold storage, storage_read. set (l := hash_deterministic _).
  assert (Hgo : ∀ p : db_op N, keeps p → p (with_storage_key db l) = (db', r) → read_accounts db' = read_accounts db).
  { intros p Hp Hr. exact (Hp _ _ _ Hr). }
  assert (Hst : keeps (db_bind (push l StorageOrigin) (λ _, db_try (map_err (storage_storage a i))))).
  { apply keeps_bind; [apply push_keeps|]. intros _. apply keeps_try. }
  case_bool_decide; [|by apply Hgo].
  destruct (closest m l _) as [[j [k v|]]|]; [|by intros [= <- <-]|by apply Hgo].
  destruct v; try (by intros [= <- <-]). apply Hgo, keeps_bind; [apply push_keeps|]. intros _. apply keeps_try.
Qed.

(** The code hashes in [read_accounts] are those of the last answers. *)
Definition no_code (db : VmDb) (a : N) : Prop :=
  match read_accounts db !! hash_deterministic (BasicLocation a) with Some (_, Some _) => False | _ => True end.
Definition accounts_match (ans : gmap N (option AccountInfo)) (db : VmDb) : Prop :=
  ∀ a, no_code db a → answered_no_code ans a.

Lemma accounts_match_same ans db db' :
  read_accounts db' = read_accounts db → accounts_match ans db → accounts_match ans db'.
Proof. intros Heq Hm a. unfold no_code. rewrite Heq. apply Hm. Qed.

Lemma accounts_match_answer ans db a r :
  accounts_match ans db → (∀ info, r = Some info → info_code_hash info = KECCAK_EMPTY) →
  accounts_match (<[a := r]> ans) db.
Proof.
  intros Hm Hr a' Ha' info. destruct (decide (a = a')) as [->|Hne].
  - rewrite lookup_insert_eq. intros [= Hinfo]. by apply Hr.
  - rewrite lookup_insert_ne by done. by apply Hm.
Qed.

Lemma basic_matches a db ms db' r ans :
  db_wf db → accounts_match ans db →
  serve (basic hash_deterministic bytecode_of a db) ms = Some (RDone (db', inr r)) →
  accounts_match (<[a := r]> ans) db'.
Proof.
  intros Hwf Hm. unfold basic, rbind, access, lift, db_try.
  destruct ms as [|m1 ms]; [done|]. cbn [serve reader_bind].
  destruct (basic_entries hash_deterministic m1 a db) as [db1 r1] eqn:H1.
  pose proof (basic_entries_keeps _ _ _ _ _ H1) as Hk1.
  destruct r1 as [e|[info|[sc account]]]; [by destruct ms|..].
  { destruct ms; [|done]. intros [= <- <-]. apply accounts_match_answer; [by eapply accounts_match_same|].
    intros info' ->. unfold basic_entries in H1. destruct (is_lazy db && _); [by simplify_eq|].
    destruct (is_lazy db && _); [by simplify_eq|]. destruct (scan_entries _ _ _); [done|].
    destruct (scan_storage _ a _) as [e|[o [acc|]]]; by simplify_eq. }
  destruct ms as [|m2 ms]; [done|]. cbn [serve reader_bind].
  destruct (basic_code_hash hash_deterministic m2 a sc account db1) as [db2 [e|[acc ch]]] eqn:H2; [by destruct ms|].
  pose proof (basic_code_hash_keeps _ _ _ _ _ _ _ H2) as Hk2.
  destruct (basic_entries_repeatable hash_deterministic bytecode_of m1 m1 a (λ l j k v v' E1 E2, ltac:(congruence)) _ _ _ Hwf H1)
    as (Hwf1 & _ & _).
  destruct (basic_code_hash_repeatable hash_deterministic bytecode_of hash_inj m2 m2 a sc account (λ l j k v v' E1 E2, ltac:(congruence)) _ _ _ Hwf1 H2)
    as (Hwf2 & _ & _).
  destruct ms as [|m3 [|]]; [done| |done]. cbn [serve reader_bind]. unfold basic_code, db_bind, db_try.
  destruct (fetch_code _ _ ch) as [e|code]; [done|]. rewrite (hash_basic_wf hash_deterministic db2 a Hwf2).
  intros [= <- <-]. intros a' Ha' info. unfold no_code in Ha'. simpl in Ha'. destruct (decide (a = a')) as [->|Hne].
  - rewrite lookup_insert_eq. intros [= <-]. rewrite lookup_insert_eq in Ha'. by destruct ch.
  - rewrite lookup_insert_ne by done. rewrite lookup_insert_ne in Ha' by (intros Heq%hash_inj; congruence).
    apply Hm. unfold no_code. by rewrite <-Hk1, <-Hk2.
Qed.

Lemma served_once {A} (f : MvMemory → db_op A) db ms db' r :
  serve (access f db) ms = Some (RDone (db', r)) → ∃ m, ms = [m] ∧ f m db = (db', r).
Proof. destruct ms as [|m [|]]; [done| |done]. intros [= Hr]. eauto. Qed.
Lemma served_never {A} (p : db_op A) db ms db' r : serve (lift p db) ms = Some (RDone (db', r)) → p db = (db', r).
Proof. destruct ms; [|done]. by intros [= Hr]. Qed.
Lemma rbind_served {A B} (p : db_reader A) (f : A → db_reader B) db ms db' b :
  serve (rbind p f db) ms = Some (RDone (db', inr b)) → ∃ ms1 ms2 db1 a, ms = ms1 ++ ms2 ∧
    serve (p db) ms1 = Some (RDone (db1, inr a)) ∧ serve (f a db1) ms2 = Some (RDone (db', inr b)).
Proof.
  intros (ms1 & ms2 & [db1 [e|a]] & -> & H1 & H2)%serve_bind_done; [by destruct ms2|]. by exists ms1, ms2, db1, a.
Qed.

Context (storage_code : storage_has_code bytecode_of code_of).

(** The empty memory confirms nothing and contradicts nothing. *)
Definition empty_memory : MvMemory := MvMemory_new 0 [] [].
Lemma empty_memory_ok : mem_ok empty_memory.
Proof. by split. Qed.

Local Notation repeats := (repeats hash_deterministic vals code_of).
Local Notation to_known := (to_known hash_deterministic vals code_of).

Lemma served_wf {A} (p : db_reader A) (Q : A → gmap N N → VmDb → Prop) c db ms db1 a :
  repeats empty_memory (λ _ _, True) p Q → db_wf db → to_known c db → chain c ms →
  serve (p db) ms = Some (RDone (db1, inr a)) → db_wf db1 ∧ to_known (chain_end c ms) db1.
Proof.
  intros Hp Hwf Hto Hch Hs. destruct (Hp c db ms db1 a Hwf Hto I Hch Hs) as (Hwf1 & Hext & _ & _).
  split; [done|]. eapply to_known_mono; [by eapply chain_grows|done..].
Qed.

(** What the EVM was answered explains its outcome. *)
Lemma transact_yields {Out} (e : evm Out) : ∀ c db ms db' out ans,
  db_wf db → to_known c db → chain c ms → accounts_match ans db →
  serve (transact hash_deterministic bytecode_of e db) ms = Some (RDone (db', inr out)) →
  ∃ ans', yields ans e ans' out ∧ accounts_match ans' db'.
Proof.
  pose proof empty_memory_ok as Hok.
  assert (Hsame : ∀ m, mem_ok m → same_versions m empty_memory) by (intros m _ l j k v v' _; done).
  induction e as [o|a k IH|a i k IH|h k IH|a k IH|x k IH]; intros c db ms db' out ans Hwf Hto Hch Hm Hs; simpl in Hs.
  { apply served_never in Hs as [= <- <-]. exists ans. split; [constructor|done]. }
  all: apply rbind_served in Hs as (ms1 & ms2 & db1 & r & -> & H1 & H2); apply chain_app in Hch as [Hch1 Hch2].
  - destruct (served_wf (basic hash_deterministic bytecode_of a) _ c db ms1 db1 r (basic_repeats _ _ _ _ _ storage_code _ Hok a) Hwf Hto Hch1 H1) as [Hwf1 Hto1].
    destruct (IH r _ db1 ms2 db' out (<[a := r]> ans) Hwf1 Hto1 Hch2) as (ans' & Hy & Hm'); [exact (basic_matches a db ms1 db1 r ans Hwf Hm H1)|done|].
    exists ans'. split; [by econstructor|done].
  - destruct (served_wf (access (λ m, storage hash_deterministic m a i)) (λ _ _ _, True) c db ms1 db1 r) as [Hwf1 Hto1]; [|done..|].
    { apply repeats_access_plain. intros m Hm0. apply storage_repeatable; [done..|by apply Hsame]. }
    apply served_once in H1 as (m & -> & H1). apply storage_keeps in H1.
    destruct (IH r _ db1 ms2 db' out ans Hwf1 Hto1 Hch2) as (ans' & Hy & Hm'); [by eapply accounts_match_same|done|].
    exists ans'. split; [by econstructor|done].
  - destruct (served_wf (lift (code_by_hash bytecode_of h)) (λ _ _ _, True) c db ms1 db1 r) as [Hwf1 Hto1]; [|done..|].
    { apply repeats_lift, repeatable_bind; [apply repeatable_try|]. intros [y|]; apply repeatable_try. }
    apply served_never in H1. assert (read_accounts db1 = read_accounts db) as Hk.
    { revert H1. apply keeps_bind; [apply keeps_try|]. intros [y|]; apply keeps_try. }
    destruct (IH r _ db1 ms2 db' out ans Hwf1 Hto1 Hch2) as (ans' & Hy & Hm'); [by eapply accounts_match_same|done|].
    exists ans'. split; [by econstructor|done].
  - destruct (served_wf (lift (has_storage a)) (λ _ _ _, True) c db ms1 db1 r) as [Hwf1 Hto1]; [apply repeats_lift, repeatable_try|done..|].
    apply served_never, keeps_try in H1.
    destruct (IH r _ db1 ms2 db' out ans Hwf1 Hto1 Hch2) as (ans' & Hy & Hm'); [by eapply accounts_match_same|done|].
    exists ans'. split; [by econstructor|done].
  - destruct (served_wf (lift (block_hash x)) (λ _ _ _, True) c db ms1 db1 r) as [Hwf1 Hto1]; [apply repeats_lift, repeatable_try|done..|].
    apply served_never, keeps_try in H1.
    destruct (IH r _ db1 ms2 db' out ans Hwf1 Hto1 Hch2) as (ans' & Hy & Hm'); [by eapply accounts_match_same|done|].
    exists ans'. split; [by econstructor|done].
Qed.

(** ** The write set *)

Context (evm_of : TxEnv → evm (EvmError + ResultAndState)) {evm_spec : EvmSpec evm_of code_of}.
Context (spec_id : SpecId) (block_env : BlockEnv).

(** The locations of an account. *)
Definition of_address (a : N) (l : MemoryLocationHash) : Prop :=
  l = hash_deterministic (BasicLocation a) ∨ l = hash_deterministic (CodeHashLocation a) ∨
  ∃ i, l = hash_deterministic (StorageLocation a i).

Lemma of_address_inj a a' l : of_address a l → of_address a' l → a = a'.
Proof.
  intros [->|[->|[i ->]]] [H|[H|[j H]]]; apply hash_inj in H; congruence.
Qed.

Lemma basic_write_location db a acc l :
  l ∈ (basic_write hash_deterministic spec_id db a acc).*1 → l = hash_deterministic (BasicLocation a).
Proof.
  unfold basic_write. repeat (case_match; simpl; try (by rewrite ?elem_of_nil)); by rewrite ?list_elem_of_singleton, ?elem_of_nil.
Qed.
Lemma code_write_location db a acc l :
  l ∈ (code_write hash_deterministic db a acc).*1 → l = hash_deterministic (CodeHashLocation a).
Proof. unfold code_write. case_match; simpl; by rewrite ?list_elem_of_singleton, ?elem_of_nil. Qed.

Lemma slot_location a (l : list (N * N)) x :
  x ∈ ((λ '(slot, value), (hash_deterministic (StorageLocation a slot), StorageValue value)) <$> l).*1 →
  ∃ i, i ∈ l.*1 ∧ x = hash_deterministic (StorageLocation a i).
Proof.
  rewrite <-list_fmap_compose. intros ([i v] & -> & Hin)%list_elem_of_fmap. exists i. split; [|done].
  by apply (list_elem_of_fmap_2 fst _ (i, v)).
Qed.

Lemma account_writes_location db a acc l :
  l ∈ (account_writes hash_deterministic spec_id db (a, acc)).*1 → of_address a l.
Proof.
  unfold account_writes, of_address. destruct (is_selfdestructed acc).
  { simpl. rewrite list_elem_of_singleton. eauto. }
  rewrite fmap_app, elem_of_app. intros [Hl|Hl].
  - destruct (is_touched acc); [|by apply not_elem_of_nil in Hl]. rewrite fmap_app, elem_of_app in Hl.
    destruct Hl as [->%basic_write_location| ->%code_write_location]; eauto.
  - apply slot_location in Hl as (i & _ & ->). eauto.
Qed.

Lemma account_writes_nodup db a acc :
  NoDup (acc_changed acc).*1 → NoDup (account_writes hash_deterministic spec_id db (a, acc)).*1.
Proof.
  intros Hnd. unfold account_writes. destruct (is_selfdestructed acc); [simpl; apply NoDup_singleton|].
  assert (Hslots : NoDup ((λ '(slot, value), (hash_deterministic (StorageLocation a slot), StorageValue value)) <$> acc_changed acc).*1).
  { induction (acc_changed acc) as [|[i v] l IH]; simpl; [constructor|]. apply NoDup_cons in Hnd as [Hni Hnd].
    constructor; [|by apply IH]. intros (j & Hj & Heq)%slot_location. apply hash_inj in Heq. simplify_eq. done. }
  rewrite fmap_app. apply NoDup_app. split_and!; [| |done].
  - destruct (is_touched acc); [|constructor]. rewrite fmap_app. apply NoDup_app. split_and!.
    + unfold basic_write. repeat (case_match; simpl; try apply NoDup_singleton; try constructor).
    + intros l ->%basic_write_location Hl%code_write_location. by apply hash_inj in Hl.
    + unfold code_write. case_match; simpl; [apply NoDup_singleton|constructor].
  - intros l Hl (i & _ & ->)%slot_location. destruct (is_touched acc); [|by apply not_elem_of_nil in Hl].
    rewrite fmap_app, elem_of_app in Hl. destruct Hl as [Hl%basic_write_location|Hl%code_write_location]; by apply hash_inj in Hl.
Qed.

Lemma state_writes_nodup db (l : list (N * Account)) :
  NoDup l.*1 → (∀ a acc, (a, acc) ∈ l → NoDup (acc_changed acc).*1) →
  NoDup (l ≫= account_writes hash_deterministic spec_id db).*1.
Proof.
  induction l as [|[a acc] l IH]; intros Hnd Hslots; [constructor|]. simpl in Hnd. apply NoDup_cons in Hnd as [Hni Hnd].
  rewrite bind_cons, fmap_app. apply NoDup_app. split_and!.
  - apply account_writes_nodup. eapply Hslots. by left.
  - intros x Hx%account_writes_location Hin. apply list_elem_of_fmap in Hin as (y & -> & Hy).
    apply list_elem_of_bind in Hy as ([a' acc'] & Hy & Hin).
    assert (Ha' : of_address a' y.1) by (eapply account_writes_location, list_elem_of_fmap_2; exact Hy).
    rewrite (of_address_inj _ _ _ Hx Ha') in Hni. destruct Hni. by apply (list_elem_of_fmap_2 fst _ (a', acc')).
  - apply IH; [done|]. intros a' acc' Hin. eapply Hslots. by right.
Qed.

Lemma apply_reward_locations l amount ws ws' :
  apply_reward l amount ws = inr ws' → ws'.*1 = ws.*1 ∨ l ∉ ws.*1 ∧ ws'.*1 = ws.*1 ++ [l].
Proof.
  revert ws'. induction ws as [|[x value] ws IH]; intros ws'; simpl.
  - intros [= <-]. right. split; [by apply not_elem_of_nil|done].
  - case_bool_decide as Hx.
    + destruct (add_reward amount value); [done|]. intros [= <-]. by left.
    + destruct (apply_reward l amount ws) as [e|ws1]; [done|]. intros [= <-]. destruct (IH ws1 eq_refl) as [Heq|[Hni Heq]]; simpl.
      * left. by f_equal.
      * right. split; [apply not_elem_of_cons; split; [congruence|done]|]. by f_equal.
Qed.

Lemma apply_all_nodup rs : ∀ ws ws', NoDup ws.*1 → apply_all rs ws = inr ws' → NoDup ws'.*1.
Proof.
  induction rs as [|[l amount] rs IH]; intros ws ws' Hnd; simpl; [by intros [= <-]|].
  destruct (apply_reward l amount ws) as [e|ws1] eqn:Hr; [done|]. apply IH.
  apply apply_reward_locations in Hr as [->|[Hni ->]]; [done|]. apply NoDup_app. split_and!; [done| |apply NoDup_singleton].
  intros x Hx ->%list_elem_of_singleton. done.
Qed.

(** A reward never touches a code hash. *)
Lemma apply_reward_code l amount ws ws' x h :
  apply_reward l amount ws = inr ws' → (x, CodeHashValue h) ∈ ws' → (x, CodeHashValue h) ∈ ws.
Proof.
  revert ws'. induction ws as [|[y value] ws IH]; intros ws'; simpl.
  - intros [= <-]. rewrite list_elem_of_singleton. done.
  - case_bool_decide as Hy.
    + destruct (add_reward amount value) as [e|value'] eqn:Ha; [done|]. intros [= <-] [Heq|Hin]%elem_of_cons; [|by right].
      injection Heq as -> <-. by destruct value.
    + destruct (apply_reward l amount ws) as [e|ws1]; [done|]. intros [= <-] [Heq|Hin]%elem_of_cons; [rewrite Heq; by left|].
      right. by eapply IH.
Qed.

Lemma apply_all_code rs : ∀ ws ws' x h,
  apply_all rs ws = inr ws' → (x, CodeHashValue h) ∈ ws' → (x, CodeHashValue h) ∈ ws.
Proof.
  induction rs as [|[l amount] rs IH]; intros ws ws' x h; simpl; [by intros [= <-]|].
  destruct (apply_reward l amount ws) as [e|ws1] eqn:Hr; [done|]. intros Ha Hin.
  eapply apply_reward_code; [done|]. by eapply IH.
Qed.

(** A code hash is written by a deployment. *)
Lemma state_writes_code db r x h :
  (x, CodeHashValue h) ∈ state_writes hash_deterministic spec_id db r →
  ∃ code, (h, code) ∈ deployments hash_deterministic db r.
Proof.
  intros ([a acc] & Hin & Hst)%list_elem_of_bind. exists (info_code (acc_info acc)).
  apply list_elem_of_omap. exists (a, acc). split; [done|]. unfold account_writes in Hin.
  destruct (is_selfdestructed acc); [by apply list_elem_of_singleton in Hin|]. simpl.
  apply elem_of_app in Hin as [Hin|Hin].
  - destruct (is_touched acc); [|by apply not_elem_of_nil in Hin]. simpl. apply elem_of_app in Hin as [Hin|Hin].
    + exfalso. unfold basic_write in Hin.
      repeat (case_match; try (by apply not_elem_of_nil in Hin)); by apply list_elem_of_singleton in Hin.
    + unfold code_write in Hin. case_match; [|by apply not_elem_of_nil in Hin].
      apply list_elem_of_singleton in Hin. by injection Hin as _ ->.
  - apply list_elem_of_fmap in Hin as ([i v] & ? & _). done.
Qed.

(** ** Executions *)

(** [x] is the outcome of an execution whose reads were served from changing memories. *)
Definition witnessed (i : TxIdx) (tx : TxEnv) (x : execution) : Prop := ∃ c ms r,
  chain c ms ∧ serve (vm_reads hash_deterministic bytecode_of evm_of i tx) ms = Some (RDone r) ∧
  execution_of hash_deterministic spec_id block_env tx r = Some x.

(** The parts of a successful execution. *)
Lemma served_parts i tx c ms db rs :
  chain c ms → serve (vm_reads hash_deterministic bytecode_of evm_of i tx) ms = Some (RDone (inr (db, inr rs))) →
  ∃ ms1 ms2 db0, ms = ms1 ++ ms2 ∧ chain c ms1 ∧ chain (chain_end c ms1) ms2 ∧
    serve (VmDb_new hash_deterministic i tx) ms1 = Some (RDone (inr db0)) ∧
    serve (transact hash_deterministic bytecode_of (evm_of tx) db0) ms2 = Some (RDone (db, inr (inr rs))).
Proof.
  intros Hch (ms1 & ms2 & [e|db0] & -> & H1 & H2)%serve_bind_done; [by destruct ms2|].
  apply serve_bind_done in H2 as (ms3 & ms4 & [db' [e|o]] & -> & H2 & H3); (destruct ms4; [|done]); injection H3 as H3; [done|].
  rewrite app_nil_r in *. apply chain_app in Hch as [Hch1 Hch2]. simplify_eq. by exists ms1, ms3, db0.
Qed.

Lemma execution_parts tx r x :
  execution_of hash_deterministic spec_id block_env tx r = Some x → ∃ db rs ws result, r = inr (db, inr rs) ∧
    apply_rewards hash_deterministic spec_id block_env tx (gas_used rs) (state_writes hash_deterministic spec_id db rs) = inr ws ∧
    from_revm spec_id rs = Some result ∧
    x = mkExecution (read_set db) ws (deployments hash_deterministic db rs) result.
Proof.
  destruct r as [e|[db [e|rs]]]; [done..|]. simpl. unfold vm_effects.
  destruct (apply_rewards _ _ _ tx _ _) as [e|ws] eqn:Hr; [done|]. destruct (from_revm spec_id rs) as [result|] eqn:Hres; [|done].
  simpl. intros [= <-]. by exists db, rs, ws, result.
Qed.

(** What the state of a successful execution consists of. *)
Lemma served_state i tx c ms db rs :
  chain c ms → serve (vm_reads hash_deterministic bytecode_of evm_of i tx) ms = Some (RDone (inr (db, inr rs))) →
  NoDup (state_writes hash_deterministic spec_id db rs).*1 ∧
  ∀ h code, (h, code) ∈ deployments hash_deterministic db rs → code = Some (code_of h).
Proof.
  intros Hch Hs. destruct (served_parts i tx c ms db rs Hch Hs) as (ms1 & ms2 & db0 & -> & Hch1 & Hch2 & H1 & H2).
  destruct (VmDb_new_repeats hash_deterministic bytecode_of hash_inj vals code_of _ empty_memory_ok i tx c ms1 db0 Hch1 H1)
    as (Hwf & Hto & _).
  destruct (transact_yields (evm_of tx) _ db0 ms2 db (inr rs) ∅ Hwf Hto Hch2) as (ans & Hy & Hm); [|done|].
  { intros a _ info. by rewrite lookup_empty. }
  destruct (evm_keys tx ans rs Hy) as [Hnd Hslots]. split; [by apply state_writes_nodup|].
  intros h code ([a acc] & Hin & Hd)%list_elem_of_omap. destruct (is_selfdestructed acc); [done|].
  destruct (is_touched acc); [|done]. simpl in Hd. destruct (is_new_code hash_deterministic db a acc) eqn:Hnew; [|done].
  injection Hd as <- <-. unfold is_new_code in Hnew. apply andb_true_iff in Hnew as [Hcode Hacc].
  eapply evm_new_code; [done..|]. apply Hm. unfold no_code. by destruct (read_accounts db !! _) as [[? []]|].
Qed.

(** A successful execution writes every location once, and deploys the bytecodes of the
    code hashes it writes. *)
Lemma witnessed_writes i tx x :
  witnessed i tx x →
  NoDup (exec_writes x).*1 ∧ (∀ h c, (h, c) ∈ exec_codes x → c = Some (code_of h)) ∧
  ∀ l h, (l, CodeHashValue h) ∈ exec_writes x → (h, Some (code_of h)) ∈ exec_codes x.
Proof.
  intros (c & ms & r & Hch & Hs & Hx). destruct (execution_parts tx r x Hx) as (db & rs & ws & result & -> & Hr & _ & ->).
  destruct (served_state i tx c ms db rs Hch Hs) as [Hnd Hcodes]. simpl. split_and!; [|done|].
  - by eapply apply_all_nodup.
  - intros l h Hin. eapply apply_all_code in Hin; [|done]. apply state_writes_code in Hin as [code Hin].
    by rewrite <-(Hcodes h code Hin).
Qed.

(** On a memory that confirms its reads, the transaction executes alone to the same outcome. *)
Lemma witnessed_repeats i tx x m' :
  witnessed i tx x → mem_ok m' → (∀ l o, exec_reads x !! l = Some o → confirmed m' i l o) →
  ∃ lazy, execute_as hash_deterministic bytecode_of evm_of spec_id block_env i tx lazy m' = Some x.
Proof.
  intros (c & ms & r & Hch & Hs & Hx) Hm' Hv.
  destruct (execution_parts tx r x Hx) as (db & rs & ws & result & -> & _ & _ & ->).
  destruct (served_parts i tx c ms db rs Hch Hs) as (ms1 & ms2 & db0 & -> & Hch1 & Hch2 & H1 & H2).
  destruct (VmDb_new_repeats hash_deterministic bytecode_of hash_inj vals code_of m' Hm' i tx c ms1 db0 Hch1 H1)
    as (Hwf & Hto & Hi & _ & lazy & Hnew).
  destruct (transact_repeats hash_deterministic bytecode_of hash_inj vals code_of storage_code m' Hm' (evm_of tx) _ db0 ms2 db
              (inr rs) Hwf Hto I Hch2 H2) as (_ & Hext & _ & Hrun).
  assert (Hvalid : reads_valid m' db).
  { intros l o Hl. rewrite (ext_idx _ _ Hext), Hi. by apply Hv. }
  exists lazy. unfold execute_as, vm_reads_as. rewrite alone_bind, Hnew by (by eapply reads_valid_sub).
  simpl. rewrite alone_bind, Hrun by done. exact Hx.
Qed.
End repeat.

(** ** Values of versions

    More versions with known values do no harm. *)
Section mono.
Context (vals vals' : MemoryLocationHash → TxIdx → TxIncarnation → option MemoryValue) (code_of : N → N).
Context (Hvals : ∀ l j k v, vals l j k = Some v → vals' l j k = Some v).

Lemma mem_ok_mono m : mem_ok vals code_of m → mem_ok vals' code_of m.
Proof. intros [H1 H2 H3]. split; [|done|done]. intros l j k v He. by apply Hvals, H1. Qed.

Lemma chain_mono c ms : chain vals code_of c ms → chain vals' code_of c ms.
Proof.
  revert c. induction ms as [|m ms IH]; intros c; [done|]. intros (Hm & Hc & Hms).
  split_and!; [by apply mem_ok_mono|done|by apply IH].
Qed.

Lemma witnessed_mono hash {st : Storage} bytecode_of {chain_rules : PevmChain} evm_of spec_id block_env i tx x :
  witnessed hash bytecode_of vals code_of evm_of spec_id block_env i tx x →
  witnessed hash bytecode_of vals' code_of evm_of spec_id block_env i tx x.
Proof. intros (c & ms & r & Hch & Hs & Hx). exists c, ms, r. split_and!; [by apply chain_mono|done..]. Qed.
End mono.
