(* ===== verification/BlockStmInv.v ===== *)
(** * Invariant of the parallel executor

    Every worker of BlockStm carries a ghost [token] that says where it is in its task
    and what it owes: a transaction it executes, a status lock it holds, dependents it has
    drained and must wake, a read set whose validation is due. [Inv] ties the tokens
    to the shared state. Its clauses are stated over the lists the tokens contribute
    ([gather]), so that a step that moves no contribution of a clause preserves it by
    computation. *)

From S2P Require Import Prelude PevmTypes Concurrent Scheduler MvMemory BlockStm.

Inductive token :=
(* looking for a task *)
| TNext
| TGotE                      (* loaded an execution index past the block *)
| TGotEV                     (* and a validation index past the block *)
| TGotNum (x : N)            (* and the number of validated transactions *)
| TDone                      (* left the loop: nothing to do *)
| TStop                      (* left the loop: aborted *)
| TVal (i : TxIdx)           (* fetched a validation index *)
| TExec (i : TxIdx)          (* fetched an execution index *)
(* validation *)
| TTask (i : TxIdx)
| TCheck (i : TxIdx) (rem : list (MemoryLocationHash * ReadOrigins))
| TBad (i : TxIdx)           (* found an invalid read *)
| TAbort (i : TxIdx) (rem : option (list MemoryLocationHash)) (* converting writes to estimates *)
| TLower (i : TxIdx)         (* made ready, must lower the validation index *)
| TReady (i : TxIdx)         (* made ready, must see to its execution *)
(* execution of incarnation n *)
| TRun (i : TxIdx) (n : TxIncarnation)
| TAborting (i : TxIdx) (n : TxIncarnation)   (* aborting the block *)
| TLost (i : TxIdx) (n : TxIncarnation)       (* given up because the block is aborted *)
| TWrite (i : TxIdx) (n : TxIncarnation) (rmv : list MemoryLocationHash) (new : bool)
| TStored (i : TxIdx) (n : TxIncarnation) (new : bool)
| TFin (i : TxIdx) (n : TxIncarnation) (new : bool)           (* holds the status lock *)
| TResume (i : TxIdx) (n : TxIncarnation) (new : bool) (wake : option TxIdx) (drain : list TxIdx)
| TMin (i : TxIdx) (n : TxIncarnation) (new : bool)
| TFinV (i : TxIdx) (n : TxIncarnation)       (* the validation index was not past i *)
| TFinT (i : TxIdx) (n : TxIncarnation).      (* will return the validation of i *)

(** ** Contributions of a token *)

(** Transactions being executed. *)
Definition runs (t : token) : list (TxIdx * TxIncarnation) :=
  match t with
  | TRun i n | TAborting i n | TLost i n | TWrite i n _ _ | TStored i n _ | TFin i n _
  | TResume i n _ _ _ | TMin i n _ | TFinV i n | TFinT i n => [(i, n)]
  | _ => []
  end.
(** Status locks held. *)
Definition holds (t : token) : list TxIdx :=
  match t with
  | TFin i _ _ | TResume i _ _ _ _ | TMin i _ _ | TFinV i _ | TFinT i _ => [i]
  | _ => []
  end.
(** Transactions whose dependents have been drained. *)
Definition drained (t : token) : list TxIdx :=
  match t with
  | TResume i _ _ _ _ | TMin i _ _ | TFinV i _ | TFinT i _ => [i]
  | _ => []
  end.
(** Aborted transactions that the thread will make ready. *)
Definition stuck (t : token) : list TxIdx :=
  match t with
  | TAbort i _ => [i]
  | TResume _ _ _ _ drain => drain
  | _ => []
  end.
(** Ready transactions that the thread sees to. *)
Definition wakes (t : token) : list TxIdx :=
  match t with
  | TExec i | TLower i | TReady i => [i]
  | TResume _ _ _ (Some d) _ => [d]
  | _ => []
  end.
(** Transactions at or above the minimal validation index. *)
Definition mins (t : token) : list TxIdx :=
  match t with TMin i _ _ | TFinV i _ | TFinT i _ => [i] | _ => [] end.
(** Transactions whose result has been stored. *)
Definition stored (t : token) : list TxIdx :=
  match t with
  | TStored i _ _ | TFin i _ _ | TResume i _ _ _ _ | TMin i _ _ | TFinV i _ | TFinT i _ => [i]
  | _ => []
  end.
(** Stale locations still to be removed. *)
Definition cleans (t : token) : list (TxIdx * MemoryLocationHash) :=
  match t with TWrite i _ rmv _ => (λ l, (i, l)) <$> rmv | _ => [] end.
(** Transactions that count on a validation by the index. *)
Definition finvs (t : token) : list TxIdx := match t with TFinV i _ => [i] | _ => [] end.
Definition vals (t : token) : list TxIdx := match t with TVal i => [i] | _ => [] end.

(** The data of incarnation [n] of [i] at a location that the thread accounts for. *)
Definition owns_data (i : TxIdx) (location : MemoryLocationHash) (n : TxIncarnation) (t : token) : Prop :=
  match t with
  | TWrite i' n' _ _ | TStored i' n' _ | TFin i' n' _ | TResume i' n' _ _ _ | TMin i' n' _
  | TFinV i' n' | TFinT i' n' => i = i' ∧ n = n'
  | TAbort i' None => i = i'
  | TAbort i' (Some rem) => i = i' ∧ location ∈ rem
  | _ => False
  end.

(** The thread will have the read of [location] by [k] validated again. *)
Definition pends (k : TxIdx) (location : MemoryLocationHash) (origins : ReadOrigins) (t : token) : Prop :=
  match t with
  | TVal i | TTask i | TBad i => k = i
  | TCheck i rem => k = i ∧ (location, origins) ∈ rem
  | TAbort i _ | TLower i => (i < k)%nat
  | TWrite i _ _ new | TStored i _ new | TFin i _ new | TResume i _ new _ _ | TMin i _ new =>
      new = true ∧ (i < k)%nat
  | _ => False
  end.

Definition exiting (t : token) : Prop :=
  match t with TGotE | TGotEV | TGotNum _ | TDone | TStop => True | _ => False end.
Definition is_aborting (t : token) : Prop := match t with TAborting _ _ => True | _ => False end.
Definition is_lost (t : token) : Prop := match t with TLost _ _ => True | _ => False end.
Definition is_stop (t : token) : Prop := match t with TStop => True | _ => False end.

(** What the thread has loaded on its way out is still the case. *)
Definition current (n : nat) (s : Scheduler) (t : token) : Prop :=
  match t with
  | TGotE => (n ≤ execution_idx s)%nat
  | TGotEV => (n ≤ execution_idx s)%nat ∧ (n ≤ validation_idx s)%nat
  | TGotNum x => (n ≤ execution_idx s)%nat ∧ (n ≤ validation_idx s)%nat ∧ num_validated s = x
  | TDone => (n ≤ execution_idx s)%nat ∧ (n ≤ validation_idx s)%nat ∧
             (N.of_nat (n - min_validation_idx s) ≤ num_validated s)%N
  | _ => False
  end.

(** ** Lists of tokens *)

Fixpoint gather {T A} (f : T → list A) (toks : list T) : list A :=
  match toks with [] => [] | t :: toks => f t ++ gather f toks end.
Fixpoint any {T} (P : T → Prop) (toks : list T) : Prop :=
  match toks with [] => False | t :: toks => P t ∨ any P toks end.
Fixpoint every {T} (P : T → Prop) (toks : list T) : Prop :=
  match toks with [] => True | t :: toks => P t ∧ every P toks end.

Lemma gather_perm {T A} (f : T → list A) l l' : l ≡ₚ l' → gather f l ≡ₚ gather f l'.
Proof.
  induction 1 as [|t l l' _ IH|t t' l|l1 l2 l3 _ IH1 _ IH2]; simpl; [done|by rewrite IH| |by rewrite IH1].
  rewrite !app_assoc. apply Permutation_app_tail, Permutation_app_comm.
Qed.
Lemma any_perm {T} (P : T → Prop) l l' : l ≡ₚ l' → any P l → any P l'.
Proof. induction 1; simpl; tauto. Qed.
Lemma every_perm {T} (P : T → Prop) l l' : l ≡ₚ l' → every P l → every P l'.
Proof. induction 1; simpl; tauto. Qed.
Lemma gather_sub {T A B} (f : T → list A) (g : T → list B) (h : A → B) x l :
  (∀ t, x ∈ f t → h x ∈ g t) → x ∈ gather f l → h x ∈ gather g l.
Proof.
  intros Hfg. induction l; simpl; [by rewrite elem_of_nil|]. rewrite !elem_of_app. naive_solver.
Qed.

(** ** Clauses *)

Notation statuses := (list TxStatus).

(** Exactly the transactions that a thread executes are [Executing]. *)
Definition c_runs (st : statuses) (r : list (TxIdx * TxIncarnation)) : Prop :=
  NoDup r.*1 ∧ ∀ i n, (i, n) ∈ r ↔ st !! i = Some (mkTxStatus n Executing).
(** Exactly the transactions that wait for a blocking one or are being aborted are
    [Aborting], each in one place. *)
Definition c_stuck (st : statuses) (deps : list (list TxIdx)) (l : list TxIdx) : Prop :=
  NoDup (concat deps ++ l) ∧ ∀ i, i ∈ concat deps ++ l ↔ ∃ n, st !! i = Some (mkTxStatus n Aborting).
(** Dependents are above the transaction they wait for, which is yet to finish. *)
Definition c_deps (st : statuses) (deps : list (list TxIdx)) (l : list TxIdx) : Prop :=
  ∀ (b : TxIdx) ds d, deps !! b = Some ds → d ∈ ds →
    (b < d)%nat ∧ b ∉ l ∧ ∃ tx, st !! b = Some tx ∧ is_executed (status tx) = false.
Definition c_lock (locks : list bool) (l : list TxIdx) : Prop := ∀ i, i ∈ l ↔ locks !! i = Some true.
Definition c_ready (st : statuses) (e : nat) (l : list TxIdx) : Prop :=
  ∀ (i : TxIdx) n, st !! i = Some (mkTxStatus n ReadyToExecute) → (e ≤ i)%nat ∨ i ∈ l.
Definition is_validated (tx : TxStatus) : bool := bool_decide (status tx = Validated).
Definition c_num (st : statuses) (num : N) : Prop :=
  num = N.of_nat (length (List.filter is_validated st)).
Definition executed_at (st : statuses) (i : TxIdx) : Prop :=
  ∃ tx, st !! i = Some tx ∧ is_executed (status tx) = true.
Definition c_min (st : statuses) (m : nat) (l : list TxIdx) : Prop :=
  (∀ i, executed_at st i → (m ≤ i)%nat) ∧ ∀ i, i ∈ l → (m ≤ i)%nat.
Definition c_res {R} (st : statuses) (res : list (option R)) (l : list TxIdx) : Prop :=
  ∀ i, executed_at st i ∨ i ∈ l → ∃ r, res !! i = Some (Some r).
(** Every written location has an entry; every data entry is a written location and
    belongs to the last execution of its transaction. *)
Definition c_mem (st : statuses) (m : MvMemory) (toks : list token) : Prop :=
  (∀ i, writes_present m i) ∧
  ∀ location i n v, entry m location i = Some (Data n v) →
    (∃ last_loc, last_locations m !! i = Some last_loc ∧ location ∈ last_write last_loc) ∧
    (executed_at st i ∨ any (owns_data i location n) toks).
Definition c_clean (m : MvMemory) (l : list (TxIdx * MemoryLocationHash)) : Prop :=
  ∀ i location last_loc, (i, location) ∈ l → last_locations m !! i = Some last_loc →
    location ∉ last_write last_loc.
Definition c_finv (v : nat) (f l : list TxIdx) : Prop := ∀ i, i ∈ f → (v ≤ i)%nat ∨ i ∈ l.
(** A recorded read of an executed transaction is valid, or will be validated. *)
Definition c_valid (st : statuses) (m : MvMemory) (v : nat) (toks : list token) : Prop :=
  ∀ k last_loc location origins, executed_at st k → last_locations m !! k = Some last_loc →
    last_read last_loc !! location = Some origins →
    valid_location m k location origins = true ∨ (v ≤ k)%nat ∨ any (pends k location origins) toks.
(** When every thread is on its way out, one of them is right to leave. *)
Definition c_exit (n : nat) (s : Scheduler) (toks : list token) : Prop :=
  toks ≠ [] → every exiting toks → aborted s = true ∨ any (current n s) toks.

Section inv.
Context {R E : Type} (n : nat).
Implicit Types g : Shared R E.

Definition c_abort (g : Shared R E) (toks : list token) : Prop :=
  (aborted (sched g) = true → is_Some (abort_reason g) ∨ any is_aborting toks) ∧
  (any is_lost toks → is_Some (abort_reason g)) ∧
  (any is_stop toks → aborted (sched g) = true ∨ is_Some (abort_reason g)).

Record c_len (g : Shared R E) : Prop := mkLen {
  len_status : length (transactions_status (sched g)) = n;
  len_lock : length (status_lock (sched g)) = n;
  len_deps : length (transactions_dependents (sched g)) = n;
  len_last : length (last_locations (mem g)) = n;
  len_res : (n ≤ length (execution_results g))%nat }.

Record Inv (g : Shared R E) (toks : list token) : Prop := mkInv {
  I_len : c_len g;
  I_runs : c_runs (transactions_status (sched g)) (gather runs toks);
  I_stuck : c_stuck (transactions_status (sched g)) (transactions_dependents (sched g)) (gather stuck toks);
  I_deps : c_deps (transactions_status (sched g)) (transactions_dependents (sched g)) (gather drained toks);
  I_lock : c_lock (status_lock (sched g)) (gather holds toks);
  I_ready : c_ready (transactions_status (sched g)) (execution_idx (sched g)) (gather wakes toks);
  I_num : c_num (transactions_status (sched g)) (num_validated (sched g));
  I_min : c_min (transactions_status (sched g)) (min_validation_idx (sched g)) (gather mins toks);
  I_res : c_res (transactions_status (sched g)) (execution_results g) (gather stored toks);
  I_mem : c_mem (transactions_status (sched g)) (mem g) toks;
  I_clean : c_clean (mem g) (gather cleans toks);
  I_finv : c_finv (validation_idx (sched g)) (gather finvs toks) (gather vals toks);
  I_abort : c_abort g toks;
  I_valid : abort_reason g = None → c_valid (transactions_status (sched g)) (mem g) (validation_idx (sched g)) toks;
  I_exit : abort_reason g = None → c_exit n (sched g) toks }.

Lemma Inv_perm g l l' : l ≡ₚ l' → Inv g l → Inv g l'.
Proof.
  intros Hp [Hlen [Hr1 Hr2] [Hs1 Hs2] Hd Hlk Hrd Hnum [Hm1 Hm2] Hres [Hme1 Hme2] Hcl Hfv (Ha1 & Ha2 & Ha3) Hv Hex].
  assert (Hin : ∀ A (f : token → list A) x, x ∈ gather f l' ↔ x ∈ gather f l).
  { intros A f x. by rewrite (gather_perm f l l' Hp). }
  assert (Hany : ∀ P, any P l' ↔ any P l) by (intros P; split; apply any_perm; by rewrite Hp).
  split; unfold c_lock, c_ready, c_res, c_clean, c_finv, c_deps in *; try setoid_rewrite Hin; try done.
  - split; [by rewrite <-(gather_perm runs l l' Hp)|]. intros i k. rewrite Hin. apply Hr2.
  - split; [by rewrite <-(gather_perm stuck l l' Hp)|].
    intros i. rewrite <-Hs2, !elem_of_app, Hin. done.
  - split; [done|]. intros i. rewrite Hin. apply Hm2.
  - split; [done|]. intros location i k v He. rewrite Hany. eauto.
  - split_and!; rewrite Hany; done.
  - intros Hreason k last_loc location origins H1 H2 H3. rewrite Hany. by eapply Hv.
  - intros Hreason Hne Hev. rewrite Hany. apply Hex; [done| |].
    + intros ->. apply Hne. by apply Permutation_nil.
    + eapply every_perm; [|done]. by rewrite Hp.
Qed.
End inv.
