(* ===== verification/BlockStmSafety.v ===== *)
(** * Safety of the parallel executor

    Every action of a worker preserves the invariant of BlockStmInv, so no assertion of
    the scheduler fails and no index is out of range, and when all workers have ended
    without an abort every transaction is validated, its result is there, and every read
    it recorded is what the final multi-version memory gives it. *)

From S2P Require Import Prelude PevmTypes Concurrent Scheduler MvMemory BlockStm BlockStmInv.

(** ** Updates of a status *)

Lemma lookup_set {st : list TxStatus} {i : TxIdx} {tx tx'} (Hi : st !! i = Some tx) j : <[i := tx']> st !! j = if decide (i = j) then Some tx' else st !! j.
Proof.
  destruct (decide (i = j)) as [<-|Hne]; [|by apply list_lookup_insert_ne].
  by apply list_lookup_insert_eq, (lookup_lt_Some _ _ _ Hi).
Qed.

Lemma executed_at_set {st : list TxStatus} {i : TxIdx} {tx tx'} (Hi : st !! i = Some tx) j :
  executed_at (<[i := tx']> st) j ↔ if decide (i = j) then is_executed (status tx') = true else executed_at st j.
Proof. unfold executed_at. rewrite (lookup_set Hi). destruct (decide (i = j)); naive_solver. Qed.

Lemma executed_at_here {st : list TxStatus} {i : TxIdx} {tx} (Hi : st !! i = Some tx) : executed_at st i ↔ is_executed (status tx) = true.
Proof.
  unfold executed_at. split; [|eauto]. intros (tx1 & H1 & H2). by simplify_eq.
Qed.

Lemma executed_at_same {st : list TxStatus} {i : TxIdx} {tx tx'} (Hi : st !! i = Some tx) j :
  is_executed (status tx) = is_executed (status tx') → executed_at (<[i := tx']> st) j ↔ executed_at st j.
Proof.
  intros Heq. rewrite (executed_at_set Hi). destruct (decide (i = j)) as [<-|]; [|done].
  by rewrite (executed_at_here Hi), Heq.
Qed.

Lemma runs_start {st : list TxStatus} {i : TxIdx} {tx tx'} (Hi : st !! i = Some tx) l n :
  c_runs st l → tx' = mkTxStatus n Executing → status tx ≠ Executing → c_runs (<[i := tx']> st) ((i, n) :: l).
Proof.
  intros [Hnd Hl] -> Hst.
  assert (Hni : i ∉ l.*1).
  { intros ([? k] & -> & Hin)%list_elem_of_fmap. apply Hl in Hin. simpl in *. by simplify_eq. }
  split; [by constructor|]. intros j k. rewrite elem_of_cons, Hl, (lookup_set Hi).
  destruct (decide (i = j)) as [<-|]; [|naive_solver]. split; [|naive_solver].
  intros [?|Hk]; [naive_solver|]. by simplify_eq.
Qed.

Lemma runs_stop {st : list TxStatus} {i : TxIdx} {tx tx'} (Hi : st !! i = Some tx) l n : c_runs st ((i, n) :: l) → status tx' ≠ Executing → c_runs (<[i := tx']> st) l.
Proof.
  intros [Hnd Hl] Hst. apply NoDup_cons in Hnd as [Hni Hnd]. split; [done|].
  intros j k. rewrite (lookup_set Hi). destruct (decide (i = j)) as [<-|].
  - split; [|intros [= ->]; done]. intros Hin. destruct Hni. by apply (list_elem_of_fmap_2 fst _ (i, k)).
  - rewrite <-Hl, elem_of_cons. naive_solver.
Qed.

Lemma runs_other {st : list TxStatus} {i : TxIdx} {tx tx'} (Hi : st !! i = Some tx) l : c_runs st l → status tx ≠ Executing → status tx' ≠ Executing → c_runs (<[i := tx']> st) l.
Proof.
  intros [Hnd Hl] H1 H2. split; [done|]. intros j k. rewrite (lookup_set Hi), Hl.
  destruct (decide (i = j)) as [<-|]; [|done]. rewrite Hi. split; intros [= ->]; done.
Qed.

Lemma stuck_abort {st : list TxStatus} {i : TxIdx} {tx tx'} (Hi : st !! i = Some tx) D l : c_stuck st D l → status tx ≠ Aborting → status tx' = Aborting →
  c_stuck (<[i := tx']> st) D (i :: l).
Proof.
  intros [Hnd Hl] H1 H2. assert (Hni : i ∉ concat D ++ l) by (rewrite Hl, Hi; naive_solver).
  split.
  - rewrite <-Permutation_middle. by constructor.
  - intros j. rewrite <-Permutation_middle, elem_of_cons, Hl, (lookup_set Hi).
    destruct (decide (i = j)) as [<-|]; [|naive_solver]. destruct tx'; simpl in *. subst. naive_solver.
Qed.

Lemma stuck_ready {st : list TxStatus} {i : TxIdx} {tx tx'} (Hi : st !! i = Some tx) D l : c_stuck st D (i :: l) → status tx' ≠ Aborting → c_stuck (<[i := tx']> st) D l.
Proof.
  intros [Hnd Hl] H2. rewrite <-Permutation_middle in Hnd. apply NoDup_cons in Hnd as [Hni Hnd].
  split; [done|]. intros j. rewrite (lookup_set Hi). destruct (decide (i = j)) as [<-|].
  - split; [done|]. intros [k [= ->]]. done.
  - rewrite <-Hl, <-Permutation_middle, elem_of_cons. naive_solver.
Qed.

Lemma stuck_other {st : list TxStatus} {i : TxIdx} {tx tx'} (Hi : st !! i = Some tx) D l : c_stuck st D l → status tx ≠ Aborting → status tx' ≠ Aborting →
  c_stuck (<[i := tx']> st) D l.
Proof.
  intros [Hnd Hl] H1 H2. split; [done|]. intros j. rewrite (lookup_set Hi), Hl.
  destruct (decide (i = j)) as [<-|]; [|done]. rewrite Hi. split; intros [k [= ->]]; done.
Qed.

Lemma deps_keep {st : list TxStatus} {i : TxIdx} {tx tx'} (Hi : st !! i = Some tx) D l : c_deps st D l → is_executed (status tx') = false → c_deps (<[i := tx']> st) D l.
Proof.
  intros Hd H' b ds d H1 H2. destruct (Hd b ds d H1 H2) as (? & ? & Hb). split_and!; [done..|].
  rewrite (lookup_set Hi). destruct (decide (i = b)); naive_solver.
Qed.

Lemma deps_executed {st : list TxStatus} {i : TxIdx} {tx tx'} (Hi : st !! i = Some tx) D l : c_deps st D l → is_executed (status tx) = true → c_deps (<[i := tx']> st) D l.
Proof.
  intros Hd H' b ds d H1 H2. destruct (Hd b ds d H1 H2) as (? & ? & k & Hb & Hk). split_and!; [done..|].
  exists k. rewrite (lookup_set Hi). destruct (decide (i = b)) as [<-|]; [|done]. congruence.
Qed.

Lemma deps_finish {st : list TxStatus} {i : TxIdx} {tx tx'} (Hi : st !! i = Some tx) D l : c_deps st D (i :: l) → c_deps (<[i := tx']> st) D l.
Proof.
  intros Hd b ds d H1 H2. destruct (Hd b ds d H1 H2) as (? & Hni & Hb). apply not_elem_of_cons in Hni as [? ?].
  split_and!; [done..|]. rewrite (lookup_set Hi). by rewrite decide_False.
Qed.

Lemma ready_set {st : list TxStatus} {i : TxIdx} {tx tx'} (Hi : st !! i = Some tx) e l : c_ready st e l → status tx' ≠ ReadyToExecute → c_ready (<[i := tx']> st) e l.
Proof. intros Hr H' j k. rewrite (lookup_set Hi). destruct (decide (i = j)); [|apply Hr]. naive_solver. Qed.

Lemma ready_start {st : list TxStatus} {i : TxIdx} {tx tx'} (Hi : st !! i = Some tx) e l : c_ready st e (i :: l) → status tx' ≠ ReadyToExecute → c_ready (<[i := tx']> st) e l.
Proof.
  intros Hr H' j k. rewrite (lookup_set Hi). destruct (decide (i = j)) as [|Hne]; [naive_solver|].
  intros Hj. destruct (Hr j k Hj) as [?|[?|?]%elem_of_cons]; naive_solver.
Qed.

Lemma ready_wake {st : list TxStatus} {i : TxIdx} {tx tx'} (Hi : st !! i = Some tx) e l : c_ready st e l → c_ready (<[i := tx']> st) e (i :: l).
Proof.
  intros Hr j k. rewrite (lookup_set Hi), elem_of_cons. destruct (decide (i = j)); [naive_solver|].
  intros Hj. destruct (Hr j k Hj); tauto.
Qed.

Lemma count_set {st : list TxStatus} {i : TxIdx} {tx tx'} (Hi : st !! i = Some tx) :
  (length (List.filter is_validated (<[i := tx']> st)) + (if is_validated tx then 1 else 0) =
   length (List.filter is_validated st) + (if is_validated tx' then 1 else 0))%nat.
Proof.
  revert i Hi. induction st as [|x l IH]; intros [|k]; simpl; try done.
  - intros [= ->]. destruct (is_validated tx), (is_validated tx'); simpl; lia.
  - intros Hk. specialize (IH k Hk). destruct (is_validated x); simpl; lia.
Qed.

Lemma num_same {st : list TxStatus} {i : TxIdx} {tx tx'} (Hi : st !! i = Some tx) num : c_num st num → is_validated tx = is_validated tx' → c_num (<[i := tx']> st) num.
Proof.
  unfold c_num. intros -> H'. pose proof (count_set (tx' := tx') Hi) as Hc. rewrite H' in Hc.
  destruct (is_validated tx'); f_equal; lia.
Qed.

Lemma num_inc {st : list TxStatus} {i : TxIdx} {tx tx'} (Hi : st !! i = Some tx) num : c_num st num → is_validated tx = false → is_validated tx' = true →
  N.of_nat (length st) < u64_modulus → c_num (<[i := tx']> st) (u64_add num 1).
Proof.
  unfold c_num. intros -> H1 H2 Hlt. pose proof (count_set (tx' := tx') Hi) as Hc. rewrite H1, H2 in Hc.
  pose proof (List.filter_length_le is_validated (<[i := tx']> st)) as Hle.
  rewrite length_insert in Hle. rewrite u64_add_small; lia.
Qed.

Lemma num_dec {st : list TxStatus} {i : TxIdx} {tx tx'} (Hi : st !! i = Some tx) num : c_num st num → is_validated tx = true → is_validated tx' = false →
  N.of_nat (length st) < u64_modulus → c_num (<[i := tx']> st) (u64_sub num 1).
Proof.
  unfold c_num. intros -> H1 H2 Hlt. pose proof (count_set (tx' := tx') Hi) as Hc. rewrite H1, H2 in Hc.
  pose proof (List.filter_length_le is_validated st) as Hle.
  rewrite u64_sub_small; lia.
Qed.

Lemma min_set {st : list TxStatus} {i : TxIdx} {tx tx'} (Hi : st !! i = Some tx) m l : c_min st m l → (is_executed (status tx') = true → (m ≤ i)%nat) → c_min (<[i := tx']> st) m l.
Proof.
  intros [H1 H2] H'. split; [|done]. intros j. rewrite (executed_at_set Hi).
  destruct (decide (i = j)) as [<-|]; [done|apply H1].
Qed.

Lemma res_set {st : list TxStatus} {i : TxIdx} {tx tx'} (Hi : st !! i = Some tx) {R} (res : list (option R)) l :
  c_res st res l → (is_executed (status tx') = true → is_executed (status tx) = true) →
  c_res (<[i := tx']> st) res l.
Proof.
  intros Hr H' j [Hj|Hj]; apply Hr; [left|by right]. rewrite (executed_at_set Hi) in Hj.
  destruct (decide (i = j)) as [<-|]; [|done]. rewrite (executed_at_here Hi). auto.
Qed.

Lemma res_finish {st : list TxStatus} {i : TxIdx} {tx tx'} (Hi : st !! i = Some tx) {R} (res : list (option R)) l : c_res st res (i :: l) → c_res (<[i := tx']> st) res l.
Proof.
  intros Hr j Hj. apply Hr. rewrite (executed_at_set Hi), elem_of_cons in *.
  destruct (decide (i = j)) as [<-|]; [by right; left|tauto].
Qed.

(** ** Dependents, indices and locks *)

Lemma concat_insert (D : list (list TxIdx)) (b : TxIdx) ds ds' :
  D !! b = Some ds → ∃ rest, concat D ≡ₚ ds ++ rest ∧ concat (<[b := ds']> D) ≡ₚ ds' ++ rest.
Proof.
  intros Hb. exists (concat (take b D) ++ concat (drop (S b) D)).
  pose proof (lookup_lt_Some _ _ _ Hb) as Hlt. split.
  - rewrite <-(take_drop_middle D b ds Hb) at 1. rewrite concat_app. simpl.
    rewrite !app_assoc. apply Permutation_app_tail, Permutation_app_comm.
  - rewrite <-(take_drop_middle (<[b := ds']> D) b ds') by (by apply list_lookup_insert_eq).
    rewrite take_insert_ge, drop_insert_lt by lia. rewrite concat_app. simpl.
    rewrite !app_assoc. apply Permutation_app_tail, Permutation_app_comm.
Qed.

Lemma c_stuck_perm st D l D' l' : concat D ++ l ≡ₚ concat D' ++ l' → c_stuck st D l → c_stuck st D' l'.
Proof. intros Hp [H1 H2]. split; [by rewrite <-Hp|]. intros i. by rewrite <-Hp. Qed.

Lemma stuck_push st D l (b : TxIdx) ds i :
  c_stuck st D (i :: l) → D !! b = Some ds → c_stuck st (<[b := ds ++ [i]]> D) l.
Proof.
  intros Hs Hb. destruct (concat_insert D b ds (ds ++ [i]) Hb) as (rest & H1 & H2).
  eapply c_stuck_perm; [|done]. rewrite H1, H2, <-!app_assoc. simpl.
  rewrite <-Permutation_middle. by rewrite Permutation_middle.
Qed.

Lemma stuck_take st D l (b : TxIdx) ds :
  c_stuck st D l → D !! b = Some ds → c_stuck st (<[b := []]> D) (ds ++ l).
Proof.
  intros Hs Hb. destruct (concat_insert D b ds [] Hb) as (rest & H1 & H2).
  eapply c_stuck_perm; [|done]. rewrite H1, H2. simpl. rewrite !app_assoc.
  apply Permutation_app_tail, Permutation_app_comm.
Qed.

Lemma deps_push st D l (b : TxIdx) ds i :
  c_deps st D l → D !! b = Some ds → (b < i)%nat → b ∉ l →
  (∃ tx, st !! b = Some tx ∧ is_executed (status tx) = false) → c_deps st (<[b := ds ++ [i]]> D) l.
Proof.
  intros Hd Hb Hlt Hni Hst b' ds' d. destruct (decide (b = b')) as [<-|Hne].
  - rewrite list_lookup_insert_eq by (by eapply lookup_lt_Some). intros [= <-] [Hin|Hin]%elem_of_app.
    + by eapply Hd.
    + apply list_elem_of_singleton in Hin as ->. done.
  - rewrite list_lookup_insert_ne by done. apply Hd.
Qed.

Lemma deps_take st D l (b : TxIdx) ds : c_deps st D l → D !! b = Some ds → c_deps st (<[b := []]> D) (b :: l).
Proof.
  intros Hd Hb b' ds' d. destruct (decide (b = b')) as [<-|Hne].
  - rewrite list_lookup_insert_eq by (by eapply lookup_lt_Some). intros [= <-] Hin. by apply not_elem_of_nil in Hin.
  - rewrite list_lookup_insert_ne by done. intros H1 H2. rewrite not_elem_of_cons.
    destruct (Hd b' ds' d H1 H2) as (? & ? & ?). done.
Qed.

Lemma ready_fetch st e l : c_ready st e l → c_ready st (S e) (e :: l).
Proof.
  intros Hr i k Hk. rewrite elem_of_cons. destruct (Hr i k Hk) as [?|?]; [|by right; right].
  destruct (decide (i = e)) as [->|]; [by right; left|left]. lia.
Qed.
Lemma ready_lower st e l i : c_ready st e (i :: l) → c_ready st (Nat.min e i) l.
Proof.
  intros Hr j k Hk. destruct (Hr j k Hk) as [?|[->|?]%elem_of_cons]; [left| |by right].
  - lia.
  - left. lia.
Qed.
Lemma ready_drop st e l i :
  c_ready st e (i :: l) → (e ≤ i)%nat ∨ (∀ k, st !! i ≠ Some (mkTxStatus k ReadyToExecute)) → c_ready st e l.
Proof. intros Hr Hi j k Hk. destruct (Hr j k Hk) as [?|[->|?]%elem_of_cons]; [by left| |by right]. naive_solver. Qed.

Lemma finv_fetch v f l : c_finv v f l → c_finv (S v) f (v :: l).
Proof.
  intros Hf i Hi. rewrite elem_of_cons. destruct (Hf i Hi) as [?|?]; [|by right; right].
  destruct (decide (i = v)) as [->|]; [by right; left|left]. lia.
Qed.
Lemma finv_min v x f l : c_finv v f l → c_finv (Nat.min v x) f l.
Proof. intros Hf i Hi. destruct (Hf i Hi); [left; lia|by right]. Qed.

Lemma lock_take locks l (i : TxIdx) : (i < length locks)%nat → c_lock locks l → c_lock (<[i := true]> locks) (i :: l).
Proof.
  unfold c_lock. intros Hlt Hl j. rewrite elem_of_cons, Hl. destruct (decide (i = j)) as [<-|Hne].
  - rewrite list_lookup_insert_eq by done. naive_solver.
  - rewrite list_lookup_insert_ne by done. naive_solver.
Qed.
Lemma lock_drop locks l (i : TxIdx) : i ∉ l → c_lock locks (i :: l) → c_lock (<[i := false]> locks) l.
Proof.
  intros Hni Hl j. specialize (Hl j). rewrite elem_of_cons in Hl. destruct (decide (i = j)) as [<-|Hne].
  - split; [done|]. assert (Hlt : locks !! i = Some true) by (apply Hl; by left).
    rewrite list_lookup_insert_eq by (by eapply lookup_lt_Some). done.
  - rewrite list_lookup_insert_ne by done. rewrite <-Hl. naive_solver.
Qed.

(** ** Entries and validity *)

(** A change of an entry that keeps a valid read valid. *)
Definition entry_le (e e' : option MemoryEntry) : Prop :=
  e = Some Estimate ∨ e = e' ∨ ∃ n v v', e = Some (Data n v) ∧ e' = Some (Data n v').

Lemma check_origins_le (w w' : gmap TxIdx MemoryEntry) js : ∀ origins,
  (∀ j, j ∈ js → entry_le (w !! j) (w' !! j)) →
  check_origins (omap (λ j, (λ e, (j, e)) <$> w !! j) js) origins = true →
  check_origins (omap (λ j, (λ e, (j, e)) <$> w' !! j) js) origins = true.
Proof.
  induction js as [|j js IH]; intros origins Hle; [done|].
  assert (Hjs : ∀ k, k ∈ js → entry_le (w !! k) (w' !! k)) by (intros k Hk; apply Hle; by right).
  cbn [omap list_omap]. destruct (Hle j (list_elem_of_here _ _)) as [He|[He|(k & v & v' & He & He')]].
  - rewrite He. simpl. destruct origins as [|[v|] origins]; done.
  - rewrite He. destruct (w' !! j) as [e|]; cbn [fmap option_fmap option_map]; [|by apply IH].
    destruct origins as [|[v|] origins]; [done| |done]. simpl. destruct e as [k v'|]; [|done].
    destruct (bool_decide _ && bool_decide _); [by apply IH|done].
  - rewrite He, He'. destruct origins as [|[v1|] origins]; [done| |done]. simpl.
    destruct (bool_decide _ && bool_decide _); [by apply IH|done].
Qed.

Lemma valid_location_mono m m' k location origins :
  (is_Some (data m !! location) → is_Some (data m' !! location)) →
  (∀ j, (j < k)%nat → entry_le (entry m location j) (entry m' location j)) →
  valid_location m k location origins = true → valid_location m' k location origins = true.
Proof.
  intros Hdom Hle. unfold valid_location, entry, entries_below in *.
  assert (Hseq : ∀ j, j ∈ reverse (seq 0 k) → (j < k)%nat) by (intros j [? ?]%elem_of_reverse%elem_of_seq; lia).
  destruct (data m !! location) as [w|]; simpl in *.
  - destruct Hdom as [w' Hw']; [by eexists|]. rewrite Hw' in *. simpl in *.
    apply check_origins_le. intros j Hj. by apply Hle, Hseq.
  - intros ->%bool_decide_eq_true. destruct (data m' !! location) as [w'|]; [|done]. simpl in *.
    replace (omap _ _) with ([] : list (TxIdx * MemoryEntry)); [done|]. symmetry.
    induction (reverse (seq 0 k)) as [|j js IH]; [done|]. cbn [omap list_omap].
    destruct (Hle j) as [?|[He|(? & ? & ? & ? & ?)]]; [by apply Hseq; left|done| |done].
    rewrite <-He. simpl. apply IH. intros j' Hj'. apply Hseq. by right.
Qed.

(** ** Actions of the scheduler *)

Section safety.
Context {R E : Type} (n : nat) (Hn : N.of_nat n < u64_modulus).
Implicit Types g : Shared R E.
Local Notation Inv := (Inv (R := R) (E := E) n).
Context (may_crash : Prop).
Local Notation safe := (safe may_crash Inv).
Context (vm : TxVersion → prog (Shared R E) (vm_outcome R E)) `{HVm : !VmSpec may_crash vm}.

Lemma exit_busy s t toks : ¬ exiting t → c_exit n s (t :: toks).
Proof. intros Ht _ [? _]. done. Qed.

Lemma act_sched {A} (f : Scheduler → effect Scheduler A) Q tok :
  (∀ g rest, Inv g (tok :: rest) →
     match f (sched g) with
     | Step s r => ∃ tok', Inv (with_sched g s) (tok' :: rest) ∧ Q r tok'
     | Wait => True
     | Crash => False
     end) → safe (on_sched (act f)) Q tok.
Proof. intros Hf g rest Hinv. simpl. specialize (Hf g rest Hinv). by destruct (f (sched g)). Qed.

Lemma act_mem {A} (f : MvMemory → effect MvMemory A) Q tok :
  (∀ g rest, Inv g (tok :: rest) →
     match f (mem g) with
     | Step m r => ∃ tok', Inv (with_mem g m) (tok' :: rest) ∧ Q r tok'
     | Wait => True
     | Crash => False
     end) → safe (on_mem (act f)) Q tok.
Proof. intros Hf g rest Hinv. simpl. specialize (Hf g rest Hinv). by destruct (f (mem g)). Qed.

Lemma sched_same g : with_sched g (sched g) = g.
Proof. by destruct g. Qed.
Lemma mem_same g : with_mem g (mem g) = g.
Proof. by destruct g. Qed.

(** Clauses that a step does not touch hold by computation. *)
Ltac keep Hinv :=
  destruct Hinv as [Hlen Hruns Hstuck Hdeps Hlock Hready Hnum Hmin Hres Hmem Hclean Hfinv Habort Hvalid Hexit];
  split; try assumption;
  try (intros _; apply exit_busy; by intros []);
  try (destruct Hlen; split; simpl; rewrite ?length_insert; assumption).

(** A load of the scheduler. *)
Lemma load_sched {A} (f : Scheduler → A) Q tok :
  (∀ g rest, Inv g (tok :: rest) → ∃ tok', Inv g (tok' :: rest) ∧ Q (f (sched g)) tok') →
  safe (on_sched (load f)) Q tok.
Proof. intros Hf. apply act_sched. intros g rest Hinv. rewrite sched_same. by apply Hf. Qed.

(** A status under its lock. *)
Lemma locked_safe {A} (i : TxIdx) (f : TxStatus → Scheduler → effect Scheduler A) Q tok :
  (∀ g rest, Inv g (tok :: rest) → (i < n)%nat) →
  (∀ g rest tx, Inv g (tok :: rest) → transactions_status (sched g) !! i = Some tx →
     status_lock (sched g) !! i = Some false →
     match f tx (sched g) with
     | Step s r => ∃ tok', Inv (with_sched g s) (tok' :: rest) ∧ Q r tok'
     | Wait => True
     | Crash => False
     end) → safe (on_sched (act (locked_status i f))) Q tok.
Proof.
  intros Hi Hf. apply act_sched. intros g rest Hinv. unfold locked_status. specialize (Hi g rest Hinv).
  destruct (I_len n g _ Hinv) as [H1 H2 _ _ _].
  destruct (lookup_lt_is_Some_2 (transactions_status (sched g)) i) as [tx Htx]; [by rewrite H1|].
  destruct (lookup_lt_is_Some_2 (status_lock (sched g)) i) as [[] Hl]; [by rewrite H2| |]; rewrite Htx, Hl; [done|].
  by apply Hf.
Qed.

(** What a fetched task entitles to. *)
Definition task_token (t : Task) (tok : token) : Prop :=
  match t with
  | Execution v => tok = TRun (tx_idx v) (tx_incarnation v)
  | Validation v => tok = TTask (tx_idx v) ∧ (tx_idx v < n)%nat
  end.

(** ** Moves of a token *)

Lemma valid_move st st' m v t t' rest :
  c_valid st m v (t :: rest) → (∀ k, executed_at st' k → executed_at st k) →
  (∀ k l o, executed_at st' k → pends k l o t → pends k l o t') → c_valid st' m v (t' :: rest).
Proof.
  intros Hv Hst Ht k last_loc l o Hk H1 H2.
  destruct (Hv k last_loc l o (Hst k Hk) H1 H2) as [?|[?|[?|?]]]; [by left|by right; left| |]; right; right.
  - left. by apply Ht.
  - by right.
Qed.

Lemma mem_move st st' m t t' rest :
  c_mem st m (t :: rest) → (∀ k, executed_at st k → executed_at st' k) →
  (∀ i l k, owns_data i l k t → executed_at st' i ∨ owns_data i l k t') → c_mem st' m (t' :: rest).
Proof.
  intros [H1 H2] Hst Ht. split; [done|]. intros l i k v He. destruct (H2 l i k v He) as [? [?|[?|?]]];
    (split; [done|]); [left; by apply Hst| |by right; right].
  destruct (Ht i l k) as [?|?]; [done|by left|by right; left].
Qed.

Lemma finv_drop v f l i : c_finv v f (i :: l) → i ∉ f → c_finv v f l.
Proof. intros Hf Hi j Hj. destruct (Hf j Hj) as [?|[->|?]%elem_of_cons]; [by left|done|by right]. Qed.

Lemma finvs_hold i toks : i ∈ gather finvs toks → i ∈ gather holds toks.
Proof. apply (gather_sub finvs holds id). intros []; simpl; rewrite ?elem_of_nil; done. Qed.
Lemma drained_hold i toks : i ∈ gather drained toks → i ∈ gather holds toks.
Proof. apply (gather_sub drained holds id). intros []; simpl; rewrite ?elem_of_nil; done. Qed.

Lemma unlocked locks l i : c_lock locks l → locks !! i = Some false → i ∉ l.
Proof. intros Hl Hi Hin. apply Hl in Hin. congruence. Qed.

(** A ready transaction starts to execute. *)
Lemma start_inv g rest t i k :
  Inv g (t :: rest) → transactions_status (sched g) !! i = Some (mkTxStatus k ReadyToExecute) →
  status_lock (sched g) !! i = Some false → t = TExec i ∨ t = TReady i ∨ t = TVal i →
  Inv (with_sched g (with_status (sched g) i (mkTxStatus k Executing))) (TRun i k :: rest).
Proof.
  intros Hinv Hi Hl Ht.
  assert (Hni : i ∉ gather finvs rest).
  { intros Hf%finvs_hold. eapply (unlocked _ _ i (I_lock n g _ Hinv) Hl). simpl. apply elem_of_app. by right. }
  keep Hinv; simpl.
  - eapply (runs_start Hi); [|done|done]. by destruct Ht as [->|[->| ->]].
  - eapply (stuck_other Hi); [|done|done]. by destruct Ht as [->|[->| ->]].
  - eapply (deps_keep Hi); [|done]. by destruct Ht as [->|[->| ->]].
  - by destruct Ht as [->|[->| ->]].
  - destruct Ht as [->|[->| ->]]; [by eapply (ready_start Hi)..|by eapply (ready_set Hi)].
  - by eapply (num_same Hi).
  - eapply (min_set Hi); [|done]. by destruct Ht as [->|[->| ->]].
  - eapply (res_set Hi); [|done]. by destruct Ht as [->|[->| ->]].
  - eapply mem_move; [done| |].
    + intros j. by rewrite (executed_at_same Hi).
    + intros j l k'. destruct Ht as [->|[->| ->]]; done.
  - by destruct Ht as [->|[->| ->]].
  - destruct Ht as [->|[->| ->]]; [done..|]. exact (finv_drop _ _ _ i Hfinv Hni).
  - by destruct Ht as [->|[->| ->]].
  - intros Hr. eapply valid_move; [by apply Hvalid| |].
    + intros j. by rewrite (executed_at_same Hi).
    + intros j l o. rewrite (executed_at_set Hi). destruct Ht as [->|[->| ->]]; simpl; [done..|].
      intros He ->. by rewrite decide_True in He.
Qed.

Lemma drop_exec_inv g rest t i :
  Inv g (t :: rest) → t = TExec i ∨ t = TReady i →
  (execution_idx (sched g) ≤ i)%nat ∨ (∀ k, transactions_status (sched g) !! i ≠ Some (mkTxStatus k ReadyToExecute)) →
  Inv g (TNext :: rest).
Proof. intros Hinv [->| ->] Hi; keep Hinv; exact (ready_drop _ _ _ _ Hready Hi). Qed.

(** A fetched validation index becomes a validation task, or is dropped. *)
Lemma use_val_inv g rest i t :
  Inv g (TVal i :: rest) → i ∉ gather finvs rest →
  t = TTask i ∨ t = TNext ∧ ¬ executed_at (transactions_status (sched g)) i → Inv g (t :: rest).
Proof.
  intros Hinv Hni [->|[-> Hi]]; keep Hinv; try exact (finv_drop _ _ _ i Hfinv Hni).
  intros Hr. eapply valid_move; [by apply Hvalid|done|]. intros k l o Hk ->. done.
Qed.

(** [try_execute] on a fetched or awaited index. *)
Lemma try_execute_safe (i : TxIdx) t :
  t = TExec i ∨ t = TReady i → (i < n)%nat →
  safe (on_sched (try_execute n i))
    (λ o tok, match o with Some v => task_token (Execution v) tok | None => tok = TNext end) t.
Proof.
  intros Ht Hi. unfold try_execute. rewrite bool_decide_true by done.
  apply locked_safe; [done|]. intros g rest [k st] Hinv Htx Hl.
  destruct st; simpl; rewrite ?sched_same;
    try (exists TNext; split; [|done]; eapply drop_exec_inv; [done..|right; intros k'; by rewrite Htx]).
  exists (TRun i k). split; [|done]. eapply start_inv; naive_solver.
Qed.

Lemma no_status g toks i : Inv g toks → (n ≤ i)%nat → transactions_status (sched g) !! i = None.
Proof. intros Hinv Hi. apply lookup_ge_None. by rewrite (len_status n g (I_len n g _ Hinv)). Qed.

Lemma fetch_add_execution_safe :
  safe (on_sched fetch_add_execution)
    (λ i tok, tok = if decide (i < n)%nat then TExec i else TNext) TNext.
Proof.
  apply act_sched. intros g rest Hinv. eexists. split; [|done].
  assert (Hexec : Inv (with_sched g (with_execution_idx (sched g) (S (execution_idx (sched g)))))
            (TExec (execution_idx (sched g)) :: rest)).
  { keep Hinv. by apply ready_fetch. }
  destruct (decide _) as [Hlt|Hge]; [done|]. eapply drop_exec_inv; [done|by left|right].
  intros k. simpl. by rewrite (no_status _ _ _ Hinv) by lia.
Qed.

Lemma fetch_add_validation_safe :
  safe (on_sched fetch_add_validation)
    (λ i tok, tok = if decide (i < n)%nat then TVal i else TNext) TNext.
Proof.
  apply act_sched. intros g rest Hinv. eexists. split; [|done].
  assert (Hval : Inv (with_sched g (with_validation_idx (sched g) (S (validation_idx (sched g)))))
            (TVal (validation_idx (sched g)) :: rest)).
  { keep Hinv; [by apply finv_fetch|]. intros Hr k last_loc l o H1 H2 H3. simpl.
    destruct (Hvalid Hr k last_loc l o H1 H2 H3) as [?|[?|[[]|?]]]; [by left| |by right; right; right].
    destruct (decide (k = validation_idx (sched g))) as [Heq|]; [right; right; left; exact Heq|right; left; lia]. }
  destruct (decide _) as [Hlt|Hge]; [done|].
  pose proof (no_status _ _ (validation_idx (sched g)) Hinv ltac:(lia)) as Hnone.
  eapply use_val_inv; [done| |].
  - intros Hin%finvs_hold. apply (I_lock n g _ Hinv), lookup_lt_Some in Hin.
    rewrite (len_lock n g (I_len n g _ Hinv)) in Hin. lia.
  - right. split; [done|]. intros (tx & Htx & _). simpl in Htx. congruence.
Qed.

Lemma validation_section_safe i :
  (i < n)%nat →
  safe (on_sched (act (validation_section i)))
    (λ o tok, match o with Some (Some t) => task_token t tok | _ => tok = TNext end) (TVal i).
Proof.
  intros Hi. apply locked_safe; [done|]. intros g rest [k st] Hinv Htx Hl.
  assert (Hni : i ∉ gather finvs rest).
  { intros Hf%finvs_hold. eapply (unlocked _ _ i (I_lock n g _ Hinv) Hl). done. }
  destruct st; simpl; rewrite ?sched_same.
  - exists (TRun i k). split; [|done]. eapply start_inv; naive_solver.
  - exists TNext. split; [|done]. eapply use_val_inv; [done..|right]. split; [done|].
    rewrite (executed_at_here Htx). done.
  - exists (TTask i). split; [|done]. eapply use_val_inv; eauto.
  - exists (TTask i). split; [|done]. eapply use_val_inv; eauto.
  - exists TNext. split; [|done]. eapply use_val_inv; [done..|right]. split; [done|].
    rewrite (executed_at_here Htx). done.
Qed.

(** The way out of the loop of [next_task]. *)
Lemma exit_inv g rest t t' :
  Inv g (t :: rest) → (t = TNext ∨ exiting t) ∧ t ≠ TStop → exiting t' ∧ t' ≠ TStop →
  (t = TNext ∨ current n (sched g) t → current n (sched g) t') → Inv g (t' :: rest).
Proof.
  intros Hinv [Ht Hs] [Ht' Hs'] Hcur.
  assert (Hex : abort_reason g = None → c_exit n (sched g) (t' :: rest)).
  { intros Hr _ [_ Hrest]. destruct Ht as [->|Ht]; [right; left; apply Hcur; by left|].
    destruct (I_exit n g _ Hinv Hr) as [?|[?|?]]; [done|done|by left|right; left; apply Hcur; by right|].
    by right; right. }
  destruct t; try naive_solver; destruct t'; try done; keep Hinv.
Qed.

Lemma leave_inv g rest t : Inv g (t :: rest) → exiting t ∧ t ≠ TStop → Inv g (TNext :: rest).
Proof. intros Hinv [Ht Hs]. destruct t; try done; keep Hinv. Qed.

Lemma stop_inv g rest : Inv g (TNext :: rest) → aborted (sched g) = true → Inv g (TStop :: rest).
Proof.
  intros Hinv Hab. keep Hinv.
  - destruct Habort as (H1 & H2 & H3). split_and!; [done..|]. by left.
  - by left.
Qed.

Definition ended (tok : token) : Prop := tok = TDone ∨ tok = TStop ∨ ∃ i k, tok = TLost i k.

Ltac sbind H := apply safe_focus_bind; eapply safe_mono; [|eapply H]; cbn beta.

Lemma next_task_safe :
  safe (on_sched (next_task_iteration n))
    (λ r tok, match r with
              | NextContinue => tok = TNext
              | NextNone => ended tok
              | NextTask t => task_token t tok
              end) TNext.
Proof.
  unfold next_task_iteration.
  sbind (load_sched aborted (λ ab tok, tok = if ab then TStop else TNext)).
  2:{ intros g rest Hinv. destruct (aborted (sched g)) eqn:Hab; eexists; (split; [|done]); [|done].
      by apply stop_inv. }
  intros ab tok ->. destruct ab; [by right; left|].
  sbind (load_sched execution_idx (λ e tok, tok = if decide (n ≤ e)%nat then TGotE else TNext)).
  2:{ intros g rest Hinv. eexists. split; [|done]. destruct (decide _) as [He|]; [|done].
      eapply exit_inv; [done|naive_solver..]. }
  intros e tok ->.
  sbind (load_sched validation_idx
           (λ v tok, tok = if decide (n ≤ e ∧ n ≤ v)%nat then TGotEV else TNext)).
  2:{ intros g rest Hinv. eexists. split; [|done]. destruct (decide (n ≤ e)%nat) as [He|He].
      - destruct (decide _) as [[_ Hv]|].
        + eapply exit_inv; [done| | |]; [naive_solver..|]. intros [?|Hc]; [done|]. by split.
        + eapply leave_inv; naive_solver.
      - by rewrite decide_False by lia. }
  intros v tok ->. rewrite <-bool_decide_and. destruct (decide (n ≤ e ∧ n ≤ v)%nat) as [Hev|Hev].
  - rewrite bool_decide_true by done.
    sbind (load_sched num_validated (λ x tok, tok = TGotNum x)).
    2:{ intros g rest Hinv. eexists. split; [|done].
        eapply exit_inv; [done| | |]; [naive_solver..|]. intros [?|[? ?]]; [done|]. by split. }
    intros num tok ->.
    sbind (load_sched min_validation_idx
             (λ m tok, tok = if decide (N.of_nat (n - m) ≤ num) then TDone else TNext)).
    2:{ intros g rest Hinv. eexists. split; [|done]. destruct (decide _) as [Hm|].
        - eapply exit_inv; [done| | |]; [naive_solver..|]. intros [?|(? & ? & Hnum)]; [done|].
          split_and!; [done..|]. by rewrite Hnum.
        - eapply leave_inv; naive_solver. }
    intros m tok ->. destruct (decide _); case_bool_decide; try done. by left.
  - rewrite bool_decide_false by done.
    assert (Hexec : ∀ tok, tok = TNext →
      safe (on_sched (i <- fetch_add_execution;; o <- try_execute n i;;
              Ret (match o with Some v => NextTask (Execution v) | None => NextContinue end)))
        (λ r tok, match r with
                  | NextContinue => tok = TNext | NextNone => ended tok | NextTask t => task_token t tok
                  end) tok).
    { intros tok ->. sbind fetch_add_execution_safe. intros i tok ->. destruct (decide (i < n)%nat) as [Hi|Hi].
      - sbind (try_execute_safe i (TExec i)); [|by left|done]. intros [o|] tok Ho; [exact Ho|done].
      - unfold try_execute. by rewrite bool_decide_false. }
    case_bool_decide; [|by apply Hexec].
    apply safe_focus_bind. sbind fetch_add_validation_safe. intros i tok ->.
    destruct (decide (i < n)%nat) as [Hi|Hi].
    + rewrite bool_decide_true by done. eapply safe_mono; [|by apply validation_section_safe].
      intros [[t|]|] tok Ht; [exact Ht|done|by apply Hexec].
    + rewrite bool_decide_false by done. by apply Hexec.
Qed.

(** ** The end of an execution *)

Lemma runs_here g t rest i k :
  Inv g (t :: rest) → runs t = [(i, k)] →
  transactions_status (sched g) !! i = Some (mkTxStatus k Executing) ∧ (i < n)%nat ∧ i ∉ (gather runs rest).*1.
Proof.
  intros Hinv Ht. destruct (I_runs n g _ Hinv) as [Hnd Hr]. simpl in *. rewrite Ht in *. simpl in *.
  apply NoDup_cons in Hnd as [Hni _].
  assert (Hi : transactions_status (sched g) !! i = Some (mkTxStatus k Executing)) by (apply Hr; by left).
  split_and!; [done| |done]. rewrite <-(len_status n g (I_len n g _ Hinv)). by eapply lookup_lt_Some.
Qed.

Lemma holds_run i toks : i ∈ gather holds toks → i ∈ (gather runs toks).*1.
Proof.
  intros Hi. rewrite list_elem_of_fmap. induction toks as [|t toks IH]; simpl in *.
  - by apply not_elem_of_nil in Hi.
  - setoid_rewrite elem_of_app. apply elem_of_app in Hi as [Hi|Hi].
    + destruct t; simpl in *; try (by apply not_elem_of_nil in Hi);
        apply list_elem_of_singleton in Hi as ->; eexists (_, _); (split; [done|]); left; by left.
    + destruct (IH Hi) as (x & ? & ?). eauto.
Qed.

Lemma begin_finish_safe v new :
  safe (on_sched (act (begin_finish_section v)))
    (λ _ tok, tok = TFin (tx_idx v) (tx_incarnation v) new ∧ (tx_idx v < n)%nat) (TStored (tx_idx v) (tx_incarnation v) new).
Proof.
  apply locked_safe.
  { intros g rest Hinv. by destruct (runs_here _ _ _ _ _ Hinv eq_refl) as (_ & ? & _). }
  intros g rest tx Hinv Htx Hl. destruct (runs_here _ _ _ _ _ Hinv eq_refl) as (Hi & Hlt & _).
  simplify_eq. simpl. rewrite !bool_decide_true by done. simpl. eexists. split; [|by split].
  keep Hinv. apply lock_take; [|done]. by rewrite (len_lock n g Hlen).
Qed.

Lemma take_dependents_safe i k new :
  safe (on_sched (act (take_dependents i))) (λ l tok, tok = TResume i k new None l) (TFin i k new).
Proof.
  apply act_sched. intros g rest Hinv. destruct (runs_here _ _ _ _ _ Hinv eq_refl) as (Hi & Hlt & _).
  unfold take_dependents.
  destruct (lookup_lt_is_Some_2 (transactions_dependents (sched g)) i) as [l Hd].
  { by rewrite (len_deps n g (I_len n g _ Hinv)). }
  rewrite Hd. eexists. split; [|done]. keep Hinv.
  - by eapply stuck_take.
  - by eapply deps_take.
Qed.

(** A blocked or aborted transaction becomes ready. *)
Lemma set_ready_inv g rest t t' d k :
  Inv g (t :: rest) → transactions_status (sched g) !! d = Some (mkTxStatus k Aborting) →
  (t = TAbort d (Some []) ∧ t' = TLower d) ∨
  (∃ i k new l, t = TResume i k new None (d :: l) ∧ t' = TResume i k new (Some d) l) →
  Inv (with_sched g (with_status (sched g) d (mkTxStatus (S k) ReadyToExecute))) (t' :: rest).
Proof.
  intros Hinv Hd Ht.
  keep Hinv; simpl;
    try (by destruct Ht as [[-> ->]|(i & k1 & new & l & -> & ->)]).
  - eapply (runs_other Hd); [|done|done]. by destruct Ht as [[-> ->]|(i & k1 & new & l & -> & ->)].
  - eapply (stuck_ready Hd); [|done]. by destruct Ht as [[-> ->]|(i & k1 & new & l & -> & ->)].
  - eapply (deps_keep Hd); [|done]. by destruct Ht as [[-> ->]|(i & k1 & new & l & -> & ->)].
  - destruct Ht as [[-> ->]|(i & k1 & new & l & -> & ->)]; by eapply (ready_wake Hd).
  - by eapply (num_same Hd).
  - eapply (min_set Hd); [|done]. by destruct Ht as [[-> ->]|(i & k1 & new & l & -> & ->)].
  - eapply (res_set Hd); [|done]. by destruct Ht as [[-> ->]|(i & k1 & new & l & -> & ->)].
  - eapply mem_move; [done| |].
    + intros j. by rewrite (executed_at_same Hd).
    + intros j l k'. destruct Ht as [[-> ->]|(i & k1 & new & l' & -> & ->)]; simpl; [|by right].
      intros [_ Hin]. by apply not_elem_of_nil in Hin.
  - intros Hr. eapply valid_move; [by apply Hvalid| |].
    + intros j. by rewrite (executed_at_same Hd).
    + intros j l o _. by destruct Ht as [[-> ->]|(i & k1 & new & l' & -> & ->)].
  - intros _. apply exit_busy. destruct Ht as [[-> ->]|(i & k1 & new & l' & -> & ->)]; by intros [].
Qed.

Lemma stuck_here g t rest d :
  Inv g (t :: rest) → d ∈ stuck t → ∃ k, transactions_status (sched g) !! d = Some (mkTxStatus k Aborting).
Proof.
  intros Hinv Hd. apply (I_stuck n g _ Hinv). simpl. rewrite !elem_of_app. tauto.
Qed.

Lemma set_ready_safe t t' d :
  (t = TAbort d (Some []) ∧ t' = TLower d) ∨
  (∃ i k new l, t = TResume i k new None (d :: l) ∧ t' = TResume i k new (Some d) l) →
  safe (on_sched (set_ready_status d)) (λ _ tok, tok = t') t.
Proof.
  intros Ht. assert (Hst : d ∈ stuck t).
  { destruct Ht as [[-> ->]|(i & k1 & new & l & -> & ->)]; by left. }
  apply locked_safe.
  - intros g rest Hinv. destruct (stuck_here _ _ _ _ Hinv Hst) as [k Hk].
    rewrite <-(len_status n g (I_len n g _ Hinv)). by eapply lookup_lt_Some.
  - intros g rest tx Hinv Htx Hl. destruct (stuck_here _ _ _ _ Hinv Hst) as [k Hk]. simplify_eq. simpl.
    eexists. split; [|done]. by eapply set_ready_inv.
Qed.

Lemma resume_dependents_safe i k new l :
  safe (on_sched (resume_dependents l)) (λ _ tok, tok = TResume i k new None []) (TResume i k new None l).
Proof.
  induction l as [|d l IH]; [done|].
  sbind (set_ready_safe (TResume i k new None (d :: l)) (TResume i k new (Some d) l)); [|right; eauto 10].
  intros _ tok ->. apply safe_focus_bind, act_sched. intros g rest Hinv. exists (TResume i k new None l).
  split; [|exact IH]. keep Hinv. simpl. by apply ready_lower.
Qed.

Lemma fetch_min_min_safe i k new :
  safe (on_sched (fetch_min_min_validation i)) (λ _ tok, tok = TMin i k new) (TResume i k new None []).
Proof.
  apply act_sched. intros g rest Hinv. eexists. split; [|done]. keep Hinv.
  destruct Hmin as [H1 H2]. split; simpl.
  - intros j Hj. specialize (H1 j Hj). lia.
  - intros j [->|Hj]%elem_of_cons; [lia|]. specialize (H2 j Hj). lia.
Qed.

Lemma any_vals i l o toks : i ∈ gather vals toks → any (pends i l o) toks.
Proof.
  induction toks as [|t toks IH]; simpl; [by rewrite elem_of_nil|]. rewrite elem_of_app.
  intros [Ht|Ht]; [left|right; by apply IH]. destruct t; simpl in *; try (by apply not_elem_of_nil in Ht).
  by apply list_elem_of_singleton in Ht.
Qed.

(** The status of the executed transaction is written and its lock released. *)
Lemma write_status_safe i k t t' :
  (t = TFinT i k ∧ t' = TTask i) ∨ (t = TFinV i k ∧ t' = TNext) →
  safe (on_sched (write_status i Executed false true)) (λ _ tok, tok = t') t.
Proof.
  intros Ht. apply act_sched. intros g rest Hinv. unfold write_status_section.
  assert (Hrun : runs t = [(i, k)]) by (destruct Ht as [[-> ->]|[-> ->]]; done).
  destruct (runs_here _ _ _ _ _ Hinv Hrun) as (Hi & Hlt & Hni). rewrite Hi. exists t'. split; [|done].
  keep Hinv; simpl.
  - eapply (runs_stop Hi _ k); [|done]. by destruct Ht as [[-> ->]|[-> ->]].
  - eapply (stuck_other Hi); [|done|done]. by destruct Ht as [[-> ->]|[-> ->]].
  - eapply (deps_finish Hi). by destruct Ht as [[-> ->]|[-> ->]].
  - destruct Ht as [[-> ->]|[-> ->]]; (apply lock_drop; [by intros ?%holds_run|done]).
  - eapply (ready_set Hi); [|done]. by destruct Ht as [[-> ->]|[-> ->]].
  - by eapply (num_same Hi).
  - eapply (min_set Hi); [destruct Hmin as [Hm1 Hm2]; split; [done|]; intros j Hj; apply Hm2;
      destruct Ht as [[-> ->]|[-> ->]]; by right|].
    intros _. apply Hmin. destruct Ht as [[-> ->]|[-> ->]]; by left.
  - eapply (res_finish Hi). by destruct Ht as [[-> ->]|[-> ->]].
  - eapply mem_move; [done| |].
    + intros j. rewrite (executed_at_set Hi). by destruct (decide (i = j)).
    + intros j l k' Ho. left. rewrite (executed_at_set Hi).
      rewrite decide_True; [done|]. destruct Ht as [[-> ->]|[-> ->]]; by destruct Ho.
  - by destruct Ht as [[-> ->]|[-> ->]].
  - destruct Ht as [[-> ->]|[-> ->]]; [done|]. intros j Hj. apply Hfinv. by right.
  - by destruct Ht as [[-> ->]|[-> ->]].
  - intros Hr j last_loc l o Hj H1 H2. rewrite (executed_at_set Hi) in Hj. destruct (decide (i = j)) as [<-|Hne].
    + destruct Ht as [[-> ->]|[-> ->]]; [by right; right; left|].
      destruct (Hfinv i) as [?|Hin]; [by left|by right; left|]. right; right; right. by apply any_vals.
    + destruct (Hvalid Hr j last_loc l o Hj H1 H2) as [?|[?|[Hp|?]]]; [by left|by right; left| |by right; right; right].
      destruct Ht as [[-> ->]|[-> ->]]; done.
  - intros _. apply exit_busy. destruct Ht as [[-> ->]|[-> ->]]; by intros [].
Qed.

(** The validation index is lowered to the transactions above [i]. *)
Lemma valid_lower st m v i t t' rest :
  c_valid st m v (t :: rest) → (∀ k l o, pends k l o t → (i < k)%nat) →
  c_valid st m (Nat.min v (S i)) (t' :: rest).
Proof.
  intros Hv Ht k last_loc l o H1 H2 H3. destruct (Hv k last_loc l o H1 H2 H3) as [?|[?|[Hp|?]]];
    [by left|right; left; lia| |by right; right; right].
  right; left. specialize (Ht k l o Hp). lia.
Qed.

Lemma load_validation_safe i k new :
  safe (on_sched (load validation_idx))
    (λ val tok, tok = if decide (i < val)%nat then (if new : bool then TMin i k true else TFinT i k)
                      else TFinV i k) (TMin i k new).
Proof.
  apply load_sched. intros g rest Hinv. eexists. split; [|done].
  destruct (decide _) as [Hlt|Hge].
  { destruct new; [done|]. keep Hinv. intros Hr. eapply valid_move; [by apply Hvalid|done|].
    by intros j l o _ [? _]. }
  keep Hinv.
  - intros j [->|Hj]%elem_of_cons; [left; simpl in *; lia|by apply Hfinv].
  - intros Hr j last_loc l o H1 H2 H3. destruct (Hvalid Hr j last_loc l o H1 H2 H3) as [?|[?|[[_ Hp]|?]]];
      [by left|by right; left| |by right; right; right]. right; left. lia.
Qed.

Lemma lower_validation_safe i k :
  safe (on_sched (fetch_min_validation (S i))) (λ _ tok, tok = TFinT i k) (TMin i k true).
Proof.
  apply act_sched. intros g rest Hinv. eexists. split; [|done]. keep Hinv.
  - by apply finv_min.
  - intros Hr. eapply valid_lower; [by apply Hvalid|]. by intros k' l o [_ ?].
Qed.

Lemma finish_execution_safe v flags new :
  flags_contains flags WroteNewLocation = new →
  safe (on_sched (finish_execution n v flags))
    (λ o tok, match o with Some t => task_token t tok | None => tok = TNext end)
    (TStored (tx_idx v) (tx_incarnation v) new).
Proof.
  intros Hflags. unfold finish_execution, schedule_validation. rewrite always_needs_validation, Hflags.
  sbind begin_finish_safe. intros _ tok [-> Hi].
  sbind take_dependents_safe. intros l tok ->.
  sbind resume_dependents_safe. intros _ tok ->.
  apply safe_focus_bind. sbind fetch_min_min_safe. intros old tok ->. cbn [on_sched focus Concurrent.safe].
  set (i := tx_idx v) in *. set (k := tx_incarnation v).
  rewrite (bool_decide_true (Nat.min old i < n)%nat) by lia.
  rewrite (bool_decide_false (i < Nat.min old i)%nat) by lia.
  apply safe_focus_bind. sbind (load_validation_safe i k new). intros val tok ->.
  destruct (decide (i < val)%nat) as [Hlt|Hge].
  - rewrite bool_decide_true by done.
    assert (Hw : safe (on_sched (write_status i Executed false true;; Ret (Some (Validation v))))
              (λ early tok, safe (on_sched
                 match early with
                 | Some t => Ret (Some t)
                 | None => write_status i Executed false true;; Ret None
                 end) (λ o tok, match o with Some t => task_token t tok | None => tok = TNext end) tok)
              (TFinT i k)).
    { sbind (write_status_safe i k (TFinT i k) (TTask i)); [|by left]. intros _ tok ->. done. }
    destruct new; apply safe_focus_bind; [|exact Hw].
    eapply safe_mono; [|apply lower_validation_safe]. intros _ tok ->. exact Hw.
  - rewrite bool_decide_false by done. cbn [on_sched focus Concurrent.safe].
    sbind (write_status_safe i k (TFinV i k) TNext); [|by right]. intros _ tok ->. done.
Qed.

(** ** Blocking and validation *)

Lemma add_dependency_inv g rest i k b ds txb :
  Inv g (TRun i k :: rest) → (b < i)%nat → status_lock (sched g) !! b = Some false →
  transactions_status (sched g) !! b = Some txb → is_executed (status txb) = false →
  transactions_dependents (sched g) !! b = Some ds →
  Inv (with_sched g (with_dependents (with_status (sched g) i (mkTxStatus k Aborting)) b (ds ++ [i])))
    (TNext :: rest).
Proof.
  intros Hinv Hb Hl Htxb Hex Hds. destruct (runs_here _ _ _ _ _ Hinv eq_refl) as (Hi & Hlt & Hni).
  keep Hinv; simpl.
  - by eapply (runs_stop Hi _ k).
  - eapply stuck_push; [|done]. by eapply (stuck_abort Hi).
  - eapply deps_push; [by eapply (deps_keep Hi)|done|done| |].
    + intros Hin%drained_hold. by eapply (unlocked _ _ b Hlock).
    + exists txb. by rewrite (lookup_set Hi), decide_False by lia.
  - by eapply (ready_set Hi).
  - by eapply (num_same Hi).
  - by eapply (min_set Hi).
  - by eapply (res_set Hi).
  - eapply mem_move; [done| |done]. intros j. by rewrite (executed_at_same Hi).
  - intros Hr. eapply valid_move; [by apply Hvalid| |done]. intros j. by rewrite (executed_at_same Hi).
Qed.

Lemma add_dependency_safe i k b :
  (b < i)%nat → safe (on_sched (add_dependency i b)) (λ r tok, tok = if r : bool then TNext else TRun i k) (TRun i k).
Proof.
  intros Hb. apply (locked_safe b).
  { intros g rest Hinv. destruct (runs_here _ _ _ _ _ Hinv eq_refl) as (_ & ? & _). lia. }
  intros g rest txb Hinv Htxb Hl. destruct (runs_here _ _ _ _ _ Hinv eq_refl) as (Hi & Hlt & Hni).
  destruct (I_len n g _ Hinv) as [H1 H2 H3 _ _].
  destruct (is_executed (status txb)) eqn:Hex; [rewrite sched_same; eauto|].
  unfold locked_status. rewrite Hi.
  destruct (lookup_lt_is_Some_2 (status_lock (sched g)) i) as [[] Hli]; [by rewrite H2| |]; rewrite Hli; [done|].
  destruct (lookup_lt_is_Some_2 (transactions_dependents (sched g)) b) as [ds Hds]; [rewrite H3; lia|].
  rewrite Hds. simpl. eexists. split; [|done]. by eapply add_dependency_inv.
Qed.

(** A failed validation aborts the transaction, if it is executed. *)
Lemma abort_inv g rest i tx num :
  Inv g (TBad i :: rest) → transactions_status (sched g) !! i = Some tx → is_executed (status tx) = true →
  c_num (<[i := mark tx Aborting]> (transactions_status (sched g))) num →
  Inv (with_sched g (with_status (with_num_validated (sched g) num) i (mark tx Aborting))) (TAbort i None :: rest).
Proof.
  intros Hinv Hi Hex Hnum'.
  assert (Hst : status tx = Executed ∨ status tx = Validated) by (destruct (status tx); auto; done).
  keep Hinv; simpl.
  - eapply (runs_other Hi); [done|by destruct Hst as [-> | ->]|done].
  - eapply (stuck_abort Hi); [done|by destruct Hst as [-> | ->]|done].
  - by eapply (deps_executed Hi).
  - by eapply (ready_set Hi).
  - by eapply (min_set Hi).
  - by eapply (res_set Hi).
  - destruct Hmem as [H1 H2]. split; [done|]. intros l j k v He. destruct (H2 l j k v He) as [? [Hj|Hj]];
      (split; [done|]); [|destruct Hj as [[]|?]; by right; right]. rewrite (executed_at_set Hi). destruct (decide (i = j)) as [<-|]; [|by left].
    right. by left.
  - intros Hr. eapply valid_move; [by apply Hvalid| |].
    + intros j. rewrite (executed_at_set Hi). destruct (decide (i = j)); [done|done].
    + intros j l o. rewrite (executed_at_set Hi). simpl. intros Hj ->. by rewrite decide_True in Hj.
Qed.

Lemma try_validation_abort_safe v :
  (tx_idx v < n)%nat →
  safe (on_sched (try_validation_abort v)) (λ r tok, tok = if r : bool then TAbort (tx_idx v) None else TNext)
    (TBad (tx_idx v)).
Proof.
  intros Hi. apply locked_safe; [done|]. intros g rest tx Hinv Htx Hl.
  destruct (is_executed (status tx)) eqn:Hex.
  - eexists. split; [|done].
    replace (with_status _ _ _) with
      (with_status (with_num_validated (sched g)
         (if bool_decide (status tx = Validated) then u64_sub (num_validated (sched g)) 1 else num_validated (sched g)))
         (tx_idx v) (mark tx Aborting)) by (case_bool_decide; [done|by destruct (sched g)]).
    apply abort_inv; [done..|]. pose proof (I_num n g _ Hinv) as Hnum. case_bool_decide as Hv.
    + eapply (num_dec Htx); [done| |done|by rewrite (len_status n g (I_len n g _ Hinv))].
      unfold is_validated. by apply bool_decide_eq_true_2.
    + eapply (num_same Htx); [done|]. unfold is_validated. simpl. by rewrite bool_decide_false.
  - rewrite bool_decide_false by (intros Heq; by rewrite Heq in Hex). cbn zeta iota.
    rewrite sched_same. exists TNext. split; [|done]. keep Hinv. intros Hr.
    eapply valid_move; [by apply Hvalid|done|]. intros j l o Hj Hp. simpl in Hp. subst j.
    rewrite (executed_at_here Htx) in Hj. congruence.
Qed.

(** A token that owes nothing. *)
Definition idle (t : token) : Prop := ∀ g rest, Inv g (t :: rest) → Inv g (TNext :: rest).

Lemma check_done_idle i : idle (TCheck i []).
Proof.
  intros g rest Hinv. keep Hinv. intros Hr. eapply valid_move; [by apply Hvalid|done|].
  intros k l o _ [_ Hin]. by apply not_elem_of_nil in Hin.
Qed.

Lemma mark_validated_safe i t :
  (i < n)%nat → idle t → safe (on_sched (act (mark_validated_section i))) (λ _ tok, tok = TNext) t.
Proof.
  intros Hi Ht. apply locked_safe; [done|]. intros g rest [k st] Hinv%Ht Htx Hl.
  destruct st; simpl; rewrite ?sched_same; eauto. eexists. split; [|done]. keep Hinv; simpl.
  - by eapply (runs_other Htx).
  - by eapply (stuck_other Htx).
  - by eapply (deps_executed Htx).
  - by eapply (ready_set Htx).
  - eapply (num_inc Htx); [done..|]. by rewrite (len_status n g Hlen).
  - eapply (min_set Htx); [done|]. intros _. destruct Hmin as [Hm _]. apply Hm. by rewrite (executed_at_here Htx).
  - by eapply (res_set Htx).
  - eapply mem_move; [done| |done]. intros j. by rewrite (executed_at_same Htx).
  - intros Hr. eapply valid_move; [by apply Hvalid| |done]. intros j. by rewrite (executed_at_same Htx).
Qed.

Lemma finish_validation_safe v (aborted : bool) t :
  (tx_idx v < n)%nat → (if aborted then t = TAbort (tx_idx v) (Some []) else idle t) →
  safe (on_sched (finish_validation n v aborted))
    (λ o tok, match o with Some t => task_token t tok | None => tok = TNext end)
    t.
Proof.
  intros Hi Ht. unfold finish_validation. destruct aborted; [subst t|].
  - sbind (set_ready_safe (TAbort (tx_idx v) (Some [])) (TLower (tx_idx v))); [|by left].
    intros _ tok ->. apply safe_focus_bind, act_sched. intros g rest Hinv. exists (TReady (tx_idx v)). split.
    { keep Hinv; [by apply finv_min|]. intros Hr. eapply valid_lower; [by apply Hvalid|done]. }
    sbind (load_sched execution_idx
             (λ e tok, tok = if decide (tx_idx v < e)%nat then TReady (tx_idx v) else TNext)).
    2:{ clear. intros g rest Hinv. eexists. split; [|done]. destruct (decide _) as [|Hge]; [done|].
        eapply drop_exec_inv; [done|by right|left; lia]. }
    intros e tok ->. destruct (decide (tx_idx v < e)%nat) as [Hlt|Hge].
    + rewrite bool_decide_true by done.
      sbind (try_execute_safe (tx_idx v) (TReady (tx_idx v))); [|by right|done].
      intros [w|] tok Ht; [exact Ht|done].
    + by rewrite bool_decide_false.
  - sbind mark_validated_safe; [|done|done]. by intros _ tok ->.
Qed.

(** ** Actions on the memory *)

Lemma owner_busy i l k toks :
  any (owns_data i l k) toks → i ∈ (gather runs toks).*1 ∨ i ∈ gather stuck toks.
Proof.
  induction toks as [|t toks IH]; simpl; [done|]. rewrite fmap_app, !elem_of_app. intros [Ht|Ht].
  - destruct t as [| | | | | | | | | | |? []| | | | | | | | | | | |]; simpl in *; try done;
      try (destruct Ht as [-> _]); subst; rewrite !list_elem_of_singleton; tauto.
  - destruct (IH Ht); tauto.
Qed.

(** While a thread executes [i], no other thread accounts for its data. *)
Lemma sole_owner g t rest i k l k' :
  Inv g (t :: rest) → runs t = [(i, k)] → ¬ any (owns_data i l k') rest ∧ ¬ executed_at (transactions_status (sched g)) i.
Proof.
  intros Hinv Ht. destruct (runs_here _ _ _ _ _ Hinv Ht) as (Hi & Hlt & Hni). split.
  - intros [?|Hs]%owner_busy; [done|]. destruct (I_stuck n g _ Hinv) as [_ Hst].
    destruct (Hst i) as [Hst' _]. destruct Hst' as [k2 Hk2]; [simpl; rewrite !elem_of_app; tauto|]. congruence.
  - rewrite (executed_at_here Hi). done.
Qed.

Lemma cleans_run i l toks : (i, l) ∈ gather cleans toks → i ∈ (gather runs toks).*1.
Proof.
  induction toks as [|t toks IH]; simpl; [by rewrite elem_of_nil|]. rewrite fmap_app, !elem_of_app.
  intros [Ht|Ht]; [left|right; by apply IH].
  destruct t; simpl in *; try (by apply not_elem_of_nil in Ht).
  apply list_elem_of_fmap in Ht as (x & [= -> ->] & _). by left.
Qed.

Lemma last_here g toks i : Inv g toks → (i < n)%nat → ∃ last_loc, last_locations (mem g) !! i = Some last_loc.
Proof. intros Hinv Hi. apply lookup_lt_is_Some_2. by rewrite (len_last n g (I_len n g _ Hinv)). Qed.

Lemma begin_record_safe i k read_set write_set :
  safe (on_mem (act (begin_record_section i read_set write_set)))
    (λ removed tok, tok = TWrite i k removed false) (TRun i k).
Proof.
  apply act_mem. intros g rest Hinv. destruct (runs_here _ _ _ _ _ Hinv eq_refl) as (Hi & Hlt & Hni).
  destruct (last_here _ _ _ Hinv Hlt) as [last_loc Hl]. unfold begin_record_section. rewrite Hl.
  destruct (split_stale _ _ _ _ _) as [kept removed] eqn:Hs.
  apply split_stale_run in Hs as (Hperm & Hkept & Hremoved). rewrite Forall_forall in Hkept, Hremoved.
  assert (Hlast : ∀ j, last_locations (with_last (mem g) i (mkLast read_set kept)) !! j =
    if decide (i = j) then Some (mkLast read_set kept) else last_locations (mem g) !! j).
  { intros j. simpl. destruct (decide (i = j)) as [<-|]; [by apply list_lookup_insert_eq, (lookup_lt_Some _ _ _ Hl)|].
    by apply list_lookup_insert_ne. }
  exists (TWrite i k removed false). split; [|done].
  pose proof (λ l k', sole_owner _ _ _ _ _ l k' Hinv eq_refl) as Hsole. keep Hinv; simpl.
  - destruct Hmem as [H1 H2]. split.
    + intros j last_loc' l. rewrite Hlast. destruct (decide (i = j)) as [<-|]; [|apply H1].
      intros [= <-] Hin. apply (H1 i last_loc l Hl). rewrite Hperm. apply elem_of_app. by left.
    + intros l j k' v He. destruct (H2 l j k' v He) as [(ll & Hll & Hin) Hown].
      destruct (decide (i = j)) as [<-|Hne].
      { destruct (Hsole l k') as [Hn1 Hn2]. by destruct Hown as [?|[[]|?]]. }
      split; [exists ll; by rewrite Hlast, decide_False|]. destruct Hown as [?|[[]|?]]; [by left|by right; right].
  - intros j l ll Hin. rewrite Hlast. destruct (decide (i = j)) as [<-|Hne].
    + intros [= <-]. simpl. apply elem_of_app in Hin as [Hin|Hin%cleans_run]; [|done].
      apply list_elem_of_fmap in Hin as (x & [= <-] & Hx). intros Hk. by apply (Hremoved l Hx), Hkept.
    + apply elem_of_app in Hin as [Hin|Hin]; [|by apply Hclean].
      apply list_elem_of_fmap in Hin as (x & [= <- <-] & Hx). done.
  - intros Hr j ll l o Hj. rewrite Hlast. destruct (decide (i = j)) as [<-|Hne].
    + intros. by destruct (Hsole l 0%nat) as [_ ?].
    + intros H1 H2. destruct (Hvalid Hr j ll l o Hj H1 H2) as [?|[?|[[]|?]]];
        [by left|by right; left|by right; right; right].
Qed.

Lemma remove_entries_safe i k new l :
  safe (on_mem (remove_entries i l)) (λ _ tok, tok = TWrite i k [] new) (TWrite i k l new).
Proof.
  induction l as [|x l IH]; [done|]. apply safe_focus_bind, act_mem. intros g rest Hinv.
  exists (TWrite i k l new). split; [|exact IH].
  destruct (runs_here _ _ _ _ _ Hinv eq_refl) as (Hi & Hlt & Hni).
  destruct (last_here _ _ _ Hinv Hlt) as [last_loc Hl].
  assert (Hx : x ∉ last_write last_loc) by (eapply (I_clean n g _ Hinv i); [by left|done]).
  assert (Hlast : last_locations (remove_entry i x (mem g)) = last_locations (mem g))
    by (unfold remove_entry; by destruct (data (mem g) !! x)).
  keep Hinv; simpl.
  - destruct Hlen; split; simpl; try assumption. by rewrite Hlast.
  - destruct Hmem as [H1 H2]. split.
    + intros j ll y. rewrite Hlast, entry_remove. intros Hj Hy. rewrite decide_False; [by eapply H1|].
      intros [-> ->]. by simplify_eq.
    + intros y j k' v. rewrite entry_remove, Hlast. destruct (decide _) as [|Hne]; [done|]. intros He.
      by destruct (H2 y j k' v He).
  - intros j y ll Hin. rewrite Hlast. apply Hclean. simpl. by right.
  - intros Hr j ll y o Hj. rewrite Hlast. intros H1 H2.
    destruct (Hvalid Hr j ll y o Hj H1 H2) as [Hv|[?|?]]; [left|by right; left|by right; right].
    eapply valid_location_mono; [| |done].
    + unfold remove_entry. destruct (data (mem g) !! x) as [w|] eqn:Hw; [|done]. simpl.
      destruct (decide (x = y)) as [->|]; [by rewrite lookup_insert_eq|by rewrite lookup_insert_ne].
    + intros j' _. rewrite entry_remove. destruct (decide _) as [[-> ->]|]; [|right; by left].
      destruct (entry (mem g) y j') as [[k' v|]|] eqn:He; [|by left|right; by left].
      destruct (proj2 Hmem y j' k' v He) as [(ll' & Hll' & Hin) _]. by simplify_eq.
Qed.

Lemma write_entry_safe v x value new :
  safe (on_mem (act (write_entry_section v x value)))
    (λ is_new tok, tok = TWrite (tx_idx v) (tx_incarnation v) [] (new || is_new))
    (TWrite (tx_idx v) (tx_incarnation v) [] new).
Proof.
  destruct v as [i k]. cbn [tx_idx tx_incarnation]. apply act_mem. intros g rest Hinv.
  destruct (runs_here _ _ _ _ _ Hinv eq_refl) as (Hi & Hlt & Hni).
  destruct (last_here _ _ _ Hinv Hlt) as [last_loc Hl].
  rewrite (write_entry_run (mkVersion i k) x value _ _ Hl). eexists. split; [|done]. simpl.
  set (lw := if decide _ then _ else _).
  assert (Hlw : ∀ y, y ∈ lw ↔ y ∈ last_write last_loc ∨ y = x).
  { intros y. unfold lw. destruct (decide (x ∈ last_write last_loc)); [naive_solver|].
    by rewrite elem_of_app, list_elem_of_singleton. }
  set (m' := mkMemory _ _ _ _).
  assert (Hlast : ∀ j, last_locations m' !! j =
    if decide (i = j) then Some (mkLast (last_read last_loc) lw) else last_locations (mem g) !! j).
  { intros j. simpl. destruct (decide (i = j)) as [<-|]; [by apply list_lookup_insert_eq, (lookup_lt_Some _ _ _ Hl)|].
    by apply list_lookup_insert_ne. }
  assert (Hentry : ∀ y j, entry m' y j = if decide (x = y ∧ i = j) then Some (Data k value) else entry (mem g) y j).
  { intros y j. apply (entry_put (mkVersion i k)). }
  pose proof (λ l k', sole_owner _ _ _ _ _ l k' Hinv eq_refl) as Hsole.
  clearbody lw. keep Hinv; simpl.
  - destruct Hmem as [H1 H2]. split.
    + intros j ll y. rewrite Hlast, Hentry. intros Hll Hy.
      destruct (decide (x = y ∧ i = j)) as [|Hne]; [done|]. destruct (decide (i = j)) as [<-|]; [|by eapply H1].
      injection Hll as <-. apply Hlw in Hy as [?| ->]; [by eapply H1|naive_solver].
    + intros y j k' v. rewrite Hentry. destruct (decide (x = y ∧ i = j)) as [[-> ->]|Hne].
      * intros [= <- <-]. split; [|by right; left]. eexists. rewrite Hlast, decide_True by done.
        split; [done|]. apply Hlw. by right.
      * intros He. destruct (H2 y j k' v He) as [(ll & Hll & Hin) Hown]. split; [|done].
        destruct (decide (i = j)) as [<-|Hij]; [|exists ll; by rewrite Hlast, decide_False].
        eexists. rewrite Hlast, decide_True by done. split; [done|].
        assert (ll = last_loc) as -> by congruence. apply Hlw. by left.
  - intros j y ll Hin. rewrite Hlast. destruct (decide (i = j)) as [<-|]; [by apply cleans_run in Hin|by apply Hclean].
  - intros Hr j ll y o Hj. rewrite Hlast. destruct (decide (i = j)) as [<-|Hne].
    { intros. by destruct (Hsole y 0%nat) as [_ ?]. }
    intros H1 H2. destruct (Hvalid Hr j ll y o Hj H1 H2) as [Hv|[?|[[-> Hp]|?]]];
      [|by right; left|right; right; left; by split|by right; right; right].
    destruct (decide (x ∉ last_write last_loc ∧ (i < j)%nat)) as [[Hx Hij]|Hold].
    { right; right; left. split; [|done]. rewrite bool_decide_true by done. apply orb_true_r. }
    left. eapply valid_location_mono; [| |done].
    + simpl. unfold put_entry. destruct (decide (x = y)) as [->|]; [by rewrite lookup_insert_eq|by rewrite lookup_insert_ne].
    + intros j' Hj'. rewrite Hentry. destruct (decide (x = y ∧ i = j')) as [[-> ->]|]; [|right; by left].
      assert (Hxin : y ∈ last_write last_loc) by (destruct (decide (y ∈ last_write last_loc)); [done|naive_solver]).
      destruct (proj1 Hmem j' last_loc y Hl Hxin) as [[k' v|] He]; [|by left].
      right; right. destruct (proj2 Hmem y j' k' v He) as [_ Hown]. destruct (Hsole y k') as [Hn1 Hn2].
      destruct Hown as [?|[[_ <-]|?]]; [done|eauto 10|done].
Qed.

Lemma write_entries_safe v ws new :
  safe (on_mem (write_entries v ws new))
    (λ new tok, tok = TWrite (tx_idx v) (tx_incarnation v) [] new)
    (TWrite (tx_idx v) (tx_incarnation v) [] new).
Proof.
  revert new. induction ws as [|[x value] ws IH]; intros new; [done|].
  sbind (write_entry_safe v x value new). intros is_new tok ->. apply IH.
Qed.

Lemma record_safe v read_set write_set :
  safe (on_mem (record v read_set write_set))
    (λ new tok, tok = TWrite (tx_idx v) (tx_incarnation v) [] new)
    (TRun (tx_idx v) (tx_incarnation v)).
Proof.
  unfold record. sbind begin_record_safe. intros removed tok ->.
  sbind remove_entries_safe. intros _ tok ->. apply write_entries_safe.
Qed.

Lemma add_lazy_safe l t : ¬ exiting t → safe (on_mem (add_lazy_addresses l)) (λ _ tok, tok = t) t.
Proof.
  intros Ht. apply act_mem. intros g rest Hinv. exists t. split; [|done].
  assert (Hex : ∀ s, c_exit n s (t :: rest)) by (intros s; by apply exit_busy). keep Hinv.
Qed.

Lemma store_result_safe i k new (r : R) :
  safe (store_result i r) (λ _ tok, tok = TStored i k new) (TWrite i k [] new).
Proof.
  intros g rest Hinv. destruct (runs_here _ _ _ _ _ Hinv eq_refl) as (Hi & Hlt & Hni).
  pose proof (len_res n g (I_len n g _ Hinv)) as Hres'.
  rewrite bool_decide_true by lia. eexists. split; [|done]. keep Hinv; simpl.
  intros j Hj. destruct (decide (i = j)) as [<-|Hne].
  - rewrite list_lookup_insert_eq by lia. eauto.
  - rewrite list_lookup_insert_ne by done. apply Hres. destruct Hj as [?|[?|?]%elem_of_cons]; [by left|done|by right].
Qed.

(** ** Estimates *)

Lemma estimate_entries_safe i l :
  safe (on_mem (estimate_entries i l)) (λ _ tok, tok = TAbort i (Some [])) (TAbort i (Some l)).
Proof.
  induction l as [|x l IH]; [done|]. apply safe_focus_bind, act_mem. intros g rest Hinv.
  exists (TAbort i (Some l)). split; [|exact IH].
  assert (Hlast : last_locations (estimate_entry i x (mem g)) = last_locations (mem g))
    by (unfold estimate_entry; by destruct (data (mem g) !! x)).
  assert (Hdom : ∀ y, is_Some (data (mem g) !! y) → is_Some (data (estimate_entry i x (mem g)) !! y)).
  { intros y. unfold estimate_entry. destruct (data (mem g) !! x) as [w|] eqn:Hw; [|done]. simpl.
    destruct (decide (x = y)) as [->|]; [by rewrite lookup_insert_eq|by rewrite lookup_insert_ne]. }
  keep Hinv; simpl.
  - destruct Hlen; split; simpl; try assumption. by rewrite Hlast.
  - destruct Hmem as [H1 H2]. split.
    + intros j ll y. rewrite Hlast, entry_estimate. destruct (decide _); [done|apply H1].
    + intros y j k v. rewrite entry_estimate, Hlast. destruct (decide _) as [|Hne]; [done|].
      intros He. destruct (H2 y j k v He) as [? Hown]. split; [done|].
      destruct Hown as [?|[[-> Hin]|?]]; [by left| |by right; right].
      right; left. split; [done|]. apply elem_of_cons in Hin as [->|Hin]; [|done].
      destruct Hne. split_and!; [done..|]. unfold entry in He. destruct (data (mem g) !! x); [done|discriminate].
  - intros j y ll. rewrite Hlast. apply Hclean.
  - intros Hr j ll y o Hj. rewrite Hlast. intros H1 H2.
    destruct (decide (i < j)%nat) as [Hlt|Hge]; [right; right; by left|].
    destruct (Hvalid Hr j ll y o Hj H1 H2) as [Hv|[?|?]]; [left|by right; left|by right; right].
    eapply valid_location_mono; [apply Hdom| |done]. intros j' Hj'. rewrite entry_estimate, decide_False by lia. right; by left.
Qed.

Lemma convert_safe i :
  (i < n)%nat →
  safe (on_mem (convert_writes_to_estimates i)) (λ _ tok, tok = TAbort i (Some [])) (TAbort i None).
Proof.
  intros Hi. apply safe_focus_bind, act_mem. intros g rest Hinv.
  destruct (last_here _ _ _ Hinv Hi) as [last_loc Hl]. rewrite Hl, mem_same.
  exists (TAbort i (Some (last_write last_loc))). split; [|apply estimate_entries_safe].
  keep Hinv. destruct Hmem as [H1 H2]. split; [done|]. intros y j k v He.
  destruct (H2 y j k v He) as [(ll & Hll & Hin) Hown]. split; [eauto|].
  destruct Hown as [?|[->|?]]; [by left| |by right; right]. right; left. split; [done|]. by simplify_eq.
Qed.

(** ** Validation *)

Lemma check_locations_safe i l : ∀ rem,
  (∀ x, x ∈ rem → x ∈ l) →
  safe (on_mem (check_locations i l))
    (λ ok tok, if ok : bool then ∃ rem, tok = TCheck i rem ∧ rem = [] else tok = TBad i) (TCheck i rem).
Proof.
  induction l as [|[x origins] l IH]; intros rem Hrem.
  { exists rem. split; [done|]. destruct rem as [|y rem]; [done|].
    exfalso. eapply not_elem_of_nil, (Hrem y). by left. }
  apply safe_focus_bind, act_mem. intros g rest Hinv. rewrite mem_same.
  destruct (valid_location (mem g) i x origins) eqn:Hv.
  - exists (TCheck i l). split; [|by apply IH]. keep Hinv. intros Hr j ll y o H1 H2 H3.
    destruct (Hvalid Hr j ll y o H1 H2 H3) as [?|[?|[[-> Hin]|?]]];
      [by left|by right; left| |by right; right; right].
    apply Hrem, elem_of_cons in Hin as [[= -> ->]|Hin]; [by left|right; right; by left].
  - exists (TBad i). split; [|done]. keep Hinv. intros Hr. eapply valid_move; [by apply Hvalid|done|].
    by intros j y o _ [-> _].
Qed.

Lemma validate_safe i :
  (i < n)%nat →
  safe (on_mem (validate_read_locations i))
    (λ ok tok, if ok : bool then tok = TCheck i [] else tok = TBad i) (TTask i).
Proof.
  intros Hi order. apply safe_focus_bind, act_mem. intros g rest Hinv.
  destruct (last_here _ _ _ Hinv Hi) as [last_loc Hl]. rewrite Hl, mem_same.
  exists (TCheck i (map_to_list (last_read last_loc))). split.
  - keep Hinv. intros Hr j ll y o H1 H2 H3. destruct (Hvalid Hr j ll y o H1 H2 H3) as [?|[?|[->|?]]];
      [by left|by right; left| |by right; right; right].
    right; right; left. split; [done|]. simplify_eq. by apply elem_of_map_to_list.
  - destruct (order (last_read last_loc)) as [l Hperm]. cbn [proj1_sig]. eapply safe_mono; [|apply (check_locations_safe i l)].
    + intros [] tok; [by intros (rem & -> & ->)|done].
    + intros x Hx. by rewrite Hperm.
Qed.

(** ** Workers *)

Ltac pbind H := apply safe_bind; eapply safe_mono; [|eapply H]; cbn beta.

(** What [try_execute] and [try_validate] leave a worker with. *)
Definition after_token (task : option Task) (tok : token) : Prop :=
  match task with
  | Some t => task_token t tok
  | None => tok = TNext ∨ ∃ i k, tok = TLost i k
  end.
Definition worker_token (w : worker) (tok : token) : Prop :=
  match w with WNext => tok = TNext | WTask t => task_token t tok | WExit => ended tok end.

Lemma give_up_inv g rest t t' :
  Inv g (t :: rest) → is_Some (abort_reason g) →
  ((t = TNext ∨ ∃ i, t = TTask i) ∧ t' = TStop) ∨ (∃ i k, (t = TRun i k ∨ t = TLost i k) ∧ t' = TLost i k) →
  Inv g (t' :: rest).
Proof.
  intros Hinv [r Hr] Ht.
  assert (Hab : c_abort g (t' :: rest)).
  { assert (Hs : is_Some (abort_reason g)) by (by exists r). split_and!; [by left|done|by right]. }
  destruct Ht as [[[->|[i ->]] ->]|(i & k & [->| ->] & ->)]; keep Hinv; congruence.
Qed.

Lemma after_task_safe task tok :
  after_token task tok → safe (after_task (R := R) (E := E) task) worker_token tok.
Proof.
  intros Ht g rest Hinv. destruct (abort_reason g) as [r|] eqn:Hr.
  - assert (Hs : is_Some (abort_reason g)) by (by exists r).
    destruct task as [[v|v]|].
    + simpl in Ht. subst tok. exists (TLost (tx_idx v) (tx_incarnation v)).
      split; [eapply give_up_inv; [done..|right; eauto]|right; right; eauto].
    + destruct Ht as [-> _]. exists TStop. split; [eapply give_up_inv; [done..|left; eauto]|right; by left].
    + destruct Ht as [->|(i & k & ->)].
      * exists TStop. split; [eapply give_up_inv; [done..|left; eauto]|right; by left].
      * exists (TLost i k). split; [done|right; right; eauto].
  - exists tok. split; [done|]. destruct task as [t|]; [done|]. destruct Ht as [->|(i & k & ->)]; [done|].
    exfalso. destruct (I_abort n g _ Hinv) as (_ & H2 & _). destruct H2 as [x Hx]; [by left|]. congruence.
Qed.

Lemma load_reason_safe i k (Q : option (option Task) → token → Prop) :
  Q None (TRun i k) → Q (Some None) (TLost i k) →
  safe (r <- load (abort_reason (R := R) (E := E));; Ret (match r with None => None | Some _ => Some None end)) Q (TRun i k).
Proof.
  intros H1 H2 g rest Hinv. destruct (abort_reason g) as [r|] eqn:Hr; [|eauto].
  exists (TLost i k). split; [|done]. eapply give_up_inv; [done|by exists r|right; eauto].
Qed.

Lemma abort_with_safe r i k (Q : option (option Task) → token → Prop) :
  Q (Some None) (TLost i k) → safe (abort_with (R := R) (E := E) r) Q (TRun i k).
Proof.
  intros HQ g rest Hinv. simpl. exists (TAborting i k). split.
  { keep Hinv. destruct Habort as (H1 & H2 & H3). split_and!; simpl; [by right; left|done|by left]. }
  clear Hinv. intros g' rest' Hinv. exists (TLost i k). split; [|done]. keep Hinv; try done.
  destruct Habort as (H1 & H2 & H3). split_and!; simpl; eauto.
Qed.

Lemma finish_vm_safe v is_lazy read_set write_set :
  safe (finish_vm (R := R) (E := E) v is_lazy read_set write_set)
    (λ flags tok, ∃ new, tok = TWrite (tx_idx v) (tx_incarnation v) [] new ∧
                         flags_contains flags WroteNewLocation = new)
    (TRun (tx_idx v) (tx_incarnation v)).
Proof.
  unfold finish_vm. apply safe_bind. apply safe_mono with (Q := λ _ tok, tok = TRun (tx_idx v) (tx_incarnation v)).
  2:{ destruct is_lazy as [[caller to]|]; [|done]. apply add_lazy_safe. by intros []. }
  intros _ tok ->. pbind record_safe. intros new tok ->. exists new. split; [done|].
  by destruct (bool_decide _ && negb _), new.
Qed.

(** The virtual machine does not touch what the invariant speaks of. *)
Lemma codes_inv g g' toks : codes_changed g g' → Inv g toks → Inv g' toks.
Proof. intros [c ->] Hinv. keep Hinv. Qed.

Lemma vm_safe v tok : safe (vm v) (λ o tok', tok' = tok ∧ blocks_below (tx_idx v) o) tok.
Proof. eapply safe_within; [apply codes_inv|apply HVm]. Qed.

Lemma try_execute_iteration_safe v :
  safe (try_execute_iteration vm n v)
    (λ o tok, match o with
              | None => task_token (Execution v) tok
              | Some task => after_token task tok
              end) (TRun (tx_idx v) (tx_incarnation v)).
Proof.
  unfold try_execute_iteration. pbind vm_safe. intros o tok [-> Ho].
  destruct o as [| |b|err|is_lazy read_set write_set r].
  - apply load_reason_safe; [done|right; eauto].
  - apply abort_with_safe. right. eauto.
  - pbind (add_dependency_safe (tx_idx v) (tx_incarnation v) b Ho). intros [] tok ->; [by left|].
    apply load_reason_safe; [done|right; eauto].
  - apply abort_with_safe. right. eauto.
  - pbind finish_vm_safe. intros flags tok (new & -> & Hflags).
    pbind store_result_safe. intros _ tok ->.
    pbind (finish_execution_safe v flags new Hflags). intros [t|] tok Ht; [exact Ht|by left].
Qed.

Lemma try_validate_safe v :
  (tx_idx v < n)%nat → safe (try_validate (R := R) (E := E) n v) after_token (TTask (tx_idx v)).
Proof.
  intros Hi. unfold try_validate. pbind (validate_safe (tx_idx v) Hi). intros ok tok Hok.
  apply safe_bind. apply safe_mono with (Q := λ (ab : bool) tok,
    if ab then tok = TAbort (tx_idx v) None else idle tok).
  - intros ab tok' Htok'. apply safe_bind. apply safe_mono with (Q := λ _ tok,
      if ab then tok = TAbort (tx_idx v) (Some []) else idle tok).
    + intros _ tok'' Htok''. eapply safe_mono; [|by apply (finish_validation_safe v ab)].
      intros [t|] tok3 Ht; [exact Ht|by left].
    + destruct ab; [subst tok'; by apply convert_safe|done].
  - destruct ok; subst tok; [apply check_done_idle|].
    eapply safe_mono; [|by apply try_validation_abort_safe]. intros [] tok' ->; [done|by intros g rest].
Qed.

Lemma worker_safe w tok :
  worker_token w tok →
  match worker_step vm n w with Some p => safe p worker_token tok | None => ended tok end.
Proof.
  destruct w as [|[v|v]|]; cbn [worker_step worker_token task_token]; [intros ->|intros ->|intros [-> Hi]|done].
  - pbind next_task_safe. by intros [| |t] tok Ht.
  - pbind try_execute_iteration_safe. intros [task|] tok Ht; [by apply after_task_safe|exact Ht].
  - pbind (try_validate_safe v Hi). intros task tok Ht. by apply after_task_safe.
Qed.

(** ** The initial state *)

Lemma gather_next {A} (f : token → list A) t : f TNext = [] → gather f (replicate t TNext) = [].
Proof. intros Hf. induction t as [|t IH]; simpl; [done|]. by rewrite Hf, IH. Qed.
Lemma any_next P t : ¬ P TNext → ¬ any P (replicate t TNext).
Proof. intros HP. induction t as [|t IH]; simpl; tauto. Qed.

(** The memory holds no data before the block is executed. *)
Definition fresh_memory (m : MvMemory) : Prop :=
  last_locations m = replicate n (mkLast ∅ []) ∧ ∀ l i k v, entry m l i ≠ Some (Data k v).

Lemma initial_inv m results t :
  fresh_memory m → (n ≤ length results)%nat → Inv (initial n m results) (replicate t TNext).
Proof.
  intros [Hlast Hdata] Hres.
  assert (Hst : ∀ i tx, replicate n (mkTxStatus 0%nat ReadyToExecute) !! i = Some tx → tx = mkTxStatus 0%nat ReadyToExecute).
  { by intros i tx [? _]%lookup_replicate. }
  assert (Hne : ∀ i, ¬ executed_at (replicate n (mkTxStatus 0%nat ReadyToExecute)) i).
  { intros i (tx & ->%Hst & ?). done. }
  assert (Hc : concat (replicate n ([] : list nat)) = []) by (clear; induction n; done).
  split; simpl; rewrite ?gather_next by done.
  - split; simpl; rewrite ?length_replicate, ?Hlast, ?length_replicate; done.
  - split; [constructor|]. intros i k. rewrite elem_of_nil. split; [done|]. by intros [=]%Hst.
  - unfold c_stuck. rewrite Hc. split; [constructor|]. intros i. rewrite elem_of_nil. split; [done|]. by intros [k [=]%Hst].
  - intros b ds d [-> _]%lookup_replicate Hd. by apply not_elem_of_nil in Hd.
  - intros i. rewrite elem_of_nil. split; [done|]. by intros [[=] _]%lookup_replicate.
  - intros i k _. left. lia.
  - unfold c_num. clear. induction n; done.
  - split; [by intros i Hi%Hne|]. intros i Hi. by apply not_elem_of_nil in Hi.
  - intros i [Hi%Hne|Hi]; [done|]. by apply not_elem_of_nil in Hi.
  - split; [|by intros l i k v He%Hdata]. intros i ll l. rewrite Hlast.
    intros [-> _]%lookup_replicate Hl. by apply not_elem_of_nil in Hl.
  - intros i l ll Hin. by apply not_elem_of_nil in Hin.
  - intros i Hi. by apply not_elem_of_nil in Hi.
  - split_and!; simpl; [done|..]; intros Ha; exfalso; revert Ha; apply any_next; by intros [].
  - intros _ k ll l o Hk%Hne. done.
  - intros _ Hnil Hev. destruct t as [|t]; [done|]. by destruct Hev.
Qed.
End safety.
