(* ===== verification/BlockStmCorrect.v ===== *)
(** * Correctness of the parallel executor

    What every execution of the worker threads of BlockStm guarantees, whatever the
    scheduling and whatever the virtual machine does: no assertion fails, and a block
    that is not aborted ends with every transaction validated and every recorded
    read confirmed by the final memory. *)

From S2P Require Import Prelude PevmTypes Concurrent Scheduler MvMemory BlockStm BlockStmInv BlockStmSafety.

Section final.
Context {R E : Type} (n : nat) (Hn : N.of_nat n < u64_modulus).
Implicit Types g : Shared R E.
Context (may_crash : Prop) (vm : TxVersion → prog (Shared R E) (vm_outcome R E)).
Context `{HVm : !VmSpec may_crash vm}.

(** ** When all threads have ended *)

Lemma ended_done g toks :
  Inv n g toks → Forall ended toks → abort_reason g = None → Forall (.= TDone) toks.
Proof.
  intros Hinv Hend Hr. destruct (I_abort n g _ Hinv) as (H1 & H2 & H3). rewrite Hr in *.
  assert (Hlost : ¬ any is_lost toks) by (intros [x Hx]%H2; done).
  assert (Habd : ¬ any is_aborting toks).
  { clear -Hend. induction Hend as [|t toks [->|[->|(i & k & ->)]] _ IH]; simpl; tauto. }
  assert (Hstop : ¬ any is_stop toks).
  { intros [Ha|[x Hx]]%H3; [|done]. destruct (H1 Ha) as [[x Hx]|?]; done. }
  clear -Hend Hlost Hstop. induction Hend as [|t toks [->|[->|(i & k & ->)]] _ IH]; constructor;
    simpl in *; try tauto.
Qed.

Lemma gather_done {A} (f : token → list A) toks : f TDone = [] → Forall (.= TDone) toks → gather f toks = [].
Proof. intros Hf. induction 1 as [|t toks -> _ IH]; simpl; [done|]. by rewrite Hf, IH. Qed.
Lemma any_done P toks : Forall (.= TDone) toks → any P toks → P TDone.
Proof. induction 1 as [|t toks -> _ IH]; simpl; tauto. Qed.
Lemma every_done (P : token → Prop) toks : P TDone → Forall (.= TDone) toks → every P toks.
Proof. intros HP. induction 1 as [|t toks -> _ IH]; simpl; tauto. Qed.

Lemma done_indices g toks :
  Inv n g toks → Forall (.= TDone) toks → toks ≠ [] → abort_reason g = None →
  (n ≤ execution_idx (sched g))%nat ∧ (n ≤ validation_idx (sched g))%nat ∧
  (N.of_nat (n - min_validation_idx (sched g)) ≤ num_validated (sched g))%N.
Proof.
  intros Hinv Hdone Hne Hr. destruct (I_exit n g _ Hinv Hr) as [Hab|Hcur].
  - done.
  - by apply every_done.
  - destruct (I_abort n g _ Hinv) as (H1 & _). destruct (H1 Hab) as [[x Hx]|Ha]; [congruence|].
    by apply any_done in Ha.
  - by apply any_done in Hcur.
Qed.

Lemma done_executed g toks :
  Inv n g toks → Forall (.= TDone) toks → toks ≠ [] → abort_reason g = None →
  ∀ i, (i < n)%nat → executed_at (transactions_status (sched g)) i.
Proof.
  intros Hinv Hdone Hne Hr. destruct (done_indices g toks Hinv Hdone Hne Hr) as (He & _ & _).
  induction i as [i IH] using lt_wf_ind. intros Hi.
  destruct (lookup_lt_is_Some_2 (transactions_status (sched g)) i) as [[k st] Hst].
  { by rewrite (len_status n g (I_len n g _ Hinv)). }
  destruct (I_runs n g _ Hinv) as [_ Hruns], (I_stuck n g _ Hinv) as [_ Hstuck].
  pose proof (I_deps n g _ Hinv) as Hdeps. pose proof (I_ready n g _ Hinv) as Hready.
  rewrite (gather_done runs) in Hruns by done. rewrite (gather_done stuck) in Hstuck by done.
  rewrite (gather_done wakes) in Hready by done. rewrite app_nil_r in Hstuck.
  destruct st; [| |eexists; eauto|eexists; eauto|].
  - destruct (Hready i k Hst) as [?|Hin]; [lia|by apply not_elem_of_nil in Hin].
  - apply Hruns in Hst. by apply not_elem_of_nil in Hst.
  - assert (Hin : i ∈ concat (transactions_dependents (sched g))) by (apply Hstuck; eauto).
    apply list_elem_of_In, in_concat in Hin as (ds & Hds & Hin).
    apply list_elem_of_In, list_elem_of_lookup_1 in Hds as [b Hb]. apply list_elem_of_In in Hin.
    destruct (Hdeps b ds i Hb Hin) as (Hlt & _ & tx & Htx & Hex).
    destruct (IH b Hlt) as (tx' & Htx' & Hex'); [lia|]. congruence.
Qed.

Lemma all_pass {A} (f : A → bool) l : (length l ≤ length (List.filter f l))%nat → Forall (λ x, f x = true) l.
Proof.
  induction l as [|x l IH]; simpl; [constructor|]. destruct (f x) eqn:Hx; simpl; intros Hle.
  - constructor; [done|]. apply IH. lia.
  - pose proof (List.filter_length_le f l). lia.
Qed.

Lemma done_validated g toks :
  Inv n g toks → Forall (.= TDone) toks → toks ≠ [] → abort_reason g = None →
  ∀ i, (i < n)%nat → ∃ k, transactions_status (sched g) !! i = Some (mkTxStatus k Validated).
Proof.
  intros Hinv Hdone Hne Hr i Hi. destruct (done_indices g toks Hinv Hdone Hne Hr) as (_ & _ & Hnum).
  pose proof (done_executed g toks Hinv Hdone Hne Hr) as Hex.
  destruct (I_min n g _ Hinv) as [Hmin _]. specialize (Hmin 0%nat (Hex 0%nat ltac:(lia))).
  pose proof (len_status n g (I_len n g _ Hinv)) as Hlen. rewrite (I_num n g _ Hinv) in Hnum.
  assert (Hall : Forall (λ tx, is_validated tx = true) (transactions_status (sched g))) by (apply all_pass; lia).
  destruct (lookup_lt_is_Some_2 (transactions_status (sched g)) i) as [[k st] Hst]; [by rewrite Hlen|].
  rewrite Forall_lookup in Hall. specialize (Hall i _ Hst). apply bool_decide_eq_true in Hall. simpl in Hall. subst. eauto.
Qed.

Lemma done_reads g toks k last_loc location origins :
  Inv n g toks → Forall (.= TDone) toks → toks ≠ [] → abort_reason g = None →
  last_locations (mem g) !! k = Some last_loc → last_read last_loc !! location = Some origins →
  valid_location (mem g) k location origins = true.
Proof.
  intros Hinv Hdone Hne Hr Hl Ho. destruct (done_indices g toks Hinv Hdone Hne Hr) as (_ & Hv & _).
  assert (Hk : (k < n)%nat).
  { rewrite <-(len_last n g (I_len n g _ Hinv)). by eapply lookup_lt_Some. }
  destruct (I_valid n g _ Hinv Hr k last_loc location origins) as [?|[?|Hp]]; [|done..|lia|].
  - by eapply done_executed.
  - by apply any_done in Hp.
Qed.

Lemma done_results g toks :
  Inv n g toks → Forall (.= TDone) toks → toks ≠ [] → abort_reason g = None →
  ∃ rs, collect_results n g = Some rs ∧ length rs = n.
Proof.
  intros Hinv Hdone Hne Hr.
  assert (Hall : Forall (λ i, is_Some (mjoin (execution_results g !! i))) (seq 0 n)).
  { apply Forall_seq. intros i Hi. destruct (I_res n g _ Hinv i) as [r Hr'].
    - left. eapply done_executed; [done..|lia].
    - rewrite Hr'. simpl. eauto. }
  unfold collect_results. destruct (mapM _ (seq 0 n)) as [rs|] eqn:Hm.
  - exists rs. split; [done|]. apply length_mapM in Hm. by rewrite <-Hm, length_seq.
  - apply mapM_None in Hm. apply Exists_exists in Hm as (i & Hi & Hnone).
    rewrite Forall_forall in Hall. destruct (Hall i Hi) as [x Hx]. congruence.
Qed.

(** ** Executions of the threads *)

Lemma new_memory_fresh est addrs : fresh_memory n (MvMemory_new n est addrs).
Proof.
  split; [done|]. intros l i k v. unfold entry. simpl.
  assert (Hgen : ∀ d : gmap MemoryLocationHash (gmap nat MemoryEntry),
    (∀ l i e, d !! l ≫= (.!! i) = Some e → e = Estimate) →
    ∀ e, foldl (λ d '(h, idxs), <[h := list_to_map ((λ i, (i, Estimate)) <$> idxs)]> d) d est !! l ≫= (.!! i) = Some e →
    e = Estimate).
  { induction est as [|[h idxs] est' IH]; simpl; intros d Hd; [apply Hd|]. apply IH.
    intros l' i' e. destruct (decide (h = l')) as [->|]; [rewrite lookup_insert_eq|rewrite lookup_insert_ne by done; apply Hd].
    simpl. intros He. apply elem_of_list_to_map_2, list_elem_of_fmap in He as (x & [= _ ->] & _). done. }
  intros He%Hgen; [done|]. intros l' i' e. rewrite lookup_empty. done.
Qed.

Definition start (est : list (MemoryLocationHash * list TxIdx)) (addrs : list N) (results : list (option R)) : Shared R E :=
  initial n (MvMemory_new n est addrs) (grow_results n results).

Lemma spawn_ok threads :
  Forall2 (thread_ok may_crash (Inv (R := R) (E := E) n) (worker_token n) ended) (spawn vm n threads) (replicate threads TNext).
Proof.
  unfold spawn. induction threads as [|t IH]; simpl; constructor; [|done].
  by apply (worker_safe n Hn may_crash vm WNext TNext).
Qed.

Lemma reachable_inv est addrs results threads g ths :
  reachable (worker_step vm n) (start est addrs results) (spawn vm n threads) (g, ths) →
  ∃ toks, Inv n g toks ∧ Forall2 (thread_ok may_crash (Inv n) (worker_token n) ended) ths toks ∧ length toks = threads.
Proof.
  intros Hr. pose proof (reachable_length _ _ _ _ _ Hr) as Hlen.
  assert (H0 : Inv n (start est addrs results) (replicate threads TNext)).
  { apply initial_inv; [done|apply new_memory_fresh|]. unfold grow_results. rewrite length_app, length_replicate. lia. }
  destruct (threads_safe _ may_crash (Inv n) (Inv_perm n) (worker_token n) ended (worker_safe n Hn may_crash vm)
              _ _ _ _ _ H0 (spawn_ok threads) Hr) as (toks & Hinv & Hall).
  exists toks. split_and!; [done..|]. rewrite <-(Forall2_length _ _ _ Hall), Hlen. apply length_replicate.
Qed.

Lemma all_ended ths toks :
  Forall2 (thread_ok may_crash (Inv (R := R) (E := E) n) (worker_token n) ended) ths toks → Forall (.= None) ths →
  Forall ended toks.
Proof. induction 1 as [|th t ths toks Ht _ IH]; inversion 1; constructor; subst; auto. Qed.

(** What is known when the threads have ended and the block was not aborted. *)
Lemma finished_inv est addrs results threads g ths :
  (0 < threads)%nat → reachable (worker_step vm n) (start est addrs results) (spawn vm n threads) (g, ths) →
  Forall (.= None) ths → abort_reason g = None →
  ∃ toks, Inv n g toks ∧ Forall (.= TDone) toks ∧ toks ≠ [].
Proof.
  intros Ht Hr Hend Hab. destruct (reachable_inv _ _ _ _ _ _ Hr) as (toks & Hinv & Hall & Hlen).
  exists toks. split; [done|]. split; [by eapply ended_done, Hab; [|eapply all_ended]|].
  intros ->. simpl in Hlen. lia.
Qed.
End final.

(** ** An execution

    A block of two transactions on one thread: the first writes location 5, the second
    reads it and writes location 6. *)
Definition sample_reads : ReadSet := {[ 5%N := [MvMemoryOrigin (mkVersion 0%nat 0%nat)] ]}.
Definition sample_outcome (i : TxIdx) : { o : vm_outcome unit unit | blocks_below i o } :=
  if decide (i = 0%nat) then exist _ (VmOk None ∅ [(5%N, StorageValue 7)] tt) I
  else exist _ (VmOk None sample_reads [(6%N, StorageValue 8)] tt) I.

Ltac alone := apply exec_run; vm_compute; reflexivity.

Lemma sample_run : ∃ g : Shared unit unit,
  reachable (worker_step any_vm 2) (start 2 [] [] []) (spawn any_vm 2 1) (g, [None]) ∧ abort_reason g = None ∧
  last_locations (mem g) !! 1%nat = Some (mkLast sample_reads [6%N]).
Proof.
  eexists. split.
  - unfold reachable. eapply (loops_steps _ _ WNext); [reflexivity|].
    eapply loops_next; [reflexivity|alone|].
    eapply loops_next; [reflexivity|apply (exec_demon _ _ (sample_outcome 0%nat)); alone|].
    eapply loops_next; [reflexivity|apply (exec_demon _ _ sample_order); alone|].
    eapply loops_next; [reflexivity|alone|].
    eapply loops_next; [reflexivity|apply (exec_demon _ _ (sample_outcome 1%nat)); alone|].
    eapply loops_next; [reflexivity|alone|].
    eapply loops_next; [reflexivity|apply (exec_demon _ _ sample_order); alone|].
    eapply loops_next; [reflexivity|alone|].
    by apply loops_end.
  - split; vm_compute; reflexivity.
Qed.

(** C11: No thread of the executor ever fails an assertion of the scheduler (a transaction
    that blocks or finishes is executing its current incarnation, a transaction made ready
    was aborting) or indexes out of range, for every interleaving, every number of
    threads and every behaviour of the virtual machine, aborted blocks included. *)
Theorem block_stm_no_crash {R E} (vm : TxVersion → prog (Shared R E) (vm_outcome R E)) `{!VmSpec False vm} n est addrs (results : list (option R)) threads g ths :
  N.of_nat n < u64_modulus →
  reachable (worker_step vm n) (start n est addrs results) (spawn vm n threads) (g, ths) →
  ¬ crashes (g, ths).
Proof.
  intros Hn Hr. destruct (reachable_inv n Hn False vm _ _ _ _ _ _ Hr) as (toks & Hinv & Hall & _).
  intros Hcrash. by eapply (safe_no_crash False _ (Inv_perm n)) in Hcrash.
Qed.

Lemma block_stm_no_crash_witness : ∃ g : Shared unit unit, ¬ crashes (g, [None : option (prog _ worker)]).
Proof.
  destruct sample_run as (g & Hr & _). exists g.
  apply (block_stm_no_crash any_vm 2 [] [] [] 1 g [None]); [reflexivity|exact Hr].
Defined.

(** C4: When every thread has ended and the block was not aborted, every transaction of
    the block is validated, and the result of each is there to be collected: no transaction
    is lost in a dependents list, a skipped index or a race of the two indices. *)
Theorem block_stm_completes {R E} (vm : TxVersion → prog (Shared R E) (vm_outcome R E)) `{!VmSpec True vm} n est addrs (results : list (option R)) threads (g : Shared R E) ths :
  N.of_nat n < u64_modulus → (0 < threads)%nat →
  reachable (worker_step vm n) (start n est addrs results) (spawn vm n threads) (g, ths) →
  Forall (.= None) ths → abort_reason g = None →
  (∀ i, (i < n)%nat → ∃ k, transactions_status (sched g) !! i = Some (mkTxStatus k Validated)) ∧
  ∃ rs, collect_results n g = Some rs ∧ length rs = n.
Proof.
  intros Hn Ht Hr Hend Hab. destruct (finished_inv n Hn True vm _ _ _ _ _ _ Ht Hr Hend Hab) as (toks & Hinv & Hdone & Hne).
  split; [by eapply done_validated|by eapply done_results].
Qed.

Lemma block_stm_completes_witness : ∃ (g : Shared unit unit) k,
  transactions_status (sched g) !! 1%nat = Some (mkTxStatus k Validated).
Proof.
  destruct sample_run as (g & Hr & Ha & _). exists g.
  apply (block_stm_completes any_vm 2 [] [] [] 1 g [None]); [reflexivity|lia|exact Hr|by repeat constructor|exact Ha|lia].
Defined.

(** C3: When every thread has ended and the block was not aborted, every read that the
    last incarnation of a transaction recorded passes validation against the final
    memory: the versions it read are the latest versions of the lower transactions. A
    status validated early by a stale validation task does no harm. *)
Theorem block_stm_reads_valid {R E} (vm : TxVersion → prog (Shared R E) (vm_outcome R E)) `{!VmSpec True vm} n est addrs (results : list (option R)) threads (g : Shared R E) ths k last_loc location origins :
  N.of_nat n < u64_modulus → (0 < threads)%nat →
  reachable (worker_step vm n) (start n est addrs results) (spawn vm n threads) (g, ths) →
  Forall (.= None) ths → abort_reason g = None →
  last_locations (mem g) !! k = Some last_loc → last_read last_loc !! location = Some origins →
  valid_location (mem g) k location origins = true.
Proof.
  intros Hn Ht Hr Hend Hab. destruct (finished_inv n Hn True vm _ _ _ _ _ _ Ht Hr Hend Hab) as (toks & Hinv & Hdone & Hne).
  by eapply done_reads.
Qed.

Lemma block_stm_reads_valid_witness : ∃ g : Shared unit unit,
  valid_location (mem g) 1 5%N [MvMemoryOrigin (mkVersion 0%nat 0%nat)] = true.
Proof.
  destruct sample_run as (g & Hr & Ha & Hl). exists g.
  apply (block_stm_reads_valid any_vm 2 [] [] [] 1 g [None] 1 (mkLast sample_reads [6%N]));
    [reflexivity|lia|exact Hr|by repeat constructor|exact Ha|exact Hl|reflexivity].
Defined.
