(* ===== verification/BlockStmProv.v ===== *)
(** * Where the data of a block comes from

    The worker threads of BlockStm with the virtual machine of VmExecute. Every worker
    carries a second ghost token, [ptoken], that holds the memories its current execution
    has read from, or the execution it is recording. [PInv] ties the tokens and the
    history [hist] of all recorded executions to the shared state: every data entry is a
    write of the recorded execution of its version, and what is stored for an executed
    transaction is its last recorded execution. *)

From S2P Require Import Prelude PevmTypes Concurrent Scheduler MvMemory VmDb Chain BlockStm VmExecute VmRepeat.
From S2P Require Import BlockStmInv BlockStmSafety.

Inductive ptoken :=
| PIdle
| PRun (i : TxIdx) (k : TxIncarnation) (ms : list MvMemory) (hs : list N)  (* read from ms, deployed hs *)
| PLost (i : TxIdx) (k : TxIncarnation)                        (* given up, the block is aborted *)
| PRec (i : TxIdx) (k : TxIncarnation) (x : execution) (rm : list MemoryLocationHash) (todo : WriteSet)
  (* recording: still to remove rm and to store todo *)
| PStored (i : TxIdx) (k : TxIncarnation) (x : execution)
| PResume (i : TxIdx) (k : TxIncarnation) (x : execution) (drain : list TxIdx)
| PAbort (i : TxIdx) (rem : option (list MemoryLocationHash)). (* converting writes to estimates *)

Definition pruns (t : ptoken) : list (TxIdx * TxIncarnation) :=
  match t with
  | PRun i k _ _ | PLost i k | PRec i k _ _ _ | PStored i k _ | PResume i k _ _ => [(i, k)]
  | _ => []
  end.
Definition pstuck (t : ptoken) : list TxIdx :=
  match t with PAbort i _ => [i] | PResume _ _ _ drain => drain | _ => [] end.
(** The transaction whose data the thread may change. *)
Definition ptx (t : ptoken) : option TxIdx :=
  match t with
  | PIdle => None
  | PRun i _ _ _ | PLost i _ | PRec i _ _ _ _ | PStored i _ _ | PResume i _ _ _ | PAbort i _ => Some i
  end.
Definition powns (i : TxIdx) (location : MemoryLocationHash) (t : ptoken) : Prop :=
  match t with
  | PRec i' _ _ _ _ | PStored i' _ _ | PResume i' _ _ _ | PAbort i' None => i = i'
  | PAbort i' (Some rem) => i = i' ∧ location ∈ rem
  | _ => False
  end.

Lemma powns_tx i l t : powns i l t → ptx t = Some i.
Proof. destruct t as [| | | | | |i' []]; simpl; naive_solver. Qed.

(** A stale location that the thread will remove. *)
Definition premoves (i : TxIdx) (location : MemoryLocationHash) (t : ptoken) : Prop :=
  match t with PRec i' _ _ rm _ => i = i' ∧ location ∈ rm | _ => False end.

Lemma premoves_tx i l t : premoves i l t → ptx t = Some i.
Proof. destruct t; simpl; naive_solver. Qed.

Notation history := (gmap (TxIdx * TxIncarnation) execution).

(** The value of a version, by the history. *)
Definition vals_of (hist : history) (l : MemoryLocationHash) (j : TxIdx) (k : TxIncarnation) : option MemoryValue :=
  hist !! (j, k) ≫= λ x, final_write (exec_writes x) l.

Lemma vals_of_mono hist hist' : hist ⊆ hist' → ∀ l j k v, vals_of hist l j k = Some v → vals_of hist' l j k = Some v.
Proof.
  intros Hh l j k v. unfold vals_of. intros (x & Hx & Hv)%bind_Some. by rewrite (lookup_weaken _ _ _ _ Hx Hh).
Qed.

Section prov.
Context (hash_deterministic : MemoryLocation → MemoryLocationHash) (hash_inj : Inj (=) (=) hash_deterministic).
Context {st : Storage} (bytecode_of : N → N + N) {chain_rules : PevmChain} (code_of : N → N).
Context (storage_code : storage_has_code bytecode_of code_of).
Context (evm_of : TxEnv → evm (EvmError + ResultAndState)) {evm_spec : EvmSpec evm_of code_of}.
Context (spec_id : SpecId) (block_env : BlockEnv) (txs : list TxEnv).
(** The estimates the memory starts with. *)
Context (estimated : MemoryLocationHash → TxIdx → Prop).

Local Notation Sh := (Shared PevmTxExecutionResult ExecutionError).
Implicit Types (g : Sh) (hist : history).
Local Notation vm_reads := (vm_reads hash_deterministic bytecode_of evm_of).
Local Notation witnessed hist := (witnessed hash_deterministic bytecode_of (vals_of hist) code_of evm_of spec_id block_env).

(** ** The invariant *)

(** The writes of [x] but those at [todo] are stored, and its reads are recorded. *)
Record complete hist (m : MvMemory) (i : TxIdx) (k : TxIncarnation) (x : execution) (todo : WriteSet) : Prop := mkComplete {
  comp_hist : hist !! (i, k) = Some x;
  comp_reads : ∃ ll, last_locations m !! i = Some ll ∧ last_read ll = exec_reads x ∧
                 ∀ l, l ∈ last_write ll → l ∈ (exec_writes x).*1;
  comp_writes : ∀ l v, final_write (exec_writes x) l = Some v → l ∉ todo.*1 → entry m l i = Some (Data k v) }.

Definition tok_fact hist (g : Sh) (t : ptoken) : Prop :=
  match t with
  | PIdle | PAbort _ None => True
  | PAbort i (Some rem) => ∃ ll, last_locations (mem g) !! i = Some ll ∧ ∀ l, l ∈ rem → l ∈ last_write ll
  | PRun i k ms hs =>
      hist !! (i, k) = None ∧
      (∃ c, chain (vals_of hist) code_of c ms ∧ chain_end c ms ⊆ new_bytecodes (mem g)) ∧
      ∀ h, h ∈ hs → new_bytecodes (mem g) !! h = Some (code_of h)
  | PLost _ _ => is_Some (abort_reason g)
  | PRec i k x rm todo => complete hist (mem g) i k x todo ∧ ∀ l v, (l, v) ∈ todo → final_write (exec_writes x) l = Some v
  | PStored i k x | PResume i k x _ => complete hist (mem g) i k x [] ∧ execution_results g !! i = Some (Some (exec_result x))
  end.

Definition pc_hist hist (s : list TxStatus) (m : MvMemory) : Prop := ∀ i k x, hist !! (i, k) = Some x →
  (∃ tx, txs !! i = Some tx ∧ witnessed hist i tx x) ∧
  (∃ tx, s !! i = Some tx ∧ (k ≤ incarnation tx)%nat ∧ (status tx = ReadyToExecute → (k < incarnation tx)%nat)) ∧
  ∀ h c, (h, c) ∈ exec_codes x → new_bytecodes m !! h = Some (code_of h).

Definition pc_mem hist (s : list TxStatus) (m : MvMemory) (toks : list ptoken) : Prop := ∀ l i k v,
  entry m l i = Some (Data k v) →
  vals_of hist l i k = Some v ∧
  (∃ ll, last_locations m !! i = Some ll ∧ l ∈ last_write ll) ∧
  (∃ tx, s !! i = Some tx ∧ incarnation tx = k) ∧
  (executed_at s i ∨ any (powns i l) toks).

Definition pc_done hist (s : list TxStatus) (g : Sh) : Prop := ∀ i tx, s !! i = Some tx → is_executed (status tx) = true →
  ∃ x, complete hist (mem g) i (incarnation tx) x [] ∧ execution_results g !! i = Some (Some (exec_result x)).

(** An estimate is one the memory started with, or one of a written location. *)
Definition pc_est (m : MvMemory) (toks : list ptoken) : Prop := ∀ l i, entry m l i = Some Estimate →
  estimated l i ∨ (∃ ll, last_locations m !! i = Some ll ∧ l ∈ last_write ll) ∨ any (premoves i l) toks.

Record PInv hist g toks : Prop := mkPInv {
  P_runs : c_runs (transactions_status (sched g)) (gather pruns toks);
  P_stuck : c_stuck (transactions_status (sched g)) (transactions_dependents (sched g)) (gather pstuck toks);
  P_hist : pc_hist hist (transactions_status (sched g)) (mem g);
  P_codes : ∀ h y, new_bytecodes (mem g) !! h = Some y → y = code_of h;
  P_mem : pc_mem hist (transactions_status (sched g)) (mem g) toks;
  P_done : pc_done hist (transactions_status (sched g)) g;
  P_toks : every (tok_fact hist g) toks;
  P_est : pc_est (mem g) toks }.

Definition PI g toks : Prop := ∃ hist, PInv hist g toks.

Lemma PI_perm g l l' : l ≡ₚ l' → PI g l → PI g l'.
Proof.
  intros Hp [hist [[H1 H1'] [H2 H2'] H3 H4 H5 H6 H7 H8]]. exists hist. split; [| |done|done| |done|by eapply every_perm|].
  - split; [by rewrite <-(gather_perm pruns l l' Hp)|]. intros i k. rewrite <-(gather_perm pruns l l' Hp). apply H1'.
  - split; [by rewrite <-(gather_perm pstuck l l' Hp)|]. intros i. rewrite <-(gather_perm pstuck l l' Hp). apply H2'.
  - intros y i k v He. destruct (H5 y i k v He) as (? & ? & ? & [?|?]); split_and!; eauto. right. by eapply any_perm.
  - intros y i He. destruct (H8 y i He) as [?|[?|?]]; eauto. right; right. by eapply any_perm.
Qed.

(** The current memory is one an execution may read from. *)
Lemma current_ok hist g toks : PInv hist g toks → mem_ok (vals_of hist) code_of (mem g).
Proof.
  intros [_ _ Hh Hc Hm _ _ _]. split; [|intros l j k h He|done].
  - intros l j k v He. by apply (Hm l j k v He).
  - destruct (Hm l j k _ He) as (Hv & _). unfold vals_of in Hv. apply bind_Some in Hv as (x & Hx & Hw).
    destruct (Hh j k x Hx) as ((tx & _ & Hwit) & _ & Hcodes).
    destruct (witnessed_writes _ hash_inj _ _ _ storage_code _ _ _ _ _ _ Hwit) as (_ & _ & Hwr).
    eapply Hcodes, Hwr. unfold final_write in Hw. apply elem_of_list_to_map_2 in Hw. by rewrite elem_of_reverse in Hw.
Qed.

(** ** Transactions of different threads *)

Lemma every_elem {T} (P : T → Prop) (l : list T) t : every P l → t ∈ l → P t.
Proof. induction l as [|y l IH]; simpl; [by intros _ ?%not_elem_of_nil|]. intros [? ?] [->|?]%elem_of_cons; auto. Qed.
Lemma every_intro {T} (P : T → Prop) (l : list T) : (∀ t, t ∈ l → P t) → every P l.
Proof.
  induction l as [|y l IH]; simpl; intros Hl; [done|]. split; [apply Hl; by left|]. apply IH. intros t Ht. apply Hl. by right.
Qed.
Lemma any_elem {T} (P : T → Prop) (l : list T) : any P l → ∃ t, t ∈ l ∧ P t.
Proof. induction l as [|y l IH]; simpl; [done|]. intros [?|(t & ? & ?)%IH]; [exists y|exists t]; rewrite elem_of_cons; auto. Qed.
Lemma gather_elem {T A} (f : T → list A) (l : list T) t x : t ∈ l → x ∈ f t → x ∈ gather f l.
Proof.
  induction l as [|y l IH]; simpl; [by intros ?%not_elem_of_nil|]. rewrite elem_of_cons, elem_of_app. intros [->|?]; auto.
Qed.

(** The transaction of a token is being executed or aborted. *)
Lemma ptx_busy t i : ptx t = Some i → (∃ k, pruns t = [(i, k)]) ∨ ∃ rem, t = PAbort i rem.
Proof. destruct t; simpl; intros [=]; subst; eauto. Qed.

Lemma busy hist g toks t i :
  PInv hist g toks → t ∈ toks → ptx t = Some i →
  ∃ tx, transactions_status (sched g) !! i = Some tx ∧ (status tx = Executing ∨ status tx = Aborting).
Proof.
  intros Hinv Ht [[k Hk]|[rem ->]]%ptx_busy.
  - destruct (P_runs _ _ _ Hinv) as [_ Hr]. eexists. split; [apply Hr; eapply gather_elem; [done|rewrite Hk; by left]|by left].
  - destruct (P_stuck _ _ _ Hinv) as [_ Hs]. destruct (proj1 (Hs i)) as [k Hk]; [|eexists; split; [done|by right]].
    apply elem_of_app. right. eapply gather_elem; [done|]. by left.
Qed.

Lemma busy_not_executed hist g toks t i :
  PInv hist g toks → t ∈ toks → ptx t = Some i → ¬ executed_at (transactions_status (sched g)) i.
Proof.
  intros Hinv Ht Hi (tx & Htx & Hex). destruct (busy _ _ _ _ _ Hinv Ht Hi) as (tx' & Htx' & Hst). simplify_eq.
  destruct Hst as [Hst|Hst]; by rewrite Hst in Hex.
Qed.

(** No two threads work on the same transaction. *)
Lemma sole hist g t rest i t' :
  PInv hist g (t :: rest) → ptx t = Some i → t' ∈ rest → ptx t' ≠ Some i.
Proof.
  intros Hinv Ht Hin Ht'. destruct (P_runs _ _ _ Hinv) as [Hnd Hr], (P_stuck _ _ _ Hinv) as [Hnd' Hs]. simpl in *.
  apply ptx_busy in Ht as [[k Hk]|[rem ->]]; apply ptx_busy in Ht' as [[k' Hk']|[rem' ->]].
  - rewrite Hk in Hnd. simpl in Hnd. apply NoDup_cons in Hnd as [Hni _]. destruct Hni.
    apply (list_elem_of_fmap_2 fst _ (i, k')). eapply gather_elem; [done|]. rewrite Hk'. by left.
  - assert (H1 : transactions_status (sched g) !! i = Some (mkTxStatus k Executing)) by (apply Hr; rewrite Hk; by left).
    destruct (proj1 (Hs i)) as [k2 H2]; [|congruence]. apply elem_of_app; right. apply elem_of_app; right.
    eapply gather_elem; [done|]. by left.
  - assert (H1 : transactions_status (sched g) !! i = Some (mkTxStatus k' Executing)).
    { apply Hr. simpl. eapply gather_elem; [done|]. rewrite Hk'. by left. }
    destruct (proj1 (Hs i)) as [k2 H2]; [|congruence]. apply elem_of_app; right. by left.
  - apply NoDup_app in Hnd' as (_ & _ & Hnd'). simpl in Hnd'. apply NoDup_cons in Hnd' as [Hni _]. destruct Hni.
    eapply gather_elem; [done|]. by left.
Qed.

(** A transaction in execution has no data before it is recorded. *)
Lemma running_no_data hist g i k ms hs rest l k' v :
  PInv hist g (PRun i k ms hs :: rest) → entry (mem g) l i ≠ Some (Data k' v).
Proof.
  intros Hinv He. destruct (P_mem _ _ _ Hinv l i k' v He) as (_ & _ & _ & [Hex|Hown]).
  - by eapply (busy_not_executed _ _ _ (PRun i k ms hs)); [..|done|]; [|by left|].
  - simpl in Hown. destruct Hown as [[]|(t & Ht & Hown%powns_tx)%any_elem]. by eapply sole in Ht.
Qed.

(** ** Frames *)

(** What is known about a transaction stays the same. *)
Record same_tx hist g hist' g' (j : TxIdx) : Prop := mkSameTx {
  same_hist : ∀ k, hist' !! (j, k) = hist !! (j, k);
  same_entries : ∀ l, entry (mem g') l j = entry (mem g) l j;
  same_last : last_locations (mem g') !! j = last_locations (mem g) !! j;
  same_result : execution_results g' !! j = execution_results g !! j }.

Lemma complete_same hist g hist' g' i k x todo :
  same_tx hist g hist' g' i → complete hist (mem g) i k x todo → complete hist' (mem g') i k x todo.
Proof.
  intros [H1 H2 H3 _] [D1 D2 D3]. split; [by rewrite H1|by rewrite H3|]. intros l v Hl Hn. rewrite H2. by apply D3.
Qed.

(** What never shrinks. *)
Record grows hist g hist' g' : Prop := mkGrows {
  grow_hist : hist ⊆ hist';
  grow_codes : new_bytecodes (mem g) ⊆ new_bytecodes (mem g');
  grow_abort : is_Some (abort_reason g) → is_Some (abort_reason g') }.

Lemma tok_fact_same hist g hist' g' t :
  grows hist g hist' g' → (∀ i, ptx t = Some i → same_tx hist g hist' g' i) → tok_fact hist g t → tok_fact hist' g' t.
Proof.
  intros [Hh Hc Ha] Hs. destruct t as [|i k ms hs|i k|i k x todo|i k x|i k x drain|i rem]; simpl in *; try done.
  - intros (H1 & (c & H2 & H3) & H4). destruct (Hs i eq_refl) as [S1 _ _ _]. rewrite S1. split_and!; [done| |].
    + exists c. split; [by eapply chain_mono, H2; apply vals_of_mono|by etransitivity].
    + intros h Hin. eapply lookup_weaken; [by apply H4|done].
  - intros [H1 H2]. split; [|done]. eapply complete_same; [|done]. by apply Hs.
  - intros [H1 H2]. destruct (Hs i eq_refl) as [_ _ _ S4]. rewrite S4. split; [|done]. eapply complete_same; [|done]. by apply Hs.
  - intros [H1 H2]. destruct (Hs i eq_refl) as [_ _ _ S4]. rewrite S4. split; [|done]. eapply complete_same; [|done]. by apply Hs.
  - destruct rem as [rem|]; [|done]. destruct (Hs i eq_refl) as [_ _ S3 _]. by rewrite S3.
Qed.

(** A step of the thread of transaction [i] that leaves the scheduler alone. *)
Lemma frame hist g hist' g' t t' rest i :
  PInv hist g (t :: rest) → ptx t = Some i → pruns t' = pruns t → pstuck t' = pstuck t →
  transactions_status (sched g') = transactions_status (sched g) →
  transactions_dependents (sched g') = transactions_dependents (sched g) →
  grows hist g hist' g' → (∀ j, j ≠ i → same_tx hist g hist' g' j) →
  (∀ k x, hist' !! (i, k) = Some x → hist !! (i, k) = Some x ∨
     (∃ tx, txs !! i = Some tx ∧ witnessed hist i tx x) ∧
     (∃ tx, transactions_status (sched g) !! i = Some tx ∧ (k ≤ incarnation tx)%nat ∧ status tx ≠ ReadyToExecute) ∧
     ∀ h c, (h, c) ∈ exec_codes x → new_bytecodes (mem g) !! h = Some (code_of h)) →
  (∀ h y, new_bytecodes (mem g') !! h = Some y → y = code_of h) →
  (∀ l k v, entry (mem g') l i = Some (Data k v) →
     vals_of hist' l i k = Some v ∧ (∃ ll, last_locations (mem g') !! i = Some ll ∧ l ∈ last_write ll) ∧
     (∃ tx, transactions_status (sched g) !! i = Some tx ∧ incarnation tx = k) ∧ powns i l t') →
  (∀ l, entry (mem g') l i = Some Estimate →
     estimated l i ∨ (∃ ll, last_locations (mem g') !! i = Some ll ∧ l ∈ last_write ll) ∨ premoves i l t') →
  tok_fact hist' g' t' → PInv hist' g' (t' :: rest).
Proof.
  intros Hinv Ht Hpr Hps Hst Hdeps Hgrow Hsame Hown Hcodes Hdata Hest Hfact.
  assert (Hni : ∀ j, executed_at (transactions_status (sched g)) j → j ≠ i).
  { intros j Hj ->. eapply busy_not_executed in Hj; [done|done| |exact Ht]. by left. }
  pose proof Hinv as [H1 H2 H3 H4 H5 H6 H7 H8]. split; simpl in *; rewrite ?Hst, ?Hdeps, ?Hpr, ?Hps; [done|done| |done| | | |].
  - intros j k x Hx. destruct (decide (j = i)) as [->|Hne].
    + destruct (Hown k x Hx) as [Hold|((tx & Htx & Hw) & (s & Hs & Hk & Hr) & Hc)].
      * destruct (H3 i k x Hold) as ((tx & Htx & Hw) & Hs & Hc). split_and!; [|done|].
        -- exists tx. split; [done|]. by eapply witnessed_mono, Hw; apply vals_of_mono, (grow_hist _ _ _ _ Hgrow).
        -- intros h c Hin. eapply lookup_weaken; [by eapply Hc|apply (grow_codes _ _ _ _ Hgrow)].
      * split_and!; [|naive_solver|].
        -- exists tx. split; [done|]. by eapply witnessed_mono, Hw; apply vals_of_mono, (grow_hist _ _ _ _ Hgrow).
        -- intros h c Hin. eapply lookup_weaken; [by eapply Hc|apply (grow_codes _ _ _ _ Hgrow)].
    + rewrite (same_hist _ _ _ _ _ (Hsame j Hne)) in Hx. destruct (H3 j k x Hx) as ((tx & Htx & Hw) & Hs & Hc).
      split_and!; [|done|].
      * exists tx. split; [done|]. by eapply witnessed_mono, Hw; apply vals_of_mono, (grow_hist _ _ _ _ Hgrow).
      * intros h c Hin. eapply lookup_weaken; [by eapply Hc|apply (grow_codes _ _ _ _ Hgrow)].
  - intros l j k v He. destruct (decide (j = i)) as [->|Hne].
    + destruct (Hdata l k v He) as (? & ? & ? & ?). split_and!; [done..|]. right. by left.
    + rewrite (same_entries _ _ _ _ _ (Hsame j Hne)) in He. destruct (H5 l j k v He) as (Hv & Hl & Hs & Ho).
      rewrite (same_last _ _ _ _ _ (Hsame j Hne)). split_and!; [by eapply vals_of_mono; [apply (grow_hist _ _ _ _ Hgrow)|]|done|done|].
      destruct Ho as [?|[Ho|?]]; [by left| |by right; right]. apply powns_tx in Ho. congruence.
  - intros j tx Htx Hex. destruct (H6 j tx Htx Hex) as (x & Hc & Hr).
    assert (Hne : j ≠ i) by (apply Hni; by exists tx). exists x. split; [by eapply complete_same; [apply Hsame|]|].
    by rewrite (same_result _ _ _ _ _ (Hsame j Hne)).
  - destruct H7 as [_ H7]. split; [done|]. apply every_intro. intros t'' Hin.
    eapply tok_fact_same; [done| |by eapply every_elem]. intros j Hj. apply Hsame. intros ->.
    by eapply sole, Hj; [exact Hinv|exact Ht|].
  - intros l j He. destruct (decide (j = i)) as [->|Hne].
    + destruct (Hest l He) as [?|[?|?]]; [by left|by right; left|right; right; by left].
    + rewrite (same_entries _ _ _ _ _ (Hsame j Hne)) in He. rewrite (same_last _ _ _ _ _ (Hsame j Hne)).
      destruct (H8 l j He) as [?|[?|[Hp|?]]]; [by left|by right; left| |by right; right; right].
      apply premoves_tx in Hp. congruence.
Qed.

(** A change of the status of transaction [i]. *)
Lemma restatus hist g s' t t' rest i tx tx' :
  PInv hist g (t :: rest) → transactions_status (sched g) !! i = Some tx →
  transactions_status s' = <[i := tx']> (transactions_status (sched g)) →
  c_runs (transactions_status s') (gather pruns (t' :: rest)) →
  c_stuck (transactions_status s') (transactions_dependents s') (gather pstuck (t' :: rest)) →
  (incarnation tx' = incarnation tx ∧ status tx' ≠ ReadyToExecute ∨ incarnation tx' = S (incarnation tx)) →
  (∀ l k v, entry (mem g) l i = Some (Data k v) →
     incarnation tx' = incarnation tx ∧ (is_executed (status tx') = true ∨ powns i l t')) →
  (∀ l j, j ≠ i → powns j l t → powns j l t') →
  (is_executed (status tx') = true → ∃ x, complete hist (mem g) i (incarnation tx') x [] ∧
     execution_results g !! i = Some (Some (exec_result x))) →
  (∀ l j, ¬ premoves j l t) → tok_fact hist g t' → PInv hist (with_sched g s') (t' :: rest).
Proof.
  intros [H1 H2 H3 H4 H5 H6 H7 H8] Hi Hst Hruns Hstuck Hinc Hdata Hown Hdone Hrm Hfact.
  split; simpl in *; [done|done| |done| | | |].
  - intros j k x Hx. destruct (H3 j k x Hx) as (Hw & (s & Hs & Hk & Hr) & Hc). split_and!; [done| |done].
    rewrite Hst, (lookup_set Hi). destruct (decide (i = j)) as [<-|]; [|by exists s]. simplify_eq.
    exists tx'. split; [done|]. destruct Hinc as [[-> ?]| ->]; [|split; lia]. split; [lia|done].
  - intros l j k v He. destruct (H5 l j k v He) as (Hv & Hl & (s & Hs & Hk) & Ho). split_and!; [done..| |].
    + rewrite Hst, (lookup_set Hi). destruct (decide (i = j)) as [<-|]; [|by exists s]. simplify_eq.
      exists tx'. split; [done|]. by apply (Hdata l (incarnation tx) v).
    + rewrite Hst, (executed_at_set Hi). destruct (decide (i = j)) as [<-|Hne].
      * destruct (Hdata l k v He) as [_ [?|?]]; [by left|right; by left].
      * destruct Ho as [?|[?|?]]; [by left|right; left; by apply Hown|by right; right].
  - intros j s. rewrite Hst, (lookup_set Hi). destruct (decide (i = j)) as [<-|]; [intros [= <-]; apply Hdone|apply H6].
  - destruct H7 as [_ H7]. split; [exact Hfact|]. apply every_intro. intros t'' Hin.
    eapply tok_fact_same; [by split|intros j _; by split|by eapply every_elem].
  - intros l j He. destruct (H8 l j He) as [?|[?|[Hp|?]]]; [by left|by right; left|by destruct (Hrm l j)|by right; right; right].
Qed.

Lemma own_estimate hist g t rest i l :
  PInv hist g (t :: rest) → ptx t = Some i → entry (mem g) l i = Some Estimate →
  estimated l i ∨ (∃ ll, last_locations (mem g) !! i = Some ll ∧ l ∈ last_write ll) ∨ premoves i l t.
Proof.
  intros Hinv Ht He. destruct (P_est _ _ _ Hinv l i He) as [?|[?|[?|Hp]]]; [by left|by right; left|by right; right|].
  apply any_elem in Hp as (t' & Hin & Hp%premoves_tx). by eapply (sole _ _ _ _ i t' Hinv) in Hp.
Qed.

(** ** Actions *)

Local Notation safe := (safe True PI).

Lemma act_sched_p {A} (f : Scheduler → effect Scheduler A) Q tok :
  (∀ hist g rest s r, PInv hist g (tok :: rest) → f (sched g) = Step s r →
     ∃ tok', PInv hist (with_sched g s) (tok' :: rest) ∧ Q r tok') →
  safe (on_sched (act f)) Q tok.
Proof.
  intros Hf g rest [hist Hinv]. simpl. destruct (f (sched g)) as [s r| |] eqn:Hs; [|done|done].
  destruct (Hf hist g rest s r Hinv Hs) as (tok' & ? & ?). exists tok'. split; [by exists hist|done].
Qed.

Lemma act_mem_p {A} (f : MvMemory → effect MvMemory A) Q tok :
  (∀ hist g rest m r, PInv hist g (tok :: rest) → f (mem g) = Step m r →
     ∃ hist' tok', PInv hist' (with_mem g m) (tok' :: rest) ∧ Q r tok') →
  safe (on_mem (act f)) Q tok.
Proof.
  intros Hf g rest [hist Hinv]. simpl. destruct (f (mem g)) as [m r| |] eqn:Hs; [|done|done].
  destruct (Hf hist g rest m r Hinv Hs) as (hist' & tok' & ? & ?). exists tok'. split; [by exists hist'|done].
Qed.

(** A step that touches nothing the invariant speaks of. *)
Lemma quiet_inv hist g s toks :
  PInv hist g toks → transactions_status s = transactions_status (sched g) →
  transactions_dependents s = transactions_dependents (sched g) → PInv hist (with_sched g s) toks.
Proof.
  intros [H1 H2 H3 H4 H5 H6 H7 H8] Hst Hd. split; simpl; rewrite ?Hst, ?Hd; try done.
Qed.

Lemma quiet {A} (f : Scheduler → effect Scheduler A) (Q : A → ptoken → Prop) tok :
  (∀ s s' r, f s = Step s' r → transactions_status s' = transactions_status s ∧
     transactions_dependents s' = transactions_dependents s) →
  (∀ r, Q r tok) → safe (on_sched (act f)) Q tok.
Proof.
  intros Hf HQ. apply act_sched_p. intros hist g rest s r Hinv Hs. destruct (Hf _ _ _ Hs).
  exists tok. split; [by apply quiet_inv|done].
Qed.

Lemma locked_step {A} i (f : TxStatus → Scheduler → effect Scheduler A) s s' r :
  locked_status i f s = Step s' r → ∃ tx, transactions_status s !! i = Some tx ∧ f tx s = Step s' r.
Proof.
  unfold locked_status. destruct (transactions_status s !! i) as [tx|]; [|done].
  destruct (status_lock s !! i) as [[]|]; [done| |done]. eauto.
Qed.

Lemma locked_p {A} i (f : TxStatus → Scheduler → effect Scheduler A) Q tok :
  (∀ hist g rest s r tx, PInv hist g (tok :: rest) → transactions_status (sched g) !! i = Some tx →
     f tx (sched g) = Step s r → ∃ tok', PInv hist (with_sched g s) (tok' :: rest) ∧ Q r tok') →
  safe (on_sched (act (locked_status i f))) Q tok.
Proof. intros Hf. apply act_sched_p. intros hist g rest s r Hinv (tx & Htx & Hs)%locked_step. by eapply Hf. Qed.

Lemma sched_id hist g toks : PInv hist g toks → PInv hist (with_sched g (sched g)) toks.
Proof. intros Hinv. by apply quiet_inv. Qed.

(** *** Starting and blocking *)

Definition task_tok (t : Task) (tok : ptoken) : Prop :=
  match t with
  | Execution v => ∃ ms hs, tok = PRun (tx_idx v) (tx_incarnation v) ms hs
  | Validation _ => tok = PIdle
  end.

Lemma start_p hist g rest i k :
  PInv hist g (PIdle :: rest) → transactions_status (sched g) !! i = Some (mkTxStatus k ReadyToExecute) →
  PInv hist (with_sched g (with_status (sched g) i (mkTxStatus k Executing))) (PRun i k [] [] :: rest).
Proof.
  intros Hinv Hi. eapply (restatus hist g _ PIdle); [done|exact Hi|done|..].
  - simpl. eapply (runs_start Hi); [apply (P_runs _ _ _ Hinv)|done|done].
  - simpl. eapply (stuck_other Hi); [apply (P_stuck _ _ _ Hinv)|done|done].
  - left. done.
  - intros l k' v He. exfalso. destruct (P_mem _ _ _ Hinv l i k' v He) as (_ & _ & _ & [(tx & Htx & Hex)|[[]|Ho]]).
    + by simplify_eq.
    + apply any_elem in Ho as (t & Hin & Ho%powns_tx). destruct (busy _ _ _ t i Hinv) as (tx & Htx & Hst); [by right|done|].
      simplify_eq. by destruct Hst.
  - done.
  - done.
  - by intros l j [].
  - simpl. split_and!; [|exists (new_bytecodes (mem g)); split; [done|done]|by intros h ?%not_elem_of_nil].
    destruct (hist !! (i, k)) as [x|] eqn:Hx; [|done]. destruct (P_hist _ _ _ Hinv i k x Hx) as (_ & (tx & Htx & _ & Hr) & _).
    simplify_eq. specialize (Hr eq_refl). simpl in Hr. lia.
Qed.

Lemma try_execute_p n i :
  safe (on_sched (try_execute n i))
    (λ o tok, match o with Some v => task_tok (Execution v) tok | None => tok = PIdle end) PIdle.
Proof.
  unfold try_execute. case_bool_decide; [|done]. apply locked_p. intros hist g rest s r [k s0] Hinv Hi.
  destruct s0; simpl; intros [= <- <-]; try (exists PIdle; split; [by apply sched_id|done]).
  exists (PRun i k [] []). split; [by apply start_p|]. by exists [], [].
Qed.

Lemma validation_section_p i :
  safe (on_sched (act (validation_section i)))
    (λ o tok, match o with Some (Some t) => task_tok t tok | _ => tok = PIdle end) PIdle.
Proof.
  apply locked_p. intros hist g rest s r [k s0] Hinv Hi.
  destruct s0; simpl; intros [= <- <-]; try (exists PIdle; split; [by apply sched_id|done]).
  exists (PRun i k [] []). split; [by apply start_p|]. by exists [], [].
Qed.

Ltac sbind H := apply safe_focus_bind; eapply safe_mono; [|eapply H]; cbn beta.
Ltac quiet_step := apply safe_focus_bind, quiet; [by intros ? ? ? [= <- <-]|].

Lemma next_task_p n :
  safe (on_sched (next_task_iteration n))
    (λ r tok, match r with NextTask t => task_tok t tok | _ => tok = PIdle end) PIdle.
Proof.
  unfold next_task_iteration. quiet_step. intros ab. destruct ab; [done|].
  quiet_step. intros e. quiet_step. intros v. destruct (bool_decide _ && bool_decide _).
  - quiet_step. intros num. quiet_step. intros m. by destruct (bool_decide _).
  - assert (Hexec : safe (on_sched (i <- fetch_add_execution;; o <- try_execute n i;;
        Ret (match o with Some v => NextTask (Execution v) | None => NextContinue end)))
        (λ r tok, match r with NextTask t => task_tok t tok | _ => tok = PIdle end) PIdle).
    { quiet_step. intros i. sbind try_execute_p. intros [o|] tok Ho; exact Ho. }
    case_bool_decide; [|exact Hexec]. apply safe_focus_bind. quiet_step. intros i. case_bool_decide; [|exact Hexec].
    eapply safe_mono; [|apply validation_section_p]. by intros [[t|]|] tok Ht; [exact Ht|exact Ht|subst; exact Hexec].
Qed.

Lemma add_dependency_p i k ms hs blocking :
  safe (on_sched (add_dependency i blocking))
    (λ added tok, if added : bool then tok = PIdle else tok = PRun i k ms hs) (PRun i k ms hs).
Proof.
  apply locked_p. intros hist g rest s r btx Hinv Hb. destruct (is_executed (status btx)).
  { intros [= <- <-]. exists (PRun i k ms hs). split; [by apply sched_id|done]. }
  intros (tx & Htx & Hs)%locked_step. destruct (status tx) eqn:Hst; try done.
  destruct (transactions_dependents (sched g) !! blocking) as [ds|] eqn:Hds; [|done]. injection Hs as <- <-.
  exists PIdle. split; [|done]. eapply (restatus hist g _ (PRun i k ms hs)); [done|exact Htx|done|..].
  - simpl. eapply (runs_stop Htx); [apply (P_runs _ _ _ Hinv)|done].
  - simpl. eapply stuck_push; [|done]. eapply (stuck_abort Htx); [apply (P_stuck _ _ _ Hinv)|by rewrite Hst|done].
  - by left.
  - intros l k' v He. by destruct (running_no_data _ _ _ _ _ _ _ _ _ _ Hinv He).
  - done.
  - done.
  - by intros l j [].
  - done.
Qed.

(** *** The end of an execution *)

Lemma runs_at hist g t rest i k :
  PInv hist g (t :: rest) → pruns t = [(i, k)] → transactions_status (sched g) !! i = Some (mkTxStatus k Executing).
Proof. intros Hinv Ht. destruct (P_runs _ _ _ Hinv) as [_ Hr]. apply Hr. simpl. rewrite Ht. by left. Qed.
Lemma stuck_at hist g t rest d :
  PInv hist g (t :: rest) → d ∈ pstuck t → ∃ k, transactions_status (sched g) !! d = Some (mkTxStatus k Aborting).
Proof. intros Hinv Hd. apply (P_stuck _ _ _ Hinv). simpl. rewrite !elem_of_app. tauto. Qed.

(** A change of the token without an action of its own. *)
Lemma retoken hist g t t' rest :
  PInv hist g (t :: rest) → pruns t' = pruns t → pstuck t' = pstuck t →
  (∀ l i, powns i l t → powns i l t') → (∀ l i, ¬ premoves i l t) → tok_fact hist g t' → PInv hist g (t' :: rest).
Proof.
  intros [H1 H2 H3 H4 H5 H6 H7 H8] Hr Hs Ho Hrm Hf. split; simpl in *; rewrite ?Hr, ?Hs; [done..| |done| |].
  - intros l i k v He. destruct (H5 l i k v He) as (? & ? & ? & [?|[?|?]]); split_and!; try done; [by left|right; left; auto|by right; right].
  - by destruct H7.
  - intros l i He. destruct (H8 l i He) as [?|[?|[Hp|?]]]; [by left|by right; left|by destruct (Hrm l i)|by right; right; right].
Qed.

Lemma take_dependents_p i k x :
  safe (on_sched (act (take_dependents i))) (λ l tok, tok = PResume i k x l) (PStored i k x).
Proof.
  apply act_sched_p. intros hist g rest s r Hinv. unfold take_dependents.
  destruct (transactions_dependents (sched g) !! i) as [l|] eqn:Hd; [|done]. intros [= <- <-].
  exists (PResume i k x l). split; [|done]. destruct Hinv as [H1 H2 H3 H4 H5 H6 H7 H8]. split; simpl in *; try done.
  by eapply stuck_take.
Qed.

(** A blocked transaction is not owned by anybody but the thread that wakes it. *)
Lemma stuck_no_data hist g t rest d l k v :
  PInv hist g (t :: rest) → d ∈ pstuck t → (∀ l, ¬ powns d l t) → entry (mem g) l d ≠ Some (Data k v).
Proof.
  intros Hinv Hd Hno He. destruct (stuck_at _ _ _ _ _ Hinv Hd) as [k' Hk'].
  destruct (P_mem _ _ _ Hinv l d k v He) as (_ & _ & _ & [(tx & Htx & Hex)|[Ho|Ho]]); [by simplify_eq|by destruct (Hno l)|].
  apply any_elem in Ho as (t' & Hin & Ho). pose proof (powns_tx _ _ _ Ho) as Htx.
  apply ptx_busy in Htx as [[k2 Hk2]|[rem ->]].
  - destruct (P_runs _ _ _ Hinv) as [_ Hr].
    assert (transactions_status (sched g) !! d = Some (mkTxStatus k2 Executing)) by
      (apply Hr; eapply gather_elem; [right; exact Hin|rewrite Hk2; by left]). congruence.
  - destruct (P_stuck _ _ _ Hinv) as [Hnd _]. apply NoDup_app in Hnd as (_ & _ & Hnd). simpl in Hnd.
    apply NoDup_app in Hnd as (_ & Hdis & _). apply (Hdis d Hd). eapply gather_elem; [done|]. by left.
Qed.

Lemma set_ready_p t t' d :
  (t = PAbort d (Some []) ∧ t' = PIdle) ∨ (∃ i k x l, t = PResume i k x (d :: l) ∧ t' = PResume i k x l) →
  safe (on_sched (set_ready_status d)) (λ _ tok, tok = t') t.
Proof.
  intros Ht. apply locked_p. intros hist g rest s r [k st0] Hinv Hd. destruct st0; try done. intros [= <- <-].
  exists t'. split; [|done]. pose proof (P_runs _ _ _ Hinv) as Hruns. pose proof (P_stuck _ _ _ Hinv) as Hstuck.
  assert (Hst : d ∈ pstuck t) by (destruct Ht as [[-> ->]|(i & k1 & x & l & -> & ->)]; by left).
  eapply (restatus hist g _ t); [done|exact Hd|done|..].
  - eapply (runs_other Hd); [|done|done]. by destruct Ht as [[-> ->]|(i & k1 & x & l & -> & ->)].
  - eapply (stuck_ready Hd); [|done]. by destruct Ht as [[-> ->]|(i & k1 & x & l & -> & ->)].
  - by right.
  - intros y k' v He. exfalso. eapply stuck_no_data; [done|exact Hst| |exact He]. intros y'.
    destruct Ht as [[-> _]|(i & k1 & x & l & -> & _)]; simpl; [by intros [_ ?%not_elem_of_nil]|].
    intros <-. assert (Hi : transactions_status (sched g) !! d = Some (mkTxStatus k1 Executing)) by (by eapply runs_at). congruence.
  - intros y j Hne. destruct Ht as [[-> _]|(i & k1 & x & l & -> & ->)]; simpl; [naive_solver|done].
  - done.
  - intros y j. destruct Ht as [[-> _]|(i & k1 & x & l & -> & _)]; by intros [].
  - destruct (P_toks _ _ _ Hinv) as [Hf _]. by destruct Ht as [[-> ->]|(i & k1 & x & l & -> & ->)].
Qed.

Lemma resume_p i k x l :
  safe (on_sched (resume_dependents l)) (λ _ tok, tok = PResume i k x []) (PResume i k x l).
Proof.
  induction l as [|d l IH]; [done|].
  sbind (set_ready_p (PResume i k x (d :: l)) (PResume i k x l) d); [|right; eauto 10].
  intros _ tok ->. quiet_step. intros _. exact IH.
Qed.

Lemma write_status_p i k x :
  safe (on_sched (write_status i Executed false true)) (λ _ tok, tok = PIdle) (PResume i k x []).
Proof.
  apply act_sched_p. intros hist g rest s r Hinv. unfold write_status_section.
  pose proof (runs_at _ _ _ _ _ _ Hinv eq_refl) as Hi. rewrite Hi. intros [= <- <-]. exists PIdle. split; [|done].
  destruct (P_toks _ _ _ Hinv) as [[Hc Hr] _].
  eapply (restatus hist g _ (PResume i k x [])); [done|exact Hi|done|..].
  - simpl. eapply (runs_stop Hi); [apply (P_runs _ _ _ Hinv)|done].
  - simpl. eapply (stuck_other Hi); [apply (P_stuck _ _ _ Hinv)|done|done].
  - by left.
  - intros l k' v _. split; [done|by left].
  - intros l j Hne ->. done.
  - intros _. by exists x.
  - by intros l j [].
  - done.
Qed.

Lemma finish_execution_p n v flags x :
  safe (on_sched (finish_execution n v flags)) (λ o tok, tok = PIdle ∧ match o with Some (Execution _) => False | _ => True end)
    (PStored (tx_idx v) (tx_incarnation v) x).
Proof.
  unfold finish_execution, schedule_validation. rewrite always_needs_validation.
  apply safe_focus_bind, quiet.
  { intros s s' r (tx & _ & Hs)%locked_step. destruct (bool_decide _ && bool_decide _); [by injection Hs as <- <-|done]. }
  intros _. sbind take_dependents_p. intros dependents tok ->. sbind resume_p. intros _ tok ->.
  apply safe_focus_bind. quiet_step. intros old. cbn [focus safe].
  assert (Hwrite : ∀ o : option Task, match o with Some (Execution _) => False | _ => True end →
    safe (on_sched (write_status (tx_idx v) Executed false true;; Ret o))
      (λ o tok, tok = PIdle ∧ match o with Some (Execution _) => False | _ => True end)
      (PResume (tx_idx v) (tx_incarnation v) x [])).
  { intros o Ho. sbind write_status_p. intros _ tok ->. by split. }
  case_bool_decide; [|by apply Hwrite]. case_bool_decide.
  - destruct (flags_contains flags WroteNewLocation); [|by apply Hwrite].
    apply safe_focus_bind. quiet_step. intros _. by apply Hwrite.
  - apply safe_focus_bind. quiet_step. intros val. case_bool_decide; [|by apply Hwrite].
    apply safe_focus_bind. apply safe_mono with (Q := λ _ tok, tok = PResume (tx_idx v) (tx_incarnation v) x []).
    2:{ destruct (flags_contains flags WroteNewLocation); [|done]. apply quiet; [by intros ? ? ? [= <- <-]|done]. }
    intros _ tok ->. sbind write_status_p. intros _ tok ->. by split.
Qed.

(** *** Validation *)

Lemma try_validation_abort_p v :
  safe (on_sched (try_validation_abort v)) (λ ab tok, tok = if ab : bool then PAbort (tx_idx v) None else PIdle) PIdle.
Proof.
  apply locked_p. intros hist g rest s r tx Hinv Hi. destruct (is_executed (status tx)) eqn:Hex.
  2:{ intros [= <- <-]. exists PIdle. split; [|done]. destruct (bool_decide _); by apply quiet_inv. }
  intros [= <- <-]. exists (PAbort (tx_idx v) None). split; [|done].
  set (s1 := if bool_decide _ then _ else _).
  assert (Hs1 : transactions_status s1 = transactions_status (sched g) ∧ transactions_dependents s1 = transactions_dependents (sched g))
    by (unfold s1; by destruct (bool_decide _)). destruct Hs1 as [Hs1 Hd1].
  eapply (restatus hist g _ PIdle); [done|exact Hi|simpl; by rewrite Hs1|..].
  - simpl. rewrite Hs1. eapply (runs_other Hi); [apply (P_runs _ _ _ Hinv)|by destruct (status tx)|done].
  - simpl. rewrite Hs1, Hd1. eapply (stuck_abort Hi); [apply (P_stuck _ _ _ Hinv)|by destruct (status tx)|done].
  - by left.
  - intros l k v' _. split; [done|by right].
  - done.
  - done.
  - by intros l j [].
  - done.
Qed.

Lemma mark_validated_p i : safe (on_sched (act (mark_validated_section i))) (λ _ tok, tok = PIdle) PIdle.
Proof.
  apply locked_p. intros hist g rest s r tx Hinv Hi.
  destruct (status tx) eqn:Hst; intros [= <- <-]; exists PIdle; (split; [|done]); try by apply sched_id.
  eapply (restatus hist g _ PIdle); [done|exact Hi|done|..].
  - simpl. eapply (runs_other Hi); [apply (P_runs _ _ _ Hinv)|by rewrite Hst|done].
  - simpl. eapply (stuck_other Hi); [apply (P_stuck _ _ _ Hinv)|by rewrite Hst|done].
  - by left.
  - intros l k v _. split; [done|by left].
  - done.
  - intros _. apply (P_done _ _ _ Hinv i tx Hi). by rewrite Hst.
  - by intros l j [].
  - done.
Qed.

Lemma finish_validation_p n v (ab : bool) tok :
  tok = (if ab then PAbort (tx_idx v) (Some []) else PIdle) →
  safe (on_sched (finish_validation n v ab)) (λ o tok, match o with Some t => task_tok t tok | None => tok = PIdle end) tok.
Proof.
  intros ->. destruct ab; unfold finish_validation; cbv zeta; cbv match.
  - sbind (set_ready_p (PAbort (tx_idx v) (Some [])) PIdle); [|by left]. intros _ tok ->. quiet_step. intros _. quiet_step.
    intros e. case_bool_decide; [|done]. sbind try_execute_p. intros [o|] tok Ho; exact Ho.
  - sbind mark_validated_p. by intros _ tok ->.
Qed.

(** *** Reads and bytecodes *)

(** What the thread of [i] has gathered when its execution succeeds. *)
Definition gathered (i : TxIdx) (x : execution) (ms : list MvMemory) (hs : list N) : Prop := ∃ tx pre ms' r,
  txs !! i = Some tx ∧ ms = pre ++ ms' ∧ serve (vm_reads i tx) ms' = Some (RDone r) ∧
  execution_of hash_deterministic spec_id block_env tx r = Some x ∧ ∀ h c, (h, c) ∈ exec_codes x → h ∈ hs.

Lemma load_mem_p {A} (f : MvMemory → A) (Q : A → ptoken → Prop) tok :
  (∀ m, Q (f m) tok) → safe (on_mem (act (λ m, Step m (f m)))) Q tok.
Proof. intros HQ g rest Hinv. simpl. exists tok. split; [|apply HQ]. by destruct g. Qed.

Lemma reading_p i k tx hs (p : reader MvMemory _) : ∀ pre ms,
  serve (vm_reads i tx) ms = Some p →
  safe (on_mem (reading p)) (λ r tok, ∃ pre ms, tok = PRun i k (pre ++ ms) hs ∧ serve (vm_reads i tx) ms = Some (RDone r))
    (PRun i k (pre ++ ms) hs).
Proof.
  induction p as [r|f IH]; intros pre ms Hs; [by exists pre, ms|].
  intros g rest [hist Hinv]. simpl. exists (PRun i k (pre ++ (ms ++ [mem g])) hs). split.
  - exists hist. assert (Hg : with_mem g (mem g) = g) by (by destruct g). rewrite Hg.
    pose proof (current_ok _ _ _ Hinv) as Hok. destruct (P_toks _ _ _ Hinv) as [(H1 & (c & H2 & H3) & H4) _].
    eapply retoken; [done..|intros ? ? []|]. split_and!; [done| |done]. exists c. rewrite app_assoc. split; [by apply chain_app|].
    unfold chain_end. by rewrite last_snoc.
  - apply IH. by apply serve_snoc.
Qed.

Lemma deploy_one_p i k tx pre ms db r hs h code :
  serve (vm_reads i tx) ms = Some (RDone (inr (db, inr r))) → (h, code) ∈ deployments hash_deterministic db r →
  safe (on_mem (act (deploy_one h code))) (λ _ tok, tok = PRun i k (pre ++ ms) (h :: hs)) (PRun i k (pre ++ ms) hs).
Proof.
  intros Hs Hin. apply act_mem_p. intros hist g rest m [] Hinv Hd. exists hist, (PRun i k (pre ++ ms) (h :: hs)). split; [|done].
  destruct (P_toks _ _ _ Hinv) as [(H1 & (c & H2 & H3) & H4) _]. apply chain_app in H2 as H2'. destruct H2' as [_ H2'].
  destruct (served_state _ hash_inj _ _ _ storage_code evm_of spec_id i tx _ ms db r H2' Hs) as [_ Hcodes].
  pose proof (Hcodes h code Hin) as ->. unfold deploy_one in Hd.
  destruct (new_bytecodes (mem g) !! h) as [y|] eqn:Hh; injection Hd as <-.
  - rewrite (P_codes _ _ _ Hinv h y Hh) in Hh. assert (Hg : with_mem g (mem g) = g) by (by destruct g). rewrite Hg.
    eapply retoken; [done..|intros ? ? []|]. split_and!; [done|by exists c|]. by intros h' [->|Hh']%elem_of_cons; [|apply H4].
  - assert (Hsub : new_bytecodes (mem g) ⊆ <[h := code_of h]> (new_bytecodes (mem g))) by (by apply insert_subseteq).
    eapply (frame hist g hist _ (PRun i k (pre ++ ms) hs) _ rest i); [done..|by split|by intros j _; split| | | | |].
    + intros k' x Hx. by left.
    + intros h' y. simpl. destruct (decide (h = h')) as [->|Hne]; [rewrite lookup_insert_eq; by intros [= <-]|].
      rewrite lookup_insert_ne by done. apply (P_codes _ _ _ Hinv).
    + intros l k' v He. by destruct (running_no_data _ _ _ _ _ _ _ _ _ _ Hinv He).
    + intros l. by apply (own_estimate _ _ _ _ i l Hinv).
    + simpl. split_and!; [done|exists c; split; [done|by etransitivity]|]. intros h' [->|Hh']%elem_of_cons.
      * by rewrite lookup_insert_eq.
      * eapply lookup_weaken; [by apply H4|done].
Qed.

Lemma deploy_p i k tx pre ms db r (l : list (N * option N)) : ∀ hs,
  serve (vm_reads i tx) ms = Some (RDone (inr (db, inr r))) →
  (∀ h c, (h, c) ∈ l → (h, c) ∈ deployments hash_deterministic db r) →
  safe (on_mem (deploy l)) (λ _ tok, ∃ hs', tok = PRun i k (pre ++ ms) hs' ∧ ∀ h, h ∈ hs ∨ h ∈ l.*1 → h ∈ hs')
    (PRun i k (pre ++ ms) hs).
Proof.
  induction l as [|[h code] l IH]; intros hs Hs Hl.
  { exists hs. split; [done|]. intros h [?|?%not_elem_of_nil]; done. }
  sbind (deploy_one_p i k tx pre ms db r hs h code); [|done|apply Hl; by left]. intros _ tok ->.
  eapply safe_mono; [|apply (IH (h :: hs)); [done|intros h' c' Hin; apply Hl; by right]].
  intros _ tok (hs' & -> & Hhs'). exists hs'. split; [done|]. intros h'. simpl. rewrite elem_of_cons. intros [?|[->|?]]; apply Hhs'; rewrite elem_of_cons; auto.
Qed.

Lemma vm_execute_p v ms hs :
  safe (vm_execute hash_deterministic bytecode_of evm_of spec_id block_env txs v)
    (λ o tok, ∃ ms hs, tok = PRun (tx_idx v) (tx_incarnation v) ms hs ∧
       match o with
       | VmOk _ reads ws res => ∃ x, gathered (tx_idx v) x ms hs ∧ exec_reads x = reads ∧ exec_writes x = ws ∧ exec_result x = res
       | _ => True
       end) (PRun (tx_idx v) (tx_incarnation v) ms hs).
Proof.
  unfold vm_execute, vm_execute_mem. destruct (txs !! tx_idx v) as [tx|] eqn:Htx; [|by intros g rest Hinv].
  set (i := tx_idx v) in *. set (k := tx_incarnation v).
  rewrite <-(app_nil_r ms). sbind (reading_p i k tx hs (vm_reads i tx) ms []); [|done].
  clear ms. intros r tok (pre & ms & -> & Hs).
  assert (Hfail : ∀ o : vm_outcome PevmTxExecutionResult ExecutionError, match o with VmOk _ _ _ _ => False | _ => True end →
    safe (on_mem (Ret o)) (λ o tok, ∃ ms hs, tok = PRun i k ms hs ∧ match o with
       | VmOk _ reads ws res => ∃ x, gathered i x ms hs ∧ exec_reads x = reads ∧ exec_writes x = ws ∧ exec_result x = res
       | _ => True end) (PRun i k (pre ++ ms) hs)).
  { intros o Ho. exists (pre ++ ms), hs. split; [done|]. by destruct o. }
  destruct r as [e|[db [e|r]]]; unfold vm_finish.
  - apply Hfail. by destruct e.
  - apply Hfail. destruct e; simpl; [| |done]; by case_bool_decide.
  - sbind (deploy_p i k tx pre ms db r (deployments hash_deterministic db r) hs Hs); [|done].
    intros _ tok (hs' & -> & Hhs').
    destruct (vm_effects _ _ _ tx db r) as [e|[[ws result]|]] eqn:He.
    + exists (pre ++ ms), hs'. split; [done|]. by destruct e.
    + exists (pre ++ ms), hs'. split; [done|]. exists (mkExecution (read_set db) ws (deployments hash_deterministic db r) result).
      split; [|done]. exists tx, pre, ms, (inr (db, inr r)). split_and!; [done..| |].
      * simpl. by rewrite He.
      * intros h c Hin. apply Hhs'. right. by apply (list_elem_of_fmap_2 fst _ (h, c)).
    + by intros g rest Hinv.
Qed.

(** *** Recording *)

Lemma final_write_nodup ws l v : NoDup ws.*1 → (l, v) ∈ ws → final_write ws l = Some v.
Proof.
  intros Hnd Hin. unfold final_write. apply elem_of_list_to_map_1; [|by rewrite elem_of_reverse].
  by rewrite fmap_reverse, reverse_Permutation.
Qed.

Lemma begin_record_p i k x ms hs :
  gathered i x ms hs →
  safe (on_mem (act (begin_record_section i (exec_reads x) (exec_writes x))))
    (λ rm tok, tok = PRec i k x rm (exec_writes x)) (PRun i k ms hs).
Proof.
  intros (tx & pre & ms' & r & Htx & -> & Hs & Hx & Hhs). apply act_mem_p. intros hist g rest m removed Hinv.
  unfold begin_record_section. destruct (last_locations (mem g) !! i) as [ll|] eqn:Hll; [|done].
  destruct (split_stale _ _ _ _ _) as [kept rm] eqn:Hsplit. intros [= <- <-].
  apply split_stale_run in Hsplit as (Hperm & Hkept & _). rewrite Forall_forall in Hkept.
  exists (<[(i, k) := x]> hist), (PRec i k x rm (exec_writes x)). split; [|done].
  destruct (P_toks _ _ _ Hinv) as [(H1 & (c & H2 & H3) & H4) _]. apply chain_app in H2 as [_ H2].
  assert (Hwit : witnessed hist i tx x) by (exists (chain_end c pre), ms', r; done).
  destruct (witnessed_writes _ hash_inj _ _ _ storage_code _ _ _ _ _ _ Hwit) as (Hnd & _).
  pose proof (lookup_lt_Some _ _ _ Hll) as Hlt.
  eapply (frame hist g _ _ (PRun i k (pre ++ ms') hs) _ rest i); [done..| | | | | | |].
  - split; [by apply insert_subseteq|done|done].
  - intros j Hne. split; [|done| |done].
    + intros k'. rewrite lookup_insert_ne; [done|]. naive_solver.
    + simpl. by rewrite list_lookup_insert_ne.
  - intros k' x'. rewrite lookup_insert_Some. intros [[[= <-] <-]|[_ ?]]; [right|by left].
    split_and!; [by exists tx| |].
    + eexists. split; [by eapply runs_at|done].
    + intros h c' Hin. eapply H4, Hhs, Hin.
  - apply (P_codes _ _ _ Hinv).
  - intros l k' v He. by destruct (running_no_data _ _ _ _ _ _ _ _ _ _ Hinv He).
  - intros l He. simpl. rewrite list_lookup_insert_eq by done.
    destruct (own_estimate _ _ _ _ i l Hinv eq_refl He) as [?|[(ll' & Hll' & Hin)|[]]]; [by left|right]. simplify_eq.
    rewrite Hperm, elem_of_app in Hin. destruct Hin; [left; by eexists|by right].
  - split; [split|].
    + by rewrite lookup_insert_eq.
    + eexists. simpl. rewrite list_lookup_insert_eq by done. split_and!; [done|done|]. simpl. intros l Hl. by apply Hkept.
    + intros l v Hw Hn. apply final_write_None in Hn. congruence.
    + intros l v. by apply final_write_nodup.
Qed.

Lemma remove_entries_p i k x l :
  safe (on_mem (remove_entries i l)) (λ _ tok, tok = PRec i k x [] (exec_writes x)) (PRec i k x l (exec_writes x)).
Proof.
  induction l as [|y l IH]; [done|]. apply safe_focus_bind, act_mem_p. intros hist g rest m [] Hinv [= <-].
  exists hist, (PRec i k x l (exec_writes x)). split; [|exact IH].
  assert (Hlast : last_locations (remove_entry i y (mem g)) = last_locations (mem g))
    by (unfold remove_entry; by destruct (data (mem g) !! y)).
  assert (Hcodes : new_bytecodes (remove_entry i y (mem g)) = new_bytecodes (mem g))
    by (unfold remove_entry; by destruct (data (mem g) !! y)).
  destruct (P_toks _ _ _ Hinv) as [([D1 D2 D3] & H2) _].
  eapply (frame hist g hist _ (PRec i k x (y :: l) (exec_writes x)) _ rest i); [done..| | | | | | |].
  - split; [done|simpl; by rewrite Hcodes|done].
  - intros j Hne. split; [done| |simpl; by rewrite Hlast|done]. intros l'. simpl. rewrite entry_remove, decide_False; [done|]. naive_solver.
  - intros k' x' Hx'. by left.
  - simpl. rewrite Hcodes. apply (P_codes _ _ _ Hinv).
  - intros l' k' v. simpl. rewrite entry_remove, Hlast. destruct (decide _); [done|]. intros He.
    destruct (P_mem _ _ _ Hinv l' i k' v He) as (? & ? & ? & _). done.
  - intros l'. simpl. rewrite entry_remove, Hlast. destruct (decide _) as [|Hne]; [done|]. intros He.
    destruct (own_estimate _ _ _ _ i l' Hinv eq_refl He) as [?|[?|[_ Hin]]]; [by left|by right; left|right; right].
    split; [done|]. apply elem_of_cons in Hin as [->|?]; [|done]. by destruct Hne.
  - split; [|done]. split; [done|simpl; by rewrite Hlast|]. intros l' v Hw Hn. apply final_write_None in Hn. congruence.
Qed.

Lemma write_entry_p i k x l value todo :
  safe (on_mem (act (write_entry_section (mkVersion i k) l value)))
    (λ _ tok, tok = PRec i k x [] todo) (PRec i k x [] ((l, value) :: todo)).
Proof.
  apply act_mem_p. intros hist g rest m is_new Hinv. destruct (P_toks _ _ _ Hinv) as [([D1 D2 D3] & Htodo) _].
  destruct D2 as (ll & Hll & Hread & Hlocs). pose proof (lookup_lt_Some _ _ _ Hll) as Hlt.
  rewrite (write_entry_run (mkVersion i k) l value _ _ Hll). intros [= <- <-].
  exists hist, (PRec i k x [] todo). split; [|done]. simpl.
  set (lw := if decide _ then _ else _).
  assert (Hlw : ∀ y, y ∈ lw ↔ y ∈ last_write ll ∨ y = l).
  { intros y. unfold lw. destruct (decide (l ∈ last_write ll)); [naive_solver|]. by rewrite elem_of_app, list_elem_of_singleton. }
  set (m' := mkMemory _ _ _ _).
  assert (Hentry : ∀ y j, entry m' y j = if decide (l = y ∧ i = j) then Some (Data k value) else entry (mem g) y j).
  { intros y j. apply (entry_put (mkVersion i k)). }
  assert (Hl : final_write (exec_writes x) l = Some value) by (apply Htodo; by left).
  assert (Hin : l ∈ (exec_writes x).*1).
  { destruct (decide (l ∈ (exec_writes x).*1)) as [|Hn]; [done|]. apply final_write_None in Hn. congruence. }
  eapply (frame hist g hist _ (PRec i k x [] ((l, value) :: todo)) _ rest i); [done..|by split| | | | | |].
  - intros j Hne. split; [done| | |done].
    + intros y. simpl. rewrite Hentry, decide_False; [done|]. naive_solver.
    + simpl. by rewrite list_lookup_insert_ne.
  - intros k' x' Hx'. by left.
  - apply (P_codes _ _ _ Hinv).
  - intros y k' v. simpl. rewrite Hentry, list_lookup_insert_eq by done. destruct (decide (l = y ∧ i = i)) as [[-> _]|Hne].
    + intros [= <- <-]. split_and!; [|eexists; split; [done|]; apply Hlw; by right| |done].
      * unfold vals_of. by rewrite D1.
      * eexists. split; [by eapply runs_at|done].
    + intros He. destruct (P_mem _ _ _ Hinv y i k' v He) as (? & (ll' & Hll' & Hy) & ? & _). simplify_eq.
      split_and!; [done| |done|done]. eexists. split; [done|]. apply Hlw. by left.
  - intros y. simpl. rewrite Hentry, list_lookup_insert_eq by done. destruct (decide (l = y ∧ i = i)); [done|]. intros He.
    destruct (own_estimate _ _ _ _ i y Hinv eq_refl He) as [?|[(ll' & Hll' & Hy)|[_ ?%not_elem_of_nil]]]; [by left|right; left|done].
    simplify_eq. eexists. split; [done|]. apply Hlw. by left.
  - simpl. split; [split|].
    + done.
    + eexists. simpl. rewrite list_lookup_insert_eq by done. split_and!; [done|done|]. simpl.
      intros y [?| ->]%Hlw; [by apply Hlocs|done].
    + intros y v Hw Hn. rewrite Hentry. destruct (decide (l = y ∧ i = i)) as [[-> _]|Hne]; [congruence|].
      apply D3; [done|]. simpl. apply not_elem_of_cons. split; [naive_solver|done].
    + intros y v Hy. apply Htodo. by right.
Qed.

Lemma write_entries_p i k x todo b :
  safe (on_mem (write_entries (mkVersion i k) todo b)) (λ _ tok, tok = PRec i k x [] []) (PRec i k x [] todo).
Proof.
  revert b. induction todo as [|[l value] todo IH]; intros b; [done|].
  sbind (write_entry_p i k x l value todo). intros is_new tok ->. apply IH.
Qed.

Lemma record_p i k x ms hs :
  gathered i x ms hs →
  safe (on_mem (record (mkVersion i k) (exec_reads x) (exec_writes x))) (λ _ tok, tok = PRec i k x [] []) (PRun i k ms hs).
Proof.
  intros Hg. unfold record. sbind (begin_record_p i k x ms hs Hg). intros removed tok ->.
  sbind remove_entries_p. intros _ tok ->. apply write_entries_p.
Qed.

Lemma add_lazy_p l t : safe (on_mem (add_lazy_addresses l)) (λ _ tok, tok = t) t.
Proof.
  apply act_mem_p. intros hist g rest m [] Hinv [= <-]. exists hist, t. split; [|done].
  destruct Hinv as [H1 H2 H3 H4 H5 H6 H7 H8]. split; try done.
  - intros i tx Htx Hex. destruct (H6 i tx Htx Hex) as (x & Hc & Hr). exists x. split; [by apply (complete_same hist g); [split|]|done].
  - apply every_intro. intros t' Ht'. eapply (tok_fact_same hist g); [by split|intros i _; by split|by eapply every_elem].
Qed.

Lemma store_result_p i k x :
  safe (store_result i (exec_result x)) (λ _ tok, tok = PStored i k x) (PRec i k x [] []).
Proof.
  intros g rest [hist Hinv]. case_bool_decide as Hlt; [|done]. exists (PStored i k x). split; [|done]. exists hist.
  destruct (P_toks _ _ _ Hinv) as [(Hc & _) _].
  eapply (frame hist g hist _ (PRec i k x [] []) _ rest i); [done..|by split| | | | | |].
  - intros j Hne. split; [done..|]. simpl. by rewrite list_lookup_insert_ne.
  - intros k' x' Hx'. by left.
  - apply (P_codes _ _ _ Hinv).
  - intros l k' v He. destruct (P_mem _ _ _ Hinv l i k' v He) as (? & ? & ? & _). done.
  - intros l He. destruct (own_estimate _ _ _ _ i l Hinv eq_refl He) as [?|[?|[_ ?%not_elem_of_nil]]]; [by left|by right; left|done].
  - split; [done|]. simpl. by rewrite list_lookup_insert_eq.
Qed.

(** *** Estimates and validation *)

Lemma estimate_entries_p i l :
  safe (on_mem (estimate_entries i l)) (λ _ tok, tok = PAbort i (Some [])) (PAbort i (Some l)).
Proof.
  induction l as [|y l IH]; [done|]. apply safe_focus_bind, act_mem_p. intros hist g rest m [] Hinv [= <-].
  exists hist, (PAbort i (Some l)). split; [|exact IH].
  assert (Hlast : last_locations (estimate_entry i y (mem g)) = last_locations (mem g))
    by (unfold estimate_entry; by destruct (data (mem g) !! y)).
  assert (Hcodes : new_bytecodes (estimate_entry i y (mem g)) = new_bytecodes (mem g))
    by (unfold estimate_entry; by destruct (data (mem g) !! y)).
  destruct (P_toks _ _ _ Hinv) as [Hrem _].
  eapply (frame hist g hist _ (PAbort i (Some (y :: l))) _ rest i); [done..| | | | | | |].
  - split; [done|simpl; by rewrite Hcodes|done].
  - intros j Hne. split; [done| |simpl; by rewrite Hlast|done]. intros l'. simpl. rewrite entry_estimate, decide_False; [done|]. naive_solver.
  - intros k' x' Hx'. by left.
  - simpl. rewrite Hcodes. apply (P_codes _ _ _ Hinv).
  - intros l' k' v. simpl. rewrite entry_estimate, Hlast. destruct (decide _) as [|Hne]; [done|]. intros He.
    destruct (P_mem _ _ _ Hinv l' i k' v He) as (? & ? & ? & Ho). split_and!; [done..|].
    assert (Hown : powns i l' (PAbort i (Some (y :: l)))).
    { destruct Ho as [Hex|[?|(t & Hin & Ht%powns_tx)%any_elem]]; [|done|].
      - exfalso. eapply busy_not_executed in Hex; [done|exact Hinv|by left|done].
      - exfalso. by eapply (sole _ _ _ _ i t Hinv). }
    destruct Hown as [_ [->|Hin]%elem_of_cons]; [|done]. destruct Hne. split_and!; [done..|].
    unfold entry in He. destruct (data (mem g) !! y); [done|discriminate].
  - intros l'. simpl. rewrite entry_estimate, Hlast. destruct (decide _) as [(<- & _ & [w Hw])|Hne].
    2:{ intros He. by apply (own_estimate _ _ _ _ i l' Hinv). }
    intros _. destruct (entry (mem g) y i) as [[k v|]|] eqn:He.
    + destruct (P_mem _ _ _ Hinv y i k v He) as (_ & ? & _). by right; left.
    + destruct (own_estimate _ _ _ _ i y Hinv eq_refl He) as [?|[?|[]]]; [by left|by right; left].
    + right; left. destruct Hrem as (ll & Hll & Hrem). exists ll. split; [done|]. apply Hrem. by left.
  - destruct Hrem as (ll & Hll & Hrem). exists ll. simpl. rewrite Hlast. split; [done|]. intros l' Hl'. apply Hrem. by right.
Qed.

Lemma convert_p i :
  safe (on_mem (convert_writes_to_estimates i)) (λ _ tok, tok = PAbort i (Some [])) (PAbort i None).
Proof.
  apply safe_focus_bind, act_mem_p. intros hist g rest m r Hinv.
  destruct (last_locations (mem g) !! i) as [ll|] eqn:Hll; [|done]. intros [= <- <-].
  exists hist, (PAbort i (Some (last_write ll))). split; [|apply estimate_entries_p].
  assert (Hg : with_mem g (mem g) = g) by (by destruct g). rewrite Hg.
  eapply (frame hist g hist g (PAbort i None) _ rest i); [done..|by split|by intros j _; split| | | | |by exists ll].
  - intros k' x' Hx'. by left.
  - apply (P_codes _ _ _ Hinv).
  - intros l k v He. destruct (P_mem _ _ _ Hinv l i k v He) as (? & (ll' & Hll' & Hin) & ? & _). simplify_eq.
    split_and!; [done|by eexists|done..].
  - intros l. by apply (own_estimate _ _ _ _ i l Hinv).
Qed.

Lemma validate_p i : safe (on_mem (validate_read_locations i)) (λ _ tok, tok = PIdle) PIdle.
Proof.
  intros order. apply safe_focus_bind, act_mem_p. intros hist g rest m r Hinv.
  destruct (last_locations (mem g) !! i) as [ll|]; [|done]. intros [= <- <-]. exists hist, PIdle. split; [by destruct g|].
  generalize (proj1_sig (order (last_read ll))). intros l. induction l as [|[y o] l IH]; [done|].
  apply safe_focus_bind, load_mem_p. intros m. destruct (valid_location m i y o); [exact IH|done].
Qed.

(** ** Workers *)

Local Notation vm := (vm_execute hash_deterministic bytecode_of evm_of spec_id block_env txs).

Ltac pbind H := apply safe_bind; eapply safe_mono; [|eapply H]; cbn beta.

Definition after_tok (task : option Task) (tok : ptoken) : Prop :=
  match task with
  | Some t => task_tok t tok
  | None => tok = PIdle ∨ ∃ i k, tok = PLost i k
  end.
Definition worker_tok (w : worker) (tok : ptoken) : Prop :=
  match w with WNext => tok = PIdle | WTask t => task_tok t tok | WExit => True end.

Lemma after_task_p task tok :
  after_tok task tok → safe (after_task (R := PevmTxExecutionResult) (E := ExecutionError) task) worker_tok tok.
Proof.
  intros Ht g rest [hist Hinv]. exists tok. split; [by exists hist|]. simpl. destruct (abort_reason g) as [r|] eqn:Hr; [done|].
  destruct task as [t|]; [done|]. destruct Ht as [->|(i & k & ->)]; [done|].
  destruct (P_toks _ _ _ Hinv) as [[x Hx] _]. congruence.
Qed.

Lemma lose hist g i k ms hs rest :
  PInv hist g (PRun i k ms hs :: rest) → is_Some (abort_reason g) → PInv hist g (PLost i k :: rest).
Proof. intros Hinv Hr. eapply retoken; [done..|intros ? ? []|done]. Qed.

Lemma load_reason_p i k ms hs (Q : option (option Task) → ptoken → Prop) :
  Q None (PRun i k ms hs) → Q (Some None) (PLost i k) →
  safe (r <- load (abort_reason (R := PevmTxExecutionResult) (E := ExecutionError));;
        Ret (match r with None => None | Some _ => Some None end)) Q (PRun i k ms hs).
Proof.
  intros H1 H2 g rest [hist Hinv]. destruct (abort_reason g) as [r|] eqn:Hr.
  - exists (PLost i k). split; [|done]. exists hist. eapply lose; [done|by exists r].
  - exists (PRun i k ms hs). split; [by exists hist|done].
Qed.

Lemma abort_with_p r i k ms hs (Q : option (option Task) → ptoken → Prop) :
  Q (Some None) (PLost i k) → safe (abort_with (R := PevmTxExecutionResult) r) Q (PRun i k ms hs).
Proof.
  intros HQ. unfold abort_with. apply safe_bind, quiet; [by intros ? ? ? [= <- <-]|]. intros _ g rest [hist Hinv].
  exists (PLost i k). split; [|done]. exists hist. eapply (lose _ _ _ _ ms hs); [|simpl; by eexists].
  destruct Hinv as [H1 H2 H3 H4 H5 H6 H7 H8]. split; try done. apply every_intro. intros t' Ht'.
  eapply (tok_fact_same hist g); [|intros j _; by split|by eapply every_elem]. split; [done|done|]. intros _. by eexists.
Qed.

Lemma finish_vm_p v is_lazy x ms hs :
  gathered (tx_idx v) x ms hs →
  safe (finish_vm (R := PevmTxExecutionResult) (E := ExecutionError) v is_lazy (exec_reads x) (exec_writes x))
    (λ _ tok, tok = PRec (tx_idx v) (tx_incarnation v) x [] []) (PRun (tx_idx v) (tx_incarnation v) ms hs).
Proof.
  intros Hg. unfold finish_vm. apply safe_bind.
  apply safe_mono with (Q := λ _ tok, tok = PRun (tx_idx v) (tx_incarnation v) ms hs).
  2:{ destruct is_lazy as [[caller to]|]; [apply add_lazy_p|done]. }
  intros _ tok ->. destruct v as [i k]. pbind (record_p i k x ms hs Hg). by intros new tok ->.
Qed.

Lemma try_execute_iteration_p n v ms hs :
  safe (try_execute_iteration vm n v)
    (λ o tok, match o with None => task_tok (Execution v) tok | Some task => after_tok task tok end)
    (PRun (tx_idx v) (tx_incarnation v) ms hs).
Proof.
  unfold try_execute_iteration. pbind vm_execute_p. clear ms hs. intros o tok (ms & hs & -> & Ho).
  destruct o as [| |b|err|is_lazy read_set write_set r].
  - apply load_reason_p; [by exists ms, hs|right; eauto].
  - apply abort_with_p. right. eauto.
  - pbind (add_dependency_p (tx_idx v) (tx_incarnation v) ms hs b). intros [] tok ->; [by left|].
    apply load_reason_p; [by exists ms, hs|right; eauto].
  - apply abort_with_p. right. eauto.
  - destruct Ho as (x & Hg & <- & <- & <-). pbind (finish_vm_p v is_lazy x ms hs Hg). intros flags tok ->.
    pbind store_result_p. intros _ tok ->. pbind finish_execution_p. intros [[v'|v']|] tok [-> Ht]; [done|done|by left].
Qed.

Lemma try_validate_p n v :
  safe (try_validate (R := PevmTxExecutionResult) (E := ExecutionError) n v) after_tok PIdle.
Proof.
  unfold try_validate. pbind validate_p. intros ok tok ->. apply safe_bind.
  apply safe_mono with (Q := λ (ab : bool) tok, tok = if ab then PAbort (tx_idx v) None else PIdle).
  - intros ab tok ->. apply safe_bind.
    apply safe_mono with (Q := λ _ tok, tok = if ab then PAbort (tx_idx v) (Some []) else PIdle).
    + intros _ tok Htok. eapply safe_mono; [|by apply finish_validation_p]. intros [t|] tok' Ht; [exact Ht|by left].
    + destruct ab; [apply convert_p|done].
  - destruct ok; [done|apply try_validation_abort_p].
Qed.

Lemma worker_p n w tok :
  worker_tok w tok → match worker_step vm n w with Some p => safe p worker_tok tok | None => True end.
Proof.
  destruct w as [|[v|v]|]; cbn [worker_step worker_tok task_tok]; [intros ->|intros (ms & hs & ->)|intros ->|done].
  - pbind next_task_p. by intros [| |t] tok Ht.
  - pbind try_execute_iteration_p. intros [task|] tok Ht; [by apply after_task_p|exact Ht].
  - pbind try_validate_p. intros task tok Ht. by apply after_task_p.
Qed.

(** ** The initial state *)

Lemma initial_p n m results t :
  fresh_memory n m → new_bytecodes m = ∅ → (∀ l i, entry m l i = Some Estimate → estimated l i) →
  PI (initial n m results) (replicate t PIdle).
Proof.
  intros [Hlast Hdata] Hcodes Hest. exists ∅.
  assert (Hst : ∀ i tx, replicate n (mkTxStatus 0%nat ReadyToExecute) !! i = Some tx → tx = mkTxStatus 0%nat ReadyToExecute).
  { by intros i tx [? _]%lookup_replicate. }
  assert (Hc : concat (replicate n ([] : list nat)) = []) by (clear; induction n; done).
  assert (Hg : ∀ A (f : ptoken → list A), f PIdle = [] → gather f (replicate t PIdle) = []).
  { intros A f Hf. clear -Hf. induction t as [|t IH]; simpl; [done|]. by rewrite Hf, IH. }
  split; simpl; rewrite ?Hg by done.
  - split; [constructor|]. intros i k. rewrite elem_of_nil. split; [done|]. by intros [=]%Hst.
  - unfold c_stuck. rewrite Hc. split; [constructor|]. intros i. rewrite elem_of_nil. split; [done|]. by intros [k [=]%Hst].
  - intros i k x Hx. by rewrite lookup_empty in Hx.
  - intros h y. rewrite Hcodes, lookup_empty. done.
  - intros l i k v He. by destruct (Hdata l i k v).
  - intros i tx ->%Hst. done.
  - clear. by induction t as [|t IH]; simpl.
  - intros l i He. left. by apply Hest.
Qed.

(** Every reachable state has a history that explains it. *)
Lemma reachable_PI n est addrs results threads g ths :
  reachable (worker_step vm n) (initial n (MvMemory_new n est addrs) results) (spawn vm n threads) (g, ths) →
  fresh_memory n (MvMemory_new n est addrs) →
  (∀ l i, entry (MvMemory_new n est addrs) l i = Some Estimate → estimated l i) → ∃ toks, PI g toks.
Proof.
  intros Hr Hfresh Hest.
  assert (Hall : Forall2 (thread_ok True PI worker_tok (λ _, True)) (spawn vm n threads) (replicate threads PIdle)).
  { unfold spawn. clear Hr. induction threads as [|t IH]; simpl; constructor; [|done]. by apply (worker_p n WNext PIdle). }
  pose proof (initial_p n _ results threads Hfresh eq_refl Hest) as H0.
  destruct (threads_safe _ True PI PI_perm worker_tok (λ _, True) (worker_p n) _ _ _ _ _ H0 Hall Hr) as (toks & Hinv & _).
  by exists toks.
Qed.
End prov.
