(* ===== verification/BlockStmSerial.v ===== *)
(** * Serializability of the parallel executor

    The result of a block executed by the worker threads of BlockStm with the virtual
    machine of VmExecute is that of executing its transactions one after the other, each
    alone on the writes of its predecessors. [execute_in_order] is that sequential
    execution; it writes to a multi-version memory as well, so that the two memories can be
    compared entry by entry. *)

From S2P Require Import Prelude PevmTypes Concurrent Scheduler MvMemory VmDb Chain BlockStm VmExecute VmRepeat.
From S2P Require Import BlockStmInv BlockStmSafety BlockStmCorrect BlockStmProv.

(** ** The sequential execution *)

(** The writes of an execution, labelled as those of incarnation [k]. *)
Definition commit_writes (i : TxIdx) (k : TxIncarnation) (ws : WriteSet) (m : MvMemory) : MvMemory :=
  foldl (λ m '(l, v), with_data m (put_entry (mkVersion i k) l v m)) m ws.
Definition commit_codes (codes : list (N * option N)) (c : gmap N N) : gmap N N :=
  foldl (λ c '(h, code), match c !! h, code with None, Some y => <[h := y]> c | _, _ => c end) c codes.
Definition commit (i : TxIdx) (k : TxIncarnation) (x : execution) (m : MvMemory) : MvMemory :=
  with_bytecodes (commit_writes i k (exec_writes x) m) (commit_codes (exec_codes x) (new_bytecodes m)).

Section serial.
Context (hash_deterministic : MemoryLocation → MemoryLocationHash).
Context {st : Storage} (bytecode_of : N → N + N) {chain_rules : PevmChain}.
Context (evm_of : TxEnv → evm (EvmError + ResultAndState)).
Context (spec_id : SpecId) (block_env : BlockEnv).

(** The transactions from index [i] on, each with its lazy-update flag and the incarnation that
    labels its writes; [None] when one of them fails. *)
Fixpoint execute_in_order (i : TxIdx) (l : list (TxEnv * (bool * TxIncarnation))) (m : MvMemory)
    : option (MvMemory * list PevmTxExecutionResult) :=
  match l with
  | [] => Some (m, [])
  | (tx, (lazy, k)) :: l =>
      match execute_as hash_deterministic bytecode_of evm_of spec_id block_env i tx lazy m with
      | None => None
      | Some x =>
          match execute_in_order (S i) l (commit i k x m) with
          | None => None
          | Some (m', rs) => Some (m', exec_result x :: rs)
          end
      end
  end.
End serial.

(** *** What a commit does *)

Lemma commit_writes_entry i k ws m l j :
  entry (commit_writes i k ws m) l j =
  if decide (i = j) then match final_write ws l with Some v => Some (Data k v) | None => entry m l j end else entry m l j.
Proof.
  unfold commit_writes. induction ws as [|[y v] ws IH] using rev_ind; simpl; [by destruct (decide _)|].
  rewrite foldl_app, final_write_snoc. simpl. set (m1 := foldl _ m ws) in *.
  change (entry (with_data m1 (put_entry (mkVersion i k) y v m1)) l j) with (put_entry (mkVersion i k) y v m1 !! l ≫= (.!! j)).
  rewrite entry_put. simpl. rewrite IH. destruct (decide (i = j)) as [->|Hne].
  - destruct (decide (y = l)) as [->|]; [by rewrite decide_True by done|by rewrite decide_False by naive_solver].
  - by rewrite decide_False by naive_solver.
Qed.

Lemma commit_entry i k x m l j :
  entry (commit i k x m) l j =
  if decide (i = j) then match final_write (exec_writes x) l with Some v => Some (Data k v) | None => entry m l j end
  else entry m l j.
Proof. apply commit_writes_entry. Qed.

Section codes.
Context (code_of : N → N).

Lemma commit_codes_ok codes c :
  (∀ h y, c !! h = Some y → y = code_of h) → (∀ h y, (h, y) ∈ codes → y = Some (code_of h)) →
  (∀ h y, commit_codes codes c !! h = Some y → y = code_of h) ∧
  c ⊆ commit_codes codes c ∧ ∀ h y, (h, y) ∈ codes → commit_codes codes c !! h = Some (code_of h).
Proof.
  unfold commit_codes. revert c. induction codes as [|[h0 y0] codes IH]; intros c Hc Hcodes; simpl.
  { split_and!; [done|done|]. by intros h y ?%not_elem_of_nil. }
  pose proof (Hcodes h0 y0 (list_elem_of_here _ _)) as ->.
  set (c1 := match c !! h0 with Some _ => c | None => <[h0 := code_of h0]> c end).
  assert (Hc1 : (∀ h y, c1 !! h = Some y → y = code_of h) ∧ c ⊆ c1 ∧ c1 !! h0 = Some (code_of h0)).
  { unfold c1. destruct (c !! h0) as [y|] eqn:Hh0.
    - split_and!; [done|done|]. by rewrite Hh0, (Hc h0 y Hh0).
    - split_and!; [|by apply insert_subseteq|by rewrite lookup_insert_eq].
      intros h y. rewrite lookup_insert_Some. intros [[<- <-]|[_ ?]]; [done|by apply Hc]. }
  destruct Hc1 as (H1 & H2 & H3).
  destruct (IH c1 H1) as (K1 & K2 & K3); [intros h y Hin; apply Hcodes; by right|].
  fold c1. split_and!; [done|by etransitivity|]. intros h y [[= -> _]|Hin]%elem_of_cons; [|by eapply K3].
  by eapply lookup_weaken.
Qed.
End codes.

(** ** The block *)

Section block.
Context (hash_deterministic : MemoryLocation → MemoryLocationHash) (hash_inj : Inj (=) (=) hash_deterministic).
Context {st : Storage} (bytecode_of : N → N + N) {chain_rules : PevmChain} (code_of : N → N).
Context (storage_code : storage_has_code bytecode_of code_of).
Context (evm_of : TxEnv → evm (EvmError + ResultAndState)) {evm_spec : EvmSpec evm_of code_of}.
Context (spec_id : SpecId) (block_env : BlockEnv) (txs : list TxEnv).
Local Notation vm := (vm_execute hash_deterministic bytecode_of evm_of spec_id block_env txs).
Context (estimated : MemoryLocationHash → TxIdx → Prop).
Local Notation PInv := (PInv hash_deterministic bytecode_of code_of evm_of spec_id block_env txs estimated).

(** [m] holds the data that the transactions below [i] have in [m0], and nothing else. *)
Record prefix_of_block (m0 : MvMemory) (i : TxIdx) (m : MvMemory) : Prop := mkPrefix {
  prefix_data : ∀ l j k v, entry m l j = Some (Data k v) ↔ (j < i)%nat ∧ entry m0 l j = Some (Data k v);
  prefix_no_estimate : ∀ l j, entry m l j ≠ Some Estimate;
  prefix_codes : ∀ h y, new_bytecodes m !! h = Some y → y = code_of h;
  prefix_deployed : ∀ l j k h, entry m l j = Some (Data k (CodeHashValue h)) → new_bytecodes m !! h = Some (code_of h) }.

Lemma entries_read_default m l i : entries_read m l i = entries_below (default ∅ (data m !! l)) i.
Proof.
  unfold entries_read. destruct (data m !! l); [done|]. simpl. unfold entries_below. symmetry.
  induction (reverse (seq 0 i)) as [|j js IH]; [done|]. cbn [omap list_omap]. by rewrite lookup_empty.
Qed.

(** A read that the block confirms is confirmed by the prefix of its predecessors. *)
Lemma prefix_confirms m0 i m l o : prefix_of_block m0 i m → confirmed m0 i l o → confirmed m i l o.
Proof.
  intros Hp. unfold confirmed. rewrite !entries_read_default. apply check_origins_le. intros j Hj.
  assert (Hlt : (j < i)%nat) by (apply elem_of_reverse, elem_of_seq in Hj; lia).
  assert (Hd : ∀ m : MvMemory, default ∅ (data m !! l) !! j = entry m l j) by (intros m1; unfold entry; by destruct (data m1 !! l)).
  rewrite !Hd. destruct (entry m0 l j) as [[k v|]|] eqn:H0; [|by left|]; right; left.
  - symmetry. by apply (prefix_data _ _ _ Hp).
  - destruct (entry m l j) as [[k v|]|] eqn:H1; [|by destruct (prefix_no_estimate _ _ _ Hp l j)|done].
    apply (prefix_data _ _ _ Hp) in H1 as [_ H1]. congruence.
Qed.

Context (hist : history) (g : Shared PevmTxExecutionResult ExecutionError) (toks : list ptoken).
Context (Hinv : PInv hist g toks).
Context (Hdone : ∀ i, (i < length txs)%nat → executed_at (transactions_status (sched g)) i).
Context (Hvalid : ∀ i ll l o, last_locations (mem g) !! i = Some ll → last_read ll !! l = Some o →
                    valid_location (mem g) i l o = true).

Lemma prefix_ok i m : prefix_of_block (mem g) i m → mem_ok (vals_of hist) code_of m.
Proof.
  intros [H1 _ H3 H4]. split; [|done|done]. intros l j k v [_ He]%H1. by apply (P_mem _ _ _ _ _ _ _ _ _ _ _ Hinv l j k v He).
Qed.

(** The next transaction executes to what the block has stored for it. *)
Lemma next_in_order i tx m :
  txs !! i = Some tx → prefix_of_block (mem g) i m → ∃ lazy k x,
    execute_as hash_deterministic bytecode_of evm_of spec_id block_env i tx lazy m = Some x ∧
    prefix_of_block (mem g) (S i) (commit i k x m) ∧ execution_results g !! i = Some (Some (exec_result x)).
Proof.
  intros Htx Hp. pose proof (lookup_lt_Some _ _ _ Htx) as Hlt. destruct (Hdone i Hlt) as ([k s] & Hs & Hex).
  destruct (P_done _ _ _ _ _ _ _ _ _ _ _ Hinv i _ Hs Hex) as (x & [Hh (ll & Hll & Hread & _) Hw] & Hres). simpl in *.
  destruct (P_hist _ _ _ _ _ _ _ _ _ _ _ Hinv i k x Hh) as ((tx' & Htx' & Hwit) & _ & _). simplify_eq.
  destruct (witnessed_writes _ hash_inj _ _ _ storage_code _ _ _ _ _ _ Hwit) as (_ & Hcodes & Hdeployed).
  destruct (witnessed_repeats _ hash_inj bytecode_of _ _ storage_code _ _ _ i tx x m Hwit (prefix_ok i m Hp)) as [lazy Hrun].
  { intros l o Ho. eapply prefix_confirms; [done|]. apply valid_entries. eapply Hvalid; [done|]. by rewrite Hread. }
  exists lazy, k, x. split_and!; [done| |done].
  destruct (commit_codes_ok code_of (exec_codes x) (new_bytecodes m) (prefix_codes _ _ _ Hp) Hcodes) as (C1 & C2 & C3).
  assert (Hfinal : ∀ l k' v, entry (mem g) l i = Some (Data k' v) ↔ k' = k ∧ final_write (exec_writes x) l = Some v).
  { intros l k' v. split.
    - intros He. destruct (P_mem _ _ _ _ _ _ _ _ _ _ _ Hinv l i k' v He) as (Hv & _ & (s' & Hs' & Hk') & _). simplify_eq.
      unfold vals_of in Hv. simpl in Hv. rewrite Hh in Hv. done.
    - intros [-> Hf]. apply Hw; [done|]. by apply not_elem_of_nil. }
  assert (Hnone : ∀ l, entry m l i = None).
  { intros l. destruct (entry m l i) as [[k' v|]|] eqn:He; [|by destruct (prefix_no_estimate _ _ _ Hp l i)|done].
    apply (prefix_data _ _ _ Hp) in He as [? _]. lia. }
  split.
  - intros l j k' v. rewrite commit_entry. destruct (decide (i = j)) as [<-|Hne].
    + rewrite Hfinal, Hnone. destruct (final_write (exec_writes x) l) as [v'|]; [|naive_solver].
      split; [intros [= <- <-]; split; [lia|done]|by intros (_ & -> & [= ->])].
    + rewrite (prefix_data _ _ _ Hp). split; intros [? ?]; (split; [lia|done]).
  - intros l j. rewrite commit_entry. destruct (decide (i = j)) as [<-|]; [|apply (prefix_no_estimate _ _ _ Hp)].
    rewrite Hnone. by destruct (final_write _ _).
  - exact C1.
  - intros l j k' h. rewrite commit_entry. simpl. destruct (decide (i = j)) as [<-|].
    + rewrite Hnone. destruct (final_write (exec_writes x) l) as [v'|] eqn:Hf; [|done]. intros [= <- ->].
      eapply C3, (Hdeployed l). unfold final_write in Hf. apply elem_of_list_to_map_2 in Hf. by rewrite elem_of_reverse in Hf.
    + intros He%(prefix_deployed _ _ _ Hp). by eapply lookup_weaken.
Qed.

(** Only estimates that nobody ever replaced are left. *)
Lemma estimates_left l i :
  (i < length txs)%nat → entry (mem g) l i = Some Estimate → estimated l i.
Proof.
  intros Hlt He. destruct (Hdone i Hlt) as ([k s] & Hs & Hex).
  destruct (P_done _ _ _ _ _ _ _ _ _ _ _ Hinv i _ Hs Hex) as (x & [Hh (ll & Hll & _ & Hlocs) Hw] & _).
  destruct (P_est _ _ _ _ _ _ _ _ _ _ _ Hinv l i He) as [?|[(ll' & Hll' & Hin)|Hp]]; [done| |].
  - simplify_eq. apply Hlocs in Hin. destruct (final_write (exec_writes x) l) as [v|] eqn:Hf.
    + rewrite (Hw l v Hf) in He by (by apply not_elem_of_nil). done.
    + by apply final_write_None in Hf.
  - apply any_elem in Hp as (t & Hin & Hp%premoves_tx). exfalso.
    eapply (busy_not_executed _ _ _ _ _ _ _ _ _ _ toks t i Hinv Hin Hp). by exists (mkTxStatus k s).
Qed.

Lemma rest_in_order rest : ∀ i m,
  (∀ j, rest !! j = txs !! (i + j)%nat) → prefix_of_block (mem g) i m → ∃ choices m' rs,
    length choices = length rest ∧
    execute_in_order hash_deterministic bytecode_of evm_of spec_id block_env i (zip rest choices) m = Some (m', rs) ∧
    prefix_of_block (mem g) (i + length rest) m' ∧
    mapM (λ i, mjoin (execution_results g !! i)) (seq i (length rest)) = Some rs.
Proof.
  induction rest as [|tx rest IH]; intros i m Hrest Hp.
  { exists [], m, []. simpl. by rewrite Nat.add_0_r. }
  assert (Htx : txs !! i = Some tx) by (rewrite <-(Nat.add_0_r i), <-Hrest; done).
  destruct (next_in_order i tx m Htx Hp) as (lazy & k & x & Hrun & Hp1 & Hres).
  destruct (IH (S i) (commit i k x m)) as (choices & m' & rs & Hlen & Hrun' & Hp' & Hrs); [|done|].
  { intros j. specialize (Hrest (S j)). simpl in Hrest. by rewrite Hrest, Nat.add_succ_r. }
  exists ((lazy, k) :: choices), m', (exec_result x :: rs). simpl. rewrite Hlen, Hrun, Hrun', Hres. simpl.
  rewrite Hrs. split_and!; [done..| |done]. by rewrite Nat.add_succ_r.
Qed.
End block.

(** ** A block

    Two transactions of the same sender on one thread: each reads the sender's account and
    increments its nonce. *)
Definition nonce_account (tx : TxEnv) (r : option AccountInfo) : Account :=
  mkEvmAccountState (mkInfo (default 0 (info_nonce <$> r) + 1) (default 0 (info_balance <$> r)) KECCAK_EMPTY None)
    false true false [] [].
Definition nonce_evm (tx : TxEnv) : evm (EvmError + ResultAndState) :=
  EvmBasic (caller tx) (λ r, EvmDone (inr (mkResult true 21000 [] [(caller tx, nonce_account tx r)]))).

Lemma nonce_evm_spec : EvmSpec nonce_evm id.
Proof.
  split.
  - intros tx ans r Hy. inversion Hy as [|? ? ? ? ? ? Hk| | | |]; subst. inversion Hk; subst. simpl.
    split; [apply NoDup_singleton|]. intros a acc [= -> ->]%list_elem_of_singleton. constructor.
  - intros tx ans r a acc Hy Hin. inversion Hy as [|? ? ? ? ? ? Hk| | | |]; subst. inversion Hk; subst.
    simpl in Hin. by apply list_elem_of_singleton in Hin as [= -> ->].
Qed.

Definition sample_txs : list TxEnv := [mkTxEnv 8 None None 0 0 1 None None 0; mkTxEnv 8 None None 0 0 1 None None 0].
Definition sample_env : BlockEnv := mkBlockEnv 1 5 0 30000000 0 0 None None.
Definition sample_vm := vm_execute (st := sample_storage) sample_hash inr nonce_evm CANCUN sample_env sample_txs.

Lemma sample_block : ∃ g,
  reachable (worker_step sample_vm 2) (initial 2 (ethereum_mv_memory sample_hash sample_env sample_txs) (grow_results 2 []))
    (spawn sample_vm 2 1) (g, [None]) ∧ abort_reason g = None.
Proof.
  eexists. split.
  - unfold reachable. eapply (loops_steps _ _ WNext); [reflexivity|].
    eapply loops_next; [reflexivity|alone|].
    eapply loops_next; [reflexivity|alone|].
    eapply loops_next; [reflexivity|apply (exec_demon _ _ sample_order); alone|].
    eapply loops_next; [reflexivity|alone|].
    eapply loops_next; [reflexivity|alone|].
    eapply loops_next; [reflexivity|alone|].
    eapply loops_next; [reflexivity|apply (exec_demon _ _ sample_order); alone|].
    eapply loops_next; [reflexivity|alone|].
    by apply loops_end.
  - vm_compute. reflexivity.
Qed.


