(* ===== verification/PevmBlock.v ===== *)
(** * Execution of a block

    Models the rest of src/pevm/crates/pevm/src/pevm.rs, and of graph_pevm.rs next to it: what
    [execute_revm_parallel] does when the worker threads have ended (the results with their
    cumulative gas, the evaluation of lazily updated accounts), the sequential executors with
    the access-set tracking, and the choice between them in [Pevm::execute].

    The sequential executors run the EVM over revm's [CacheDB], a parameter: a
    [Database] over an arbitrary state type. *)

From S2P Require Import Prelude PevmTypes Concurrent Scheduler MvMemory VmDb Chain BlockStm VmExecute.

Inductive PevmError :=
| MissingTransactionData
| InvalidTransaction
| NonceMismatch (idx : TxIdx) (expected got : N)
| PevmStorageError (e : N)
| PevmExecutionError (e : ExecutionError)
| UnreachableError.

(** ** Cumulative gas *)

Definition with_gas (r : PevmTxExecutionResult) (gas : N) : PevmTxExecutionResult :=
  mkTxResult (receipt_status r) gas (receipt_logs r) (tx_state r).
Definition with_state (r : PevmTxExecutionResult) (s : gmap N (option EvmAccount)) : PevmTxExecutionResult :=
  mkTxResult (receipt_status r) (cumulative_gas_used r) (receipt_logs r) s.

Fixpoint accumulate_gas (cumulative : N) (l : list PevmTxExecutionResult) : list PevmTxExecutionResult :=
  match l with
  | [] => []
  | r :: l =>
      let cumulative := u64_saturating_add cumulative (cumulative_gas_used r) in
      with_gas r cumulative :: accumulate_gas cumulative l
  end.

(** ** Lazy accounts *)

(** The fee that a sender must be able to pay. *)
Definition max_fee (tx : TxEnv) : N :=
  let fee := saturating_add (saturating_mul (gas_limit tx) (gas_price tx)) (tx_value tx) in
  match max_fee_per_blob_gas tx with
  | Some blob_fee => saturating_add fee (saturating_mul (total_blob_gas tx) blob_fee)
  | None => fee
  end.

(** The balance and nonce after one more entry of the history of an account. *)
Definition evaluate_entry (tx : TxEnv) (entry : MemoryEntry) (account : AccountBasic) : outcome (PevmError + AccountBasic) :=
  match entry with
  | Data _ (BasicValue info) => Ok (inr info)
  | Data _ (LazyRecipient addition) => Ok (inr (mkAccount (saturating_add (balance account) addition) (nonce account)))
  | Data _ (LazySender subtraction) =>
      if bool_decide (balance account < max_fee tx)
      then Ok (inl (PevmExecutionError (TransactionError LackOfFundForMaxFee)))
      else Ok (inr (mkAccount (saturating_sub (balance account) subtraction) (u64_add (nonce account) 1)))
  | _ => Panic
  end.

(** The graph-based executor skips entries of another kind. *)
Definition graph_evaluate_entry (tx : TxEnv) (entry : MemoryEntry) (account : AccountBasic) : outcome (PevmError + AccountBasic) :=
  match entry with
  | Data _ (BasicValue _) | Data _ (LazyRecipient _) | Data _ (LazySender _) => evaluate_entry tx entry account
  | _ => Ok (inr account)
  end.

(** The nonce of a transaction must be the one it was executed with. *)
Definition check_nonce (tx_idx : TxIdx) (tx : TxEnv) (address : N) (account : AccountBasic) : option PevmError :=
  if bool_decide (caller tx = address) then
    match tx_nonce tx with
    | None => None
    | Some n =>
        if bool_decide (nonce account = 0) then Some UnreachableError
        else if bool_decide (n = nonce account - 1) then None
        else Some (NonceMismatch tx_idx (nonce account - 1) n)
    end
  else None.

Section block.
Context (hash_deterministic : MemoryLocation → MemoryLocationHash).
Context {st : Storage} {chain_rules : PevmChain} (spec_id : SpecId).
(** [evaluate_entry] or [graph_evaluate_entry] *)
Context (evaluate : TxEnv → MemoryEntry → AccountBasic → outcome (PevmError + AccountBasic)).

(** The account in the state of a result. *)
Definition evaluated_account (account : AccountBasic) (code_hash code : option N) (old : option EvmAccount) : option EvmAccount :=
  if is_eip_161_enabled spec_id && bool_decide (code_hash = None) && bool_decide (nonce account = 0) &&
     bool_decide (balance account = 0)
  then None
  else match old with
       | Some a => Some (mkEvmAccount (balance account) (nonce account) (evm_code_hash a) (evm_code a) (evm_storage a))
       | None => Some (mkEvmAccount (balance account) (nonce account) code_hash code [])
       end.

(** The loop over the history of an address; an index beyond the block is undefined
    behaviour. *)
Fixpoint evaluate_history (txs : list TxEnv) (address : N) (code_hash code : option N)
    (l : list (TxIdx * MemoryEntry)) (account : AccountBasic) (results : list PevmTxExecutionResult)
    : outcome (PevmError + list PevmTxExecutionResult) :=
  match l with
  | [] => Ok (inr results)
  | (i, entry) :: l =>
      tx ← expect (txs !! i);
      r ← evaluate tx entry account;
      match r with
      | inl e => Ok (inl e)
      | inr account =>
          match check_nonce i tx address account with
          | Some e => Ok (inl e)
          | None =>
              result ← expect (results !! i);
              let old := mjoin (tx_state result !! address) in
              evaluate_history txs address code_hash code l account
                (<[i := with_state result (<[address := evaluated_account account code_hash code old]> (tx_state result))]> results)
          end
      end
  end.

(** The entries of a location in the order of the transactions. *)
Definition write_history (written : gmap TxIdx MemoryEntry) : list (TxIdx * MemoryEntry) :=
  omap (λ i, (λ e, (i, e)) <$> written !! i) (seq 0 (S (max_list (map_to_list written).*1))).

(** Storage is read unless the first entry is an absolute value. *)
Definition initial_account (address : N) (l : list (TxIdx * MemoryEntry)) : AccountBasic :=
  match l with
  | (_, Data _ (BasicValue _)) :: _ => mkAccount 0 0
  | _ => match storage_basic address with inr (Some a) => a | _ => mkAccount 0 0 end
  end.

Definition evaluate_address (txs : list TxEnv) (m : MvMemory) (address : N) (results : list PevmTxExecutionResult)
    : outcome (PevmError + list PevmTxExecutionResult) :=
  match data m !! hash_deterministic (BasicLocation address) with
  | None => Ok (inr results)
  | Some written =>
      let l := write_history written in
      match storage_code_hash address with
      | inl e => Ok (inl (PevmStorageError e))
      | inr code_hash =>
          match (match code_hash with Some h => storage_code_by_hash h | None => inr None end) with
          | inl e => Ok (inl (PevmStorageError e))
          | inr code => evaluate_history txs address code_hash code l (initial_account address l) results
          end
      end
  end.

Fixpoint evaluate_addresses (txs : list TxEnv) (m : MvMemory) (addresses : list N) (results : list PevmTxExecutionResult)
    : outcome (PevmError + list PevmTxExecutionResult) :=
  match addresses with
  | [] => Ok (inr results)
  | a :: addresses =>
      r ← evaluate_address txs m a results;
      match r with inl e => Ok (inl e) | inr results => evaluate_addresses txs m addresses results end
  end.

(** The results with their cumulative gas, and the lazy accounts in them. *)
Definition evaluate_results (txs : list TxEnv) (addresses : list N) (g : Shared PevmTxExecutionResult ExecutionError)
    : outcome (PevmError + list PevmTxExecutionResult) :=
  results ← expect (collect_results (length txs) g);
  evaluate_addresses txs (mem g) addresses (accumulate_gas 0 results).
End block.

Section finish.
Context (hash_deterministic : MemoryLocation → MemoryLocationHash).
Context {st : Storage} {chain_rules : PevmChain} (spec_id : SpecId).

(** [execute_revm_parallel] once the threads have ended, up to the fallback: [None] when the
    block has to be executed sequentially. The lazy addresses are visited in some order. *)
Definition finish_parallel (txs : list TxEnv) (addresses : list N) (g : Shared PevmTxExecutionResult ExecutionError)
    : outcome (option (PevmError + list PevmTxExecutionResult)) :=
  match abort_reason g with
  | Some FallbackToSequential => Ok None
  | Some (ExecutionErrorReason e) => Ok (Some (inl (PevmExecutionError e)))
  | None => Some <$> evaluate_results hash_deterministic spec_id evaluate_entry txs addresses g
  end.

(** [GraphPevm::execute_revm_parallel], which also falls back when its scheduler has
    aborted because of the timeout. *)
Definition graph_finish_parallel (txs : list TxEnv) (addresses : list N) (g : Shared PevmTxExecutionResult ExecutionError)
    : outcome (option (PevmError + list PevmTxExecutionResult)) :=
  match abort_reason g with
  | Some FallbackToSequential => Ok None
  | Some (ExecutionErrorReason e) => Ok (Some (inl (PevmExecutionError e)))
  | None => if aborted (sched g) then Ok None
            else Some <$> evaluate_results hash_deterministic spec_id graph_evaluate_entry txs addresses g
  end.
End finish.

(** ** Sequential execution *)

(** revm's [Database]: the reads of the EVM, which may change caches of the database, and
    [DatabaseCommit]. [inl] is an error of the database. *)
Record Database (D : Type) := mkDatabase {
  db_basic : D → N → D * (N + option AccountInfo);
  db_storage : D → N → N → D * (N + N);
  db_code_by_hash : D → N → D * (N + N);
  db_has_storage : D → N → D * (N + bool);
  db_block_hash : D → N → D * (N + N);
  db_commit : D → list (N * Account) → D }.
Arguments db_basic {D} _ _ _.
Arguments db_storage {D} _ _ _ _.
Arguments db_code_by_hash {D} _ _ _.
Arguments db_has_storage {D} _ _ _.
Arguments db_block_hash {D} _ _ _.
Arguments db_commit {D} _ _ _.

(** [evm.transact()] over a database; an error of the database ends it. *)
Fixpoint transact_db {D Out} (db : Database D) (e : evm Out) (d : D) : D * (N + Out) :=
  match e with
  | EvmDone o => (d, inr o)
  | EvmBasic a k =>
      match db_basic db d a with (d, inl e) => (d, inl e) | (d, inr r) => transact_db db (k r) d end
  | EvmStorage a i k =>
      match db_storage db d a i with (d, inl e) => (d, inl e) | (d, inr r) => transact_db db (k r) d end
  | EvmCodeByHash h k =>
      match db_code_by_hash db d h with (d, inl e) => (d, inl e) | (d, inr r) => transact_db db (k r) d end
  | EvmHasStorage a k =>
      match db_has_storage db d a with (d, inl e) => (d, inl e) | (d, inr r) => transact_db db (k r) d end
  | EvmBlockHash x k =>
      match db_block_hash db d x with (d, inl e) => (d, inl e) | (d, inr r) => transact_db db (k r) d end
  end.

Record TxAccessSets := mkAccessSets { access_reads : gset MemoryLocationHash; access_writes : gset MemoryLocationHash }.

Record TrackingDB (D : Type) := mkTracking {
  inner : D;
  tracked_reads : gset MemoryLocationHash;
  tracked_lazy : gset N }.
Arguments mkTracking {D} _ _ _.
Arguments inner {D} _.
Arguments tracked_reads {D} _.
Arguments tracked_lazy {D} _.

Section sequential.
Context {chain_rules : PevmChain} (spec_id : SpecId).
Context (evm_of : TxEnv → evm (EvmError + ResultAndState)).
(** [err.to_string()] of an error of the database or of the EVM *)
Context (error_text : N + EvmError → N).

(** One iteration of the loop of a sequential executor: the result has the gas of the
    transaction only. *)
Definition execute_one {D} (db : Database D) (tx : TxEnv) (d : D) : outcome (PevmError + D * ResultAndState * PevmTxExecutionResult) :=
  match transact_db db (evm_of tx) d with
  | (_, inl e) => Ok (inl (PevmExecutionError (CustomError (error_text (inl e)))))
  | (_, inr (inl e)) => Ok (inl (PevmExecutionError (CustomError (error_text (inr e)))))
  | (d, inr (inr r)) =>
      result ← expect (from_revm spec_id r);
      Ok (inr (db_commit db d (result_state r), r, result))
  end.

Fixpoint sequential_loop {D} (db : Database D) (txs : list TxEnv) (cumulative : N) (d : D)
    : outcome (PevmError + list PevmTxExecutionResult) :=
  match txs with
  | [] => Ok (inr [])
  | tx :: txs =>
      r ← execute_one db tx d;
      match r with
      | inl e => Ok (inl e)
      | inr (d, _, result) =>
          let cumulative := u64_saturating_add cumulative (cumulative_gas_used result) in
          rest ← sequential_loop db txs cumulative d;
          Ok (match rest with inl e => inl e | inr rest => inr (with_gas result cumulative :: rest) end)
      end
  end.

Definition execute_revm_sequential {D} (db : Database D) (d : D) (txs : list TxEnv) : outcome (PevmError + list PevmTxExecutionResult) :=
  sequential_loop db txs 0 d.

(** The timed variant; [elapsed i] is what the clock measures for the [i]-th transaction. *)
Fixpoint timed_loop {D} (elapsed : nat → N) (db : Database D) (i : nat) (txs : list TxEnv) (cumulative : N) (d : D)
    : outcome (PevmError + list PevmTxExecutionResult * list N) :=
  match txs with
  | [] => Ok (inr ([], []))
  | tx :: txs =>
      r ← execute_one db tx d;
      match r with
      | inl e => Ok (inl e)
      | inr (d, _, result) =>
          let cumulative := u64_saturating_add cumulative (cumulative_gas_used result) in
          rest ← timed_loop elapsed db (S i) txs cumulative d;
          Ok (match rest with
              | inl e => inl e
              | inr (results, times) => inr (with_gas result cumulative :: results, elapsed i :: times)
              end)
      end
  end.
Definition execute_revm_sequential_timed {D} (elapsed : nat → N) (db : Database D) (d : D) (txs : list TxEnv)
    : outcome (PevmError + list PevmTxExecutionResult * list N) := timed_loop elapsed db 0 txs 0 d.

(** *** Access sets *)

Context (hash_deterministic : MemoryLocation → MemoryLocationHash) (tracked_coinbase : N).
(** revm's default for the method [has_storage] of a [Database], which [TrackingDB] does not define *)
Context (default_has_storage : N → N + bool).

(** [Address::ZERO] is 0. *)
Definition should_skip {D} (t : TrackingDB D) (address : N) : bool :=
  bool_decide (address = 0) || bool_decide (address = tracked_coinbase) || bool_decide (address ∈ tracked_lazy t).

Definition on_inner {D A} (t : TrackingDB D) (r : D * A) : TrackingDB D * A :=
  (mkTracking r.1 (tracked_reads t) (tracked_lazy t), r.2).

Definition tracking_storage {D} (db : Database D) (t : TrackingDB D) (address index : N) : TrackingDB D * (N + N) :=
  let t := if should_skip t address then t
           else mkTracking (inner t) ({[hash_deterministic (StorageLocation address index)]} ∪ tracked_reads t) (tracked_lazy t) in
  on_inner t (db_storage db (inner t) address index).

Definition tracking_database {D} (db : Database D) : Database (TrackingDB D) :=
  mkDatabase (TrackingDB D)
    (λ t a, on_inner t (db_basic db (inner t) a))
    (tracking_storage db)
    (λ t h, on_inner t (db_code_by_hash db (inner t) h))
    (λ t a, (t, default_has_storage a))
    (λ t x, on_inner t (db_block_hash db (inner t) x))
    (λ t s, mkTracking (db_commit db (inner t) s) (tracked_reads t) (tracked_lazy t)).

(** [is_created] is a flag of revm like [is_touched]. *)
Context (is_created : Account → bool).

Definition account_write_set (state : N * Account) : list MemoryLocationHash :=
  let '(address, account) := state in
  if bool_decide (address = 0) || bool_decide (address = tracked_coinbase) then []
  else (if bool_decide (acc_changed account = []) && is_touched account || is_created account
        then [hash_deterministic (BasicLocation address)] else []) ++
       ((λ '(slot, _), hash_deterministic (StorageLocation address slot)) <$> acc_changed account).

Definition extract_write_set_from_result (r : ResultAndState) : gset MemoryLocationHash :=
  list_to_set (result_state r ≫= account_write_set).

(** Whether the recipient of a transaction has no code; the read goes to the inner
    database. *)
Definition lazy_recipient {D} (db : Database D) (tx : TxEnv) (d : D) : D * bool :=
  match transact_to tx with
  | None => (d, false)
  | Some to =>
      match db_basic db d to with
      | (d, inl _) => (d, false)
      | (d, inr None) => (d, true)
      | (d, inr (Some info)) => (d, negb (has_code info))
      end
  end.

Definition prepare_tracking {D} (db : Database D) (tx : TxEnv) (t : TrackingDB D) : TrackingDB D :=
  let '(d, lazy) := lazy_recipient db tx (inner t) in
  mkTracking d (tracked_reads t)
    (if lazy then {[caller tx]} ∪ match transact_to tx with Some to => {[to]} | None => ∅ end else ∅).

Fixpoint access_set_loop {D} (db : Database D) (txs : list TxEnv) (cumulative : N) (t : TrackingDB D)
    : outcome (PevmError + list PevmTxExecutionResult * list TxAccessSets) :=
  match txs with
  | [] => Ok (inr ([], []))
  | tx :: txs =>
      r ← execute_one (tracking_database db) tx (prepare_tracking db tx t);
      match r with
      | inl e => Ok (inl e)
      | inr (t, state, result) =>
          let sets := mkAccessSets (tracked_reads t) (extract_write_set_from_result state) in
          let cumulative := u64_saturating_add cumulative (cumulative_gas_used result) in
          rest ← access_set_loop db txs cumulative (mkTracking (inner t) ∅ (tracked_lazy t));
          Ok (match rest with
              | inl e => inl e
              | inr (results, access) => inr (with_gas result cumulative :: results, sets :: access)
              end)
      end
  end.

Definition execute_revm_sequential_with_access_sets {D} (db : Database D) (d : D) (txs : list TxEnv)
    : outcome (PevmError + list PevmTxExecutionResult * list TxAccessSets) :=
  access_set_loop db txs 0 (mkTracking d ∅ ∅).
End sequential.

(** ** Pevm::execute *)

(** The transactions of a block, [None] when the block has their hashes only. *)
Definition block_tx_envs (transactions : option (list RpcTransaction)) : PevmError + list TxEnv :=
  match transactions with
  | None => inl MissingTransactionData
  | Some l => match mapM get_tx_env l with Some txs => inr txs | None => inl InvalidTransaction end
  end.

(** Small blocks are executed sequentially. *)
Definition is_sequential (force_sequential : bool) (txs : list TxEnv) (concurrency_level block_gas_used : N) : bool :=
  force_sequential || bool_decide (N.of_nat (length txs) < concurrency_level) || bool_decide (block_gas_used < 4000000).

(** For Ethereum, where the spec of a block is never an error; [sequential] and
    [parallel] are the two executors. *)
Definition execute (blob_gas_price : N → bool → N)
    (sequential parallel : SpecId → BlockEnv → list TxEnv → outcome (PevmError + list PevmTxExecutionResult))
    (header : Header) (transactions : option (list RpcTransaction)) (concurrency_level : N) (force_sequential : bool)
    : outcome (PevmError + list PevmTxExecutionResult) :=
  let spec_id := get_block_spec header in
  let block_env := get_block_env blob_gas_price header spec_id in
  match block_tx_envs transactions with
  | inl e => Ok (inl e)
  | inr txs =>
      if is_sequential force_sequential txs concurrency_level (header_gas_used header)
      then sequential spec_id block_env txs else parallel spec_id block_env txs
  end.
