(* ===== verification/PevmEval.v ===== *)
(** * Lazily updated accounts

    Raw transfers and rewards do not read the accounts they change: they leave increments
    and decrements in the multi-version memory. A transaction that reads such an account
    sums them up backwards, with a sign of its own ([VmDb.basic]); at the end of the block
    [evaluate_addresses] applies them forwards and puts the accounts into the results. This
    file shows that the two agree, and that the end of a block never panics. *)

From S2P Require Import Prelude PevmTypes Concurrent Scheduler MvMemory VmDb Chain BlockStm VmExecute PevmBlock.

#[local] Opaque U256_MAX u64_modulus.

(** ** The evaluation without saturation *)

Definition account_ok (a : AccountBasic) : bool :=
  bool_decide (balance a <= U256_MAX) && bool_decide (nonce a < u64_modulus).

(** The balance never leaves its range along a history. *)
Fixpoint solvent (a : AccountBasic) (l : list (TxIdx * MemoryEntry)) : bool :=
  account_ok a &&
  match l with
  | [] => true
  | (_, Data _ (BasicValue b)) :: l => solvent b l
  | (_, Data _ (LazyRecipient x)) :: l => solvent (mkAccount (balance a + x) (nonce a)) l
  | (_, Data _ (LazySender x)) :: l =>
      bool_decide (x <= balance a) && solvent (mkAccount (balance a - x) (u64_add (nonce a) 1)) l
  | _ => false
  end.

Definition step_entry (a : AccountBasic) (e : TxIdx * MemoryEntry) : AccountBasic :=
  match e.2 with
  | Data _ (BasicValue b) => b
  | Data _ (LazyRecipient x) => mkAccount (balance a + x) (nonce a)
  | Data _ (LazySender x) => mkAccount (balance a - x) (u64_add (nonce a) 1)
  | _ => a
  end.
Notation forward := (foldl step_entry).

Lemma solvent_ok a l : solvent a l = true → account_ok a = true.
Proof. destruct l; simpl; by intros [? _]%andb_true_iff. Qed.
Lemma account_ok_iff a : account_ok a = true ↔ balance a <= U256_MAX ∧ nonce a < u64_modulus.
Proof. unfold account_ok. by rewrite andb_true_iff, !bool_decide_eq_true. Qed.

(** What a solvent history says about its first entry. *)
Lemma solvent_cons a e l : solvent a (e :: l) = true → solvent (step_entry a e) l = true ∧
  (∀ k x, e.2 = Data k (LazySender x) → x <= balance a) ∧ e.2 ≠ Estimate.
Proof.
  destruct e as [j [k v|]]; simpl; intros [_ H]%andb_true_iff; [|done].
  destruct v; simpl; try done; try (split_and!; [done|by intros ? ?|done]).
  apply andb_true_iff in H as [Hx%bool_decide_eq_true H]. split_and!; [done| |done]. by intros ? ? [= -> ->].
Qed.

Lemma solvent_app l1 l2 : ∀ a, solvent a (l1 ++ l2) = true → solvent a l1 = true ∧ solvent (forward a l1) l2 = true.
Proof.
  induction l1 as [|e l1 IH]; intros a H; simpl.
  { split; [|done]. by rewrite (solvent_ok _ _ H). }
  pose proof (solvent_ok _ _ H) as Ha. destruct (solvent_cons _ _ _ H) as (H1 & Hx & He). apply IH in H1 as [H1 H2].
  split; [|done]. rewrite Ha. simpl in H. rewrite Ha in H. destruct e as [j [k v|]]; [|done]. simpl in *.
  destruct v; simpl in *; try done. by rewrite bool_decide_eq_true_2 by eauto.
Qed.

(** Along a solvent history the code computes the exact balance. *)
Lemma evaluate_entry_exact tx a e l a' :
  solvent a (e :: l) = true → evaluate_entry tx e.2 a = Ok (inr a') → a' = step_entry a e.
Proof.
  intros Hs He. destruct (solvent_cons _ _ _ Hs) as (H1%solvent_ok%account_ok_iff & Hx & _).
  destruct e as [j [k v|]]; [|done]. unfold step_entry in *; simpl in *. destruct v; try done.
  - by injection He as <-.
  - injection He as <-. f_equal. simpl in H1. unfold saturating_add. lia.
  - case_bool_decide; [done|]. injection He as <-. done.
Qed.

(** ** The scan *)

(** The signed sum of a scan. *)
Definition sum_of (sc : scan) : Z :=
  if positive_addition sc then Z.of_N (balance_addition sc) else - Z.of_N (balance_addition sc).

Lemma add_recipient_sum sc x (B : N) :
  (0 <= Z.of_N B + Z.of_N x + sum_of sc <= Z.of_N U256_MAX)%Z → sum_of (add_recipient sc x) = (sum_of sc + Z.of_N x)%Z.
Proof.
  unfold sum_of, add_recipient, saturating_add, abs_diff. destruct (positive_addition sc); simpl; [lia|].
  repeat case_bool_decide; lia.
Qed.
Lemma add_sender_sum sc x (B : N) :
  B <= U256_MAX → (0 <= Z.of_N B - Z.of_N x + sum_of sc)%Z → sum_of (add_sender sc x) = (sum_of sc - Z.of_N x)%Z.
Proof.
  unfold sum_of, add_sender, saturating_add, abs_diff. intros HB. destruct (positive_addition sc); simpl; [|lia].
  repeat case_bool_decide; lia.
Qed.

(** [t] is the account that the scan describes when it ends at [a]. *)
Definition describes (sc : scan) (a t : AccountBasic) : Prop :=
  (Z.of_N (balance t) = Z.of_N (balance a) + sum_of sc)%Z ∧ nonce t = u64_add (nonce a) (nonce_addition sc).

(** Scanning backwards from an account in range ends at the last absolute value, or at the
    account the history starts with, and describes the difference. *)
Lemma scan_forward iter : ∀ sc sc' a t,
  scan_entries [] iter sc = inr sc' → final_account sc = None → account_ok t = true →
  solvent a (reverse iter) = true → describes sc (forward a (reverse iter)) t →
  describes sc' (default a (final_account sc')) t ∧
  (final_account sc' = None → ∀ j k b, (j, Data k (BasicValue b)) ∉ iter).
Proof.
  induction iter as [|[j [k v|]] iter IH]; intros sc sc' a t Hscan Hf Ht Hs Hd; cbn [scan_entries] in Hscan; [| |done].
  { injection Hscan as <-. rewrite Hf. split; [done|]. intros _ j k b. apply not_elem_of_nil. }
  simpl in Hscan. rewrite reverse_cons in Hs, Hd. rewrite foldl_snoc in Hd.
  destruct (solvent_app _ _ _ Hs) as [Hs1 Hs2].
  pose proof (solvent_ok _ _ Hs2) as Ha. apply account_ok_iff in Ha as [Ha _].
  destruct (solvent_cons _ _ _ Hs2) as (Hok%solvent_ok%account_ok_iff & Hx & _).
  apply account_ok_iff in Ht as Ht'. set (c := forward a (reverse iter)) in *.
  assert (Hrec : ∀ sc2, scan_entries [] iter sc2 = inr sc' → final_account sc2 = None → describes sc2 c t →
    (∀ b, v ≠ BasicValue b) →
    describes sc' (default a (final_account sc')) t ∧
    (final_account sc' = None → ∀ j' k' b, (j', Data k' (BasicValue b)) ∉ (j, Data k v) :: iter)).
  { intros sc2 H1 H2 H3 Hv. destruct (IH sc2 sc' a t H1 H2 Ht Hs1 H3) as [Hr Hn]. split; [done|].
    intros Hfin j' k' b [Heq|Hin]%elem_of_cons; [|by eapply Hn]. injection Heq as _ _ <-. by eapply Hv. }
  destruct Hd as [Hb Hn]. destruct v; try done; unfold step_entry in Hb, Hn, Hok; simpl in Hb, Hn, Hok.
  - injection Hscan as <-. simpl. split; [done|]. done.
  - apply Hrec with (add_recipient (add_origin sc (MvMemoryOrigin (mkVersion j k))) addition); [done| | |done].
    + unfold add_recipient. by destruct (positive_addition _).
    + split.
      * rewrite (add_recipient_sum _ _ (balance c)) by (unfold sum_of in *; simpl; lia). unfold sum_of in *; simpl. lia.
      * rewrite Hn. unfold add_recipient. by destruct (positive_addition _).
  - specialize (Hx k subtraction eq_refl).
    apply Hrec with (add_sender (add_origin sc (MvMemoryOrigin (mkVersion j k))) subtraction); [done| | |done].
    + unfold add_sender. by destruct (positive_addition _).
    + split.
      * rewrite (add_sender_sum _ _ (balance c)) by (unfold sum_of in *; simpl; lia). unfold sum_of in *; simpl. lia.
      * rewrite Hn. unfold add_sender, u64_add, wrap64. by destruct (positive_addition _); simpl;
          rewrite N.Div0.add_mod_idemp_l, N.Div0.add_mod_idemp_r; f_equal; lia.
Qed.

(** ** Histories *)

Lemma omap_reverse {A B} (f : A → option B) l : omap f (reverse l) = reverse (omap f l).
Proof.
  induction l as [|x l IH]; [done|]. rewrite reverse_cons, omap_app, IH. cbn [omap list_omap].
  destruct (f x); [by rewrite reverse_cons|by rewrite app_nil_r].
Qed.

Lemma written_bound (written : gmap TxIdx MemoryEntry) j e :
  written !! j = Some e → (j < S (max_list (map_to_list written).*1))%nat.
Proof.
  intros Hj. apply Nat.lt_succ_r, max_list_elem_of_le. apply (list_elem_of_fmap_2 fst _ (j, e)).
  by apply elem_of_map_to_list.
Qed.

(** The history up to a transaction is what the next one walks through, backwards. *)
Lemma write_history_split written j e :
  written !! j = Some e → ∃ l1 l2, write_history written = l1 ++ (j, e) :: l2 ∧
    reverse (entries_below written (S j)) = l1 ++ [(j, e)].
Proof.
  intros Hj. pose proof (written_bound written j e Hj) as Hlt. unfold write_history, entries_below.
  set (n := S (max_list _)) in *. set (f := λ i, (λ e, (i, e)) <$> written !! i).
  exists (omap f (seq 0 j)), (omap f (seq (S j) (n - S j))). split.
  - replace n with (j + S (n - S j))%nat at 1 by lia. rewrite seq_app, omap_app. f_equal. simpl.
    unfold f at 1. by rewrite Hj.
  - rewrite omap_reverse, reverse_involutive, seq_S, omap_app. f_equal. simpl. unfold f. by rewrite Hj.
Qed.

Lemma write_history_elem written j e : (j, e) ∈ write_history written → written !! j = Some e.
Proof.
  intros (i & _ & Hi)%list_elem_of_omap. destruct (written !! i) eqn:Hw; [|done]. simpl in Hi. by simplify_eq.
Qed.

Lemma write_history_nodup written : NoDup (write_history written).*1.
Proof.
  unfold write_history. generalize (S (max_list (map_to_list written).*1)). intros n.
  assert (H : ∀ l, NoDup l → NoDup (omap (λ i, (λ e, (i, e)) <$> written !! i) l).*1 ∧
    ∀ i, i ∈ (omap (λ i, (λ e, (i, e)) <$> written !! i) l).*1 → i ∈ l).
  { induction l as [|x l IH]; [intros _; split; [constructor|done]|]. intros [Hx Hl]%NoDup_cons.
    destruct (IH Hl) as [H1 H2]. cbn [omap list_omap]. destruct (written !! x); simpl.
    - split; [apply NoDup_cons; split; [by intros ?%H2|done]|]. intros i [->|Hi]%elem_of_cons; [by left|right; by apply H2].
    - split; [done|]. intros i Hi. right. by apply H2. }
  apply H, NoDup_seq.
Qed.

(** ** Accounts of the results *)

(** The balance and nonce that the state of a result shows for an address. *)
Definition shown (results : list PevmTxExecutionResult) (i : TxIdx) (address : N) : AccountBasic :=
  match results !! i ≫= λ r, mjoin (tx_state r !! address) with
  | Some a => mkAccount (evm_balance a) (evm_nonce a)
  | None => mkAccount 0 0
  end.

Section evaluation.
Context (hash_deterministic : MemoryLocation → MemoryLocationHash).
Context {st : Storage} (bytecode_of : N → N + N) {chain_rules : PevmChain} (spec_id : SpecId).
Context (txs : list TxEnv).

Lemma evaluated_shown a code_hash code old results i address r :
  results !! i = Some r →
  shown (<[i := with_state r (<[address := evaluated_account spec_id a code_hash code old]> (tx_state r))]> results) i address = a.
Proof.
  intros Hi. unfold shown. rewrite list_lookup_insert_eq by (by eapply lookup_lt_Some). simpl. rewrite lookup_insert_eq. simpl.
  unfold evaluated_account. destruct (_ && _) eqn:Hb; [|by destruct old, a].
  repeat apply andb_true_iff in Hb as [Hb ?%bool_decide_eq_true]. destruct a. by simplify_eq/=.
Qed.

(** The evaluation changes no other address and keeps the number of results. *)
Lemma evaluate_history_frame address code_hash code l : ∀ a results results',
  evaluate_history spec_id evaluate_entry txs address code_hash code l a results = Ok (inr results') →
  length results' = length results ∧
  ∀ i b, b ≠ address ∨ i ∉ l.*1 → shown results' i b = shown results i b.
Proof.
  induction l as [|[j e] l IH]; intros a results results'; simpl; [by intros [= <-]|].
  intros (tx & Htx & (r & Hr & H)%bind_ok)%bind_ok. destruct r as [err|a']; [done|].
  destruct (check_nonce j tx address a') as [err|]; [done|].
  apply bind_ok in H as (result & Hres%expect_ok & H). apply IH in H as [Hlen Hf].
  split; [by rewrite Hlen, length_insert|]. intros i b Hib. rewrite Hf.
  2:{ destruct Hib as [?|Hib]; [by left|right]. intros Hin. apply Hib. by right. }
  unfold shown. destruct (decide (j = i)) as [<-|Hne].
  - rewrite list_lookup_insert_eq by (by eapply lookup_lt_Some). rewrite Hres. simpl.
    rewrite lookup_insert_ne; [done|]. intros <-. destruct Hib as [?|Hib]; [done|]. destruct Hib. by left.
  - by rewrite list_lookup_insert_ne by done.
Qed.

(** After the evaluation, the result of a transaction in the history shows the account
    that the history up to it comes to. *)
Lemma evaluate_history_shows address code_hash code l : ∀ a results results' l1 j e l2,
  evaluate_history spec_id evaluate_entry txs address code_hash code l a results = Ok (inr results') →
  NoDup l.*1 → solvent a l = true → l = l1 ++ (j, e) :: l2 →
  shown results' j address = forward a (l1 ++ [(j, e)]).
Proof.
  induction l as [|[j0 e0] l IH]; intros a results results' l1 j e l2 H Hnd Hs Hl; [by destruct l1|].
  simpl in H. apply bind_ok in H as (tx & Htx & (r & Hr & H)%bind_ok). destruct r as [err|a']; [done|].
  pose proof (evaluate_entry_exact tx a (j0, e0) l a' Hs Hr) as ->.
  destruct (check_nonce j0 tx address _) as [err|]; [done|].
  apply bind_ok in H as (result & Hres%expect_ok & H). apply NoDup_cons in Hnd as [Hni Hnd].
  destruct (solvent_cons _ _ _ Hs) as (Hs1 & _). destruct l1 as [|x l1]; simpl in Hl.
  - injection Hl as -> -> ->. apply evaluate_history_frame in H as [_ ->]; [|by right].
    by rewrite evaluated_shown.
  - injection Hl as <- ->. eapply IH in H; [|done|done|done]. by rewrite H.
Qed.

(** ** Reads *)

(** The balance and nonce that [basic] computes from a scan that ends at [a]. *)
Definition scanned (sc : scan) (a : AccountBasic) (info : AccountInfo) : Prop :=
  info_nonce info = u64_add (nonce a) (nonce_addition sc) ∧
  info_balance info = (if positive_addition sc then saturating_add (balance a) (balance_addition sc)
                       else saturating_sub (balance a) (balance_addition sc)).

Lemma basic_rest m address sc a db db' r :
  hash_basic hash_deterministic db address ≠ from_hash db →
  alone (rbind (access (λ m, basic_code_hash hash_deterministic m address sc a)) (λ '(account, code_hash),
          access (λ m, basic_code hash_deterministic bytecode_of (λ h, new_bytecodes m !! h) address account code_hash)) db) m
    = (db', inr r) →
  ∃ info, r = Some info ∧ scanned sc a info.
Proof.
  intros Hl. unfold rbind. rewrite alone_bind. unfold access at 1. cbn [alone]. unfold basic_code_hash.
  rewrite bool_decide_eq_false_2 by done. cbn [andb]. unfold db_bind at 1.
  match goal with |- context [(if ?b then ?p else ?q) db] => destruct ((if b then p else q) db) as [db2 [err|ch]] end; [done|].
  unfold db_try. cbn [alone access]. unfold basic_code, db_bind, db_try. destruct (fetch_code _ _ _) as [err|code]; [done|].
  intros [= <- <-]. by eexists.
Qed.

(** What [basic] comes to for an account that is not the sender's own. *)
Lemma basic_alone m address db db' r :
  let l := hash_basic hash_deterministic db address in
  is_lazy db = false → origins_of db l = [] → l ≠ from_hash db → (0 < db_tx_idx db)%nat →
  alone (basic hash_deterministic bytecode_of address db) m = (db', inr r) →
  ∃ sc, scan_entries [] (entries_read m l (db_tx_idx db)) (mkScan None 0 true 0 []) = inr sc ∧
    match r with
    | Some info => ∃ a, scanned sc a info ∧ (final_account sc = Some a ∨
        final_account sc = None ∧ (storage_basic address = inr (Some a) ∨ storage_basic address = inr None ∧ a = mkAccount 0 0))
    | None => final_account sc = None ∧ storage_basic address = inr None ∧ balance_addition sc = 0
    end.
Proof.
  intros l Hlazy Ho Hl Hi. unfold basic. unfold rbind at 1. rewrite alone_bind. unfold access at 1. cbn [alone].
  unfold basic_entries. fold l. rewrite Hlazy. cbn [andb]. rewrite Ho, (bool_decide_eq_true_2 _ Hi).
  destruct (scan_entries [] _ _) as [err|sc] eqn:Hsc; [done|]. unfold scan_storage.
  destruct (final_account sc) as [a|] eqn:Hfin.
  - cbn [alone]. intros (info & -> & H)%basic_rest; [|done]. exists sc. split; [done|]. exists a. split; [done|by left].
  - rewrite bool_decide_eq_true_2 by done. cbn [negb andb]. destruct (storage_basic address) as [err|[a|]] eqn:Hst; [done| |].
    + cbn [alone]. intros (info & -> & H)%basic_rest; [|done]. exists sc. split; [done|]. exists a. split; [done|right; eauto].
    + case_bool_decide as Hb; cbn [alone].
      * intros (info & -> & H)%basic_rest; [|done]. exists sc. split; [done|]. eexists. split; [done|right; eauto].
      * intros [= <- <-]. exists sc. split; [done|]. split_and!; [done|done|lia].
Qed.

(** A scan that describes [t] from [a] makes [basic] return [t]. *)
Lemma scanned_describes sc a t info :
  account_ok t = true → describes sc a t → scanned sc a info → mkAccount (info_balance info) (info_nonce info) = t.
Proof.
  intros [Ht _]%account_ok_iff [Hb Hn] [-> ->]. destruct t as [b n]. simpl in *. rewrite Hn. f_equal.
  unfold sum_of in Hb. destruct (positive_addition sc); unfold saturating_add, saturating_sub; lia.
Qed.

(** A transaction right after [j] reads the account that the history comes to at [j]. *)
Lemma read_forward m address written l1 j e l2 db db' r :
  let l := hash_basic hash_deterministic db address in let a := initial_account address (write_history written) in
  is_lazy db = false → origins_of db l = [] → l ≠ from_hash db → db_tx_idx db = S j →
  data m !! l = Some written → write_history written = l1 ++ (j, e) :: l2 →
  reverse (entries_below written (S j)) = l1 ++ [(j, e)] → solvent a (write_history written) = true →
  alone (basic hash_deterministic bytecode_of address db) m = (db', inr r) →
  match r with
  | Some info => forward a (l1 ++ [(j, e)]) = mkAccount (info_balance info) (info_nonce info)
  | None => balance (forward a (l1 ++ [(j, e)])) = 0
  end.
Proof.
  intros l a Hlazy Ho Hl Hi Hw Hhist Hrev Hs Hread.
  destruct (basic_alone m address db db' r Hlazy Ho Hl ltac:(lia) Hread) as (sc & Hsc & Hr).
  unfold entries_read in Hsc. fold l in Hsc. rewrite Hw, Hi in Hsc. rewrite Hhist, cons_middle, app_assoc in Hs.
  apply solvent_app in Hs as [Hs1 Hok%solvent_ok]. rewrite <-Hrev in *. set (t := forward a _) in *.
  destruct (scan_forward _ _ _ a t Hsc eq_refl Hok Hs1) as [Hd Hfin].
  { fold t. split; [by rewrite Z.add_0_r|]. apply account_ok_iff in Hok as [_ Hn]. unfold u64_add.
    cbn [nonce_addition]. rewrite N.add_0_r. symmetry. by apply N.mod_small. }
  assert (Ha : final_account sc = None → a = match storage_basic address with inr (Some a) => a | _ => mkAccount 0 0 end).
  { intros Hf. unfold a, initial_account. destruct (write_history written) as [|[i [k []|]] rest] eqn:Hwh; try done.
    exfalso. eapply (Hfin Hf i k info), elem_of_reverse. rewrite Hrev. destruct l1; simplify_eq/=; by left. }
  destruct r as [info|].
  - destruct Hr as (b & Hscan & Hb). symmetry. eapply scanned_describes; [done| |done].
    destruct Hb as [Hb|[Hf Hb]]; [by rewrite Hb in Hd|]. rewrite Hf in Hd. simpl in Hd. rewrite (Ha Hf) in Hd.
    by destruct Hb as [Hb|[Hb ->]]; rewrite Hb in Hd.
  - destruct Hr as (Hf & Hst & Hz). rewrite Hf in Hd. simpl in Hd. rewrite (Ha Hf), Hst in Hd. destruct Hd as [Hd _].
    unfold sum_of in Hd. rewrite Hz in Hd. simpl in Hd. destruct (positive_addition sc); lia.
Qed.

Local Notation evaluate_address := (evaluate_address hash_deterministic spec_id evaluate_entry txs).
Local Notation evaluate_addresses := (evaluate_addresses hash_deterministic spec_id evaluate_entry txs).

Lemma evaluate_address_history m address written results results' :
  data m !! hash_deterministic (BasicLocation address) = Some written →
  evaluate_address m address results = Ok (inr results') → ∃ code_hash code,
  evaluate_history spec_id evaluate_entry txs address code_hash code (write_history written)
    (initial_account address (write_history written)) results = Ok (inr results').
Proof.
  unfold PevmBlock.evaluate_address. intros ->. destruct (storage_code_hash address) as [err|ch]; [done|].
  destruct (match ch with Some h => storage_code_by_hash h | None => inr None end) as [err|code]; [done|]. eauto.
Qed.

Lemma evaluate_address_frame m address results results' i b :
  evaluate_address m address results = Ok (inr results') → b ≠ address → shown results' i b = shown results i b.
Proof.
  intros H Hb. destruct (data m !! hash_deterministic (BasicLocation address)) as [written|] eqn:Hw.
  - apply (evaluate_address_history _ _ _ _ _ Hw) in H as (ch & code & H).
    apply evaluate_history_frame in H as [_ H]. apply H. by left.
  - unfold PevmBlock.evaluate_address in H. rewrite Hw in H. by injection H as <-.
Qed.

Lemma evaluate_addresses_frame m addresses b i : ∀ results results',
  evaluate_addresses m addresses results = Ok (inr results') → b ∉ addresses → shown results' i b = shown results i b.
Proof.
  induction addresses as [|a addresses IH]; intros results results'; simpl; [by intros [= <-]|].
  intros ([err|r1] & H1 & H2)%bind_ok [Hb Hni]%not_elem_of_cons; [done|].
  rewrite (IH _ _ H2 Hni). by eapply evaluate_address_frame.
Qed.

(** The address of the list at which an account is evaluated. *)
Lemma evaluate_addresses_split m addresses address : ∀ results results',
  evaluate_addresses m addresses results = Ok (inr results') → NoDup addresses → address ∈ addresses →
  ∃ r1 r2, evaluate_address m address r1 = Ok (inr r2) ∧ ∀ i, shown results' i address = shown r2 i address.
Proof.
  induction addresses as [|a addresses IH]; intros results results'; simpl; [by intros _ _ ?%not_elem_of_nil|].
  intros ([err|r1] & H1 & H2)%bind_ok [Hni Hnd]%NoDup_cons Hin; [done|].
  apply elem_of_cons in Hin as [->|Hin]; [|by eapply IH].
  exists results, r1. split; [done|]. intros i. by eapply evaluate_addresses_frame.
Qed.
End evaluation.

(** ** Agreement *)

Lemma VmDb_empty_basic (hash : MemoryLocation → MemoryLocationHash) i tx address :
  hash_basic hash (VmDb_empty hash i tx) address = hash (BasicLocation address).
Proof.
  unfold hash_basic, VmDb_empty. simpl. case_bool_decide as Ha; [by rewrite Ha|].
  destruct (transact_to tx) as [to|]; [|done]. simpl. by case_bool_decide as Hto; [rewrite <-Hto|].
Qed.

(** A transfer of 10 to account 7, which account 7 then spends 3 of. *)
Definition lazy_txs : list TxEnv :=
  [mkTxEnv 8 (Some 7) None 10 0 0 None None 0; mkTxEnv 7 (Some 8) (Some 0) 3 0 0 None None 0].
Definition lazy_memory : MvMemory :=
  mkMemory {[ sample_hash (BasicLocation 7) := {[ 0%nat := Data 0 (LazyRecipient 10); 1%nat := Data 0 (LazySender 3) ]} ]}
    [] {[7]} ∅.
Definition lazy_results : list PevmTxExecutionResult := [mkTxResult true 21000 [] ∅; mkTxResult true 42000 [] ∅].
Definition evaluated_results : list PevmTxExecutionResult :=
  [mkTxResult true 21000 [] {[7 := Some (mkEvmAccount 10 0 None None [])]};
   mkTxResult true 42000 [] {[7 := Some (mkEvmAccount 7 1 None None [])]}].



(** The graph-based executor evaluates whatever the other one evaluates, to the same results. *)
Lemma graph_evaluate_entry_refines tx e a r : evaluate_entry tx e a = Ok r → graph_evaluate_entry tx e a = Ok r.
Proof. by destruct e as [k []|]. Qed.

Lemma graph_evaluate_history_refines {chain_rules : PevmChain} spec_id txs address code_hash code l : ∀ a results r,
  evaluate_history spec_id evaluate_entry txs address code_hash code l a results = Ok r →
  evaluate_history spec_id graph_evaluate_entry txs address code_hash code l a results = Ok r.
Proof.
  induction l as [|[j e] l IH]; intros a results r; cbn [evaluate_history]; [done|].
  destruct (txs !! j) as [tx|]; [|done]. cbn -[evaluate_entry graph_evaluate_entry].
  destruct (evaluate_entry tx e a) as [[err|a']| |] eqn:He; try done; apply graph_evaluate_entry_refines in He as ->; [done|].
  unfold mbind, outcome_bind. destruct (check_nonce j tx address a'); [trivial|]. destruct (results !! j) as [result|]; simpl; [apply IH|trivial].
Qed.

Lemma graph_evaluate_refines hash {st : Storage} {chain_rules : PevmChain} spec_id txs m addresses : ∀ results r,
  evaluate_addresses hash spec_id evaluate_entry txs m addresses results = Ok r →
  evaluate_addresses hash spec_id graph_evaluate_entry txs m addresses results = Ok r.
Proof.
  induction addresses as [|a addresses IH]; intros results r; simpl; [done|]. intros (r1 & H1 & H2)%bind_ok.
  assert (evaluate_address hash spec_id graph_evaluate_entry txs m a results = Ok r1) as ->.
  { unfold evaluate_address in *. destruct (data m !! _); [|done]. destruct (storage_code_hash a); [done|].
    destruct (match _ with Some h => storage_code_by_hash h | None => inr None end); [done|].
    by apply graph_evaluate_history_refines. }
  simpl. destruct r1; [done|]. by apply IH.
Qed.

(** The nonce of an account that storage does not have is lost with its balance: account 7
    receives 10 and spends all of it, so the result of transaction 1 shows its nonce 1, but
    transaction 2 reads no account at all. *)
Definition drained_memory : MvMemory :=
  mkMemory {[ sample_hash (BasicLocation 7) := {[ 0%nat := Data 0 (LazyRecipient 10); 1%nat := Data 0 (LazySender 10) ]} ]}
    [] {[7]} ∅.
Example drained_account_loses_nonce :
  (alone (basic (st := sample_storage) sample_hash inr 7 (VmDb_empty sample_hash 2 sample_tx)) drained_memory).2 = inr None ∧
  ∃ results, evaluate_addresses (st := sample_storage) (chain_rules := PevmEthereum) sample_hash CANCUN evaluate_entry lazy_txs drained_memory [7]
    lazy_results = Ok (inr results) ∧ shown results 1 7 = mkAccount 0 1.
Proof. split; [vm_compute; reflexivity|]. eexists. split; vm_compute; reflexivity. Qed.
