(* ===== verification/PevmFinish.v ===== *)
(** * The end of a block

    When the worker threads have ended, [execute_revm_parallel] unwraps the results and
    evaluates the lazily updated accounts with unchecked indices and an [unreachable!] for
    estimates and values of another type. This file shows that none of these can happen: the
    invariants of the executor (BlockStmProv) rule them out. *)

From S2P Require Import Prelude PevmTypes Concurrent Scheduler MvMemory VmDb Chain BlockStm VmExecute VmRepeat.
From S2P Require Import BlockStmInv BlockStmSafety BlockStmCorrect BlockStmProv BlockStmSerial PevmBlock PevmEval.

(** ** Values of accounts *)

Definition account_value (v : MemoryValue) : Prop :=
  match v with BasicValue _ | LazyRecipient _ | LazySender _ => True | _ => False end.

Lemma add_reward_value amount v v' : add_reward amount v = inr v' → account_value v'.
Proof. by destruct v; intros [= <-]. Qed.

(** A reward adds or adjusts a write of the recipient, and nothing else. *)
Lemma apply_reward_writes l amount ws : ∀ ws',
  apply_reward l amount ws = inr ws' →
  l ∈ ws'.*1 ∧ ∀ x v, (x, v) ∈ ws' → (x, v) ∈ ws ∨ x = l ∧ account_value v.
Proof.
  induction ws as [|[y value] ws IH]; intros ws'; simpl.
  { intros [= <-]. split; [by left|]. intros x v [= -> ->]%list_elem_of_singleton. by right. }
  case_bool_decide as Hy.
  - destruct (add_reward amount value) as [e|value'] eqn:Ha; [done|]. intros [= <-]. subst y. split; [by left|].
    intros x v [[= -> ->]|Hin]%elem_of_cons; [right; split; [done|by eapply add_reward_value]|left; by right].
  - destruct (apply_reward l amount ws) as [e|ws1]; [done|]. intros [= <-]. destruct (IH ws1 eq_refl) as [H1 H2].
    split; [by right|]. intros x v [Heq|Hin]%elem_of_cons; [left; rewrite Heq; by left|].
    destruct (H2 x v Hin); [left; by right|by right].
Qed.

Section writes.
Context (hash_deterministic : MemoryLocation → MemoryLocationHash) (hash_inj : Inj (=) (=) hash_deterministic).
Context {chain_rules : PevmChain} (spec_id : SpecId) (block_env : BlockEnv).

Lemma account_writes_value db a acc b v :
  (hash_deterministic (BasicLocation b), v) ∈ account_writes hash_deterministic spec_id db (a, acc) → account_value v.
Proof.
  unfold account_writes. destruct (is_selfdestructed acc).
  { intros [= H%hash_inj _]%list_elem_of_singleton. done. }
  rewrite elem_of_app. intros [Hin|Hin].
  - destruct (is_touched acc); [|by apply not_elem_of_nil in Hin]. apply elem_of_app in Hin as [Hin|Hin].
    + unfold basic_write in Hin.
      repeat (case_match; try (by apply not_elem_of_nil in Hin)); apply list_elem_of_singleton in Hin; by simplify_eq.
    + unfold code_write in Hin. case_match; [|by apply not_elem_of_nil in Hin].
      apply list_elem_of_singleton in Hin. injection Hin as Heq _. by apply hash_inj in Heq.
  - apply list_elem_of_fmap in Hin as ([i x] & Heq & _). injection Heq as Heq _. by apply hash_inj in Heq.
Qed.

(** The writes of a successful execution: one to the beneficiary, and values of
    accounts at the locations of accounts. *)
Lemma execution_writes tx r x :
  execution_of hash_deterministic spec_id block_env tx r = Some x →
  hash_deterministic (BasicLocation (coinbase block_env)) ∈ (exec_writes x).*1 ∧
  ∀ b v, (hash_deterministic (BasicLocation b), v) ∈ exec_writes x → account_value v.
Proof.
  intros (db & rs & ws & result & -> & Hr & _ & ->)%execution_parts. simpl.
  unfold apply_rewards, rewards in Hr. destruct get_reward_policy. simpl in Hr.
  destruct (apply_reward _ _ _) as [e|ws1] eqn:H1; [done|]. injection Hr as ->.
  apply apply_reward_writes in H1 as [Hin Hws]. split; [done|]. intros b v [Hst|[_ ?]]%Hws; [|done].
  apply list_elem_of_bind in Hst as ([a acc] & Hst & _). by eapply account_writes_value.
Qed.
End writes.

(** ** The memory of a finished block *)

(** The estimates that the memory of an Ethereum block starts with. *)
Definition beneficiary_estimates (hash_deterministic : MemoryLocation → MemoryLocationHash) (block_env : BlockEnv) (n : nat)
    : list (MemoryLocationHash * list TxIdx) := [(hash_deterministic (BasicLocation (coinbase block_env)), seq 0 n)].

Lemma beneficiary_estimates_entry hash block_env n addrs l i e :
  entry (MvMemory_new n (beneficiary_estimates hash block_env n) addrs) l i = Some e →
  l = hash (BasicLocation (coinbase block_env)) ∧ (i < n)%nat.
Proof.
  unfold entry, MvMemory_new. simpl. intros (w & Hw & Hi)%bind_Some.
  apply lookup_insert_Some in Hw as [[<- <-]|[_ Hw]]; [|by rewrite lookup_empty in Hw]. split; [done|].
  apply elem_of_list_to_map_2, list_elem_of_fmap in Hi as (j & [= -> ->] & Hj). apply elem_of_seq in Hj. lia.
Qed.

Section finished.
Context (hash_deterministic : MemoryLocation → MemoryLocationHash) (hash_inj : Inj (=) (=) hash_deterministic).
Context {st : Storage} (bytecode_of : N → N + N) {chain_rules : PevmChain} (code_of : N → N).
Context (storage_code : storage_has_code bytecode_of code_of).
Context (evm_of : TxEnv → evm (EvmError + ResultAndState)) {evm_spec : EvmSpec evm_of code_of}.
Context (spec_id : SpecId) (block_env : BlockEnv) (txs : list TxEnv).
Local Notation n := (length txs).
Local Notation estimated := (λ l i, l = hash_deterministic (BasicLocation (coinbase block_env)) ∧ (i < n)%nat).
Local Notation PInv := (PInv hash_deterministic bytecode_of code_of evm_of spec_id block_env txs estimated).
Context (hist : history) (g : Shared PevmTxExecutionResult ExecutionError) (toks : list ptoken).
Context (Hinv : PInv hist g toks).
Context (Hlen : length (transactions_status (sched g)) = n ∧ length (last_locations (mem g)) = n).
Context (Hdone : ∀ i, (i < n)%nat → executed_at (transactions_status (sched g)) i).

Lemma estimate_in_block l i : entry (mem g) l i = Some Estimate → (i < n)%nat.
Proof.
  intros He. destruct (P_est _ _ _ _ _ _ _ _ _ _ _ Hinv l i He) as [[_ ?]|[(ll & Hll & _)|Hp]]; [done| |].
  - apply lookup_lt_Some in Hll. lia.
  - apply any_elem in Hp as (t & Hin & Hp%premoves_tx).
    destruct (busy _ _ _ _ _ _ _ _ _ _ _ _ _ Hinv Hin Hp) as (tx & Htx & _). apply lookup_lt_Some in Htx. lia.
Qed.

(** Nothing but values of accounts is left at the locations of accounts. *)
Lemma finished_entry a i e :
  entry (mem g) (hash_deterministic (BasicLocation a)) i = Some e → (i < n)%nat ∧ ∃ k v, e = Data k v ∧ account_value v.
Proof.
  intros He. destruct e as [k v|].
  - destruct (P_mem _ _ _ _ _ _ _ _ _ _ _ Hinv _ i k v He) as (Hv & (ll & Hll & _) & _).
    apply lookup_lt_Some in Hll. split; [lia|]. exists k, v. split; [done|].
    unfold vals_of in Hv. apply bind_Some in Hv as (x & Hx & Hw).
    destruct (P_hist _ _ _ _ _ _ _ _ _ _ _ Hinv i k x Hx) as ((tx & _ & c & ms & r & _ & _ & Hex) & _).
    destruct (execution_writes _ hash_inj _ _ _ _ _ Hex) as [_ Hval]. apply (Hval a).
    unfold final_write in Hw. apply elem_of_list_to_map_2 in Hw. by rewrite elem_of_reverse in Hw.
  - pose proof (estimate_in_block _ _ He) as Hi. exfalso.
    pose proof (estimates_left _ _ _ _ _ _ _ _ hist g toks Hinv Hdone _ i Hi He) as [Hl _].
    destruct (Hdone i Hi) as ([k s] & Hs & Hex).
    destruct (P_done _ _ _ _ _ _ _ _ _ _ _ Hinv i _ Hs Hex) as (x & [Hh _ Hw] & _). simpl in *.
    destruct (P_hist _ _ _ _ _ _ _ _ _ _ _ Hinv i k x Hh) as ((tx & _ & c & ms & r & _ & _ & Hx) & _).
    destruct (execution_writes _ hash_inj _ _ _ _ _ Hx) as [Hin _]. rewrite <-Hl in Hin.
    destruct (final_write (exec_writes x) (hash_deterministic (BasicLocation a))) as [v|] eqn:Hf.
    + rewrite (Hw _ _ Hf) in He by (by apply not_elem_of_nil). done.
    + by apply final_write_None in Hf.
Qed.

(** ** The evaluation *)

#[local] Arguments evaluate_entry : simpl never.

Lemma evaluate_history_ok address code_hash code l : ∀ a results,
  (∀ i e, (i, e) ∈ l → (i < n)%nat ∧ ∃ k v, e = Data k v ∧ account_value v) → length results = n →
  ∃ r, evaluate_history spec_id evaluate_entry txs address code_hash code l a results = Ok r ∧
    ∀ results', r = inr results' → length results' = n.
Proof.
  induction l as [|[i e] l IH]; intros a results Hl Hres; simpl.
  { eexists. split; [done|]. by intros ? [= <-]. }
  destruct (Hl i e (list_elem_of_here _ _)) as (Hi & k & v & -> & Hv).
  destruct (lookup_lt_is_Some_2 txs i) as [tx Htx]; [done|]. rewrite Htx. simpl.
  assert (He : ∃ r, evaluate_entry tx (Data k v) a = Ok r).
  { unfold evaluate_entry. destruct v; try done; [by eexists|by eexists|]. case_bool_decide; by eexists. }
  destruct He as [[err|a'] ->]; simpl; [by eexists|]. destruct (check_nonce i tx address a'); [by eexists|].
  destruct (lookup_lt_is_Some_2 results i) as [result Hr]; [lia|]. rewrite Hr. simpl.
  apply IH; [|by rewrite length_insert]. intros i' e' Hin. apply Hl. by right.
Qed.

Lemma evaluate_addresses_ok addresses : ∀ results, length results = n →
  ∃ r, evaluate_addresses hash_deterministic spec_id evaluate_entry txs (mem g) addresses results = Ok r ∧
    ∀ results', r = inr results' → length results' = n.
Proof.
  induction addresses as [|address addresses IH]; intros results Hres; simpl.
  { eexists. split; [done|]. by intros ? [= <-]. }
  assert (Ha : ∃ r, evaluate_address hash_deterministic spec_id evaluate_entry txs (mem g) address results = Ok r ∧
    ∀ results', r = inr results' → length results' = n).
  { unfold evaluate_address. destruct (data (mem g) !! _) as [written|] eqn:Hw; [|eexists; split; [done|by intros ? [= <-]]].
    destruct (storage_code_hash address) as [err|ch]; [by eexists|].
    destruct (match ch with Some h => storage_code_by_hash h | None => inr None end) as [err|code]; [by eexists|].
    apply evaluate_history_ok; [|done]. intros i e Hin%write_history_elem. apply (finished_entry address).
    unfold entry. by rewrite Hw. }
  destruct Ha as ([err|results'] & -> & Hlen'); simpl; [by eexists|]. apply IH. by apply Hlen'.
Qed.
End finished.

(** The state in which [execute_revm_parallel] starts the threads. *)
Definition start_block (hash_deterministic : MemoryLocation → MemoryLocationHash) (block_env : BlockEnv) (txs : list TxEnv)
    (results : list (option PevmTxExecutionResult)) : Shared PevmTxExecutionResult ExecutionError :=
  initial (length txs) (ethereum_mv_memory hash_deterministic block_env txs) (grow_results (length txs) results).

Lemma length_accumulate_gas c l : length (accumulate_gas c l) = length l.
Proof. revert c. induction l as [|r l IH]; intros c; simpl; [done|]. by rewrite IH. Qed.


