(* ===== verification/PevmAccess.v ===== *)
(** * Access sets

    [execute_revm_sequential_with_access_sets] puts a [TrackingDB] between the EVM and
    the cache, to learn which storage slots a transaction reads. This file shows that
    the wrapper does not change the results, and that it records exactly the slots that the
    EVM asks for, but for those of the skipped addresses.

    The cache is revm's [CacheDB]: the theorems rely on [CacheSpec], that reading fills
    the cache without changing what the database says. *)

From S2P Require Import Prelude PevmTypes Concurrent Scheduler MvMemory VmDb Chain BlockStm VmExecute PevmBlock.

(** ** What a cache promises *)

(** [same d d'] when the two states give the same answers, now and after the same
    changes. *)
Class CacheSpec {D} (db : Database D) (same : relation D) : Prop := {
  same_equivalence :: Equivalence same;
  same_basic d d' a : same d d' → (db_basic db d a).2 = (db_basic db d' a).2;
  same_storage d d' a i : same d d' → (db_storage db d a i).2 = (db_storage db d' a i).2;
  same_code d d' h : same d d' → (db_code_by_hash db d h).2 = (db_code_by_hash db d' h).2;
  same_has_storage d d' a : same d d' → (db_has_storage db d a).2 = (db_has_storage db d' a).2;
  same_block_hash d d' x : same d d' → (db_block_hash db d x).2 = (db_block_hash db d' x).2;
  basic_keeps d a : same (db_basic db d a).1 d;
  storage_keeps d a i : same (db_storage db d a i).1 d;
  code_keeps d h : same (db_code_by_hash db d h).1 d;
  has_storage_keeps d a : same (db_has_storage db d a).1 d;
  block_hash_keeps d x : same (db_block_hash db d x).1 d;
  commit_proper :: Proper (same ==> eq ==> same) (db_commit db) }.

(** ** What the EVM asks for *)

Fixpoint storage_reads {D Out} (db : Database D) (e : evm Out) (d : D) : list (N * N) :=
  match e with
  | EvmDone _ => []
  | EvmBasic a k => match db_basic db d a with (d, inr r) => storage_reads db (k r) d | _ => [] end
  | EvmStorage a i k =>
      (a, i) :: match db_storage db d a i with (d, inr r) => storage_reads db (k r) d | _ => [] end
  | EvmCodeByHash h k => match db_code_by_hash db d h with (d, inr r) => storage_reads db (k r) d | _ => [] end
  | EvmHasStorage a k => match db_has_storage db d a with (d, inr r) => storage_reads db (k r) d | _ => [] end
  | EvmBlockHash x k => match db_block_hash db d x with (d, inr r) => storage_reads db (k r) d | _ => [] end
  end.

Section access.
Context {chain_rules : PevmChain} (spec_id : SpecId) (evm_of : TxEnv → evm (EvmError + ResultAndState)).
Context (error_text : N + EvmError → N) (hash_deterministic : MemoryLocation → MemoryLocationHash) (tracked_coinbase : N).
Context (default_has_storage : N → N + bool) (is_created : Account → bool).
Local Notation execute_one := (execute_one spec_id evm_of error_text).

(** The addresses whose slots are not recorded for a transaction. *)
Definition lazy_set {D} (db : Database D) (tx : TxEnv) (d : D) : gset N :=
  if (lazy_recipient db tx d).2 then {[caller tx]} ∪ match transact_to tx with Some to => {[to]} | None => ∅ end else ∅.
Definition skipped (lazy : gset N) (address : N) : Prop := address = 0 ∨ address = tracked_coinbase ∨ address ∈ lazy.
#[local] Instance skipped_dec lazy address : Decision (skipped lazy address).
Proof. unfold skipped. apply _. Defined.

Definition recorded (lazy : gset N) (reads : list (N * N)) : gset MemoryLocationHash :=
  list_to_set ((λ '(a, i), hash_deterministic (StorageLocation a i)) <$> filter (λ '(a, _), ¬ skipped lazy a) reads).

(** The slots that the sequential execution reads, transaction by transaction. *)
Fixpoint sequential_reads {D} (db : Database D) (txs : list TxEnv) (d : D) : list (gset MemoryLocationHash) :=
  match txs with
  | [] => []
  | tx :: txs =>
      recorded (lazy_set db tx d) (storage_reads db (evm_of tx) d) ::
      match execute_one db tx d with Ok (inr (d, _, _)) => sequential_reads db txs d | _ => [] end
  end.

(** ** Transparency *)

Section cache.
Context {D : Type} (db : Database D) (same : relation D) {spec : CacheSpec db same}.
Context (Hdefault : ∀ d a, (db_has_storage db d a).2 = default_has_storage a).
Local Notation tracking := (tracking_database hash_deterministic tracked_coinbase default_has_storage db).

Lemma should_skip_spec (t : TrackingDB D) a :
  should_skip tracked_coinbase t a = bool_decide (skipped (tracked_lazy t) a).
Proof. unfold should_skip, skipped. by rewrite <-orb_assoc, <-!bool_decide_or. Qed.

(** Recording one more slot. *)
Lemma recorded_cons lazy a i reads :
  recorded lazy ((a, i) :: reads) =
  (if bool_decide (skipped lazy a) then ∅ else {[hash_deterministic (StorageLocation a i)]}) ∪ recorded lazy reads.
Proof.
  unfold recorded. rewrite filter_cons. case_bool_decide.
  - rewrite decide_False by naive_solver. set_solver.
  - rewrite decide_True by naive_solver. set_solver.
Qed.

(** The outcome [p] of running the wrapper from [t], the outcome [q] of running the cache,
    and the slots read in between. *)
Definition agrees {A} (t : TrackingDB D) (p : TrackingDB D * A) (q : D * A) (reads : list (N * N)) : Prop :=
  p.2 = q.2 ∧ same (inner p.1) q.1 ∧
  tracked_reads p.1 = tracked_reads t ∪ recorded (tracked_lazy t) reads ∧ tracked_lazy p.1 = tracked_lazy t.

Lemma agrees_nil {A} t (d : D) (a : A) : same (inner t) d → agrees t (t, a) (d, a) [].
Proof. intros Ht. split_and!; [done|done| |done]. unfold recorded. set_solver. Qed.

(** A read that the wrapper forwards, followed by an agreeing continuation. *)
Lemma agrees_read {A Out} (k : A → evm Out) t t' (x y : D * (N + A)) reads :
  (∀ r t d, same (inner t) d → agrees t (transact_db tracking (k r) t) (transact_db db (k r) d) (storage_reads db (k r) d)) →
  x.2 = y.2 → same x.1 y.1 → tracked_lazy t' = tracked_lazy t →
  tracked_reads t' = tracked_reads t ∪ recorded (tracked_lazy t) reads →
  agrees t (match on_inner t' x with (d, inl e) => (d, inl e) | (d, inr r) => transact_db tracking (k r) d end)
    (match y with (d, inl e) => (d, inl e) | (d, inr r) => transact_db db (k r) d end)
    (reads ++ match y with (d, inr r) => storage_reads db (k r) d | _ => [] end).
Proof.
  destruct x as [d1 r1], y as [d2 r2]. simpl. intros IH <- Hd Hlazy Hreads. destruct r1 as [e|r]; simpl.
  - rewrite app_nil_r. by split_and!.
  - destruct (IH r (mkTracking d1 (tracked_reads t') (tracked_lazy t')) d2 Hd) as (H1 & H2 & H3 & H4). simpl in *.
    split_and!; [done|done| |congruence]. rewrite H3, Hreads, Hlazy. unfold recorded. rewrite filter_app, fmap_app. set_solver.
Qed.

(** A run of the EVM over the wrapper and one over an equivalent cache. *)
Lemma transact_tracking {Out} (e : evm Out) : ∀ t d, same (inner t) d →
  agrees t (transact_db tracking e t) (transact_db db e d) (storage_reads db e d).
Proof.
  assert (Hnil : ∀ t : TrackingDB D, tracked_reads t = tracked_reads t ∪ recorded (tracked_lazy t) [])
    by (intros; unfold recorded; set_solver).
  induction e as [o|a k IH|a i k IH|h k IH|a k IH|x k IH]; intros t d Ht; cbn [transact_db storage_reads].
  - by apply agrees_nil.
  - apply (agrees_read k t t _ _ []); [done|by apply same_basic| |done|done]. by rewrite !basic_keeps.
  - cbn [tracking_database db_storage]. unfold tracking_storage. rewrite should_skip_spec.
    apply (agrees_read k t _ _ _ [(a, i)]); [done| | | |].
    + apply same_storage. by case_bool_decide.
    + rewrite !storage_keeps. by case_bool_decide.
    + by case_bool_decide.
    + rewrite recorded_cons. unfold recorded. case_bool_decide; simpl; set_solver.
  - apply (agrees_read k t t _ _ []); [done|by apply same_code| |done|done]. by rewrite !code_keeps.
  - destruct t as [d0 reads lazy]. set (t := mkTracking d0 reads lazy).
    apply (agrees_read k t t (d0, default_has_storage a) _ []); [done|by rewrite Hdefault| |done|done].
    simpl in *. by rewrite has_storage_keeps.
  - apply (agrees_read k t t _ _ []); [done|by apply same_block_hash| |done|done]. by rewrite !block_hash_keeps.
Qed.

(** One transaction of the two executors. *)
Lemma execute_one_tracking tx t d : same (inner t) d →
  match execute_one tracking tx t, execute_one db tx d with
  | Ok (inr (t', r, result)), Ok (inr (d', r', result')) =>
      r = r' ∧ result = result' ∧ same (inner t') d' ∧
      tracked_reads t' = tracked_reads t ∪ recorded (tracked_lazy t) (storage_reads db (evm_of tx) d)
  | Ok (inl e), Ok (inl e') => e = e'
  | Panic, Panic => True
  | OutOfFuel, OutOfFuel => True
  | _, _ => False
  end.
Proof.
  intros Ht. destruct (transact_tracking (evm_of tx) t d Ht) as (H1 & H2 & H3 & _). unfold PevmBlock.execute_one.
  destruct (transact_db tracking (evm_of tx) t) as [t1 o1], (transact_db db (evm_of tx) d) as [d1 o2]. simpl in *. subst o2.
  destruct o1 as [e|[e|r]]; [done..|]. destruct (from_revm spec_id r) as [result|]; simpl; [|done].
  split_and!; [done|done| |done]. by apply commit_proper.
Qed.

Lemma prepare_same tx t d : same (inner t) d → same (inner (prepare_tracking db tx t)) d ∧
  tracked_reads (prepare_tracking db tx t) = tracked_reads t ∧ tracked_lazy (prepare_tracking db tx t) = lazy_set db tx d.
Proof.
  intros Ht. unfold prepare_tracking, lazy_set, lazy_recipient. destruct (transact_to tx) as [to|]; [|done].
  pose proof (same_basic _ _ to Ht) as Hr. pose proof (basic_keeps (inner t) to) as Hk.
  destruct (db_basic db (inner t) to) as [d1 r1], (db_basic db d to) as [d2 r2]. simpl in *. subst r2.
  destruct r1 as [e|[info|]]; simpl; (split_and!; [by rewrite Hk|done|done]).
Qed.

(** What the access-set executor returns, beside what the plain one returns. *)
Lemma access_set_loop_spec txs : ∀ cumulative t d, same (inner t) d → tracked_reads t = ∅ →
  match access_set_loop spec_id evm_of error_text hash_deterministic tracked_coinbase default_has_storage is_created db txs cumulative t with
  | Ok (inr (results, access)) =>
      sequential_loop spec_id evm_of error_text db txs cumulative d = Ok (inr results) ∧
      access_reads <$> access = sequential_reads db txs d
  | Ok (inl e) => sequential_loop spec_id evm_of error_text db txs cumulative d = Ok (inl e)
  | Panic => sequential_loop spec_id evm_of error_text db txs cumulative d = Panic
  | OutOfFuel => sequential_loop spec_id evm_of error_text db txs cumulative d = OutOfFuel
  end.
Proof.
  induction txs as [|tx txs IH]; intros cumulative t d Ht Hempty; [done|]. cbn [access_set_loop sequential_loop sequential_reads].
  destruct (prepare_same tx t d Ht) as (Hp & Hpr & Hpl). pose proof (execute_one_tracking tx _ d Hp) as H1.
  destruct (execute_one tracking tx (prepare_tracking db tx t)) as [[e|[[t1 r1] result]]| |],
    (execute_one db tx d) as [[e'|[[d1 r1'] result']]| |]; try done; simpl; [by subst|].
  destruct H1 as (<- & <- & Hs & Hr). set (c := u64_saturating_add _ _).
  specialize (IH c (mkTracking (inner t1) ∅ (tracked_lazy t1)) d1 Hs eq_refl).
  destruct (access_set_loop _ _ _ _ _ _ _ db txs c _) as [[e|[results access]]| |]; simpl; [by rewrite IH| |by rewrite IH|by rewrite IH].
  destruct IH as [-> IH]. split; [done|]. f_equal; [|exact IH]. rewrite Hr, Hpr, Hpl, Hempty. set_solver.
Qed.
End cache.
End access.

(** Timing a block does not change its results. *)
Lemma timed_loop_spec {chain_rules : PevmChain} spec_id evm_of error_text {D} elapsed (db : Database D) txs : ∀ i cumulative d,
  (λ r, match r with inl e => inl e | inr (results, _) => inr results end) <$>
    timed_loop spec_id evm_of error_text elapsed db i txs cumulative d =
  sequential_loop spec_id evm_of error_text db txs cumulative d.
Proof.
  induction txs as [|tx txs IH]; intros i cumulative d; simpl; [done|].
  destruct (execute_one spec_id evm_of error_text db tx d) as [[e|[[d1 r] result]]| |]; simpl; [done| |done|done].
  rewrite <-(IH (S i)). by destruct (timed_loop _ _ _ _ _ _ _ _ _) as [[e|[results times]]| |].
Qed.

(** ** The theorem *)


(** A database without a cache: accounts have no code, slots hold their index, and commits
    are counted. *)
Definition plain_database : Database nat :=
  mkDatabase nat (λ d a, (d, inr None)) (λ d a i, (d, inr i)) (λ d h, (d, inr 0)) (λ d a, (d, inr false))
    (λ d x, (d, inr 0)) (λ d _, S d).
Definition slot_evm (tx : TxEnv) : evm (EvmError + ResultAndState) :=
  EvmStorage 5 1 (λ _, EvmStorage 7 2 (λ _, EvmStorage 9 3 (λ _, EvmDone (inr (mkResult true 30000 [] []))))).

Lemma plain_spec : CacheSpec plain_database eq.
Proof. split; [exact eq_equivalence|..]; repeat intro; by subst. Qed.

