(* ===== verification/GraphScheduler.v ===== *)
(** * The graph scheduler

    Models src/pevm/crates/pevm/src/graph_scheduler.rs and the worker threads of
    src/pevm/crates/pevm/src/graph_pevm.rs. The graph scheduler has the fields of the
    scheduler of Scheduler.v but for [execution_idx], and shares the code of some of its
    operations; [GraphExt] has the fields it adds. It hands out a transaction for the
    first time when all its parents in the dependency graph have been executed, and from then on
    works optimistically like the other scheduler.

    The heap of executable transactions is the sorted list of its elements. The timeout
    of [next_task] may strike at any time; the condition variable only delays. *)

From S2P Require Import Prelude PevmTypes Concurrent Scheduler MvMemory BlockStm Graph.

(** ** State *)

Record GraphExt := mkExt {
  dependency_graph : TransactionGraph;
  executable_txs : list TxIdx;
  remaining_dependencies : list N;
  children_released : list bool;
  re_execution_count : N }.

Definition with_executable (x : GraphExt) (h : list TxIdx) : GraphExt :=
  mkExt (dependency_graph x) h (remaining_dependencies x) (children_released x) (re_execution_count x).
Definition with_remaining (x : GraphExt) (i : TxIdx) (c : N) : GraphExt :=
  mkExt (dependency_graph x) (executable_txs x) (<[i := c]> (remaining_dependencies x)) (children_released x) (re_execution_count x).
Definition with_released (x : GraphExt) (i : TxIdx) : GraphExt :=
  mkExt (dependency_graph x) (executable_txs x) (remaining_dependencies x) (<[i := true]> (children_released x)) (re_execution_count x).
Definition count_re_execution (x : GraphExt) : GraphExt :=
  mkExt (dependency_graph x) (executable_txs x) (remaining_dependencies x) (children_released x) (u64_add (re_execution_count x) 1).

(** [GraphScheduler::new]; the inherited fields are those of [Scheduler_new]. *)
Definition GraphExt_new (n : nat) (g : TransactionGraph) : GraphExt :=
  mkExt g
    (omap (λ '(i, node), if bool_decide (parent_indices node = []) then Some i else None)
       (imap pair (nodes g)))
    ((λ node, N.of_nat (length (parent_indices node))) <$> nodes g)
    (replicate n false) 0.

Fixpoint heap_push (i : TxIdx) (h : list TxIdx) : list TxIdx :=
  match h with
  | [] => [i]
  | j :: h' => if bool_decide (i ≤ j)%nat then i :: h else j :: heap_push i h'
  end.

Section graph_scheduler.
Context {R E : Type}.

(** What the threads share: that of BlockStm, and the fields of the graph scheduler. *)
Record GraphShared := mkGraphShared { core : Shared R E; ext : GraphExt }.

Definition with_core (g : GraphShared) (c : Shared R E) : GraphShared := mkGraphShared c (ext g).
Definition with_ext (g : GraphShared) (x : GraphExt) : GraphShared := mkGraphShared (core g) x.
Definition on_core {A} : prog (Shared R E) A → prog GraphShared A := focus core with_core.
Definition on_base {A} (p : prog Scheduler A) : prog GraphShared A := on_core (on_sched p).
Definition on_ext {A} : prog GraphExt A → prog GraphShared A := focus ext with_ext.

Definition with_tx (g : GraphShared) (i : TxIdx) (tx : TxStatus) : GraphShared :=
  with_core g (with_sched (core g) (with_status (sched (core g)) i tx)).

(** A critical section on the status of a transaction that also touches the new fields. *)
Definition graph_locked {A} (i : TxIdx) (f : TxStatus → GraphShared → effect GraphShared A)
    (g : GraphShared) : effect GraphShared A :=
  match transactions_status (sched (core g)) !! i, status_lock (sched (core g)) !! i with
  | Some tx, Some false => f tx g
  | Some _, Some true => Wait
  | _, _ => Crash
  end.

(** ** Operations *)

(** Code that the two schedulers share. *)
Definition abort : prog GraphShared unit := on_base Scheduler.abort.
Definition is_aborted : prog GraphShared bool := on_base (load aborted).
Definition add_dependency (i blocking : TxIdx) : prog GraphShared bool := on_base (Scheduler.add_dependency i blocking).
Definition set_ready_status (i : TxIdx) : prog GraphShared unit := on_base (Scheduler.set_ready_status i).
Definition try_validation_abort (v : TxVersion) : prog GraphShared bool := on_base (Scheduler.try_validation_abort v).

Definition all_dependencies_satisfied (i : TxIdx) : prog GraphShared bool :=
  on_ext (act (λ x, match remaining_dependencies x !! i with
                    | Some c => Step x (bool_decide (c = 0))
                    | None => Crash
                    end)).

Definition push_executable (i : TxIdx) : prog GraphShared unit :=
  on_ext (modify (λ x, with_executable x (heap_push i (executable_txs x)))).
Definition pop_executable : prog GraphShared (option TxIdx) :=
  on_ext (act (λ x, match executable_txs x with
                    | [] => Step x None
                    | i :: h => Step (with_executable x h) (Some i)
                    end)).

Definition try_execute_section (i : TxIdx) : GraphShared → effect GraphShared (option TxVersion) :=
  graph_locked i (λ tx g,
    match status tx with
    | ReadyToExecute =>
        let g := if bool_decide (0 < incarnation tx)%nat then with_ext g (count_re_execution (ext g)) else g in
        Step (with_tx g i (mark tx Executing)) (Some (mkVersion i (incarnation tx)))
    | Aborting =>
        Step (with_tx (with_ext g (count_re_execution (ext g))) i (mkTxStatus (S (incarnation tx)) Executing))
          (Some (mkVersion i (S (incarnation tx))))
    | _ => Step g None
    end).

Definition try_execute (n : nat) (i : TxIdx) : prog GraphShared (option TxVersion) :=
  if bool_decide (n ≤ i)%nat then Ret None
  else satisfied <- all_dependencies_satisfied i;;
       if (satisfied : bool) then act (try_execute_section i) else Ret None.

Definition check_all_done (n : nat) : prog GraphShared bool :=
  empty <- on_ext (load (λ x, bool_decide (executable_txs x = [])));;
  v <- on_base (load validation_idx);;
  num <- on_base (load num_validated);;
  m <- on_base (load min_validation_idx);;
  Ret ((empty : bool) && bool_decide (n ≤ v)%nat && bool_decide (N.of_nat (n - m) ≤ num)).

(** The second critical section of the attempt to steal an execution. *)
Definition steal_section (i : TxIdx) : Scheduler → effect Scheduler (option TxVersion) :=
  locked_status i (λ tx s,
    match status tx with
    | ReadyToExecute => Step (with_status s i (mark tx Executing)) (Some (mkVersion i (incarnation tx)))
    | _ => Step s None
    end).

Definition validation_task_section (i : TxIdx) : Scheduler → effect Scheduler (option Task) :=
  locked_status i (λ tx s,
    if is_executed (status tx) then Step s (Some (Validation (mkVersion i (incarnation tx)))) else Step s None).

Definition try_validation_task (n : nat) : prog GraphShared (option Task) :=
  v <- on_base (load validation_idx);;
  e <- on_ext (load (λ x, default n (head (executable_txs x))));;
  if bool_decide (v < e)%nat then
    i <- on_base fetch_add_validation;;
    if bool_decide (i < n)%nat then
      ready <- on_base (act (locked_status i (λ tx s, Step s (bool_decide (status tx = ReadyToExecute)))));;
      satisfied <- (if (ready : bool) then all_dependencies_satisfied i else Ret false);;
      stolen <- (if (satisfied : bool) then on_base (act (steal_section i)) else Ret None);;
      match stolen with
      | Some v => Ret (Some (Execution v))
      | None => on_base (act (validation_task_section i))
      end
    else Ret None
  else Ret None.

Definition try_execution_task (n : nat) : prog GraphShared (option Task) :=
  o <- pop_executable;;
  match o with
  | None => Ret None
  | Some i => v <- try_execute n i;; Ret (Execution <$> v)
  end.

(** An iteration of the loop of [next_task]. *)
Definition next_task_iteration (n : nat) : prog GraphShared next_result :=
  ab <- is_aborted;;
  if (ab : bool) then Ret NextNone
  else
    timeout <- Demon (λ b : bool, Ret b);;
    if (timeout : bool) then abort;; Ret NextNone
    else
      done <- check_all_done n;;
      if (done : bool) then Ret NextNone
      else
        t <- try_validation_task n;;
        match t with
        | Some t => Ret (NextTask t)
        | None =>
            t <- try_execution_task n;;
            Ret (match t with Some t => NextTask t | None => NextContinue end)
        end.

(** The children lose a dependency; those that lose their last one become executable. *)
Definition release_child (child : TxIdx) : prog GraphShared unit :=
  prev <- on_ext (act (λ x, match remaining_dependencies x !! child with
                            | Some c => Step (with_remaining x child (u64_sub c 1)) c
                            | None => Crash
                            end));;
  if bool_decide (prev = 1) then push_executable child else Ret tt.

Fixpoint release_all (l : list TxIdx) : prog GraphShared unit :=
  match l with [] => Ret tt | c :: l => release_child c;; release_all l end.

(** [children_released[i].swap(true)], with the children to release if it was unset. *)
Definition swap_released (i : TxIdx) : prog GraphShared (list TxIdx) :=
  on_ext (act (λ x, match children_released x !! i, nodes (dependency_graph x) !! i with
                    | Some true, _ => Step x []
                    | Some false, Some node => Step (with_released x i) (children_indices node)
                    | _, _ => Crash
                    end)).

Fixpoint resume_dependents (l : list TxIdx) : prog GraphShared unit :=
  match l with
  | [] => Ret tt
  | d :: l =>
      satisfied <- all_dependencies_satisfied d;;
      (if (satisfied : bool) then set_ready_status d;; push_executable d else Ret tt);;
      resume_dependents l
  end.

Definition finish_execution (n : nat) (v : TxVersion) (flags : FinishExecFlags) : prog GraphShared (option Task) :=
  on_base (act (begin_finish_section v));;
  children <- swap_released (tx_idx v);;
  release_all children;;
  dependents <- on_base (act (take_dependents (tx_idx v)));;
  resume_dependents dependents;;
  on_base (schedule_validation n v flags).

Definition finish_validation (n : nat) (v : TxVersion) (aborted : bool) : prog GraphShared (option Task) :=
  let i := tx_idx v in
  if aborted then
    set_ready_status i;;
    on_base (fetch_min_validation (S i));;
    satisfied <- all_dependencies_satisfied i;;
    if (satisfied : bool) then o <- try_execute n i;; Ret (Execution <$> o) else Ret None
  else on_base (act (mark_validated_section i));; Ret None.

(** ** Worker threads of GraphPevm *)

Context (vm : TxVersion → prog (Shared R E) (vm_outcome R E)).

(** The loop of [try_execute] remembers the transaction that blocked it last. *)
Inductive graph_worker :=
| GNext
| GTask (t : Task) (last_failed_blocking : option TxIdx)
| GExit.

(** Whether [abort_reason] is set or the scheduler has aborted. *)
Definition stopped : prog GraphShared bool :=
  r <- on_core (load abort_reason);;
  match r with Some _ => Ret true | None => is_aborted end.

(** One iteration of the loop of [try_execute]: it continues with the transaction that
    blocked it, or ends with a task. *)
Definition try_execute_iteration (n : nat) (v : TxVersion) (last : option TxIdx)
    : prog GraphShared (option TxIdx + option Task) :=
  o <- on_core (vm v);;
  match o with
  | VmRetry => s <- stopped;; Ret (if (s : bool) then inr None else inl last)
  | VmFallbackToSequential => on_core (abort_with FallbackToSequential);; Ret (inr None)
  | VmBlocking b =>
      added <- add_dependency (tx_idx v) b;;
      if (added : bool) then Ret (inr None)
      else
        s <- stopped;;
        if (s : bool) then Ret (inr None)
        else if bool_decide (last = Some b)
        then on_core (abort_with FallbackToSequential);; Ret (inr None)
        else Ret (inl (Some b))
  | VmExecutionError err => on_core (abort_with (ExecutionErrorReason err));; Ret (inr None)
  | VmOk is_lazy read_set write_set execution_result =>
      flags <- on_core (finish_vm v is_lazy read_set write_set);;
      on_core (store_result (tx_idx v) execution_result);;
      t <- finish_execution n v flags;;
      Ret (inr t)
  end.

Definition try_validate (n : nat) (v : TxVersion) : prog GraphShared (option Task) :=
  read_set_valid <- on_core (on_mem (validate_read_locations (tx_idx v)));;
  aborted <- (if (read_set_valid : bool) then Ret false else try_validation_abort v);;
  (if (aborted : bool) then on_core (on_mem (convert_writes_to_estimates (tx_idx v))) else Ret tt);;
  finish_validation n v aborted.

Definition after_task (task : option Task) : prog GraphShared graph_worker :=
  r <- on_core (load abort_reason);;
  Ret (match r with
       | Some _ => GExit
       | None => match task with Some t => GTask t None | None => GNext end
       end).

Definition graph_worker_step (n : nat) (w : graph_worker) : option (prog GraphShared graph_worker) :=
  match w with
  | GNext => Some (
      r <- next_task_iteration n;;
      Ret (match r with NextContinue => GNext | NextNone => GExit | NextTask t => GTask t None end))
  | GTask (Execution v) last => Some (
      o <- try_execute_iteration n v last;;
      match o with
      | inl last => Ret (GTask (Execution v) last)
      | inr task => after_task task
      end)
  | GTask (Validation v) _ => Some (task <- try_validate n v;; after_task task)
  | GExit => None
  end.

(** The threads at the start of a block. *)
Definition graph_initial (n : nat) (m : MvMemory) (results : list (option R)) (g : TransactionGraph) : GraphShared :=
  mkGraphShared (initial n m results) (GraphExt_new n g).
Definition graph_spawn (n threads : nat) : list (option (prog GraphShared graph_worker)) :=
  replicate threads (graph_worker_step n GNext).
End graph_scheduler.
Arguments GraphShared : clear implicits.
