(* ===== verification/GraphOrder.v ===== *)
(** * The graph scheduler respects the graph

    Whatever the threads do, a transaction is not started before every parent it has in the
    dependency graph has been executed and has its result stored, and the counters of remaining
    dependencies are exact: a thread that finishes a transaction owes a decrement to each
    of its children, once. The theorem holds although the assertions of the scheduler may fail (see
    [graph_assertion_fails]), so the proof follows the threads as far as they get. *)

From S2P Require Import Prelude PevmTypes Concurrent Scheduler MvMemory BlockStm Graph GraphScheduler.

(** ** Changes that do not matter *)

(** A transaction that has been executed or is being executed, for the first time or not. *)
Definition started (tx : TxStatus) : Prop := status tx ≠ ReadyToExecute ∨ (0 < incarnation tx)%nat.

Definition has_result {R E} (c : Shared R E) (i : TxIdx) : Prop := ∃ r, execution_results c !! i = Some (Some r).

(** No transaction is started but for those in [P]. *)
Section calm.
Context (P : TxIdx → Prop).

Definition calm_sched (s s' : Scheduler) : Prop := ∀ i tx',
  transactions_status s' !! i = Some tx' → ∃ tx, transactions_status s !! i = Some tx ∧ (started tx' → started tx ∨ P i).
Definition calm_core {R E} (c c' : Shared R E) : Prop :=
  calm_sched (sched c) (sched c') ∧ ∀ i, has_result c i → has_result c' i.
Definition calm_ext (x x' : GraphExt) : Prop :=
  dependency_graph x' = dependency_graph x ∧ remaining_dependencies x' = remaining_dependencies x ∧
  children_released x' = children_released x.
Definition calm {R E} (g g' : GraphShared R E) : Prop := calm_core (core g) (core g') ∧ calm_ext (ext g) (ext g').

#[global] Instance calm_sched_refl : Reflexive calm_sched.
Proof. intros s i tx Htx. eauto. Qed.
#[global] Instance calm_core_refl {R E} : Reflexive (@calm_core R E).
Proof. intros c. by split. Qed.
#[global] Instance calm_ext_refl : Reflexive calm_ext.
Proof. intros x. done. Qed.
#[global] Instance calm_refl {R E} : Reflexive (@calm R E).
Proof. intros g. by split. Qed.

(** Changing the status of a transaction. *)
Lemma calm_status s i tx tx' :
  transactions_status s !! i = Some tx → (started tx' → started tx ∨ P i) → calm_sched s (with_status s i tx').
Proof.
  intros Htx Hs j tx2 H2. simpl in H2. destruct (decide (i = j)) as [<-|].
  - rewrite list_lookup_insert_eq in H2 by (by eapply lookup_lt_Some). simplify_eq. eauto.
  - rewrite list_lookup_insert_ne in H2 by done. eauto.
Qed.

(** Two schedulers with the same statuses. *)
Lemma calm_same s s' : transactions_status s' = transactions_status s → calm_sched s s'.
Proof. intros Heq i tx Htx. rewrite Heq in Htx. eauto. Qed.

Local Notation calmly p := (within True calm_sched p (λ _, True)).

Lemma calmly_locked {A} i (f : TxStatus → Scheduler → effect Scheduler A) :
  (∀ s tx, transactions_status s !! i = Some tx → match f tx s with Step s' _ => calm_sched s s' | _ => True end) →
  calmly (act (locked_status i f)).
Proof.
  intros Hf s. unfold locked_status. destruct (transactions_status s !! i) as [tx|] eqn:Htx; [|done].
  destruct (status_lock s !! i) as [[|]|]; [done| |done]. specialize (Hf s tx Htx). by destruct (f tx s).
Qed.

Lemma calmly_load {A} (f : Scheduler → A) : calmly (load f).
Proof. intros s. by split. Qed.
Lemma calmly_modify f : (∀ s, transactions_status (f s) = transactions_status s) → calmly (modify f).
Proof. intros Hf s. split; [by apply calm_same|done]. Qed.
Lemma calmly_bind {A B} (p : prog Scheduler A) (f : A → prog Scheduler B) :
  calmly p → (∀ a, calmly (f a)) → calmly (prog_bind p f).
Proof. intros Hp Hf. eapply within_bind; [done|]. intros a _. apply Hf. Qed.

Lemma add_dependency_calm i b : calmly (Scheduler.add_dependency i b).
Proof.
  unfold Scheduler.add_dependency. intros s. unfold add_dependency_section, locked_status.
  destruct (transactions_status s !! b) as [tb|]; [|done]. destruct (status_lock s !! b) as [[|]|]; [done| |done].
  destruct (is_executed (status tb)); [by split|]. destruct (transactions_status s !! i) as [tx|] eqn:Htx; [|done].
  destruct (status_lock s !! i) as [[|]|]; [done| |done]. destruct (status tx) eqn:Hst; try done.
  destruct (transactions_dependents s !! b); [|done]. split; [|done].
  apply (calm_status s i tx); [done|]. intros _. left; left. by rewrite Hst.
Qed.

Lemma set_ready_calm i : calmly (Scheduler.set_ready_status i).
Proof.
  apply calmly_locked. intros s tx Htx. destruct (status tx) eqn:Hst; try done.
  apply (calm_status s i tx); [done|]. intros _. left; left. by rewrite Hst.
Qed.

Lemma begin_finish_calm v : calmly (act (begin_finish_section v)).
Proof. apply calmly_locked. intros s tx Htx. destruct (_ && _); [by apply calm_same|done]. Qed.

Lemma take_dependents_calm i : calmly (act (take_dependents i)).
Proof. intros s. unfold take_dependents. destruct (transactions_dependents s !! i); [|done]. split; [by apply calm_same|done]. Qed.

Lemma write_status_calm i st count unlock : P i → calmly (write_status i st count unlock).
Proof.
  intros Hi s. unfold write_status_section. destruct (transactions_status s !! i) as [tx|] eqn:Htx; [|done].
  split; [|done]. pose proof (calm_status s i tx (mark tx st) Htx ltac:(by right)) as Hc. by destruct count, unlock.
Qed.

Lemma schedule_validation_calm n v flags :
  P (tx_idx v) → within True calm_sched (schedule_validation n v flags) (λ o, ∀ v', o ≠ Some (Execution v')).
Proof.
  intros Hi. unfold schedule_validation. eapply within_bind with (P := λ _, True).
  { destruct (flags_contains _ _); [|apply calmly_load]. apply calmly_bind; [|done]. intros s. split; [by apply calm_same|done]. }
  intros m _. apply within_bind with (P := λ o, ∀ v', o ≠ Some (Execution v')).
  - destruct (bool_decide (m < n)%nat); [|done]. destruct (bool_decide (tx_idx v < m)%nat).
    { destruct (flags_contains _ _); [|done]. eapply within_bind; [by apply calmly_modify|done]. }
    eapply within_bind; [apply (calmly_load validation_idx)|]. intros val _. destruct (bool_decide _); [|done].
    eapply within_bind with (P := λ _, True).
    { destruct (flags_contains _ WroteNewLocation); [by apply calmly_modify|done]. }
    intros _ _. destruct (flags_contains _ _); (eapply within_bind; [by apply write_status_calm|done]).
  - intros [t|] Ht; [done|]. eapply within_bind with (P := λ _, True); [|done]. destruct (flags_contains _ _); by apply write_status_calm.
Qed.

Lemma try_validation_abort_calm v : calmly (Scheduler.try_validation_abort v).
Proof.
  apply calmly_locked. intros s tx Htx. destruct (is_executed (status tx)) eqn:Hex.
  - set (s1 := if bool_decide _ then _ else _).
    assert (H1 : transactions_status s1 = transactions_status s) by (unfold s1; by case_bool_decide).
    intros j tx2. rewrite <-H1 in Htx. intros H2. destruct (calm_status s1 _ tx (mark tx Aborting) Htx) with j tx2 as (tx0 & H0 & Hs); [|done|].
    { intros _. left; left. intros Heq. by rewrite Heq in Hex. }
    rewrite H1 in H0. eauto.
  - apply calm_same. by case_bool_decide.
Qed.

Lemma mark_validated_calm i : calmly (act (mark_validated_section i)).
Proof.
  apply calmly_locked. intros s tx Htx. destruct (status tx) eqn:Hst; try done.
  apply (calm_status s i tx); [done|]. intros _. left; left. by rewrite Hst.
Qed.
End calm.

(** ** Programs on parts of the state *)

Lemma within_any {S A} (p : prog S A) : within True (λ _ _, True) p (λ _, True).
Proof.
  induction p as [a|R f k IH|X k IH]; simpl; [done| |done]. intros s. by destruct (f s).
Qed.

Section lift.
Context {R E : Type} (P : TxIdx → Prop).
Local Notation calmly p := (within True (calm P) p (λ _, True)).

Lemma calmly_base {A} (p : prog Scheduler A) Q : within True (calm_sched P) p Q → within True (calm P) (on_base (R := R) (E := E) p) Q.
Proof.
  intros Hp. apply within_focus with (rel' := calm_core P); [by split|].
  apply within_focus with (rel' := calm_sched P); [by split|done].
Qed.
Lemma calmly_core {A} (p : prog (Shared R E) A) Q : within True (calm_core P) p Q → within True (calm P) (on_core p) Q.
Proof. intros Hp. apply within_focus with (rel' := calm_core P); [by split|done]. Qed.
Lemma calmly_mem {A} (p : prog MvMemory A) : within True (calm_core (R := R) (E := E) P) (on_mem p) (λ _, True).
Proof. apply within_focus with (rel' := λ _ _, True); [by split|apply within_any]. Qed.
Lemma calmly_ext {A} (p : prog GraphExt A) : within True calm_ext p (λ _, True) → calmly (on_ext (R := R) (E := E) p).
Proof. intros Hp. apply within_focus with (rel' := calm_ext); [by split|done]. Qed.

Lemma push_calm i : calmly (push_executable (R := R) (E := E) i).
Proof. apply calmly_ext. intros x. by split. Qed.
Lemma pop_calm : calmly (pop_executable (R := R) (E := E)).
Proof. apply calmly_ext. intros x. by destruct (executable_txs x). Qed.

Lemma finish_vm_calm v lazy rs ws : within True (calm_core P) (finish_vm (R := R) (E := E) v lazy rs ws) (λ _, True).
Proof.
  unfold finish_vm. eapply within_bind; [|intros _ _; eapply within_bind; [apply calmly_mem|by intros [] _]].
  destruct lazy as [[]|]; [apply calmly_mem|done].
Qed.

Lemma abort_calm r : within True (calm_core P) (abort_with (R := R) (E := E) r) (λ _, True).
Proof.
  unfold abort_with. eapply within_bind.
  { apply within_focus with (rel' := calm_sched P); [by split|]. by apply calmly_modify. }
  intros _ _ c. by split.
Qed.

Lemma stopped_calm : calmly (stopped (R := R) (E := E)).
Proof.
  unfold stopped. eapply within_bind; [apply (calmly_core _ (λ _, True)); by intros c|].
  intros [r|] _; [done|]. by apply calmly_base, calmly_load.
Qed.

Lemma check_all_done_calm n : calmly (check_all_done (R := R) (E := E) n).
Proof.
  unfold check_all_done. eapply within_bind; [apply calmly_ext; by intros x|]. intros empty _.
  do 3 (eapply within_bind; [apply calmly_base, calmly_load|]; intros ? _). done.
Qed.
End lift.

(** ** The invariant *)

(** What a thread knows and owes: transactions without remaining dependencies,
    transactions with a stored result, and children it must release. *)
Record gtoken := mkTok { sat : list TxIdx; resulted : list TxIdx; pend : list TxIdx }.
Definition idle : gtoken := mkTok [] [] [].

Section inv.
Context {R E : Type} (n : nat) (graph : TransactionGraph).
Context (Hlinks : links_wf (nodes graph)) (Hn : length (nodes graph) = n) (Hsize : N.of_nat n < u64_modulus).
Local Notation Sh := (GraphShared R E).
Implicit Types (g : Sh) (toks : list gtoken).

Definition unreleased (x : GraphExt) (node : TransactionNode) : nat :=
  length (filter (λ p, children_released x !! p = Some false) (parent_indices node)).
Definition owed (i : TxIdx) toks : nat := length (filter (.= i) (toks ≫= pend)).

Definition parents_of (i : TxIdx) : nat :=
  match nodes graph !! i with Some node => length (parent_indices node) | None => 0%nat end.

(** Parents are distinct nodes. *)
Lemma parents_of_le i : (parents_of i ≤ n)%nat.
Proof.
  unfold parents_of. destruct (nodes graph !! i) as [node|] eqn:Hi; [|lia].
  destruct (links_nodup _ Hlinks i node Hi) as [_ Hnd]. rewrite <-(length_seq n 0).
  apply submseteq_length, NoDup_submseteq; [done|]. intros p Hp%(links_mirror _ Hlinks p i node Hi).
  pose proof (links_order _ Hlinks p i Hp). apply elem_of_seq. lia.
Qed.

Record GInv g toks : Prop := mkGInv {
  G_graph : dependency_graph (ext g) = graph;
  G_released : length (children_released (ext g)) = n;
  G_bound : length (remaining_dependencies (ext g)) = n ∧ ∀ i c, remaining_dependencies (ext g) !! i = Some c → c <= N.of_nat (parents_of i);
  G_count : ∀ i node, nodes graph !! i = Some node →
    remaining_dependencies (ext g) !! i = Some (N.of_nat (unreleased (ext g) node + owed i toks));
  G_done : ∀ p, children_released (ext g) !! p = Some true → has_result (core g) p;
  G_started : ∀ i tx, transactions_status (sched (core g)) !! i = Some tx → started tx →
    remaining_dependencies (ext g) !! i = Some 0;
  G_sat : ∀ t i, t ∈ toks → i ∈ sat t → remaining_dependencies (ext g) !! i = Some 0;
  G_resulted : ∀ t i, t ∈ toks → i ∈ resulted t → has_result (core g) i }.

Lemma GInv_perm g l l' : l ≡ₚ l' → GInv g l → GInv g l'.
Proof.
  intros Hp [H1 H2 HB H3 H4 H5 H6 H7]. split; try done.
  - intros i node Hi. rewrite (H3 i node Hi). unfold owed. do 3 f_equal. by rewrite Hp.
  - intros t i Ht. apply H6. by rewrite Hp.
  - intros t i Ht. apply H7. by rewrite Hp.
Qed.

(** A change that starts only transactions the thread knows to be without dependencies. *)
Lemma calm_inv g g' tok rest : calm (λ i, i ∈ sat tok) g g' → GInv g (tok :: rest) → GInv g' (tok :: rest).
Proof.
  intros [[Hs Hr] (Hg & Hrem & Hrel)] [H1 H2 HB H3 H4 H5 H6 H7].
  assert (Hun : ∀ node, unreleased (ext g') node = unreleased (ext g) node) by (intros; unfold unreleased; by rewrite Hrel).
  split; rewrite ?Hg, ?Hrem, ?Hrel; try done.
  - intros i node Hi. by rewrite Hun, (H3 i node Hi).
  - intros p Hp. by apply Hr, H4.
  - intros i tx' Htx Hst. destruct (Hs i tx' Htx) as (tx & Htx0 & Himp).
    destruct (Himp Hst) as [Ho|Ho]; [by eapply H5|]. eapply H6; [|done]. by left.
  - intros t i Ht Hi. by eapply Hr, H7.
Qed.

Local Notation safe p Q tok := (safe True GInv p Q tok).

(** A program of such changes keeps the token. *)
Lemma safe_calm {A} (p : prog Sh A) tok (Q : A → Prop) :
  within True (calm (λ i, i ∈ sat tok)) p Q → safe p (λ a tok', tok' = tok ∧ Q a) tok.
Proof.
  induction p as [a|B f k IH|X k IH]; simpl; intros Hp; [done| |intros x; by apply IH].
  intros g rest Hinv. specialize (Hp g). destruct (f g) as [g' r| |]; [|done|done].
  destruct Hp as [Hc Hp]. exists tok. split; [by eapply calm_inv|]. by apply IH.
Qed.

(** A thread may forget what it knows. *)
Lemma forget g t t' rest :
  (∀ i, i ∈ sat t' → i ∈ sat t) → (∀ i, i ∈ resulted t' → i ∈ resulted t) → pend t' = pend t →
  GInv g (t :: rest) → GInv g (t' :: rest).
Proof.
  intros Hs Hr Hp [H1 H2 HB H3 H4 H5 H6 H7]. split; try done.
  - intros i node Hi. rewrite (H3 i node Hi). unfold owed. simpl. by rewrite Hp.
  - intros u i [->|Hu]%elem_of_cons Hi; [|eapply H6; [|done]; by right]. eapply H6; [by left|]. by apply Hs.
  - intros u i [->|Hu]%elem_of_cons Hi; [|eapply H7; [|done]; by right]. eapply H7; [by left|]. by apply Hr.
Qed.

(** *** What a thread learns *)

Lemma all_dependencies_safe i tok :
  safe (all_dependencies_satisfied i) (λ b t, t = if b then mkTok (i :: sat tok) (resulted tok) (pend tok) else tok) tok.
Proof.
  intros g rest Hinv. simpl. destruct (remaining_dependencies (ext g) !! i) as [c|] eqn:Hc; [|done].
  replace (with_ext g (ext g)) with g by (by destruct g). case_bool_decide as H0; [|by exists tok]. subst c.
  eexists; split; [|done]. destruct Hinv as [H1 H2 HB H3 H4 H5 H6 H7]. split; try done.
  - intros u j [->|Hu]%elem_of_cons Hj; [|eapply H6; [|done]; by right].
    simpl in Hj. apply elem_of_cons in Hj as [->|Hj]; [done|]. eapply H6; [|done]. by left.
  - intros u j [->|Hu]%elem_of_cons Hj; [apply (H7 tok j); [by left|done]|apply (H7 u j); [by right|done]].
Qed.

Lemma graph_store_result_safe i r tok :
  safe (on_core (store_result i r)) (λ _ t, t = mkTok (sat tok) (i :: resulted tok) (pend tok)) tok.
Proof.
  intros g rest Hinv. simpl. case_bool_decide as Hi; [|done]. eexists; split; [|done].
  assert (Hres : ∀ j, has_result (core g) j →
    has_result (mkShared (sched (core g)) (mem (core g)) (<[i := Some r]> (execution_results (core g))) (abort_reason (core g))) j).
  { intros j [x Hx]. unfold has_result; simpl. destruct (decide (i = j)) as [<-|].
    - rewrite list_lookup_insert_eq by done. eauto.
    - rewrite list_lookup_insert_ne by done. eauto. }
  destruct Hinv as [H1 H2 HB H3 H4 H5 H6 H7]. split; try done; simpl.
  - intros p Hp. by apply Hres, H4.
  - intros u j [->|Hu]%elem_of_cons Hj; [apply (H6 tok j); [by left|done]|apply (H6 u j); [by right|done]].
  - intros u j [->|Hu]%elem_of_cons Hj; [|apply Hres; eapply H7; [by right|done]].
    simpl in Hj. apply elem_of_cons in Hj as [->|Hj]; [|apply Hres; eapply H7; [by left|done]].
    exists r. simpl. by rewrite list_lookup_insert_eq.
Qed.

(** *** Releasing the children *)

(** One parent less is unreleased. *)
Lemma filter_released (l : list TxIdx) (rel : list bool) i :
  NoDup l → rel !! i = Some false →
  length (filter (λ p, rel !! p = Some false) l) =
  (length (filter (λ p, <[i := true]> rel !! p = Some false) l) + (if decide (i ∈ l) then 1 else 0))%nat.
Proof.
  intros Hnd Hi. pose proof (lookup_lt_Some _ _ _ Hi) as Hlt.
  induction l as [|p l IH]; [done|]. apply NoDup_cons in Hnd as [Hni Hnd]. specialize (IH Hnd).
  rewrite !filter_cons. destruct (decide (i = p)) as [<-|Hne].
  - rewrite decide_True by done. rewrite list_lookup_insert_eq, decide_False by done. simpl.
    rewrite (decide_True (P := i ∈ i :: l)) by (by left). rewrite decide_False in IH by done. lia.
  - rewrite list_lookup_insert_ne by done.
    destruct (decide (i ∈ l)) as [Hin|Hnin].
    + rewrite (decide_True (P := i ∈ p :: l)) by (by right). destruct (decide (rel !! p = _)); simpl; lia.
    + rewrite (decide_False (P := i ∈ p :: l)) by (by apply not_elem_of_cons). destruct (decide (rel !! p = _)); simpl; lia.
Qed.

Lemma filter_count (l : list TxIdx) j : NoDup l → length (filter (.= j) l) = if decide (j ∈ l) then 1%nat else 0%nat.
Proof.
  induction l as [|x l IH]; [done|]. intros [Hni Hnd]%NoDup_cons. specialize (IH Hnd). rewrite filter_cons.
  destruct (decide (x = j)) as [->|Hne]; simpl.
  - rewrite IH, decide_False by done. by rewrite decide_True by (by left).
  - rewrite IH. destruct (decide (j ∈ l)); [by rewrite decide_True by (by right)|].
    rewrite decide_False; [done|]. apply not_elem_of_cons. by split.
Qed.

Lemma swap_released_safe i tok :
  i ∈ resulted tok → pend tok = [] →
  safe (swap_released i) (λ l t, t = mkTok (sat tok) (resulted tok) l) tok.
Proof.
  intros Hi Hp g rest Hinv. simpl. destruct (children_released (ext g) !! i) as [b|] eqn:Hb; [|done].
  destruct b.
  { exists tok. split; [by destruct g|]. rewrite <-Hp. by destruct tok. }
  pose proof (G_graph _ _ Hinv) as Hg. rewrite Hg.
  destruct (nodes graph !! i) as [node|] eqn:Hnode; [|done]. eexists; split; [|done].
  destruct Hinv as [_ H2 HB H3 H4 H5 H6 H7].
  assert (Hcount : ∀ j nj, nodes graph !! j = Some nj →
    (unreleased (ext g) nj + owed j (tok :: rest))%nat =
    (unreleased (with_released (ext g) i) nj + owed j (mkTok (sat tok) (resulted tok) (children_indices node) :: rest))%nat).
  { intros j nj Hj. unfold unreleased, owed. simpl. rewrite Hp, !filter_app, !length_app.
    destruct (links_nodup _ Hlinks j nj Hj) as [_ Hnd]. destruct (links_nodup _ Hlinks i node Hnode) as [Hndc _].
    rewrite (filter_released _ _ i Hnd Hb), (filter_count _ j Hndc).
    assert (Hiff : i ∈ parent_indices nj ↔ j ∈ children_indices node).
    { rewrite (links_mirror _ Hlinks i j nj Hj). unfold edge_in. rewrite Hnode. naive_solver. }
    destruct (decide (i ∈ parent_indices nj)), (decide (j ∈ children_indices node)); simpl; (lia || naive_solver). }
  split; simpl; [done|by rewrite length_insert|done| | |done| |].
  - intros j nj Hj. rewrite (H3 j nj Hj). by rewrite Hcount.
  - intros p. destruct (decide (i = p)) as [<-|]; [intros _; eapply H7; [by left|done]|].
    rewrite list_lookup_insert_ne by done. apply H4.
  - intros u j [->|Hu]%elem_of_cons Hj; [apply (H6 tok j); [by left|done]|apply (H6 u j); [by right|done]].
  - intros u j [->|Hu]%elem_of_cons Hj; [apply (H7 tok j); [by left|done]|apply (H7 u j); [by right|done]].
Qed.

Lemma release_child_safe c l tok :
  pend tok = c :: l → safe (release_child c) (λ _ t, t = mkTok (sat tok) (resulted tok) l) tok.
Proof.
  intros Hp g rest Hinv. simpl. destruct (remaining_dependencies (ext g) !! c) as [r|] eqn:Hr; [|done].
  eexists; split.
  2:{ case_bool_decide; [|done]. apply (safe_mono True GInv) with (Q := λ _ t, t = mkTok (sat tok) (resulted tok) l ∧ True); [naive_solver|].
      apply safe_calm, push_calm. }
  pose proof (G_graph _ _ Hinv) as Hg. destruct Hinv as [_ H2 HB H3 H4 H5 H6 H7].
  set (t' := mkTok (sat tok) (resulted tok) l).
  assert (Howed : ∀ j, owed j (tok :: rest) = (owed j (t' :: rest) + (if decide (c = j) then 1 else 0))%nat).
  { intros j. unfold owed. simpl. rewrite Hp, !filter_app, !length_app, filter_cons. destruct (decide (c = j)); simpl; lia. }
  destruct HB as [HB1 HB2].
  destruct (lookup_lt_is_Some_2 (nodes graph) c) as [node Hnode]; [apply lookup_lt_Some in Hr; lia|].
  pose proof (H3 c node Hnode) as Hc. rewrite Hr in Hc. injection Hc as Hc. rewrite Howed, decide_True in Hc by done.
  assert (Hsub : u64_sub r 1 = r - 1).
  { unfold u64_sub, wrap64. specialize (HB2 c r Hr). pose proof (parents_of_le c). rewrite (N.mod_small 1) by lia.
    replace (r + u64_modulus - 1) with (r - 1 + 1 * u64_modulus) by lia. rewrite N.Div0.mod_add. apply N.mod_small. lia. }
  assert (Hne : ∀ j, remaining_dependencies (ext g) !! j = Some 0 →
    remaining_dependencies (with_remaining (ext g) c (u64_sub r 1)) !! j = Some 0).
  { intros j Hj. simpl. rewrite list_lookup_insert_ne; [done|]. intros <-. rewrite Hj in Hr. injection Hr as <-. lia. }
  split; simpl; [done|done| | |done| | |].
  - split; [by rewrite length_insert|]. intros j x Hj. destruct (decide (c = j)) as [<-|].
    + rewrite list_lookup_insert_eq in Hj by (by eapply lookup_lt_Some). injection Hj as <-. specialize (HB2 c r Hr). lia.
    + rewrite list_lookup_insert_ne in Hj by done. by eapply HB2.
  - intros j nj Hj. destruct (decide (c = j)) as [<-|Hne'].
    + rewrite list_lookup_insert_eq by (by eapply lookup_lt_Some). f_equal. simplify_eq.
      change (unreleased (with_remaining (ext g) c (u64_sub _ 1)) node) with (unreleased (ext g) node). lia.
    + rewrite list_lookup_insert_ne by done. rewrite (H3 j nj Hj), Howed, decide_False by done. by rewrite Nat.add_0_r.
  - intros j tx Htx Hst. apply Hne. by eapply H5.
  - intros u j [->|Hu]%elem_of_cons Hj; apply Hne; [apply (H6 tok j); [by left|done]|apply (H6 u j); [by right|done]].
  - intros u j [->|Hu]%elem_of_cons Hj; [apply (H7 tok j); [by left|done]|apply (H7 u j); [by right|done]].
Qed.

Lemma release_all_safe l : ∀ tok, pend tok = l → safe (release_all l) (λ _ t, t = mkTok (sat tok) (resulted tok) []) tok.
Proof.
  induction l as [|c l IH]; intros tok Hp; cbn [release_all]; [simpl; rewrite <-Hp; by destruct tok|].
  apply safe_bind. eapply safe_mono; [|by apply release_child_safe]. intros _ t ->. exact (IH (mkTok (sat tok) (resulted tok) l) eq_refl).
Qed.

(** *** Tasks *)

(** [t] knows at least what [tok] knows. *)
Definition knows (tok t : gtoken) : Prop := (∀ i, i ∈ sat tok → i ∈ sat t) ∧ pend t = pend tok.

(** A program of calm actions, as the start of a larger one. *)
Lemma calm_bind {A B} (p : prog Sh A) (f : A → prog Sh B) (P : A → Prop) Q tok :
  within True (calm (λ i, i ∈ sat tok)) p P → (∀ a, P a → safe (f a) Q tok) → safe (prog_bind p f) Q tok.
Proof. intros Hp Hf. apply safe_bind. eapply safe_mono; [|by apply safe_calm]. intros a t [-> Ha]. by apply Hf. Qed.

Lemma try_execute_section_calm i (P : TxIdx → Prop) :
  P i → within True (calm P) (act (try_execute_section (R := R) (E := E) i)) (λ o, ∀ v, o = Some v → tx_idx v = i).
Proof.
  intros Hi g. unfold try_execute_section, graph_locked.
  destruct (transactions_status (sched (core g)) !! i) as [tx|] eqn:Htx; [|done].
  destruct (status_lock (sched (core g)) !! i) as [[|]|]; [done| |done].
  assert (Hc : ∀ tx' x, calm_ext (ext g) x → calm P g (with_tx (with_ext g x) i tx')).
  { intros tx' x Hx. split; [|done]. split; [|done]. apply (calm_status P _ i tx); [done|]. by right. }
  destruct (status tx); simpl; try done; (split; [|by intros v [= <-]]); [|by apply Hc].
  case_bool_decide; [by apply Hc|]. specialize (Hc (mark tx Executing) (ext g)). destruct g. by apply Hc.
Qed.

Definition exec_ok (tok : gtoken) (o : option TxVersion) (t : gtoken) : Prop :=
  knows tok t ∧ match o with Some v => tx_idx v ∈ sat t | None => True end.

Lemma graph_try_execute_safe i tok : safe (try_execute n i) (exec_ok tok) tok.
Proof.
  unfold try_execute. case_bool_decide; [by repeat split|]. apply safe_bind.
  eapply safe_mono; [|apply all_dependencies_safe]. intros [|] t ->; [|by repeat split].
  eapply safe_mono; [|apply safe_calm, (try_execute_section_calm i)]; [|by left].
  intros o t [-> Ho]. split; [split; [|done]; by right|]. destruct o as [v|]; [|done]. rewrite (Ho v eq_refl). by left.
Qed.

Definition task_ok (tok : gtoken) (o : option Task) (t : gtoken) : Prop :=
  knows tok t ∧ match o with Some (Execution v) => tx_idx v ∈ sat t | _ => True end.

Lemma try_execution_task_safe tok : safe (try_execution_task n) (task_ok tok) tok.
Proof.
  eapply calm_bind; [apply pop_calm|]. intros [i|] _; [|by repeat split]. apply safe_bind.
  eapply safe_mono; [|apply graph_try_execute_safe]. intros [v|] t [Hk Hv]; by split.
Qed.

Lemma steal_calm i (P : TxIdx → Prop) :
  P i → within True (calm_sched P) (act (steal_section i)) (λ o, ∀ v, o = Some v → tx_idx v = i).
Proof.
  intros Hi s. unfold steal_section, locked_status. destruct (transactions_status s !! i) as [tx|] eqn:Htx; [|done].
  destruct (status_lock s !! i) as [[|]|]; [done| |done]. destruct (status tx); try by split.
  split; [|by intros v [= <-]]. apply (calm_status P s i tx); [done|]. by right.
Qed.

Lemma validation_task_calm i P :
  within True (calm_sched P) (act (validation_task_section i)) (λ o, ∀ v, o ≠ Some (Execution v)).
Proof.
  intros s. unfold validation_task_section, locked_status. destruct (transactions_status s !! i) as [tx|]; [|done].
  destruct (status_lock s !! i) as [[|]|]; [done| |done]. by destruct (is_executed (status tx)).
Qed.

Lemma try_validation_task_safe tok : safe (try_validation_task n) (task_ok tok) tok.
Proof.
  unfold try_validation_task. eapply calm_bind; [apply calmly_base, calmly_load|]. intros v _.
  eapply calm_bind; [by apply (calmly_ext _ (load _)); intros x|]. intros e _.
  destruct (bool_decide (v < e)%nat); [|by repeat split].
  eapply calm_bind; [apply (calmly_base _ _ (λ _, True)); intros s; split; [by apply calm_same|done]|]. intros i _.
  destruct (bool_decide (i < n)%nat); [|by repeat split].
  eapply calm_bind; [by apply calmly_base, calmly_locked|]. intros ready _.
  apply safe_bind. eapply safe_mono with (Q := λ (b : bool) t, t = if b then mkTok (i :: sat tok) (resulted tok) (pend tok) else tok).
  2:{ destruct ready; [apply all_dependencies_safe|done]. }
  intros satisfied t ->. apply safe_bind.
  apply safe_mono with (Q := λ o t, knows tok t ∧ match o with Some v => tx_idx v ∈ sat t | None => True end).
  2:{ destruct satisfied; [|by repeat split]. eapply safe_mono; [|eapply safe_calm, calmly_base, (steal_calm i); by left].
      intros o t [-> Ho]. split; [split; [by right|done]|]. destruct o as [w|]; [|done]. rewrite (Ho w eq_refl). by left. }
  intros [w|] t [Hk Hw]; [by split|]. eapply safe_mono; [|apply safe_calm, calmly_base, validation_task_calm].
  intros o t' [-> Ho]. split; [done|]. destruct o as [[w|w]|]; [by destruct (Ho w)|done|done].
Qed.

Lemma graph_next_task_safe tok :
  safe (next_task_iteration n)
    (λ r t, knows tok t ∧ match r with NextTask (Execution v) => tx_idx v ∈ sat t | _ => True end) tok.
Proof.
  unfold next_task_iteration. eapply calm_bind; [apply calmly_base, calmly_load|]. intros [|] _; [by repeat split|].
  apply safe_bind. intros [|].
  { eapply calm_bind; [by apply calmly_base, calmly_modify|]. by repeat split. }
  eapply calm_bind; [apply check_all_done_calm|]. intros [|] _; [by repeat split|].
  apply safe_bind. eapply safe_mono; [|apply try_validation_task_safe]. intros [t|] tok1 [[Hs Hp] Ht]; [by repeat split|].
  apply safe_bind. eapply safe_mono; [|apply try_execution_task_safe].
  intros o tok2 [[Hs2 Hp2] Ho]. split; [split; [auto|congruence]|]. by destruct o as [[]|].
Qed.

Lemma graph_resume_dependents_safe l : ∀ tok, safe (resume_dependents l) (λ _ t, knows tok t) tok.
Proof.
  induction l as [|d l IH]; intros tok; cbn [resume_dependents]; [by split|]. apply safe_bind.
  eapply safe_mono; [|apply all_dependencies_safe]. intros b t1 Ht1. cbn beta in Ht1.
  assert (Hk : knows tok t1) by (subst t1; destruct b; (split; [|done]); [by right|done]).
  eapply calm_bind with (P := λ _, True).
  { destruct b; [|done]. eapply within_bind; [apply calmly_base, set_ready_calm|]. intros _ _. apply push_calm. }
  intros _ _. eapply safe_mono; [|apply IH]. intros _ t [Hs Hp]. destruct Hk as [Hs1 Hp1]. split; [auto|congruence].
Qed.

Lemma graph_finish_execution_safe v flags tok :
  tx_idx v ∈ sat tok → tx_idx v ∈ resulted tok → pend tok = [] →
  safe (finish_execution n v flags) (λ o t, pend t = [] ∧ ∀ v', o ≠ Some (Execution v')) tok.
Proof.
  intros Hs Hr Hp. unfold finish_execution. eapply calm_bind; [apply calmly_base, begin_finish_calm|]. intros _ _.
  apply safe_bind. eapply safe_mono; [|by apply swap_released_safe]. intros children t1 ->. cbn beta.
  apply safe_bind. eapply safe_mono; [|by apply release_all_safe]. intros _ t2 ->. cbn [sat resulted].
  eapply calm_bind; [apply calmly_base, take_dependents_calm|]. intros dependents _. cbn beta.
  apply safe_bind. eapply safe_mono; [|apply graph_resume_dependents_safe]. intros _ t3 [Hs3 Hp3]. simpl in *.
  eapply safe_mono; [|apply safe_calm, calmly_base, schedule_validation_calm; by apply Hs3].
  intros o t [-> Ho]. by split.
Qed.

Lemma graph_finish_validation_safe v b tok : pend tok = [] → safe (finish_validation n v b) (task_ok tok) tok.
Proof.
  intros Hp. unfold finish_validation. destruct b.
  - eapply calm_bind; [apply calmly_base, set_ready_calm|]. intros _ _.
    eapply calm_bind; [by apply calmly_base, calmly_modify|]. intros _ _.
    apply safe_bind. eapply safe_mono; [|apply all_dependencies_safe]. intros [|] t ->; [|by repeat split].
    apply safe_bind. eapply safe_mono; [|apply graph_try_execute_safe]. intros o t [[Hs Hp'] Ho]. simpl in *.
    split; [split; [|done]|by destruct o]. intros i Hi. apply Hs. by right.
  - eapply calm_bind; [apply calmly_base, mark_validated_calm|]. by repeat split.
Qed.

Context (vm : TxVersion → prog (Shared R E) (vm_outcome R E)) {vm_spec : VmSpec True vm}.

Definition worker_ok (w : graph_worker) (t : gtoken) : Prop :=
  pend t = [] ∧ match w with GTask (Execution v) _ => tx_idx v ∈ sat t | _ => True end.

Lemma vm_calm v P : within True (calm P) (on_core (vm v)) (λ _, True).
Proof.
  apply calmly_core. assert (Hw : within True codes_changed (vm v) (blocks_below (tx_idx v))) by apply vm_within.
  induction (vm v) as [a|B f k IH|X k IH]; simpl in *; [done| |intros x; by apply IH].
  intros c. specialize (Hw c). destruct (f c) as [c' r| |]; [|done|done]. destruct Hw as [[codes ->] Hw].
  split; [by split|]. by apply IH.
Qed.

Lemma graph_try_execute_iteration_safe v last tok :
  worker_ok (GTask (Execution v) last) tok →
  safe (try_execute_iteration vm n v last)
    (λ o t, match o with inl last => worker_ok (GTask (Execution v) last) t | inr o => pend t = [] ∧ ∀ v', o ≠ Some (Execution v') end) tok.
Proof.
  intros Hok. pose proof Hok as [Hp Hs]. unfold try_execute_iteration. eapply calm_bind; [apply vm_calm|]. intros o _.
  destruct o as [| |b|err|lazy rs ws r].
  - eapply calm_bind; [apply stopped_calm|]. by intros [|] _.
  - eapply calm_bind; [apply calmly_core, abort_calm|]. done.
  - eapply calm_bind; [apply calmly_base, add_dependency_calm|]. intros [|] _; [done|].
    eapply calm_bind; [apply stopped_calm|]. intros [|] _; [done|]. destruct (bool_decide _); [|done].
    eapply calm_bind; [apply calmly_core, abort_calm|]. done.
  - eapply calm_bind; [apply calmly_core, abort_calm|]. done.
  - eapply calm_bind; [apply calmly_core, finish_vm_calm|]. intros flags _.
    apply safe_bind. eapply safe_mono; [|apply graph_store_result_safe]. intros _ t ->. cbn beta.
    apply safe_bind. eapply safe_mono; [|apply graph_finish_execution_safe; [done|by left|done]]. by intros t tok' [? ?].
Qed.

Lemma graph_try_validate_safe v tok : pend tok = [] → safe (try_validate n v) (task_ok tok) tok.
Proof.
  intros Hp. unfold try_validate. eapply calm_bind; [apply calmly_core, calmly_mem|]. intros valid _.
  eapply calm_bind with (P := λ _, True).
  { destruct valid; [done|]. apply calmly_base, try_validation_abort_calm. }
  intros b _. eapply calm_bind with (P := λ _, True).
  { destruct b; [|done]. apply calmly_core, calmly_mem. }
  intros _ _. by apply graph_finish_validation_safe.
Qed.

Lemma graph_after_task_safe o tok :
  pend tok = [] → match o with Some (Execution v) => tx_idx v ∈ sat tok | _ => True end →
  safe (after_task o) worker_ok tok.
Proof.
  intros Hp Ho. unfold after_task. eapply calm_bind; [apply (calmly_core _ _ (λ _, True)); by intros c|].
  intros [r|] _; [done|]. by destruct o as [[v|v]|].
Qed.

Lemma graph_worker_safe w tok : worker_ok w tok →
  match graph_worker_step vm n w with Some p => safe p worker_ok tok | None => True end.
Proof.
  intros Hw. destruct w as [|[v|v] last|]; cbn [graph_worker_step]; [| | |done]; destruct Hw as [Hp Hs].
  - apply safe_bind. eapply safe_mono; [|apply graph_next_task_safe]. intros [| |[v|v]] t [[_ Hp'] Hv]; (split; [congruence|done]).
  - apply safe_bind. eapply safe_mono; [|by apply graph_try_execute_iteration_safe].
    intros [last'|o] t Ho; [done|]. destruct Ho as [Hp' Hv]. apply graph_after_task_safe; [done|].
    destruct o as [[v'|v']|]; [by destruct (Hv v')|done|done].
  - apply safe_bind. eapply safe_mono; [|by apply graph_try_validate_safe].
    intros o t [[_ Hp'] Hv]. apply graph_after_task_safe; [congruence|done].
Qed.
End inv.

(** ** Every reachable state *)

Section reachable.
Context {R E : Type} (n : nat) (graph : TransactionGraph).
Context (Hlinks : links_wf (nodes graph)) (Hn : length (nodes graph) = n) (Hsize : N.of_nat n < u64_modulus).

(** At the start all parents are unreleased. *)
Lemma initial_unreleased i node :
  nodes graph !! i = Some node → unreleased (GraphExt_new n graph) node = length (parent_indices node).
Proof.
  intros Hi. assert (Hlt : ∀ p, p ∈ parent_indices node → (p < n)%nat).
  { intros p Hp%(links_mirror _ Hlinks p i node Hi). pose proof (links_order _ Hlinks p i Hp). lia. }
  unfold unreleased. simpl. clear Hi. induction (parent_indices node) as [|p l IH]; [done|]. rewrite filter_cons, decide_True.
  - simpl. f_equal. apply IH. intros p' Hp'. apply Hlt. by right.
  - apply lookup_replicate_2, Hlt. by left.
Qed.

Lemma graph_initial_inv m (results : list (option R)) threads :
  GInv n graph (graph_initial (E := E) n m results graph) (replicate threads idle).
Proof.
  assert (Hpend : replicate threads idle ≫= pend = []) by (induction threads; [done|]; by rewrite replicate_S, bind_cons).
  split; simpl; [done|by rewrite length_replicate| | | | | |].
  - split; [by rewrite length_fmap|]. intros i c. rewrite list_lookup_fmap, fmap_Some.
    intros (node & Hi & ->). unfold parents_of. by rewrite Hi.
  - intros i node Hi. rewrite list_lookup_fmap, Hi. simpl. rewrite (initial_unreleased i node Hi).
    unfold owed. by rewrite Hpend, Nat.add_0_r.
  - intros p Hp. by apply lookup_replicate_1 in Hp as [? _].
  - intros i tx Htx [Hs|Hs]; apply lookup_replicate_1 in Htx as [-> _]; simpl in *; [done|lia].
  - intros t i [-> _]%elem_of_replicate Hi. by apply not_elem_of_nil in Hi.
  - intros t i [-> _]%elem_of_replicate Hi. by apply not_elem_of_nil in Hi.
Qed.

Lemma graph_reachable_inv (vm : TxVersion → prog (Shared R E) (vm_outcome R E)) {vm_spec : VmSpec True vm} m results threads g ths :
  reachable (graph_worker_step vm n) (graph_initial n m results graph) (graph_spawn vm n threads) (g, ths) →
  ∃ toks, GInv n graph g toks.
Proof.
  intros Hr.
  assert (Hall : Forall2 (thread_ok True (GInv n graph) worker_ok (λ _, True)) (graph_spawn vm n threads) (replicate threads idle)).
  { unfold graph_spawn. clear Hr. induction threads as [|t IH]; [constructor|]. rewrite !replicate_S. constructor; [|done].
    by apply (graph_worker_safe n graph Hlinks Hn Hsize vm GNext idle). }
  destruct (threads_safe _ True (GInv n graph) (GInv_perm n graph) worker_ok (λ _, True) (graph_worker_safe n graph Hlinks Hn Hsize vm)
              _ _ _ _ _ (graph_initial_inv m results threads) Hall Hr) as (toks & Hinv & _).
  by exists toks.
Qed.
End reachable.

(** ** A block *)

(** Three transactions; the second one is a child of the first. *)
Definition free_node (i : N) (children parents : list nat) : TransactionNode := mkNode i 0 1 1 [] [] 1 children parents.
Definition graph_of (l : list TransactionNode) : TransactionGraph := mkGraph l ∅ ∅ ∅ [] None [] default_hot_key_threshold ∅.
Definition chain_graph : TransactionGraph := graph_of [free_node 0 [1%nat] []; free_node 1 [] [0%nat]; free_node 2 [] []].

(** Every transaction writes a location of its own. *)
Definition writing_vm (v : TxVersion) : prog (Shared unit unit) (vm_outcome unit unit) :=
  Ret (VmOk None ∅ [(N.of_nat (tx_idx v), StorageValue 1)] tt).

#[local] Instance writing_vm_spec : VmSpec True writing_vm.
Proof. by intros v. Qed.

(** One step of thread [t]. *)
Ltac act t := eapply rtc_l; [eapply (step_act _ t); [reflexivity|vm_compute; reflexivity]|]; cbn [insert list_insert].
Ltac choose t x := eapply rtc_l; [eapply (step_demon _ t _ _ _ _ x); reflexivity|]; cbn [insert list_insert].
Ltac next t := eapply rtc_l; [eapply (step_next _ t); reflexivity|]; cbn [insert list_insert].
(** Thread [t] asks for a task, without running into the timeout. *)
Ltac ask t := act t; choose t false.

Lemma chain_edge i j : edge_in (nodes chain_graph) i j ↔ i = 0%nat ∧ j = 1%nat.
Proof.
  split; [|intros [-> ->]; eexists; split; [reflexivity|by left]].
  intros (node & Hi & Hj). destruct i as [|[|[|i]]]; [injection Hi as <-..|done]; simpl in Hj; [|by apply not_elem_of_nil in Hj..].
  by apply list_elem_of_singleton in Hj as ->.
Qed.

Lemma chain_links : links_wf (nodes chain_graph).
Proof.
  split.
  - intros i j node Hj. rewrite chain_edge.
    destruct j as [|[|[|j]]]; [injection Hj as <-..|done]; simpl; rewrite ?elem_of_nil, ?list_elem_of_singleton; naive_solver.
  - intros i j [-> ->]%chain_edge. simpl. lia.
  - intros i node Hi. destruct i as [|[|[|i]]]; [injection Hi as <-..|done]; simpl; split; (apply NoDup_singleton || apply NoDup_nil_2).
Qed.

(** The child is handed out after the parent has been executed and validated. *)
Lemma chain_run : ∃ g ths tx,
  reachable (graph_worker_step writing_vm 3) (graph_initial 3 (MvMemory_new 3 [] []) (grow_results 3 []) chain_graph)
    (graph_spawn writing_vm 3 1) (g, ths) ∧
  transactions_status (sched (core g)) !! 1%nat = Some tx ∧ status tx = Executing.
Proof.
  do 3 eexists. split.
  - unfold reachable. cbn [graph_spawn replicate].
    ask 0%nat; repeat act 0%nat; next 0%nat; repeat act 0%nat; next 0%nat.
    choose 0%nat sample_order; repeat act 0%nat; next 0%nat; ask 0%nat; repeat act 0%nat. reflexivity.
  - split; reflexivity.
Qed.

(** C5: Graph order: however the threads of the graph-based executor are interleaved, and even past a
    failed assertion, a transaction that is being executed or has been executed has no parent in
    the dependency graph that has not finished an execution and stored its result in
    this block, and no counter of remaining dependencies ever wraps below zero. *)
Theorem graph_order_respected {R E} (vm : TxVersion → prog (Shared R E) (vm_outcome R E)) n graph m threads g ths :
  VmSpec True vm → links_wf (nodes graph) → length (nodes graph) = n → N.of_nat n < u64_modulus →
  reachable (graph_worker_step vm n) (graph_initial n m (grow_results n []) graph) (graph_spawn vm n threads) (g, ths) →
  (∀ i tx p, transactions_status (sched (core g)) !! i = Some tx → started tx → edge graph p i →
     children_released (ext g) !! p = Some true ∧ has_result (core g) p) ∧
  ∀ i node c, nodes graph !! i = Some node → remaining_dependencies (ext g) !! i = Some c →
    c <= N.of_nat (length (parent_indices node)).
Proof.
  intros Hvm Hl Hn Hs Hr. destruct (graph_reachable_inv n graph Hl Hn Hs vm _ _ _ _ _ Hr) as [toks Hinv]. split.
  - intros i tx p Htx Hst Hp. pose proof (links_order _ Hl p i Hp) as Hlt.
    destruct (lookup_lt_is_Some_2 (nodes graph) i) as [node Hi]; [lia|].
    pose proof (G_count _ _ _ _ Hinv i node Hi) as Hc. rewrite (G_started _ _ _ _ Hinv i tx Htx Hst) in Hc. injection Hc as Hc.
    destruct (lookup_lt_is_Some_2 (children_released (ext g)) p) as [b Hb]; [rewrite (G_released _ _ _ _ Hinv); lia|].
    assert (b = true) as ->; [|split; [done|by apply (G_done _ _ _ _ Hinv)]].
    destruct b; [done|]. exfalso.
    assert (Hin : p ∈ filter (λ p, children_released (ext g) !! p = Some false) (parent_indices node)).
    { apply list_elem_of_filter. split; [done|]. by apply (links_mirror _ Hl p i node Hi). }
    unfold unreleased in Hc. destruct (filter _ (parent_indices node)); [by apply not_elem_of_nil in Hin|]. simpl in Hc. lia.
  - intros i node c Hi Hc. destruct (G_bound _ _ _ _ Hinv) as [_ Hb]. specialize (Hb i c Hc). unfold parents_of in Hb. by rewrite Hi in Hb.
Qed.

Lemma graph_order_respected_witness : ∃ g : GraphShared unit unit,
  (∃ tx, transactions_status (sched (core g)) !! 1%nat = Some tx ∧ status tx = Executing) ∧ has_result (core g) 0.
Proof.
  destruct chain_run as (g & ths & tx & Hr & Htx & Hst). exists g. split; [by exists tx|].
  destruct (graph_order_respected writing_vm 3 chain_graph (MvMemory_new 3 [] []) 1 g ths) as [H _].
  - exact writing_vm_spec.
  - exact chain_links.
  - reflexivity.
  - reflexivity.
  - exact Hr.
  - eapply (H 1%nat tx 0%nat); [exact Htx|left; rewrite Hst; discriminate|]. exists (free_node 0 [1%nat] []). split; [reflexivity|by left].
Defined.

(** ** An assertion that fails *)

(** Three transactions without dependencies; the last one is blocked by the second one in its
    first execution. *)
Definition free_graph : TransactionGraph := graph_of [free_node 0 [] []; free_node 1 [] []; free_node 2 [] []].
Definition blocking_vm (v : TxVersion) : prog (Shared unit unit) (vm_outcome unit unit) :=
  if bool_decide (v = mkVersion 2%nat 0%nat) then Ret (VmBlocking 1) else writing_vm v.

(** Four threads make the assertion of [set_ready_status] fail: thread 2 steals transaction 2 by
    its validation index while it is in the heap, is blocked by transaction 1 and aborts it;
    a thread pops the stale entry of the heap and executes transaction 2, since [try_execute]
    accepts aborting transactions; then transaction 1 ends and resumes it. *)
Lemma graph_assertion_fails : VmSpec False blocking_vm ∧ ∃ c,
  reachable (graph_worker_step blocking_vm 3) (graph_initial 3 (MvMemory_new 3 [] []) (grow_results 3 []) free_graph)
    (graph_spawn blocking_vm 3 4) c ∧ crashes c.
Proof.
  split.
  { intros v. unfold blocking_vm. case_bool_decide; subst; simpl; [lia|done]. }
  eexists. split.
  - unfold reachable. cbn [graph_spawn replicate].
    ask 0%nat; repeat act 0%nat; next 0%nat; repeat act 0%nat.
    ask 1%nat; repeat act 1%nat; next 1%nat.
    ask 2%nat; do 6 act 2%nat.
    ask 3%nat; do 7 act 3%nat.
    repeat act 2%nat; next 2%nat; repeat act 2%nat; next 2%nat.
    ask 2%nat; repeat act 2%nat.
    repeat act 1%nat. reflexivity.
  - exists 1%nat. do 3 eexists. split; [reflexivity|vm_compute; reflexivity].
Qed.
