(* ===== verification/TxCodec.v ===== *)
(** * Serialization of transactions

    Models src/pevm/crates/pevm/src/serialization: the conversion between the transactions of
    the executor and the requests of the ethers library (adapter.rs), the encoding as
    hexadecimal EIP-1559 envelopes (serializer.rs), the decoders and the files of
    transactions (deserializer.rs). Signed transactions are decoded as well; signing
    needs a wallet and is not modelled.

    The libraries are parameters: the RLP format, hexadecimal digits, the recovery of the
    sender, the text of an address, and the envelope that ethers builds. [CodecSpec] has what
    the round trip relies on. An address is its 20 bytes as a number, a
    storage key its 32 bytes. *)

From S2P Require Import Prelude Bytes.
From stdpp Require Import countable.
From Stdlib Require Import Strings.Byte Strings.Ascii.

#[global] Instance byte_eq_dec : EqDecision byte := Byte.byte_eq_dec.

(** ** Data *)

Local Open Scope N_scope.
Notation text := (list ascii).

(** [TxEnv] of revm. *)
Record TxEnvFull := mkTxEnvFull {
  env_caller : N;
  env_gas_limit : N;
  env_gas_price : N;
  env_transact_to : option N;
  env_value : N;
  env_data : list byte;
  env_nonce : option N;
  env_chain_id : option N;
  env_access_list : list (N * list N);
  env_gas_priority_fee : option N;
  env_blob_hashes : list N;
  env_max_fee_per_blob_gas : option N;
  (* the recovered authorities of the authorizations *)
  env_authorization_list : option (list (option N)) }.

(** The sender, the recipient and the [Default] of the other fields. *)
Definition TxEnv_default (caller gas_limit gas_price : N) (to : option N) (value : N) (input : list byte) (nonce chain : option N)
    (access : list (N * list N)) : TxEnvFull :=
  mkTxEnvFull caller gas_limit gas_price to value input nonce chain access None [] None None.

Inductive NameOrAddress := Name (name : text) | AddressOf (a : N).

Record TransactionRequest := mkLegacy {
  legacy_to : option NameOrAddress;
  legacy_gas : option N;
  legacy_gas_price : option N;
  legacy_value : option N;
  legacy_data : option (list byte);
  legacy_nonce : option N }.

Record Eip1559TransactionRequest := mk1559 {
  req_to : option NameOrAddress;
  req_gas : option N;
  req_value : option N;
  req_data : option (list byte);
  req_nonce : option N;
  req_chain_id : option N;
  req_max_priority_fee_per_gas : option N;
  req_max_fee_per_gas : option N;
  req_access_list : list (N * list N) }.

Inductive DecodedTransaction :=
| DecodedLegacy (tx : TransactionRequest) (caller : N)
| DecodedEip1559 (tx : Eip1559TransactionRequest) (caller : N)
| DecodedUnknown.

(** ** Adapter *)

(** [as_u64], which panics on overflow. *)
Definition as_u64 (n : N) : outcome N := if bool_decide (n < u64_modulus) then Ok n else Panic.
Definition map_u64 (o : option N) : outcome (option N) :=
  match o with None => Ok None | Some n => Some <$> as_u64 n end.

Definition option_u256_to_uint_or_zero (o : option N) : N := default 0 o.

(** A name would have to be resolved: [unimplemented!]. *)
Definition to_tx_kind (to : option NameOrAddress) : outcome (option N) :=
  match to with Some (AddressOf a) => Ok (Some a) | Some (Name _) => Panic | None => Ok None end.

Definition legacy_transaction_2_tx_env (tx : TransactionRequest) (caller : N) : outcome TxEnvFull :=
  gas ← map_u64 (legacy_gas tx);
  to ← to_tx_kind (legacy_to tx);
  nonce ← map_u64 (legacy_nonce tx);
  Ok (TxEnv_default caller (default 0 gas) (option_u256_to_uint_or_zero (legacy_gas_price tx)) to
        (option_u256_to_uint_or_zero (legacy_value tx)) (default [] (legacy_data tx)) nonce None []).

Definition eip1559_transaction_2_tx_env (tx : Eip1559TransactionRequest) (caller : N) : outcome TxEnvFull :=
  let base_fee := 0 in
  let max_priority := default 0 (req_max_priority_fee_per_gas tx) in
  let max_fee := default 0 (req_max_fee_per_gas tx) in
  let gas_price := if bool_decide (base_fee + max_priority < max_fee) then max_fee else max_priority in
  chain ← as_u64 (default 0 (req_chain_id tx));
  nonce ← map_u64 (req_nonce tx);
  gas ← map_u64 (req_gas tx);
  to ← to_tx_kind (req_to tx);
  Ok (TxEnv_default caller (default 0 gas) gas_price to (option_u256_to_uint_or_zero (req_value tx))
        (default [] (req_data tx)) nonce (Some chain) (req_access_list tx)).

Definition adapt_transaction (tx : DecodedTransaction) : outcome TxEnvFull :=
  match tx with
  | DecodedLegacy tx caller => legacy_transaction_2_tx_env tx caller
  | DecodedEip1559 tx caller => eip1559_transaction_2_tx_env tx caller
  | DecodedUnknown => Panic
  end.

Definition adapt_tx_env (tx : TxEnvFull) : Eip1559TransactionRequest * N :=
  (mk1559 (AddressOf <$> env_transact_to tx) (Some (env_gas_limit tx)) (Some (env_value tx)) (Some (env_data tx))
     (Some (default 0 (env_nonce tx))) (Some (default 0 (env_chain_id tx))) None (Some (env_gas_price tx)) (env_access_list tx),
   env_caller tx).

(** ** RLP *)

Inductive item := RData (l : list byte) | RList (l : list item).

(** [Rlp::at(i).unwrap()]: the item of a list. *)
Definition rlp_at (i : nat) (r : item) : outcome item :=
  match r with RList l => expect (l !! i) | RData _ => Panic end.
(** [Rlp::data().unwrap_or_default()] *)
Definition rlp_data (r : item) : list byte := match r with RData l => l | RList _ => [] end.
(** [Rlp::iter] ends at once on data. *)
Definition rlp_iter (r : item) : list item := match r with RList l => l | RData _ => [] end.
(** [Rlp::item_count], an error on data. *)
Definition item_count (r : item) : option nat := match r with RList l => Some (length l) | RData _ => None end.

Definition be_value (l : list byte) : N := from_le_bytes (rev l).

(** [from_big_endian] panics on more bytes than fit. *)
Definition u256_from_bytes (l : list byte) : outcome N :=
  if bool_decide (length l ≤ 32)%nat then Ok (be_value l) else Panic.
Definition u64_from_bytes (l : list byte) : outcome N :=
  if bool_decide (length l ≤ 8)%nat then Ok (be_value l) else Panic.

(** The last 20 bytes. *)
Definition last_20 (l : list byte) : N := be_value (drop (length l - 20) l).

Definition parse_to_address (l : list byte) : option N :=
  if bool_decide (length l < 20)%nat then None else Some (last_20 l).

Definition parse_key (r : item) : option N :=
  let l := rlp_data r in if bool_decide (length l ≤ 32)%nat then Some (be_value l) else None.

(** A shorter address does not fit [copy_from_slice]. *)
Definition parse_access_item (r : item) : outcome (N * list N) :=
  a ← rlp_at 0 r;
  keys ← rlp_at 1 r;
  if bool_decide (length (rlp_data a) < 20)%nat then Panic
  else Ok (last_20 (rlp_data a), omap parse_key (rlp_iter keys)).

Fixpoint parse_access_items (l : list item) : outcome (list (N * list N)) :=
  match l with
  | [] => Ok []
  | r :: l => x ← parse_access_item r; xs ← parse_access_items l; Ok (x :: xs)
  end.

Definition parse_access_list (r : item) (idx : nat) : outcome (list (N * list N)) :=
  l ← rlp_at idx r; parse_access_items (rlp_iter l).

Definition field (i : nat) (r : item) : outcome (list byte) := x ← rlp_at i r; Ok (rlp_data x).
Definition u256_field (i : nat) (r : item) : outcome N := l ← field i r; u256_from_bytes l.

(** ** Codecs *)

Section codec.
Context (rlp_decode : list byte → option item) (rlp_encode : item → list byte).
Context (hex_encode : list byte → text) (hex_decode : text → option (list byte)).
(** [Signature::recover] on the hash of the unsigned transaction, with [r], [s] and [v]. *)
Context (recover : N → N → N → list byte → option N).
(** [TypedTransaction::rlp] *)
Context (rlp_1559 : Eip1559TransactionRequest → list byte).

(** *** Serializer *)

Definition encode_tx_unsigned (tx : Eip1559TransactionRequest) : text :=
  "0"%char :: "x"%char :: hex_encode (rlp_1559 tx).

Definition encode_batch_to_hex (txs : list TxEnvFull) : list (text * N) :=
  (λ tx, let '(req, caller) := adapt_tx_env tx in (encode_tx_unsigned req, caller)) <$> txs.

(** *** Deserializer *)

Definition recover_address (r s v : N) (unsigned : list byte) : outcome N :=
  v ← as_u64 v; expect (recover r s v unsigned).

(** [Rlp::new] on bytes that are no item fails at the first access. *)
Definition decode_legacy (bytes no_signature : list byte) : outcome (TransactionRequest * N) :=
  r ← expect (rlp_decode bytes);
  nonce ← u256_field 0 r;
  gas_price ← u256_field 1 r;
  gas_limit ← u256_field 2 r;
  to ← field 3 r;
  value ← u256_field 4 r;
  input ← field 5 r;
  caller ← (if bool_decide (9 ≤ default 0 (item_count r))%nat then
              v ← u256_field 6 r;
              r_sig ← u256_field 7 r;
              s_sig ← u256_field 8 r;
              recover_address r_sig s_sig v no_signature
            else Ok 0);
  Ok (mkLegacy (AddressOf <$> parse_to_address to) (Some gas_limit) (Some gas_price) (Some value) (Some input) (Some nonce), caller).

Definition decode_eip1559 (inner no_signature : list byte) : outcome (Eip1559TransactionRequest * N) :=
  r ← expect (rlp_decode inner);
  chain ← field 0 r;
  chain_id ← u64_from_bytes chain;
  nonce ← u256_field 1 r;
  max_priority ← u256_field 2 r;
  max_fee ← u256_field 3 r;
  gas_limit ← u256_field 4 r;
  to ← field 5 r;
  value ← u256_field 6 r;
  input ← field 7 r;
  access_list ← parse_access_list r 8;
  caller ← (if bool_decide (11 ≤ default 0 (item_count r))%nat then
              v ← u256_field 9 r;
              r_sig ← u256_field 10 r;
              s_sig ← u256_field 11 r;
              recover_address r_sig s_sig v no_signature
            else Ok 0);
  Ok (mk1559 (AddressOf <$> parse_to_address to) (Some gas_limit) (Some value) (Some input) (Some nonce) (Some chain_id)
        (Some max_priority) (Some max_fee) access_list, caller).

(** The transaction without its last three fields. *)
Definition strip_signature (raw : list byte) : outcome (list byte) :=
  let '(tx_type, rlp_bytes) :=
    match raw with
    | b :: rest => if bool_decide (b = x02) || bool_decide (b = x01) then ([b], rest) else ([], raw)
    | [] => ([], raw)
    end in
  r ← expect (rlp_decode rlp_bytes);
  total ← expect (item_count r);
  if bool_decide (total < 3)%nat then Panic
  else Ok (tx_type ++ rlp_encode (RList (take (total - 3) (rlp_iter r)))).

(** [trim_start_matches] removes the prefix as often as it occurs. *)
Fixpoint trim_0x (h : text) : text :=
  match h with
  | "0"%char :: "x"%char :: h' => trim_0x h'
  | _ => h
  end.

(** [decode_hex], and [decode_hex_with_known_addr] if the sender is known. *)
Definition decode_hex_as (known : option N) (raw_hex : text) : outcome DecodedTransaction :=
  bytes ← expect (hex_decode (trim_0x raw_hex));
  match bytes with
  | [] => Ok DecodedUnknown
  | b :: inner =>
      no_signature ← strip_signature bytes;
      if bool_decide (b = x02) then
        if bool_decide (length bytes < 2)%nat then Ok DecodedUnknown
        else r ← decode_eip1559 inner no_signature; Ok (DecodedEip1559 r.1 (default r.2 known))
      else if bool_decide (0xc0 <= Byte.to_N b) then
        r ← decode_legacy bytes no_signature; Ok (DecodedLegacy r.1 (default r.2 known))
      else Ok DecodedUnknown
  end.
Definition decode_hex (raw_hex : text) : outcome DecodedTransaction := decode_hex_as None raw_hex.
Definition decode_hex_with_known_addr (raw_hex : text) (addr : N) : outcome DecodedTransaction := decode_hex_as (Some addr) raw_hex.

Definition decode_one_hex (hex : text) (addr : N) : outcome (option TxEnvFull) :=
  d ← decode_hex_with_known_addr hex addr;
  match d with DecodedUnknown => Ok None | _ => Some <$> adapt_transaction d end.

Fixpoint decode_batch_hex (l : list (text * N)) : outcome (list TxEnvFull) :=
  match l with
  | [] => Ok []
  | (hex, addr) :: l =>
      o ← decode_one_hex hex addr;
      txs ← decode_batch_hex l;
      Ok (match o with Some tx => tx :: txs | None => txs end)
  end.

(** *** Files *)

Context (parse_address : text → option N) (show_address : N → text).

Definition is_whitespace (c : ascii) : bool :=
  let n := N_of_ascii c in bool_decide (n = 32) || (bool_decide (9 <= n) && bool_decide (n <= 13)).

(** [split_whitespace]; [word] is the word being read. *)
Fixpoint split_words (word : text) (l : text) : list text :=
  let flush := match word with [] => [] | _ => [word] end in
  match l with
  | [] => flush
  | c :: l => if is_whitespace c then flush ++ split_words [] l else split_words (word ++ [c]) l
  end.
Definition split_whitespace (l : text) : list text := split_words [] l.

(** The line that [write_to_file] appends. *)
Definition file_line (tx : TxEnvFull) : text :=
  let '(req, caller) := adapt_tx_env tx in encode_tx_unsigned req ++ " "%char :: show_address caller.
Definition write_to_file (tx : TxEnvFull) (lines : list text) : list text := lines ++ [file_line tx].

Fixpoint read_from_file (lines : list text) : outcome (list (text * N)) :=
  match lines with
  | [] => Ok []
  | line :: lines =>
      match split_whitespace line with
      | [hex; addr] => a ← expect (parse_address addr); rest ← read_from_file lines; Ok ((hex, a) :: rest)
      | _ => read_from_file lines
      end
  end.

(** A line of [ChunkFileReader::read_next]; malformed lines are skipped. *)
Definition parse_line (line : text) : option (text * N) :=
  match split_whitespace line with
  | [hex; addr] => (λ a, (hex, a)) <$> parse_address addr
  | _ => None
  end.

(** The next [n] transactions, and the lines that are left. *)
Fixpoint read_next (n : nat) (lines : list text) : list (text * N) * list text :=
  match lines with
  | [] => ([], [])
  | line :: rest =>
      match n with
      | O => ([], lines)
      | S n' =>
          match parse_line line with
          | Some p => let '(out, todo) := read_next n' rest in (p :: out, todo)
          | None => read_next n rest
          end
      end
  end.
End codec.

(** ** The formats of the libraries *)

Fixpoint strip_zeros (l : list byte) : list byte :=
  match l with
  | b :: l' => if bool_decide (b = x00) then strip_zeros l' else l
  | [] => []
  end.

(** RLP integers have no leading zeros. *)
Definition int_item (n : N) : item := RData (strip_zeros (to_be_bytes 32 n)).
Definition opt_item (o : option N) : item := match o with Some n => int_item n | None => RData [] end.
Definition access_item (p : N * list N) : item :=
  RList [RData (to_be_bytes 20 p.1); RList ((λ k, RData (to_be_bytes 32 k)) <$> p.2)].

(** The payload of an EIP-1559 envelope. *)
Definition request_item (tx : Eip1559TransactionRequest) : item :=
  RList [opt_item (req_chain_id tx); opt_item (req_nonce tx); opt_item (req_max_priority_fee_per_gas tx);
         opt_item (req_max_fee_per_gas tx); opt_item (req_gas tx);
         RData (match req_to tx with Some (AddressOf a) => to_be_bytes 20 a | _ => [] end);
         opt_item (req_value tx); RData (default [] (req_data tx)); RList (access_item <$> req_access_list tx)].

Definition address_modulus : N := 256 ^ 20.
Definition word_modulus : N := 256 ^ 32.
Definition is_name (to : option NameOrAddress) : bool := match to with Some (Name _) => true | _ => false end.

(** What the libraries promise. *)
Class CodecSpec (rlp_decode : list byte → option item) (rlp_encode : item → list byte)
    (hex_encode : list byte → text) (hex_decode : text → option (list byte))
    (rlp_1559 : Eip1559TransactionRequest → list byte)
    (parse_address : text → option N) (show_address : N → text) : Prop := {
  rlp_roundtrip i : rlp_decode (rlp_encode i) = Some i;
  rlp_nonempty i : rlp_encode i ≠ [];
  hex_roundtrip l : hex_decode (hex_encode l) = Some l;
  hex_no_x l : "x"%char ∉ hex_encode l;
  hex_no_space l : Forall (λ c, is_whitespace c = false) (hex_encode l);
  rlp_1559_envelope tx : is_name (req_to tx) = false → rlp_1559 tx = x02 :: rlp_encode (request_item tx);
  address_roundtrip a : a < address_modulus → parse_address (show_address a) = Some a;
  address_nonempty a : show_address a ≠ [];
  address_no_space a : Forall (λ c, is_whitespace c = false) (show_address a) }.

(** The ranges of the types of the fields. *)
Record encodable (tx : TxEnvFull) : Prop := {
  enc_caller : env_caller tx < address_modulus;
  enc_gas_limit : env_gas_limit tx < u64_modulus;
  enc_gas_price : env_gas_price tx < word_modulus;
  enc_to : from_option (λ a, a < address_modulus) True (env_transact_to tx);
  enc_value : env_value tx < word_modulus;
  enc_nonce : default 0 (env_nonce tx) < u64_modulus;
  enc_chain : default 0 (env_chain_id tx) < u64_modulus;
  enc_access : Forall (λ p, p.1 < address_modulus ∧ Forall (λ k, k < word_modulus) p.2) (env_access_list tx) }.

(** What an unsigned envelope keeps of a transaction: the priority fee, the blobs and the
    authorizations are lost, an absent nonce or chain becomes zero. *)
Definition canonical (tx : TxEnvFull) : TxEnvFull :=
  TxEnv_default (env_caller tx) (env_gas_limit tx) (env_gas_price tx) (env_transact_to tx) (env_value tx) (env_data tx)
    (Some (default 0 (env_nonce tx))) (Some (default 0 (env_chain_id tx))) (env_access_list tx).

(** ** Integers *)

Lemma to_le_bytes_pad k j n : n < 256 ^ N.of_nat k → to_le_bytes (k + j) n = to_le_bytes k n ++ replicate j x00.
Proof.
  revert n. induction k as [|k IH]; intros n Hn.
  - simpl in Hn. assert (n = 0) as -> by lia. simpl. clear. induction j as [|j IH]; [done|].
    cbn [to_le_bytes replicate]. change (0 / 256) with 0. by rewrite IH.
  - cbn [Nat.add to_le_bytes app]. f_equal. apply IH.
    apply N.Div0.div_lt_upper_bound. rewrite <- N.pow_succ_r'. by replace (N.succ (N.of_nat k)) with (N.of_nat (S k)) by lia.
Qed.

Lemma to_be_bytes_pad k j n : n < 256 ^ N.of_nat k → to_be_bytes (k + j) n = replicate j x00 ++ to_be_bytes k n.
Proof. intros Hn. unfold to_be_bytes. rewrite to_le_bytes_pad, rev_app_distr by done. f_equal. rewrite rev_alt. apply reverse_replicate. Qed.

Lemma length_to_be_bytes k n : length (to_be_bytes k n) = k.
Proof. unfold to_be_bytes. by rewrite length_rev, length_to_le_bytes. Qed.

Lemma be_value_to_be_bytes k n : n < 256 ^ N.of_nat k → be_value (to_be_bytes k n) = n.
Proof. intros Hn. unfold be_value, to_be_bytes. by rewrite rev_involutive, from_to_le_bytes. Qed.

Lemma from_le_bytes_app_zero l : from_le_bytes (l ++ [x00]) = from_le_bytes l.
Proof. induction l as [|b l IH]; cbn [app from_le_bytes]; [done|]. by rewrite IH. Qed.

Lemma be_value_strip_zeros l : be_value (strip_zeros l) = be_value l.
Proof.
  induction l as [|b l IH]; [done|]. cbn [strip_zeros]. case_bool_decide as Hb; [|done].
  subst b. rewrite IH. unfold be_value. cbn [rev]. by rewrite from_le_bytes_app_zero.
Qed.

Lemma length_strip_zeros l : (length (strip_zeros l) ≤ length l)%nat.
Proof. induction l as [|b l IH]; cbn [strip_zeros]; [done|]. case_bool_decide; simpl in *; lia. Qed.

Lemma strip_zeros_replicate j l : strip_zeros (replicate j x00 ++ l) = strip_zeros l.
Proof. induction j as [|j IH]; [done|]. cbn [replicate app strip_zeros]. by rewrite bool_decide_true. Qed.

Lemma u256_int_item n : n < word_modulus → u256_from_bytes (rlp_data (int_item n)) = Ok n.
Proof.
  intros Hn. unfold u256_from_bytes, int_item. cbn [rlp_data].
  rewrite bool_decide_true, be_value_strip_zeros, be_value_to_be_bytes; [done|exact Hn|].
  etrans; [apply length_strip_zeros|]. by rewrite length_to_be_bytes.
Qed.

Lemma u64_int_item n : n < u64_modulus → u64_from_bytes (rlp_data (int_item n)) = Ok n.
Proof.
  intros Hn. unfold u64_from_bytes, int_item. cbn [rlp_data]. change 32%nat with (8 + 24)%nat.
  rewrite to_be_bytes_pad, strip_zeros_replicate by exact Hn.
  rewrite bool_decide_true, be_value_strip_zeros, be_value_to_be_bytes; [done|exact Hn|].
  etrans; [apply length_strip_zeros|]. by rewrite length_to_be_bytes.
Qed.

Lemma u64_in_word n : n < u64_modulus → n < word_modulus.
Proof. intros Hn. etrans; [exact Hn|]. reflexivity. Qed.

Lemma as_u64_ok n : n < u64_modulus → as_u64 n = Ok n.
Proof. intros Hn. unfold as_u64. by rewrite bool_decide_true. Qed.

(** ** Round trip *)

Lemma last_20_bytes a : a < address_modulus → last_20 (to_be_bytes 20 a) = a.
Proof.
  intros Ha. unfold last_20. rewrite length_to_be_bytes. change (20 - 20)%nat with 0%nat.
  rewrite drop_0. by apply be_value_to_be_bytes.
Qed.

Lemma parse_to_address_bytes a : a < address_modulus → parse_to_address (to_be_bytes 20 a) = Some a.
Proof.
  intros Ha. unfold parse_to_address. rewrite length_to_be_bytes, bool_decide_false by lia. by rewrite last_20_bytes.
Qed.

Lemma parse_keys_items keys :
  Forall (λ k, k < word_modulus) keys → omap parse_key ((λ k, RData (to_be_bytes 32 k)) <$> keys) = keys.
Proof.
  induction 1 as [|k keys Hk _ IH]; [done|]. cbn [fmap list_fmap omap list_omap].
  unfold parse_key at 1. cbn [rlp_data]. rewrite length_to_be_bytes, bool_decide_true, be_value_to_be_bytes by done.
  f_equal. exact IH.
Qed.

Lemma parse_access_item_spec p :
  p.1 < address_modulus → Forall (λ k, k < word_modulus) p.2 → parse_access_item (access_item p) = Ok p.
Proof.
  destruct p as [a keys]. cbn [fst snd]. intros Ha Hk.
  transitivity (if bool_decide (length (to_be_bytes 20 a) < 20)%nat then Panic
                else Ok (last_20 (to_be_bytes 20 a), omap parse_key ((λ k, RData (to_be_bytes 32 k)) <$> keys))); [reflexivity|].
  rewrite length_to_be_bytes, bool_decide_false by lia. by rewrite last_20_bytes, parse_keys_items.
Qed.

Lemma parse_access_items_spec l :
  Forall (λ p, p.1 < address_modulus ∧ Forall (λ k, k < word_modulus) p.2) l →
  parse_access_items (access_item <$> l) = Ok l.
Proof.
  induction 1 as [|p l [Ha Hk] _ IH]; [done|]. rewrite fmap_cons. cbn [parse_access_items].
  rewrite parse_access_item_spec by done. cbn [mbind outcome_bind]. by rewrite IH.
Qed.

Lemma trim_no_x h : "x"%char ∉ h → trim_0x h = h.
Proof.
  intros Hx. destruct h as [|c1 [|c2 h]]; [done|cbn; by repeat case_match|].
  assert (c2 ≠ "x"%char) by (intros ->; set_solver).
  cbn [trim_0x]. repeat case_match; congruence.
Qed.
Lemma field_at i l x : l !! i = Some x → field i (RList l) = Ok (rlp_data x).
Proof. intros Hx. unfold field, rlp_at. by rewrite Hx. Qed.

Lemma u256_field_at i l n : l !! i = Some (int_item n) → n < word_modulus → u256_field i (RList l) = Ok n.
Proof. intros Hx Hn. unfold u256_field. rewrite (field_at _ _ _ Hx). by apply u256_int_item. Qed.

Lemma split_words_end w l :
  Forall (λ c, is_whitespace c = false) l → w ++ l ≠ [] → split_words w l = [w ++ l].
Proof.
  intros Hl. revert w. induction Hl as [|c l Hc _ IH]; intros w Hw; cbn [split_words].
  - rewrite app_nil_r in *. by destruct w.
  - rewrite Hc, IH by (rewrite <- app_assoc; done). by rewrite <- app_assoc.
Qed.

Lemma split_words_space w l rest :
  Forall (λ c, is_whitespace c = false) l → w ++ l ≠ [] →
  split_words w (l ++ " "%char :: rest) = (w ++ l) :: split_words [] rest.
Proof.
  intros Hl. revert w. induction Hl as [|c l Hc _ IH]; intros w Hw; cbn [split_words app].
  - rewrite app_nil_r in *. by destruct w.
  - rewrite Hc, IH by (rewrite <- app_assoc; done). by rewrite <- app_assoc.
Qed.

Section roundtrip.
Context `{Spec : CodecSpec rlp_decode rlp_encode hex_encode hex_decode rlp_1559 parse_address show_address}.
Context (recover : N → N → N → list byte → option N).

Lemma decode_request tx unsigned : encodable tx →
  decode_eip1559 rlp_decode recover (rlp_encode (request_item (adapt_tx_env tx).1)) unsigned
  = Ok (mk1559 (AddressOf <$> env_transact_to tx) (Some (env_gas_limit tx)) (Some (env_value tx)) (Some (env_data tx))
          (Some (default 0 (env_nonce tx))) (Some (default 0 (env_chain_id tx))) (Some 0) (Some (env_gas_price tx))
          (env_access_list tx), 0).
Proof.
  intros [? ? ? Hto ? ? ? Hacc]. unfold decode_eip1559. rewrite rlp_roundtrip. cbn [expect mbind outcome_bind].
  unfold request_item, adapt_tx_env. cbn [fst req_chain_id req_nonce req_max_priority_fee_per_gas req_max_fee_per_gas
    req_gas req_to req_value req_data req_access_list opt_item].
  erewrite (field_at 0) by reflexivity. cbn [mbind outcome_bind]. rewrite u64_int_item by done. cbn [mbind outcome_bind].
  erewrite (u256_field_at 1) by (reflexivity || eauto using u64_in_word). cbn [mbind outcome_bind].
  change (u256_field 2 _) with (Ok 0). cbn [mbind outcome_bind].
  erewrite (u256_field_at 3) by (reflexivity || done). cbn [mbind outcome_bind].
  erewrite (u256_field_at 4) by (reflexivity || eauto using u64_in_word). cbn [mbind outcome_bind].
  erewrite (field_at 5) by reflexivity. cbn [mbind outcome_bind].
  erewrite (u256_field_at 6) by (reflexivity || done). cbn [mbind outcome_bind].
  erewrite (field_at 7) by reflexivity. cbn [mbind outcome_bind].
  unfold parse_access_list. change (rlp_at 8 _) with (Ok (RList (access_item <$> env_access_list tx))).
  cbn [mbind outcome_bind rlp_iter]. rewrite parse_access_items_spec by done. cbn [mbind outcome_bind].
  cbn [item_count default length rlp_data]. rewrite bool_decide_false by (cbn; lia). cbn [mbind outcome_bind].
  repeat f_equal. destruct (env_transact_to tx) as [a|]; [by apply parse_to_address_bytes|done].
Qed.

Lemma strip_signature_request req :
  ∃ out, strip_signature rlp_decode rlp_encode (x02 :: rlp_encode (request_item req)) = Ok out.
Proof.
  unfold strip_signature. rewrite bool_decide_true by done. cbn [orb]. rewrite rlp_roundtrip.
  unfold request_item. eexists. reflexivity.
Qed.

Lemma decode_one_encoded tx : encodable tx →
  decode_one_hex rlp_decode rlp_encode hex_decode recover
    (encode_tx_unsigned hex_encode rlp_1559 (adapt_tx_env tx).1) (env_caller tx) = Ok (Some (canonical tx)).
Proof.
  intros Henc. unfold decode_one_hex, decode_hex_with_known_addr, decode_hex_as, encode_tx_unsigned.
  assert (is_name (req_to (adapt_tx_env tx).1) = false) as Hn by (cbn; by destruct (env_transact_to tx)).
  cbn [trim_0x]. rewrite trim_no_x by apply hex_no_x. rewrite hex_roundtrip, rlp_1559_envelope by done.
  cbn [expect mbind outcome_bind].
  destruct (strip_signature_request (adapt_tx_env tx).1) as [out ->]. cbn [mbind outcome_bind].
  rewrite bool_decide_true by done.
  pose proof (rlp_nonempty (request_item (adapt_tx_env tx).1)).
  rewrite bool_decide_false by (destruct (rlp_encode _); [done|simpl; lia]).
  rewrite decode_request by done. cbn [mbind outcome_bind fst snd default adapt_transaction].
  destruct Henc. unfold eip1559_transaction_2_tx_env.
  cbn [req_chain_id req_nonce req_max_priority_fee_per_gas req_max_fee_per_gas req_gas req_to req_value req_data
    req_access_list map_u64 default option_u256_to_uint_or_zero].
  rewrite !as_u64_ok by done. cbn [mbind outcome_bind fmap outcome_fmap].
  assert (to_tx_kind (AddressOf <$> env_transact_to tx) = Ok (env_transact_to tx)) as -> by (by destruct (env_transact_to tx)).
  unfold canonical. cbn [mbind outcome_bind fmap outcome_fmap]. do 2 f_equal. unfold TxEnv_default.
  f_equal. cbn [default id]. case_bool_decide; simpl in *; lia.
Qed.

Lemma batch_decoded txs : Forall encodable txs →
  decode_batch_hex rlp_decode rlp_encode hex_decode recover (encode_batch_to_hex hex_encode rlp_1559 txs) = Ok (canonical <$> txs).
Proof.
  induction 1 as [|tx txs Htx _ IH]; [done|]. unfold encode_batch_to_hex in *. rewrite !fmap_cons.
  pose proof (decode_one_encoded tx Htx) as Hd. unfold adapt_tx_env in *. cbn [decode_batch_hex fst] in *.
  rewrite Hd. cbn [mbind outcome_bind]. by rewrite IH.
Qed.

Lemma file_line_words tx :
  split_whitespace (file_line hex_encode rlp_1559 show_address tx)
  = [encode_tx_unsigned hex_encode rlp_1559 (adapt_tx_env tx).1; show_address (env_caller tx)].
Proof.
  unfold split_whitespace, file_line. cbn [adapt_tx_env fst]. rewrite split_words_space; [|by repeat constructor; apply hex_no_space|done].
  rewrite split_words_end; [done|apply address_no_space|exact (address_nonempty _)].
Qed.

Lemma written_lines txs lines :
  fold_left (λ f tx, write_to_file hex_encode rlp_1559 show_address tx f) txs lines
  = lines ++ (file_line hex_encode rlp_1559 show_address <$> txs).
Proof.
  revert lines. induction txs as [|tx txs IH]; intros lines; cbn [fold_left fmap list_fmap]; [by rewrite app_nil_r|].
  rewrite IH. unfold write_to_file. by rewrite <- app_assoc.
Qed.

Lemma file_read txs : Forall encodable txs →
  read_from_file parse_address (file_line hex_encode rlp_1559 show_address <$> txs) = Ok (encode_batch_to_hex hex_encode rlp_1559 txs).
Proof.
  induction 1 as [|tx txs Htx _ IH]; [done|]. rewrite fmap_cons. cbn [read_from_file]. rewrite file_line_words.
  rewrite address_roundtrip by apply Htx. cbn [expect mbind outcome_bind]. by rewrite IH.
Qed.

Lemma read_next_file n txs : Forall encodable txs →
  read_next parse_address n (file_line hex_encode rlp_1559 show_address <$> txs)
  = (take n (encode_batch_to_hex hex_encode rlp_1559 txs), drop n (file_line hex_encode rlp_1559 show_address <$> txs)).
Proof.
  intros Henc. revert n. induction Henc as [|tx txs Htx _ IH]; intros n; [by destruct n|].
  rewrite fmap_cons. destruct n as [|n]; [done|]. cbn [read_next]. unfold parse_line. rewrite file_line_words.
  rewrite address_roundtrip by apply Htx. cbn [fmap option_fmap option_map]. by rewrite IH.
Qed.
End roundtrip.

(** Reading a file in chunks neither loses, repeats nor reorders a transaction. *)
Lemma read_next_spec parse_address n lines out todo :
  read_next parse_address n lines = (out, todo) →
  out = take n (omap (parse_line parse_address) lines) ∧ omap (parse_line parse_address) todo = drop n (omap (parse_line parse_address) lines).
Proof.
  revert n out todo. induction lines as [|line lines IH]; intros n out todo Hr; cbn [read_next] in Hr.
  { simplify_eq. by destruct n. }
  destruct n as [|n]; [by simplify_eq|]. cbn [omap list_omap].
  destruct (parse_line parse_address line) as [p|] eqn:Hp.
  - destruct (read_next parse_address n lines) as [out' todo'] eqn:Hr'. simplify_eq.
    destruct (IH _ _ _ Hr') as [-> Ht]. split; [done|exact Ht].
  - exact (IH _ _ _ Hr).
Qed.


(** Exactly eleven fields pass the test for a signature, but there is no twelfth to read. *)
Lemma decode_eip1559_eleven_fields rlp_decode recover inner unsigned l res :
  rlp_decode inner = Some (RList l) → length l = 11%nat → decode_eip1559 rlp_decode recover inner unsigned ≠ Ok res.
Proof.
  intros Hd Hl. unfold decode_eip1559. rewrite Hd. cbn [expect mbind outcome_bind item_count default id]. rewrite Hl.
  rewrite bool_decide_true by (cbn; lia).
  assert (u256_field 11 (RList l) = Panic) as ->.
  { unfold u256_field, field, rlp_at. by rewrite lookup_ge_None_2 by lia. }
  repeat match goal with |- context [mbind _ ?m] =>
    lazymatch m with context [mbind] => fail | _ => destruct m; cbn [mbind outcome_bind]; try done end end.
Qed.

(** ** A concrete codec *)

Definition hex_digit (n : N) : ascii := ascii_of_N (if bool_decide (n < 10) then 48 + n else 87 + n).
Definition digit_value (c : ascii) : option N :=
  let n := N_of_ascii c in
  if bool_decide (48 <= n ∧ n <= 57) then Some (n - 48) else if bool_decide (97 <= n ∧ n <= 102) then Some (n - 87) else None.
Definition sample_hex (l : list byte) : text :=
  l ≫= λ b, [hex_digit (Byte.to_N b / 16); hex_digit (Byte.to_N b mod 16)].
Fixpoint sample_unhex (h : text) : option (list byte) :=
  match h with
  | [] => Some []
  | c1 :: c2 :: h => v1 ← digit_value c1; v2 ← digit_value c2; l ← sample_unhex h; Some (byte_of (16 * v1 + v2) :: l)
  | _ => None
  end.

Lemma sample_hex_cons b l :
  sample_hex (b :: l) = hex_digit (Byte.to_N b / 16) :: hex_digit (Byte.to_N b mod 16) :: sample_hex l.
Proof. done. Qed.

Lemma sample_hex_byte b : ∃ v1 v2,
  digit_value (hex_digit (Byte.to_N b / 16)) = Some v1 ∧ digit_value (hex_digit (Byte.to_N b mod 16)) = Some v2
  ∧ byte_of (16 * v1 + v2) = b.
Proof. exists (Byte.to_N b / 16), (Byte.to_N b mod 16). by destruct b. Qed.

Lemma sample_hex_roundtrip l : sample_unhex (sample_hex l) = Some l.
Proof.
  induction l as [|b l IH]; [done|]. rewrite sample_hex_cons. cbn [sample_unhex].
  destruct (sample_hex_byte b) as (v1 & v2 & -> & -> & Hb). cbn [mbind option_bind]. rewrite IH. cbn [mbind option_bind].
  by rewrite Hb.
Qed.

Definition is_digit (c : ascii) : bool := match digit_value c with Some _ => true | None => false end.

Lemma is_digit_spec c : is_digit c = true → is_whitespace c = false ∧ c ≠ "x"%char.
Proof. destruct c as [[] [] [] [] [] [] [] []]; done. Qed.

Lemma sample_hex_digits l : Forall (λ c, is_whitespace c = false ∧ c ≠ "x"%char) (sample_hex l).
Proof.
  induction l as [|b l IH]; [done|]. rewrite sample_hex_cons.
  constructor; [apply is_digit_spec; by destruct b|].
  constructor; [apply is_digit_spec; by destruct b|exact IH].
Qed.

Fixpoint item_tree (r : item) : gen_tree (list N) :=
  match r with RData l => GenLeaf (Byte.to_N <$> l) | RList l => GenNode 0 (map item_tree l) end.
Fixpoint tree_item (t : gen_tree (list N)) : item :=
  match t with GenLeaf l => RData (byte_of <$> l) | GenNode _ l => RList (map tree_item l) end.

Lemma tree_item_tree r : tree_item (item_tree r) = r.
Proof.
  revert r. fix IH 1. intros [l|l]; cbn [item_tree tree_item].
  - f_equal. induction l as [|b l IHl]; [done|]. rewrite !fmap_cons. f_equal; [by destruct b|exact IHl].
  - f_equal. induction l as [|r l IHl]; [done|]. cbn [map]. f_equal; [apply IH|exact IHl].
Qed.

Fixpoint pos_bytes (p : positive) : list byte :=
  match p with xI p => x01 :: pos_bytes p | xO p => x00 :: pos_bytes p | xH => [x02] end.
Fixpoint bytes_pos (l : list byte) : positive :=
  match l with x01 :: l => xI (bytes_pos l) | x00 :: l => xO (bytes_pos l) | _ => xH end.

Definition sample_rlp (r : item) : list byte := pos_bytes (encode (item_tree r)).
Definition sample_unrlp (l : list byte) : option item := tree_item <$> decode (bytes_pos l).
Definition sample_1559 (tx : Eip1559TransactionRequest) : list byte := x02 :: sample_rlp (request_item tx).
Definition sample_show (a : N) : text := sample_hex (to_be_bytes 20 a).
Definition sample_parse (t : text) : option N := be_value <$> sample_unhex t.

#[global] Instance sample_codec :
  CodecSpec sample_unrlp sample_rlp sample_hex sample_unhex sample_1559 sample_parse sample_show.
Proof.
  split.
  - intros i. unfold sample_unrlp, sample_rlp.
    assert (∀ p, bytes_pos (pos_bytes p) = p) as -> by (intros p; induction p; simpl; congruence).
    rewrite decode_encode. cbn. by rewrite tree_item_tree.
  - intros i. unfold sample_rlp. by destruct (encode _).
  - exact sample_hex_roundtrip.
  - intros l Hx. pose proof (sample_hex_digits l) as Hl. rewrite list.Forall_forall in Hl. by apply Hl in Hx as [_ ?].
  - intros l. eapply list.Forall_impl; [apply sample_hex_digits|]. by intros ? [? _].
  - done.
  - intros a Ha. unfold sample_parse, sample_show. rewrite sample_hex_roundtrip. cbn [fmap option_fmap option_map]. by rewrite be_value_to_be_bytes.
  - intros a. unfold sample_show. pose proof (length_to_be_bytes 20 a). by destruct (to_be_bytes 20 a).
  - intros a. eapply list.Forall_impl; [apply sample_hex_digits|]. by intros ? [? _].
Qed.

Definition sample_txs : list TxEnvFull :=
  [TxEnv_default 7 21000 5 (Some 9) 100 [] (Some 3) (Some 1) [(9, [1; 2])];
   TxEnv_default 8 50000 0 None 0 [x60; x00] None None []].

