(* ===== verification/InMemory.v ===== *)
(** * Storage in memory

    Models src/pevm/crates/pevm/src/storage/in_memory.rs, the conversion of bytecode and the
    wrapper of storage.rs, and the functions of api.rs that bring the results of a block
    into the storage: [update_storage_with_results], [get_delta_state] and
    [PevmExecutor::update_storage].

    A hash map is a finite map; where the code iterates over one, the order is a parameter
    ([order]) that lists the entries of a map in some order. Hashing and the analysis of
    bytecode are parameters. *)

From S2P Require Import Prelude PevmTypes MvMemory VmDb VmExecute.

(** ** Data *)

(** [EvmAccount] as it is stored; [evm_storage] lists the entries of its map. *)
Record StoredAccount := mkStored {
  st_balance : N;
  st_nonce : N;
  st_code_hash : option N;
  st_code : option N;
  st_slots : gmap N N }.

Definition stored (a : EvmAccount) : StoredAccount :=
  mkStored (evm_balance a) (evm_nonce a) (evm_code_hash a) (evm_code a) (list_to_map (evm_storage a)).

Notation ChainState := (gmap N StoredAccount).

Record InMemoryStorage := mkInMemory {
  accounts : ChainState;
  bytecodes : gmap N N;
  block_hashes : gmap N N }.

Definition with_accounts (s : InMemoryStorage) (a : ChainState) : InMemoryStorage := mkInMemory a (bytecodes s) (block_hashes s).

(** [update_accounts]: the new accounts win. *)
Definition update_accounts (s : InMemoryStorage) (new_accounts : ChainState) : InMemoryStorage :=
  with_accounts s (new_accounts ∪ accounts s).

(** The [Storage] trait; [hash_number] is the hash of the decimal digits of a number. *)
Definition in_memory (hash_number : N → N) (s : InMemoryStorage) : Storage := {|
  storage_basic a := inr ((λ acc, mkAccount (st_balance acc) (st_nonce acc)) <$> accounts s !! a);
  storage_code_hash a := inr (accounts s !! a ≫= st_code_hash);
  storage_code_by_hash h := inr (bytecodes s !! h);
  storage_has_storage a := inr (match accounts s !! a with Some acc => negb (bool_decide (st_slots acc = ∅)) | None => false end);
  storage_storage a i := inr (default 0 (accounts s !! a ≫= λ acc, st_slots acc !! i));
  storage_block_hash n := inr (default (hash_number n) (block_hashes s !! n)) |}.

(** ** Bytecode *)

Record LegacyCode := mkLegacyCode { bytecode : list N; original_len : N; jump_table : list bool }.

Inductive EvmCode :=
| EvmLegacy (code : LegacyCode)
| EvmEip7702 (delegated_address : list N) (version : N)
| EvmEof (raw : list N).

Section bytecode.
(** revm's EOF containers, and its analysis of legacy code. *)
Context {Eof : Type} (eof_decode : list N → N + Eof) (eof_raw : Eof → list N) (to_analysed : list N → LegacyCode).

Inductive Bytecode :=
| LegacyRaw (code : list N)
| LegacyAnalyzed (code : LegacyCode)
| DelegatedEip7702 (delegated_address : list N) (version : N) (raw : list N)
| EofCode (eof : Eof).

Definition EIP7702_MAGIC_BYTES : list N := [0xef; 0x01].

Definition Bytecode_try_from (code : EvmCode) : N + Bytecode :=
  match code with
  | EvmLegacy code => inr (LegacyAnalyzed code)
  | EvmEip7702 address version => inr (DelegatedEip7702 address version (EIP7702_MAGIC_BYTES ++ [version] ++ address))
  | EvmEof raw => match eof_decode raw with inl e => inl e | inr eof => inr (EofCode eof) end
  end.

Definition EvmCode_from (code : Bytecode) : EvmCode :=
  match code with
  | LegacyRaw code => EvmLegacy (to_analysed code)
  | LegacyAnalyzed code => EvmLegacy code
  | DelegatedEip7702 address version _ => EvmEip7702 address version
  | EofCode eof => EvmEof (eof_raw eof)
  end.

(** What the conversion may change: raw code is analysed. *)
Definition analysed (code : Bytecode) : Bytecode :=
  match code with LegacyRaw code => LegacyAnalyzed (to_analysed code) | _ => code end.
Definition well_formed (code : Bytecode) : Prop :=
  match code with
  | DelegatedEip7702 address version raw => raw = EIP7702_MAGIC_BYTES ++ [version] ++ address
  | _ => True
  end.

(** Bytecode survives the round trip through [EvmCode]. *)
Lemma bytecode_roundtrip code :
  (∀ eof, eof_decode (eof_raw eof) = inr eof) → well_formed code → Bytecode_try_from (EvmCode_from code) = inr (analysed code).
Proof. intros Heof Hwf. destruct code; simpl in *; [done|done|by subst|by rewrite Heof]. Qed.
End bytecode.

(** ** The wrapper *)

Section wrapper.
Context {st : Storage} (bytecode_of : N → N + N) (default_bytecode : N).

Inductive StorageWrapperError := WrappedStorageError (e : N) | WrappedInvalidBytecode (e : N).

Definition wrap_err {A} (r : N + A) : StorageWrapperError + A :=
  match r with inl e => inl (WrappedStorageError e) | inr a => inr a end.
(** [map(Bytecode::try_from).transpose()] *)
Definition wrap_code (o : option N) : StorageWrapperError + option N :=
  match o with
  | None => inr None
  | Some c => match bytecode_of c with inl e => inl (WrappedInvalidBytecode e) | inr b => inr (Some b) end
  end.
Definition wbind {A B} (m : StorageWrapperError + A) (f : A → StorageWrapperError + B) : StorageWrapperError + B :=
  match m with inl e => inl e | inr a => f a end.

Definition basic_ref (address : N) : StorageWrapperError + option AccountInfo :=
  wbind (wrap_err (storage_basic address)) (λ basic,
  match basic with
  | None => inr None
  | Some basic =>
      wbind (wrap_err (storage_code_hash address)) (λ code_hash,
      wbind (match code_hash with
             | Some hash => wbind (wrap_err (storage_code_by_hash hash)) wrap_code
             | None => inr None
             end) (λ code,
      inr (Some (mkInfo (nonce basic) (balance basic) (default KECCAK_EMPTY code_hash) code))))
  end).

Definition code_by_hash_ref (code_hash : N) : StorageWrapperError + N :=
  wbind (wrap_err (storage_code_by_hash code_hash)) (λ c,
  wbind (wrap_code c) (λ b, inr (default default_bytecode b))).
Definition has_storage_ref (address : N) : StorageWrapperError + bool := wrap_err (storage_has_storage address).
Definition storage_ref (address index : N) : StorageWrapperError + N := wrap_err (storage_storage address index).
Definition block_hash_ref (number : N) : StorageWrapperError + N := wrap_err (storage_block_hash number).
End wrapper.

(** ** Results of a block *)

Section results.
Context (order : gmap N (option EvmAccount) → list (N * option EvmAccount)).

(** Merging a changed account into the one that is stored. *)
Definition merge_account (existing : StoredAccount) (new_account : EvmAccount) : StoredAccount :=
  mkStored (evm_balance new_account) (evm_nonce new_account)
    (if evm_code new_account then evm_code_hash new_account else st_code_hash existing)
    (if evm_code new_account then evm_code new_account else st_code existing)
    (list_to_map (evm_storage new_account) ∪ st_slots existing).

Definition merge_change (accs : ChainState) (change : N * option EvmAccount) : ChainState :=
  let '(address, new_account) := change in
  match new_account with
  | Some new_account =>
      match accs !! address with
      | Some existing => <[address := merge_account existing new_account]> accs
      | None => <[address := stored new_account]> accs
      end
  | None => delete address accs
  end.

Definition merge_result (accs : ChainState) (r : PevmTxExecutionResult) : ChainState :=
  fold_left merge_change (order (tx_state r)) accs.

Definition update_storage_with_results (s : InMemoryStorage) (results : list PevmTxExecutionResult) : InMemoryStorage :=
  with_accounts s (fold_left merge_result results (accounts s)).

(** [insert] or [remove] of a whole account. *)
Definition replace_change (accs : ChainState) (change : N * option EvmAccount) : ChainState :=
  match change.2 with
  | Some account => <[change.1 := stored account]> accs
  | None => delete change.1 accs
  end.
Definition replace_result (accs : ChainState) (r : PevmTxExecutionResult) : ChainState :=
  fold_left replace_change (order (tx_state r)) accs.

Definition get_delta_state (results : list PevmTxExecutionResult) : ChainState := fold_left replace_result results ∅.

(** [PevmExecutor::update_storage] *)
Definition update_storage (s : InMemoryStorage) (results : list PevmTxExecutionResult) : InMemoryStorage :=
  let state := fold_left replace_result results (accounts s) in
  update_accounts s state.
End results.

(** ** Lemmas *)

(** [last_change f results] is the value of the last result that has one. *)
Definition last_change {A} (f : PevmTxExecutionResult → option A) (results : list PevmTxExecutionResult) : option A :=
  last (omap f results).

Lemma last_change_snoc {A} (f : PevmTxExecutionResult → option A) results r :
  last_change f (results ++ [r]) = match f r with Some x => Some x | None => last_change f results end.
Proof.
  unfold last_change. rewrite omap_app. cbn. destruct (f r); [by rewrite last_snoc|by rewrite app_nil_r].
Qed.

Section changes.
Context (order : gmap N (option EvmAccount) → list (N * option EvmAccount)) (Horder : ∀ m, order m ≡ₚ map_to_list m).

Lemma order_nodup m : NoDup (order m).*1.
Proof. rewrite Horder. apply NoDup_fst_map_to_list. Qed.

Lemma order_lookup m a x : (a, x) ∈ order m ↔ m !! a = Some x.
Proof. rewrite Horder. apply elem_of_map_to_list. Qed.

(** A fold of changes of single accounts is pointwise, in any order. *)
Lemma fold_changes (step : ChainState → N * option EvmAccount → ChainState)
    (at_address : option StoredAccount → option EvmAccount → option StoredAccount) :
  (∀ accs a x, step accs (a, x) !! a = at_address (accs !! a) x) →
  (∀ accs a b x, a ≠ b → step accs (a, x) !! b = accs !! b) →
  ∀ l, NoDup l.*1 → ∀ accs a,
    (∀ x, (a, x) ∈ l → fold_left step l accs !! a = at_address (accs !! a) x)
    ∧ (a ∉ l.*1 → fold_left step l accs !! a = accs !! a).
Proof.
  intros Heq Hne l. induction l as [|[b y] l IH]; intros Hnd accs a; cbn [fold_left].
  { split; [intros x Hx; by apply elem_of_nil in Hx|done]. }
  rewrite fmap_cons in Hnd. apply NoDup_cons in Hnd as [Hb Hnd]. destruct (IH Hnd (step accs (b, y)) a) as [IH1 IH2].
  split.
  - intros x [[= -> ->]|Hx]%elem_of_cons.
    + by rewrite IH2, Heq.
    + rewrite (IH1 x Hx), Hne; [done|]. intros ->. apply Hb. by apply (list_elem_of_fmap_2 fst) in Hx.
  - rewrite fmap_cons, not_elem_of_cons. intros [Hab Hl]. rewrite IH2 by done. by apply Hne.
Qed.

Definition merge_at (old : option StoredAccount) (x : option EvmAccount) : option StoredAccount :=
  match x, old with
  | Some new, Some existing => Some (merge_account existing new)
  | Some new, None => Some (stored new)
  | None, _ => None
  end.

Lemma merge_result_at accs r a :
  merge_result order accs r !! a = match tx_state r !! a with Some x => merge_at (accs !! a) x | None => accs !! a end.
Proof.
  unfold merge_result. destruct (fold_changes merge_change merge_at) with (order (tx_state r)) accs a as [H1 H2].
  - intros accs' b x. unfold merge_change, merge_at. destruct x; [destruct (accs' !! b)|]; by simplify_map_eq.
  - intros accs' b c x Hbc. unfold merge_change. destruct x; [destruct (accs' !! b)|]; by simplify_map_eq.
  - apply order_nodup.
  - destruct (tx_state r !! a) as [x|] eqn:Hx; [by apply H1, order_lookup|].
    apply H2. intros ([? x] & -> & Hin)%list_elem_of_fmap. cbn in *. apply order_lookup in Hin. congruence.
Qed.

Lemma replace_result_at accs r a :
  replace_result order accs r !! a = match tx_state r !! a with Some x => stored <$> x | None => accs !! a end.
Proof.
  unfold replace_result. destruct (fold_changes replace_change (λ _ x, stored <$> x)) with (order (tx_state r)) accs a as [H1 H2].
  - intros accs' b [x|]; unfold replace_change; cbn; by simplify_map_eq.
  - intros accs' b c [x|] Hbc; unfold replace_change; cbn; by simplify_map_eq.
  - apply order_nodup.
  - destruct (tx_state r !! a) as [x|] eqn:Hx; [by apply H1, order_lookup|].
    apply H2. intros ([? x] & -> & Hin)%list_elem_of_fmap. cbn in *. apply order_lookup in Hin. congruence.
Qed.

Lemma replace_results_at accs results a :
  fold_left (replace_result order) results accs !! a
  = match last_change (λ r, tx_state r !! a) results with Some x => stored <$> x | None => accs !! a end.
Proof.
  induction results as [|r results IH] using rev_ind; [done|]. rewrite fold_left_app, last_change_snoc. cbn [fold_left].
  rewrite replace_result_at. destruct (tx_state r !! a); [done|exact IH].
Qed.
End changes.

(** ** Applying the results of a block *)

(** The value that a result gives to a slot, if any; a deleted account has no slots. *)
Definition slot_change (a i : N) (r : PevmTxExecutionResult) : option N :=
  match tx_state r !! a with
  | Some (Some acc) => list_to_map (M := gmap N N) (evm_storage acc) !! i
  | Some None => Some 0
  | None => None
  end.
(** The code hash that a result gives to an account, if any. *)
Definition code_change (a : N) (r : PevmTxExecutionResult) : option (option N) :=
  match tx_state r !! a with
  | Some (Some acc) => if evm_code acc then Some (evm_code_hash acc) else None
  | Some None => Some None
  | None => None
  end.

(** Changed accounts without code have no code hash, as [EvmAccount::from] builds them. *)
Definition code_consistent (results : list PevmTxExecutionResult) : Prop :=
  Forall (λ r, map_Forall (λ _ x, from_option (λ acc, evm_code acc = None → evm_code_hash acc = None) True x) (tx_state r)) results.

Section applying.
Context (order : gmap N (option EvmAccount) → list (N * option EvmAccount)) (Horder : ∀ m, order m ≡ₚ map_to_list m).

Lemma merged_basic accs results a :
  (λ acc, mkAccount (st_balance acc) (st_nonce acc)) <$> fold_left (merge_result order) results accs !! a
  = match last_change (λ r, tx_state r !! a) results with
    | Some x => (λ acc, mkAccount (evm_balance acc) (evm_nonce acc)) <$> x
    | None => (λ acc, mkAccount (st_balance acc) (st_nonce acc)) <$> accs !! a
    end.
Proof.
  induction results as [|r results IH] using rev_ind; [done|]. rewrite fold_left_app, last_change_snoc. cbn [fold_left].
  rewrite merge_result_at by done. destruct (tx_state r !! a) as [[x|]|]; [|done|exact IH].
  by destruct (fold_left _ _ _ !! a).
Qed.

Lemma merged_slot accs results a i :
  default 0 (fold_left (merge_result order) results accs !! a ≫= λ acc, st_slots acc !! i)
  = default (default 0 (accs !! a ≫= λ acc, st_slots acc !! i)) (last_change (slot_change a i) results).
Proof.
  induction results as [|r results IH] using rev_ind; [done|]. rewrite fold_left_app, last_change_snoc. cbn [fold_left].
  rewrite merge_result_at by done. unfold slot_change at 1. destruct (tx_state r !! a) as [[x|]|]; [|done|exact IH].
  destruct (fold_left _ _ _ !! a) as [acc|]; cbn [merge_at mbind option_bind merge_account stored st_slots] in *.
  - rewrite lookup_union. destruct (list_to_map _ !! i); [by destruct (st_slots acc !! i)|]. rewrite <- IH. by destruct (st_slots acc !! i).
  - by destruct (list_to_map _ !! i).
Qed.

Lemma merged_code accs results a : code_consistent results →
  (fold_left (merge_result order) results accs !! a ≫= st_code_hash)
  = default (accs !! a ≫= st_code_hash) (last_change (code_change a) results).
Proof.
  induction results as [|r results IH] using rev_ind; [done|]. intros [Hc Hr]%Forall_app. rewrite Forall_singleton in Hr.
  rewrite fold_left_app, last_change_snoc. cbn [fold_left].
  rewrite merge_result_at by done. unfold code_change at 1. destruct (tx_state r !! a) as [[x|]|] eqn:Hx; [|done|by apply IH].
  apply Hr in Hx. cbn in Hx. specialize (IH Hc).
  destruct (fold_left _ _ _ !! a) as [acc|]; cbn [merge_at mbind option_bind merge_account stored st_code_hash] in *;
    destruct (evm_code x); try done. by rewrite Hx, <- IH.
Qed.
End applying.

(** C35: [update_storage_with_results] brings exactly the effects of a block into the
    storage, in whatever order the maps of changed accounts are iterated: afterwards the
    balance and nonce of an account, its code hash and every slot read as the last result
    of the block that changed them says, and as before when none did. A deleted account
    is gone with all its slots, and a slot that no result touches survives changes of
    other slots of its account. Bytecodes and block hashes are unchanged. *)
Theorem results_applied_exactly hash_number order s results
    (Horder : ∀ m, order m ≡ₚ map_to_list m) (Hcode : code_consistent results) :
  let before := in_memory hash_number s in
  let after := in_memory hash_number (update_storage_with_results order s results) in
  (∀ a, @storage_basic after a
        = match last_change (λ r, tx_state r !! a) results with
          | Some x => inr ((λ acc, mkAccount (evm_balance acc) (evm_nonce acc)) <$> x)
          | None => @storage_basic before a
          end)
  ∧ (∀ a, @storage_code_hash after a
          = match last_change (code_change a) results with Some h => inr h | None => @storage_code_hash before a end)
  ∧ (∀ a i, @storage_storage after a i
            = match last_change (slot_change a i) results with Some v => inr v | None => @storage_storage before a i end)
  ∧ (∀ h, @storage_code_by_hash after h = @storage_code_by_hash before h)
  ∧ (∀ n, @storage_block_hash after n = @storage_block_hash before n).
Proof.
  intros before after. unfold before, after, update_storage_with_results. cbn. split_and!; [| | |done|done].
  - intros a. rewrite merged_basic by done. by destruct (last_change _ _).
  - intros a. rewrite merged_code by done. by destruct (last_change _ _).
  - intros a i. rewrite merged_slot by done. by destruct (last_change _ _).
Qed.

(** ** The executor of the service *)

(** [PevmExecutor::update_storage] replaces a changed account by what the result holds of
    it and keeps deleted accounts. *)
Lemma update_storage_at order s results a : (∀ m, order m ≡ₚ map_to_list m) →
  accounts (update_storage order s results) !! a
  = match last_change (λ r, tx_state r !! a) results with Some (Some acc) => Some (stored acc) | _ => accounts s !! a end.
Proof.
  intros Ho. unfold update_storage, update_accounts. cbn [accounts with_accounts].
  rewrite lookup_union, replace_results_at by done.
  destruct (last_change _ _) as [[x|]|]; cbn; by destruct (accounts s !! a).
Qed.

(** A deletion is not visible in the delta. *)
Lemma get_delta_state_at order results a : (∀ m, order m ≡ₚ map_to_list m) →
  get_delta_state order results !! a
  = match last_change (λ r, tx_state r !! a) results with Some x => stored <$> x | None => None end.
Proof. intros Ho. unfold get_delta_state. by rewrite replace_results_at. Qed.

(** ** Samples *)

(** A token with two balances, one of which a transfer changes, and an account that
    destroys itself. *)
Definition sample_storage : InMemoryStorage :=
  mkInMemory {[ 1 := mkStored 0 1 (Some 11) (Some 12) {[ 5 := 100; 6 := 200 ]}; 2 := mkStored 9 0 None None ∅ ]} {[ 11 := 12 ]} ∅.
Definition sample_results : list PevmTxExecutionResult :=
  [mkTxResult true 1 [] {[ 1 := Some (mkEvmAccount 0 1 (Some 11) (Some 12) [(5, 70)]); 3 := Some (mkEvmAccount 4 0 None None []) ]};
   mkTxResult true 2 [] {[ 2 := None ]}].

Lemma results_applied_exactly_witness :
  let after := in_memory id (update_storage_with_results map_to_list sample_storage sample_results) in
  @storage_storage after 1 5 = inr 70 ∧ @storage_storage after 1 6 = inr 200 ∧ @storage_basic after 2 = inr None
  ∧ @storage_basic after 3 = inr (Some (mkAccount 4 0)).
Proof.
  destruct (results_applied_exactly id map_to_list sample_storage sample_results) as (Hb & _ & Hs & _).
  - done.
  - constructor; [|constructor; [|constructor]]; rewrite map_Forall_to_list; vm_compute; repeat constructor; done.
  - cbn zeta. rewrite !Hs, !Hb. by vm_compute.
Defined.

(** The same results through [PevmExecutor::update_storage]: the untouched slot is lost and
    the destroyed account is still there. *)
Lemma executor_loses_slots :
  let after := in_memory id (update_storage map_to_list sample_storage sample_results) in
  @storage_storage after 1 5 = inr 70 ∧ @storage_storage after 1 6 = inr 0 ∧ @storage_basic after 2 = inr (Some (mkAccount 9 0)).
Proof. by vm_compute. Qed.
