(* ===== verification/NonceTracker.v ===== *)
(** * Nonce tracker

    Models src/pevm/crates/pevm/src/utils/nonce_tracker.rs: the tracker that gives the
    transactions of reordered blocks new nonces. The printing of statistics is left out. *)

From S2P Require Import Prelude Bytes TxCodec PevmTypes VmDb VmExecute InMemory.

(** ** State and operations *)

Record NonceTracker := mkTracker { nonces : gmap N N }.

Definition NonceTracker_new : NonceTracker := mkTracker ∅.

Definition get_nonce (t : NonceTracker) (address : N) : N := default 0 (nonces t !! address).
Definition set_nonce (t : NonceTracker) (address n : N) : NonceTracker := mkTracker (<[address := n]> (nonces t)).
Definition increase_nonce (t : NonceTracker) (address : N) : NonceTracker :=
  let current_nonce := default 0 (nonces t !! address) in
  mkTracker (<[address := u64_add current_nonce 1]> (nonces t)).

(** The body of the loop of [record_from_prestate] for one caller. *)
Definition record_caller (storage : InMemoryStorage) (t : NonceTracker) (address : N) : NonceTracker :=
  if bool_decide (is_Some (nonces t !! address)) then t
  else match @storage_basic (in_memory id storage) address with
       | inr (Some account) => set_nonce t address (nonce account)
       | _ => t
       end.
(** [order] lists the elements of the set of callers. *)
Definition record_from_prestate (order : gset N → list N) (t : NonceTracker) (storage : InMemoryStorage)
    (txenvs : list TxEnvFull) : NonceTracker :=
  fold_left (record_caller storage) (order (list_to_set (env_caller <$> txenvs))) t.

Definition with_nonce (tx : TxEnvFull) (n : option N) : TxEnvFull :=
  mkTxEnvFull (env_caller tx) (env_gas_limit tx) (env_gas_price tx) (env_transact_to tx) (env_value tx) (env_data tx) n
    (env_chain_id tx) (env_access_list tx) (env_gas_priority_fee tx) (env_blob_hashes tx) (env_max_fee_per_blob_gas tx)
    (env_authorization_list tx).

(** The authorities whose nonces the authorizations of a transaction bump. *)
Definition authorities (tx : TxEnvFull) : list N := omap id (default [] (env_authorization_list tx)).

Fixpoint update_txenv_nonces (t : NonceTracker) (txenvs : list TxEnvFull) : NonceTracker * list TxEnvFull :=
  match txenvs with
  | [] => (t, [])
  | tx :: txenvs =>
      let tx' := with_nonce tx (Some (get_nonce t (env_caller tx))) in
      let t := increase_nonce t (env_caller tx) in
      let t := fold_left increase_nonce (authorities tx) t in
      let '(t, txenvs) := update_txenv_nonces t txenvs in
      (t, tx' :: txenvs)
  end.

(** ** The nonces of the accounts during execution *)

(** The accounts whose nonce a transaction bumps, each as often as it occurs. *)
Definition bumped (tx : TxEnvFull) : list N := env_caller tx :: authorities tx.

Definition occurrences (a : N) (l : list N) : N := N.of_nat (length (filter (λ b, b = a) l)).

(** How often the transactions bump the nonce of an account. *)
Definition bumps (a : N) (txs : list TxEnvFull) : N := occurrences a (txs ≫= bumped).

(** ** Lemmas *)

Lemma occurrences_app a l k : occurrences a (l ++ k) = occurrences a l + occurrences a k.
Proof. unfold occurrences. rewrite filter_app, length_app. lia. Qed.

Lemma get_increase t a b : get_nonce (increase_nonce t a) b = if bool_decide (a = b) then u64_add (get_nonce t a) 1 else get_nonce t b.
Proof. unfold get_nonce, increase_nonce. cbn. case_bool_decide as Hab; [subst|]; by simplify_map_eq. Qed.

Lemma get_fold_increase l t a : get_nonce t a + occurrences a l < u64_modulus →
  get_nonce (fold_left increase_nonce l t) a = get_nonce t a + occurrences a l.
Proof.
  revert t. induction l as [|b l IH]; intros t Hlt; cbn [fold_left]; [unfold occurrences; cbn; lia|].
  change (b :: l) with ([b] ++ l) in *. rewrite occurrences_app in *.
  assert (occurrences a [b] = if bool_decide (b = a) then 1 else 0) as Hone.
  { unfold occurrences. rewrite filter_cons. by repeat case_decide; case_bool_decide. }
  rewrite IH; rewrite get_increase; case_bool_decide; subst; try rewrite u64_add_small; lia.
Qed.

Lemma bumps_cons a tx txs : bumps a (tx :: txs) = occurrences a (bumped tx) + bumps a txs.
Proof. unfold bumps. rewrite bind_cons. apply occurrences_app. Qed.

Lemma update_spec txs t t' out : (∀ a, get_nonce t a + bumps a txs < u64_modulus) →
  update_txenv_nonces t txs = (t', out) →
  (∀ a, get_nonce t' a = get_nonce t a + bumps a txs)
  ∧ length out = length txs
  ∧ ∀ k tx, txs !! k = Some tx → out !! k = Some (with_nonce tx (Some (get_nonce t (env_caller tx) + bumps (env_caller tx) (take k txs)))).
Proof.
  revert t t' out. induction txs as [|tx txs IH]; intros t t' out Hlt Hu; cbn [update_txenv_nonces] in Hu.
  { simplify_eq. split_and!; [intros a; unfold bumps, occurrences; cbn; lia|done|done]. }
  destruct (update_txenv_nonces _ txs) as [t1 out1] eqn:Hu1. simplify_eq.
  assert (Hget : ∀ a, get_nonce (fold_left increase_nonce (bumped tx) t) a = get_nonce t a + occurrences a (bumped tx)).
  { intros a. apply get_fold_increase. specialize (Hlt a). rewrite bumps_cons in Hlt. lia. }
  apply IH in Hu1 as (Hend & Hlen & Hall).
  2:{ intros a. specialize (Hlt a). change (fold_left _ _ _) with (fold_left increase_nonce (bumped tx) t).
      rewrite bumps_cons in Hlt. rewrite Hget. lia. }
  change (fold_left increase_nonce (authorities tx) _) with (fold_left increase_nonce (bumped tx) t) in *.
  split_and!.
  - intros a. rewrite Hend, Hget, bumps_cons. lia.
  - cbn. by rewrite Hlen.
  - intros [|k] tx0 Hk; [injection Hk as <-; cbn; do 3 f_equal; unfold bumps, occurrences; cbn; lia|].
    change (txs !! k = Some tx0) in Hk. cbn [take]. transitivity (out1 !! k); [done|]. rewrite (Hall _ _ Hk). do 3 f_equal. rewrite Hget, bumps_cons. lia.
Qed.

(** A nonce is recorded once, from the first block that has a transaction of the sender. *)
Lemma record_caller_at storage t b a :
  nonces (record_caller storage t b) !! a
  = match nonces t !! a with
    | Some n => Some n
    | None => if bool_decide (b = a) then st_nonce <$> accounts storage !! a else None
    end.
Proof.
  unfold record_caller, set_nonce, storage_basic, in_memory. case_bool_decide as Hb.
  { destruct (nonces t !! a) eqn:Ha; [done|]. case_bool_decide; subst; [|done]. rewrite Ha in Hb. by destruct Hb. }
  assert (nonces t !! b = None) as Hn by (by apply eq_None_not_Some).
  destruct (accounts storage !! b) as [acc|] eqn:Hacc; cbn.
  - case_bool_decide; subst; [by rewrite Hn, Hacc, lookup_insert_eq|].
    rewrite lookup_insert_ne by done. by destruct (nonces t !! a).
  - case_bool_decide; subst; [by rewrite Hn, Hacc|]. by destruct (nonces t !! a).
Qed.

Lemma record_callers_at storage l t a :
  nonces (fold_left (record_caller storage) l t) !! a
  = match nonces t !! a with
    | Some n => Some n
    | None => if bool_decide (a ∈ l) then st_nonce <$> accounts storage !! a else None
    end.
Proof.
  revert t. induction l as [|b l IH]; intros t; cbn [fold_left].
  { case_bool_decide as Ha; [by apply elem_of_nil in Ha|]. by destruct (nonces t !! a). }
  rewrite IH, record_caller_at. destruct (nonces t !! a); [done|].
  repeat case_bool_decide; subst; try done; try set_solver; by destruct (accounts storage !! a).
Qed.

Lemma record_from_prestate_get order storage t txs a : (∀ X, order X ≡ₚ elements X) → a ∈ env_caller <$> txs →
  get_nonce (record_from_prestate order t storage txs) a
  = default (default 0 (st_nonce <$> accounts storage !! a)) (nonces t !! a).
Proof.
  intros Ho Ha. unfold get_nonce, record_from_prestate. rewrite record_callers_at.
  rewrite bool_decide_true by (rewrite Ho, elem_of_elements, elem_of_list_to_set; done).
  by destruct (nonces t !! a).
Qed.


(** Three transactions, of which the second carries an authorization of the first sender. *)
Definition sample_block : list TxEnvFull :=
  [TxEnv_default 1 21000 0 (Some 2) 0 [] None None [];
   mkTxEnvFull 2 21000 0 (Some 1) 0 [] None None [] None [] None (Some [Some 1; None]);
   TxEnv_default 1 21000 0 None 0 [] None None []].
Definition sample_accounts : InMemoryStorage := mkInMemory {[ 1 := mkStored 10 5 None None ∅ ]} ∅ ∅.

