(* ===== verification/BatchSchedule.v ===== *)
(** * Scheduling a batch of transactions

    Models the queues of [PevmAPI] and [PevmScheduler] and
    [schedule_a_parallelizable_batch] of src/pevm/crates/pevm/src/api.rs, which picks from the
    waiting transactions a batch in which transactions on the same account are a multiple
    of the concurrency level apart.

    The channels and the locks around the queues are left out: every operation holds the
    lock of its queue throughout. Positions and lengths are natural numbers; the batch has
    four slots per thread. *)

From S2P Require Import Prelude Bytes TxCodec.
From Stdlib Require Import Strings.Byte Strings.Ascii.

Local Open Scope N_scope.

Record TransactionWithHint := mkHint { raw_hex : text; hint_caller : N; hint : text }.

Inductive APIError := NoScheduledTransactions | NoWorkloadFile.

(** ** Queues *)

(** The queues of [PevmAPI]. *)
Record PevmAPI := mkAPI { txns_queue : list TransactionWithHint; scheduled_txns : list TransactionWithHint }.

Definition num_pending_txns (api : PevmAPI) : nat := length (txns_queue api) + length (scheduled_txns api).
Definition add_transactions (api : PevmAPI) (l : list TransactionWithHint) : PevmAPI := mkAPI (txns_queue api ++ l) (scheduled_txns api).
Definition fetch_one_scheduled_txn (api : PevmAPI) : PevmAPI * (APIError + TransactionWithHint) :=
  match scheduled_txns api with
  | [] => (api, inl NoScheduledTransactions)
  | t :: l => (mkAPI (txns_queue api) l, inr t)
  end.

(** [PevmScheduler::schedule] and [fetch_batch], on its queue. *)
Definition schedule (queue : list TransactionWithHint) (batch : list (text * N)) : list TransactionWithHint :=
  queue ++ ((λ p, mkHint p.1 p.2 []) <$> batch).
Definition fetch_batch (queue : list TransactionWithHint) (n : nat) : list TransactionWithHint * list TransactionWithHint :=
  let k := (n `min` length queue)%nat in (take k queue, drop k queue).

(** ** The batch *)

Record Batch := mkBatch {
  account_last_position : gmap N nat;
  next_available_position : nat;
  scheduled : list (option TransactionWithHint);
  scheduled_txn_indices : list nat;
  available_slots : nat }.

Definition Batch_new (txns_per_batch : nat) : Batch := mkBatch ∅ 0 (replicate txns_per_batch None) [] txns_per_batch.

Definition accessed_accounts (tx : TxEnvFull) : list N :=
  match env_transact_to tx with Some to => [env_caller tx; to] | None => [env_caller tx] end.

(** The search for a free slot from [pos] in steps; at most [fuel] slots are looked at. *)
Fixpoint free_slot (fuel : nat) (slots : list (option TransactionWithHint)) (step pos : nat) : outcome (option nat) :=
  match fuel with
  | O => OutOfFuel
  | S fuel =>
      match slots !! pos with
      | None => Ok None
      | Some None => Ok (Some pos)
      | Some (Some _) => free_slot fuel slots step (pos + step)
      end
  end.

Record Search := mkSearch { never_accessed : bool; position_found : bool; final_position : nat }.

(** The loop over the accessed accounts. *)
Fixpoint search_accounts (concurrency_level : nat) (b : Batch) (accounts : list N) (s : Search) : outcome Search :=
  match accounts with
  | [] => Ok s
  | account :: accounts =>
      match account_last_position b !! account with
      | None => search_accounts concurrency_level b accounts s
      | Some last_pos =>
          found ← free_slot (S (length (scheduled b))) (scheduled b) concurrency_level (last_pos + concurrency_level);
          search_accounts concurrency_level b accounts
            match found with
            | Some p => mkSearch false true (final_position s `max` p)
            | None => mkSearch false (position_found s) (final_position s)
            end
      end
  end.

(** The first free position from the old one. *)
Fixpoint skip_taken (slots : list (option TransactionWithHint)) (pos : nat) : nat :=
  match slots with Some _ :: slots => skip_taken slots (S pos) | _ => pos end.

(** Taking a slot panics out of range; the count of free slots would wrap at zero. *)
Definition place (b : Batch) (index : nat) (txn : TransactionWithHint) (accounts : list N) (pos : nat) : outcome Batch :=
  rust_assert (bool_decide (0 < available_slots b ∧ pos < length (scheduled b))%nat);;
  let slots := <[pos := Some txn]> (scheduled b) in
  Ok (mkBatch (fold_left (λ m a, <[a := pos]> m) accounts (account_last_position b))
        (skip_taken (drop (next_available_position b) slots) (next_available_position b))
        slots (scheduled_txn_indices b ++ [index]) (available_slots b - 1)).

Definition remove_at (l : list TransactionWithHint) (i : nat) : list TransactionWithHint :=
  if bool_decide (i < length l)%nat then take i l ++ drop (S i) l else l.

(** [decode_one_hex] on a waiting transaction. *)
Definition decode_hint rlp_decode rlp_encode hex_decode recover (txn : TransactionWithHint) : outcome (option TxEnvFull) :=
  decode_one_hex rlp_decode rlp_encode hex_decode recover (raw_hex txn) (hint_caller txn).

Section schedule.
Context (decode : TransactionWithHint → outcome (option TxEnvFull)) (concurrency_level : nat).

(** The body of the loop over the transactions. *)
Definition schedule_one (b : Batch) (index : nat) (txn : TransactionWithHint) : outcome Batch :=
  tx_env ← decode txn;
  match tx_env with
  | None => Ok b
  | Some tx_env =>
      let accounts := accessed_accounts tx_env in
      s ← search_accounts concurrency_level b accounts (mkSearch true false 0);
      if never_accessed s then place b index txn accounts (next_available_position b)
      else if position_found s then place b index txn accounts (final_position s)
      else Ok b
  end.

Fixpoint schedule_loop (b : Batch) (index : nat) (txns : list TransactionWithHint) : outcome Batch :=
  match txns with
  | [] => Ok b
  | txn :: txns =>
      b ← schedule_one b index txn;
      if bool_decide (available_slots b = 0%nat) then Ok b else schedule_loop b (S index) txns
  end.

(** The scheduled transactions, and those that are left. *)
Definition schedule_a_parallelizable_batch (txns : list TransactionWithHint)
    : outcome (list (option TransactionWithHint) * list TransactionWithHint) :=
  let txns_per_batch := (concurrency_level * 4)%nat in
  b ← schedule_loop (Batch_new txns_per_batch) 0 txns;
  Ok (filter is_Some (scheduled b), fold_left remove_at (rev (scheduled_txn_indices b)) txns).
End schedule.

(** ** Slots *)

Definition free_slots (slots : list (option TransactionWithHint)) : nat := length (filter (λ o, o = None) slots).

Lemma free_slots_insert slots pos txn : slots !! pos = Some None →
  free_slots slots = S (free_slots (<[pos := Some txn]> slots)).
Proof.
  intros Hp. rewrite <- (take_drop_middle _ _ _ Hp) at 1.
  rewrite insert_take_drop by (by eapply lookup_lt_Some). unfold free_slots.
  rewrite !filter_app, !filter_cons, !length_app. repeat case_decide; try done; cbn; lia.
Qed.

Lemma taken_insert (slots : list (option TransactionWithHint)) pos txn : slots !! pos = Some None →
  omap id (<[pos := Some txn]> slots) ≡ₚ txn :: omap id slots.
Proof.
  intros Hp. rewrite <- (take_drop_middle _ _ _ Hp) at 2.
  rewrite insert_take_drop by (by eapply lookup_lt_Some). rewrite !omap_app. cbn. by rewrite Permutation_middle.
Qed.

Lemma free_slots_pos slots : (∀ i, (i < length slots)%nat → is_Some (mjoin (slots !! i))) → free_slots slots = 0%nat.
Proof.
  intros Hall. unfold free_slots. destruct (filter _ slots) as [|o l] eqn:Hf; [done|].
  assert (o ∈ filter (λ o, o = None) slots) as Ho by (rewrite Hf; set_solver).
  apply list_elem_of_filter in Ho as [-> Ho]. apply list_elem_of_lookup in Ho as [i Hi].
  pose proof (Hall i (lookup_lt_Some _ _ _ Hi)) as Hs. rewrite Hi in Hs. by destruct Hs.
Qed.

Lemma no_taken_free (slots : list (option TransactionWithHint)) : omap id slots = [] → free_slots slots = length slots.
Proof.
  unfold free_slots. induction slots as [|[t|] slots IH]; [done|done|]. intros Hn.
  rewrite filter_cons, decide_True by done. cbn [length]. f_equal. by apply IH.
Qed.

Lemma filter_taken (slots : list (option TransactionWithHint)) : filter is_Some slots = Some <$> omap id slots.
Proof.
  induction slots as [|[t|] slots IH]; [done|..]; rewrite filter_cons; case_decide as Hs; cbn.
  - by f_equal.
  - by destruct Hs.
  - by destruct Hs.
  - exact IH.
Qed.

Lemma length_omap_le (slots : list (option TransactionWithHint)) : (length (omap id slots) ≤ length slots)%nat.
Proof. induction slots as [|[t|] slots IH]; cbn; [done|..]; cbn in IH; lia. Qed.

(** [skip_taken] stops at the first free slot. *)
Lemma skip_taken_spec slots pos :
  (pos ≤ skip_taken slots pos ≤ pos + length slots)%nat
  ∧ (∀ i, (i < skip_taken slots pos - pos)%nat → is_Some (mjoin (slots !! i)))
  ∧ ((skip_taken slots pos < pos + length slots)%nat → slots !! (skip_taken slots pos - pos)%nat = Some None).
Proof.
  revert pos. induction slots as [|[t|] slots IH]; intros pos; cbn [skip_taken length].
  - split_and!; [lia|lia|intros i Hi; lia|lia].
  - destruct (IH (S pos)) as (H1 & H2 & H3). split_and!; [lia|lia| |].
    + intros [|i] Hi; [by eexists|]. apply (H2 i). lia.
    + intros Hlt. replace (skip_taken slots (S pos) - pos)%nat with (S (skip_taken slots (S pos) - S pos)) by lia. apply H3. lia.
  - rewrite Nat.sub_diag. split_and!; [lia|lia|intros i Hi; lia|done].
Qed.

(** The search ends, at a free slot at or after its start. *)
Lemma free_slot_spec step slots fuel pos : (0 < step)%nat → (length slots < fuel + pos)%nat → (0 < fuel)%nat →
  ∃ found, free_slot fuel slots step pos = Ok found
    ∧ match found with Some p => slots !! p = Some None ∧ (pos ≤ p)%nat | None => True end.
Proof.
  intros Hstep. revert pos. induction fuel as [|fuel IH]; intros pos Hlen Hf; [lia|]. cbn [free_slot].
  destruct (slots !! pos) as [[t|]|] eqn:Hp; [|by eexists|by eexists].
  apply lookup_lt_Some in Hp. destruct (IH (pos + step)%nat) as (found & -> & Hfound); [lia|lia|].
  exists found. split; [done|]. destruct found; [|done]. destruct Hfound. split; [done|lia].
Qed.

Lemma search_accounts_spec c b accounts s : (0 < c)%nat →
  (position_found s = true → scheduled b !! final_position s = Some None) →
  (never_accessed s = true → position_found s = false ∧ final_position s = 0%nat) →
  (position_found s = false → final_position s = 0%nat) →
  ∃ s', search_accounts c b accounts s = Ok s'
    ∧ (position_found s' = true → scheduled b !! final_position s' = Some None)
    ∧ (never_accessed s' = true ↔ never_accessed s = true ∧ Forall (λ a, account_last_position b !! a = None) accounts).
Proof.
  intros Hc. revert s. induction accounts as [|a accounts IH]; intros s Hs1 Hs2 Hs3; cbn [search_accounts].
  { exists s. split_and!; [done|done|split; [intros ?; split; [done|constructor]|by intros [? _]]]. }
  destruct (account_last_position b !! a) as [p|] eqn:Ha.
  - destruct (free_slot_spec c (scheduled b) (S (length (scheduled b))) (p + c)) as (found & -> & Hf); [done|lia|lia|].
    cbn [mbind outcome_bind]. set (s1 := match found with Some _ => _ | None => _ end).
    destruct (IH s1) as (s' & -> & H1 & H2); [| | |exists s'; split_and!; [done|done|]].
    + subst s1. destruct found as [q|]; cbn; [|done]. intros _. destruct Hf as [Hf _].
      destruct (position_found s) eqn:Hpf; [|by rewrite (Hs3 eq_refl)].
      destruct (Nat.max_spec (final_position s) q) as [[_ ->]|[_ ->]]; auto.
    + subst s1. by destruct found.
    + subst s1. destruct found; [done|exact Hs3].
    + rewrite H2. subst s1. destruct found; cbn; split; [by intros []|intros [_ Hall]|by intros []|intros [_ Hall]];
        apply Forall_cons in Hall as [Hn _]; congruence.
  - destruct (IH s) as (s' & -> & H1 & H2); [done..|]. exists s'. split_and!; [done|done|].
    rewrite H2, Forall_cons. naive_solver.
Qed.

(** ** Removing the scheduled transactions *)

Definition ascending (l : list nat) : Prop :=
  ∀ i j a b, l !! i = Some a → l !! j = Some b → (i < j)%nat → (a < b)%nat.

Lemma ascending_snoc l k : ascending l → Forall (λ i, (i < k)%nat) l → ascending (l ++ [k]).
Proof.
  intros Hl Hk i j a b Hi Hj Hij. assert (i < length l)%nat as Hil.
  { apply lookup_lt_Some in Hj. rewrite length_app in Hj. cbn in Hj. lia. }
  rewrite lookup_app_l in Hi by done. apply lookup_app_Some in Hj as [Hj|[_ Hj]]; [by eapply Hl|].
  apply list_lookup_singleton_Some in Hj as [_ <-]. rewrite Forall_lookup in Hk. by eapply Hk.
Qed.

Lemma ascending_app l k : ascending (l ++ [k]) → ascending l ∧ Forall (λ i, (i < k)%nat) l.
Proof.
  intros Hl. split.
  - intros i j a b Hi Hj. eapply Hl; by apply lookup_app_l_Some.
  - apply Forall_lookup. intros i a Hi. eapply (Hl i (length l)).
    + by apply lookup_app_l_Some.
    + by rewrite lookup_app_r, Nat.sub_diag by lia.
    + by eapply lookup_lt_Some.
Qed.

Lemma removed_permutation l txns : ascending l → Forall (λ i, (i < length txns)%nat) l →
  omap (λ i, txns !! i) l ++ fold_left remove_at (rev l) txns ≡ₚ txns
  ∧ fold_left remove_at (rev l) txns `sublist_of` txns.
Proof.
  revert txns. induction l as [|k l IH] using rev_ind; intros txns Hasc Hlt; [done|].
  apply ascending_app in Hasc as [Hasc Hk]. apply Forall_app in Hlt as [Hlt Hkl]. rewrite Forall_singleton in Hkl.
  destruct (lookup_lt_is_Some_2 _ _ Hkl) as [x Hx]. rewrite rev_unit. cbn [fold_left]. unfold remove_at at 2 4.
  rewrite bool_decide_true by done. set (txns' := take k txns ++ drop (S k) txns).
  assert (Hmid : x :: txns' ≡ₚ txns).
  { subst txns'. rewrite Permutation_middle. by rewrite (take_drop_middle _ _ _ Hx). }
  assert (Hsame : omap (λ i, txns !! i) l = omap (λ i, txns' !! i) l).
  { clear IH Hasc Hlt. induction Hk as [|i l Hi _ IHk]; [done|]. cbn [omap list_omap] in *. rewrite IHk.
    subst txns'. rewrite lookup_app_l by (rewrite length_take; lia). by rewrite lookup_take_lt. }
  destruct (IH txns') as [Hp Hs]; [done| |].
  { eapply list.Forall_impl; [exact Hk|]. intros i Hi. cbn in Hi. subst txns'. rewrite length_app, length_take. lia. }
  split.
  - rewrite omap_app. cbn. rewrite Hx, Hsame, <- app_assoc. cbn. by rewrite <- Permutation_middle, Hp.
  - etrans; [exact Hs|]. subst txns'. rewrite <- (take_drop k txns) at 3. apply sublist_app; [done|].
    rewrite (drop_S _ _ _ Hx). by apply sublist_cons.
Qed.

(** ** The batch *)

(** After [k] of the transactions. *)
Record batch_inv (c : nat) (txns : list TransactionWithHint) (k : nat) (b : Batch) : Prop := {
  bi_len : length (scheduled b) = (c * 4)%nat;
  bi_free : available_slots b = free_slots (scheduled b);
  bi_next : (next_available_position b ≤ length (scheduled b))%nat;
  bi_taken : ∀ i, (i < next_available_position b)%nat → is_Some (mjoin (scheduled b !! i));
  bi_open : (next_available_position b < length (scheduled b))%nat → scheduled b !! next_available_position b = Some None;
  bi_asc : ascending (scheduled_txn_indices b);
  bi_lt : Forall (λ i, (i < k)%nat) (scheduled_txn_indices b);
  bi_perm : omap id (scheduled b) ≡ₚ omap (λ i, txns !! i) (scheduled_txn_indices b);
  bi_empty : scheduled_txn_indices b = [] → account_last_position b = ∅ }.

Lemma batch_inv_weaken c txns k k' b : (k ≤ k')%nat → batch_inv c txns k b → batch_inv c txns k' b.
Proof. intros Hk []. split; try done. eapply list.Forall_impl; [done|]. simpl. lia. Qed.

Lemma batch_new_inv c txns : batch_inv c txns 0 (Batch_new (c * 4)).
Proof.
  split; cbn [scheduled available_slots next_available_position scheduled_txn_indices account_last_position Batch_new]; try done.
  - by rewrite length_replicate.
  - unfold free_slots. induction (c * 4)%nat as [|n IH]; [done|]. cbn [replicate]. rewrite filter_cons, decide_True by done. cbn. by f_equal.
  - lia.
  - lia.
  - rewrite length_replicate. by apply lookup_replicate_2.
  - induction (c * 4)%nat; [done|]. cbn. exact IHn.
Qed.

Lemma place_inv c txns k b txn accs pos : batch_inv c txns k b → txns !! k = Some txn → scheduled b !! pos = Some None →
  ∃ b', place b k txn accs pos = Ok b' ∧ batch_inv c txns (S k) b' ∧ scheduled_txn_indices b' ≠ [].
Proof.
  intros [] Htxn Hpos. unfold place. pose proof (free_slots_insert _ _ txn Hpos) as Hfree.
  pose proof (lookup_lt_Some _ _ _ Hpos) as Hlt. rewrite bool_decide_true by lia. cbn [rust_assert mbind outcome_bind].
  eexists. split; [done|]. split; [|by destruct (scheduled_txn_indices b)].
  set (slots := <[pos := Some txn]> (scheduled b)) in *. assert (length slots = length (scheduled b)) as Hlen by apply length_insert.
  pose proof (skip_taken_spec (drop (next_available_position b) slots) (next_available_position b)) as (Hsk1 & Hsk2 & Hsk3).
  rewrite length_drop in *. set (next := skip_taken _ _) in *.
  split; cbn [scheduled available_slots next_available_position scheduled_txn_indices account_last_position].
  - lia.
  - lia.
  - lia.
  - intros i Hi. destruct (decide (i < next_available_position b)%nat).
    + subst slots. destruct (decide (i = pos)) as [->|]; [rewrite list_lookup_insert_eq by lia; by eexists|].
      rewrite list_lookup_insert_ne by done. auto.
    + specialize (Hsk2 (i - next_available_position b)%nat). rewrite lookup_drop in Hsk2.
      replace (next_available_position b + (i - next_available_position b))%nat with i in Hsk2 by lia. apply Hsk2. lia.
  - intros Hn. rewrite lookup_drop in Hsk3.
    replace (next_available_position b + (next - next_available_position b))%nat with next in Hsk3 by lia. apply Hsk3. lia.
  - by apply ascending_snoc.
  - apply Forall_app. split; [eapply list.Forall_impl; [done|]; simpl; lia|by repeat constructor].
  - subst slots. rewrite taken_insert, omap_app by done. cbn. rewrite Htxn, bi_perm0. by rewrite Permutation_cons_append.
  - intros Hnil. by destruct (scheduled_txn_indices b).
Qed.

Section schedule_correct.
Context (decode : TransactionWithHint → outcome (option TxEnvFull)) (c : nat) (Hc : (0 < c)%nat).

Lemma schedule_one_inv txns k b txn o : batch_inv c txns k b → (0 < available_slots b)%nat → txns !! k = Some txn → decode txn = Ok o →
  ∃ b', schedule_one decode c b k txn = Ok b' ∧ batch_inv c txns (S k) b'
    ∧ (scheduled_txn_indices b ≠ [] ∨ is_Some o → scheduled_txn_indices b' ≠ []).
Proof.
  intros Hinv Hav Htxn Hd. unfold schedule_one. rewrite Hd. cbn [mbind outcome_bind]. destruct o as [e|].
  2:{ exists b. split_and!; [done|apply (batch_inv_weaken _ _ k); [lia|done]|]. intros [|[? ?]]; done. }
  destruct (search_accounts_spec c b (accessed_accounts e) (mkSearch true false 0)) as (s & -> & Hfound & Hnever); [done..|].
  cbn [mbind outcome_bind]. destruct (never_accessed s).
  - assert (scheduled b !! next_available_position b = Some None) as Hnext.
    { apply (bi_open _ _ _ _ Hinv). destruct (decide (next_available_position b < length (scheduled b))%nat); [done|].
      pose proof (bi_free _ _ _ _ Hinv). rewrite free_slots_pos in *; [lia|]. intros i Hi. apply (bi_taken _ _ _ _ Hinv). lia. }
    destruct (place_inv _ _ _ _ _ (accessed_accounts e) _ Hinv Htxn Hnext) as (b' & -> & ? & ?). eauto.
  - destruct (position_found s).
    + destruct (place_inv _ _ _ _ _ (accessed_accounts e) _ Hinv Htxn (Hfound eq_refl)) as (b' & -> & ? & ?). eauto.
    + exists b. split_and!; [done|apply (batch_inv_weaken _ _ k); [lia|done]|]. intros _ Hnil.
      pose proof (bi_empty _ _ _ _ Hinv Hnil) as Hempty. destruct Hnever as [_ Hnever]. discriminate Hnever.
      split; [done|]. rewrite Hempty. apply Forall_true. intros. apply lookup_empty.
Qed.

Lemma schedule_loop_inv txns rest k b : batch_inv c txns k b → (0 < available_slots b)%nat → (k ≤ length txns)%nat → drop k txns = rest →
  Forall (λ t, ∃ o, decode t = Ok o) rest →
  ∃ b', schedule_loop decode c b k rest = Ok b' ∧ batch_inv c txns (length txns) b'
    ∧ (scheduled_txn_indices b ≠ [] ∨ Exists (λ t, ∃ e, decode t = Ok (Some e)) rest → scheduled_txn_indices b' ≠ []).
Proof.
  revert k b. induction rest as [|txn rest IH]; intros k b Hinv Hav Hk Hdrop Hall; cbn [schedule_loop].
  { exists b. split_and!; [done|by apply (batch_inv_weaken _ _ k)|by intros [|?%Exists_nil]]. }
  assert (txns !! k = Some txn) as Htxn by (by rewrite <- (Nat.add_0_r k), <- lookup_drop, Hdrop).
  apply Forall_cons in Hall as [[o Ho] Hall].
  destruct (schedule_one_inv txns k b txn o) as (b1 & -> & Hinv1 & Hne); [done..|]. cbn [mbind outcome_bind].
  pose proof (lookup_lt_Some _ _ _ Htxn). case_bool_decide as Hfull.
  - exists b1. split_and!; [done|by apply (batch_inv_weaken _ _ (S k))|]. intros _ Hnil.
    pose proof (bi_perm _ _ _ _ Hinv1) as Hp. rewrite Hnil in Hp. cbn in Hp. apply Permutation_nil_r in Hp.
    pose proof (bi_len _ _ _ _ Hinv1). pose proof (bi_free _ _ _ _ Hinv1). rewrite (no_taken_free _ Hp) in *. lia.
  - destruct (IH (S k) b1) as (b' & -> & Hinv' & Hne'); [done|lia|lia| |done|].
    { by rewrite <- Nat.add_1_r, <- drop_drop, Hdrop. }
    exists b'. split_and!; [done|done|]. intros Hsome. apply Hne'.
    destruct Hsome as [Hsome|[[e He]|?]%Exists_cons]; [left; auto| |by right].
    left. apply Hne. right. rewrite Ho in He. injection He as ->. by eexists.
Qed.
End schedule_correct.

(** C37: [schedule_a_parallelizable_batch] never loses, duplicates or overwrites a
    transaction: on waiting transactions whose decoding does not panic it terminates without
    an out-of-range position and without wrapping its count of free slots; what it
    schedules together with what is left is a permutation of what was waiting, what is
    left keeps its order, a batch has at most four transactions per thread, and it has at
    least one if any waiting transaction can be decoded. *)
Theorem schedule_keeps_transactions (decode : TransactionWithHint → outcome (option TxEnvFull)) (concurrency_level : nat)
    (txns : list TransactionWithHint) (Hc : (0 < concurrency_level)%nat) (Hdecode : Forall (λ t, ∃ o, decode t = Ok o) txns) :
  ∃ batch rest,
    schedule_a_parallelizable_batch decode concurrency_level txns = Ok (Some <$> batch, rest)
    ∧ batch ++ rest ≡ₚ txns
    ∧ rest `sublist_of` txns
    ∧ (length batch ≤ concurrency_level * 4)%nat
    ∧ (Exists (λ t, ∃ e, decode t = Ok (Some e)) txns → batch ≠ []).
Proof.
  destruct (schedule_loop_inv decode concurrency_level Hc txns txns 0 (Batch_new (concurrency_level * 4))) as (b & Hrun & Hinv & Hne);
    [apply batch_new_inv|cbn; lia|lia|done|done|].
  destruct Hinv as [Hlen _ _ _ _ Hasc Hlt Hperm _]. destruct (removed_permutation _ _ Hasc Hlt) as [Hp Hs].
  exists (omap id (scheduled b)), (fold_left remove_at (rev (scheduled_txn_indices b)) txns). split_and!.
  - unfold schedule_a_parallelizable_batch. rewrite Hrun. cbn. by rewrite filter_taken.
  - by rewrite Hperm.
  - done.
  - rewrite <- Hlen. apply length_omap_le.
  - intros Hex Hnil. apply (Hne (or_intror Hex)). rewrite Hnil in Hperm. apply Permutation_nil_l in Hperm.
    destruct (scheduled_txn_indices b) as [|i l]; [done|]. exfalso. apply Forall_cons in Hlt as [Hi _].
    destruct (lookup_lt_is_Some_2 _ _ Hi) as [x Hx]. cbn in Hperm. by rewrite Hx in Hperm.
Qed.

(** ** Samples *)

(** Transactions whose text is empty create a contract, the others call account 2. *)
Definition sample_decode (t : TransactionWithHint) : outcome (option TxEnvFull) :=
  Ok (Some (TxEnv_default (hint_caller t) 0 0 (match raw_hex t with [] => None | _ => Some 2 end) 0 [] None None [])).
Definition creation (a : N) (n : text) : TransactionWithHint := mkHint [] a n.
Definition call (a : N) (n : text) : TransactionWithHint := mkHint ["c"%char] a n.

Lemma schedule_keeps_transactions_witness :
  ∃ batch rest,
    schedule_a_parallelizable_batch sample_decode 1 [creation 1 []; call 1 []; creation 3 []; call 2 []; call 4 []] = Ok (Some <$> batch, rest)
    ∧ batch ++ rest ≡ₚ [creation 1 []; call 1 []; creation 3 []; call 2 []; call 4 []] ∧ batch ≠ [].
Proof.
  destruct (schedule_keeps_transactions sample_decode 1 [creation 1 []; call 1 []; creation 3 []; call 2 []; call 4 []])
    as (batch & rest & Hrun & Hp & _ & _ & Hne).
  - lia.
  - repeat constructor; by eexists.
  - exists batch, rest. split_and!; [done|done|]. apply Hne. constructor. by eexists.
Defined.

(** The order of the transactions of one sender is not kept: when the slots after the last
    transaction of account 1 are all taken, the slot found for the other account decides,
    and its fifth transaction comes before its second. *)
Lemma schedule_inverts_order :
  schedule_a_parallelizable_batch sample_decode 2
    [creation 2 []; creation 1 ["1"%char]; creation 1 ["2"%char]; creation 1 ["3"%char]; creation 1 ["4"%char]; call 1 ["5"%char]]
  = Ok (Some <$> [creation 2 []; creation 1 ["1"%char]; call 1 ["5"%char]; creation 1 ["2"%char]; creation 1 ["3"%char]; creation 1 ["4"%char]], []).
Proof. by vm_compute. Qed.
