(* ===== verification/FairSchedule.v ===== *)
(** * Scheduling a batch with several threads

    Models [schedule_a_parallelizable_batch_fair_sequential] and
    [process_transaction_sequential] of src/pevm/crates/pevm/src/api.rs: threads take senders
    from a shared queue and place the next transaction of a sender in the batch, under locks on
    the accounts it accesses.

    A thread is a program over the shared state ([Concurrent]). An entry of a concurrent
    map, the injector, the counter of free slots and the contents of a mutex are changed one
    action at a time; the counter only changes in the section that holds the lock of the
    slots, so that its test there and its decrement are one action. The mutex around the
    queue of a sender is left out, since [caller_processing] already keeps
    other threads away. The deques of the threads themselves stay empty; stealing from the
    injector may fail under contention ([Demon]). A lock on accounts that is tried again until it
    succeeds is an action that waits. *)

From S2P Require Import Prelude Bytes TxCodec BatchSchedule Concurrent.

(** ** State *)

Record Fair := mkFair {
  injector : list N;
  caller_queues : gmap N (list (nat * TransactionWithHint));
  caller_processing : gset N;
  account_being_accessed : gset N;
  last_position : gmap N nat;
  slots : list (option TransactionWithHint);
  indices : list nat;
  free_count : nat }.

Definition with_injector (g : Fair) (l : list N) : Fair :=
  mkFair l (caller_queues g) (caller_processing g) (account_being_accessed g) (last_position g) (slots g) (indices g) (free_count g).
Definition with_queue (g : Fair) (c : N) (q : list (nat * TransactionWithHint)) : Fair :=
  mkFair (injector g) (<[c := q]> (caller_queues g)) (caller_processing g) (account_being_accessed g) (last_position g) (slots g) (indices g) (free_count g).
Definition with_processing (g : Fair) (s : gset N) : Fair :=
  mkFair (injector g) (caller_queues g) s (account_being_accessed g) (last_position g) (slots g) (indices g) (free_count g).
Definition with_accessed (g : Fair) (s : gset N) : Fair :=
  mkFair (injector g) (caller_queues g) (caller_processing g) s (last_position g) (slots g) (indices g) (free_count g).
Definition with_position (g : Fair) (a : N) (p : nat) : Fair :=
  mkFair (injector g) (caller_queues g) (caller_processing g) (account_being_accessed g) (<[a := p]> (last_position g)) (slots g) (indices g) (free_count g).
Definition with_slot (g : Fair) (p index : nat) (t : TransactionWithHint) : Fair :=
  mkFair (injector g) (caller_queues g) (caller_processing g) (account_being_accessed g) (last_position g)
    (<[p := Some t]> (slots g)) (indices g ++ [index]) (free_count g - 1).

(** The queues of the senders, in the order of the transactions. *)
Definition enqueue (queues : gmap N (list (nat * TransactionWithHint))) (p : nat * TransactionWithHint) : gmap N (list (nat * TransactionWithHint)) :=
  <[hint_caller p.2 := default [] (queues !! hint_caller p.2) ++ [p]]> queues.
Definition populate (txns : list TransactionWithHint) : gmap N (list (nat * TransactionWithHint)) :=
  fold_left enqueue (imap pair txns) ∅.

(** The senders are in [senders], in the order in which the map is iterated. *)
Definition fair_initial (concurrency_level : nat) (senders : list N) (txns : list TransactionWithHint) : Fair :=
  mkFair senders (populate txns) ∅ ∅ ∅ (replicate (concurrency_level * 4) None) [] (concurrency_level * 4).

Section fair.
Context (decode : TransactionWithHint → outcome (option TxEnvFull)) (concurrency_level : nat).

(** ** Placing a transaction *)

(** The first free slot from [pos] on. *)
Definition free_from (pos : nat) (l : list (option TransactionWithHint)) : option nat :=
  (λ p, (pos + p.1)%nat) <$> list_find (λ o, o = None) (drop pos l).

(** The locals of the search; [out_of_bound] ends it. *)
Record Position := mkPosition { fair_never : bool; fair_found : bool; out_of_bound : bool; fair_final : nat }.

Fixpoint search_positions (accounts : list N) (s : Position) : prog Fair Position :=
  match accounts with
  | [] => Ret s
  | account :: accounts =>
      if out_of_bound s then Ret s else
      last <- load (λ g, last_position g !! account);;
      match last with
      | None => search_positions accounts s
      | Some last_pos =>
          let new_position := (last_pos + concurrency_level)%nat in
          if bool_decide (new_position ≤ fair_final s)%nat then search_positions accounts (mkPosition false (fair_found s) false (fair_final s))
          else
            found <- load (λ g, free_from new_position (slots g));;
            match found with
            | Some p => search_positions accounts (mkPosition false true false p)
            | None => search_positions accounts (mkPosition false false true (fair_final s))
            end
      end
  end.

(** The section that holds the locks of the slots and of the indices; [Some p] when the
    transaction is placed at [p]. *)
Definition place_section (index : nat) (txn : TransactionWithHint) (s : Position) (g : Fair) : effect Fair (option nat) :=
  let target := if fair_never s then free_from 0 (slots g) else if fair_found s then Some (fair_final s) else None in
  match target with
  | None => Step g None
  | Some p =>
      match slots g !! p with
      | None => Crash
      | Some (Some _) => Step g None
      | Some None => if bool_decide (0 < free_count g)%nat then Step (with_slot g p index txn) (Some p) else Step g None
      end
  end.

Fixpoint insert_positions (accounts : list N) (p : nat) : prog Fair unit :=
  match accounts with
  | [] => Ret tt
  | a :: accounts => modify (λ g, with_position g a p);; insert_positions accounts p
  end.

Definition lock_accounts (accounts : list N) : prog Fair unit :=
  act (λ g, if bool_decide (Forall (λ a, a ∉ account_being_accessed g) accounts)
            then Step (with_accessed g (list_to_set accounts ∪ account_being_accessed g)) tt else Wait).
Definition unlock_accounts (accounts : list N) : prog Fair unit :=
  modify (λ g, with_accessed g (account_being_accessed g ∖ list_to_set accounts)).

Definition process_transaction_sequential (index : nat) (txn : TransactionWithHint) : prog Fair bool :=
  match decode txn with
  | Ok None => Ret false
  | Ok (Some tx_env) =>
      let accounts := accessed_accounts tx_env in
      lock_accounts accounts;;
      s <- search_positions accounts (mkPosition true false false 0);;
      placed <- (if fair_never s || fair_found s then act (place_section index txn s) else Ret None);;
      (match placed with Some p => insert_positions accounts p | None => Ret tt end);;
      unlock_accounts accounts;;
      Ret (bool_decide (is_Some placed))
  | _ => act (λ _, Crash)
  end.

(** ** The loop of a thread *)

Definition steal : prog Fair (option N) :=
  Demon (λ retry : bool,
    if retry then Ret None
    else act (λ g, match injector g with [] => Step g None | c :: l => Step (with_injector g l) (Some c) end)).
Definition push_caller (c : N) : prog Fair unit := modify (λ g, with_injector g (injector g ++ [c])).

(** [caller_processing.insert(caller, true).is_none()] *)
Definition acquire_caller (c : N) : prog Fair bool :=
  act (λ g, Step (with_processing g ({[c]} ∪ caller_processing g)) (bool_decide (c ∉ caller_processing g))).
Definition release_caller (c : N) : prog Fair unit :=
  modify (λ g, with_processing g (caller_processing g ∖ {[c]})).

Definition pop_front (c : N) : prog Fair (option (nat * TransactionWithHint)) :=
  act (λ g, match caller_queues g !! c with
            | Some (x :: q) => Step (with_queue g c q) (Some x)
            | _ => Step g None
            end).
Definition push_front (c : N) (x : nat * TransactionWithHint) : prog Fair unit :=
  modify (λ g, match caller_queues g !! c with Some q => with_queue g c (x :: q) | None => g end).

(** One transaction of a sender. *)
Definition process_caller (c : N) : prog Fair unit :=
  popped <- pop_front c;;
  match popped with
  | None => Ret tt
  | Some (index, txn) =>
      available <- load (λ g, bool_decide (0 < free_count g)%nat);;
      found <- (if available then
                  found <- process_transaction_sequential index txn;;
                  (if found then Ret tt else push_front c (index, txn));;
                  Ret found
                else Ret false);;
      if found then
        empty <- load (λ g, bool_decide (default [] (caller_queues g !! c) = []));;
        if empty then Ret tt
        else
          available <- load (λ g, bool_decide (0 < free_count g)%nat);;
          if available then push_caller c else Ret tt
      else Ret tt
  end.

(** [false] ends the thread. *)
Definition fair_step : prog Fair bool :=
  caller <- steal;;
  match caller with
  | None => Ret false
  | Some c =>
      acquired <- acquire_caller c;;
      (if acquired then process_caller c;; release_caller c else push_caller c);;
      Ret true
  end.
Definition fair_next (go : bool) : option (prog Fair bool) := if go then Some fair_step else None.
Definition fair_spawn (num_threads : nat) : list (option (prog Fair bool)) := replicate num_threads (Some fair_step).
End fair.

(** ** The result *)

(** Sorting by [b.cmp(a)]. *)
Definition descending (l : list nat) : list nat := rev (merge_sort Nat.le l).

(** The batch, and the transactions that are left. *)
Definition fair_result (txns : list TransactionWithHint) (g : Fair) : list (option TransactionWithHint) * list TransactionWithHint :=
  (filter is_Some (slots g), fold_left remove_at (descending (indices g)) txns).
