(* ===== verification/FairCorrect.v ===== *)
(** * Correctness of the scheduling threads

    Whatever the threads of [FairSchedule] do, transactions that share an account end up
    at least the concurrency level apart, the transactions of a sender keep their order, and no
    transaction is lost, duplicated or overwritten.

    The ghost map [place] has the slot of every transaction that is scheduled. The token of a
    thread has the sender it processes, the transaction it has taken from the queue, the accounts
    it has locked, what it knows of their last positions, and, after placing a transaction,
    the accounts whose last position it has not yet written. *)

From S2P Require Import Prelude Bytes TxCodec BatchSchedule Concurrent FairSchedule.

(** ** Lists *)

Lemma filter_length_perm {A} (P : A → Prop) `{!∀ x, Decision (P x)} l l' : l ≡ₚ l' → length (filter P l) = length (filter P l').
Proof. intros Hl. by rewrite Hl. Qed.

Lemma count_cons {A} (P : A → Prop) `{!∀ x, Decision (P x)} x l :
  length (filter P (x :: l)) = ((if decide (P x) then 1 else 0) + length (filter P l))%nat.
Proof. rewrite filter_cons. by case_decide. Qed.

(** Counting the holders of a lock. *)
Ltac count := cbn in *; rewrite ?count_cons in *; cbn in *; repeat case_decide; repeat case_bool_decide; simplify_eq/=; try lia; set_solver.

Lemma free_from_spec pos l p : free_from pos l = Some p → l !! p = Some None ∧ (pos ≤ p)%nat.
Proof.
  unfold free_from. intros ([q o] & Hf & ->)%fmap_Some. apply list_find_Some in Hf as (Hl & -> & _).
  rewrite lookup_drop in Hl. cbn. split; [done|lia].
Qed.

Lemma elem_of_drop_sub {A} (l : list A) k x : x ∈ drop k l → x ∈ l.
Proof. intros Hx. rewrite <- (take_drop k l). set_solver. Qed.

(** The waiting transactions of a sender with their indices, in order. *)
Definition waiting (txns : list TransactionWithHint) (cl : N) : list (nat * TransactionWithHint) :=
  filter (λ x, hint_caller x.2 = cl) (imap pair txns).

Lemma elem_of_waiting txns cl i t : (i, t) ∈ waiting txns cl ↔ txns !! i = Some t ∧ hint_caller t = cl.
Proof.
  unfold waiting. rewrite list_elem_of_filter, elem_of_lookup_imap. cbn. naive_solver.
Qed.

Lemma imap_pair_sorted (f : nat → nat) (l : list TransactionWithHint) l1 x l2 y :
  (∀ i j, (i < j)%nat → (f i < f j)%nat) → imap (λ i t, (f i, t)) l = l1 ++ x :: l2 → y ∈ l2 → (x.1 < y.1)%nat.
Proof.
  intros Hf Heq (j & Hj)%list_elem_of_lookup.
  assert (imap (λ i t, (f i, t)) l !! length l1 = Some x) as H1 by (by rewrite Heq, list_lookup_middle).
  assert (imap (λ i t, (f i, t)) l !! (length l1 + S j)%nat = Some y) as H2.
  { rewrite Heq, lookup_app_r by lia. by replace (length l1 + S j - length l1)%nat with (S j) by lia. }
  rewrite list_lookup_imap in H1, H2. apply fmap_Some in H1 as (? & _ & ->), H2 as (? & _ & ->). cbn. apply Hf. lia.
Qed.

Lemma filter_split {A} (P : A → Prop) `{!∀ x, Decision (P x)} l l1 x l2 :
  filter P l = l1 ++ x :: l2 → ∃ k1 k2, l = k1 ++ x :: k2 ∧ filter P k2 = l2.
Proof.
  revert l1. induction l as [|z l IH]; intros l1 Heq; [by destruct l1|].
  rewrite filter_cons in Heq. case_decide.
  - destruct l1 as [|z' l1]; cbn in Heq; injection Heq as -> Heq.
    + by exists [], l.
    + destruct (IH _ Heq) as (k1 & k2 & -> & Hk). by exists (z' :: k1), k2.
  - destruct (IH _ Heq) as (k1 & k2 & -> & Hk). by exists (z :: k1), k2.
Qed.

Lemma waiting_sorted txns cl l1 x l2 y : waiting txns cl = l1 ++ x :: l2 → y ∈ l2 → (x.1 < y.1)%nat.
Proof.
  intros (k1 & k2 & Heq & <-)%filter_split [_ Hy]%list_elem_of_filter.
  by eapply (imap_pair_sorted (λ i, i)).
Qed.

Lemma waiting_populate txns cl q : populate txns !! cl = Some q → q = waiting txns cl.
Proof.
  unfold populate, waiting. intros Hq.
  assert (Hgen : ∀ l m, (∀ q, fold_left enqueue l m !! cl = Some q → q = default [] (m !! cl) ++ filter (λ x, hint_caller x.2 = cl) l)).
  { clear. induction l as [|x l IH]; intros m q Hq; cbn [fold_left] in Hq; [rewrite Hq; cbn; by rewrite app_nil_r|].
    rewrite (IH _ _ Hq). unfold enqueue. rewrite filter_cons. case_decide as Hx.
    - rewrite Hx, lookup_insert_eq. cbn. by rewrite <- app_assoc.
    - by rewrite lookup_insert_ne. }
  apply Hgen in Hq. by rewrite lookup_empty in Hq.
Qed.

(** ** Invariant *)

Record ftoken := mkFTok {
  tk_caller : option N;
  tk_txn : option (nat * TransactionWithHint);
  tk_locked : list N;
  tk_known : list (N * option nat);
  tk_pending : list N;
  tk_pos : nat }.

Definition resting : ftoken := mkFTok None None [] [] [] 0.

Section fair_correct.
Context (decode : TransactionWithHint → outcome (option TxEnvFull)) (c : nat) (txns : list TransactionWithHint).
Context (Hc : (0 < c)%nat).
Context (Hdecode : Forall (λ t, ∃ o, decode t = Ok o) txns).
Context (Hcaller : ∀ t e, decode t = Ok (Some e) → env_caller e = hint_caller t).

(** The accounts of a transaction. *)
Definition accs (t : TransactionWithHint) : list N :=
  match decode t with Ok (Some e) => accessed_accounts e | _ => [] end.

(** [at_slot place i t p]: transaction [i] is [t] and scheduled at [p]. *)
Definition at_slot (place : gmap nat nat) (i : nat) (t : TransactionWithHint) (p : nat) : Prop :=
  place !! i = Some p ∧ txns !! i = Some t.

(** The slots. *)
Record slots_inv (place : gmap nat nat) (g : Fair) : Prop := {
  s_slot : ∀ i p, place !! i = Some p → ∃ t, txns !! i = Some t ∧ slots g !! p = Some (Some t) ∧ accs t ≠ [];
  s_inj : ∀ i j p, place !! i = Some p → place !! j = Some p → i = j;
  s_len : length (slots g) = (c * 4)%nat;
  s_free : free_count g = free_slots (slots g);
  s_nodup : NoDup (indices g);
  s_indices : ∀ i, i ∈ indices g ↔ is_Some (place !! i);
  s_perm : omap id (slots g) ≡ₚ omap (λ i, txns !! i) (indices g);
  s_dist : ∀ i j t u p q a, at_slot place i t p → at_slot place j u q → a ∈ accs t → a ∈ accs u → i ≠ j → (p + c ≤ q ∨ q + c ≤ p)%nat;
  s_order : ∀ i j t u q, txns !! i = Some t → at_slot place j u q → hint_caller t = hint_caller u → (i < j)%nat →
    ∃ p, at_slot place i t p ∧ (p + c ≤ q)%nat }.

Definition callers_inv (g : Fair) (toks : list ftoken) : Prop :=
  ∀ cl, length (filter (λ t, tk_caller t = Some cl) toks) = if bool_decide (cl ∈ caller_processing g) then 1%nat else 0%nat.

Definition token_ok (place : gmap nat nat) (g : Fair) (tok : ftoken) : Prop :=
  (∀ a o, (a, o) ∈ tk_known tok → a ∈ tk_locked tok ∧ last_position g !! a = o)
  ∧ ∀ a, a ∈ tk_pending tok → a ∈ tk_locked tok ∧ ∀ i t p, at_slot place i t p → a ∈ accs t → (p ≤ tk_pos tok)%nat.

(** The locks on the accounts. *)
Record locks_inv (place : gmap nat nat) (g : Fair) (toks : list ftoken) : Prop := {
  l_locked : ∀ a, length (filter (λ t, a ∈ tk_locked t) toks) = if bool_decide (a ∈ account_being_accessed g) then 1%nat else 0%nat;
  l_tokens : Forall (token_ok place g) toks;
  l_last : ∀ i t p a, at_slot place i t p → a ∈ accs t →
    (∃ l, last_position g !! a = Some l ∧ (p ≤ l)%nat) ∨ Exists (λ tok, a ∈ tk_pending tok) toks }.

Definition in_flight (cl : N) (tok : ftoken) : option (nat * TransactionWithHint) :=
  if bool_decide (tk_caller tok = Some cl) then tk_txn tok else None.

(** The queues of the senders; once the batch is full a transaction may be dropped from
    its queue. *)
Record queues_inv (place : gmap nat nat) (g : Fair) (toks : list ftoken) : Prop := {
  q_some : ∀ cl, waiting txns cl ≠ [] → is_Some (caller_queues g !! cl);
  q_queue : ∀ cl q, caller_queues g !! cl = Some q → Forall (λ x, x ∈ waiting txns cl) q;
  q_rest : (0 < free_count g)%nat → ∀ cl q, caller_queues g !! cl = Some q →
    ∃ fl k, omap (in_flight cl) toks ≡ₚ fl ∧ fl ++ q = drop k (waiting txns cl)
      ∧ (∀ x, x ∈ take k (waiting txns cl) → is_Some (place !! x.1))
      ∧ (∀ x, x ∈ drop k (waiting txns cl) → place !! x.1 = None) }.

Definition FInv (g : Fair) (toks : list ftoken) : Prop :=
  ∃ place, slots_inv place g ∧ callers_inv g toks ∧ locks_inv place g toks ∧ queues_inv place g toks.

Lemma FInv_perm g l l' : l ≡ₚ l' → FInv g l → FInv g l'.
Proof.
  intros Hl (place & Hs & Hcal & [L1 L2 L3] & [Q0 Q1 Q2]). exists place. split_and!; [done| | |].
  - intros cl. rewrite <- (filter_length_perm _ _ _ Hl). apply Hcal.
  - split; [intros a; rewrite <- (filter_length_perm _ _ _ Hl); apply L1|by rewrite <- Hl|].
    intros i t p a Hat Ha. destruct (L3 i t p a Hat Ha) as [?|?]; [by left|right; by rewrite <- Hl].
  - split; [done|done|]. intros Hf cl q Hq. destruct (Q2 Hf cl q Hq) as (fl & k & H1 & H2).
    exists fl, k. split; [|done]. by rewrite <- Hl.
Qed.

Local Notation safe := (safe False FInv).

(** ** Senders *)

Lemma safe_load {A} (f : Fair → A) tok (P : A → Prop) : (∀ g rest, FInv g (tok :: rest) → P (f g)) → safe (load f) (λ a t, t = tok ∧ P a) tok.
Proof. intros HP g rest Hinv. exists tok. split; [done|]. cbn. split; [done|by eapply HP]. Qed.

(** Nothing but the injector changes. *)
Lemma FInv_injector g l toks : FInv g toks → FInv (with_injector g l) toks.
Proof. intros (place & [] & Hcal & [] & []). exists place. split_and!; [by split|exact Hcal|by split|by split]. Qed.

Lemma steal_safe tok : safe steal (λ _ t, t = tok) tok.
Proof.
  intros [|]; [done|]. intros g rest Hinv. destruct (injector g) as [|cl l]; exists tok; split; try done.
  by apply FInv_injector.
Qed.

Lemma push_caller_safe cl tok : safe (push_caller cl) (λ _ t, t = tok) tok.
Proof. intros g rest Hinv. exists tok. split; [by apply FInv_injector|done]. Qed.

(** The head token with the same sender. *)
Lemma callers_inv_head g tok tok' g' rest : callers_inv g (tok :: rest) → tk_caller tok' = tk_caller tok →
  caller_processing g' = caller_processing g → callers_inv g' (tok' :: rest).
Proof. intros Hcal Htok Hg cl. rewrite Hg, <- Hcal. by rewrite !count_cons, Htok. Qed.

(** The head token with the same locks. *)
Lemma locks_inv_head place g tok tok' g' rest : locks_inv place g (tok :: rest) →
  tk_locked tok' = tk_locked tok → tk_known tok' = tk_known tok → tk_pending tok' = tk_pending tok → tk_pos tok' = tk_pos tok →
  account_being_accessed g' = account_being_accessed g → last_position g' = last_position g →
  locks_inv place g' (tok' :: rest).
Proof.
  destruct tok as [cl1 x1 A1 K1 P1 p1], tok' as [cl2 x2 A2 K2 P2 p2]. cbn. intros [L1 L2 L3] -> -> -> -> Hacc Hlast. split.
  - intros a. rewrite Hacc, <- L1. by rewrite !count_cons.
  - rewrite Forall_cons in *. unfold token_ok in *. cbn in *. by rewrite Hlast.
  - intros i t p a Hat Ha. rewrite Hlast. destruct (L3 i t p a Hat Ha) as [?|Hex]; [by left|right].
    by rewrite Exists_cons in *.
Qed.

(** The head token with the same transaction in flight. *)
Lemma queues_inv_head place g tok tok' g' rest : queues_inv place g (tok :: rest) →
  (∀ cl, in_flight cl tok' = in_flight cl tok) → caller_queues g' = caller_queues g → free_count g' = free_count g →
  queues_inv place g' (tok' :: rest).
Proof.
  intros [Q0 Q1 Q2] Hfl Hq Hf. split; [by rewrite Hq|by rewrite Hq|]. rewrite Hq, Hf. intros Hpos cl q Hcl.
  destruct (Q2 Hpos cl q Hcl) as (fl & k & H1 & H2). exists fl, k. split; [|done]. etrans; [|exact H1]. cbn. by rewrite Hfl.
Qed.

Lemma in_flight_none cl tok : tk_txn tok = None → in_flight cl tok = None.
Proof. intros Hn. unfold in_flight. rewrite Hn. by destruct (bool_decide _). Qed.

(** Changing the sender in a token that holds nothing else. *)
Lemma acquire_caller_safe cl :
  safe (acquire_caller cl) (λ b t, t = if b then mkFTok (Some cl) None [] [] [] 0 else resting) resting.
Proof.
  intros g rest (place & Hs & Hcal & HL & HQ). cbn. case_bool_decide as Hin.
  - exists (mkFTok (Some cl) None [] [] [] 0). split; [|done]. exists place. split_and!; [destruct Hs; by split| | |].
    + intros cl'. pose proof (Hcal cl') as Hcl'. pose proof (Hcal cl) as Hcl. count.
    + by apply (locks_inv_head place g resting).
    + apply (queues_inv_head place g resting); [done| |done|done]. intros ?. by rewrite !in_flight_none.
  - exists resting. split; [|done]. exists place. split_and!; [destruct Hs; by split| |destruct HL; by split|destruct HQ; by split].
    intros cl'. pose proof (Hcal cl') as Hcl'. count.
Qed.

Lemma release_caller_safe cl :
  safe (release_caller cl) (λ _ t, t = resting) (mkFTok (Some cl) None [] [] [] 0).
Proof.
  intros g rest (place & Hs & Hcal & HL & HQ). exists resting. split; [|done]. exists place.
  split_and!; [destruct Hs; by split| | |].
  - intros cl'. pose proof (Hcal cl') as Hcl'. pose proof (Hcal cl) as Hcl. count.
  - by eapply (locks_inv_head place g).
  - eapply (queues_inv_head place g); [done| |done|done]. intros ?. by rewrite !in_flight_none.
Qed.

(** ** Transactions of a sender *)

Lemma alone_in_flight g tok rest cl : callers_inv g (tok :: rest) → tk_caller tok = Some cl → omap (in_flight cl) rest = [].
Proof.
  intros Hcal Htok. specialize (Hcal cl). rewrite count_cons, decide_True in Hcal by done.
  assert (length (filter (λ t, tk_caller t = Some cl) rest) = 0%nat) as Hnone by (case_bool_decide; lia).
  apply nil_length_inv in Hnone. clear Hcal. induction rest as [|t rest IH]; [done|].
  rewrite filter_cons in Hnone. case_decide as Ht; [done|]. cbn. unfold in_flight at 1. rewrite bool_decide_false by done. by apply IH.
Qed.

Lemma in_flight_other cl cl' x A K P p : cl ≠ cl' → in_flight cl' (mkFTok (Some cl) x A K P p) = None.
Proof. intros Hne. unfold in_flight. cbn. by rewrite bool_decide_false by congruence. Qed.

Lemma in_flight_same cl x A K P p : in_flight cl (mkFTok (Some cl) x A K P p) = x.
Proof. unfold in_flight. cbn. by rewrite bool_decide_true. Qed.

Lemma pop_front_safe cl :
  safe (pop_front cl) (λ o t, t = mkFTok (Some cl) o [] [] [] 0 ∧ from_option (λ x, x ∈ waiting txns cl) True o)
    (mkFTok (Some cl) None [] [] [] 0).
Proof.
  intros g rest (place & Hs & Hcal & HL & HQ). destruct (caller_queues g !! cl) as [[|x q]|] eqn:Hq.
  1,3: eexists; split; [|done]; by exists place.
  exists (mkFTok (Some cl) (Some x) [] [] [] 0). destruct HQ as [Q0 Q1 Q2].
  pose proof (Q1 _ _ Hq) as Hall. apply Forall_cons in Hall as [Hx Hall]. split; [|done].
  exists place. split_and!; [destruct Hs; by split| |by eapply (locks_inv_head place g)|].
  { by eapply (callers_inv_head g). }
  split; cbn [caller_queues with_queue free_count].
  - intros cl' Hw. destruct (decide (cl = cl')) as [<-|Hne]; [rewrite lookup_insert_eq; by eexists|]. rewrite lookup_insert_ne by done. by apply Q0.
  - intros cl' q' Hq'. destruct (decide (cl = cl')) as [<-|Hne]; [rewrite lookup_insert_eq in Hq'; by simplify_eq|].
    rewrite lookup_insert_ne in Hq' by done. by apply Q1.
  - intros Hf cl' q' Hq'. destruct (decide (cl = cl')) as [<-|Hne].
    + rewrite lookup_insert_eq in Hq'. injection Hq' as <-. destruct (Q2 Hf cl _ Hq) as (fl & k & H1 & H2 & H3).
      exists [x], k. cbn in *. rewrite in_flight_same in *. rewrite (alone_in_flight g _ _ cl Hcal eq_refl) in *.
      apply Permutation_nil_l in H1. subst fl. split; [done|]. split; [exact H2|exact H3].
    + rewrite lookup_insert_ne in Hq' by done. destruct (Q2 Hf cl' q' Hq') as (fl & k & H1 & H2). exists fl, k. split; [|done].
      etrans; [|exact H1]. cbn. by rewrite !in_flight_other.
Qed.

Lemma push_front_safe cl x : x ∈ waiting txns cl →
  safe (push_front cl x) (λ _ t, t = mkFTok (Some cl) None [] [] [] 0) (mkFTok (Some cl) (Some x) [] [] [] 0).
Proof.
  intros Hx g rest (place & Hs & Hcal & HL & HQ). exists (mkFTok (Some cl) None [] [] [] 0). split; [|done].
  destruct HQ as [Q0 Q1 Q2]. exists place.
  split_and!; [destruct Hs; split; by destruct (caller_queues g !! cl)|eapply (callers_inv_head g); [done|done|]; by destruct (caller_queues g !! cl)|
    eapply (locks_inv_head place g); [done|done|done|done|done|..]; by destruct (caller_queues g !! cl)|].
  assert (Hother : (0 < free_count g)%nat → ∀ cl' q', cl ≠ cl' → caller_queues g !! cl' = Some q' →
    ∃ fl k, omap (in_flight cl') (mkFTok (Some cl) None [] [] [] 0 :: rest) ≡ₚ fl ∧ fl ++ q' = drop k (waiting txns cl')
      ∧ (∀ x, x ∈ take k (waiting txns cl') → is_Some (place !! x.1)) ∧ (∀ x, x ∈ drop k (waiting txns cl') → place !! x.1 = None)).
  { intros Hf cl' q' Hne Hq'. destruct (Q2 Hf cl' q' Hq') as (fl & k & H1 & H2). exists fl, k. split; [|done].
    etrans; [|exact H1]. cbn. by rewrite !in_flight_other. }
  destruct (caller_queues g !! cl) as [q|] eqn:Hq.
  - split; cbn [caller_queues with_queue free_count].
    + intros cl' Hw. destruct (decide (cl = cl')) as [<-|Hne]; [rewrite lookup_insert_eq; by eexists|]. rewrite lookup_insert_ne by done. by apply Q0.
    + intros cl' q' Hq'. destruct (decide (cl = cl')) as [<-|Hne]; [|rewrite lookup_insert_ne in Hq' by done; by apply Q1].
      rewrite lookup_insert_eq in Hq'. injection Hq' as <-. constructor; [done|by apply Q1].
    + intros Hf cl' q' Hq'. destruct (decide (cl = cl')) as [<-|Hne]; [|rewrite lookup_insert_ne in Hq' by done; by apply Hother].
      rewrite lookup_insert_eq in Hq'. injection Hq' as <-. destruct (Q2 Hf cl _ Hq) as (fl & k & H1 & H2 & H3).
      exists [], k. cbn in *. rewrite in_flight_same in *. rewrite (alone_in_flight g _ _ cl Hcal eq_refl) in *.
      symmetry in H1. apply Permutation_singleton_r in H1. subst fl. split; [done|]. split; [exact H2|exact H3].
  - split; [done|done|]. intros Hf cl' q' Hq'. apply Hother; [done|congruence|done].
Qed.

(** A full batch: the transaction is dropped. *)
Lemma load_available_safe cl x :
  safe (load (λ g, bool_decide (0 < free_count g)%nat))
    (λ b t, t = mkFTok (Some cl) (if b then Some x else None) [] [] [] 0) (mkFTok (Some cl) (Some x) [] [] [] 0).
Proof.
  intros g rest (place & Hs & Hcal & HL & [Q0 Q1 Q2]). case_bool_decide as Hf.
  - eexists. split; [|done]. exists place. by split_and!.
  - exists (mkFTok (Some cl) None [] [] [] 0). split; [|done]. exists place.
    split_and!; [done|by eapply (callers_inv_head g)|by eapply (locks_inv_head place g)|]. by split.
Qed.

(** ** Locks on accounts *)

Lemma lock_accounts_safe cl x A :
  safe (lock_accounts A) (λ _ t, t = mkFTok (Some cl) (Some x) A [] [] 0) (mkFTok (Some cl) (Some x) [] [] [] 0).
Proof.
  intros g rest (place & Hs & Hcal & HL & HQ). case_bool_decide as Hfree; [|done].
  exists (mkFTok (Some cl) (Some x) A [] [] 0). split; [|done]. exists place.
  split_and!; [destruct Hs; by split|by eapply (callers_inv_head g)| |by eapply (queues_inv_head place g)].
  destruct HL as [L1 L2 L3]. split; cbn [account_being_accessed with_accessed last_position].
  - intros a. specialize (L1 a). rewrite Forall_forall in Hfree. rewrite count_cons in *. cbn [tk_locked] in *.
    rewrite decide_False in L1 by set_solver. destruct (decide (a ∈ A)) as [Ha|Ha].
    + rewrite bool_decide_true by set_solver. rewrite bool_decide_false in L1 by (by apply Hfree). lia.
    + rewrite L1. cbn. apply (f_equal (λ b : bool, if b then 1%nat else 0%nat)). apply bool_decide_ext. set_solver.
  - rewrite Forall_cons in *. destruct L2 as [_ L2]. split; [|done]. split; set_solver.
  - intros i t p a Hat Ha. destruct (L3 i t p a Hat Ha) as [?|Hex]; [by left|right]. by rewrite Exists_cons in *.
Qed.

Lemma unlock_accounts_safe cl o A K p :
  safe (unlock_accounts A) (λ _ t, t = mkFTok (Some cl) o [] [] [] 0) (mkFTok (Some cl) o A K [] p).
Proof.
  intros g rest (place & Hs & Hcal & HL & HQ). exists (mkFTok (Some cl) o [] [] [] 0). split; [|done]. exists place.
  split_and!; [destruct Hs; by split|by eapply (callers_inv_head g)| |by eapply (queues_inv_head place g)].
  destruct HL as [L1 L2 L3]. split; cbn [account_being_accessed with_accessed last_position].
  - intros a. specialize (L1 a). rewrite count_cons in *. cbn [tk_locked] in *. rewrite decide_False by set_solver.
    destruct (decide (a ∈ A)) as [Ha|Ha].
    + rewrite bool_decide_false by set_solver. case_bool_decide; lia.
    + cbn in *. rewrite L1. apply (f_equal (λ b : bool, if b then 1%nat else 0%nat)). apply bool_decide_ext. set_solver.
  - rewrite Forall_cons in *. destruct L2 as [_ L2]. split; [|done]. split; set_solver.
  - intros i t q a Hat Ha. destruct (L3 i t q a Hat Ha) as [?|Hex]; [by left|right]. by rewrite Exists_cons in *.
Qed.

(** Two threads do not hold a lock on the same account. *)
Lemma locked_once place g tok rest tok' a : locks_inv place g (tok :: rest) → a ∈ tk_locked tok → tok' ∈ rest → a ∉ tk_locked tok'.
Proof.
  intros [L1 _ _] Ha Hin Ha'. specialize (L1 a). rewrite count_cons, decide_True in L1 by done.
  assert (tok' ∈ filter (λ t, a ∈ tk_locked t) rest) as Hf by (by apply list_elem_of_filter).
  destruct (filter _ rest); [set_solver|]. cbn in L1. case_bool_decide; lia.
Qed.

(** ** The search *)

Definition search_ok (K : list (N * option nat)) (s : Position) : Prop :=
  (fair_never s = true → fair_found s = false ∧ ∀ a o, (a, o) ∈ K → o = None)
  ∧ (fair_found s = true → (fair_final s < c * 4)%nat ∧ ∀ a l, (a, Some l) ∈ K → (l + c ≤ fair_final s)%nat)
  ∧ (out_of_bound s = true → fair_never s = false ∧ fair_found s = false)
  ∧ (fair_found s = false → out_of_bound s = false → fair_final s = 0%nat ∧ ∀ a o, (a, o) ∈ K → o = None).

Lemma load_position_safe cl x A K a : a ∈ A →
  safe (load (λ g, last_position g !! a)) (λ o t, t = mkFTok (Some cl) (Some x) A ((a, o) :: K) [] 0) (mkFTok (Some cl) (Some x) A K [] 0).
Proof.
  intros Ha g rest (place & Hs & Hcal & HL & HQ).
  exists (mkFTok (Some cl) (Some x) A ((a, last_position g !! a) :: K) [] 0). split; [|done]. exists place.
  split_and!; [done|by eapply (callers_inv_head g)| |by eapply (queues_inv_head place g)].
  destruct HL as [L1 L2 L3]. split; [intros b; rewrite <- L1; by rewrite !count_cons| |].
  - rewrite Forall_cons in *. destruct L2 as [[H1 H2] L2]. split; [|done]. split; [|exact H2].
    intros b o [[= -> ->]|Hb]%elem_of_cons; [done|by apply H1].
  - intros i t p b Hat Hb. destruct (L3 i t p b Hat Hb) as [?|Hex]; [by left|right]. by rewrite Exists_cons in *.
Qed.

Lemma search_positions_safe cl x A A' : ∀ K s, (∀ a, a ∈ A' → a ∈ A) → search_ok K s →
  safe (search_positions c A' s)
    (λ s' t, ∃ K', t = mkFTok (Some cl) (Some x) A K' [] 0 ∧ search_ok K' s'
       ∧ (fair_never s' || fair_found s' = true → ∀ a, a ∈ A' ∨ a ∈ K.*1 → a ∈ K'.*1))
    (mkFTok (Some cl) (Some x) A K [] 0).
Proof.
  induction A' as [|a A' IH]; intros K s HA Hok; cbn [search_positions].
  { exists K. split_and!; [done|done|]. intros _ b [?%elem_of_nil|?]; done. }
  destruct (out_of_bound s) eqn:Hout.
  { exists K. split_and!; [done|done|]. destruct Hok as (_ & _ & Hok & _). destruct (Hok Hout) as [-> ->]. done. }
  apply safe_bind. eapply safe_mono; [|apply load_position_safe; apply HA; set_solver]. cbn beta. intros last tok ->.
  assert (Hgo : ∀ s', search_ok ((a, last) :: K) s' → safe (search_positions c A' s')
    (λ s' t, ∃ K', t = mkFTok (Some cl) (Some x) A K' [] 0 ∧ search_ok K' s'
       ∧ (fair_never s' || fair_found s' = true → ∀ b, b ∈ a :: A' ∨ b ∈ K.*1 → b ∈ K'.*1))
    (mkFTok (Some cl) (Some x) A ((a, last) :: K) [] 0)).
  { intros s' Hok'. eapply safe_mono; [|apply IH; [intros; apply HA; set_solver|exact Hok']]. cbn beta.
    intros s1 tok (K' & -> & Hok1 & Hall). exists K'. split_and!; [done|done|]. intros Hs1 b Hb. apply Hall; [done|set_solver]. }
  destruct Hok as (Hok1 & Hok2 & _ & Hok4). destruct last as [l|].
  - case_bool_decide as Hle.
    + destruct (fair_found s) eqn:Hfs; [|destruct (Hok4 eq_refl Hout); lia].
      apply Hgo. split_and!; cbn; [done| |done|done]. intros _. destruct (Hok2 eq_refl) as [H1 H2]. split; [done|].
      intros b l' [[= -> ->]|Hb]%elem_of_cons; [lia|by eapply H2].
    + apply safe_bind. eapply safe_mono; [|apply (safe_load _ _ (λ o, from_option (λ p, (p < c * 4)%nat ∧ (l + c ≤ p)%nat) True o))].
      * cbn beta. intros found tok [-> Hfound]. destruct found as [p|]; apply Hgo; split_and!; cbn; try done.
        intros _. destruct Hfound. split; [done|]. intros b l' [[= -> ->]|Hb]%elem_of_cons; [done|].
        destruct (fair_found s) eqn:Hfs; [destruct (Hok2 eq_refl) as [_ H2]; specialize (H2 _ _ Hb); lia|].
        destruct (Hok4 eq_refl Hout) as [_ H4]. by apply H4 in Hb.
      * intros g rest (place & Hs & _). destruct (free_from (l + c) (slots g)) as [p|] eqn:Hp; [|done].
        apply free_from_spec in Hp as [Hp ?]. apply lookup_lt_Some in Hp. rewrite (s_len _ _ Hs) in Hp. done.
  - apply Hgo. split_and!; [|intros Hf; split; [by apply Hok2|]| |].
    + intros Hn. split; [by apply Hok1|]. intros b o [[= -> ->]|Hb]%elem_of_cons; [done|by eapply Hok1].
    + intros b l' [[=]|Hb]%elem_of_cons. by eapply Hok2.
    + congruence.
    + intros Hf Ho. destruct (Hok4 Hf Ho) as [H1 H2]. split; [done|]. intros b o [[= -> ->]|Hb]%elem_of_cons; [done|by eapply H2].
Qed.

(** ** Placing a transaction *)

(** The sender is one of the accounts of a transaction. *)
Lemma sender_in_accs t : accs t ≠ [] → hint_caller t ∈ accs t.
Proof.
  unfold accs. destruct (decode t) as [[e|]| |] eqn:Hd; try done. intros _. rewrite <- (Hcaller _ _ Hd).
  unfold accessed_accounts. destruct (env_transact_to e); set_solver.
Qed.

(** What a thread knows of the accounts it has locked bounds the slots of the scheduled
    transactions on them. *)
Lemma known_bound place g cl x A K rest j u q a o : locks_inv place g (mkFTok (Some cl) x A K [] 0 :: rest) →
  (a, o) ∈ K → at_slot place j u q → a ∈ accs u → ∃ l, o = Some l ∧ (q ≤ l)%nat.
Proof.
  intros HL Ha Hat Hau. pose proof (l_tokens _ _ _ HL) as Ht. apply Forall_cons in Ht as [[Hk _] Hrest].
  destruct (Hk _ _ Ha) as [Hlock Hlast]. cbn in Hlock. destruct (l_last _ _ _ HL _ _ _ _ Hat Hau) as [(l & Hl & Hq)|Hex].
  - exists l. by rewrite <- Hlast.
  - exfalso. apply Exists_cons in Hex as [?%elem_of_nil|(tok & Hin & Hp)%Exists_exists]; [done|].
    rewrite Forall_forall in Hrest. destruct (Hrest tok) as [_ H2]; [done|].
    destruct (H2 a Hp) as [Hl _]. eapply (locked_once place g _ rest tok a HL); [done|done|done].
Qed.

(** The slot of the search is at least [c] after every transaction on one of the accounts. *)
Lemma target_bound place g cl x A K s rest t : locks_inv place g (mkFTok (Some cl) x A K [] 0 :: rest) →
  search_ok K s → fair_never s || fair_found s = true → A = accs t → (∀ a, a ∈ A → a ∈ K.*1) →
  ∀ p j u q a, (if fair_never s then True else p = fair_final s) → at_slot place j u q → a ∈ accs u → a ∈ accs t → (q + c ≤ p)%nat.
Proof.
  intros HL (Hs1 & Hs2 & _) Hs -> HK p j u q a Hp Hat Hau Hat'. apply HK in Hat'.
  apply list_elem_of_fmap in Hat' as ([b o] & -> & Ha). cbn in *.
  destruct (known_bound _ _ _ _ _ _ _ _ _ _ _ _ HL Ha Hat Hau) as (l & -> & Hl).
  destruct (fair_never s) eqn:Hn; [by apply Hs1 in Ha|]. cbn in Hs. destruct (Hs2 Hs) as [_ H2]. specialize (H2 _ _ Ha). lia.
Qed.

Section placing.
Context (place : gmap nat nat) (g : Fair) (p i : nat) (t : TransactionWithHint).
Context (Hs : slots_inv place g) (Hfree : slots g !! p = Some None) (Hpos : (0 < free_count g)%nat).
Context (Hti : txns !! i = Some t) (Hi : place !! i = None) (Haccs : accs t ≠ []).
Context (Hbound : ∀ j u q a, at_slot place j u q → a ∈ accs u → a ∈ accs t → (q + c ≤ p)%nat).
Context (Hprev : ∀ j u, txns !! j = Some u → hint_caller u = hint_caller t → (j < i)%nat → is_Some (place !! j)).

Local Notation place' := (<[i := p]> place).

(** A transaction scheduled now is the new one or an old one. *)
Lemma at_slot_new j u q : at_slot place' j u q → (j = i ∧ u = t ∧ q = p) ∨ (j ≠ i ∧ at_slot place j u q).
Proof.
  intros [Hj Hu]. destruct (decide (j = i)) as [->|Hne]; [rewrite lookup_insert_eq in Hj; left; by simplify_eq|].
  rewrite lookup_insert_ne in Hj by done. right. by split.
Qed.

Lemma at_slot_old j u q : at_slot place j u q → at_slot place' j u q.
Proof. intros [Hj Hu]. split; [|done]. rewrite lookup_insert_ne; [done|]. intros <-. congruence. Qed.

Lemma old_slot_ne j q : place !! j = Some q → q ≠ p.
Proof. intros Hj ->. destruct (s_slot _ _ Hs _ _ Hj) as (u & _ & Hu & _). congruence. Qed.

Lemma placed_slots_inv : slots_inv place' (with_slot g p i t).
Proof.
  pose proof (lookup_lt_Some _ _ _ Hfree) as Hlt. split; cbn [slots with_slot indices free_count].
  - intros j q Hj. destruct (decide (j = i)) as [->|Hne].
    + rewrite lookup_insert_eq in Hj. injection Hj as <-. exists t. by rewrite list_lookup_insert_eq by done.
    + rewrite lookup_insert_ne in Hj by done. destruct (s_slot _ _ Hs _ _ Hj) as (u & H1 & H2 & H3). exists u.
      split_and!; [done| |done]. rewrite list_lookup_insert_ne; [done|]. intros ->. congruence.
  - intros j k q Hj Hk. destruct (decide (j = i)) as [->|Hj'], (decide (k = i)) as [->|Hk'];
      rewrite ?lookup_insert_eq, ?lookup_insert_ne in * by done; [done|..|by eapply (s_inj _ _ Hs)];
      exfalso; [eapply (old_slot_ne k q)|eapply (old_slot_ne j q)]; congruence.
  - rewrite length_insert. apply Hs.
  - rewrite (s_free _ _ Hs), (free_slots_insert _ _ t Hfree). lia.
  - apply NoDup_app. split_and!; [apply Hs| |apply NoDup_singleton].
    intros j Hj ->%list_elem_of_singleton. apply (s_indices _ _ Hs) in Hj as [q Hq]. congruence.
  - intros j. rewrite elem_of_app, list_elem_of_singleton, (s_indices _ _ Hs). destruct (decide (j = i)) as [->|Hne].
    + rewrite lookup_insert_eq. split; [by eexists|by right].
    + rewrite lookup_insert_ne by done. naive_solver.
  - rewrite taken_insert, omap_app by done. cbn. rewrite Hti, (s_perm _ _ Hs). by rewrite Permutation_cons_append.
  - intros j k u v q r a [(-> & -> & ->)|[? Hj]]%at_slot_new [(-> & -> & ->)|[? Hk]]%at_slot_new Hu Hv Hne; [done|right|left|].
    + by eapply Hbound.
    + by eapply Hbound.
    + by eapply (s_dist _ _ Hs).
  - intros j k u v q Hj [(-> & -> & ->)|[? Hk]]%at_slot_new Hcl Hlt'.
    + destruct (Hprev j u Hj Hcl Hlt') as [r Hr]. exists r. assert (at_slot place j u r) as Hat by done.
      split; [by apply at_slot_old|]. destruct (s_slot _ _ Hs _ _ Hr) as (u' & Hu' & _ & Hne). assert (u' = u) as -> by congruence.
      eapply (Hbound j u r (hint_caller t)); [done| |by apply sender_in_accs]. rewrite <- Hcl. by apply sender_in_accs.
    + destruct (s_order _ _ Hs _ _ _ _ _ Hj Hk Hcl Hlt') as (r & Hr & Hle). exists r. split; [by apply at_slot_old|done].
Qed.

Lemma placed_locks_inv cl K rest :
  locks_inv place g (mkFTok (Some cl) (Some (i, t)) (accs t) K [] 0 :: rest) →
  locks_inv place' (with_slot g p i t) (mkFTok (Some cl) None (accs t) [] (accs t) p :: rest).
Proof.
  intros HL. pose proof HL as [L1 L2 L3]. split; cbn [account_being_accessed with_slot last_position].
  - intros a. rewrite <- L1. by rewrite !count_cons.
  - rewrite Forall_cons in *. destruct L2 as [_ L2]. split.
    + split; [intros a o Ha; by apply elem_of_nil in Ha|]. cbn. intros a Ha. split; [done|].
      intros j u q [(-> & -> & ->)|[? Hj]]%at_slot_new Hu; [done|]. pose proof (Hbound _ _ _ _ Hj Hu Ha). lia.
    + rewrite Forall_forall in *. intros tok Htok. destruct (L2 tok Htok) as [H1 H2]. split; [exact H1|].
      intros a Ha. destruct (H2 a Ha) as [Hl Hle]. split; [done|].
      intros j u q [(-> & -> & ->)|[? Hj]]%at_slot_new Hu; [|by eapply Hle].
      exfalso. by eapply (locked_once place g _ rest tok a HL).
  - intros j u q a [(-> & -> & ->)|[? Hj]]%at_slot_new Hu; [right; by constructor|].
    destruct (L3 _ _ _ _ Hj Hu) as [?|Hex]; [by left|right]. rewrite Exists_cons in *.
    destruct Hex as [?%elem_of_nil|?]; [done|by right].
Qed.

Lemma placed_queues_inv cl K rest : hint_caller t = cl → callers_inv g (mkFTok (Some cl) (Some (i, t)) (accs t) K [] 0 :: rest) →
  queues_inv place g (mkFTok (Some cl) (Some (i, t)) (accs t) K [] 0 :: rest) →
  queues_inv place' (with_slot g p i t) (mkFTok (Some cl) None (accs t) [] (accs t) p :: rest).
Proof.
  intros Hcl Hcal [Q0 Q1 Q2]. split; cbn [caller_queues with_slot free_count]; [done|done|]. intros Hf cl' q Hq.
  destruct (Q2 Hpos cl' q Hq) as (fl & k & H1 & H2 & H3 & H4). destruct (decide (cl = cl')) as [<-|Hne].
  - cbn in H1. rewrite in_flight_same, (alone_in_flight g _ _ cl Hcal eq_refl) in H1. symmetry in H1.
    apply Permutation_singleton_r in H1. subst fl. cbn in H2. symmetry in H2. exists [], (S k).
    assert (waiting txns cl = take k (waiting txns cl) ++ (i, t) :: q) as Heq by (rewrite <- H2; by rewrite take_drop).
    assert (Hdrop : drop (S k) (waiting txns cl) = q) by (by rewrite <- Nat.add_1_r, <- drop_drop, H2).
    assert (Hk : waiting txns cl !! k = Some (i, t)).
    { rewrite <- (Nat.add_0_r k), <- lookup_drop, H2. done. }
    split_and!.
    + cbn. rewrite in_flight_same. by rewrite (alone_in_flight g _ _ cl Hcal eq_refl).
    + by rewrite Hdrop.
    + intros y. rewrite (take_S_r _ _ _ Hk), elem_of_app, list_elem_of_singleton. intros [Hy| ->]; [|rewrite lookup_insert_eq; by eexists].
      destruct (H3 y Hy) as [r Hr]. rewrite lookup_insert_ne; [by eexists|congruence].
    + intros y. rewrite Hdrop. intros Hy. pose proof (waiting_sorted _ _ _ _ _ y Heq Hy) as Hlt. cbn in Hlt.
      rewrite lookup_insert_ne by lia. apply H4. rewrite H2. by right.
  - exists fl, k. split_and!; [|done| |].
    + etrans; [|exact H1]. cbn. by rewrite !in_flight_other.
    + intros y Hy. destruct (H3 y Hy) as [r Hr]. rewrite lookup_insert_ne; [by eexists|congruence].
    + intros [j u] Hy. cbn. rewrite lookup_insert_ne; [by apply (H4 (j, u))|]. intros <-.
      assert ((i, u) ∈ waiting txns cl') as [Hu Hcu]%elem_of_waiting by (eapply elem_of_drop_sub, Hy). congruence.
Qed.
End placing.

Lemma place_section_safe cl i t K s : (i, t) ∈ waiting txns cl → accs t ≠ [] → search_ok K s → fair_never s || fair_found s = true →
  (∀ a, a ∈ accs t → a ∈ K.*1) →
  safe (act (place_section i t s))
    (λ o tok, match o with
              | None => tok = mkFTok (Some cl) (Some (i, t)) (accs t) K [] 0
              | Some p => tok = mkFTok (Some cl) None (accs t) [] (accs t) p
              end) (mkFTok (Some cl) (Some (i, t)) (accs t) K [] 0).
Proof.
  intros Hw Hne Hok Hgo HK g rest (place & Hs & Hcal & HL & HQ). unfold place_section.
  set (target := if fair_never s then _ else _).
  assert (Htarget : ∀ p, target = Some p → (p < length (slots g))%nat ∧ if fair_never s then True else p = fair_final s).
  { intros p Hp. subst target. destruct (fair_never s) eqn:Hn.
    - apply free_from_spec in Hp as [Hp _]. split; [by eapply lookup_lt_Some|done].
    - cbn in Hgo. rewrite Hgo in Hp. injection Hp as <-. split; [|done]. rewrite (s_len _ _ Hs). by apply Hok. }
  destruct target as [p|]; [|eexists; split; [by exists place|done]].
  destruct (Htarget p eq_refl) as [Hlt Hfinal]. destruct (slots g !! p) as [[u|]|] eqn:Hp.
  - eexists. split; [by exists place|done].
  - case_bool_decide as Hf; [|eexists; split; [by exists place|done]].
    apply elem_of_waiting in Hw as Hw'. destruct Hw' as [Hti Hcl].
    pose proof (target_bound _ _ _ _ _ _ _ _ t HL Hok Hgo eq_refl HK p) as Hbound.
    destruct HQ as [Q0 Q1 Q2] eqn:HQeq. destruct (Q0 cl) as [q Hq]; [by intros Hn; rewrite Hn in Hw; apply elem_of_nil in Hw|].
    destruct (Q2 Hf cl q Hq) as (fl & k & H1 & H2 & H3 & H4).
    cbn in H1. rewrite in_flight_same, (alone_in_flight g _ _ cl Hcal eq_refl) in H1. symmetry in H1.
    apply Permutation_singleton_r in H1. subst fl. cbn in H2.
    assert (Hi : place !! i = None) by (apply (H4 (i, t)); rewrite <- H2; by left).
    assert (Hprev : ∀ j u, txns !! j = Some u → hint_caller u = hint_caller t → (j < i)%nat → is_Some (place !! j)).
    { intros j u Hj Hju Hji. assert (Hin : (j, u) ∈ waiting txns cl) by (apply elem_of_waiting; split; [done|congruence]).
      pose proof Hin as Hin'. rewrite <- (take_drop k (waiting txns cl)), <- H2, elem_of_app in Hin'.
      destruct Hin' as [Hin'|[[= -> ->]|Hin']%elem_of_cons]; [by apply (H3 (j, u))|lia|].
      assert (waiting txns cl = take k (waiting txns cl) ++ (i, t) :: q) as Heq by (by rewrite H2, take_drop).
      pose proof (waiting_sorted _ _ _ _ _ (j, u) Heq Hin'). cbn in *. lia. }
    eexists. split; [|reflexivity]. exists (<[i := p]> place). split_and!.
    + apply placed_slots_inv; auto. intros j u q' a Hat Hu Ht. by eapply (Hbound j u q' a).
    + by eapply (callers_inv_head g).
    + eapply placed_locks_inv; eauto.
    + eapply placed_queues_inv; eauto.
  - apply lookup_ge_None in Hp. lia.
Qed.

(** Writing the last position of an account that is still pending. *)
Lemma insert_position_safe cl A a P p :
  safe (modify (λ g, with_position g a p)) (λ _ t, t = mkFTok (Some cl) None A [] P p) (mkFTok (Some cl) None A [] (a :: P) p).
Proof.
  intros g rest (place & Hs & Hcal & HL & HQ). exists (mkFTok (Some cl) None A [] P p). split; [|done]. exists place.
  split_and!; [destruct Hs; by split|by eapply (callers_inv_head g)| |eapply (queues_inv_head place g); [done| |done|done]; intros ?; by rewrite !in_flight_none].
  pose proof HL as [L1 L2 L3]. apply Forall_cons in L2 as [[_ Hpend] L2]. cbn in Hpend.
  destruct (Hpend a) as [Ha Hap]; [by left|]. split; cbn [account_being_accessed with_position last_position].
  - intros b. rewrite <- L1. by rewrite !count_cons.
  - constructor.
    + split; [intros b o Hb; by apply elem_of_nil in Hb|]. cbn. intros b Hb. apply Hpend. by right.
    + rewrite Forall_forall in *. intros tok Htok. destruct (L2 tok Htok) as [H1 H2]. split; [|exact H2].
      intros b o Hb. destruct (H1 b o Hb) as [Hl Ho]. split; [done|]. cbn. rewrite lookup_insert_ne; [done|].
      intros <-. by eapply (locked_once place g _ rest tok a HL).
  - intros j u q b Hat Hu. destruct (decide (a = b)) as [<-|Hne].
    + left. exists p. rewrite lookup_insert_eq. split; [done|by eapply Hap].
    + rewrite lookup_insert_ne by done. destruct (L3 _ _ _ _ Hat Hu) as [?|Hex]; [by left|right].
      rewrite Exists_cons in *. destruct Hex as [Hex|?]; [left|by right]. cbn in *. set_solver.
Qed.

Lemma insert_positions_safe cl A P p :
  safe (insert_positions P p) (λ _ t, t = mkFTok (Some cl) None A [] [] p) (mkFTok (Some cl) None A [] P p).
Proof.
  induction P as [|a P IH]; [done|]. cbn [insert_positions]. apply safe_bind.
  eapply safe_mono; [|apply insert_position_safe]. cbn beta. intros _ tok ->. exact IH.
Qed.

Lemma process_transaction_safe cl i t : (i, t) ∈ waiting txns cl →
  safe (process_transaction_sequential decode c i t)
    (λ b tok, tok = mkFTok (Some cl) (if b then None else Some (i, t)) [] [] [] 0) (mkFTok (Some cl) (Some (i, t)) [] [] [] 0).
Proof.
  intros Hw. apply elem_of_waiting in Hw as Hw'. destruct Hw' as [Hti Hcl].
  pose proof Hdecode as Hd. rewrite Forall_lookup in Hd. destruct (Hd i t Hti) as [o Ho]. unfold process_transaction_sequential. rewrite Ho.
  destruct o as [e|]; [|done]. assert (Haccs : accessed_accounts e = accs t) by (unfold accs; by rewrite Ho). rewrite Haccs.
  apply safe_bind. eapply safe_mono; [|apply lock_accounts_safe]. cbn beta. intros _ tok ->.
  apply safe_bind. eapply safe_mono; [|apply (search_positions_safe cl (i, t) (accs t) (accs t) []); [done|]].
  2:{ split_and!; cbn; try done; [intros _; split; [done|]|intros _ _; split; [done|]]; intros a o Ha; by apply elem_of_nil in Ha. }
  cbn beta. intros s tok (K & -> & Hok & HK).
  apply safe_bind. eapply safe_mono with (Q := λ o tok, match o with
    | None => tok = mkFTok (Some cl) (Some (i, t)) (accs t) K [] 0
    | Some p => tok = mkFTok (Some cl) None (accs t) [] (accs t) p end).
  2:{ destruct (fair_never s || fair_found s) eqn:Hgo; [|done]. apply place_section_safe; [done| |done|done|].
      - rewrite <- Haccs. unfold accessed_accounts. by destruct (env_transact_to e).
      - intros a Ha. apply HK; [done|by left]. }
  cbn beta. intros [p|] tok ->; apply safe_bind.
  - eapply safe_mono; [|apply insert_positions_safe]. cbn beta. intros _ tok ->.
    apply safe_bind. eapply safe_mono; [|apply unlock_accounts_safe]. cbn beta. by intros _ tok ->.
  - cbn beta. apply safe_bind. eapply safe_mono; [|apply unlock_accounts_safe]. cbn beta. by intros _ tok ->.
Qed.

Lemma process_caller_safe cl :
  safe (process_caller decode c cl) (λ _ t, t = mkFTok (Some cl) None [] [] [] 0) (mkFTok (Some cl) None [] [] [] 0).
Proof.
  unfold process_caller. apply safe_bind. eapply safe_mono; [|apply pop_front_safe]. cbn beta.
  intros [[i t]|] tok [-> Hw]; [|done]. cbn in Hw. apply safe_bind. eapply safe_mono; [|apply load_available_safe]. cbn beta.
  intros available tok ->. apply safe_bind. apply safe_mono with (Q := λ _ t, t = mkFTok (Some cl) None [] [] [] 0).
  - intros found tok ->. destruct found; [|done].
    apply safe_bind. eapply safe_mono; [|apply (safe_load _ _ (λ _, True)); done]. cbn beta. intros empty tok [-> _].
    destruct empty; [done|]. apply safe_bind. eapply safe_mono; [|apply (safe_load _ _ (λ _, True)); done]. cbn beta.
    intros more tok [-> _]. destruct more; [apply push_caller_safe|done].
  - destruct available; [|done]. apply safe_bind. eapply safe_mono; [|by apply process_transaction_safe]. cbn beta.
    intros found tok ->. apply safe_bind. destruct found; [done|].
    eapply safe_mono; [|by apply push_front_safe]. cbn beta. by intros _ tok ->.
Qed.

Lemma fair_step_safe : safe (fair_step decode c) (λ _ t, t = resting) resting.
Proof.
  unfold fair_step. apply safe_bind. eapply safe_mono; [|apply steal_safe]. cbn beta. intros [cl|] tok ->; [|done].
  apply safe_bind. eapply safe_mono; [|apply acquire_caller_safe]. cbn beta. intros acquired tok ->. apply safe_bind.
  destruct acquired.
  - apply safe_bind. eapply safe_mono; [|apply process_caller_safe]. cbn beta. intros _ tok ->.
    eapply safe_mono; [|apply release_caller_safe]. cbn beta. by intros _ tok ->.
  - eapply safe_mono; [|apply push_caller_safe]. cbn beta. by intros _ tok ->.
Qed.

(** ** All threads *)

Lemma populate_some cl : waiting txns cl ≠ [] → is_Some (populate txns !! cl).
Proof.
  intros Hw. destruct (waiting txns cl) as [|x l] eqn:Heq; [done|].
  assert (x ∈ imap pair txns) as Hx by (assert (x ∈ waiting txns cl) as [_ ?]%list_elem_of_filter by (rewrite Heq; by left); done).
  assert (hint_caller x.2 = cl) as Hcl by (assert (x ∈ waiting txns cl) as [? _]%list_elem_of_filter by (rewrite Heq; by left); done).
  unfold populate. assert (Hgen : ∀ l m, x ∈ l ∨ is_Some (m !! cl) → is_Some (fold_left enqueue l m !! cl)).
  { clear -Hcl. induction l as [|y l IH]; intros m; cbn [fold_left]; [by intros [?%elem_of_nil|?]|].
    intros Hor. apply IH. destruct Hor as [[<-|Hx]%elem_of_cons|Hm]; [right|by left|right]; unfold enqueue.
    - rewrite Hcl, lookup_insert_eq. by eexists.
    - destruct (decide (hint_caller y.2 = cl)) as [->|Hne]; [rewrite lookup_insert_eq; by eexists|by rewrite lookup_insert_ne]. }
  apply Hgen. by left.
Qed.

Lemma fair_initial_inv senders n : FInv (fair_initial c senders txns) (replicate n resting).
Proof.
  assert (Hcount : ∀ P `{!∀ x : ftoken, Decision (P x)}, ¬ P resting → length (filter P (replicate n resting)) = 0%nat).
  { intros P HP Hn. induction n as [|n IH]; [done|]. cbn [replicate]. rewrite count_cons, decide_False by done. exact IH. }
  exists ∅. split_and!.
  - pose proof (batch_new_inv c txns) as [B1 B2 _ _ _ _ _ B3 _]. cbn in *. split; cbn; try done.
    + apply NoDup_nil_2.
    + intros i. rewrite lookup_empty. split; [intros Hi; by apply elem_of_nil in Hi|by intros [? ?]].
    + by intros i j t u p q a [Hi _].
    + by intros i j t u q _ [Hi _].
  - intros cl. rewrite Hcount by done. by rewrite bool_decide_false by set_solver.
  - split.
    + intros a. rewrite Hcount by (cbn; set_solver). by rewrite bool_decide_false by set_solver.
    + apply Forall_replicate. split; cbn; set_solver.
    + by intros i t p a [Hi _].
  - split; cbn [caller_queues fair_initial].
    + apply populate_some.
    + intros cl q ->%waiting_populate. by apply Forall_forall.
    + intros _ cl q ->%waiting_populate. exists [], 0%nat. split_and!; [|done| |done].
      * assert (omap (in_flight cl) (replicate n resting) = []) as ->; [|done]. clear. by induction n.
      * intros x Hx. by apply elem_of_nil in Hx.
Qed.

Lemma fair_reachable_inv senders n g ths :
  reachable (fair_next decode c) (fair_initial c senders txns) (fair_spawn decode c n) (g, ths) →
  (∃ place, slots_inv place g) ∧ ¬ crashes (g, ths).
Proof.
  intros Hr.
  destruct (threads_safe (fair_next decode c) False FInv FInv_perm (λ _ t, t = resting) (λ _, True)) with
    (fair_initial c senders txns) (fair_spawn decode c n) (replicate n resting) g ths as (toks & Hinv & Hall); [| | |done|].
  - intros [|] tok ->; [exact fair_step_safe|done].
  - apply fair_initial_inv.
  - apply Forall2_replicate. exact fair_step_safe.
  - destruct Hinv as (place & Hs & Hrest). split; [by exists place|].
    intros Hcrash. eapply (safe_no_crash False FInv FInv_perm (λ _ t, t = resting) (λ _, True)); [|exact Hall|exact Hcrash].
    by exists place.
Qed.
End fair_correct.

(** ** The sender of a decoded transaction *)

Lemma eip1559_caller tx a e : eip1559_transaction_2_tx_env tx a = Ok e → env_caller e = a.
Proof.
  unfold eip1559_transaction_2_tx_env. destruct (as_u64 _), (map_u64 (req_nonce tx)), (map_u64 (req_gas tx)), (to_tx_kind _); cbn; try done.
  by intros [= <-].
Qed.

Lemma legacy_caller tx a e : legacy_transaction_2_tx_env tx a = Ok e → env_caller e = a.
Proof.
  unfold legacy_transaction_2_tx_env. destruct (map_u64 (legacy_gas tx)), (to_tx_kind _), (map_u64 (legacy_nonce tx)); cbn; try done.
  by intros [= <-].
Qed.

(** [decode_one_hex] takes the sender it is given. *)
Lemma decode_hint_caller rlp_decode rlp_encode hex_decode recover t e :
  decode_hint rlp_decode rlp_encode hex_decode recover t = Ok (Some e) → env_caller e = hint_caller t.
Proof.
  unfold decode_hint, decode_one_hex, decode_hex_with_known_addr, decode_hex_as.
  destruct (expect (hex_decode _)) as [[|b inner]| |]; cbn; try done.
  destruct (strip_signature _ _ _) as [ns| |]; cbn; try done. repeat case_bool_decide; cbn; try done.
  - destruct (decode_eip1559 _ _ _ _) as [r| |]; cbn; try done.
    destruct (eip1559_transaction_2_tx_env _ _) as [e'| |] eqn:He; cbn; try done. intros [= <-]. by apply eip1559_caller in He.
  - destruct (decode_legacy _ _ _ _) as [r| |]; cbn; try done.
    destruct (legacy_transaction_2_tx_env _ _) as [e'| |] eqn:He; cbn; try done. intros [= <-]. by apply legacy_caller in He.
Qed.

(** ** The result *)

Lemma sorted_ascending l : StronglySorted Nat.le l → NoDup l → ascending l.
Proof.
  induction 1 as [|a l Hs IH Ha]; intros Hnd i j x y Hi Hj Hij; [done|]. apply NoDup_cons in Hnd as [Hna Hnd].
  destruct i as [|i], j as [|j]; try lia.
  - injection Hi as <-. change (l !! j = Some y) in Hj. rewrite Forall_lookup in Ha. specialize (Ha j y Hj).
    assert (a ≠ y) by (intros ->; apply Hna; by eapply list_elem_of_lookup_2). lia.
  - apply (IH Hnd i j); [done|done|lia].
Qed.

Lemma fair_result_spec decode c txns place g : slots_inv decode c txns place g →
  ∃ batch rest, fair_result txns g = (Some <$> batch, rest) ∧ batch ++ rest ≡ₚ txns ∧ rest `sublist_of` txns ∧ (length batch ≤ c * 4)%nat.
Proof.
  intros Hs. exists (omap id (slots g)), (fold_left remove_at (descending (indices g)) txns).
  pose proof (merge_sort_Permutation Nat.le (indices g)) as Hp.
  destruct (removed_permutation (merge_sort Nat.le (indices g)) txns) as [Hperm Hsub].
  - apply sorted_ascending; [apply StronglySorted_merge_sort; [intros ? ? ?; apply Nat.le_trans|intros ? ?; apply Nat.le_ge_cases]|].
    rewrite Hp. apply Hs.
  - rewrite Hp. apply Forall_forall. intros i Hi. apply (s_indices _ _ _ _ _ Hs) in Hi as [p Hi].
    destruct (s_slot _ _ _ _ _ Hs _ _ Hi) as (t & Ht & _). by eapply lookup_lt_Some.
  - split_and!; [|by rewrite (s_perm _ _ _ _ _ Hs), <- Hp at 1|done|].
    + unfold fair_result. by rewrite filter_taken.
    + rewrite <- (s_len _ _ _ _ _ Hs). apply length_omap_le.
Qed.


(** ** A run *)

Ltac thread_step t := eapply rtc_l;
  [first [eapply (step_act _ t); [reflexivity|vm_compute; reflexivity]
         |eapply (step_demon _ t _ _ _ _ false); reflexivity
         |eapply (step_next _ t); reflexivity]|]; cbn [insert list_insert].

(** One thread of two schedules both transactions of account 1. *)
Lemma fair_run : ∃ g ths,
  reachable (fair_next sample_decode 1) (fair_initial 1 [1] [creation 1 []; creation 1 []]) (fair_spawn sample_decode 1 2) (g, ths)
  ∧ indices g = [0; 1]%nat.
Proof.
  eexists _, _. split; [|].
  { unfold reachable, fair_spawn. cbn [replicate]. do 24 thread_step 0%nat. apply rtc_refl. }
  reflexivity.
Qed.

