(* ===== verification/Finalization.v ===== *)
(** * Finalization interpreter

    Models src/mysticeti/crates/mysticeti-core/src/finalization_interpreter.rs: from the blocks of a
    store it computes which blocks certify a transaction and which transactions are
    finalized. The state has a stake aggregator per block and transaction, for the authorities
    whose votes the block has in its history, and one per transaction for the authors of
    certifying blocks.

    The block store is the reader [get_block]. The recursion over the parents has fuel;
    parents have smaller rounds, so a round plus one is enough. Iterating over a hash map takes
    its entries in some order ([order]). *)

From S2P Require Import Prelude Types Committee.

(** ** State *)

Notation Aggregators := (gmap TransactionLocator (StakeAggregator QuorumThreshold)).

Record FinalizationInterpreter := mkInterpreter {
  transaction_aggregator : gmap BlockReference Aggregators;
  certificate_aggregator : Aggregators;
  transaction_certificates : gmap TransactionLocator (gset BlockReference);
  finalized_transactions : gset TransactionLocator }.

Definition FinalizationInterpreter_new : FinalizationInterpreter := mkInterpreter ∅ ∅ ∅ ∅.

Definition with_aggregators (self : FinalizationInterpreter) (r : BlockReference) (m : Aggregators) : FinalizationInterpreter :=
  mkInterpreter (<[r := m]> (transaction_aggregator self)) (certificate_aggregator self) (transaction_certificates self)
    (finalized_transactions self).

Section interpreter.
Context (c : Committee) (get_block : BlockReference → option StatementBlock).
Context (order : Aggregators → list (TransactionLocator * StakeAggregator QuorumThreshold)).

(** ** Votes *)

(** A block that has seen a quorum of votes certifies the transaction. *)
Definition certify (self : FinalizationInterpreter) (block : StatementBlock) (transaction : TransactionLocator)
    : outcome FinalizationInterpreter :=
  let certificates := {[reference block]} ∪ default ∅ (transaction_certificates self !! transaction) in
  '(aggregator, reached) ← StakeAggregator_add (default StakeAggregator_new (certificate_aggregator self !! transaction)) (author block) c;
  Ok (mkInterpreter (transaction_aggregator self) (<[transaction := aggregator]> (certificate_aggregator self))
        (<[transaction := certificates]> (transaction_certificates self))
        (if reached : bool then {[transaction]} ∪ finalized_transactions self else finalized_transactions self)).

Definition vote (block : StatementBlock) (self : FinalizationInterpreter) (v : TransactionLocator * AuthorityIndex)
    : outcome FinalizationInterpreter :=
  let '(transaction, tx_voter) := v in
  m ← expect (transaction_aggregator self !! reference block);
  '(aggregator, reached) ← StakeAggregator_add (default StakeAggregator_new (m !! transaction)) tx_voter c;
  let self := with_aggregators self (reference block) (<[transaction := aggregator]> m) in
  if (reached : bool) && negb (epoch_changed block) then certify self block transaction else Ok self.

(** The transactions a statement votes for; [offset] is its position in the block. *)
Definition voted (block : StatementBlock) (offset : nat) (statement : BaseStatement) : list TransactionLocator :=
  match statement with
  | VoteStmt locator Accept => [locator]
  | VoteStmt _ (Reject _) => []
  | VoteRange range => TransactionLocatorRange_locators range
  | Share _ => [mkLocator (reference block) (N.of_nat offset)]
  end.
Definition own_votes (block : StatementBlock) : list (TransactionLocator * AuthorityIndex) :=
  (λ l, (l, author block)) <$> concat (imap (voted block) (statements block)).

(** The votes a parent has seen. *)
Definition parent_votes (m : Aggregators) : list (TransactionLocator * AuthorityIndex) :=
  order m ≫= λ '(tx, aggregator), (λ voter, (tx, voter)) <$> StakeAggregator_voters aggregator.

(** ** Blocks *)

(** Taking over the votes of a parent; its aggregators are moved out and put back. *)
Definition inherit (block : StatementBlock) (self : FinalizationInterpreter) (parent : BlockReference) : outcome FinalizationInterpreter :=
  parent_aggregator ← expect (transaction_aggregator self !! parent);
  self ← foldM (vote block) (with_aggregators self parent ∅) (parent_votes parent_aggregator);
  Ok (with_aggregators self parent parent_aggregator).

Fixpoint finalized_tx_certifying_block (fuel : nat) (self : FinalizationInterpreter) (block : StatementBlock) : outcome FinalizationInterpreter :=
  match fuel with
  | O => OutOfFuel
  | S fuel =>
      if bool_decide (is_Some (transaction_aggregator self !! reference block)) then Ok self
      else
        self ← foldM (vote block) (with_aggregators self (reference block) ∅) (own_votes block);
        foldM (λ self parent,
                 parent_block ← expect (get_block parent);
                 self ← finalized_tx_certifying_block fuel self parent_block;
                 inherit block self parent)
          self (includes block)
  end.

(** The fuel that is enough for a block. *)
Definition block_fuel (block : StatementBlock) : nat := S (N.to_nat (block_round block)).

(** [blocks] are the blocks of the store, round by round. *)
Definition finalized_tx_certifying_blocks (self : FinalizationInterpreter) (blocks : list StatementBlock)
    : outcome (FinalizationInterpreter * list (TransactionLocator * gset BlockReference)) :=
  self ← foldM (λ self block, finalized_tx_certifying_block (block_fuel block) self block) self blocks;
  Ok (self, filter (λ p, p.1 ∈ finalized_transactions self) (map_to_list (transaction_certificates self))).

(** ** What is computed *)

(** [supports r tx a]: the history of block [r] has a vote of [a] for [tx]. *)
Inductive supports : BlockReference → TransactionLocator → AuthorityIndex → Prop :=
| supports_own r b tx a : get_block r = Some b → (tx, a) ∈ own_votes b → supports r tx a
| supports_parent r b p tx a : get_block r = Some b → p ∈ includes b → supports p tx a → supports r tx a.

(** The store: blocks under their references, by known authors, on blocks of lower rounds
    that are in the store. *)
Record store_ok : Prop := {
  st_reference : ∀ r b, get_block r = Some b → reference b = r;
  st_author : ∀ r b, get_block r = Some b → author b < committee_len c;
  st_parent : ∀ r b p, get_block r = Some b → p ∈ includes b → is_Some (get_block p) ∧ br_round p < br_round r }.

(** ** Invariant

    [W r tx] are the votes for [tx] counted for block [r] so far; the aggregators of
    [hidden] are moved out. *)

Context (Hwf : wf_committee c) (Hstore : store_ok) (Horder : ∀ m, order m ≡ₚ map_to_list m).

Local Notation votes := (BlockReference → TransactionLocator → gset AuthorityIndex).

Definition quorum (X : gset AuthorityIndex) : bool := is_quorum c (set_stake c X).
(** The epoch marker of the block [r]. *)
Definition marked (r : BlockReference) : bool := match get_block r with Some b => epoch_changed b | None => true end.
Definition certificates (self : FinalizationInterpreter) (tx : TransactionLocator) : gset BlockReference :=
  default ∅ (transaction_certificates self !! tx).
Definition certifiers (self : FinalizationInterpreter) (tx : TransactionLocator) : gset AuthorityIndex :=
  set_map br_authority (certificates self tx).

Record fi_inv (self : FinalizationInterpreter) (W : votes) (hidden : option BlockReference) : Prop := {
  fi_agg : ∀ r m, transaction_aggregator self !! r = Some m → Some r ≠ hidden → ∀ tx, agg_inv c (default StakeAggregator_new (m !! tx)) (W r tx);
  fi_absent : ∀ r tx, transaction_aggregator self !! r = None → W r tx = ∅;
  fi_certs : ∀ tx r, r ∈ certificates self tx ↔ quorum (W r tx) = true ∧ marked r = false;
  fi_cert_agg : ∀ tx, agg_inv c (default StakeAggregator_new (certificate_aggregator self !! tx)) (certifiers self tx);
  fi_final : ∀ tx, tx ∈ finalized_transactions self ↔ quorum (certifiers self tx) = true }.

(** One more vote. *)
Definition add_vote (W : votes) (r : BlockReference) (tx : TransactionLocator) (a : AuthorityIndex) : votes :=
  λ r' tx', if bool_decide (r' = r ∧ tx' = tx) then {[a]} ∪ W r tx else W r' tx'.

Lemma quorum_add X Y : quorum X = true → X ⊆ Y → quorum Y = true.
Proof. intros HX HXY. eapply quorum_mono; [exact HX|]. by apply set_stake_subseteq. Qed.

Lemma certify_spec self W h block tx :
  get_block (reference block) = Some block → marked (reference block) = false → quorum (W (reference block) tx) = true →
  (∀ r m, transaction_aggregator self !! r = Some m → Some r ≠ h → ∀ tx, agg_inv c (default StakeAggregator_new (m !! tx)) (W r tx)) →
  (∀ r tx, transaction_aggregator self !! r = None → W r tx = ∅) →
  (∀ tx' r, (tx', r) ≠ (tx, reference block) → r ∈ certificates self tx' ↔ quorum (W r tx') = true ∧ marked r = false) →
  (∀ tx, agg_inv c (default StakeAggregator_new (certificate_aggregator self !! tx)) (certifiers self tx)) →
  (∀ tx, tx ∈ finalized_transactions self ↔ quorum (certifiers self tx) = true) →
  ∃ self', certify self block tx = Ok self' ∧ fi_inv self' W h ∧ transaction_aggregator self' = transaction_aggregator self.
Proof.
  intros Hb Hm Hq Hagg Habs Hcerts Hca Hfin. unfold certify.
  destruct (StakeAggregator_add_spec c _ _ (author block) Hwf (Hca tx)) as (a & -> & Ha); [by eapply st_author|].
  cbn [mbind outcome_bind]. eexists. split; [done|]. split; [|done].
  set (self' := mkInterpreter _ _ _ _).
  assert (Hc_ne : ∀ tx', tx' ≠ tx → certificates self' tx' = certificates self tx').
  { intros tx' Hne. unfold certificates. cbn. by rewrite lookup_insert_ne. }
  assert (Hc_eq : certificates self' tx = {[reference block]} ∪ certificates self tx).
  { unfold certificates. cbn. by rewrite lookup_insert_eq. }
  assert (Hr_eq : certifiers self' tx = {[author block]} ∪ certifiers self tx).
  { unfold certifiers. rewrite Hc_eq. unfold author. set_solver. }
  split; [exact Hagg|exact Habs| | |].
  - intros tx' r. destruct (decide (tx' = tx)) as [->|Hne]; [|rewrite Hc_ne by done; apply Hcerts; congruence].
    rewrite Hc_eq. destruct (decide (r = reference block)) as [->|Hr]; [set_solver|].
    rewrite <- Hcerts by congruence. set_solver.
  - intros tx'. cbn [certificate_aggregator self']. destruct (decide (tx' = tx)) as [->|Hne].
    + rewrite lookup_insert_eq, Hr_eq. exact Ha.
    + rewrite lookup_insert_ne by done. unfold certifiers. rewrite Hc_ne by done. apply Hca.
  - intros tx'. cbn [finalized_transactions self']. destruct (decide (tx' = tx)) as [->|Hne].
    + rewrite Hr_eq. fold (quorum ({[author block]} ∪ certifiers self tx)). unfold is_threshold, quorum_is_threshold.
      change (is_quorum c _) with (quorum ({[author block]} ∪ certifiers self tx)).
      destruct (quorum ({[author block]} ∪ certifiers self tx)) eqn:Hqa; [set_solver|]. rewrite Hfin. split; [|done].
      intros Hold. rewrite (quorum_add _ _ Hold) in Hqa; [done|set_solver].
    + unfold certifiers. rewrite Hc_ne by done. fold (certifiers self tx'). rewrite <- Hfin. destruct (is_threshold _ _); set_solver.
Qed.

Lemma vote_spec self W h block tx a : fi_inv self W h → get_block (reference block) = Some block →
  is_Some (transaction_aggregator self !! reference block) → Some (reference block) ≠ h → a < committee_len c →
  ∃ self', vote block self (tx, a) = Ok self' ∧ fi_inv self' (add_vote W (reference block) tx a) h
    ∧ (∀ r, r ≠ reference block → transaction_aggregator self' !! r = transaction_aggregator self !! r)
    ∧ is_Some (transaction_aggregator self' !! reference block).
Proof.
  intros [Hagg Habs Hcerts Hca Hfin] Hb [m Hm] Hh Ha. unfold vote. rewrite Hm. cbn [expect mbind outcome_bind].
  destruct (StakeAggregator_add_spec c _ _ a Hwf (Hagg _ _ Hm Hh tx) Ha) as (agg & -> & Hinv). cbn [mbind outcome_bind].
  set (self1 := with_aggregators self (reference block) (<[tx := agg]> m)). set (W' := add_vote W (reference block) tx a).
  assert (Hagg1 : ∀ r m, transaction_aggregator self1 !! r = Some m → Some r ≠ h → ∀ tx, agg_inv c (default StakeAggregator_new (m !! tx)) (W' r tx)).
  { intros r m' Hr Hrh tx'. unfold W', add_vote. cbn in Hr. destruct (decide (r = reference block)) as [->|Hne].
    - rewrite lookup_insert_eq in Hr. injection Hr as <-. destruct (decide (tx' = tx)) as [->|Htx].
      + rewrite lookup_insert_eq, bool_decide_true by done. exact Hinv.
      + rewrite lookup_insert_ne, bool_decide_false by naive_solver. by apply Hagg.
    - rewrite lookup_insert_ne in Hr by done. rewrite bool_decide_false by naive_solver. by apply Hagg. }
  assert (Habs1 : ∀ r tx, transaction_aggregator self1 !! r = None → W' r tx = ∅).
  { intros r tx' Hr. cbn in Hr. destruct (decide (r = reference block)) as [->|Hne]; [by rewrite lookup_insert_eq in Hr|].
    rewrite lookup_insert_ne in Hr by done. unfold W', add_vote. rewrite bool_decide_false by naive_solver. by apply Habs. }
  assert (Hnew : W' (reference block) tx = {[a]} ∪ W (reference block) tx) by (unfold W', add_vote; by rewrite bool_decide_true).
  assert (Hother : ∀ tx' r, (tx', r) ≠ (tx, reference block) → r ∈ certificates self1 tx' ↔ quorum (W' r tx') = true ∧ marked r = false).
  { intros tx' r Hne. unfold W', add_vote. rewrite bool_decide_false by naive_solver. apply Hcerts. }
  assert (Hframe : ∀ r, r ≠ reference block → transaction_aggregator self1 !! r = transaction_aggregator self !! r).
  { intros r Hr. cbn. by rewrite lookup_insert_ne. }
  assert (Hsome : is_Some (transaction_aggregator self1 !! reference block)) by (cbn; rewrite lookup_insert_eq; by eexists).
  assert (Hmark : marked (reference block) = epoch_changed block) by (unfold marked; by rewrite Hb).
  change (is_threshold c _) with (quorum ({[a]} ∪ W (reference block) tx)). rewrite <- Hnew.
  destruct (quorum (W' (reference block) tx) && negb (epoch_changed block)) eqn:Hgo.
  - apply andb_true_iff in Hgo as [Hq He%negb_true_iff].
    destruct (certify_spec self1 W' h block tx) as (self' & -> & Hinv' & Heq); [done|congruence|done..|].
    exists self'. rewrite Heq. done.
  - exists self1. split_and!; [done| |done|done]. split; [done|done| |done|done].
    intros tx' r. destruct (decide ((tx', r) = (tx, reference block))) as [[= -> ->]|Hne]; [|by apply Hother].
    change (certificates self1 tx) with (certificates self tx). rewrite Hcerts, Hmark. split.
    + intros [Hq He]. split; [|done]. eapply quorum_add; [exact Hq|]. rewrite Hnew. set_solver.
    + intros [Hq He]. rewrite Hq, He in Hgo. done.
Qed.

(** Votes for one block leave the others alone. *)
Definition framed (self self' : FinalizationInterpreter) (W W' : votes) (r : BlockReference) : Prop :=
  (∀ r', r' ≠ r → transaction_aggregator self' !! r' = transaction_aggregator self !! r' ∧ ∀ tx, W' r' tx = W r' tx)
  ∧ is_Some (transaction_aggregator self' !! r).

Lemma votes_spec block h l : get_block (reference block) = Some block → Some (reference block) ≠ h →
  Forall (λ v, v.2 < committee_len c) l → ∀ self W, fi_inv self W h → is_Some (transaction_aggregator self !! reference block) →
  ∃ self' W', foldM (vote block) self l = Ok self' ∧ fi_inv self' W' h ∧ framed self self' W W' (reference block)
    ∧ ∀ tx a, a ∈ W' (reference block) tx ↔ a ∈ W (reference block) tx ∨ (tx, a) ∈ l.
Proof.
  intros Hb Hh Hl. induction Hl as [|[tx a] l Ha _ IH]; intros self W Hinv Hm; cbn [foldM].
  { exists self, W. split_and!; [done|done|by split|]. intros tx a. set_solver. }
  destruct (vote_spec self W h block tx a) as (self1 & -> & Hinv1 & Hf1 & Hm1); [done..|]. cbn [mbind outcome_bind].
  destruct (IH self1 _ Hinv1 Hm1) as (self' & W' & -> & Hinv' & [Hf' Hm'] & HW'). exists self', W'. split_and!; [done|done| |].
  - split; [|done]. intros r Hr. destruct (Hf' r Hr) as [-> HW]. split; [by apply Hf1|].
    intros tx'. rewrite HW. unfold add_vote. by rewrite bool_decide_false by naive_solver.
  - intros tx' a'. rewrite HW'. unfold add_vote. case_bool_decide as Htx.
    + destruct Htx as [_ ->]. rewrite elem_of_union, elem_of_singleton, elem_of_cons. naive_solver.
    + rewrite elem_of_cons. naive_solver.
Qed.

Lemma own_votes_known r b : get_block r = Some b → Forall (λ v, v.2 < committee_len c) (own_votes b).
Proof. intros Hb. unfold own_votes. apply Forall_fmap, Forall_true. intros l. cbn. by eapply st_author. Qed.

(** The votes of a parent are what its aggregators hold. *)
Lemma elem_of_parent_votes m (X : TransactionLocator → gset AuthorityIndex) :
  (∀ tx, agg_inv c (default StakeAggregator_new (m !! tx)) (X tx)) → ∀ tx a, (tx, a) ∈ parent_votes m ↔ a ∈ X tx.
Proof.
  intros HX tx a. unfold parent_votes. rewrite list_elem_of_bind. split.
  - intros ([tx' agg] & Hin & Hagg). rewrite Horder in Hagg. apply elem_of_map_to_list in Hagg.
    apply list_elem_of_fmap in Hin as (v & [= -> ->] & Hv). specialize (HX tx'). rewrite Hagg in HX. by apply HX.
  - intros Ha. specialize (HX tx). destruct (m !! tx) as [agg|] eqn:Hm; cbn in HX.
    + exists (tx, agg). rewrite Horder, elem_of_map_to_list. split; [|done]. apply list_elem_of_fmap. exists a. split; [done|by apply HX].
    + apply HX in Ha. destruct (agg_inv_new (TH := QuorumThreshold) c) as [Hnew _ _]. apply Hnew in Ha. set_solver.
Qed.

Lemma parent_votes_known m (X : TransactionLocator → gset AuthorityIndex) :
  (∀ tx, agg_inv c (default StakeAggregator_new (m !! tx)) (X tx)) → Forall (λ v, v.2 < committee_len c) (parent_votes m).
Proof.
  intros HX. apply Forall_forall. intros [tx a] Ha. apply (elem_of_parent_votes m X HX) in Ha. cbn.
  apply elem_of_all_authorities. by apply (agg_inv_known _ _ _ (HX tx)).
Qed.

Lemma hide self W r m : fi_inv self W None → is_Some (transaction_aggregator self !! r) → fi_inv (with_aggregators self r m) W (Some r).
Proof.
  intros [] Hr. split; try done.
  - intros r' m' Hr' Hne tx. cbn in Hr'. rewrite lookup_insert_ne in Hr' by congruence. by apply fi_agg0.
  - intros r' tx Hr'. cbn in Hr'. destruct (decide (r' = r)) as [->|]; [by rewrite lookup_insert_eq in Hr'|].
    rewrite lookup_insert_ne in Hr' by done. by apply fi_absent0.
Qed.

Lemma unhide self W r m : fi_inv self W (Some r) → (∀ tx, agg_inv c (default StakeAggregator_new (m !! tx)) (W r tx)) →
  fi_inv (with_aggregators self r m) W None.
Proof.
  intros [] Hm. split; try done.
  - intros r' m' Hr' _ tx. cbn in Hr'. destruct (decide (r' = r)) as [->|Hne].
    + rewrite lookup_insert_eq in Hr'. by injection Hr' as <-.
    + rewrite lookup_insert_ne in Hr' by done. apply fi_agg0; [done|congruence].
  - intros r' tx Hr'. cbn in Hr'. destruct (decide (r' = r)) as [->|]; [by rewrite lookup_insert_eq in Hr'|].
    rewrite lookup_insert_ne in Hr' by done. by apply fi_absent0.
Qed.

Lemma inherit_spec block self W p : get_block (reference block) = Some block → fi_inv self W None →
  is_Some (transaction_aggregator self !! reference block) → is_Some (transaction_aggregator self !! p) → p ≠ reference block →
  ∃ self' W', inherit block self p = Ok self' ∧ fi_inv self' W' None ∧ framed self self' W W' (reference block)
    ∧ ∀ tx a, a ∈ W' (reference block) tx ↔ a ∈ W (reference block) tx ∨ a ∈ W p tx.
Proof.
  intros Hb Hinv Hm [mp Hp] Hne. unfold inherit. rewrite Hp. cbn [expect mbind outcome_bind].
  assert (Hagg : ∀ tx, agg_inv c (default StakeAggregator_new (mp !! tx)) (W p tx)) by (by apply (fi_agg _ _ _ Hinv)).
  destruct (votes_spec block (Some p) (parent_votes mp)) with (with_aggregators self p ∅) W as (self1 & W1 & -> & Hinv1 & [Hf1 Hm1] & HW1);
    [done|congruence|by eapply parent_votes_known|by apply hide|cbn; by rewrite lookup_insert_ne|].
  cbn [mbind outcome_bind]. destruct (Hf1 p Hne) as [_ HWp]. exists (with_aggregators self1 p mp), W1. split_and!; [done| | |].
  - apply unhide; [done|]. intros tx. rewrite HWp. apply Hagg.
  - split; [|cbn; by rewrite lookup_insert_ne]. intros r Hr. destruct (Hf1 r Hr) as [Hs HW]. split; [|done]. cbn in *.
    destruct (decide (r = p)) as [->|]; [by rewrite lookup_insert_eq|]. by rewrite lookup_insert_ne in * by done.
  - intros tx a. rewrite HW1. by rewrite (elem_of_parent_votes mp (W p) Hagg).
Qed.

(** ** Blocks *)

(** All votes in the history of the block are counted. *)
Definition exact (W : votes) (r : BlockReference) : Prop := ∀ tx a, a ∈ W r tx ↔ supports r tx a.

(** A step that processes blocks while those in [P] are being processed. *)
Record processed (P : BlockReference → Prop) (self self' : FinalizationInterpreter) (W W' : votes) : Prop := {
  p_inv : fi_inv self' W' None;
  p_frame : ∀ r, P r → transaction_aggregator self' !! r = transaction_aggregator self !! r ∧ ∀ tx, W' r tx = W r tx;
  p_exact : ∀ r, is_Some (transaction_aggregator self' !! r) → ¬ P r → exact W' r;
  p_grow : ∀ r, is_Some (transaction_aggregator self !! r) → is_Some (transaction_aggregator self' !! r);
  p_store : ∀ r, is_Some (transaction_aggregator self' !! r) → is_Some (transaction_aggregator self !! r) ∨ is_Some (get_block r) }.

(** What holds when a block is processed. *)
Definition ready (P : BlockReference → Prop) (self : FinalizationInterpreter) (W : votes) (round : RoundNumber) : Prop :=
  fi_inv self W None ∧ (∀ r, P r → is_Some (transaction_aggregator self !! r) ∧ round < br_round r)
  ∧ ∀ r, is_Some (transaction_aggregator self !! r) → ¬ P r → exact W r.

Definition block_spec (fuel : nat) : Prop := ∀ self W b P, get_block (reference b) = Some b → (N.to_nat (block_round b) < fuel)%nat →
  ready P self W (block_round b) →
  ∃ self' W', finalized_tx_certifying_block fuel self b = Ok self' ∧ processed P self self' W W'
    ∧ is_Some (transaction_aggregator self' !! reference b).

(** The loop over the parents of [b]. *)
Lemma parents_spec fuel b P : block_spec fuel → get_block (reference b) = Some b → (N.to_nat (block_round b) ≤ fuel)%nat →
  (∀ r, P r → block_round b < br_round r) →
  let Q r := P r ∨ r = reference b in
  ∀ l, (∀ p, p ∈ l → p ∈ includes b) → ∀ self W, fi_inv self W None → (∀ r, Q r → is_Some (transaction_aggregator self !! r)) →
  (∀ r, is_Some (transaction_aggregator self !! r) → ¬ Q r → exact W r) →
  ∃ self' W',
    foldM (λ self parent, parent_block ← expect (get_block parent);
                          self ← finalized_tx_certifying_block fuel self parent_block;
                          inherit b self parent) self l = Ok self'
    ∧ fi_inv self' W' None
    ∧ (∀ r, P r → r ≠ reference b → transaction_aggregator self' !! r = transaction_aggregator self !! r ∧ ∀ tx, W' r tx = W r tx)
    ∧ (∀ r, is_Some (transaction_aggregator self' !! r) → ¬ Q r → exact W' r)
    ∧ (∀ r, is_Some (transaction_aggregator self !! r) → is_Some (transaction_aggregator self' !! r))
    ∧ (∀ r, is_Some (transaction_aggregator self' !! r) → is_Some (transaction_aggregator self !! r) ∨ is_Some (get_block r))
    ∧ ∀ tx a, a ∈ W' (reference b) tx ↔ a ∈ W (reference b) tx ∨ ∃ p, p ∈ l ∧ supports p tx a.
Proof.
  intros Hfuel Hb Hround HP Q l. induction l as [|p l IH]; intros Hl self W Hinv HQ Hex; cbn [foldM].
  { exists self, W. split_and!; try done; [by left|]. intros tx a. set_solver. }
  destruct (st_parent Hstore _ _ p Hb) as [[bp Hbp] Hlt]; [apply Hl; by left|]. rewrite Hbp. cbn [expect mbind outcome_bind].
  pose proof (st_reference Hstore _ _ Hbp) as Href. assert (Hrp : block_round bp = br_round p) by (unfold block_round; by rewrite Href).
  assert (HrQ : ∀ r, Q r → br_round p < br_round r).
  { intros r [Hr| ->]; [|done]. specialize (HP r Hr). unfold block_round in HP. lia. }
  destruct (Hfuel self W bp Q) as (self1 & W1 & -> & [Hinv1 Hf1 Hex1 Hg1 Hst1] & Hs1);
    [by rewrite Href|unfold block_round in *; lia|split_and!; [done| |done]; intros r Hr; split; [by apply HQ|rewrite Hrp; by apply HrQ]|].
  cbn [mbind outcome_bind]. rewrite Href in Hs1.
  assert (Hpne : p ≠ reference b) by (intros ->; lia).
  assert (Hself : Q (reference b)) by (by right).
  destruct (inherit_spec b self1 W1 p) as (self2 & W2 & -> & Hinv2 & [Hf2 Hm2] & HW2); [done|done|apply Hg1; by apply HQ|done|done|].
  cbn [mbind outcome_bind].
  assert (HpQ : ¬ Q p) by (intros Hp; specialize (HrQ p Hp); lia).
  destruct (IH ltac:(set_solver) self2 W2 Hinv2) as (self' & W' & -> & Hinv' & Hf' & Hex' & Hg' & Hst' & HW').
  { intros r Hr. destruct (decide (r = reference b)) as [->|Hne]; [done|]. destruct (Hf2 r Hne) as [-> _]. apply Hg1. by apply HQ. }
  { intros r Hr HrQ'. assert (r ≠ reference b) as Hne by (intros ->; done). destruct (Hf2 r Hne) as [Hr2 HW]. rewrite Hr2 in Hr.
    intros tx a. rewrite HW. by apply Hex1. }
  exists self', W'. split_and!; [done|done| |done| | |].
  - intros r Hr Hne. destruct (Hf' r Hr Hne) as [-> HWr]. destruct (Hf2 r Hne) as [-> HW2r]. destruct (Hf1 r (or_introl Hr)) as [-> HW1r].
    split; [done|]. intros tx. by rewrite HWr, HW2r, HW1r.
  - intros r Hr. apply Hg'. destruct (decide (r = reference b)) as [->|Hne]; [done|]. destruct (Hf2 r Hne) as [-> _]. by apply Hg1.
  - intros r Hr. apply Hst' in Hr as [Hr|?]; [|by right]. destruct (decide (r = reference b)) as [->|Hne]; [right; by eexists|].
    destruct (Hf2 r Hne) as [Hr2 _]. rewrite Hr2 in Hr. by apply Hst1.
  - intros tx a. rewrite HW', HW2. destruct (Hf1 _ Hself) as [_ ->]. rewrite (Hex1 p Hs1 HpQ tx a). set_solver.
Qed.

Lemma supports_inv r b tx a : get_block r = Some b →
  supports r tx a ↔ (tx, a) ∈ own_votes b ∨ ∃ p, p ∈ includes b ∧ supports p tx a.
Proof.
  intros Hb. split.
  - inversion 1; subst; simplify_eq; [by left|right; eauto].
  - intros [?|(p & ? & ?)]; [by eapply supports_own|by eapply supports_parent].
Qed.

Lemma process_block_spec fuel : block_spec fuel.
Proof.
  induction fuel as [|fuel IH]; intros self W b P Hb Hround (Hinv & HP & Hex); [lia|]. cbn [finalized_tx_certifying_block].
  case_bool_decide as Hdone; [exists self, W; split; [done|]; split; [|done]; split; try done; by left|].
  assert (HbP : ¬ P (reference b)) by (intros Hp; by apply HP in Hp as [? _]).
  set (self0 := with_aggregators self (reference b) ∅).
  assert (Habs : transaction_aggregator self !! reference b = None) by (by apply eq_None_not_Some).
  assert (Hinv0 : fi_inv self0 W None).
  { destruct Hinv. split; try done.
    - intros r m Hr _ tx. cbn in Hr. destruct (decide (r = reference b)) as [->|Hne].
      + rewrite lookup_insert_eq in Hr. injection Hr as <-. rewrite lookup_empty, fi_absent0 by done. apply agg_inv_new.
      + rewrite lookup_insert_ne in Hr by done. by apply fi_agg0.
    - intros r tx Hr. cbn in Hr. destruct (decide (r = reference b)) as [->|]; [by rewrite lookup_insert_eq in Hr|].
      rewrite lookup_insert_ne in Hr by done. by apply fi_absent0. }
  destruct (votes_spec b None (own_votes b)) with self0 W as (self1 & W1 & -> & Hinv1 & [Hf1 Hm1] & HW1);
    [done|done|by eapply own_votes_known|done|cbn; rewrite lookup_insert_eq; by eexists|].
  cbn [mbind outcome_bind].
  assert (H01 : ∀ r, r ≠ reference b → transaction_aggregator self1 !! r = transaction_aggregator self !! r ∧ ∀ tx, W1 r tx = W r tx).
  { intros r Hne. destruct (Hf1 r Hne) as [-> HW]. split; [cbn; by rewrite lookup_insert_ne|done]. }
  destruct (parents_spec fuel b P) with (includes b) self1 W1 as (self' & W' & -> & Hinv' & Hf' & Hex' & Hg' & Hst' & HW');
    [done|done|lia|by intros r Hr; apply HP|done|done| | |].
  { intros r [Hr| ->]; [|done]. destruct (decide (r = reference b)) as [->|Hne]; [done|]. destruct (H01 r Hne) as [-> _]. by apply HP. }
  { intros r Hr HrQ. assert (r ≠ reference b) as Hne by (intros ->; apply HrQ; by right). destruct (H01 r Hne) as [Hr1 HW].
    intros tx a. rewrite HW. apply Hex; [by rewrite <- Hr1|]. intros Hp. apply HrQ. by left. }
  exists self', W'. split; [done|]. split; [|by apply Hg']. split; [done| | | |].
  - intros r Hr. assert (r ≠ reference b) as Hne by (by intros ->). destruct (Hf' r Hr Hne) as [-> HW]. destruct (H01 r Hne) as [-> HW0].
    split; [done|]. intros tx. by rewrite HW, HW0.
  - intros r Hr HrP. destruct (decide (r = reference b)) as [->|Hne]; [|apply Hex'; [done|by intros [?|?]]].
    intros tx a. rewrite HW', HW1, (supports_inv _ b) by done. rewrite (fi_absent _ _ _ Hinv) by done. set_solver.
  - intros r Hr. apply Hg'. destruct (decide (r = reference b)) as [->|Hne]; [done|]. by destruct (H01 r Hne) as [-> _].
  - intros r Hr. apply Hst' in Hr as [Hr|?]; [|by right]. destruct (decide (r = reference b)) as [->|Hne]; [right; by eexists|].
    left. by destruct (H01 r Hne) as [<- _].
Qed.

Lemma blocks_spec blocks : Forall (λ b, get_block (reference b) = Some b) blocks → ∀ self W, ready (λ _, False) self W 0 →
  ∃ self' W', foldM (λ self block, finalized_tx_certifying_block (block_fuel block) self block) self blocks = Ok self'
    ∧ ready (λ _, False) self' W' 0
    ∧ (∀ r, is_Some (transaction_aggregator self !! r) → is_Some (transaction_aggregator self' !! r))
    ∧ Forall (λ b, is_Some (transaction_aggregator self' !! reference b)) blocks.
Proof.
  induction 1 as [|b blocks Hb _ IH]; intros self W Hready; cbn [foldM]; [by exists self, W; split_and!|].
  destruct (process_block_spec (block_fuel b) self W b (λ _, False)) as (self1 & W1 & -> & [Hi _ He Hg _] & Hs1);
    [done|unfold block_fuel; lia|by destruct Hready as (? & ? & ?); split_and!|].
  cbn [mbind outcome_bind]. destruct (IH self1 W1) as (self' & W' & -> & Hr' & Hg' & Hall); [by split_and!|].
  exists self', W'. split_and!; [done|done|auto|]. constructor; [by apply Hg'|done].
Qed.

Lemma new_ready : ready (λ _, False) FinalizationInterpreter_new (λ _ _, ∅) 0.
Proof.
  assert (Hq : quorum ∅ = false) by apply is_quorum_empty. split_and!; [|done|by intros r [? ?]].
  assert (Hc0 : ∀ tx, certificates FinalizationInterpreter_new tx = ∅) by (intros tx; unfold certificates; cbn; by rewrite lookup_empty).
  split.
  - by intros r m Hr.
  - done.
  - intros tx r. rewrite Hc0, Hq. set_solver.
  - intros tx. unfold certifiers. rewrite Hc0. cbn. rewrite lookup_empty, set_map_empty. apply agg_inv_new.
  - intros tx. unfold certifiers. rewrite Hc0, set_map_empty, Hq. set_solver.
Qed.

(** [certifies r tx]: a quorum of authorities has voted for [tx] in the history of block [r],
    which does not carry the epoch marker. *)
Definition certifies (r : BlockReference) (tx : TransactionLocator) : Prop :=
  ∃ X : gset AuthorityIndex, (∀ a, a ∈ X ↔ supports r tx a) ∧ quorum X = true ∧ marked r = false.

Lemma supports_stored r tx a : supports r tx a → is_Some (get_block r).
Proof. intros Hs. inversion Hs; by eexists. Qed.

Lemma certificates_exact self W : ready (λ _, False) self W 0 → (∀ r, is_Some (get_block r) → is_Some (transaction_aggregator self !! r)) →
  ∀ tx r, r ∈ certificates self tx ↔ certifies r tx.
Proof.
  intros (Hinv & _ & Hex) Hall tx r. rewrite (fi_certs _ _ _ Hinv). split.
  - intros [Hq Hm]. exists (W r tx). split_and!; [|done|done]. apply Hex; [|by intros []]. apply Hall.
    unfold marked in Hm. destruct (get_block r) eqn:Hr; [by eexists|done].
  - intros (X & HX & Hq & Hm). split; [|done]. replace (W r tx) with X; [done|]. apply set_eq. intros a. rewrite HX. symmetry.
    apply Hex; [|by intros []]. apply Hall. unfold marked in Hm. destruct (get_block r) eqn:Hr; [by eexists|done].
Qed.
End interpreter.

(** C38: the finalization interpreter is exact: on a store whose blocks are under their
    references, by known authors and above their parents, it terminates without panic, and
    returns a transaction with a set of blocks exactly when that set is all the blocks
    with a quorum of votes for the transaction in their history and no epoch marker, and the
    authors of these blocks are a quorum. *)
Theorem finalization_exact c get_block order blocks (Hwf : wf_committee c) (Hstore : store_ok c get_block)
    (Horder : ∀ m, order m ≡ₚ map_to_list m)
    (Hblocks : Forall (λ b, get_block (reference b) = Some b) blocks)
    (Hall : ∀ r b, get_block r = Some b → b ∈ blocks) :
  ∃ self result, finalized_tx_certifying_blocks c get_block order FinalizationInterpreter_new blocks = Ok (self, result)
    ∧ ∀ tx S, (tx, S) ∈ result ↔ (∀ r, r ∈ S ↔ certifies c get_block r tx) ∧ quorum c (set_map br_authority S) = true.
Proof.
  destruct (blocks_spec c get_block order Hwf Hstore Horder blocks Hblocks _ _ (new_ready c get_block order Hwf Hstore Horder)) as (self & W & Hrun & Hready & _ & Hdone).
  unfold finalized_tx_certifying_blocks. rewrite Hrun. cbn [mbind outcome_bind]. eexists _, _. split; [done|].
  assert (Hex : ∀ tx r, r ∈ certificates self tx ↔ certifies c get_block r tx).
  { apply (certificates_exact c get_block self W Hready). intros r [b Hb]. rewrite Forall_forall in Hdone.
    rewrite <- (st_reference _ _ Hstore _ _ Hb). by eapply Hdone, Hall. }
  destruct Hready as (Hinv & _). intros tx S. rewrite list_elem_of_filter, elem_of_map_to_list, (fi_final _ _ _ _ _ Hinv).
  cbn [fst]. unfold certifiers. split.
  - intros [Hq HS]. assert (certificates self tx = S) as HcS by (unfold certificates; by rewrite HS). rewrite HcS in Hq.
    split; [|done]. intros r. by rewrite <- Hex, HcS.
  - intros [HS Hq]. assert (certificates self tx = S) as HcS by (apply set_eq; intros r; by rewrite HS). rewrite HcS. split; [done|].
    unfold certificates in HcS. destruct (transaction_certificates self !! tx); cbn in HcS; [by rewrite HcS|].
    subst S. rewrite set_map_empty in Hq. unfold quorum in Hq. by rewrite is_quorum_empty in Hq.
Qed.

(** ** A store in which a transaction is finalized *)

Definition list_store (blocks : list StatementBlock) (r : BlockReference) : option StatementBlock :=
  head (filter (λ b, reference b = r) blocks).

Lemma list_store_Some blocks r b : list_store blocks r = Some b → b ∈ blocks ∧ reference b = r.
Proof.
  unfold list_store. intros Hh. assert (Hin : b ∈ filter (λ b, reference b = r) blocks).
  { destruct (filter _ blocks); [done|]. injection Hh as ->. by left. }
  apply list_elem_of_filter in Hin as [? ?]. done.
Qed.

Lemma list_store_ok c blocks :
  Forall (λ b, author b < committee_len c ∧ Forall (λ p, list_store blocks p ≠ None ∧ br_round p < block_round b) (includes b)) blocks →
  store_ok c (list_store blocks).
Proof.
  intros Hall. rewrite Forall_forall in Hall. split.
  - intros r b Hb. by apply list_store_Some in Hb as [_ ?].
  - intros r b [Hb _]%list_store_Some. by apply Hall.
  - intros r b p [Hb <-]%list_store_Some Hp. destruct (Hall b Hb) as [_ Hps]. rewrite Forall_forall in Hps.
    destruct (Hps p Hp) as [Hs ?]. split; [by apply not_eq_None_Some|done].
Qed.

Definition sample_ref (a r : N) : BlockReference := mkRef a r (10 * r + a).
Definition sample_tx : TransactionLocator := mkLocator (sample_ref 0 1) 0.
Definition voting (a r : N) (parents : list BlockReference) : StatementBlock :=
  mkBlock (sample_ref a r) parents [VoteStmt sample_tx Accept] 0 false 0.
(** Authority 0 shares a transaction, 1 and 2 vote for it, and three blocks see all votes. *)
Definition sample_blocks : list StatementBlock :=
  [mkBlock (sample_ref 0 1) [] [Share (mkTransaction [])] 0 false 0;
   voting 1 2 [sample_ref 0 1]; voting 2 2 [sample_ref 0 1];
   mkBlock (sample_ref 0 3) [sample_ref 1 2; sample_ref 2 2] [] 0 false 0;
   mkBlock (sample_ref 1 3) [sample_ref 1 2; sample_ref 2 2] [] 0 false 0;
   mkBlock (sample_ref 2 3) [sample_ref 1 2; sample_ref 2 2] [] 0 false 0].

Lemma finalization_exact_witness : certifies four_equal (list_store sample_blocks) (sample_ref 2 3) sample_tx.
Proof.
  destruct (finalization_exact four_equal (list_store sample_blocks) map_to_list sample_blocks) as (self & result & Hrun & Hres).
  - exact four_equal_wf.
  - apply list_store_ok. refine (bool_decide_unpack _ _). vm_compute. exact I.
  - done.
  - refine (bool_decide_unpack _ _). vm_compute. exact I.
  - intros r b Hb. by apply list_store_Some in Hb as [? _].
  - assert (Hin : (sample_tx, {[sample_ref 0 3; sample_ref 1 3; sample_ref 2 3]}) ∈ result).
    { assert (Hb : match finalized_tx_certifying_blocks four_equal (list_store sample_blocks) map_to_list FinalizationInterpreter_new sample_blocks with
                   | Ok (_, l) => bool_decide ((sample_tx, {[sample_ref 0 3; sample_ref 1 3; sample_ref 2 3]}) ∈ l) | _ => false end = true)
        by (vm_compute; reflexivity).
      rewrite Hrun in Hb. by apply bool_decide_eq_true in Hb. }
    apply Hres in Hin as [HS _]. apply HS. set_solver.
Defined.
