(* ===== verification/NetSync.v ===== *)
(** * NetSync: connections, dissemination and fetching of blocks
      (mysticeti-core/src/net_sync.rs, synchronizer.rs, NetworkMessage of network.rs)

    A validator runs a task per connection, which verifies the received blocks before they
    reach the core thread, streams its own blocks and answers requests from the block store it
    shares with the core; a task that asks random peers for missing blocks; and the tasks for
    the leader timeout and the cleanup. [node_next] is one step of one of these tasks, so that a
    list of events is an interleaving of them. The commands to the core thread are awaited,
    so a step ends when its command is done.

    A duration is in nanoseconds. A connection takes a bounded number of messages before the
    peer closes it. A stream that has sent all it read waits for a notification; here it may read
    the store again at any time. *)

From S2P Require Import Prelude Bytes Types Committee ThresholdClock Epoch BTree RangeMap Aggregator BlockStore.
From S2P Require Import BlockManager Linearizer Consensus BlockAuth Wal WalLog Recovery Core.
From S2P Require Import CoreRecovery CoreSample CoreRuns CoreProposals Handlers Syncer.
From Stdlib Require Import Strings.Byte.

(** ** Messages and parameters *)

Inductive NetworkMessage :=
| SubscribeOwnFrom (round : RoundNumber)
| Block (block : StatementBlock)
| RequestBlocks (references : list BlockReference)
| BlockNotFound (references : list BlockReference).

#[global] Instance NetworkMessage_eq_dec : EqDecision NetworkMessage.
Proof. solve_decision. Defined.

Definition MAXIMUM_BLOCK_REQUEST : nat := 10.

Definition from_millis (n : N) : N := 1000000 * n.
Definition from_secs (n : N) : N := from_millis (1000 * n).

Record SynchronizerParameters := mkParameters {
  absolute_maximum_helpers : N;
  maximum_helpers_per_authority : N;
  batch_size : N;
  sample_precision : N;
  grace_period : N;
  stream_interval : N;
  new_stream_threshold : N }.

Definition SynchronizerParameters_default : SynchronizerParameters :=
  mkParameters 10 2 10 (from_secs 5) (from_secs 15) (from_secs 1) 10.

(** ** Channels *)

(** The sending half of a connection: what was sent, and how many more messages it takes. *)
Record Channel := mkChannel { sent : list NetworkMessage; accepts : nat }.

(** [send(..).await.ok()] *)
Definition send (self : Channel) (m : NetworkMessage) : option Channel :=
  match accepts self with
  | O => None
  | Datatypes.S n => Some (mkChannel (sent self ++ [m]) n)
  end.

(** ** Connections *)

(** [stream_own_blocks]: the round, and the blocks read but not sent. *)
Record OwnStream := mkStream { stream_round : RoundNumber; stream_blocks : list StatementBlock }.

(** Where a connection task is: before the subscription, waiting for a message, in
    [send_blocks], after the loop, or returned. *)
Inductive TaskState :=
| Starting
| Receiving
| Replying (references missing : list BlockReference)
| Closing
| Finished.

Record Connection := mkConnection {
  peer_id : AuthorityIndex;
  sender : Channel;
  task_state : TaskState;
  own_stream : option OwnStream }.

Definition set_task (self : Connection) (st : TaskState) : Connection :=
  mkConnection (peer_id self) (sender self) st (own_stream self).
Definition set_stream (self : Connection) (stream : option OwnStream) : Connection :=
  mkConnection (peer_id self) (sender self) (task_state self) stream.

(** A message is sent and the task goes on in [next]; when the channel is closed, in [otherwise]. *)
Definition send_then (self : Connection) (m : NetworkMessage) (next otherwise : TaskState) : Connection :=
  match send (sender self) m with
  | Some ch => mkConnection (peer_id self) ch next (own_stream self)
  | None => set_task self otherwise
  end.

(** ** The block fetcher *)

Inductive BlockFetcherMessage :=
| RegisterAuthority (authority : AuthorityIndex) (connection : nat)
| RemoveAuthority (authority : AuthorityIndex).

(** A sender is the number of its connection. *)
Record BlockFetcherWorker := mkFetcher {
  fetcher_id : AuthorityIndex;
  receiver : list BlockFetcherMessage;
  senders : gmap AuthorityIndex nat;
  parameters : SynchronizerParameters;
  fetcher_missing : gmap BlockReference N;
  enable : bool }.

Definition BlockFetcherWorker_new (id : AuthorityIndex) (enable : bool) : BlockFetcherWorker :=
  mkFetcher id [] ∅ SynchronizerParameters_default ∅ enable.

Definition fetcher_post (self : BlockFetcherWorker) (m : BlockFetcherMessage) : BlockFetcherWorker :=
  mkFetcher (fetcher_id self) (receiver self ++ [m]) (senders self) (parameters self) (fetcher_missing self)
    (enable self).

(** [message = self.receiver.recv()] *)
Definition fetcher_receive (self : BlockFetcherWorker) : BlockFetcherWorker :=
  match receiver self with
  | [] => self
  | m :: rest =>
      mkFetcher (fetcher_id self) rest
        (match m with
         | RegisterAuthority a i => <[a := i]> (senders self)
         | RemoveAuthority a => delete a (senders self)
         end)
        (parameters self) (fetcher_missing self) (enable self)
  end.

(** A reference that is missing: it is requested once it has been missing for the grace period. *)
Definition note_missing (now grace : N) (st : gmap BlockReference N * list BlockReference)
    (reference : BlockReference) : gmap BlockReference N * list BlockReference :=
  let '(missing, to_request) := st in
  let time := default now (missing !! reference) in
  if bool_decide (grace ≤ now - time) then (delete reference missing, to_request ++ [reference])
  else (<[reference := time]> missing, to_request).

(** [slice::chunks] *)
Fixpoint chunks_fuel {A} (fuel n : nat) (l : list A) : list (list A) :=
  match fuel, l with
  | Datatypes.S fuel, _ :: _ => take n l :: chunks_fuel fuel n (drop n l)
  | _, _ => []
  end.
Definition chunks {A} (n : nat) (l : list A) : list (list A) := chunks_fuel (length l) n l.

(** What the environment decides in a sampling step: the order of a hash set, the shuffle
    of the peers for a request, and whether a connection has room at once. *)
Record Sampling := mkSampling {
  set_order : gset BlockReference → list BlockReference;
  shuffle : nat → list (AuthorityIndex * nat) → list (AuthorityIndex * nat);
  has_room : nat → nat → bool }.

(** [try_reserve] on the connection number [i]. *)
Definition try_reserve (room : bool) (connections : list Connection) (i : nat) : bool :=
  room && match connections !! i with Some conn => negb (bool_decide (accepts (sender conn) = 0%nat)) | None => false end.

(** [sample_peer] for the request number [k]: a peer and its connection, with a permit. *)
Definition sample_peer (env : Sampling) (self : BlockFetcherWorker) (k : nat) (connections : list Connection)
    (except : list AuthorityIndex) : option (AuthorityIndex * nat) :=
  let senders := filter (λ p, p.1 ∉ except) (map_to_list (senders self)) in
  List.find (λ p, try_reserve (has_room env k p.2) connections p.2) (shuffle env k senders).

(** [permit.send(message)] *)
Definition permit_send (m : NetworkMessage) (conn : Connection) : Connection :=
  send_then conn m (task_state conn) (task_state conn).

Fixpoint send_requests (env : Sampling) (self : BlockFetcherWorker) (k : nat) (connections : list Connection)
    (requests : list (list BlockReference)) : list Connection :=
  match requests with
  | [] => connections
  | request :: requests =>
      match sample_peer env self k connections [fetcher_id self] with
      | None => connections
      | Some (_, i) =>
          send_requests env self (Datatypes.S k) (alter (permit_send (RequestBlocks request)) i connections) requests
      end
  end.

(** [sync_strategy]; [missing_blocks] is the answer of the core thread. *)
Definition sync_strategy (env : Sampling) (now : N) (self : BlockFetcherWorker) (missing_blocks : list (gset BlockReference))
    (connections : list Connection) : BlockFetcherWorker * list Connection :=
  if enable self then (self, connections)
  else
    let grace := grace_period (parameters self) in
    let '(missing, to_request) :=
      foldl (note_missing now grace) (fetcher_missing self, []) (mjoin (set_order env <$> missing_blocks)) in
    let missing := filter (λ p, now - p.2 < grace) missing in
    (mkFetcher (fetcher_id self) (receiver self) (senders self) (parameters self) missing (enable self),
     send_requests env self 0 connections (chunks MAXIMUM_BLOCK_REQUEST to_request)).

(** ** The validator *)

Section Node.
Context {Wal H E Sg C : Type} `{WalOps Wal} `{Codec} `{Crypto} `{BlockHandler H} `{PevmExecutor E}.
Context `{SyncerSignals Sg} `{CommitObserver (StoreWriter (Wal := Wal)) C} (cfg : CoreConfig).

Notation Core := (Core (Wal := Wal) (H := H) (E := E)).
Notation Syncer := (Syncer Wal H E Sg C).
Notation StoreWriter := (StoreWriter (Wal := Wal)).

(** The block store, shared with the core, and the reads of the connection tasks. *)
Definition block_store (s : Syncer) : StoreWriter := core_writer (syncer_core s).

Definition get_own_blocks (w : StoreWriter) (from_excluded : RoundNumber) (limit : N) : outcome (list StatementBlock) :=
  store_get_own_blocks (log_read (sw_wal w)) block_from_bytes position_from_bytes (sw_store w) from_excluded limit.

(** Where the leader timeout task is: at the start of its loop, in the [select] with the round
    and the time left until the epoch shutdown, or returned. *)
Inductive LeaderTask :=
| LeaderLoop
| LeaderWaiting (round : RoundNumber) (shutdown : option N)
| LeaderStopped.

(** [NetworkSyncerInner] with the state of its tasks. *)
Record Node := mkNode {
  node_syncer : Syncer;
  connections : list Connection;
  block_fetcher : BlockFetcherWorker;
  leader_timer : LeaderTask }.

Definition with_connection (self : Node) (i : nat) (conn : Connection) : Node :=
  mkNode (node_syncer self) (<[i := conn]> (connections self)) (block_fetcher self) (leader_timer self).

(** A command of the core thread, awaited. *)
Definition run_core (self : Node) (command : CoreThreadCommand) (now later : N) : outcome Node :=
  '(s, _) ← run_command cfg (node_syncer self) command now later;
  Ok (mkNode s (connections self) (block_fetcher self) (leader_timer self)).

(** The steps of the tasks. *)
Inductive Event :=
| NewConnection (peer : AuthorityIndex) (room : nat)
| StartTask (i : nat)
| Message (i : nat) (m : NetworkMessage)
| NoMessage (i : nat)
| Reply (i : nat)
| Stream (i : nat)
| Close (i : nat)
| FetcherReceive
| FetcherSample (env : Sampling) (now : N)
| LeaderTimer (timestamp : N) (shutdown_grace_period : N)
| LeaderTimeout
| LeaderNotified
| LeaderStop
| CleanupTimeout.

(** The loop of [run]: the previous task of the peer has to end first. *)
Definition new_connection (self : Node) (peer : AuthorityIndex) (room : nat) : Node :=
  if forallb (λ conn, negb (bool_decide (peer_id conn = peer)) ||
                      match task_state conn with Finished => true | _ => false end) (connections self)
  then
    mkNode (node_syncer self)
      (connections self ++ [mkConnection peer (mkChannel [] room) Starting None])
      (fetcher_post (block_fetcher self) (RegisterAuthority peer (length (connections self)))) (leader_timer self)
  else self.

(** The part of [connection_task] before its loop. *)
Definition start_task (self : Node) (i : nat) (conn : Connection) (now later : N) : outcome Node :=
  last_seen ← last_seen_by_authority (sw_store (block_store (node_syncer self))) (peer_id conn);
  let conn := send_then conn (SubscribeOwnFrom last_seen) Receiving Finished in
  let self := with_connection self i conn in
  match task_state conn with
  | Receiving => run_core self (ConnectionEstablished (peer_id conn)) now later
  | _ => Ok self
  end.

(** The body of the loop of [connection_task]. *)
Definition receive_message (self : Node) (i : nat) (conn : Connection) (m : NetworkMessage) (now later : N) : outcome Node :=
  match m with
  | SubscribeOwnFrom round => Ok (with_connection self i (set_stream conn (Some (mkStream round []))))
  | Block block =>
      verified ← verify block (cc_committee cfg);
      if (verified : bool) then run_core self (AddBlocks [block]) now later
      else Ok (with_connection self i (set_task conn Closing))
  | RequestBlocks references =>
      if bool_decide (MAXIMUM_BLOCK_REQUEST < length references)%nat
      then Ok (with_connection self i (set_task conn Closing))
      else Ok (with_connection self i (set_task conn (Replying references [])))
  | BlockNotFound _ => Ok self
  end.

(** The next iteration of the loop of [send_blocks], or the message after it. *)
Definition send_blocks (self : Node) (i : nat) (conn : Connection) (references missing : list BlockReference) : outcome Node :=
  match references with
  | [] => Ok (with_connection self i (send_then conn (BlockNotFound missing) Receiving Closing))
  | reference :: references =>
      stored_block ← writer_get_block (block_store (node_syncer self)) reference;
      Ok (with_connection self i
            (match stored_block with
             | Some block => send_then conn (Block block) (Replying references missing) Closing
             | None => set_task conn (Replying references (missing ++ [reference]))
             end))
  end.

(** [stream_own_blocks]: read the next blocks, or send one. *)
Definition stream_own_blocks (self : Node) (i : nat) (conn : Connection) (stream : OwnStream) : outcome Node :=
  match stream_blocks stream with
  | [] =>
      blocks ← get_own_blocks (block_store (node_syncer self)) (stream_round stream)
                 (batch_size SynchronizerParameters_default);
      Ok (with_connection self i (set_stream conn (Some (mkStream (stream_round stream) blocks))))
  | block :: blocks =>
      let conn' := permit_send (Block block) conn in
      Ok (with_connection self i
            (set_stream conn' (match send (sender conn) (Block block) with
                               | Some _ => Some (mkStream (block_round block) blocks)
                               | None => None
                               end)))
  end.

(** The part of [connection_task] after its loop. *)
Definition close_task (self : Node) (i : nat) (conn : Connection) (now later : N) : outcome Node :=
  self ← run_core self (ConnectionDropped (peer_id conn)) now later;
  let self := with_connection self i (mkConnection (peer_id conn) (sender conn) Finished None) in
  Ok (mkNode (node_syncer self) (connections self)
        (fetcher_post (block_fetcher self) (RemoveAuthority (peer_id conn))) (leader_timer self)).

Definition set_timer (self : Node) (timer : LeaderTask) : Node :=
  mkNode (node_syncer self) (connections self) (block_fetcher self) timer.

(** The time until the epoch shutdown, none before the epoch is closing. *)
Definition shutdown_duration (closing timestamp shutdown_grace_period : N) : option N :=
  if bool_decide (closing = 0) then None
  else Some (shutdown_grace_period - (timestamp - from_millis closing)).

(** [leader_timeout_task] up to its [select]. *)
Definition read_leader_timer (self : Node) (timestamp shutdown_grace_period : N) : Node :=
  let round := default 0 (br_round <$> last_own_block (sw_store (block_store (node_syncer self)))) in
  let closing := closing_time (core_epoch_manager (syncer_core (node_syncer self))) in
  match shutdown_duration closing timestamp shutdown_grace_period with
  | Some 0 => set_timer self LeaderStopped
  | shutdown => set_timer self (LeaderWaiting round shutdown)
  end.

(** The branches of the [select]: the timeout forces a block, a notification restarts the loop, and the
    shutdown, which closes the connections, restarts it too. *)
Definition leader_next (self : Node) (e : Event) (now later : N) : outcome Node :=
  match e, leader_timer self with
  | LeaderTimer timestamp grace, LeaderLoop => Ok (read_leader_timer self timestamp grace)
  | LeaderTimeout, LeaderWaiting round _ =>
      self ← run_core self (ForceNewBlock round) now later; Ok (set_timer self LeaderLoop)
  | LeaderNotified, LeaderWaiting _ _ => Ok (set_timer self LeaderLoop)
  | LeaderStop, LeaderWaiting _ _ => Ok (set_timer self LeaderStopped)
  | _, _ => Ok self
  end.

(** A step of a task; the events of a connection have no effect in another state of its task. *)
Definition connection_next (self : Node) (e : Event) (i : nat) (conn : Connection) (now later : N) : outcome Node :=
  match e, task_state conn with
  | StartTask _, Starting => start_task self i conn now later
  | Message _ m, Receiving => receive_message self i conn m now later
  | NoMessage _, Receiving => Ok (with_connection self i (set_task conn Closing))
  | Reply _, Replying references missing => send_blocks self i conn references missing
  | Stream _, _ => match own_stream conn with Some stream => stream_own_blocks self i conn stream | None => Ok self end
  | Close _, Closing => close_task self i conn now later
  | _, _ => Ok self
  end.

Definition event_connection (e : Event) : option nat :=
  match e with
  | StartTask i | Message i _ | NoMessage i | Reply i | Stream i | Close i => Some i
  | _ => None
  end.

Definition node_next (self : Node) (e : Event) (now later : N) : outcome Node :=
  match e with
  | NewConnection peer room => Ok (new_connection self peer room)
  | FetcherReceive => Ok (mkNode (node_syncer self) (connections self) (fetcher_receive (block_fetcher self)) (leader_timer self))
  | FetcherSample env sample_time =>
      let '(fetcher, conns) :=
        sync_strategy env sample_time (block_fetcher self)
          (missing_blocks (core_block_manager (syncer_core (node_syncer self)))) (connections self) in
      Ok (mkNode (node_syncer self) conns fetcher (leader_timer self))
  | LeaderTimer _ _ | LeaderTimeout | LeaderNotified | LeaderStop => leader_next self e now later
  | CleanupTimeout => run_core self Cleanup now later
  | _ =>
      match event_connection e with
      | Some i => match connections self !! i with Some conn => connection_next self e i conn now later | None => Ok self end
      | None => Ok self
      end
  end.

(** [NetworkSyncer::start] *)
Definition start_node (core : Core) (period : N) (sg : Sg) (observer : C) (enable_synchronizer : bool) (now later : N)
    : outcome Node :=
  '(s, _) ← start_syncer cfg core period sg observer now later;
  Ok (mkNode s [] (BlockFetcherWorker_new (cc_authority cfg) enable_synchronizer) LeaderLoop).
End Node.

(** ** Commands are operations of the core *)

Section Commands.
Context {Wal H E Sg C : Type} `{WalLaws Wal} `{CodecLaws} `{CryptoLaws} `{BlockHandler H} `{PevmExecutor E}.
Context `{SyncerSignals Sg} {observer_ops : CommitObserver (StoreWriter (Wal := Wal)) C} (cfg : CoreConfig).

Notation Core := (Core (Wal := Wal) (H := H) (E := E)).
Notation Syncer := (Syncer Wal H E Sg C).
Notation c := (cc_committee cfg).

(** The core is the result of an honest run. *)
Definition honest_core (core : Core) : Prop := ∃ proposed n cv, honest_run cfg proposed n core cv.

Definition received_ok (b : StatementBlock) : Prop := verify b c = Ok true ∧ block_round b < u64_max.

Lemma honest_core_op core received new n' core' :
  (∀ n cv, ∃ cv', core_op cfg n core cv received new (n' n) core' cv') → Forall received_ok received →
  Forall (λ b, block_round b < u64_max) new → honest_core core → honest_core core'.
Proof.
  intros Hop Hr Hn (proposed & n & cv & Hrun). destruct (Hop n cv) as [cv' Hop'].
  eexists _, _, _. by eapply honest_op.
Qed.

Lemma with_pevm_own (core : Core) committed now core' :
  handle_committed_subdag_with_pevm cfg core committed now = Ok core' → last_proposed core' = last_proposed core.
Proof. intros Hrun. destruct (with_pevm_view _ _ _ _ _ Hrun) as (_ & _ & Hown & _). unfold last_proposed. by rewrite Hown. Qed.

Lemma commit_proposed (s : Syncer) later s' dags :
  syncer_commit cfg s later = Ok (s', dags) → last_proposed (syncer_core s') = last_proposed (syncer_core s).
Proof.
  unfold syncer_commit. intros ([core1 leaders] & Hc & Hs)%bind_ok.
  apply bind_ok in Hs as ([o d] & Hobs & Hs). apply bind_ok in Hs as (core2 & Hcom & Hs). injection Hs as <- _.
  destruct (try_commit_view _ _ _ _ Hc) as (_ & _ & Hown & _).
  transitivity (last_proposed core1); [|unfold last_proposed; by rewrite Hown].
  cbn [syncer_core]. destruct (core_pevm_executor core1); [by eapply with_pevm_own|].
  apply bind_ok in Hcom as ([core3 data] & Hcom & Heq). injection Heq as <-.
  by destruct (handle_committed_commits _ _ _ _ _ _ _ Hcom) as (_ & _ & _ & Hp).
Qed.

Lemma commit_honest (s : Syncer) later s' dags :
  syncer_commit cfg s later = Ok (s', dags) → honest_core (syncer_core s) → honest_core (syncer_core s').
Proof.
  unfold syncer_commit. intros ([core1 leaders] & Hc & Hs)%bind_ok Hh.
  apply bind_ok in Hs as ([o d] & Hobs & Hs). apply bind_ok in Hs as (core2 & Hcom & Hs). injection Hs as <- _.
  assert (Hh1 : honest_core core1).
  { eapply (honest_core_op _ [] [] id); [|done|done|exact Hh]. intros n cv. eexists. by eapply op_try_commit. }
  cbn [syncer_core]. destruct (core_pevm_executor core1).
  - eapply (honest_core_op _ [] [] id); [|done|done|exact Hh1]. intros n cv. eexists. by eapply op_committed_with_pevm.
  - apply bind_ok in Hcom as ([core3 data] & Hcom & Heq). injection Heq as <-.
    eapply (honest_core_op _ [] [] id); [|done|done|exact Hh1]. intros n cv. eexists. by eapply op_committed.
Qed.

Lemma try_new_block_honest (s : Syncer) now later s' dags :
  syncer_try_new_block cfg s now later = Ok (s', dags) → last_proposed (syncer_core s') < u64_max →
  honest_core (syncer_core s) → honest_core (syncer_core s').
Proof.
  unfold syncer_try_new_block. destruct (_ || _); [|by intros [= <- _]].
  intros ([core [b|]] & Hnew & Hs)%bind_ok Hmax Hh; [|apply try_new_block_None in Hnew as ->; by injection Hs as <- _].
  assert (Hb : last_proposed core = block_round b).
  { revert Hnew. unfold core_try_new_block. case_bool_decide; [done|].
    intros (refs & _ & Hrun)%bind_ok. apply bind_ok in Hrun as (first & _ & Hrun).
    do 2 apply bind_ok in Hrun as (? & _ & Hrun). apply bind_ok in Hrun as (clock & _ & Hrun).
    apply bind_ok in Hrun as (h & _ & Hrun). apply bind_ok in Hrun as (w & _ & Hrun).
    apply bind_ok in Hrun as (? & _ & Hrun). by injection Hrun as <- <-. }
  assert (Hh1 : block_round b < u64_max → honest_core core).
  { intros Hlt. eapply (honest_core_op _ [] [b] (λ _, 0%nat)); [|done|by repeat constructor|exact Hh].
    intros n cv. eexists. by eapply op_new_block. }
  destruct (epoch_closed core).
  - injection Hs as <- _. apply Hh1. by rewrite <-Hb.
  - pose proof (commit_proposed _ _ _ _ Hs) as Hp. cbn [syncer_core] in Hp. rewrite Hp, Hb in Hmax.
    eapply commit_honest; [exact Hs|by apply Hh1].
Qed.

Lemma force_honest (s : Syncer) round now later s' dags f :
  force_new_block cfg s round now later = Ok (s', dags, f) → last_proposed (syncer_core s') < u64_max →
  honest_core (syncer_core s) → honest_core (syncer_core s').
Proof.
  unfold force_new_block. case_bool_decide; [|by intros [= <- _ _]].
  intros ([s1 d] & Hs & Heq)%bind_ok Hmax Hh. injection Heq as <- _ _. by eapply try_new_block_honest.
Qed.

(** The blocks of a command. *)
Definition command_blocks (command : CoreThreadCommand) : list StatementBlock :=
  match command with AddBlocks blocks => blocks | _ => [] end.

Lemma command_honest (s : Syncer) command now later s' dags :
  run_command cfg s command now later = Ok (s', dags) → Forall received_ok (command_blocks command) →
  last_proposed (syncer_core s') < u64_max → honest_core (syncer_core s) → honest_core (syncer_core s').
Proof.
  destruct command as [blocks|round| | |a|a]; cbn [run_command command_blocks]; intros Hrun Hb Hmax Hh.
  - unfold syncer_add_blocks in Hrun. apply bind_ok in Hrun as ([core out] & Hadd & Hrun).
    eapply try_new_block_honest; [exact Hrun|done|]. cbn.
    eapply (honest_core_op _ blocks [] id); [|done|done|exact Hh]. intros n cv. eexists. by eapply op_add_blocks.
  - apply bind_ok in Hrun as ([[s1 d] f] & Hf & Heq). injection Heq as <- _. by eapply force_honest.
  - injection Hrun as <- _. cbn. eapply (honest_core_op _ [] [] id); [|done|done|exact Hh]. intros n cv. eexists. by eapply op_cleanup.
  - by injection Hrun as <- _.
  - by injection Hrun as <- _.
  - by injection Hrun as <- _.
Qed.

Lemma start_honest core period sg (o : C) now later (s : Syncer) dags :
  start_syncer cfg core period sg o now later = Ok (s, dags) → last_proposed (syncer_core s) < u64_max →
  honest_core core → honest_core (syncer_core s).
Proof.
  unfold start_syncer. intros ([core1 [committed state]] & Ht & Hs)%bind_ok Hmax Hh. apply bind_ok in Hs as (o1 & Ho & Hs).
  apply bind_ok in Hs as ([[s1 d] f] & Hf & Heq). injection Heq as <- _. eapply force_honest; [exact Hf|done|]. cbn.
  eapply (honest_core_op _ [] [] id); [|done|done|exact Hh]. intros n cv. eexists. by eapply op_take_recovered.
Qed.
End Commands.

(** ** Reading the shared store *)

Section Reading.
Context {Wal : Type} `{WalLaws Wal} `{CodecLaws}.
Notation StoreWriter := (StoreWriter (Wal := Wal)).

Lemma mapM_outcome_fmap {A B D} (g : A → B) (h : B → outcome D) l : mapM_outcome h (g <$> l) = mapM_outcome (h ∘ g) l.
Proof. induction l as [|x l IH]; [done|]. cbn [fmap list_fmap mapM_outcome]. by rewrite IH. Qed.

Definition own_entries (w : StoreWriter) (from_excluded : RoundNumber) (limit : N) : list (N * BlockDigest) :=
  take (N.to_nat limit) (filter (λ p, u64_add from_excluded 1 ≤ p.1) (btree_entries (own_blocks (sw_store w)))).
Definition own_ref (w : StoreWriter) (p : N * BlockDigest) : BlockReference := mkRef (store_authority (sw_store w)) p.1 p.2.

(** Reading own blocks never panics: the index of own blocks is not corrupted. *)
Lemma get_own_blocks_spec (w : StoreWriter) d from_excluded limit :
  reads w d →
  ∃ blocks, get_own_blocks w from_excluded limit = Ok blocks ∧
    Forall2 (λ p b, d !! own_ref w p = Some b) (own_entries w from_excluded limit) blocks.
Proof.
  intros (l & Hl & Hd & Hx). unfold get_own_blocks, store_get_own_blocks, inner_get_own_blocks. fold (own_entries w from_excluded limit).
  set (block p := default (mkBlock (mkRef 0 0 0) [] [] 0 false 0) (d !! own_ref w p)).
  set (entry p := default (OnDisk 0) (inner_get_block (sw_store w) (own_ref w p))).
  assert (Hin : ∀ p, p ∈ own_entries w from_excluded limit → is_Some (inner_get_block (sw_store w) (own_ref w p))).
  { intros [n dg] Hp. unfold own_entries in Hp. apply elem_of_take in Hp as (k & Hk & _). apply list_elem_of_lookup_2 in Hk.
    apply list_elem_of_filter in Hk as [_ Hk]. apply elem_of_btree_entries in Hk. by apply (io_own _ Hx). }
  exists (block <$> own_entries w from_excluded limit). split.
  - rewrite (mapM_outcome_ok _ _ entry).
    + cbn [mbind outcome_bind]. unfold read_index_vec. rewrite mapM_outcome_fmap. apply mapM_outcome_ok.
      intros p Hp. destruct (Hin p Hp) as [e He]. cbn. unfold entry, block. specialize (Hd (own_ref w p)). rewrite He in *.
      destruct Hd as (b & -> & Hb). exact (proj1 (entry_logged_denotes _ _ _ _ Hl Hb)).
    + intros [n dg] Hp. destruct (Hin _ Hp) as [e He]. unfold entry. unfold own_ref in *. cbn [fst snd] in *. by rewrite He.
  - apply Forall2_fmap_r, Forall_Forall2_diag, Forall_forall. intros p Hp. destruct (Hin p Hp) as [e He].
    specialize (Hd (own_ref w p)). rewrite He in Hd. destruct Hd as (b & Hb & _). cbn. unfold block. rewrite Hb. done.
Qed.

Lemma own_entries_rounds (w : StoreWriter) from_excluded limit p :
  p ∈ own_entries w from_excluded limit → from_excluded < u64_max → from_excluded < p.1.
Proof.
  intros Hp Hm. unfold own_entries in Hp. apply elem_of_take in Hp as (k & Hk & _). apply list_elem_of_lookup_2 in Hk.
  apply list_elem_of_filter in Hk as [Hk _]. rewrite u64_add_small in Hk by (unfold u64_max, u64_modulus in *; lia). lia.
Qed.
End Reading.

(** ** Requests *)

(** The environment orders sets and peers without inventing any. *)
Record sampling_ok (env : Sampling) : Prop := {
  so_order : ∀ s, set_order env s ≡ₚ elements s;
  so_shuffle : ∀ k l, shuffle env k l ≡ₚ l }.

Lemma chunks_fuel_spec {A} n (l : list A) : (0 < n)%nat → ∀ fuel, (length l ≤ fuel)%nat →
  mjoin (chunks_fuel fuel n l) = l ∧ Forall (λ ch, (0 < length ch ≤ n)%nat) (chunks_fuel fuel n l).
Proof.
  intros Hn fuel. revert l. induction fuel as [|fuel IH]; intros [|x l] Hl; cbn [chunks_fuel length] in *; [by split|lia|by split|].
  destruct (IH (drop n (x :: l))) as [Hj Hf]; [rewrite length_drop; cbn; lia|]. split.
  - transitivity (take n (x :: l) ++ mjoin (chunks_fuel fuel n (drop n (x :: l)))); [done|]. rewrite Hj. apply take_drop.
  - constructor; [|done]. rewrite length_take. cbn. lia.
Qed.

Lemma chunks_spec {A} n (l : list A) : (0 < n)%nat →
  mjoin (chunks n l) = l ∧ Forall (λ ch, (0 < length ch ≤ n)%nat) (chunks n l).
Proof. intros Hn. by apply chunks_fuel_spec. Qed.

(** The references that have been missing for the grace period. *)
Definition overdue (now grace : N) (missing : gmap BlockReference N) (r : BlockReference) : Prop :=
  grace ≤ now - default now (missing !! r).
#[global] Instance overdue_dec now grace missing r : Decision (overdue now grace missing r).
Proof. unfold overdue. apply _. Defined.

(** Only missing references are requested. *)
Lemma note_missing_elem now grace l : ∀ missing to_request missing' to_request',
  foldl (note_missing now grace) (missing, to_request) l = (missing', to_request') →
  ∀ r, r ∈ to_request' → r ∈ to_request ∨ r ∈ l.
Proof.
  induction l as [|x l IH]; intros missing to_request missing' to_request' Hf r Hr; cbn [foldl] in Hf.
  { injection Hf as _ <-. by left. }
  destruct (note_missing _ _ (missing, to_request) x) as [m1 acc1] eqn:Hx.
  destruct (IH _ _ _ _ Hf r Hr) as [Hin|Hin]; [|right; by right].
  unfold note_missing in Hx. case_bool_decide; injection Hx as _ <-; [|by left].
  apply elem_of_app in Hin as [Hin| ->%list_elem_of_singleton]; [by left|right; by left].
Qed.

Lemma filter_ext_elem {A} (P Q : A → Prop) `{!∀ x, Decision (P x)} `{!∀ x, Decision (Q x)} (l : list A) :
  (∀ x, x ∈ l → P x ↔ Q x) → filter P l = filter Q l.
Proof.
  induction l as [|x l IH]; intros Heq; [done|]. rewrite !filter_cons, IH by (intros; apply Heq; by right).
  rewrite (decide_ext (P x) (Q x)); [done|]. apply Heq. by left.
Qed.

Lemma elem_of_cons_decide {B} (r x : BlockReference) l (a b : B) :
  (if decide (r ∈ x :: l) then a else b) = if decide (r = x) then a else if decide (r ∈ l) then a else b.
Proof. repeat case_decide; set_solver. Qed.

Lemma note_missing_spec now grace l : NoDup l → ∀ missing to_request missing' to_request',
  foldl (note_missing now grace) (missing, to_request) l = (missing', to_request') →
  to_request' = to_request ++ filter (overdue now grace missing) l ∧
  ∀ r, missing' !! r = if decide (r ∈ l) then
                         if decide (overdue now grace missing r) then None else Some (default now (missing !! r))
                       else missing !! r.
Proof.
  induction 1 as [|x l Hx Hl IH]; intros missing to_request missing' to_request' Hf; cbn [foldl] in Hf.
  { injection Hf as <- <-. rewrite app_nil_r. split; [done|]. intros r. by rewrite decide_False by apply not_elem_of_nil. }
  unfold note_missing in Hf at 2. rewrite filter_cons. unfold overdue at 1.
  assert (Hsame : ∀ m, (∀ r, r ≠ x → m !! r = missing !! r) →
    filter (overdue now grace m) l = filter (overdue now grace missing) l).
  { intros m Hm. apply filter_ext_elem. intros r Hr. unfold overdue. rewrite Hm; [done|]. by intros ->. }
  case_bool_decide as Hg.
  - rewrite decide_True by done. apply IH in Hf as [-> Hm]. rewrite Hsame by (intros; by rewrite lookup_delete_ne).
    split; [by rewrite <-app_assoc|]. intros r. rewrite Hm. unfold overdue. rewrite elem_of_cons_decide.
    destruct (decide (r = x)) as [->|Hne].
    + rewrite (decide_False (P := x ∈ l)), lookup_delete_eq, decide_True by done. done.
    + pose proof (lookup_delete_ne missing x r ltac:(done)) as Heq. repeat case_decide; rewrite ?Heq in *; done.
  - rewrite decide_False by done. apply IH in Hf as [-> Hm]. rewrite Hsame by (intros; by rewrite lookup_insert_ne).
    split; [done|]. intros r. rewrite Hm. unfold overdue. rewrite elem_of_cons_decide.
    destruct (decide (r = x)) as [->|Hne].
    + rewrite (decide_False (P := x ∈ l)), lookup_insert_eq, decide_False by done. done.
    + pose proof (lookup_insert_ne missing x r (default now (missing !! x)) ltac:(done)) as Heq.
      repeat case_decide; rewrite ?Heq in *; done.
Qed.

(** ** Runs of the validator *)

Section Runs.
Context {Wal H E Sg C : Type} `{WalLaws Wal} `{CodecLaws} `{CryptoLaws} `{BlockHandler H} `{PevmExecutor E}.
Context `{SyncerSignals Sg} {observer_ops : CommitObserver (StoreWriter (Wal := Wal)) C} (cfg : CoreConfig).

Notation Core := (Core (Wal := Wal) (H := H) (E := E)).
Notation Syncer := (Syncer Wal H E Sg C).
Notation Node := (Node (Wal := Wal) (H := H) (E := E) (Sg := Sg) (C := C)).
Notation c := (cc_committee cfg).

(** The messages of an honest validator. *)
Definition honest_message (m : NetworkMessage) : Prop :=
  match m with
  | SubscribeOwnFrom round => round < u64_max
  | Block block => verify block c = Ok true ∧ block_round block < u64_max
  | RequestBlocks references =>
      (0 < length references ≤ MAXIMUM_BLOCK_REQUEST)%nat ∧ Forall (λ r, ¬ genesis_ref c r) references
  | BlockNotFound _ => True
  end.

(** What a step may assume: blocks are below the largest round, and the environment is. *)
Definition event_ok (e : Event) : Prop :=
  match e with
  | Message _ (Block block) => block_round block < u64_max
  | FetcherSample env _ => sampling_ok env
  | _ => True
  end.

(** A run: a core after an honest run is started, and the tasks take steps; the messages
    received are arbitrary. *)
Inductive node_run : list Event → Node → Prop :=
| node_start core period sg o enable now later self :
    honest_core cfg core → start_node cfg core period sg o enable now later = Ok self →
    last_proposed (syncer_core (node_syncer self)) < u64_max → node_run [] self
| node_step events self e now later self' :
    node_run events self → node_next cfg self e now later = Ok self' → event_ok e →
    last_proposed (syncer_core (node_syncer self')) < u64_max → node_run (events ++ [e]) self'.

(** *** The connections *)

Record conn_ok (events : list Event) (i : nat) (conn : Connection) : Prop := {
  co_sent : Forall honest_message (sent (sender conn));
  co_reply : ∀ references missing, task_state conn = Replying references missing →
    Forall (λ r, ¬ genesis_ref c r) references;
  co_stream : ∀ stream, own_stream conn = Some stream →
    stream_round stream < u64_max ∧ Forall (received_ok cfg) (stream_blocks stream);
  co_open : task_state conn = Closing ∨ task_state conn = Finished →
    NoMessage i ∈ events ∨ accepts (sender conn) = 0%nat }.

Definition heard_honest (events : list Event) (i : nat) : Prop := ∀ m, Message i m ∈ events → honest_message m.

Definition conns_ok (events : list Event) (conns : list Connection) : Prop :=
  ∀ i conn, conns !! i = Some conn → heard_honest events i → conn_ok events i conn.

Lemma conn_ok_mono events e i conn : conn_ok events i conn → conn_ok (events ++ [e]) i conn.
Proof. intros [Hs Hr Hst Ho]. split; [done..|]. intros [Hc|Hc]%Ho; [left; apply elem_of_app; by left|by right]. Qed.

Lemma heard_honest_mono events e i : heard_honest (events ++ [e]) i → heard_honest events i.
Proof. intros Hh m Hm. apply Hh, elem_of_app. by left. Qed.

Lemma conns_ok_mono events e conns : conns_ok events conns → conns_ok (events ++ [e]) conns.
Proof. intros Hc i conn Hi Hh. by eapply conn_ok_mono, Hc, heard_honest_mono. Qed.

Lemma conns_ok_insert events conns i conn' :
  conns_ok events conns → (heard_honest events i → conn_ok events i conn') → conns_ok events (<[i := conn']> conns).
Proof.
  intros Hc Hn j conn Hj Hh. apply list_lookup_insert_Some in Hj as [(<- & <- & _)|[_ Hj]]; [by apply Hn|by eapply Hc].
Qed.

Lemma conns_ok_alter events conns i f :
  conns_ok events conns → (∀ conn, conn_ok events i conn → conn_ok events i (f conn)) →
  conns_ok events (alter f i conns).
Proof.
  intros Hc Hn j conn Hj Hh. destruct (decide (i = j)) as [<-|Hne]; [|rewrite list_lookup_alter_ne in Hj by done; by eapply Hc].
  rewrite list_lookup_alter_eq in Hj. apply fmap_Some in Hj as (conn0 & Hi & ->). apply Hn. by eapply Hc.
Qed.

(** Sending an honest message. *)
Lemma send_then_ok events i conn m next otherwise :
  conn_ok events i conn → honest_message m →
  (∀ references missing, next = Replying references missing → Forall (λ r, ¬ genesis_ref c r) references) →
  (next = Closing ∨ next = Finished → NoMessage i ∈ events ∨ accepts (sender conn) = 0%nat) →
  (∀ references missing, otherwise = Replying references missing → Forall (λ r, ¬ genesis_ref c r) references) →
  conn_ok events i (send_then conn m next otherwise).
Proof.
  intros [Hs Hr Hst Ho] Hm Hn Hcl Hot. unfold send_then, send. destruct (accepts (sender conn)) as [|n] eqn:Ha.
  - split; cbn; [done|done|done|]. intros _. by right.
  - split; cbn; [|done|done|].
    + apply Forall_app. split; [done|]. by constructor.
    + intros [?|?]%Hcl; [by left|lia].
Qed.

Lemma permit_send_ok events i conn m : conn_ok events i conn → honest_message m → conn_ok events i (permit_send m conn).
Proof. intros Hc Hm. apply send_then_ok; [done|done|apply Hc|apply Hc|apply Hc]. Qed.

Lemma set_task_ok events i conn st :
  conn_ok events i conn →
  (∀ references missing, st = Replying references missing → Forall (λ r, ¬ genesis_ref c r) references) →
  (st = Closing ∨ st = Finished → NoMessage i ∈ events ∨ accepts (sender conn) = 0%nat) →
  conn_ok events i (set_task conn st).
Proof. intros [Hs Hr Hst Ho] Hre Hcl. by split. Qed.

Lemma set_stream_ok events i conn stream :
  conn_ok events i conn →
  (∀ st, stream = Some st → stream_round st < u64_max ∧ Forall (received_ok cfg) (stream_blocks st)) →
  conn_ok events i (set_stream conn stream).
Proof. intros [Hs Hr Hst Ho] Hnew. by split. Qed.

(** *** The fetcher *)

Lemma send_requests_ok events env fetcher requests : ∀ k conns,
  Forall (λ r, honest_message (RequestBlocks r)) requests → conns_ok events conns →
  conns_ok events (send_requests env fetcher k conns requests).
Proof.
  induction requests as [|r requests IH]; intros k conns Hr Hc; cbn [send_requests]; [done|].
  apply Forall_cons in Hr as [Hr Hrs]. destruct (sample_peer _ _ _ _ _) as [[a i]|]; [|done].
  apply IH; [done|]. apply conns_ok_alter; [done|]. intros conn Hok. by apply permit_send_ok.
Qed.

Lemma sync_strategy_ok events env now fetcher missing conns :
  sampling_ok env → (∀ s r, s ∈ missing → r ∈ s → ¬ genesis_ref c r) → conns_ok events conns →
  conns_ok events (sync_strategy env now fetcher missing conns).2.
Proof.
  intros [Ho _] Hm Hc. unfold sync_strategy. destruct (enable fetcher); [done|].
  destruct (foldl _ _ _) as [m' to_request] eqn:Hf. cbn [snd]. apply send_requests_ok; [|done].
  assert (Hreq : ∀ r, r ∈ to_request → ¬ genesis_ref c r).
  { intros r Hr. destruct (note_missing_elem _ _ _ _ _ _ _ Hf r Hr) as [Hin|Hin]; [by apply elem_of_nil in Hin|].
    apply list_elem_of_join in Hin as (l & Hl & Hin). apply list_elem_of_fmap in Hin as (s & -> & Hs).
    rewrite Ho in Hl. apply elem_of_elements in Hl. by eapply Hm. }
  destruct (chunks_spec MAXIMUM_BLOCK_REQUEST to_request) as [Hj Hlen]; [unfold MAXIMUM_BLOCK_REQUEST; lia|].
  apply Forall_forall. intros ch Hch. rewrite Forall_forall in Hlen. split; [by apply Hlen|]. apply Forall_forall.
  intros r Hr. apply Hreq. rewrite <-Hj. apply list_elem_of_join. eauto.
Qed.

(** *** What the store and the core give *)

Context (Hc : wf_committee c) (Hnd : no_dictator c).
Context (Hkey : get_public_key c (cc_authority cfg) = Some (signer_public_key (cc_signer cfg))).
Context (Hhandler : ∀ get (h : H) blocks respond h' stmts,
  handle_blocks get h blocks respond = Ok (h', stmts) → Forall (λ x, verify_statement x = true) stmts).

Lemma honest_core_prop core : honest_core cfg core → core_prop cfg core.
Proof using All. intros (proposed & n & cv & Hrun). by eapply (honest_run_prop cfg). Qed.

Lemma stored_ok b r : ok_stored c b → reference b = r → ¬ genesis_ref c r → received_ok cfg b.
Proof.
  intros (Ha & Hr & [Hg|[_ Hv]]) Href Hn; [|done]. destruct Hn. exists (author b). by rewrite <-Hg.
Qed.

Lemma stored_read core r b :
  honest_core cfg core → writer_get_block (core_writer core) r = Ok (Some b) → ¬ genesis_ref c r → received_ok cfg b.
Proof using All.
  intros (d & Hd & Hinv & _)%honest_core_prop Hget. rewrite (reads_get _ d) in Hget by done. injection Hget as Hget.
  destruct (pi_valid _ _ _ _ _ Hinv _ _ Hget) as [Href Hok]. by apply stored_ok.
Qed.

Lemma genesis_ref_round r : genesis_ref c r → br_round r = 0.
Proof. by intros (a & _ & ->). Qed.

Lemma own_read core from_excluded limit :
  honest_core cfg core → from_excluded < u64_max →
  ∃ blocks, get_own_blocks (core_writer core) from_excluded limit = Ok blocks ∧ Forall (received_ok cfg) blocks.
Proof using All.
  intros (d & Hd & Hinv & _)%honest_core_prop Hm.
  destruct (get_own_blocks_spec _ d from_excluded limit Hd) as (blocks & Hget & Hf). exists blocks. split; [done|].
  apply Forall_forall. intros b Hb. apply list_elem_of_lookup in Hb as [k Hk].
  destruct (Forall2_lookup_r _ _ _ _ _ Hf Hk) as (p & Hp & Hdp). apply list_elem_of_lookup_2 in Hp.
  destruct (pi_valid _ _ _ _ _ Hinv _ _ Hdp) as [Href Hok]. eapply stored_ok; [done|done|].
  intros Hz%genesis_ref_round. apply own_entries_rounds in Hp; [|done]. cbn in Hz. lia.
Qed.

Lemma last_seen_bound core a n :
  honest_core cfg core → last_seen_by_authority (sw_store (core_writer core)) a = Ok n → n < u64_max.
Proof using All.
  intros (d & (l & Hl & Hd & Hx) & Hinv & _)%honest_core_prop Hs. apply expect_ok in Hs.
  destruct (io_seen _ Hx _ _ Hs) as [->|(r & <- & [e He])]; [done|]. specialize (Hd r). rewrite He in Hd.
  destruct Hd as (b & Hb & _). destruct (pi_valid _ _ _ _ _ Hinv _ _ Hb) as [<- (_ & Hr & _)]. exact Hr.
Qed.

Lemma missing_read core s r :
  honest_core cfg core → s ∈ missing_blocks (core_block_manager core) → r ∈ s → ¬ genesis_ref c r.
Proof using All.
  intros (d & _ & _ & _ & Hm)%honest_core_prop Hs Hr. apply list_elem_of_lookup in Hs as [a Ha]. by eapply Hm.
Qed.

(** *** The steps *)

Definition node_ok (events : list Event) (self : Node) : Prop :=
  honest_core cfg (syncer_core (node_syncer self)) ∧ conns_ok events (connections self).

Definition bounded (self : Node) : Prop := last_proposed (syncer_core (node_syncer self)) < u64_max.

Lemma run_core_ok events self command now later self' :
  run_core cfg self command now later = Ok self' → Forall (received_ok cfg) (command_blocks command) → bounded self' →
  node_ok events self → node_ok events self'.
Proof.
  unfold run_core. intros ([s dags] & Hrun & Heq)%bind_ok Hb Hmax [Hh Hconn]. injection Heq as <-.
  split; [|done]. by eapply command_honest.
Qed.

Lemma with_connection_ok events self i conn :
  node_ok events self → (heard_honest events i → conn_ok events i conn) → node_ok events (with_connection self i conn).
Proof. intros [Hh Hconn] Hok. split; [done|]. by apply conns_ok_insert. Qed.

Lemma start_task_ok events self i conn now later self' :
  connections self !! i = Some conn → start_task cfg self i conn now later = Ok self' → bounded self' →
  node_ok events self → node_ok events self'.
Proof using All.
  intros Hi Hrun Hmax Hok. pose proof Hok as [Hh Hconn]. unfold start_task in Hrun. apply bind_ok in Hrun as (n & Hn & Hrun).
  apply last_seen_bound in Hn; [|done].
  assert (Hw : node_ok events (with_connection self i (send_then conn (SubscribeOwnFrom n) Receiving Finished))).
  { apply with_connection_ok; [done|]. intros Hhear. apply send_then_ok; [by eapply Hconn|done|done|by intros []|done]. }
  destruct (task_state (send_then _ _ _ _)); by injection Hrun as <-.
Qed.

Lemma receive_message_ok events self i conn m now later self' :
  connections self !! i = Some conn → task_state conn = Receiving → Message i m ∈ events →
  event_ok (Message i m) → receive_message cfg self i conn m now later = Ok self' → bounded self' →
  node_ok events self → node_ok events self'.
Proof.
  intros Hi Hst Hin Hev Hrun Hmax Hok. pose proof Hok as [Hh Hconn].
  destruct m as [round|block|references|references]; cbn [receive_message] in Hrun.
  - injection Hrun as <-. apply with_connection_ok; [done|]. intros Hhear. apply set_stream_ok; [by eapply Hconn|].
    intros st [= <-]. split; [exact (Hhear _ Hin)|constructor].
  - apply bind_ok in Hrun as ([|] & Hv & Hrun); [eapply run_core_ok; [exact Hrun|by repeat constructor|done|done]|].
    injection Hrun as <-. apply with_connection_ok; [done|]. intros Hhear. destruct (Hhear _ Hin) as [Hv' _]. congruence.
  - case_bool_decide as Hlen; injection Hrun as <-; (apply with_connection_ok; [done|]); intros Hhear;
      pose proof (Hhear _ Hin) as [Hl Hg]; [lia|].
    apply set_task_ok; [by eapply Hconn|by intros ? ? [= <- _]|by intros []].
  - by injection Hrun as <-.
Qed.

Lemma send_blocks_ok events self i conn references missing self' :
  connections self !! i = Some conn → task_state conn = Replying references missing →
  send_blocks self i conn references missing = Ok self' → node_ok events self → node_ok events self'.
Proof using All.
  intros Hi Hst Hrun Hok. pose proof Hok as [Hh Hconn]. destruct references as [|r references]; cbn [send_blocks] in Hrun.
  - injection Hrun as <-. apply with_connection_ok; [done|]. intros Hhear.
    apply send_then_ok; [by eapply Hconn|done|done|by intros []|done].
  - apply bind_ok in Hrun as (stored & Hget & Hrun). injection Hrun as <-. apply with_connection_ok; [done|]. intros Hhear.
    assert (Hco : conn_ok events i conn) by by eapply Hconn.
    pose proof (co_reply _ _ _ Hco _ _ Hst) as [Hr Hrs]%Forall_cons. destruct stored as [b|].
    + apply send_then_ok; [done|by eapply stored_read|by intros ? ? [= <- _]|by intros []|done].
    + apply set_task_ok; [done|by intros ? ? [= <- _]|by intros []].
Qed.

Lemma stream_own_blocks_ok events self i conn stream self' :
  connections self !! i = Some conn → own_stream conn = Some stream →
  stream_own_blocks self i conn stream = Ok self' → node_ok events self → node_ok events self'.
Proof using All.
  intros Hi Hst Hrun Hok. pose proof Hok as [Hh Hconn]. unfold stream_own_blocks in Hrun.
  destruct (stream_blocks stream) as [|b blocks] eqn:Hbl.
  - apply bind_ok in Hrun as (blocks & Hget & Hrun). injection Hrun as <-. apply with_connection_ok; [done|]. intros Hhear.
    assert (Hco : conn_ok events i conn) by by eapply Hconn. destruct (co_stream _ _ _ Hco _ Hst) as [Hr _].
    apply set_stream_ok; [done|]. intros st [= <-]. split; [done|]. cbn.
    destruct (own_read _ (stream_round stream) (batch_size SynchronizerParameters_default) Hh Hr) as (blocks' & Hget' & Hb).
    unfold block_store in Hget. rewrite Hget in Hget'. by injection Hget' as <-.
  - injection Hrun as <-. apply with_connection_ok; [done|]. intros Hhear.
    assert (Hco : conn_ok events i conn) by by eapply Hconn. destruct (co_stream _ _ _ Hco _ Hst) as [_ Hb].
    rewrite Hbl in Hb. apply Forall_cons in Hb as [Hb Hbs].
    apply set_stream_ok; [by apply permit_send_ok|]. intros st. destruct (send _ _); [|done]. intros [= <-]. by split; [apply Hb|].
Qed.

Lemma close_task_ok events self i conn now later self' :
  connections self !! i = Some conn → task_state conn = Closing →
  close_task cfg self i conn now later = Ok self' → bounded self' → node_ok events self → node_ok events self'.
Proof.
  intros Hi Hst Hrun Hmax Hok. pose proof Hok as [_ Hconn]. unfold close_task in Hrun. apply bind_ok in Hrun as (self1 & Hrun & Heq).
  injection Heq as <-. apply (run_core_ok events) in Hrun as Hok1; [|by constructor|exact Hmax|done]. destruct Hok1 as [Hh1 Hconn1].
  split; [done|]. cbn. apply conns_ok_insert; [done|]. intros Hhear. assert (Hco : conn_ok events i conn) by by eapply Hconn.
  split; [apply Hco|done|done|]. intros _. apply Hco. by left.
Qed.

Lemma connection_next_ok events self e i conn now later self' :
  connections self !! i = Some conn → event_connection e = Some i → e ∈ events → event_ok e →
  connection_next cfg self e i conn now later = Ok self' → bounded self' → node_ok events self → node_ok events self'.
Proof using All.
  intros Hi He Hin Hev Hrun Hmax Hok.
  destruct e; try done; injection He as ->; cbn [connection_next] in Hrun; destruct (task_state conn) as [| |refs missing| |] eqn:Hst;
    try (injection Hrun as <-; exact Hok);
    try (destruct (own_stream conn) as [stream|] eqn:Hs; [by eapply stream_own_blocks_ok|by injection Hrun as <-]).
  - by eapply start_task_ok.
  - by eapply receive_message_ok.
  - injection Hrun as <-. apply with_connection_ok; [done|]. intros Hhear. destruct Hok as [_ Hconn].
    apply set_task_ok; [by eapply Hconn|done|]. intros _. by left.
  - by eapply send_blocks_ok.
  - by eapply close_task_ok.
Qed.

Lemma new_connection_ok events self peer room : node_ok events self → node_ok events (new_connection self peer room).
Proof.
  intros Hok. unfold new_connection. destruct (forallb _ _); [|done]. destruct Hok as [Hh Hconn]. split; [done|].
  intros i conn Hi Hhear. cbn in Hi. apply lookup_app_Some in Hi as [Hi|[_ Hi]]; [by eapply Hconn|].
  apply list_lookup_singleton_Some in Hi as [_ <-]. split; [constructor|done|done|by intros []].
Qed.

Lemma leader_next_ok events self e now later self' :
  leader_next cfg self e now later = Ok self' → bounded self' → node_ok events self → node_ok events self'.
Proof.
  unfold leader_next. intros Hrun Hmax Hok.
  destruct e, (leader_timer self) as [|round shutdown|]; try (injection Hrun as <-; done).
  - injection Hrun as <-. unfold read_leader_timer. by destruct (shutdown_duration _ _ _) as [[|]|].
  - apply bind_ok in Hrun as (self1 & Hrun & Heq). injection Heq as <-.
    eapply run_core_ok in Hrun; [exact Hrun|by constructor|exact Hmax|done].
Qed.

Lemma node_next_ok events self e now later self' :
  node_next cfg self e now later = Ok self' → e ∈ events → event_ok e → bounded self' →
  node_ok events self → node_ok events self'.
Proof using All.
  intros Hrun Hin Hev Hmax Hok.
  assert (Hconn : ∀ i conn, connections self !! i = Some conn → event_connection e = Some i →
    connection_next cfg self e i conn now later = Ok self' → node_ok events self').
  { intros. by eapply connection_next_ok. }
  destruct e; cbn [node_next event_connection] in Hrun, Hconn;
    try (destruct (connections self !! i) as [conn|] eqn:Hi; [by eapply Hconn|by injection Hrun as <-]).
  - injection Hrun as <-. by apply new_connection_ok.
  - injection Hrun as <-. done.
  - destruct (sync_strategy _ _ _ _ _) as [fetcher conns] eqn:Hs. injection Hrun as <-. destruct Hok as [Hh Hcs]. split; [done|].
    cbn. replace conns with (fetcher, conns).2 by done. rewrite <-Hs. apply sync_strategy_ok; [done| |done].
    intros s r Hs' Hr. by eapply missing_read.
  - by eapply leader_next_ok.
  - by eapply leader_next_ok.
  - by eapply leader_next_ok.
  - by eapply leader_next_ok.
  - eapply run_core_ok; [exact Hrun|by constructor|done|done].
Qed.

Lemma node_run_ok events self : node_run events self → node_ok events self.
Proof using All.
  induction 1 as [core period sg o en now later self Hh Hs Hmax|events self e now later self' _ IH Hrun Hev Hmax].
  - unfold start_node in Hs. apply bind_ok in Hs as ([s dags] & Hs & Heq). injection Heq as <-. split; [by eapply start_honest|].
    by intros i conn Hi.
  - eapply node_next_ok; [exact Hrun|apply elem_of_app; right; by left|done|done|]. destruct IH as [Hh Hconn].
    split; [done|]. by apply conns_ok_mono.
Qed.
End Runs.

(** ** The fetcher, exactly *)

(** Sending a request on a connection. *)
Definition deliver (conns : list Connection) (x : nat * list BlockReference) : list Connection :=
  alter (permit_send (RequestBlocks x.2)) x.1 conns.

Lemma sample_peer_Some env self k conns a i :
  sampling_ok env → sample_peer env self k conns [fetcher_id self] = Some (a, i) →
  a ≠ fetcher_id self ∧ senders self !! a = Some i ∧ try_reserve (has_room env k i) conns i = true.
Proof.
  intros [_ Hs] Hf. unfold sample_peer in Hf. apply List.find_some in Hf as [Hin Hr]. apply list_elem_of_In in Hin.
  rewrite Hs in Hin. apply list_elem_of_filter in Hin as [Hne Hin]. apply elem_of_map_to_list in Hin. cbn in *. set_solver.
Qed.

Lemma sample_peer_None env self k conns :
  sampling_ok env → sample_peer env self k conns [fetcher_id self] = None →
  ∀ a i, a ≠ fetcher_id self → senders self !! a = Some i → try_reserve (has_room env k i) conns i = false.
Proof.
  intros [_ Hs] Hf a i Hne Ha. unfold sample_peer in Hf. refine (List.find_none _ _ Hf (a, i) _). apply list_elem_of_In.
  rewrite Hs. apply list_elem_of_filter. split; [set_solver|]. by apply elem_of_map_to_list.
Qed.

Lemma send_requests_spec env self requests : sampling_ok env → ∀ k conns,
  ∃ targets, send_requests env self k conns requests = foldl deliver conns (zip targets requests) ∧
    (length targets ≤ length requests)%nat ∧
    Forall (λ i, ∃ a, a ≠ fetcher_id self ∧ senders self !! a = Some i) targets ∧
    ((length targets < length requests)%nat → ∀ a i, a ≠ fetcher_id self → senders self !! a = Some i →
       try_reserve (has_room env (k + length targets) i) (send_requests env self k conns requests) i = false).
Proof.
  intros Hs. induction requests as [|r requests IH]; intros k conns; cbn [send_requests].
  { exists []. split_and!; [done|done|constructor|cbn; lia]. }
  destruct (sample_peer env self k conns [fetcher_id self]) as [[a i]|] eqn:Hp.
  - destruct (sample_peer_Some _ _ _ _ _ _ Hs Hp) as (Hne & Ha & _).
    destruct (IH (Datatypes.S k) (alter (permit_send (RequestBlocks r)) i conns)) as (targets & Heq & Hlen & Hall & Hstop).
    exists (i :: targets). split_and!; [done|cbn; lia|constructor; [by eauto|done]|].
    intros Hlt a' i' Hne' Ha'. cbn [length] in *. replace (k + Datatypes.S (length targets))%nat with (Datatypes.S k + length targets)%nat by lia.
    apply Hstop with a'; [lia|done|done].
  - exists []. split_and!; [done|cbn; lia|constructor|]. intros _ a i Hne Ha. cbn [length]. rewrite Nat.add_0_r.
    by eapply sample_peer_None.
Qed.

Lemma set_order_permutation env missing : sampling_ok env →
  mjoin (set_order env <$> missing) ≡ₚ mjoin (elements <$> missing).
Proof.
  intros [Ho _]. induction missing as [|s missing IH]; [done|]. cbn. apply Permutation_app; [apply Ho|exact IH].
Qed.


(** ** Two validators

    [pair_run]: two validators take steps; on the connection between them, number [ia] of the one and [ib] of
    the other, each receives what the other has sent, on the other connections anything. *)

Section Pair.
Context {Wal H E Sg C : Type} `{WalLaws Wal} `{CodecLaws} `{CryptoLaws} `{BlockHandler H} `{PevmExecutor E}.
Context `{SyncerSignals Sg} {observer_ops : CommitObserver (StoreWriter (Wal := Wal)) C}.
Notation Node := (Node (Wal := Wal) (H := H) (E := E) (Sg := Sg) (C := C)).

Definition has_sent (self : Node) (i : nat) (m : NetworkMessage) : Prop :=
  ∃ conn, connections self !! i = Some conn ∧ m ∈ sent (sender conn).

Inductive pair_run (cfga cfgb : CoreConfig) (ia ib : nat) : list Event → Node → list Event → Node → Prop :=
| pair_start a b : node_run cfga [] a → node_run cfgb [] b → pair_run cfga cfgb ia ib [] a [] b
| pair_left ea a eb b e now later a' :
    pair_run cfga cfgb ia ib ea a eb b → node_next cfga a e now later = Ok a' → event_ok e →
    last_proposed (syncer_core (node_syncer a')) < u64_max → (∀ m, e = Message ia m → has_sent b ib m) →
    pair_run cfga cfgb ia ib (ea ++ [e]) a' eb b
| pair_right ea a eb b e now later b' :
    pair_run cfga cfgb ia ib ea a eb b → node_next cfgb b e now later = Ok b' → event_ok e →
    last_proposed (syncer_core (node_syncer b')) < u64_max → (∀ m, e = Message ib m → has_sent a ia m) →
    pair_run cfga cfgb ia ib ea a (eb ++ [e]) b'.

Lemma honest_message_committee cfga cfgb m :
  cc_committee cfga = cc_committee cfgb → honest_message cfga m → honest_message cfgb m.
Proof. intros Heq. unfold honest_message. by rewrite Heq. Qed.

Lemma heard_honest_snoc cfg events e i :
  heard_honest cfg events i → (∀ m, e = Message i m → honest_message cfg m) → heard_honest cfg (events ++ [e]) i.
Proof. intros Hh He m [Hm|Hm%list_elem_of_singleton]%elem_of_app; [by apply Hh|by apply He]. Qed.

(** What an honest validator has said on a connection where it heard only honest messages. *)
Lemma has_sent_honest cfg events (self : Node) i m :
  node_ok cfg events self → heard_honest cfg events i → has_sent self i m → honest_message cfg m.
Proof.
  intros [_ Hconn] Hh (conn & Hi & Hm). pose proof (co_sent _ _ _ _ (Hconn i conn Hi Hh)) as Hs.
  rewrite Forall_forall in Hs. by apply Hs.
Qed.

Context (cfga cfgb : CoreConfig).
Context (Hca : wf_committee (cc_committee cfga)) (Hnd : no_dictator (cc_committee cfga)).
Context (Hsame : cc_committee cfga = cc_committee cfgb).
Context (Hka : get_public_key (cc_committee cfga) (cc_authority cfga) = Some (signer_public_key (cc_signer cfga))).
Context (Hkb : get_public_key (cc_committee cfgb) (cc_authority cfgb) = Some (signer_public_key (cc_signer cfgb))).
Context (Hhandler : ∀ get (h : H) blocks respond h' stmts,
  handle_blocks get h blocks respond = Ok (h', stmts) → Forall (λ x, verify_statement x = true) stmts).

Lemma pair_run_ok ia ib ea a eb b : pair_run cfga cfgb ia ib ea a eb b →
  (node_run cfga ea a ∧ heard_honest cfga ea ia) ∧ node_run cfgb eb b ∧ heard_honest cfgb eb ib.
Proof using All.
  assert (Hcb : wf_committee (cc_committee cfgb)) by by rewrite <-Hsame.
  assert (Hndb : no_dictator (cc_committee cfgb)) by by rewrite <-Hsame.
  induction 1 as [a b Ha Hb|ea a eb b e now later a' _ [[Ha Hea] [Hb Heb]] Hn He Hm Hs|ea a eb b e now later b' _ [[Ha Hea] [Hb Heb]] Hn He Hm Hs].
  - split_and!; [done| |done|]; intros m Hm; by apply elem_of_nil in Hm.
  - split_and!; [by eapply node_step| |done|done]. apply heard_honest_snoc; [done|]. intros m Hem.
    apply (honest_message_committee cfgb); [done|]. eapply has_sent_honest; [by eapply node_run_ok|done|by apply Hs].
  - split_and!; [done|done|by eapply node_step|]. apply heard_honest_snoc; [done|]. intros m Hem.
    apply (honest_message_committee cfga); [done|]. eapply has_sent_honest; [by eapply node_run_ok|done|by apply Hs].
Qed.
End Pair.

(** ** Theorems *)



(** ** A run of the sample validator

    A peer subscribes, gets the first own block, sends a block and asks for it. *)

Section Running.
Context {Wal H E Sg C : Type} `{WalLaws Wal} `{CodecLaws} `{CryptoLaws} `{BlockHandler H} `{PevmExecutor E}.
Context `{SyncerSignals Sg} {observer_ops : CommitObserver (StoreWriter (Wal := Wal)) C} (cfg : CoreConfig).
Notation Node := (Node (Wal := Wal) (H := H) (E := E) (Sg := Sg) (C := C)).

Definition run_events (self : Node) (now later : N) (events : list Event) : outcome Node :=
  foldM (λ self e,
           self ← node_next cfg self e now later;
           _ ← rust_assert (bool_decide (last_proposed (syncer_core (node_syncer self)) < u64_max));
           Ok self) self events.

Lemma run_events_run now later l : ∀ events (self self' : Node),
  node_run cfg events self → run_events self now later l = Ok self' → Forall event_ok l → node_run cfg (events ++ l) self'.
Proof.
  induction l as [|e l IH]; intros events self self' Hrun Hf Hok; unfold run_events in Hf; cbn [foldM] in Hf.
  { injection Hf as <-. by rewrite app_nil_r. }
  apply bind_ok in Hf as (self1 & Hstep & Hf). apply bind_ok in Hstep as (self2 & Hnext & Hstep).
  apply bind_ok in Hstep as (? & Has & Hstep). injection Hstep as ->. apply Forall_cons in Hok as [He Hok].
  replace (events ++ e :: l) with ((events ++ [e]) ++ l) by by rewrite <-app_assoc. apply (IH _ self1); [|done|done].
  eapply node_step; [done|exact Hnext|done|]. unfold rust_assert in Has. by case_bool_decide.
Qed.

(** A run of two validators, with the conditions of [pair_run] checked; [true] is a step of the first. *)
Definition sent_by (self : Node) (i : nat) (m : NetworkMessage) : bool :=
  match connections self !! i with Some conn => bool_decide (m ∈ sent (sender conn)) | None => false end.
Definition heard_ok (other : Node) (own_i other_i : nat) (e : Event) : bool :=
  match e with
  | Message i m => bool_decide (i ≠ own_i) || sent_by other other_i m
  | _ => true
  end.

Definition run_pair (cfga cfgb : CoreConfig) (ia ib : nat) (now later : N) (st : Node * Node) (l : list (bool * Event))
    : outcome (Node * Node) :=
  foldM (λ '(a, b) '(first, e),
           let cfg := if first : bool then cfga else cfgb in
           let self := if first then a else b in
           _ ← rust_assert (if first then heard_ok b ia ib e else heard_ok a ib ia e);
           self ← node_next cfg self e now later;
           _ ← rust_assert (bool_decide (last_proposed (syncer_core (node_syncer self)) < u64_max));
           Ok (if first then (self, b) else (a, self))) st l.

Definition events_of (first : bool) (l : list (bool * Event)) : list Event := (filter (λ x, x.1 = first) l).*2.

Lemma heard_ok_sent (other : Node) own_i other_i e m : heard_ok other own_i other_i e = true → e = Message own_i m → has_sent other other_i m.
Proof.
  intros Hok ->. cbn in Hok. rewrite bool_decide_false in Hok by (intros Hn; by apply Hn). cbn in Hok. unfold sent_by in Hok.
  destruct (connections other !! other_i) as [conn|] eqn:Hc; [|done]. exists conn. split; [done|]. by apply bool_decide_eq_true in Hok.
Qed.

Lemma rust_assert_true b u : rust_assert b = Ok u → b = true.
Proof. by destruct b. Qed.

Lemma run_pair_run cfga cfgb ia ib now later l : ∀ ea a eb b a' b',
  pair_run cfga cfgb ia ib ea a eb b → run_pair cfga cfgb ia ib now later (a, b) l = Ok (a', b') → Forall (λ x, event_ok x.2) l →
  pair_run cfga cfgb ia ib (ea ++ events_of true l) a' (eb ++ events_of false l) b'.
Proof.
  induction l as [|[first e] l IH]; intros ea a eb b a' b' Hrun Hf Hok; unfold run_pair in Hf; cbn [foldM] in Hf.
  { injection Hf as <- <-. unfold events_of. cbn. by rewrite !app_nil_r. }
  apply Forall_cons in Hok as [He Hok]. cbn in He. apply bind_ok in Hf as ([a1 b1] & Hstep & Hf).
  apply bind_ok in Hstep as (u & Hheard & Hstep). apply bind_ok in Hstep as (self & Hnext & Hstep).
  apply bind_ok in Hstep as (u' & Hmax & Heq). apply rust_assert_true in Hheard, Hmax. apply bool_decide_eq_true in Hmax.
  unfold events_of. rewrite !filter_cons. destruct first; injection Heq as <- <-; cbn [fst].
  - rewrite decide_True, decide_False by done. cbn [fmap list_fmap snd]. fold (events_of true l) (events_of false l).
    replace (ea ++ e :: events_of true l) with ((ea ++ [e]) ++ events_of true l) by by rewrite <-app_assoc.
    eapply (IH _ self); [|done|done]. eapply pair_left; [done|done|done|done|]. intros m. by apply heard_ok_sent.
  - rewrite decide_False, decide_True by done. cbn [fmap list_fmap snd]. fold (events_of true l) (events_of false l).
    replace (eb ++ e :: events_of false l) with ((eb ++ [e]) ++ events_of false l) by by rewrite <-app_assoc.
    eapply (IH _ a _ self); [|done|done]. eapply pair_right; [done|done|done|done|]. intros m. by apply heard_ok_sent.
Qed.
End Running.

#[local] Existing Instance sample_votes.

Notation sample_node := (Node (Wal := WalWriter) (H := N) (E := N) (Sg := bool) (C := sample_observer)).

Definition no_node : sample_node := mkNode no_syncer [] (BlockFetcherWorker_new 3 false) LeaderLoop.
Definition sample_node0 : sample_node := ok_or no_node (start_node sample_cfg run_core0 1 false fresh_observer false 7 8).
Definition sample_received_block : StatementBlock := default sample_block (run_round1 !! 0%nat).
Definition sample_events : list Event :=
  [NewConnection 0 9; StartTask 0; Message 0 (SubscribeOwnFrom 0); Stream 0; Stream 0;
   Message 0 (Block sample_received_block); Message 0 (RequestBlocks [reference sample_received_block; mkRef 1 1 9]);
   Reply 0; Reply 0; Reply 0].
Definition sample_node1 : sample_node := ok_or no_node (run_events sample_cfg sample_node0 7 8 sample_events).

Lemma sample_node_start : node_run sample_cfg [] sample_node0.
Proof.
  apply (node_start sample_cfg run_core0 1 false fresh_observer false 7 8).
  - eexists _, _, _. exact (honest_start sample_cfg _ _ _ _ sample_log_nil run_core0_eq).
  - apply ok_or_eq. vm_compute. reflexivity.
  - vm_compute. reflexivity.
Qed.

Lemma sample_node_run : node_run sample_cfg sample_events sample_node1.
Proof.
  apply (run_events_run sample_cfg 7 8 sample_events [] sample_node0).
  - exact sample_node_start.
  - apply ok_or_eq. vm_compute. reflexivity.
  - repeat constructor; vm_compute; reflexivity.
Qed.


(** Authority 0 and authority 3 connect, subscribe and send one another their first blocks. *)
Definition peer_cfg : CoreConfig := mkCoreConfig 0 four_equal true (0 : Signer) 1000 (cc_committer sample_cfg).
Definition peer_core0 : sample_core := ok_or closed_core (restart peer_cfg (mkWalWriter [] 0) 0 None).
Definition peer_node0 : sample_node := ok_or no_node (start_node peer_cfg peer_core0 1 false fresh_observer false 7 8).

Definition first_proposal (self : sample_node) : StatementBlock := own_block (core_last_own_block (syncer_core (node_syncer self))).
Definition pair_events : list (bool * Event) :=
  [(true, NewConnection 0 9); (true, StartTask 0); (false, NewConnection 3 9); (false, StartTask 0);
   (true, Message 0 (SubscribeOwnFrom 0)); (true, Stream 0); (true, Stream 0);
   (false, Message 0 (SubscribeOwnFrom 0)); (false, Stream 0); (false, Stream 0);
   (false, Message 0 (Block (first_proposal sample_node0))); (true, Message 0 (Block (first_proposal peer_node0)))].
Definition pair_final : sample_node * sample_node :=
  ok_or (no_node, no_node) (run_pair sample_cfg peer_cfg 0 0 7 8 (sample_node0, peer_node0) pair_events).

Lemma sample_pair_run :
  pair_run sample_cfg peer_cfg 0 0 (events_of true pair_events) pair_final.1 (events_of false pair_events) pair_final.2.
Proof.
  apply (run_pair_run sample_cfg peer_cfg 0 0 7 8 pair_events [] sample_node0 [] peer_node0).
  - apply pair_start; [exact sample_node_start|].
    apply (node_start peer_cfg peer_core0 1 false fresh_observer false 7 8).
    + eexists _, _, _. refine (honest_start peer_cfg (mkWalWriter [] 0) 0 None _ sample_log_nil _). apply ok_or_eq. vm_compute. reflexivity.
    + apply ok_or_eq. vm_compute. reflexivity.
    + vm_compute. reflexivity.
  - rewrite <-surjective_pairing. apply ok_or_eq. vm_compute. reflexivity.
  - repeat constructor; vm_compute; reflexivity.
Qed.

Definition sample_connection : Connection :=
  default (mkConnection 0 (mkChannel [] 0) Starting None) (connections pair_final.1 !! 0%nat).


(** The third reference was first missing less than the grace period ago. *)
Definition sample_fetcher : BlockFetcherWorker :=
  mkFetcher 3 [] {[0 := 0%nat; 3 := 1%nat]} SynchronizerParameters_default
    {[mkRef 0 4 1 := from_secs 10; mkRef 1 4 1 := from_secs 9; mkRef 2 4 1 := from_secs 20]} false.
Definition sample_sampling : Sampling := mkSampling elements (λ _ l, reverse l) (λ _ _, true).

