(* ===== verification/GraphCycle.v ===== *)
(** * Cycle detection

    [TransactionGraph::has_cycle] of src/pevm/crates/pevm/src/dependency_graph.rs: a depth-first
    search that keeps the visited nodes, the nodes on the recursion stack and the path to the
    current node, which it prints when it meets a node of the stack again. A call visits a new node, so the
    number of nodes plus one is enough fuel. *)

From S2P Require Import Prelude Graph.

Record Search := mkSearch { visited : list bool; rec_stack : list bool; path : list nat }.

(** Writing to an element of a vector. *)
Definition set_at (l : list bool) (i : nat) (b : bool) : outcome (list bool) :=
  _ ← expect (l !! i); Ok (<[i := b]> l).

Definition enter (st : Search) (node_idx : nat) : outcome Search :=
  v ← set_at (visited st) node_idx true;
  r ← set_at (rec_stack st) node_idx true;
  Ok (mkSearch v r (path st ++ [node_idx])).

Definition leave (st : Search) (node_idx : nat) : outcome Search :=
  r ← set_at (rec_stack st) node_idx false;
  Ok (mkSearch (visited st) r (removelast (path st))).

(** The iteration for a child; [visit] is the recursive call. The position of the child on the path is
    needed for the message. *)
Definition visit_child (visit : Search → nat → outcome (bool * Search)) (acc : bool * Search) (child_idx : nat)
    : outcome (bool * Search) :=
  let '(found, st) := acc in
  if (found : bool) then Ok (true, st)
  else
    v ← expect (visited st !! child_idx);
    if negb v then visit st child_idx
    else
      on_stack ← expect (rec_stack st !! child_idx);
      if (on_stack : bool) then
        _ ← expect (list_find (λ i, i = child_idx) (path st)); Ok (true, st)
      else Ok (false, st).

Fixpoint dfs (fuel : nat) (ns : list TransactionNode) (st : Search) (node_idx : nat) : outcome (bool * Search) :=
  match fuel with
  | O => OutOfFuel
  | S fuel =>
      st ← enter st node_idx;
      node ← expect (ns !! node_idx);
      '(found, st) ← foldM (visit_child (dfs fuel ns)) (false, st) (children_indices node);
      if (found : bool) then Ok (true, st)
      else st ← leave st node_idx; Ok (false, st)
  end.

(** The iteration of the outer loop; every search starts with an empty path. *)
Definition visit_start (ns : list TransactionNode) (acc : bool * Search) (i : nat) : outcome (bool * Search) :=
  let '(found, st) := acc in
  if (found : bool) then Ok (true, st)
  else
    v ← expect (visited st !! i);
    if negb v then dfs (S (length ns)) ns (mkSearch (visited st) (rec_stack st) []) i else Ok (false, st).

Definition has_cycle (g : TransactionGraph) : outcome bool :=
  let n := length (nodes g) in
  '(found, _) ← foldM (visit_start (nodes g)) (false, mkSearch (replicate n false) (replicate n false) []) (seq 0 n);
  Ok found.

(** ** Correctness *)

Section cycle.
Context (ns : list TransactionNode).
Notation E := (edge_in ns).
Context (Hrange : ∀ i j, E i j → (j < length ns)%nat).

Definition marked (l : list bool) (i : nat) : Prop := l !! i = Some true.

(** A visited node that is not on the stack is finished. *)
Definition finished (st : Search) (x : nat) : Prop := marked (visited st) x ∧ x ∉ path st.

(** Consecutive nodes of the path are connected. *)
Definition chain (p : list nat) : Prop := ∀ k x y, p !! k = Some x → p !! S k = Some y → E x y.

Record search_inv (st : Search) : Prop := {
  si_visited : length (visited st) = length ns;
  si_stack_len : length (rec_stack st) = length ns;
  si_stack : ∀ x, marked (rec_stack st) x ↔ x ∈ path st;
  si_path : ∀ x, x ∈ path st → marked (visited st) x;
  si_nodup : NoDup (path st);
  si_chain : chain (path st);
  si_closed : ∀ x y, finished st x → E x y → finished st y;
  si_acyclic : ∀ x, finished st x → ¬ tc E x x }.

(** A finished node reaches only finished nodes. *)
Lemma finished_reach st x y : search_inv st → finished st x → tc E x y → finished st y.
Proof.
  intros Hinv Hx Hxy. induction Hxy as [x y Hxy|x y z Hxy _ IH]; [by eapply si_closed|]. apply IH. by eapply si_closed.
Qed.

Definition grows (v v' : list bool) : Prop := ∀ i, marked v i → marked v' i.

(** The unvisited nodes. *)
Definition unvisited (v : list bool) : nat := length (filter (λ b, b = false) v).

Lemma unvisited_insert v i : v !! i = Some false → S (unvisited (<[i := true]> v)) = unvisited v.
Proof.
  unfold unvisited. revert i. induction v as [|b v IH]; intros [|i] Hi; [done|done|..]; cbn in Hi.
  - injection Hi as ->. done.
  - change (<[S i := true]> (b :: v)) with (b :: <[i := true]> v). rewrite !filter_cons. specialize (IH i Hi). destruct (decide (b = false)); cbn [length]; lia.
Qed.

Lemma unvisited_mono v : ∀ v', length v = length v' → grows v v' → (unvisited v' ≤ unvisited v)%nat.
Proof.
  unfold unvisited. induction v as [|b v IH]; intros [|b' v'] Hl Hg; try done. injection Hl as Hl.
  specialize (IH v' Hl (λ i, Hg (S i))). rewrite !filter_cons. specialize (Hg 0%nat). unfold marked in Hg. cbn in Hg.
  destruct (decide (b = false)), (decide (b' = false)); cbn [length]; try lia. destruct b; [|done]. specialize (Hg eq_refl). congruence.
Qed.

(** Entering an unvisited node that the path leads to. *)
Lemma enter_spec st i :
  search_inv st → visited st !! i = Some false → (∀ x, last (path st) = Some x → E x i) →
  ∃ st', enter st i = Ok st' ∧ path st' = path st ++ [i] ∧ grows (visited st) (visited st') ∧
    S (unvisited (visited st')) = unvisited (visited st) ∧ length (visited st') = length (visited st) ∧ search_inv st'.
Proof.
  intros [Hv Hsl Hs Hp Hnd Hch Hcl Hac] Hi Hlast. unfold enter, set_at. rewrite Hi. cbn [expect mbind outcome_bind].
  assert (Hlt : (i < length ns)%nat) by (rewrite <-Hv; by eapply lookup_lt_Some).
  destruct (lookup_lt_is_Some_2 (rec_stack st) i) as [r Hr]; [lia|]. rewrite Hr. cbn [expect mbind outcome_bind].
  assert (Hni : i ∉ path st) by (intros Hin%Hp; unfold marked in Hin; congruence).
  eexists. split; [done|]. cbn [path visited rec_stack]. split_and!; [done| |by apply unvisited_insert|by rewrite length_insert|].
  - intros x Hx. unfold marked. destruct (decide (i = x)) as [<-|]; [rewrite list_lookup_insert_eq; [done|lia]|].
    by rewrite list_lookup_insert_ne.
  - assert (Hfin : ∀ x, finished (mkSearch (<[i := true]> (visited st)) (<[i := true]> (rec_stack st)) (path st ++ [i])) x ↔ finished st x).
    { intros x. unfold finished, marked. cbn [path visited]. rewrite elem_of_app, list_elem_of_singleton.
      destruct (decide (i = x)) as [<-|Hne]; [rewrite Hi; naive_solver|]. rewrite list_lookup_insert_ne by done. naive_solver. }
    split; cbn [path visited rec_stack]; rewrite ?length_insert; try done.
    + intros x. unfold marked. rewrite elem_of_app, list_elem_of_singleton, <-Hs. unfold marked.
      destruct (decide (i = x)) as [<-|Hne]; [rewrite list_lookup_insert_eq by lia; naive_solver|].
      rewrite list_lookup_insert_ne by done. naive_solver.
    + intros x. rewrite elem_of_app, list_elem_of_singleton. unfold marked.
      destruct (decide (i = x)) as [<-|Hne]; [rewrite list_lookup_insert_eq by lia; done|].
      rewrite list_lookup_insert_ne by done. intros [Hx|]; [by apply Hp|done].
    + apply NoDup_app. split_and!; [done|intros x Hx ->%list_elem_of_singleton; done|apply NoDup_singleton].
    + intros k x y Hx Hy. apply lookup_app_Some in Hy as [Hy|[Hge Hy]].
      * rewrite lookup_app_l in Hx by (apply lookup_lt_Some in Hy; lia). by eapply Hch.
      * apply list_lookup_singleton_Some in Hy as [Hz <-]. assert (Hk : k = pred (length (path st))) by lia.
        rewrite lookup_app_l in Hx by lia. apply Hlast. rewrite last_lookup. by rewrite <-Hk.
    + intros x y Hx Hxy. apply Hfin. apply Hfin in Hx. by eapply Hcl.
    + intros x Hx. by apply Hac, Hfin.
Qed.

(** Leaving the last node of the path when its children are finished. *)
Lemma leave_spec st p i :
  search_inv st → path st = p ++ [i] → (∀ y, E i y → finished st y) →
  ∃ st', leave st i = Ok st' ∧ path st' = p ∧ visited st' = visited st ∧ search_inv st'.
Proof.
  intros Hinv Hpath Hch. pose proof Hinv as [Hv Hsl Hs Hp Hnd Hc Hcl Hac].
  assert (Hin : i ∈ path st) by (rewrite Hpath; apply elem_of_app; right; by left).
  pose proof (proj2 (Hs i) Hin) as Hri. unfold leave, set_at. unfold marked in Hri. rewrite Hri. cbn [expect mbind outcome_bind].
  assert (Hlt : (i < length (rec_stack st))%nat) by by eapply lookup_lt_Some.
  rewrite Hpath in Hnd. apply NoDup_app in Hnd as (Hndp & Hdis & _).
  assert (Hni : i ∉ p) by (intros Hi; apply (Hdis i Hi); by left).
  eexists. split; [done|]. cbn [path visited rec_stack]. rewrite Hpath, removelast_last. split_and!; [done|done|].
  assert (Hfin : ∀ x, finished (mkSearch (visited st) (<[i := false]> (rec_stack st)) p) x ↔ finished st x ∨ x = i).
  { intros x. unfold finished. cbn [path visited]. rewrite Hpath, elem_of_app, list_elem_of_singleton.
    specialize (Hp i Hin). destruct (decide (x = i)) as [->|]; naive_solver. }
  split; cbn [path visited rec_stack]; rewrite ?length_insert; try done.
  - intros x. unfold marked. destruct (decide (i = x)) as [<-|Hne]; [rewrite list_lookup_insert_eq by done; naive_solver|].
    rewrite list_lookup_insert_ne by done. specialize (Hs x). unfold marked in Hs. rewrite Hs, Hpath, elem_of_app, list_elem_of_singleton. naive_solver.
  - intros x Hx. apply Hp. rewrite Hpath. apply elem_of_app. by left.
  - intros k x y Hx Hy. apply (Hc k); rewrite Hpath, lookup_app_l; try done; by eapply lookup_lt_Some.
  - intros x y [Hx| ->]%Hfin Hxy; apply Hfin; left; [by eapply Hcl|by apply Hch].
  - intros x [Hx| ->]%Hfin; [by apply Hac|]. intros Hii.
    assert (Hfi : finished st i).
    { inversion Hii as [? ? Hone|? y ? Hone Hrest]; subst; [by apply Hch|]. eapply finished_reach; [exact Hinv|by apply Hch|exact Hrest]. }
    destruct Hfi as [_ Hfi]. done.
Qed.

(** What a search from a node does. *)
Definition visit_ok (st : Search) (i : nat) (r : outcome (bool * Search)) : Prop :=
  ∃ found st', r = Ok (found, st') ∧ (found = true → ∃ x, tc E x x) ∧
    (found = false → search_inv st' ∧ path st' = path st ∧ grows (visited st) (visited st') ∧ finished st' i).

(** A path from one of its nodes to the last one. *)
Lemma chain_reach p k x y : chain p → p !! k = Some x → last p = Some y → rtc E x y.
Proof.
  intros Hch Hk Hl. remember (pred (length p) - k)%nat as m eqn:Hm. revert k x Hk Hm.
  induction m as [|m IH]; intros k x Hk Hm; pose proof (lookup_lt_Some _ _ _ Hk) as Hlt; rewrite last_lookup in Hl.
  - replace (pred (length p)) with k in Hl by lia. rewrite Hk in Hl. by injection Hl as <-.
  - destruct (lookup_lt_is_Some_2 p (S k)) as [z Hz]; [lia|]. eapply rtc_l; [by eapply Hch|]. eapply (IH (S k)); [done|lia].
Qed.

Lemma visit_child_spec visit p i st child :
  search_inv st → path st = p ++ [i] → E i child →
  (visited st !! child = Some false → visit_ok st child (visit st child)) →
  visit_ok st child (visit_child visit (false, st) child).
Proof.
  intros Hinv Hpath Hic Hvisit. pose proof Hinv as [Hv Hsl Hs Hp _ Hch _ _]. unfold visit_child.
  pose proof (Hrange _ _ Hic) as Hlt. destruct (lookup_lt_is_Some_2 (visited st) child) as [[|] Hvc]; [lia|..]; rewrite Hvc;
    cbn [expect mbind outcome_bind negb]; [|by apply Hvisit].
  destruct (lookup_lt_is_Some_2 (rec_stack st) child) as [[|] Hrc]; [lia|..]; rewrite Hrc; cbn [expect mbind outcome_bind].
  - apply Hs in Hrc. destruct (list_find_elem_of (λ j, j = child) (path st) child Hrc eq_refl) as [[k x] Hf].
    rewrite Hf. cbn [expect mbind outcome_bind]. apply list_find_Some in Hf as (Hk & -> & _). exists true, st. split_and!; [done| |done].
    intros _. exists child. eapply tc_rtc_l; [|by apply tc_once]. eapply chain_reach; [done|done|]. by rewrite Hpath, last_snoc.
  - exists false, st. split_and!; [done|done|]. intros _. split_and!; [done|done|by intros x|]. split; [done|].
    intros Hin%Hs. unfold marked in Hin. congruence.
Qed.

Lemma visit_children_spec visit p i cs : ∀ st,
  search_inv st → path st = p ++ [i] → (∀ y, y ∈ cs → E i y) →
  (∀ st' y, search_inv st' → path st' = p ++ [i] → y ∈ cs → grows (visited st) (visited st') → visited st' !! y = Some false →
     visit_ok st' y (visit st' y)) →
  ∃ found st', foldM (visit_child visit) (false, st) cs = Ok (found, st') ∧ (found = true → ∃ x, tc E x x) ∧
    (found = false → search_inv st' ∧ path st' = p ++ [i] ∧ grows (visited st) (visited st') ∧ ∀ y, y ∈ cs → finished st' y).
Proof.
  induction cs as [|y cs IH]; intros st Hinv Hpath Hcs Hvisit; cbn [foldM].
  { exists false, st. split_and!; [done|done|]. intros _. split_and!; [done|done|by intros x|]. intros y Hy. by apply elem_of_nil in Hy. }
  destruct (visit_child_spec visit p i st y) as (found & st1 & -> & Ht & Hf); [done|done|apply Hcs; by left| |].
  { intros Hy. apply Hvisit; [done|done|by left|by intros x|done]. }
  cbn [mbind outcome_bind]. destruct found.
  - exists true, st1. split_and!; [|by intros _; apply Ht|done]. clear. induction cs as [|z cs IH]; [done|]. cbn [foldM]. exact IH.
  - destruct (Hf eq_refl) as (Hinv1 & Hp1 & Hg1 & Hy1).
    destruct (IH st1) as (found & st2 & Heq & Ht2 & Hf2); [done|by rewrite Hp1|intros z Hz; apply Hcs; by right| |].
    { intros st' z Hi' Hp' Hz Hg'. apply Hvisit; [done|done|by right|]. intros x Hx. by apply Hg', Hg1. }
    exists found, st2. split_and!; [done|done|]. intros Hfalse. destruct (Hf2 Hfalse) as (Hinv2 & Hp2 & Hg2 & Hall).
    split_and!; [done|done|intros x Hx; by apply Hg2, Hg1|]. intros z [->|Hz]%elem_of_cons; [|by apply Hall].
    destruct Hy1 as [Hm Hn]. split; [by apply Hg2|]. rewrite Hp2, <-Hpath, <-Hp1. done.
Qed.

Lemma dfs_spec fuel : ∀ st i,
  search_inv st → visited st !! i = Some false → (∀ x, last (path st) = Some x → E x i) → (unvisited (visited st) < fuel)%nat →
  visit_ok st i (dfs fuel ns st i).
Proof.
  induction fuel as [|fuel IH]; intros st i Hinv Hi Hlast Hfuel; [lia|]. cbn [dfs].
  destruct (enter_spec st i Hinv Hi Hlast) as (st1 & -> & Hp1 & Hg1 & Hu1 & Hlen1 & Hinv1). cbn [mbind outcome_bind].
  destruct (lookup_lt_is_Some_2 ns i) as [node Hnode]; [rewrite <-(si_visited _ Hinv); by eapply lookup_lt_Some|]. rewrite Hnode.
  cbn [expect mbind outcome_bind].
  destruct (visit_children_spec (dfs fuel ns) (path st) i (children_indices node) st1) as (found & st2 & -> & Ht & Hf);
    [done|done|intros y Hy; by exists node| |].
  { intros st' y Hinv' Hp' Hy Hg' Hfy. apply IH; [done|done| |].
    - rewrite Hp', last_snoc. intros x [= <-]. by exists node.
    - pose proof (unvisited_mono (visited st1) (visited st') ltac:(by rewrite (si_visited _ Hinv1), (si_visited _ Hinv')) Hg'). lia. }
  cbn [mbind outcome_bind]. destruct found; [exists true, st2; split_and!; [done|by intros _; apply Ht|done]|].
  destruct (Hf eq_refl) as (Hinv2 & Hp2 & Hg2 & Hch).
  destruct (leave_spec st2 (path st) i Hinv2 Hp2) as (st3 & -> & Hp3 & Hv3 & Hinv3).
  { intros y (n & Hn & Hy). rewrite Hnode in Hn. injection Hn as <-. by apply Hch. }
  cbn [mbind outcome_bind]. exists false, st3. split_and!; [done|done|]. intros _. split_and!; [done|done|by rewrite Hv3; intros x Hx; apply Hg2, Hg1|].
  split; [rewrite Hv3; apply (si_path _ Hinv2); rewrite Hp2; apply elem_of_app; right; by left|].
  rewrite Hp3. pose proof (si_nodup _ Hinv1) as Hnd. rewrite Hp1 in Hnd. apply NoDup_app in Hnd as (_ & Hd & _).
  intros Hin. apply (Hd i Hin). by left.
Qed.

Lemma starts_spec l : ∀ st,
  search_inv st → path st = [] → (∀ i, i ∈ l → (i < length ns)%nat) →
  ∃ found st', foldM (visit_start ns) (false, st) l = Ok (found, st') ∧ (found = true → ∃ x, tc E x x) ∧
    (found = false → search_inv st' ∧ path st' = [] ∧ grows (visited st) (visited st') ∧ ∀ i, i ∈ l → finished st' i).
Proof.
  induction l as [|i l IH]; intros st Hinv Hpath Hl; cbn [foldM].
  { exists false, st. split_and!; [done|done|]. intros _. split_and!; [done|done|by intros x|]. intros i Hi. by apply elem_of_nil in Hi. }
  assert (Hstep : visit_ok st i (visit_start ns (false, st) i)).
  { unfold visit_start. destruct (lookup_lt_is_Some_2 (visited st) i) as [[|] Hv]; [rewrite (si_visited _ Hinv); apply Hl; by left|..];
      rewrite Hv; cbn [expect mbind outcome_bind negb].
    - exists false, st. split_and!; [done|done|]. intros _. split_and!; [done|done|by intros x|]. split; [done|]. rewrite Hpath. apply not_elem_of_nil.
    - rewrite <-Hpath. destruct st as [v r p]. cbn [visited rec_stack path] in *. apply dfs_spec; [done|done|by rewrite Hpath|].
      pose proof (si_visited _ Hinv) as Hlen. cbn in Hlen. rewrite <-Hlen. unfold unvisited. cbn.
      pose proof (length_filter (λ b, b = false) v). lia. }
  destruct Hstep as (found & st1 & -> & Ht & Hf). cbn [mbind outcome_bind]. destruct found.
  - exists true, st1. split_and!; [|by intros _; apply Ht|done]. clear. induction l as [|j l IH]; [done|]. cbn [foldM]. exact IH.
  - destruct (Hf eq_refl) as (Hinv1 & Hp1 & Hg1 & Hi1).
    destruct (IH st1) as (found & st2 & Heq & Ht2 & Hf2); [done|by rewrite Hp1|intros j Hj; apply Hl; by right|].
    exists found, st2. split_and!; [done|done|]. intros Hfalse. destruct (Hf2 Hfalse) as (Hinv2 & Hp2 & Hg2 & Hall).
    split_and!; [done|done|intros x Hx; by apply Hg2, Hg1|]. intros j [->|Hj]%elem_of_cons; [|by apply Hall].
    split; [apply Hg2, Hi1|rewrite Hp2; apply not_elem_of_nil].
Qed.

Lemma new_search_inv : search_inv (mkSearch (replicate (length ns) false) (replicate (length ns) false) []).
Proof.
  assert (Hno : ∀ x, ¬ marked (replicate (length ns) false) x).
  { intros x Hx. by apply lookup_replicate in Hx as [? _]. }
  split; cbn [path visited rec_stack]; rewrite ?length_replicate; try done.
  - intros x. split; [by intros ?%Hno|by intros ?%elem_of_nil].
  - by intros x ?%elem_of_nil.
  - constructor.
  - by intros x y [?%Hno _].
  - by intros x [?%Hno _].
Qed.
End cycle.

(** C40: cycle detection is exact: on every graph whose edges lead to existing nodes the search ends without
    an index out of range, finds the node it met again on its path, and returns true exactly when some
    transaction depends on itself, through any number of others. *)
Theorem has_cycle_exact g (Hrange : ∀ i j, edge g i j → (j < length (nodes g))%nat) :
  ∃ b, has_cycle g = Ok b ∧ (b = true ↔ ∃ x, tc (edge g) x x).
Proof.
  destruct (starts_spec (nodes g) Hrange (seq 0 (length (nodes g))) _ (new_search_inv (nodes g)) eq_refl) as (found & st & Heq & Ht & Hf).
  { intros i Hi. apply elem_of_seq in Hi. lia. }
  exists found. unfold has_cycle. rewrite Heq. split; [done|]. split; [exact Ht|].
  intros [x Hx]. destruct found; [done|]. destruct (Hf eq_refl) as (Hinv & _ & _ & Hall).
  assert (Hlt : (x < length (nodes g))%nat).
  { inversion Hx as [? ? (n & Hn & _)|? ? ? (n & Hn & _)]; subst; by eapply lookup_lt_Some. }
  exfalso. refine (si_acyclic _ _ Hinv x _ Hx). apply Hall, elem_of_seq. lia.
Qed.

(** The graph of a block has no cycle. *)
Lemma has_cycle_wf g : graph_wf g → has_cycle g = Ok false.
Proof.
  intros Hwf. assert (Hord : ∀ i j, tc (edge g) i j → (i < j)%nat).
  { intros i j Hij. induction Hij as [i j Hij|i j k Hij _ IH]; apply (links_order _ (wf_links g Hwf)) in Hij; lia. }
  destruct (starts_spec (nodes g) ltac:(intros i j Hij; apply (links_order _ (wf_links g Hwf)) in Hij; lia)
              (seq 0 (length (nodes g))) _ (new_search_inv (nodes g)) eq_refl) as (found & st & Heq & Ht & _).
  { intros i Hi. apply elem_of_seq in Hi. lia. }
  unfold has_cycle. rewrite Heq. destruct found; [|done]. destruct (Ht eq_refl) as [x Hx]. apply Hord in Hx. lia.
Qed.

(** ** A graph with a cycle behind a shared child *)

Definition cycle_node (cs : list nat) : TransactionNode := with_links (TransactionNode_new 0 0 0 1 ∅ ∅) cs [].
Definition cycle_graph (l : list (list nat)) : TransactionGraph := with_nodes TransactionGraph_new (cycle_node <$> l).

Lemma has_cycle_exact_witness :
  has_cycle (cycle_graph [[1; 2]; [3]; [3]; []]%nat) = Ok false ∧ ∃ x, tc (edge (cycle_graph [[1; 2]; [3]; [3; 4]; []; [2]]%nat)) x x.
Proof.
  split; [vm_compute; reflexivity|].
  destruct (has_cycle_exact (cycle_graph [[1; 2]; [3]; [3; 4]; []; [2]]%nat)) as (b & Hb & Hiff).
  - intros i j (n & Hn & Hj). do 5 (destruct i as [|i]; [cbn in Hn; injection Hn as <-; cbn in *; set_solver by lia|]). done.
  - apply Hiff. vm_compute in Hb. by injection Hb as <-.
Defined.
